(* ===== verification/_CoqProject ===== *)
-Q . S2P
Prelude.v
Digest.v
Binary.v
Stream.v
Envelope.v
Backend.v
MemBackend.v
Store.v
Walk.v
Sweep.v
FileSystem.v
AtomicFile.v
FsBackend.v
Snapshot.v
FsContract.v
FsMaintenance.v
Float64.v
Bloom.v
BloomStandard.v
BloomCounting.v
BloomGuard.v
CacheMem.v
CacheLru.v
Cbor.v
Wp.v
OsFile.v
Pack.v
RefText.v
Refs.v
RefsList.v
FilePath.v
PackFs.v
PackDisk.v
PackContract.v
PackBatch.v
PackRuns.v
Repo.v
Sidecar.v
SidecarDisk.v
SidecarFacts.v
SidecarRecon.v
SidecarRuns.v
Crc64.v
Persistent.v
PersistentHeader.v
PersistentFacts.v
PersistentRuns.v
GoTime.v
WebThrottle.v
WebLimiter.v
WebSessions.v
WebProxy.v
WebAuth.v
Index.v
CodecStack.v
Prefetch.v
