(* ===== verification/Prelude.v ===== *)
(** * A verification development of go-cask

    go-cask (src/cas) is a content-addressable store: objects are framed in a
    self-describing envelope, named by the digest of the frame and kept by a
    backend; maintenance walks the references between objects and removes what no
    root reaches; refs give mutable names to digests.  Around it (src/internal) a
    web view shows a store to those who log in.  This library models those
    packages, operation by operation, and proves what makes each correct.

    ** The layers, bottom up

    - Prelude: Go's errors ([errors.Is] over wrapped ones), the [M] monad (a
      context, a state and a result per call), bytes and wrap-around integers,
      sorting, and the lemmas on them shared by all files.  A context is the list
      of answers of its successive [ctx.Err()] calls; [[]] is one that never ends.
    - Digest (cas/digest.go), Binary (the varints and big-endian integers of
      encoding/binary), Stream (cas/backend/stream.go, context.go, readclose.go).
    - Envelope (cas/envelope.go): the frame, its decoder and its header reads.
    - Backend (cas/backend.go, capabilities.go, batch.go): the backend interface
      as a record of operations, and its contract as the class the clients
      are proved against (an invariant, the map of objects the state stands for,
      what each operation does to that map, that a failed read never blames the
      object layer, and that a fault-free call succeeds).
    - MemBackend (cas/backend/mem/mem.go) and FsBackend (cas/backend/fs/*.go)
      implement it; FsContract and MemBackend hold the instances, PackContract and
      SidecarFacts build one over any backend that has one.  BloomGuard
      (cas/bloom/guard.go) puts a filter before any backend: since its Exists can be
      wrong, it has a contract of its own, over a ledger of what the filter was told.
    - FileSystem, OsFile, AtomicFile: the operating system's calls over a tree of
      entries, each of which may fail by the next element of the fault list, and the
      publish protocol (cas/internal/atomicfile) on top of them.
    - FsMaintenance: Clean, GC and Prune of the filesystem backend.
    - Wp: weakest preconditions for the monad, over every outcome of a call.
    - FilePath: what path/filepath does to strings (Clean, Join, Rel) and UTF-8.
    - PackFs (cas/backend/packfs): the pack-file backend, over any loose backend
      and the disk below its pack directory; a record has its pack file's path as the string
      the code stores, joined to the base the backend was opened with.  PackDisk specifies its disk calls,
      PackContract proves the backend contract and what a reopening finds,
      PackBatch the batched read and Clean; PackRuns has its concrete runs.
    - Store (cas/store.go) is the typed layer over any backend, codec, object
      model and hasher; Walk (cas/reachability.go, walker.go) and Sweep
      (cas/sweep.go, verifier.go, stream.go) are its maintenance; Snapshot
      (cas/backend/mem/snapshot.go, cas/backend/snapshot) its backups; Repo
      (cas/repo) the registry that resolves objects of many types.
    - Sidecar (cas/verify/sidecar) keeps a checksum record beside each object of
      any backend: SidecarDisk specifies its disk, SidecarFacts proves the contract and
      what verification reports, SidecarRecon its reconciliation, SidecarRuns the runs.
    - Bloom, BloomStandard, BloomCounting (cas/bloom): the sizing formula over
      the executable doubles of Float64, and the two filters over packed words.
      Crc64 and Persistent (cas/bloom/persistent) are the filter kept in a file, over any
      mapping driver; PersistentHeader, PersistentFacts and PersistentRuns its theorems.
    - CacheMem and CacheLru (cas/cache): the lazy cache, whose objects are cells
      shared on a heap, and the bounded one; Prefetch (cas/cache/prefetch) the
      cache whose reads start background loads: the goroutines are tasks and the
      calls readers, whose accesses to what they share interleave.
    - Cbor (cas/codec/cbor): the value model, the encoder, the bounded decoder.
      CodecStack (the other packages of cas/codec): codecs over the bytes of a
      codec, with the pools and the ceiling of the compressed ones.
    - Pack (cas/pack): chunks and manifest files.
    - RefText, Refs, RefsList (cas/refs): names, value files and the reflog; the
      operations on one name; the list, Resolve and Roots.
    - Index (internal/index): pages, the best-effort header, the metadata snapshot.
    - GoTime; WebThrottle, WebLimiter, WebSessions, WebProxy (internal/web/throttle.go,
      limit.go, sessions.go, proxy.go): the state machines of the web view, whose
      histories are lists of operations that read a clock; WebAuth (auth.go, csrf.go,
      body.go, the routes of web.go) composes them into the server's gate.

    ** What the theorems show

    - A stored object comes back: Store_Get_after_Put over any backend that
      keeps the contract, with the errors of the other cases; fs_refines,
      packfs_refines, sidecar_refines and mem_Put_spec give the backends, guard_sound
      the guarded ones after any history, packfs_reopen and packfs_GetMany the
      packed objects across a restart (under any spelling of the base) and in a batch, and repo_Resolve_after_Put the same through the registry.
    - Nothing is half written: fs_Put_atomic, SaveWith_atomic and refs_Set_spec hold
      for every list of faults and every context, and give success without them;
      refs_recover says that no history of failures leaves a ref stuck.
    - Nothing in use is removed: Sweep_spec, collect_keeps_reachable,
      repo_collect_keeps, Reachable_correct, and fs_GC_spec, fs_Prune_spec, fs_Clean_spec.
    - Damage is found, and told apart: VerifyAll_spec; sidecar_stays_sound,
      sidecar_Verify_spec and sidecar_Reconcile_spec for the records;
      header_detects_flips for the filter's header; index_Header_spec for listings.
    - Formats read back what was written and refuse the rest: the envelope, both
      snapshots, CBOR, digests, chunks, the reflog, the persistent filter
      (persistent_reopen), and the stacks of codecs (codec_stack_roundtrip,
      codec_Decode_bounded, codec_stack_tag).
    - Optimised or bounded routines agree with their plain definition:
      ReadWhole_reads_all, PeekHeader_agrees, the packed filters (membership is a set of
      bits, or a count of the digests present), the LRU cache's list and index,
      pooled compressors (codec_pools_invisible).
    - Background loads change no answer: prefetch_reads, and prefetch_ends for one of them.
    - Lists are complete: refs_List_spec, the backends' List and BuildSnapshot_spec are the
      stored names or an error, never a part of them.
    - Only who logged in is served: web_authorized and web_login_serves, over every
      history of requests; web_guesses_bounded and throttle_refusal bound the guessing of
      tokens per caller, which callerIP_not_chosen says who is; limiter_rate and
      limiter_refusal bound the expensive operations; sessions_refine gives the
      session store as grants that lapse, trail_is_history its navigation.

    ** Bounds and fuel

    Recursions that follow a loop of the code take fuel from what bounds the loop:
    the length of the data (the readers, Split, TrimSpace), ten bytes (varints), twenty
    digits (an int64), the ten thousand temp names the publish tries, the LRU
    list's length, and CBOR's depth limit.  Running out is not a result of any of
    them, which the theorems on success show.  The graph walk takes a number of
    steps as an argument: Reachable_terminates gives one that is enough for a finite graph.
    Instants are unbounded; where a sum of durations could overflow, a theorem assumes a
    span of use below 2^62 nanoseconds, a hundred and forty years.

    ** Where the code falls short of its comments

    checkLayout_wraps, chosen_by_the_caller, guard_false_absent, Split_overflow, refs_tmp_hidden,
    refs_torn_hides_next, torn_line_accepted, header_limit_short, maxRecordBytes_overflow,
    maxRecordBytes_ignored, persistent_silent_loss, raw_object_unreadable,
    roleTokens_by_token, prefetch_poisons_read, prefetch_misses_near and
    throttle_sweep_forgets are concrete runs; binary_New_nil, wrapped_layout_panics, second_line_unread,
    packfs_failed_close_sticks, limiter_never_forgets and trail_loses_its_end hold of every
    state or number of steps; packfs_reopen has the base under which every record is
    lost, and sidecar_Reconcile_spec excludes a record that no digest of the backend
    names, which fails every run.

    ** Not modelled

    Locks: an operation is a critical section, and a concurrent run an
    interleaving of operations (the memory backend's Put is two of them, a read
    of the prefetching cache up to five).  A host path that links or a working
    directory leads elsewhere: a base is the string it is opened with, and a
    manifest's string is looked up where [filepath.Clean] puts it.  The stores of a shared mapping:
    between an open filter's calls its file is whatever a flush leaves, but
    persistent_reopen holds whatever the file is when the close begins.  The
    digest function, the compressed formats, gob, [math.Log], [hash/maphash], the JSON and URL parsers, the
    address parser of package net and the memory mapping of a Unix system are parameters,
    the last with its contract stated.
    Options and constructors that only clean host paths (Open, New's plumbing),
    callbacks of the caches, the pages and templates of the web view, and the programs around the
    library (cmd, gitlike, examples). *)

From stdpp Require Export base tactics list gmap sorting strings countable numbers.
From Stdlib Require Export Strings.Byte.
From Stdlib Require Export Lia.

#[global] Open Scope Z_scope.
#[global] Set Default Goal Selector "!".
#[export] Set Warnings "-clear-no-such-hyp".
#[global] Unset Printing Use Implicit Types.

(** ** Bytes

    A Go byte slice, and a Go string, is a list of bytes. *)
Abbreviation bytes := (list byte).

Lemma to_N_inj a b : Byte.to_N a = Byte.to_N b -> a = b.
Proof. intros H. apply (f_equal Byte.of_N) in H. rewrite !Byte.of_to_N in H. congruence. Qed.
#[global] Instance byte_eq_dec : EqDecision byte := fun a b =>
  match decide (Byte.to_N a = Byte.to_N b) with
  | left H => left (to_N_inj a b H)
  | right H => right (fun E => H (f_equal Byte.to_N E))
  end.

(** ** Go errors

    A package-level sentinel, an [errors.New] (or [fmt.Errorf] without a
    [%w] verb), [fmt.Errorf] with one or two [%w] verbs, and the two error
    structs of the library: atomicfile.Error, with its phase and cause, and
    repo.UnknownTypeError, with a digest and a type name.  The message is the format string; its other arguments
    are not recorded. *)
Inductive sentinel : Set :=
  | ErrNotFound | ErrDigestMismatch | ErrInvalidDigest | ErrUnknownType
  | ErrCorrupt | ErrCodecMismatch | ErrUnsupported
  | Canceled | DeadlineExceeded
  | EOF | ErrUnexpectedEOF | ErrShortWrite
  | ErrNotExist | ErrExist
  | ErrUnsafeTarget | ErrFilterTooLarge
  | ErrTooDeep | ErrIntegerRange | ErrNilCodec | ErrDecodedTooLarge
  | RefsNotFound | RefsAmbiguous | RefsInvalidName
  | ErrChecksumAlgorithm | ErrUnrecorded | ErrRecordTooLarge.

Inductive error : Set :=
  | Sentinel (s : sentinel)
  | New (msg : string)
  | Errorf (msg : string) (cause : error)
  | Errorf2 (msg : string) (cause1 cause2 : error)
  | Phased (phase : Z) (cause : error)
  | UnknownType (digest typeName : bytes).

#[global] Instance sentinel_eq_dec : EqDecision sentinel.
Proof. solve_decision. Defined.
#[global] Instance error_eq_dec : EqDecision error.
Proof. solve_decision. Defined.

Coercion Sentinel : sentinel >-> error.

(** [errors.Is]: the sentinel occurs in the chain of wrapped errors. *)
Fixpoint errIs (e : error) (s : sentinel) : bool :=
  match e with
  | Sentinel s' => bool_decide (s' = s)
  | New _ => false
  | Errorf _ c => errIs c s
  | Errorf2 _ c1 c2 => errIs c1 s || errIs c2 s
  | Phased _ c => errIs c s
  | UnknownType _ _ => bool_decide (ErrUnknownType = s)
  end.

(** ** Results: the pair [(v, err)] of a Go call *)
Inductive res (A : Type) : Type :=
  | Ok (a : A)
  | Err (e : error).
Arguments Ok {A} a.
Arguments Err {A} e.

#[global] Instance res_eq_dec {A} `{EqDecision A} : EqDecision (res A).
Proof. solve_decision. Defined.

#[global] Instance res_ret : MRet res := fun A a => Ok a.
#[global] Instance res_bind : MBind res := fun A B f m =>
  match m with Ok a => f a | Err e => Err e end.
#[global] Instance res_fmap : FMap res := fun A B f m =>
  match m with Ok a => Ok (f a) | Err e => Err e end.

Definition is_ok {A} (r : res A) : bool := match r with Ok _ => true | Err _ => false end.
Definition res_errIs {A} (r : res A) (s : sentinel) : bool :=
  match r with Ok _ => false | Err e => errIs e s end.
Definition wrapErr {A} (f : error -> error) (r : res A) : res A :=
  match r with Ok a => Ok a | Err e => Err (f e) end.

(** ** Contexts

    A [context.Context] is the list of the answers that its successive
    [Err()] calls give, [None] for nil; once the list is exhausted every answer
    is nil.  [[]] is [context.Background()].  A theorem over every such list
    covers a cancellation that arrives at any check of a call.  The two
    non-nil answers are those [context] documents. *)
Inductive ctxDone : Set := CtxCanceled | CtxDeadlineExceeded.
Definition ctxDoneErr (d : ctxDone) : error :=
  match d with CtxCanceled => Canceled | CtxDeadlineExceeded => DeadlineExceeded end.
Abbreviation ctx := (list (option ctxDone)).

(** ** The state-and-error monad of the operations

    An operation takes the context and the state it mutates and gives its
    result, the context left and the new state; a failing call keeps the state
    it had reached. *)
Definition M (S A : Type) : Type := ctx -> S -> res A * ctx * S.

#[global] Instance M_ret {S} : MRet (M S) := fun A a c s => (Ok a, c, s).
#[global] Instance M_bind {S} : MBind (M S) := fun A B f m c s =>
  match m c s with
  | (Ok a, c', s') => f a c' s'
  | (Err e, c', s') => (Err e, c', s')
  end.

Definition throw {S A} (e : error) : M S A := fun c s => (Err e, c, s).
Definition lift {S A} (r : res A) : M S A := fun c s => (r, c, s).
Definition get {S} : M S S := fun c s => (Ok s, c, s).
Definition put {S} (s : S) : M S unit := fun c _ => (Ok tt, c, s).
Definition gets {S A} (f : S -> A) : M S A := fun c s => (Ok (f s), c, s).
Definition modify {S} (f : S -> S) : M S unit := fun c s => (Ok tt, c, f s).
(** The call with its error as a value: [v, err := f()] followed by a test. *)
Definition attempt {S A} (m : M S A) : M S (res A) := fun c s =>
  match m c s with (r, c', s') => (Ok r, c', s') end.
Definition mapErr {S A} (f : error -> error) (m : M S A) : M S A := fun c s =>
  match m c s with (r, c', s') => (wrapErr f r, c', s') end.

(** [ctx.Err()]. *)
Definition ctxErr {S} : M S unit := fun c s =>
  match c with
  | [] => (Ok tt, [], s)
  | None :: c' => (Ok tt, c', s)
  | Some e :: c' => (Err (ctxDoneErr e), c', s)
  end.

(** [for _, x := range l { if err := f(x); err != nil { return err } }]. *)
Fixpoint forM_ {S A} (l : list A) (f : A -> M S unit) : M S unit :=
  match l with
  | [] => mret tt
  | x :: l' => f x;; forM_ l' f
  end.

(** The same loop with an accumulator. *)
Fixpoint foldM {S A B} (l : list A) (acc : B) (f : B -> A -> M S B) : M S B :=
  match l with
  | [] => mret acc
  | x :: l' => acc' ← f acc x; foldM l' acc' f
  end.

Definition run_res {S A} (o : res A * ctx * S) : res A := o.1.1.
Definition run_st {S A} (o : res A * ctx * S) : S := o.2.

(** A sequence of two calls: the first succeeded and the second ran, or the
    first failed and that is the outcome. *)
Lemma bind_inv {S A B} (m : M S A) (f : A -> M S B) c s r c' s' :
  (m ≫= f) c s = (r, c', s') ->
  (exists a c1 s1, m c s = (Ok a, c1, s1) /\ f a c1 s1 = (r, c', s')) \/
  (exists e, m c s = (Err e, c', s') /\ r = Err e).
Proof.
  unfold mbind, M_bind. destruct (m c s) as [[[a|e] c1] s1]; [eauto 10|].
  intros [= <- <- <-]. eauto.
Qed.
Lemma bind_ok {S A B} (m : M S A) (f : A -> M S B) c s a c1 s1 :
  m c s = (Ok a, c1, s1) -> (m ≫= f) c s = f a c1 s1.
Proof. unfold mbind, M_bind. by intros ->. Qed.
Lemma bind_err {S A B} (m : M S A) (f : A -> M S B) c s e c1 s1 :
  m c s = (Err e, c1, s1) -> (m ≫= f) c s = (Err e, c1, s1).
Proof. unfold mbind, M_bind. by intros ->. Qed.

Lemma bind_attempt {S A B} (m : M S A) (f : res A -> M S B) c s r c' s' :
  (attempt m ≫= f) c s = (r, c', s') ->
  exists r0 c1 s1, m c s = (r0, c1, s1) /\ f r0 c1 s1 = (r, c', s').
Proof. unfold mbind, M_bind, attempt. destruct (m c s) as [[r0 c1] s1]. eauto. Qed.

(** Split the outcome [H] of a sequence: [H1] is what the first call did; a
    failure of the first call is discarded when [H] says the sequence succeeded. *)
Tactic Notation "mstep" hyp(H) "as" ident(H1) :=
  apply bind_inv in H as [(? & ? & ? & H1 & H)|(? & H1 & H)];
  [|match type of H with
    | ?r = _ => first [is_var r; subst r | discriminate H | idtac]
    end].

(** The same, naming the value, the context and the state the first call left. *)
Tactic Notation "mstep" hyp(H) "as" ident(H1) "with" ident(a) ident(c1) ident(s1) :=
  apply bind_inv in H as [(a & c1 & s1 & H1 & H)|(? & H1 & H)];
  [|match type of H with
    | ?r = _ => first [is_var r; subst r | discriminate H | idtac]
    end].

Lemma ctxErr_inv {S} (c : ctx) (s : S) r c' s' : ctxErr c s = (r, c', s') -> s' = s.
Proof. unfold ctxErr. destruct c as [|[e|] c]; intros; simplify_eq; done. Qed.
(** A context's error is none of the library's. *)
Definition is_ctx_err (e : error) : Prop := e = Sentinel Canceled \/ e = Sentinel DeadlineExceeded.
Lemma ctxErr_err {S} (c : ctx) (s : S) e c' s' : ctxErr c s = (Err e, c', s') -> is_ctx_err e.
Proof. unfold ctxErr, is_ctx_err. destruct c as [|[[]|] c]; intros; simplify_eq; auto. Qed.
Lemma is_ctx_err_not e s : is_ctx_err e -> errIs e s = true -> s = Canceled \/ s = DeadlineExceeded.
Proof. intros [-> | ->]; simpl; intros H%bool_decide_eq_true; auto. Qed.
Lemma lift_inv {S A} (x : res A) (c : ctx) (s : S) r c' s' :
  lift x c s = (r, c', s') -> r = x /\ c' = c /\ s' = s.
Proof. unfold lift. intros; simplify_eq; done. Qed.
Lemma mapErr_inv {S A} f (m : M S A) (c : ctx) (s : S) r c' s' :
  mapErr f m c s = (r, c', s') -> exists r0, m c s = (r0, c', s') /\ r = wrapErr f r0.
Proof. unfold mapErr. destruct (m c s) as [[r0 c0] s0]. intros; simplify_eq; eauto. Qed.
Lemma ctxErr_nil {S} (s : S) : ctxErr [] s = (Ok tt, [], s).
Proof. done. Qed.

(** Unfold the monad's plumbing. *)
Ltac munfold :=
  unfold mbind, mret, M_bind, M_ret, res_bind, res_ret, throw, lift, get, put,
    gets, modify, attempt, mapErr, ctxErr in *.

(** [lia] with division and remainder by constants. *)
Ltac zlia := Z.to_euclidean_division_equations; lia.

Create HintDb cask.

(** ** Bytes as numbers *)
Definition b2z (b : byte) : Z := Z.of_N (Byte.to_N b).
Definition z2b (z : Z) : byte :=
  match Byte.of_N (Z.to_N (z `mod` 256)) with Some b => b | None => x00 end.

#[global] Instance byte_inhabited : Inhabited byte := populate x00.
#[global] Program Instance byte_countable : Countable byte :=
  inj_countable Byte.to_N Byte.of_N _.
Next Obligation. intros b. apply Byte.of_to_N. Qed.

Lemma b2z_range b : 0 <= b2z b < 256.
Proof. unfold b2z. pose proof (Byte.to_N_bounded b). lia. Qed.

Lemma z2b_b2z b : z2b (b2z b) = b.
Proof.
  unfold z2b. pose proof (b2z_range b). rewrite Z.mod_small by done.
  unfold b2z. rewrite N2Z.id, Byte.of_to_N. done.
Qed.

Lemma b2z_z2b z : b2z (z2b z) = z `mod` 256.
Proof.
  unfold z2b. pose proof (Z.mod_pos_bound z 256 ltac:(lia)).
  destruct (Byte.of_N (Z.to_N (z `mod` 256))) as [b|] eqn:E.
  - apply Byte.to_of_N in E. unfold b2z. rewrite E. lia.
  - apply Byte.of_N_None_iff in E. lia.
Qed.

Lemma b2z_z2b_small z : 0 <= z < 256 -> b2z (z2b z) = z.
Proof. intros. rewrite b2z_z2b. apply Z.mod_small. lia. Qed.

#[global] Instance b2z_inj : Inj (=) (=) b2z.
Proof. intros a b H. rewrite <- (z2b_b2z a), <- (z2b_b2z b), H. done. Qed.

(** A literal: the bytes of an ASCII string constant of the source. *)
Definition str (s : string) : bytes := String.list_byte_of_string s.

Abbreviation blen l := (Z.of_nat (length l)).

(** ** Fixed-width integers *)
Definition MaxInt64 : Z := 2^63 - 1.
Definition wrap64 (z : Z) : Z := z `mod` 2^64.
(** The two's complement value of a 64-bit word. *)
Definition int64 (z : Z) : Z := (z + 2^63) `mod` 2^64 - 2^63.

Lemma int64_id z : - 2^63 <= z < 2^63 -> int64 z = z.
Proof. intros. unfold int64. rewrite Z.mod_small; lia. Qed.
Lemma wrap64_id z : 0 <= z < 2^64 -> wrap64 z = z.
Proof. intros. apply Z.mod_small. lia. Qed.

(** ** [bytes.Compare] and [slices.SortFunc(_, bytes.Compare)] *)
Fixpoint bytes_compare (a b : bytes) : comparison :=
  match a, b with
  | [], [] => Eq
  | [], _ :: _ => Lt
  | _ :: _, [] => Gt
  | x :: a', y :: b' =>
    match b2z x ?= b2z y with Eq => bytes_compare a' b' | c => c end
  end.

Definition bytes_le (a b : bytes) : Prop := bytes_compare a b <> Gt.

#[global] Instance bytes_le_dec : RelDecision bytes_le.
Proof. intros a b. unfold bytes_le. solve_decision. Defined.

Lemma bytes_compare_antisym a b : bytes_compare b a = CompOpp (bytes_compare a b).
Proof.
  revert b. induction a as [|x a IH]; intros [|y b]; simpl; try done.
  rewrite (Z.compare_antisym (b2z x)). destruct (b2z x ?= b2z y); simpl; auto.
Qed.

Lemma bytes_compare_eq a b : bytes_compare a b = Eq <-> a = b.
Proof.
  revert b. induction a as [|x a IH]; intros [|y b]; simpl; split; try done.
  - destruct (Z.compare_spec (b2z x) (b2z y)) as [E|E|E]; try done.
    intros H. apply IH in H as ->. apply (inj b2z) in E as ->. done.
  - intros [= -> ->]. rewrite Z.compare_refl. by apply IH.
Qed.

#[global] Instance bytes_le_total : Total bytes_le.
Proof.
  intros a b. unfold bytes_le. rewrite (bytes_compare_antisym a b).
  destruct (bytes_compare a b); simpl; auto.
Qed.

#[global] Instance bytes_le_antisymm : AntiSymm (=) bytes_le.
Proof.
  intros a b. unfold bytes_le. rewrite (bytes_compare_antisym a b). intros H1 H2.
  apply bytes_compare_eq. destruct (bytes_compare a b); done.
Qed.

#[global] Instance bytes_le_trans : Transitive bytes_le.
Proof.
  unfold bytes_le. intros a. induction a as [|x a IH]; intros [|y b] [|z c]; simpl; try done.
  destruct (Z.compare_spec (b2z x) (b2z y)) as [E|E|E]; try done.
  - rewrite E. destruct (b2z y ?= b2z z); eauto.
  - destruct (Z.compare_spec (b2z y) (b2z z)) as [E'|E'|E']; try done.
    + rewrite <- E'. destruct (Z.compare_spec (b2z x) (b2z y)); try done; lia.
    + destruct (Z.compare_spec (b2z x) (b2z z)); try done; lia.
Qed.

Definition sortBytes (l : list bytes) : list bytes := merge_sort bytes_le l.

Lemma sortBytes_perm l : Permutation (sortBytes l) l.
Proof. apply merge_sort_Permutation. Qed.
Lemma sortBytes_sorted l : StronglySorted bytes_le (sortBytes l).
Proof. apply (StronglySorted_merge_sort _). Qed.
Lemma elem_of_sortBytes l x : x ∈ sortBytes l <-> x ∈ l.
Proof. by rewrite sortBytes_perm. Qed.
Lemma NoDup_sortBytes l : NoDup l -> NoDup (sortBytes l).
Proof. by rewrite sortBytes_perm. Qed.
(** Sorting is canonical: the order is total and antisymmetric. *)
Lemma sortBytes_perm_eq l1 l2 : Permutation l1 l2 -> sortBytes l1 = sortBytes l2.
Proof.
  intros H. apply (StronglySorted_unique bytes_le); try apply sortBytes_sorted.
  by rewrite !sortBytes_perm.
Qed.
Lemma sortBytes_id l : StronglySorted bytes_le l -> sortBytes l = l.
Proof.
  intros H. apply (StronglySorted_unique bytes_le); try done.
  - apply sortBytes_sorted.
  - apply sortBytes_perm.
Qed.

(** ** Lists *)
Lemma take_drop_app_eq {A} (l k : list A) n :
  n = length l -> take n (l ++ k) = l /\ drop n (l ++ k) = k.
Proof. intros ->. by rewrite take_app_length, drop_app_length. Qed.

Lemma take_app_exact {A} (l k : list A) n : n = length l -> take n (l ++ k) = l.
Proof. intros. by apply take_drop_app_eq. Qed.
Lemma drop_app_exact {A} (l k : list A) n : n = length l -> drop n (l ++ k) = k.
Proof. intros. by apply take_drop_app_eq. Qed.

Lemma filter_all {A} (P : A -> Prop) {HP : forall x, Decision (P x)} (l : list A) :
  (forall x, x ∈ l -> P x) -> filter P l = l.
Proof.
  induction l as [|x l IH]; intros Hl; [done|]. rewrite filter_cons, decide_True by (apply Hl; left).
  f_equal. apply IH. intros y Hy. apply Hl. by right.
Qed.
Lemma NoDup_omap {A B} (f : A -> option B) (l : list A) :
  NoDup l -> (forall x y b, x ∈ l -> y ∈ l -> f x = Some b -> f y = Some b -> x = y) -> NoDup (omap f l).
Proof.
  induction 1 as [|x l Hx _ IH]; intros Hf; [constructor|]. cbn.
  assert (Hl : NoDup (omap f l)) by (apply IH; intros y z b Hy Hz; apply (Hf y z b); by right).
  destruct (f x) as [b|] eqn:E; [|done]. constructor; [|done].
  intros (y & Hy & Ey)%list_elem_of_omap. apply Hx. by rewrite (Hf x y b) by (done || by left || by right).
Qed.
Lemma StronglySorted_filter {A} (R : A -> A -> Prop) (P : A -> Prop) `{!forall x, Decision (P x)} l :
  StronglySorted R l -> StronglySorted R (filter P l).
Proof.
  induction 1 as [|x l _ IH Hx]; [constructor|]. rewrite filter_cons. case_decide; [|done].
  constructor; [done|]. rewrite list.Forall_forall in *. intros y [_ Hy]%list_elem_of_filter. auto.
Qed.

(** ** More on 64-bit integers *)
Lemma int64_range z : - 2^63 <= int64 z < 2^63.
Proof. unfold int64. pose proof (Z.mod_pos_bound (z + 2^63) (2^64) ltac:(lia)). lia. Qed.
Lemma int64_add_l a b : int64 (int64 a + b) = int64 (a + b).
Proof.
  unfold int64. f_equal.
  replace ((a + 2^63) `mod` 2^64 - 2^63 + b + 2^63) with ((a + 2^63) `mod` 2^64 + b) by lia.
  rewrite Zplus_mod_idemp_l. f_equal. lia.
Qed.
Lemma int64_add_r a b : int64 (a + int64 b) = int64 (a + b).
Proof. by rewrite Z.add_comm, int64_add_l, Z.add_comm. Qed.
Lemma int64_sub_l a b : int64 (int64 a - b) = int64 (a - b).
Proof. apply (int64_add_l a (- b)). Qed.

(** ** The bytes a map holds *)
Definition olen (o : option bytes) : Z := match o with Some b => blen b | None => 0 end.
Lemma olen_nonneg o : 0 <= olen o.
Proof. destruct o; simpl; lia. Qed.
Definition sumLen {K} `{Countable K} (m : gmap K bytes) : Z := map_fold (fun _ b acc => blen b + acc) 0 m.

Section sumLen.
Context {K : Type} `{Countable K}.
Implicit Types (m : gmap K bytes) (k : K).

Lemma sumLen_empty : sumLen (∅ : gmap K bytes) = 0.
Proof. apply map_fold_empty. Qed.
Lemma sumLen_insert_None m k b : m !! k = None -> sumLen (<[k := b]> m) = blen b + sumLen m.
Proof. intros. unfold sumLen. rewrite map_fold_insert_L; [done| |done]. intros; lia. Qed.
Lemma sumLen_delete m k : sumLen (delete k m) = sumLen m - olen (m !! k).
Proof.
  destruct (m !! k) as [b|] eqn:E; simpl.
  - rewrite <- (insert_delete_id m k b) at 2 by done.
    rewrite sumLen_insert_None by apply lookup_delete_eq. lia.
  - rewrite delete_id by done. lia.
Qed.
Lemma sumLen_insert m k b : sumLen (<[k := b]> m) = sumLen m - olen (m !! k) + blen b.
Proof.
  rewrite <- insert_delete_eq, sumLen_insert_None by apply lookup_delete_eq.
  rewrite sumLen_delete. lia.
Qed.
Lemma sumLen_nonneg m : 0 <= sumLen m.
Proof.
  induction m as [|k b m Hk IH] using map_ind; [by rewrite sumLen_empty|].
  rewrite sumLen_insert_None by done. lia.
Qed.
Lemma sumLen_lookup m k : olen (m !! k) <= sumLen m.
Proof. pose proof (sumLen_nonneg (delete k m)). rewrite sumLen_delete in *. lia. Qed.
End sumLen.

(** ** Loops *)

(** An invariant of a loop, over every outcome: the state stays in the
    invariant, and a loop that ends has run every iteration. *)
Lemma forM_inv {S A} (P : S -> Prop) (l : list A) (f : A -> M S unit) c s r c' s' :
  (forall x c s r c' s', x ∈ l -> P s -> f x c s = (r, c', s') -> P s') ->
  P s -> forM_ l f c s = (r, c', s') -> P s'.
Proof.
  revert c s. induction l as [|x l IH]; intros c s Hf HP H; simpl in H.
  - unfold mret, M_ret in H. by simplify_eq.
  - mstep H as E.
    + eapply IH; [|eapply Hf; [apply list_elem_of_here|exact HP|exact E]|exact H].
      intros y c0 s0 r0 c1 s1 Hy Hs0 Hr0. eapply Hf; [by apply list_elem_of_further|exact Hs0|exact Hr0].
    + eapply Hf; [apply list_elem_of_here|exact HP|exact E].
Qed.

Lemma foldM_inv {S A B} (P : list A -> B -> S -> Prop) (l done : list A) (acc : B) (f : B -> A -> M S B) c s r c' s' :
  (forall done acc x c s a c' s', x ∈ l -> P done acc s -> f acc x c s = (Ok a, c', s') -> P (done ++ [x]) a s') ->
  P done acc s -> foldM l acc f c s = (Ok r, c', s') -> P (done ++ l) r s'.
Proof.
  revert done acc c s. induction l as [|x l IH]; intros done acc c s Hf HP H; simpl in H.
  - unfold mret, M_ret in H. simplify_eq. by rewrite app_nil_r.
  - mstep H as E. rewrite cons_middle, app_assoc. eapply IH; [| |exact H].
    + intros dn a y c0 s0 b c1 s1 Hy. apply Hf. by apply list_elem_of_further.
    + eapply Hf; [apply list_elem_of_here|exact HP|exact E].
Qed.
Lemma foldM_state {S A B} (P : S -> Prop) (l : list A) (acc : B) (f : B -> A -> M S B) c s r c' s' :
  (forall acc x c s r c' s', P s -> f acc x c s = (r, c', s') -> P s') ->
  P s -> foldM l acc f c s = (r, c', s') -> P s'.
Proof.
  intros Hf. revert acc c s. induction l as [|x l IH]; intros acc c s HP H; simpl in H.
  - unfold mret, M_ret in H. by simplify_eq.
  - mstep H as E; [|by eapply Hf]. eapply IH; [|exact H]. by eapply Hf.
Qed.
