(* ===== verification/Digest.v ===== *)
(** Digests (src/cas/digest.go): the content digest as an opaque byte string,
    its lowercase-hex text form, the strict parse, and the guard every store
    and backend applies to its keys.  [encoding/hex] is the standard library's
    and is modelled at the top of the file. *)

From S2P Require Import Prelude.

(** ** encoding/hex *)
Definition hexDigit (n : Z) : byte := z2b (if n <? 10 then 48 + n else 87 + n).

Definition fromHexChar (c : byte) : option Z :=
  let v := b2z c in
  if (48 <=? v) && (v <=? 57) then Some (v - 48)
  else if (97 <=? v) && (v <=? 102) then Some (v - 97 + 10)
  else if (65 <=? v) && (v <=? 70) then Some (v - 65 + 10)
  else None.

(** [hex.EncodeToString] (and [hex.Encode]). *)
Fixpoint hexEncode (d : bytes) : bytes :=
  match d with
  | [] => []
  | b :: d' => hexDigit (Z.shiftr (b2z b) 4) :: hexDigit (Z.land (b2z b) 15) :: hexEncode d'
  end.

(** [hex.Decode]: either letter case, [None] on an odd length or another byte. *)
Fixpoint hexDecode (s : bytes) : option bytes :=
  match s with
  | [] => Some []
  | [_] => None
  | a :: b :: s' =>
    match fromHexChar a, fromHexChar b with
    | Some h, Some l =>
      match hexDecode s' with
      | Some d => Some (z2b (Z.lor (Z.shiftl h 4) l) :: d)
      | None => None
      end
    | _, _ => None
    end
  end.

(** ** The digest *)
Abbreviation Digest := (list byte).

Definition NewDigest (b : bytes) : Digest := if decide (length b = 0%nat) then [] else b.

Definition IsZero (d : Digest) : bool := Nat.eqb (length d) 0.

Definition Equal (d other : Digest) : bool :=
  if IsZero d || IsZero other then false else bool_decide (d = other).

Definition DigestBytes (d : Digest) : bytes := if Nat.eqb (length d) 0 then [] else d.

Definition stackHex : Z := 128.

(** The stack-buffer path writes the encoding over a zeroed buffer of
    [stackHex] bytes and keeps the [n] bytes that [hex.Encode] wrote. *)
Definition DString (d : Digest) : bytes :=
  if Nat.eqb (length d) 0 then []
  else if 2 * blen d <=? stackHex then
    let buf := hexEncode d ++ replicate (Z.to_nat stackHex - 2 * length d) x00 in
    take (2 * length d) buf
  else hexEncode d.

Definition Prefix (d : Digest) (n : Z) : bytes :=
  if n <=? 0 then []
  else let s := DString d in
       if blen s <=? n then s else take (Z.to_nat n) s.

Definition MarshalText (d : Digest) : bytes :=
  if Nat.eqb (length d) 0 then [] else hexEncode d.

Definition isLowerHexChar (c : byte) : bool :=
  let v := b2z c in
  negb (((v <? 48) || (57 <? v)) && ((v <? 97) || (102 <? v))).

Definition isLowerHex (b : bytes) : bool :=
  if Nat.eqb (length b) 0 then false else forallb isLowerHexChar b.

Definition UnmarshalText (b : bytes) : res Digest :=
  if Nat.eqb (length b) 0 then Ok []
  else if negb (Nat.even (length b)) || negb (isLowerHex b) then
    Err (Errorf "%w: %q is not a hex digest" ErrInvalidDigest)
  else match hexDecode b with
       | None => Err (Errorf "%w: %q" ErrInvalidDigest)
       | Some raw => Ok raw
       end.

Definition ParseDigest (s : bytes) : res Digest :=
  d ← UnmarshalText s;
  if IsZero d then Err (Errorf "%w: empty digest" ErrInvalidDigest) else Ok d.

Definition CheckDigest (d : Digest) (what : string) : res unit :=
  if IsZero d then Err (Errorf (what +:+ ": absent digest") ErrInvalidDigest) else Ok tt.

(** ** Lemmas *)
Lemma IsZero_true d : IsZero d = true <-> d = [].
Proof. unfold IsZero. destruct d; naive_solver. Qed.
Lemma IsZero_false d : IsZero d = false <-> d <> [].
Proof. unfold IsZero. destruct d; naive_solver. Qed.
Lemma IsZero_cons b d : IsZero (b :: d) = false.
Proof. done. Qed.

Lemma CheckDigest_ok d what : d <> [] -> CheckDigest d what = Ok tt.
Proof. intros H. unfold CheckDigest. apply IsZero_false in H. by rewrite H. Qed.
Lemma CheckDigest_ok_inv d what u : CheckDigest d what = Ok u -> d <> [].
Proof. unfold CheckDigest. by destruct d. Qed.

Lemma NewDigest_id b : NewDigest b = b.
Proof. unfold NewDigest. case_decide; [by destruct b | done]. Qed.

Lemma length_hexEncode d : length (hexEncode d) = (2 * length d)%nat.
Proof. induction d; simpl; lia. Qed.

Lemma hexDigit_b2z n : 0 <= n < 16 -> b2z (hexDigit n) = if n <? 10 then 48 + n else 87 + n.
Proof. intros. unfold hexDigit. apply b2z_z2b_small. destruct (Z.ltb_spec n 10); lia. Qed.

Lemma hexDigit_lower n : 0 <= n < 16 -> isLowerHexChar (hexDigit n) = true.
Proof. intros. unfold isLowerHexChar. rewrite hexDigit_b2z by done. destruct (Z.ltb_spec n 10); lia. Qed.

Lemma fromHexChar_hexDigit n : 0 <= n < 16 -> fromHexChar (hexDigit n) = Some n.
Proof.
  intros. unfold fromHexChar. rewrite hexDigit_b2z by done.
  destruct (Z.ltb_spec n 10); repeat case_match; try (f_equal; lia); exfalso; lia.
Qed.

Lemma hexDigit_fromHexChar c n :
  isLowerHexChar c = true -> fromHexChar c = Some n -> hexDigit n = c /\ 0 <= n < 16.
Proof.
  unfold isLowerHexChar, fromHexChar. intros H. pose proof (b2z_range c).
  repeat case_match; intros; simplify_eq; try lia.
  all: split; [apply (inj b2z); rewrite hexDigit_b2z by lia|lia].
  all: repeat case_match; lia.
Qed.

Lemma isLowerHexChar_from c : isLowerHexChar c = true -> is_Some (fromHexChar c).
Proof. unfold isLowerHexChar, fromHexChar. repeat case_match; eauto; lia. Qed.

Lemma nibble_hi b : 0 <= Z.shiftr (b2z b) 4 < 16.
Proof. pose proof (b2z_range b). rewrite Z.shiftr_div_pow2 by done. zlia. Qed.
Lemma nibble_lo b : 0 <= Z.land (b2z b) 15 < 16.
Proof. change 15 with (Z.ones 4). rewrite Z.land_ones by done. apply Z.mod_pos_bound. done. Qed.
Lemma nibble_join h l : 0 <= l < 16 -> Z.lor (Z.shiftl h 4) l = h * 16 + l.
Proof.
  intros. rewrite Z.shiftl_mul_pow2 by done. pose proof (Z.add_lor_land (h * 2^4) l).
  enough (Z.land (h * 2^4) l = 0) by lia.
  apply Z.bits_inj'. intros n Hn. rewrite Z.land_spec, Z.bits_0.
  destruct (Z.lt_ge_cases n 4).
  - rewrite (Z.mul_pow2_bits_low h 4 n) by done. done.
  - rewrite (Z.bits_above_log2 l n), andb_false_r; [done|lia|].
    destruct (decide (l = 0)) as [->|]; [simpl; lia|].
    apply Z.log2_lt_pow2; [lia|]. apply Z.lt_le_trans with (2^4); [lia|].
    by apply Z.pow_le_mono_r.
Qed.
Lemma nibble_split b : Z.shiftr (b2z b) 4 * 16 + Z.land (b2z b) 15 = b2z b.
Proof.
  rewrite Z.shiftr_div_pow2 by done. change 15 with (Z.ones 4). rewrite Z.land_ones by done.
  change (2^4) with 16. pose proof (Z.div_mod (b2z b) 16). lia.
Qed.

Lemma hexDecode_encode d : hexDecode (hexEncode d) = Some d.
Proof.
  induction d as [|b d IH]; simpl; [done|].
  rewrite !fromHexChar_hexDigit by (apply nibble_hi || apply nibble_lo).
  rewrite IH, nibble_join, nibble_split, z2b_b2z by apply nibble_lo. done.
Qed.

Lemma hexEncode_lower d : forallb isLowerHexChar (hexEncode d) = true.
Proof.
  induction d as [|b d IH]; simpl; [done|].
  rewrite !hexDigit_lower, IH by (apply nibble_hi || apply nibble_lo). done.
Qed.

(** Two bytes at a time: the induction the decoder follows. *)
Lemma pairs_ind (P : bytes -> Prop) :
  P [] -> (forall a, P [a]) -> (forall a b s, P s -> P (a :: b :: s)) -> forall s, P s.
Proof.
  intros H0 H1 H2. fix IH 1. intros [|a [|b s]]; [done|done|]. apply H2, IH.
Qed.

Lemma hexEncode_decode s d :
  forallb isLowerHexChar s = true -> hexDecode s = Some d -> hexEncode d = s.
Proof.
  revert d. induction s as [|a|a b s IH] using pairs_ind; simpl; [naive_solver|done|].
  intros d Hl Hd. apply andb_true_iff in Hl as [Ha Hl]. apply andb_true_iff in Hl as [Hb Hl].
  destruct (fromHexChar a) as [h|] eqn:Eh; [|done]. destruct (fromHexChar b) as [l|] eqn:El; [|done].
  destruct (hexDecode s) as [d'|] eqn:Ed; [|done]. simplify_eq. simpl.
  destruct (hexDigit_fromHexChar a h) as [Ha' Hh]; [done..|].
  destruct (hexDigit_fromHexChar b l) as [Hb' Hl']; [done..|].
  rewrite nibble_join by done.
  assert (Hz : b2z (z2b (h * 16 + l)) = h * 16 + l) by (apply b2z_z2b_small; lia).
  pose proof (nibble_split (z2b (h * 16 + l))) as Hs. rewrite Hz in *.
  pose proof (nibble_lo (z2b (h * 16 + l))) as Hlo. rewrite Hz in Hlo.
  replace (Z.shiftr (h * 16 + l) 4) with h by lia.
  replace (Z.land (h * 16 + l) 15) with l by lia.
  rewrite Ha', Hb', (IH d'); done.
Qed.

Lemma hexDecode_lower_some s :
  forallb isLowerHexChar s = true -> Nat.even (length s) = true -> is_Some (hexDecode s).
Proof.
  induction s as [|a|a b s IH] using pairs_ind; simpl; [eauto|done|].
  intros Hl He. apply andb_true_iff in Hl as [Ha Hl]. apply andb_true_iff in Hl as [Hb Hl].
  destruct (isLowerHexChar_from a) as [h ->]; [done|].
  destruct (isLowerHexChar_from b) as [l ->]; [done|].
  destruct IH as [d ->]; eauto.
Qed.

Lemma DString_hex d : DString d = hexEncode d.
Proof.
  unfold DString. destruct (Nat.eqb_spec (length d) 0); [by destruct d|].
  case_match; [|done]. apply take_app_exact. by rewrite length_hexEncode.
Qed.

#[export] Instance hexEncode_inj : Inj (=) (=) hexEncode.
Proof. intros a b H. apply (f_equal hexDecode) in H. rewrite !hexDecode_encode in H. naive_solver. Qed.

#[export] Instance DString_inj : Inj (=) (=) DString.
Proof. intros a b. rewrite !DString_hex. apply (inj hexEncode). Qed.

Lemma DString_zero d : DString d = [] <-> d = [].
Proof. rewrite DString_hex. destruct d; naive_solver. Qed.

Lemma ParseDigest_iff s d : ParseDigest s = Ok d <-> d <> [] /\ hexEncode d = s.
Proof.
  unfold ParseDigest, UnmarshalText, isLowerHex. munfold. split.
  - destruct (Nat.eqb_spec (length s) 0); [done|].
    destruct (Nat.even (length s)), (forallb isLowerHexChar s) eqn:El; try done; simpl.
    destruct (hexDecode s) as [d'|] eqn:Ed; [|done].
    destruct (IsZero d') eqn:Ez; [done|]. intros [= ->]. apply IsZero_false in Ez.
    split; [done|]. by apply hexEncode_decode.
  - intros [Hd <-]. rewrite length_hexEncode, hexEncode_lower, hexDecode_encode.
    replace (Nat.even (2 * length d)) with true by (symmetry; apply Nat.even_spec; eexists; done).
    destruct (Nat.eqb_spec (2 * length d) 0); [destruct d; [done|simpl in *; lia]|]. simpl. by destruct d.
Qed.

(** ** Properties *)

(** C34. The text form is a bijection between the digests and the strings the
    parser accepts: parsing the rendering of a digest gives it back, the
    parser accepts exactly the non-empty even-length runs of lowercase hex,
    whatever it accepts is the rendering of what it returns, and everything it
    rejects is [ErrInvalidDigest]. *)
Theorem ParseDigest_spec (s : bytes) :
  (forall d, ParseDigest s = Ok d <-> d <> [] /\ DString d = s) /\
  (is_ok (ParseDigest s) = true <->
     s <> [] /\ Nat.even (length s) = true /\ forallb isLowerHexChar s = true) /\
  (is_ok (ParseDigest s) = false -> res_errIs (ParseDigest s) ErrInvalidDigest = true).
Proof.
  assert (H1 : forall d, ParseDigest s = Ok d -> d <> [] /\ DString d = s).
  { intros d. rewrite DString_hex. apply ParseDigest_iff. }
  assert (H2 : s <> [] -> Nat.even (length s) = true -> forallb isLowerHexChar s = true ->
               exists d, hexDecode s = Some d /\ ParseDigest s = Ok d).
  { intros Hs He Hl. destruct (hexDecode_lower_some s) as [d Hd]; [done..|]. exists d. split; [done|].
    unfold ParseDigest, UnmarshalText, isLowerHex. munfold.
    destruct (Nat.eqb_spec (length s) 0); [by destruct s|]. rewrite He, Hl, Hd. simpl.
    destruct (IsZero d) eqn:Ez; [|done]. apply IsZero_true in Ez as ->.
    by apply hexEncode_decode in Hd. }
  assert (H3 : forall d, hexEncode d <> [] -> ParseDigest (hexEncode d) = Ok d).
  { intros d Hd. apply ParseDigest_iff. split; [by intros ->|done]. }
  split_and!.
  - intros d. split; [apply H1|]. intros [Hd <-]. rewrite DString_hex.
    apply H3. by destruct d.
  - split.
    + destruct (ParseDigest s) as [d|] eqn:E; [|done]. intros _. destruct (H1 d) as [Hd <-]; [done|].
      rewrite DString_hex, length_hexEncode, hexEncode_lower. split_and!; [by destruct d| |done].
      apply Nat.even_spec. by eexists.
    + intros (? & ? & ?). destruct H2 as (d & _ & ->); done.
  - unfold ParseDigest, UnmarshalText. munfold. repeat case_match; simplify_eq; done.
Qed.
