(* ===== verification/Binary.v ===== *)
(** The parts of [encoding/binary] the repository's formats are written with:
    unsigned varints and big-endian integers, over the bytes of Prelude.  They
    are the standard library's functions, transcribed so that the formats built
    on them compute; the lemmas are the round trips those formats need. *)

From S2P Require Import Prelude.

Definition MaxVarintLen64 : nat := 10.

(** [binary.PutUvarint]: the bytes written, least significant group first.
    Ten groups of seven bits hold every 64-bit value. *)
Fixpoint putUvarint_go (fuel : nat) (x : Z) : bytes :=
  match fuel with
  | O => []
  | S fuel =>
    if 128 <=? x then z2b (Z.lor (x `mod` 256) 128) :: putUvarint_go fuel (Z.shiftr x 7)
    else [z2b x]
  end.
Definition PutUvarint (x : Z) : bytes := putUvarint_go MaxVarintLen64 x.

(** [binary.Uvarint]: the value and the number of bytes read; zero when the
    buffer ends first, negative when the value overflows 64 bits. *)
Fixpoint uvarint_go (buf : bytes) (i : nat) (x s : Z) : Z * Z :=
  match buf with
  | [] => (0, 0)
  | b :: buf' =>
    if Nat.eqb i MaxVarintLen64 then (0, - (Z.of_nat i + 1))
    else if b2z b <? 128 then
      if Nat.eqb i (MaxVarintLen64 - 1) && (1 <? b2z b) then (0, - (Z.of_nat i + 1))
      else (Z.lor x (wrap64 (Z.shiftl (b2z b) s)), Z.of_nat i + 1)
    else uvarint_go buf' (S i) (Z.lor x (wrap64 (Z.shiftl (Z.land (b2z b) 127) s))) (s + 7)
  end.
Definition Uvarint (buf : bytes) : Z * Z := uvarint_go buf 0 0 0.

(** Big-endian integers of [n] bytes: [binary.BigEndian.PutUint16/32/64] and
    [Uint16/32/64]. *)
Fixpoint be_put (n : nat) (v : Z) : bytes :=
  match n with
  | O => []
  | S n' => z2b (Z.shiftr v (8 * Z.of_nat n')) :: be_put n' v
  end.
Definition be_get (b : bytes) : Z := fold_left (fun acc x => Z.lor (Z.shiftl acc 8) (b2z x)) b 0.

(** ** Bit lemmas *)
(** Disjoint halves join by addition. *)
Lemma lor_shiftl_add a b k : 0 <= k -> 0 <= b < 2^k -> Z.lor (Z.shiftl a k) b = a * 2^k + b.
Proof.
  intros Hk Hb. rewrite Z.shiftl_mul_pow2 by done.
  pose proof (Z.add_lor_land (a * 2^k) b). enough (Z.land (a * 2^k) b = 0) by lia.
  apply Z.bits_inj'. intros n Hn. rewrite Z.land_spec, Z.bits_0.
  destruct (Z.lt_ge_cases n k).
  - by rewrite (Z.mul_pow2_bits_low a k n).
  - destruct (decide (b = 0)) as [->|]; [by rewrite Z.testbit_0_l, andb_false_r|].
    rewrite (Z.bits_above_log2 b n), andb_false_r; [done|lia|].
    apply Z.log2_lt_pow2; [lia|]. apply Z.lt_le_trans with (2^k); [lia|].
    apply Z.pow_le_mono_r; lia.
Qed.
Lemma lor_add_shiftl a b k : 0 <= k -> 0 <= b < 2^k -> Z.lor b (Z.shiftl a k) = b + a * 2^k.
Proof. intros. rewrite Z.lor_comm, lor_shiftl_add by done. lia. Qed.

Lemma land_127 x : Z.land x 127 = x `mod` 128.
Proof. change 127 with (Z.ones 7). by rewrite Z.land_ones. Qed.

(** Checked on the 256 byte values. *)
Lemma lor_128 y : 0 <= y < 256 -> Z.lor y 128 = 128 + y `mod` 128.
Proof.
  intros Hy.
  assert (H : forallb (fun n => Z.lor (Z.of_nat n) 128 =? 128 + Z.of_nat n `mod` 128) (seq 0 256) = true)
    by (vm_compute; reflexivity).
  rewrite forallb_forall in H. specialize (H (Z.to_nat y)). rewrite Z2Nat.id in H by lia.
  apply Z.eqb_eq, H, in_seq. lia.
Qed.

(** ** Varints *)
Lemma putUvarint_go_length fuel x : (length (putUvarint_go fuel x) <= fuel)%nat.
Proof.
  revert x. induction fuel as [|fuel IH]; intros x; simpl; [lia|].
  case_match; simpl; [|lia]. specialize (IH (Z.shiftr x 7)). lia.
Qed.
Lemma putUvarint_go_pos fuel x : (1 <= length (putUvarint_go (S fuel) x))%nat.
Proof. cbn [putUvarint_go]. case_match; simpl; lia. Qed.

Lemma PutUvarint_length x : (1 <= length (PutUvarint x) <= 10)%nat.
Proof. split; [apply putUvarint_go_pos|apply putUvarint_go_length]. Qed.

(** The accumulator holds the low [s] bits already read. *)
Lemma uvarint_go_put fuel x acc s i rest :
  (i + fuel = 10)%nat -> s = 7 * Z.of_nat i -> 0 <= x -> x * 2^s + acc < 2^64 -> 0 <= acc < 2^s ->
  (x < 2^(7 * Z.of_nat fuel)) -> (fuel <> 0)%nat ->
  uvarint_go (putUvarint_go fuel x ++ rest) i acc s =
    (x * 2^s + acc, Z.of_nat i + blen (putUvarint_go fuel x)).
Proof.
  revert x acc s i. induction fuel as [|fuel IH]; intros x acc s i Hi Hs Hx Hlt Hacc Hf Hf0; [done|].
  assert (Hp : 0 < 2^s) by (apply Z.pow_pos_nonneg; lia).
  simpl. destruct (Z.leb_spec 128 x) as [Hbig|Hsmall]; simpl.
  - assert (Hmod : b2z (z2b (Z.lor (x `mod` 256) 128)) = 128 + x `mod` 128).
    { rewrite lor_128 by zlia. rewrite b2z_z2b_small by zlia. zlia. }
    assert (fuel <> 0%nat) by (intros ->; simpl in *; lia).
    destruct (Nat.eqb_spec i MaxVarintLen64) as [E|_]; [unfold MaxVarintLen64 in E; lia|].
    destruct (Z.ltb_spec (b2z (z2b (Z.lor (x `mod` 256) 128))) 128) as [E|_]; [zlia|].
    rewrite Hmod, land_127.
    replace ((128 + x `mod` 128) `mod` 128) with (x `mod` 128) by zlia.
    assert (Hpow : 2^(s + 7) = 2^s * 128) by (rewrite Z.pow_add_r by lia; done).
    assert (Hx128 : x `mod` 128 <= x) by zlia.
    rewrite wrap64_id.
    2:{ rewrite Z.shiftl_mul_pow2 by lia. split; [apply Z.mul_nonneg_nonneg; zlia|]. nia. }
    rewrite lor_add_shiftl by lia. rewrite Z.shiftr_div_pow2 by done. change (2^7) with 128.
    assert (Hsplit : x / 128 * 2^(s + 7) + (acc + x `mod` 128 * 2^s) = x * 2^s + acc).
    { rewrite Hpow. pose proof (Z.div_mod x 128 ltac:(lia)) as Hd.
      replace (x * 2^s) with ((128 * (x / 128) + x `mod` 128) * 2^s) by (f_equal; lia). ring. }
    pose proof (Z.mod_pos_bound x 128 ltac:(lia)) as Hr.
    rewrite IH.
    + rewrite Nat2Z.inj_succ, Hsplit. f_equal. lia.
    + lia.
    + lia.
    + zlia.
    + lia.
    + rewrite Hpow. split; [|nia]. apply Z.add_nonneg_nonneg; [lia|]. apply Z.mul_nonneg_nonneg; lia.
    + replace (7 * Z.of_nat (S fuel)) with (7 * Z.of_nat fuel + 7) in Hf by lia.
      rewrite Z.pow_add_r in Hf by lia. change (2^7) with 128 in Hf. zlia.
    + done.
  - destruct (Nat.eqb_spec i MaxVarintLen64) as [E|_]; [unfold MaxVarintLen64 in E; lia|].
    rewrite b2z_z2b_small by lia. destruct (Z.ltb_spec x 128); [|lia].
    assert (Nat.eqb i 9 && (1 <? x) = false) as ->.
    { destruct (Nat.eqb_spec i 9) as [E|]; [simpl|done].
      apply Z.ltb_ge. replace s with 63 in * by lia.
      change (2^63) with 9223372036854775808 in *. change (2^64) with 18446744073709551616 in *. lia. }
    rewrite wrap64_id by (rewrite Z.shiftl_mul_pow2 by lia; split; [apply Z.mul_nonneg_nonneg; lia|lia]).
    rewrite lor_add_shiftl by lia. f_equal; simpl length; lia.
Qed.

Lemma Uvarint_Put x rest :
  0 <= x < 2^64 -> Uvarint (PutUvarint x ++ rest) = (x, blen (PutUvarint x)).
Proof.
  intros Hx. unfold Uvarint, PutUvarint.
  rewrite (uvarint_go_put MaxVarintLen64 x 0 0 0); try done; try lia.
  - f_equal; lia.
  - apply Z.lt_trans with (2^64); [lia|done].
Qed.

(** What a successful read leaves: a proper prefix of the buffer. *)
Lemma uvarint_go_range buf i x s v n :
  uvarint_go buf i x s = (v, n) -> 0 < n -> Z.of_nat i < n <= Z.of_nat i + blen buf.
Proof.
  revert i x s. induction buf as [|b buf IH]; intros i x s; simpl; [intros [= <- <-]; lia|].
  repeat case_match; try (intros [= <- <-]; lia).
  intros H' Hn. apply IH in H'; lia.
Qed.
Lemma Uvarint_range buf v n : Uvarint buf = (v, n) -> 0 < n -> 0 < n <= blen buf.
Proof. intros H Hn. apply uvarint_go_range in H; lia. Qed.

Lemma wrap64_range z : 0 <= wrap64 z < 2^64.
Proof. apply Z.mod_pos_bound. done. Qed.
Lemma lor_range a b k : 0 <= k -> 0 <= a < 2^k -> 0 <= b < 2^k -> 0 <= Z.lor a b < 2^k.
Proof.
  intros Hk Ha Hb. split; [apply Z.lor_nonneg; lia|].
  destruct (decide (Z.lor a b = 0)) as [->|]; [lia|].
  assert (0 <= Z.lor a b) by (apply Z.lor_nonneg; lia).
  apply Z.log2_lt_pow2; [lia|]. rewrite Z.log2_lor by lia.
  assert (Hl : forall c, 0 <= c < 2^k -> 0 < k -> Z.log2 c < k).
  { intros c Hc Hk'. destruct (decide (c = 0)) as [->|]; [simpl; lia|]. apply Z.log2_lt_pow2; lia. }
  destruct (decide (k = 0)) as [->|].
  - change (2^0) with 1 in *. assert (a = 0) as -> by lia. assert (b = 0) as -> by lia. done.
  - apply Z.max_lub_lt; apply Hl; lia.
Qed.
Lemma uvarint_go_value buf i x s v n :
  0 <= x < 2^64 -> uvarint_go buf i x s = (v, n) -> 0 <= v < 2^64.
Proof.
  revert i x s. induction buf as [|b buf IH]; intros i x s Hx; simpl; [intros [= <- <-]; lia|].
  repeat case_match; try (intros [= <- <-]; lia).
  - intros [= <- <-]. apply lor_range; [lia|done|apply wrap64_range].
  - apply IH. apply lor_range; [lia|done|apply wrap64_range].
Qed.
Lemma Uvarint_value buf v n : Uvarint buf = (v, n) -> 0 <= v < 2^64.
Proof. apply uvarint_go_value. lia. Qed.

(** Bytes after a complete varint do not matter. *)
Lemma uvarint_go_app buf rest i x s v n :
  uvarint_go buf i x s = (v, n) -> 0 < n -> uvarint_go (buf ++ rest) i x s = (v, n).
Proof.
  revert i x s. induction buf as [|b buf IH]; intros i x s; simpl; [intros [= <- <-]; lia|].
  repeat case_match; try (intros [= <- <-]; lia); auto.
Qed.
Lemma Uvarint_app buf rest v n :
  Uvarint buf = (v, n) -> 0 < n -> Uvarint (buf ++ rest) = (v, n).
Proof. apply uvarint_go_app. Qed.

(** A complete varint is read from its own bytes. *)
Lemma uvarint_go_take buf m i x s v n :
  uvarint_go buf i x s = (v, n) -> 0 < n -> n - Z.of_nat i <= Z.of_nat m ->
  uvarint_go (take m buf) i x s = (v, n).
Proof.
  revert m i x s. induction buf as [|b buf IH]; intros m i x s H Hn Hm; [simpl in H; simplify_eq; lia|].
  pose proof (uvarint_go_range _ _ _ _ _ _ H Hn).
  destruct m as [|m]; [lia|]. simpl in *. repeat case_match; simplify_eq; try done.
  apply IH; (done || lia).
Qed.
Lemma Uvarint_take buf m rest v n :
  Uvarint buf = (v, n) -> 0 < n -> n <= Z.of_nat m -> Uvarint (take m buf ++ rest) = (v, n).
Proof. intros. apply Uvarint_app; [|done]. apply uvarint_go_take; (done || lia). Qed.

(** ** Big endian *)
Lemma length_be_put n v : length (be_put n v) = n.
Proof. induction n; simpl; congruence. Qed.

Lemma fold_be_app b acc :
  fold_left (fun acc x => Z.lor (Z.shiftl acc 8) (b2z x)) b acc = acc * 2^(8 * blen b) + be_get b.
Proof.
  unfold be_get. revert acc. induction b as [|x b IH]; intros acc; simpl fold_left.
  - change (8 * blen (@nil byte)) with 0. simpl. lia.
  - rewrite IH, (IH (Z.lor _ _)). pose proof (b2z_range x).
    rewrite !lor_shiftl_add by (simpl; lia).
    replace (8 * blen (x :: b)) with (8 + 8 * blen b) by (simpl length; lia).
    rewrite Z.pow_add_r by lia. change (2^8) with 256. lia.
Qed.
Lemma be_get_cons x b : be_get (x :: b) = b2z x * 2^(8 * blen b) + be_get b.
Proof. unfold be_get at 1. simpl. rewrite fold_be_app. done. Qed.

Lemma be_get_range b : 0 <= be_get b < 2^(8 * blen b).
Proof.
  induction b as [|x b IH]; [done|]. rewrite be_get_cons. pose proof (b2z_range x).
  replace (8 * blen (x :: b)) with (8 + 8 * blen b) by (simpl length; lia).
  rewrite Z.pow_add_r by lia. change (2^8) with 256. nia.
Qed.

Lemma be_get_put_mod n v : 0 <= v -> be_get (be_put n v) = v `mod` 2^(8 * Z.of_nat n).
Proof.
  intros Hv. induction n as [|n IH]; [simpl; by rewrite Z.mod_1_r|].
  simpl be_put. rewrite be_get_cons, IH, length_be_put, b2z_z2b, Z.shiftr_div_pow2 by lia.
  replace (8 * Z.of_nat (S n)) with (8 * Z.of_nat n + 8) by lia.
  rewrite Z.pow_add_r by lia. change (2^8) with 256.
  assert (0 < 2^(8 * Z.of_nat n)) by (apply Z.pow_pos_nonneg; lia).
  rewrite Z.rem_mul_r by lia. lia.
Qed.
Lemma be_get_put n v : 0 <= v < 2^(8 * Z.of_nat n) -> be_get (be_put n v) = v.
Proof. intros. rewrite be_get_put_mod by lia. apply Z.mod_small. lia. Qed.

Lemma blen_cons_pow (x : byte) (b : bytes) : 2^(8 * blen (x :: b)) = 256 * 2^(8 * blen b).
Proof.
  replace (8 * blen (x :: b)) with (8 + 8 * blen b) by (simpl length; lia).
  by rewrite Z.pow_add_r by lia.
Qed.

Lemma be_put_mod b v : 0 <= v -> v `mod` 2^(8 * blen b) = be_get b -> be_put (length b) v = b.
Proof.
  revert v. induction b as [|x b IH]; intros v Hv H; [done|]. cbn [length be_put].
  rewrite be_get_cons, blen_cons_pow in H.
  pose proof (be_get_range b). pose proof (b2z_range x).
  assert (0 < 2^(8 * blen b)) by (apply Z.pow_pos_nonneg; lia).
  rewrite (Z.mul_comm 256), Z.rem_mul_r in H by lia.
  pose proof (Z.mod_pos_bound v (2^(8 * blen b)) ltac:(lia)).
  destruct (Z.div_mod_unique (2^(8 * blen b)) ((v / 2^(8 * blen b)) `mod` 256) (b2z x)
    (v `mod` 2^(8 * blen b)) (be_get b)) as [Hhi Hlo]; [lia..|].
  f_equal; [|by apply IH].
  apply (inj b2z). rewrite b2z_z2b, Z.shiftr_div_pow2 by lia. done.
Qed.
Lemma be_put_get b : be_put (length b) (be_get b) = b.
Proof. pose proof (be_get_range b). apply be_put_mod; [lia|]. apply Z.mod_small. lia. Qed.
