(* ===== verification/Stream.v ===== *)
(** Byte streams (src/cas/backend/stream.go, src/cas/backend/context.go,
    src/cas/readclose.go): readers as the runs of bytes their successive Reads
    return, the [io] functions over them, the context-checked reads and writes
    every backend performs, and the read-then-close rule. *)

From S2P Require Import Prelude.

(** ** Readers

    [rd_chunks] are the runs of bytes the stream delivers, [rd_tail] the error
    every Read after them returns ([io.EOF] for a stream that ends cleanly). A
    nil reader behaves as the empty stream. *)
Record Reader := mkReader { rd_chunks : list bytes; rd_tail : error }.

Definition rd_data (r : Reader) : bytes := concat (rd_chunks r).
(** [bytes.NewReader(data)]: one run, and none when there is no data. *)
Definition bytesReader (data : bytes) : Reader :=
  mkReader (match data with [] => [] | _ => [data] end) EOF.

(** One [Read] with a buffer of [n] bytes: a run longer than the buffer is split. *)
Definition readOnce (n : nat) (r : Reader) : bytes * option error * Reader :=
  match rd_chunks r with
  | [] => ([], Some (rd_tail r), r)
  | x :: cs =>
    if (length x <=? n)%nat then (x, None, mkReader cs (rd_tail r))
    else (take n x, None, mkReader (drop n x :: cs) (rd_tail r))
  end.

(** The [ctx.Err()] check a Read makes first, when it goes through a ContextReader. *)
Definition chk (checked : bool) (c : ctx) : res unit * ctx :=
  if checked then
    match c with
    | [] => (Ok tt, [])
    | None :: c' => (Ok tt, c')
    | Some e :: c' => (Err (ctxDoneErr e), c')
    end
  else (Ok tt, c).

(** [ContextReader.Read]. *)
Definition ContextReader_Read (n : nat) (c : ctx) (r : Reader) : bytes * option error * ctx * Reader :=
  match chk true c with
  | (Err e, c') => ([], Some e, c', r)
  | (Ok _, c') => match readOnce n r with (b, e, r') => (b, e, c', r') end
  end.

(** [io.ReadFull] of [need] bytes, [got] being the bytes read before. *)
Definition shortErr (got : bytes) (e : error) : error :=
  if decide (got = []) then e else if decide (e = Sentinel EOF) then ErrUnexpectedEOF else e.

Fixpoint readFull_go (checked : bool) (cs : list bytes) (tail : error) (need : nat) (got : bytes) (c : ctx)
    : res bytes * ctx * Reader :=
  if Nat.eqb need 0 then (Ok got, c, mkReader cs tail)
  else match chk checked c with
       | (Err e, c') => (Err (shortErr got e), c', mkReader cs tail)
       | (Ok _, c') =>
         match cs with
         | [] => (Err (shortErr got tail), c', mkReader [] tail)
         | x :: cs' =>
           if (length x <=? need)%nat then readFull_go checked cs' tail (need - length x) (got ++ x) c'
           else (Ok (got ++ take need x), c', mkReader (drop need x :: cs') tail)
         end
       end.
(** [io.ReadFull(r, make([]byte, n))]. *)
Definition ReadFull (n : nat) : M Reader bytes := fun c r =>
  readFull_go false (rd_chunks r) (rd_tail r) n [] c.
(** [backend.ReadAll]: [io.ReadFull] through a ContextReader. *)
Definition BackendReadAll (n : nat) : M Reader bytes := fun c r =>
  readFull_go true (rd_chunks r) (rd_tail r) n [] c.

(** [io.ReadAll]. *)
Fixpoint readAll_go (checked : bool) (cs : list bytes) (tail : error) (got : bytes) (c : ctx)
    : res bytes * ctx * Reader :=
  match chk checked c with
  | (Err e, c') => (Err e, c', mkReader cs tail)
  | (Ok _, c') =>
    match cs with
    | [] => (if decide (tail = Sentinel EOF) then Ok got else Err tail, c', mkReader [] tail)
    | x :: cs' => readAll_go checked cs' tail (got ++ x) c'
    end
  end.
Definition ioReadAll (checked : bool) : M Reader bytes := fun c r =>
  readAll_go checked (rd_chunks r) (rd_tail r) [] c.

(** [io.ReadAll] over [io.LimitReader]: [outer] when the context check is made
    before the limit (a ContextReader around the LimitReader), otherwise after
    it (a LimitReader around the ContextReader). *)
Fixpoint readLimited_go (outer : bool) (limit : Z) (cs : list bytes) (tail : error) (got : bytes) (c : ctx)
    : res bytes * ctx * Reader :=
  match chk outer c with
  | (Err e, c') => (Err e, c', mkReader cs tail)
  | (Ok _, c') =>
    if limit <=? 0 then (Ok got, c', mkReader cs tail)
    else match chk (negb outer) c' with
         | (Err e, c'') => (Err e, c'', mkReader cs tail)
         | (Ok _, c'') =>
           match cs with
           | [] => (if decide (tail = Sentinel EOF) then Ok got else Err tail, c'', mkReader [] tail)
           | x :: cs' =>
             if blen x <=? limit then readLimited_go outer (limit - blen x) cs' tail (got ++ x) c''
             else
               let rest := mkReader (drop (Z.to_nat limit) x :: cs') tail in
               match chk outer c'' with
               | (Err e, c3) => (Err e, c3, rest)
               | (Ok _, c3) => (Ok (got ++ take (Z.to_nat limit) x), c3, rest)
               end
           end
         end
  end.
Definition readLimited (outer : bool) (limit : Z) : M Reader bytes := fun c r =>
  readLimited_go outer limit (rd_chunks r) (rd_tail r) [] c.

(** [backend.ReadPayload]: exactly [size] bytes, a short stream being
    [io.ErrUnexpectedEOF]. [size] is converted to an int64. *)
Definition ReadPayload (size : Z) : M Reader bytes :=
  data ← readLimited false (int64 size);
  if blen data =? size then mret data else throw ErrUnexpectedEOF.

(** [backend.ReadWhole]: one buffer of the hinted capacity, read to the end of
    the stream with one-byte probes when it is full; [grow] is the capacity
    [append] gives a full buffer of that length. *)
Definition maxPrealloc : Z := 67108864.

Section ReadWhole.
Variable grow : nat -> nat.

Fixpoint readWhole_go (fuel : nat) (cap : nat) (buf : bytes) (c : ctx) (r : Reader)
    : res bytes * ctx * Reader :=
  match fuel with
  | O => (Err (New "out of fuel"), c, r)
  | S fuel =>
    let size := if (length buf <? cap)%nat then (cap - length buf)%nat else 1%nat in
    match ContextReader_Read size c r with
    | (b, e, c', r') =>
      let buf' := buf ++ b in
      let cap' := if (length buf' <=? cap)%nat then cap else grow (length buf') in
      match e with
      | Some e => (if errIs e EOF then Ok buf' else Err e, c', r')
      | None => readWhole_go fuel cap' buf' c' r'
      end
    end
  end.

(** [hinted] is the Len() a [bytes.Reader] or [strings.Reader] answers. *)
Definition ReadWhole (hinted : option Z) (declared : Z) : M Reader bytes := fun c r =>
  match chk true c with
  | (Err e, c') => (Err e, c', r)
  | (Ok _, c') =>
    let hint := if declared <=? 0 then from_option id declared hinted else declared in
    let hint := if maxPrealloc <? hint then maxPrealloc else hint in
    if hint <=? 0 then ioReadAll true c' r
    else readWhole_go (2 + length (rd_chunks r) + length (rd_data r)) (Z.to_nat hint) [] c' r
  end.
End ReadWhole.

(** ** Writers

    [w_out] is what has been written; [w_plan] the number of bytes each of the
    next Writes accepts and the error it returns, everything being accepted
    once the plan is exhausted. *)
Record Writer := mkWriter { w_out : bytes; w_plan : list (nat * option error) }.

(** [backend.WriteAll]. *)
Fixpoint writeAll_go (plan : list (nat * option error)) (out data : bytes) (c : ctx) : res unit * ctx * Writer :=
  if Nat.eqb (length data) 0 then (Ok tt, c, mkWriter out plan)
  else match chk true c with
       | (Err e, c') => (Err e, c', mkWriter out plan)
       | (Ok _, c') =>
         match plan with
         | [] => (Ok tt, c', mkWriter (out ++ data) [])
         | (n, e) :: plan' =>
           let out' := out ++ take n data in
           match e with
           | Some e => (Err e, c', mkWriter out' plan')
           | None =>
             if Nat.eqb n 0 then (Err ErrShortWrite, c', mkWriter out' plan')
             else writeAll_go plan' out' (drop n data) c'
           end
         end
       end.
Definition WriteAll (data : bytes) : M Writer unit := fun c w => writeAll_go (w_plan w) (w_out w) data c.

(** ** Read, then close (readclose.go) *)
Record ReadCloser := mkRC { rc_reader : Reader; rc_close : option error }.

Inductive closeOrder := readWins | closeWins.

Definition render (f : option (error -> error)) (e : error) : error :=
  match f with None => e | Some f => f e end.
Definition wrap (prefix : string) : option (error -> error) := Some (Errorf (prefix +:+ ": %w")).

(** [read] gets the reader and may change the caller's own state. *)
Definition readThenClose {T A} (rc : ReadCloser) (read : Reader -> M T A) (order : closeOrder)
    (readErr closeErr : option (error -> error)) : M T A := fun c t =>
  match read (rc_reader rc) c t with
  | (rv, c', t') =>
    let v := match rv with Ok v => Ok v | Err e => Err (render readErr e) end in
    let cerr := rc_close rc in
    (match order with
     | closeWins => match cerr with Some ce => Err (render closeErr ce) | None => v end
     | readWins => match cerr, v with Some ce, Ok _ => Err (render closeErr ce) | _, _ => v end
     end, c', t')
  end.

(** A read that consumes the reader and nothing else. *)
Definition onReader {T A} (read : M Reader A) (r : Reader) : M T A := fun c t =>
  match read c r with (a, c', _) => (a, c', t) end.

(** ** Lemmas: a read that succeeds, under any context *)
Lemma rd_data_cons x cs t : rd_data (mkReader (x :: cs) t) = x ++ rd_data (mkReader cs t).
Proof. done. Qed.
Lemma rd_data_one d t : rd_data (mkReader [d] t) = d.
Proof. unfold rd_data. simpl. by rewrite app_nil_r. Qed.
Lemma rd_data_bytesReader d : rd_data (bytesReader d) = d.
Proof. destruct d; [done|]. unfold rd_data. simpl. by rewrite app_nil_r. Qed.
(** What a reader over stored [data] delivers: a prefix of it, and all of it
    when it ends in [io.EOF]. *)
Definition reads (r : Reader) (data : bytes) : Prop :=
  rd_data r `prefix_of` data /\ (errIs (rd_tail r) EOF = true -> rd_data r = data).
Lemma reads_bytesReader data : reads (bytesReader data) data.
Proof. split; rewrite rd_data_bytesReader; done. Qed.
Lemma reads_cut n data msg : reads (mkReader (rd_chunks (bytesReader (take n data))) (New msg)) data.
Proof.
  split; [|done]. change (rd_data (bytesReader (take n data)) `prefix_of` data). rewrite rd_data_bytesReader.
  exists (drop n data). by rewrite take_drop.
Qed.
(** An opened object: its reader delivers [data], and neither the read nor the
    close fails with an object-layer error. *)
Definition serves (rc : ReadCloser) (data : bytes) : Prop :=
  reads (rc_reader rc) data /\ errIs (rd_tail (rc_reader rc)) ErrUnknownType = false /\
  (forall e, rc_close rc = Some e -> errIs e ErrUnknownType = false).
Lemma serves_bytesReader data : serves (mkRC (bytesReader data) None) data.
Proof. split_and!; [apply reads_bytesReader|done|done]. Qed.
Lemma rd_tail_bytesReader d : rd_tail (bytesReader d) = Sentinel EOF.
Proof. done. Qed.

Lemma chk_nil b : chk b [] = (Ok tt, []).
Proof. by destruct b. Qed.

Lemma readFull_sound checked cs tail need got c b c' r' :
  readFull_go checked cs tail need got c = (Ok b, c', r') ->
  b = got ++ take need (concat cs) /\ (need <= length (concat cs))%nat /\
  rd_data r' = drop need (concat cs) /\ rd_tail r' = tail.
Proof.
  revert need got c. induction cs as [|x cs IH]; intros need got c; simpl.
  - destruct (Nat.eqb_spec need 0) as [->|]; [intros [= <- <- <-]; by rewrite app_nil_r|].
    destruct (chk checked c) as [[u|e] c1]; done.
  - destruct (Nat.eqb_spec need 0) as [->|]; [intros [= <- <- <-]; rewrite app_nil_r; split_and!; (done || lia)|].
    destruct (chk checked c) as [[u|e] c1]; [|done].
    destruct (Nat.leb_spec (length x) need).
    + intros (-> & Hl & Hd & Ht)%IH. rewrite length_app, take_app_ge, drop_app_ge, app_assoc by lia.
      split_and!; (done || lia).
    + intros [= <- <- <-]. rewrite length_app, take_app_le, drop_app_le by lia.
      split_and!; (done || lia).
Qed.

Lemma readAll_sound checked cs tail got c b c' r' :
  readAll_go checked cs tail got c = (Ok b, c', r') ->
  b = got ++ concat cs /\ tail = Sentinel EOF /\ r' = mkReader [] tail.
Proof.
  revert got c. induction cs as [|x cs IH]; intros got c; simpl;
    destruct (chk checked c) as [[u|e] c1]; try done.
  - case_decide; [|done]. intros [= <- <- <-]. by rewrite app_nil_r.
  - intros (-> & -> & ->)%IH. by rewrite app_assoc.
Qed.

Lemma readLimited_sound outer limit cs tail got c b c' r' :
  0 <= limit ->
  readLimited_go outer limit cs tail got c = (Ok b, c', r') ->
  b = got ++ take (Z.to_nat limit) (concat cs) /\
  rd_data r' = drop (Z.to_nat limit) (concat cs) /\ rd_tail r' = tail /\
  (blen (concat cs) < limit -> tail = Sentinel EOF).
Proof.
  revert limit got c. induction cs as [|x cs IH]; intros limit got c Hl; simpl;
    destruct (chk outer c) as [[u|e] c1]; try done.
  - destruct (Z.leb_spec limit 0); simpl.
    + intros [= <- <- <-]. replace limit with 0 by lia. simpl. rewrite app_nil_r. split_and!; (done || lia).
    + destruct (chk (negb outer) c1) as [[u'|e] c2]; [|done]. case_decide; [|done].
      intros [= <- <- <-]. rewrite take_nil, drop_nil, app_nil_r. split_and!; done.
  - destruct (Z.leb_spec limit 0); simpl.
    + intros [= <- <- <-]. replace limit with 0 by lia. simpl.
      rewrite app_nil_r. split_and!; try done. lia.
    + destruct (chk (negb outer) c1) as [[u'|e] c2]; [|done].
      destruct (Z.leb_spec (blen x) limit).
      * intros Hgo. apply IH in Hgo as (-> & Hd & Ht & He); [|lia].
        replace (Z.to_nat (limit - blen x)) with (Z.to_nat limit - length x)%nat in * by lia.
        rewrite take_app_ge, drop_app_ge, app_assoc by lia. split_and!; try done.
        rewrite length_app. intros. apply He. lia.
      * destruct (chk outer c2) as [[u''|e] c3]; [|done]. intros [= <- <- <-].
        rewrite length_app, take_app_le, drop_app_le by lia. split_and!; try done. lia.
Qed.

Lemma ReadPayload_sound size c r b c' r' :
  0 <= size < 2^63 ->
  ReadPayload size c r = (Ok b, c', r') ->
  b = take (Z.to_nat size) (rd_data r) /\ size = blen b /\
  rd_data r' = drop (Z.to_nat size) (rd_data r) /\ rd_tail r' = rd_tail r.
Proof.
  intros Hs. unfold ReadPayload, readLimited. munfold. rewrite int64_id by lia.
  destruct (readLimited_go _ _ _ _ _ _) as [[[d|e] c1] r1] eqn:E; [|done].
  destruct (Z.eqb_spec (blen d) size); [|done]. intros [= <- <- <-].
  apply readLimited_sound in E as (-> & Hd & Ht & _); [|lia]. split_and!; done.
Qed.

(** ** Lemmas: a read that must succeed, under the background context *)
Lemma readFull_total checked cs tail need got c :
  chk checked c = (Ok tt, c) -> (need <= length (concat cs))%nat ->
  exists r', readFull_go checked cs tail need got c = (Ok (got ++ take need (concat cs)), c, r') /\
    rd_data r' = drop need (concat cs) /\ rd_tail r' = tail.
Proof.
  intros Hc Hn. enough (exists b r', readFull_go checked cs tail need got c = (Ok b, c, r')) as (b & r' & E).
  { exists r'. pose proof E as (-> & _ & ? & ?)%readFull_sound. done. }
  revert need got Hn. induction cs as [|x cs IH]; intros need got Hn; simpl in *.
  - destruct (Nat.eqb_spec need 0); [eauto|lia].
  - destruct (Nat.eqb_spec need 0); [eauto|]. rewrite Hc.
    destruct (Nat.leb_spec (length x) need); [|eauto].
    apply IH. rewrite length_app in Hn. lia.
Qed.

Lemma readFull_short checked cs tail need got c :
  chk checked c = (Ok tt, c) -> (length (concat cs) < need)%nat ->
  readFull_go checked cs tail need got c = (Err (shortErr (got ++ concat cs) tail), c, mkReader [] tail).
Proof.
  intros Hc. revert need got. induction cs as [|x cs IH]; intros need got Hn; simpl in *.
  - destruct (Nat.eqb_spec need 0); [lia|]. by rewrite Hc, app_nil_r.
  - rewrite length_app in Hn. destruct (Nat.eqb_spec need 0); [lia|]. rewrite Hc.
    destruct (Nat.leb_spec (length x) need); [|lia]. rewrite IH, app_assoc by lia. done.
Qed.

Lemma ReadFull_ok n c r :
  (n <= length (rd_data r))%nat ->
  exists r', ReadFull n c r = (Ok (take n (rd_data r)), c, r') /\
    rd_data r' = drop n (rd_data r) /\ rd_tail r' = rd_tail r.
Proof. apply readFull_total. done. Qed.
Lemma ReadFull_short n c r :
  (length (rd_data r) < n)%nat ->
  ReadFull n c r = (Err (shortErr (rd_data r) (rd_tail r)), c, mkReader [] (rd_tail r)).
Proof. apply (readFull_short false _ _ _ []). done. Qed.
Lemma BackendReadAll_ok n r :
  (n <= length (rd_data r))%nat ->
  exists r', BackendReadAll n [] r = (Ok (take n (rd_data r)), [], r') /\
    rd_data r' = drop n (rd_data r) /\ rd_tail r' = rd_tail r.
Proof. apply readFull_total. done. Qed.
Lemma BackendReadAll_sound n c r b c' r' :
  BackendReadAll n c r = (Ok b, c', r') ->
  b = take n (rd_data r) /\ length b = n /\ rd_data r' = drop n (rd_data r) /\ rd_tail r' = rd_tail r.
Proof.
  intros (-> & Hl & ? & ?)%readFull_sound. simpl. split_and!; try done.
  by rewrite length_take_le.
Qed.

Lemma readAll_total checked cs got :
  readAll_go checked cs EOF got [] = (Ok (got ++ concat cs), [], mkReader [] EOF).
Proof.
  revert got. induction cs as [|x cs IH]; intros got; simpl; rewrite chk_nil.
  - by rewrite app_nil_r.
  - by rewrite IH, app_assoc.
Qed.

Lemma readLimited_total outer limit cs tail got :
  0 <= limit -> limit <= blen (concat cs) \/ tail = Sentinel EOF ->
  exists r', readLimited_go outer limit cs tail got [] =
      (Ok (got ++ take (Z.to_nat limit) (concat cs)), [], r') /\
    rd_data r' = drop (Z.to_nat limit) (concat cs) /\ rd_tail r' = tail.
Proof.
  intros Hl Ht.
  enough (exists b r', readLimited_go outer limit cs tail got [] = (Ok b, [], r')) as (b & r' & E).
  { exists r'. pose proof E as (-> & ? & ? & ?)%readLimited_sound; done. }
  revert limit got Hl Ht. induction cs as [|x cs IH]; intros limit got Hl Ht; simpl in *; rewrite !chk_nil.
  - destruct (Z.leb_spec limit 0); [eauto|]. destruct Ht as [?|Ht]; [lia|]. subst. eauto.
  - destruct (Z.leb_spec limit 0); [eauto|]. destruct (Z.leb_spec (blen x) limit); [|eauto].
    apply IH; [lia|]. rewrite length_app in Ht. destruct Ht; [left; lia|auto].
Qed.

Lemma ReadPayload_total size r :
  0 <= size < 2^63 -> size <= blen (rd_data r) ->
  exists r', ReadPayload size [] r = (Ok (take (Z.to_nat size) (rd_data r)), [], r') /\
    rd_data r' = drop (Z.to_nat size) (rd_data r) /\ rd_tail r' = rd_tail r.
Proof.
  intros Hs Hl. unfold ReadPayload, readLimited. munfold. rewrite int64_id by lia.
  destruct (readLimited_total false size (rd_chunks r) (rd_tail r) []) as (r' & -> & ? & ?); [lia|auto|].
  exists r'. simpl. rewrite length_take_le by (unfold rd_data in Hl; lia).
  destruct (Z.eqb_spec (Z.of_nat (Z.to_nat size)) size); [done|lia].
Qed.

(** ** Readers that never return an empty run *)
Definition tidy (r : Reader) : Prop := Forall (fun x => x <> []) (rd_chunks r).

Lemma tidy_bytesReader d : tidy (bytesReader d).
Proof. destruct d; repeat constructor; done. Qed.
Lemma tidy_nil r : tidy r -> rd_data r = [] -> rd_chunks r = [].
Proof. unfold tidy, rd_data. destruct (rd_chunks r) as [|x cs]; [done|]. inversion 1. by destruct x. Qed.
Lemma tidy_drop n x cs : (n < length x)%nat -> Forall (fun x : bytes => x <> []) cs -> Forall (fun x => x <> []) (drop n x :: cs).
Proof. intros Hn Hc. constructor; [|done]. intros E%(f_equal length). rewrite length_drop in E. simpl in E. lia. Qed.

Lemma readFull_tidy checked cs tail need got c res c' r' :
  Forall (fun x => x <> []) cs -> readFull_go checked cs tail need got c = (res, c', r') -> tidy r'.
Proof.
  unfold tidy. revert need got c. induction cs as [|x cs IH]; intros need got c Hc H; simpl in H.
  - destruct (Nat.eqb need 0); [by simplify_eq|]. destruct (chk checked c) as [[u|e] c1]; by simplify_eq.
  - destruct (Nat.eqb need 0); [by simplify_eq|]. destruct (chk checked c) as [[u|e] c1]; [|by simplify_eq].
    destruct (Nat.leb_spec (length x) need); [|simplify_eq; apply tidy_drop; [lia|by inversion Hc]].
    eapply IH; [by inversion Hc|done].
Qed.
Lemma readLimited_tidy outer limit cs tail got c res c' r' :
  Forall (fun x => x <> []) cs -> readLimited_go outer limit cs tail got c = (res, c', r') -> tidy r'.
Proof.
  unfold tidy. revert limit got c. induction cs as [|x cs IH]; intros limit got c Hc H; simpl in H.
  - destruct (chk outer c) as [[u|e] c1]; [|by simplify_eq]. destruct (limit <=? 0); [by simplify_eq|].
    destruct (chk (negb outer) c1) as [[u'|e] c2]; by simplify_eq.
  - destruct (chk outer c) as [[u|e] c1]; [|by simplify_eq]. destruct (Z.leb_spec limit 0); [by simplify_eq|].
    destruct (chk (negb outer) c1) as [[u'|e] c2]; [|by simplify_eq].
    destruct (Z.leb_spec (blen x) limit); [eapply IH; [by inversion Hc|done]|].
    destruct (chk outer c2) as [[u''|e] c3]; simplify_eq; (apply tidy_drop; [lia|by inversion Hc]).
Qed.
Lemma ReadPayload_tidy size c r res c' r' : tidy r -> ReadPayload size c r = (res, c', r') -> tidy r'.
Proof.
  intros Ht H. unfold ReadPayload, readLimited in H. mstep H as E; pose proof E as E'%readLimited_tidy; try done.
  destruct (_ =? _); munfold; by simplify_eq.
Qed.

(** What the fixed-size reads consume, and when they succeed. *)
Lemma readN_sound f n c r b c' r' :
  mapErr f (BackendReadAll n) c r = (Ok b, c', r') ->
  rd_data r = b ++ rd_data r' /\ length b = n /\ rd_tail r' = rd_tail r /\ (tidy r -> tidy r').
Proof.
  intros ([b'|?] & E & Hr)%mapErr_inv; simplify_eq/=.
  assert (tidy r -> tidy r') by (intros; by eapply readFull_tidy).
  apply BackendReadAll_sound in E as (-> & ? & -> & ?). by rewrite take_drop.
Qed.
Lemma readN_total f n r b rest :
  rd_data r = b ++ rest -> length b = n ->
  exists r', mapErr f (BackendReadAll n) [] r = (Ok b, [], r') /\ rd_data r' = rest /\
    rd_tail r' = rd_tail r /\ (tidy r -> tidy r').
Proof.
  intros Hr <-. destruct (BackendReadAll_ok (length b) r) as (r' & E & Hd & Ht); [rewrite Hr, length_app; lia|].
  rewrite Hr, take_app_length in E. rewrite Hr, drop_app_length in Hd.
  exists r'. split_and!; try done; [unfold mapErr; by rewrite E|]. intros. by eapply readFull_tidy.
Qed.
Lemma readPayload_sound f n c r b c' r' :
  0 <= n < 2^63 -> mapErr f (ReadPayload n) c r = (Ok b, c', r') ->
  rd_data r = b ++ rd_data r' /\ blen b = n /\ rd_tail r' = rd_tail r /\ (tidy r -> tidy r').
Proof.
  intros Hn ([b'|?] & E & Hr)%mapErr_inv; simplify_eq/=.
  assert (tidy r -> tidy r') by (intros; by eapply ReadPayload_tidy).
  apply ReadPayload_sound in E as (-> & ? & -> & ?); [|done]. by rewrite take_drop.
Qed.
Lemma readPayload_total f n r b rest :
  rd_data r = b ++ rest -> blen b = n -> n < 2^63 ->
  exists r', mapErr f (ReadPayload n) [] r = (Ok b, [], r') /\ rd_data r' = rest /\
    rd_tail r' = rd_tail r /\ (tidy r -> tidy r').
Proof.
  intros Hr <- Hn. destruct (ReadPayload_total (blen b) r) as (r' & E & Hd & Ht); [lia|rewrite Hr, length_app; lia|].
  rewrite Hr, Nat2Z.id, take_app_length in E. rewrite Hr, Nat2Z.id, drop_app_length in Hd.
  exists r'. split_and!; try done; [unfold mapErr; by rewrite E|]. intros. by eapply ReadPayload_tidy.
Qed.

(** A read under the background context leaves it so. *)
Lemma readLimited_ctx outer limit cs tail got r c r' :
  readLimited_go outer limit cs tail got [] = (r, c, r') -> c = [].
Proof.
  revert limit got. induction cs as [|x cs IH]; intros limit got; simpl; rewrite !chk_nil;
    (destruct (limit <=? 0); [by intros [= _ <- _]|]).
  - by intros [= _ <- _].
  - destruct (blen x <=? limit); [apply IH|by intros [= _ <- _]].
Qed.
Lemma readAll_ctx checked cs tail got r c r' : readAll_go checked cs tail got [] = (r, c, r') -> c = [].
Proof.
  revert got. induction cs as [|x cs IH]; intros got; simpl; rewrite chk_nil; [by intros [= _ <- _]|apply IH].
Qed.

(** ** Writes *)
Lemma writeAll_sound plan out data c res c' w' :
  writeAll_go plan out data c = (res, c', w') ->
  exists k, w_out w' = out ++ take k data /\ (is_ok res = true -> take k data = data).
Proof.
  revert out data c. induction plan as [|[n e] plan IH]; intros out data c; simpl;
    (destruct (Nat.eqb_spec (length data) 0) as [Hd|Hd];
     [destruct data; [|done]; intros [= <- <- <-]; exists 0%nat; by rewrite app_nil_r|]);
    (destruct c as [|[ec|] c]; [| |]);
    try (intros [= <- <- <-]; exists 0%nat; simpl; rewrite app_nil_r; done);
    try (intros [= <- <- <-]; exists (length data); simpl; rewrite firstn_all; done);
    (destruct e as [e|]; [intros [= <- <- <-]; by exists n|];
     destruct (Nat.eqb_spec n 0); [intros [= <- <- <-]; by exists n|];
     intros (k & Hk & Hok)%IH; exists (n + k)%nat;
     rewrite <- take_take_drop, app_assoc;
     split; [done|intros Hr; rewrite (Hok Hr); apply take_drop]).
Qed.

Lemma WriteAll_ok f data c w u c' w' :
  mapErr f (WriteAll data) c w = (Ok u, c', w') -> w_out w' = w_out w ++ data.
Proof.
  intros ([[]|?] & E & Hr)%mapErr_inv; simplify_eq/=. by apply writeAll_sound in E as (k & -> & ->).
Qed.
Lemma WriteAll_plain data out : WriteAll data [] (mkWriter out []) = (Ok tt, [], mkWriter (out ++ data) []).
Proof.
  unfold WriteAll. simpl. destruct (Nat.eqb_spec (length data) 0); [|done].
  destruct data; [by rewrite app_nil_r|done].
Qed.

(** ** [ReadWhole] against [io.ReadAll] *)
Lemma readOnce_step n r b e r' :
  (0 < n)%nat -> readOnce n r = (b, e, r') ->
  rd_tail r' = rd_tail r /\
  match e with
  | Some e => rd_chunks r = [] /\ b = [] /\ e = rd_tail r
  | None => rd_data r = b ++ rd_data r' /\
      (length (rd_chunks r') + length (rd_data r') < length (rd_chunks r) + length (rd_data r))%nat
  end.
Proof.
  intros Hn. unfold readOnce, rd_data. destruct r as [[|x cs] t]; simpl; [by intros [= <- <- <-]|].
  destruct (Nat.leb_spec (length x) n); intros [= <- <- <-]; simpl; split; try done.
  - rewrite length_app. split; [done|lia].
  - rewrite !length_app, length_drop, app_assoc, take_drop. split; [done|lia].
Qed.

Lemma readWhole_go_total grow fuel cap buf r :
  (length (rd_chunks r) + length (rd_data r) < fuel)%nat ->
  exists r', readWhole_go grow fuel cap buf [] r =
    (if errIs (rd_tail r) EOF then Ok (buf ++ rd_data r) else Err (rd_tail r), [], r').
Proof.
  revert cap buf r. induction fuel as [|fuel IH]; intros cap buf r Hf; [lia|].
  cbn [readWhole_go]. unfold ContextReader_Read. rewrite chk_nil.
  set (n := if (length buf <? cap)%nat then _ else _).
  assert (Hn : (0 < n)%nat) by (unfold n; destruct (Nat.ltb_spec (length buf) cap); lia).
  destruct (readOnce n r) as [[b e] r'] eqn:E. apply readOnce_step in E as [Ht Hm]; [|done].
  destruct e as [e|].
  - destruct Hm as (Hc & -> & ->). exists r'. unfold rd_data. rewrite Hc. simpl.
    by rewrite !app_nil_r.
  - destruct Hm as [Hd Hlt]. edestruct IH as [r'' Hr''].
    2:{ exists r''. rewrite Hr'', Ht, <- app_assoc, <- Hd. done. }
    lia.
Qed.

(** Under any context, a [ReadWhole] that succeeds returns the whole content. *)
Lemma readWhole_go_sound grow fuel cap buf c r b c' r' :
  readWhole_go grow fuel cap buf c r = (Ok b, c', r') -> b = buf ++ rd_data r /\ errIs (rd_tail r) EOF = true.
Proof.
  revert cap buf c r. induction fuel as [|fuel IH]; intros cap buf c r; [done|].
  cbn [readWhole_go]. unfold ContextReader_Read.
  destruct c as [|[d|] c]; cbn [chk]; [|by destruct d|];
    (match goal with |- context [readOnce ?k r] => set (n := k); assert (Hn : (0 < n)%nat)
      by (unfold n; destruct (Nat.ltb_spec (length buf) cap); lia); destruct (readOnce n r) as [[x e] r1] eqn:E end;
     apply readOnce_step in E as [Ht Hm]; [|done]; destruct e as [e|];
     [destruct Hm as (Hc & -> & ->); destruct (errIs (rd_tail r) EOF); [|done];
      intros [= <- <- <-]; unfold rd_data; by rewrite Hc|];
     destruct Hm as [Hd _]; intros [-> He]%IH; by rewrite Hd, <- Ht, app_assoc).
Qed.
Lemma ReadWhole_sound grow hinted declared c r b c' r' :
  ReadWhole grow hinted declared c r = (Ok b, c', r') -> b = rd_data r /\ errIs (rd_tail r) EOF = true.
Proof.
  unfold ReadWhole. destruct (chk true c) as [[u|e] c1]; [|done]. cbv zeta.
  match goal with |- context [if ?b then ioReadAll _ _ _ else _] => destruct b end.
  - intros (-> & -> & _)%readAll_sound. done.
  - intros [-> He]%readWhole_go_sound. done.
Qed.
Lemma ReadWhole_total grow hinted declared r :
  rd_tail r = Sentinel EOF -> exists r', ReadWhole grow hinted declared [] r = (Ok (rd_data r), [], r').
Proof.
  intros Ht. unfold ReadWhole. rewrite chk_nil. cbv zeta.
  match goal with |- context [if ?b then ioReadAll _ _ _ else _] => destruct b end.
  - unfold ioReadAll. rewrite Ht, readAll_total. eauto.
  - edestruct readWhole_go_total as [r' ->]; [apply Nat.lt_lt_succ_r, Nat.lt_succ_diag_r|]. rewrite Ht. simpl. eauto.
Qed.

(** [ReadWhole] buffers exactly what [io.ReadAll] does: whatever capacity
    the size hint and the declared size choose, and however the buffer grows,
    it returns the whole content of a stream that ends and the stream's own
    error otherwise. *)
Theorem ReadWhole_reads_all (grow : nat -> nat) (hinted : option Z) (declared : Z) (r : Reader) :
  (rd_tail r = Sentinel EOF \/ errIs (rd_tail r) EOF = false) ->
  run_res (ReadWhole grow hinted declared [] r) = run_res (ioReadAll true [] r) /\
  run_res (ReadWhole grow hinted declared [] r) =
    if decide (rd_tail r = Sentinel EOF) then Ok (rd_data r) else Err (rd_tail r).
Proof.
  intros Ht.
  assert (Hall : run_res (ioReadAll true [] r) =
    if decide (rd_tail r = Sentinel EOF) then Ok (rd_data r) else Err (rd_tail r)).
  { unfold ioReadAll, rd_data. generalize (rd_chunks r), (rd_tail r). intros cs t.
    change (concat cs) with ([] ++ concat cs). generalize (@nil byte) as got.
    induction cs as [|x cs IH]; intros got; simpl; [by rewrite app_nil_r|].
    by rewrite IH, app_assoc. }
  rewrite Hall. enough (run_res (ReadWhole grow hinted declared [] r) = run_res (ioReadAll true [] r)) as ->
    by by rewrite Hall.
  unfold ReadWhole. rewrite chk_nil. cbv zeta.
  match goal with |- context [if ?b then ioReadAll _ _ _ else _] => destruct b; [done|] end.
  edestruct readWhole_go_total as [r' ->]; [|rewrite Hall].
  { apply Nat.lt_lt_succ_r. apply Nat.lt_succ_diag_r. }
  unfold run_res. simpl. destruct Ht as [Ht|Ht].
  - rewrite Ht. done.
  - rewrite Ht. case_decide as E; [rewrite E in Ht; discriminate|done].
Qed.

Example ReadWhole_reads_all_witness :
  let r := mkReader [str "con"; str "tent"] EOF in
  run_res (ReadWhole (fun n => 2 * n)%nat (Some 2) 0 [] r) = Ok (str "content").
Proof.
  pose proof (ReadWhole_reads_all (fun n => 2 * n)%nat (Some 2) 0
    (mkReader [str "con"; str "tent"] EOF) (or_introl eq_refl)) as [_ H].
  exact H.
Defined.

(** The read-then-close rule: the reader is read and closed exactly once
    per call; with [readWins] the read's error is reported and a close failure
    only when the read succeeded; with [closeWins] a close failure is reported
    whatever the read said; each error goes through its own renderer, and a
    value is returned only when both succeed. *)
Theorem readThenClose_precedence {T A} (rc : ReadCloser) (read : Reader -> M T A) (order : closeOrder)
    (fr fc : option (error -> error)) (c : ctx) (t : T) :
  let '(rv, c', t') := read (rc_reader rc) c t in
  readThenClose rc read order fr fc c t =
    (match rv, rc_close rc, order with
     | Ok v, None, _ => Ok v
     | Ok _, Some ce, _ => Err (render fc ce)
     | Err e, None, _ => Err (render fr e)
     | Err e, Some _, readWins => Err (render fr e)
     | Err _, Some ce, closeWins => Err (render fc ce)
     end, c', t').
Proof.
  unfold readThenClose. destruct (read (rc_reader rc) c t) as [[[v|e] c'] t']; simpl;
    by destruct order, (rc_close rc).
Qed.
