(* ===== verification/Envelope.v ===== *)
(** The envelope (src/cas/envelope.go): the self-describing frame every stored
    object has, its writer, its in-memory decoder and the bounded header reads
    over a stream. *)

From S2P Require Import Prelude Binary Stream.

(** ** The frame *)
Record Envelope := mkEnvelope { env_Type : bytes; env_Codec : bytes; env_Data : bytes }.

#[export] Instance Envelope_eq_dec : EqDecision Envelope.
Proof. solve_decision. Defined.

Definition envelopeVersion : byte := x02.
Definition envelopeVersionV1 : byte := x01.
Definition EnvelopeVersion : byte := envelopeVersion.

(** [strings.Contains(s, "@")]. *)
Definition containsAt (s : bytes) : bool := existsb (fun b => bool_decide (b = x40)) s.

Definition encodeEnvelope (codec typ payload : bytes) : bytes :=
  [envelopeVersion] ++
  PutUvarint (blen codec) ++ codec ++
  PutUvarint (blen typ) ++ typ ++
  PutUvarint (blen payload) ++ payload.

Definition EncodeEnvelope (codec typ payload : bytes) : res bytes :=
  if Nat.eqb (length typ) 0 then Err (Errorf "%w: empty type name" ErrUnknownType)
  else if negb (containsAt typ) then Err (Errorf "%w: type name %q is not versioned" ErrUnknownType)
  else Ok (encodeEnvelope codec typ payload).

(** An unversioned (legacy) type name reads as major version 1. *)
Definition versionedName (typeName : bytes) : bytes :=
  if containsAt typeName then typeName else typeName ++ str "@1".

(** The codec tag, the type name and the offset of the payload length. *)
Definition decodeEnvelopeHeader (data : bytes) : res (bytes * bytes * nat) :=
  match data with
  | [] => Err (Errorf "%w: truncated envelope version" ErrCorrupt)
  | version :: _ =>
    if negb (bool_decide (version = envelopeVersion)) && negb (bool_decide (version = envelopeVersionV1))
    then Err (Errorf "%w: unsupported envelope version %d" ErrCorrupt)
    else
      '(codec, off) ←
        (if bool_decide (version = envelopeVersion) then
           let '(codecLen, n) := Uvarint (drop 1 data) in
           if n <=? 0 then Err (Errorf "%w: truncated codec length" ErrCorrupt)
           else
             let off := (1 + Z.to_nat n)%nat in
             if blen data - Z.of_nat off <? codecLen
             then Err (Errorf "%w: object missing or oversized codec" ErrCorrupt)
             else Ok (take (Z.to_nat codecLen) (drop off data), (off + Z.to_nat codecLen)%nat)
         else Ok ([], 1%nat));
      let '(typeLen, n) := Uvarint (drop off data) in
      if n <=? 0 then Err (Errorf "%w: truncated type length" ErrCorrupt)
      else
        let off := (off + Z.to_nat n)%nat in
        if (typeLen =? 0) || (blen data - Z.of_nat off <? typeLen)
        then Err (Errorf "%w: object missing or oversized type" ErrCorrupt)
        else
          let typeName := take (Z.to_nat typeLen) (drop off data) in
          let off := (off + Z.to_nat typeLen)%nat in
          Ok (codec, versionedName typeName, off)
  end.

Definition decodeEnvelope (data : bytes) : res Envelope :=
  '(codec, typeName, off) ← decodeEnvelopeHeader data;
  let '(payloadLen, n) := Uvarint (drop off data) in
  if n <=? 0 then Err (Errorf "%w: truncated payload length" ErrCorrupt)
  else
    let off := (off + Z.to_nat n)%nat in
    if blen data - Z.of_nat off <? payloadLen
    then Err (Errorf "%w: payload length exceeds envelope size" ErrCorrupt)
    else Ok (mkEnvelope typeName codec (take (Z.to_nat payloadLen) (drop off data))).

Definition EnvelopeType (data : bytes) : res bytes :=
  '(_, typeName, _) ← decodeEnvelopeHeader data;
  Ok typeName.

Definition EnvelopeFromBytes (data : bytes) : res Envelope :=
  env ← decodeEnvelope data;
  Ok (mkEnvelope (env_Type env) (env_Codec env) (env_Data env)).

(** ** Header reads over a stream *)
Definition maxPeekNameLen : Z := 4096.
Definition headerPrefixLimit : Z := 2 * maxPeekNameLen.

Definition peekError (op field : string) (e : error) : error :=
  if errIs e EOF || errIs e ErrUnexpectedEOF then Errorf ("%w: " +:+ op +:+ ": truncated " +:+ field) ErrCorrupt
  else Errorf2 ("%w: " +:+ op +:+ ": read " +:+ field +:+ ": %w") ErrCorrupt e.

(** [ReadByte], of a reader that has one or through [byteReader]. *)
Definition readByte : M Reader byte :=
  b ← ReadFull 1;
  match b with [x] => mret x | _ => throw EOF end.

(** [binary.ReadUvarint]. *)
Definition errOverflow : error := New "binary: varint overflows a 64-bit integer".
Fixpoint readUvarint_go (fuel i : nat) (x s : Z) : M Reader Z :=
  match fuel with
  | O => throw errOverflow
  | S fuel =>
    rb ← attempt readByte;
    match rb with
    | Err e => throw (if (0 <? i)%nat && bool_decide (e = Sentinel EOF) then Sentinel ErrUnexpectedEOF else e)
    | Ok b =>
      if b2z b <? 128 then
        if Nat.eqb i (MaxVarintLen64 - 1) && (1 <? b2z b) then throw errOverflow
        else mret (Z.lor x (wrap64 (Z.shiftl (b2z b) s)))
      else readUvarint_go fuel (S i) (Z.lor x (wrap64 (Z.shiftl (Z.land (b2z b) 127) s))) (s + 7)
    end
  end.
Definition ReadUvarint : M Reader Z := readUvarint_go MaxVarintLen64 0 0 0.

Definition readPeekName (op field : string) (allowEmpty : bool) : M Reader bytes :=
  fieldLen ← mapErr (peekError op (field +:+ " length")) ReadUvarint;
  if maxPeekNameLen <? fieldLen then throw (Errorf ("%w: " +:+ op +:+ ": " +:+ field +:+ " length %d exceeds %d") ErrCorrupt)
  else if fieldLen =? 0 then
    if negb allowEmpty then throw (Errorf ("%w: " +:+ op +:+ ": empty " +:+ field +:+ " name") ErrCorrupt)
    else mret []
  else mapErr (peekError op field) (ReadFull (Z.to_nat fieldLen)).

Definition peekHeader (op : string) : M Reader (byte * bytes * bytes) :=
  version ← mapErr (peekError op "envelope version") readByte;
  if negb (bool_decide (version = envelopeVersion)) && negb (bool_decide (version = envelopeVersionV1))
  then throw (Errorf ("%w: " +:+ op +:+ ": unsupported envelope version %d") ErrCorrupt)
  else
    codec ← (if bool_decide (version = envelopeVersion) then readPeekName op "codec" true else mret []);
    typeName ← readPeekName op "type" false;
    mret (version, codec, versionedName typeName).

Definition PeekHeader : M Reader (byte * bytes * bytes) := peekHeader "peek header".

Definition PeekType : M Reader bytes :=
  '(_, _, typeName) ← peekHeader "peek type";
  mret typeName.

Definition PeekVersion : M Reader byte :=
  mapErr (peekError "peek version" "envelope version") readByte.

(** ** Lemmas on the decoder *)
Lemma blen_drop {A} (l : list A) n : blen (drop n l) = Z.max 0 (blen l - Z.of_nat n).
Proof. rewrite length_drop. lia. Qed.

(** A length-prefixed field followed by anything. *)
Definition field (x : bytes) : bytes := PutUvarint (blen x) ++ x.

Lemma encodeEnvelope_fields codec typ payload :
  encodeEnvelope codec typ payload = [envelopeVersion] ++ field codec ++ field typ ++ field payload.
Proof. unfold encodeEnvelope, field. by rewrite <- !app_assoc. Qed.

(** What a decoder of one field at [off] sees. *)
Lemma field_decode pre x rest :
  blen x < 2^64 ->
  let data := pre ++ field x ++ rest in
  Uvarint (drop (length pre) data) = (blen x, blen (PutUvarint (blen x))) /\
  (blen (PutUvarint (blen x)) <=? 0) = false /\
  let off := (length pre + Z.to_nat (blen (PutUvarint (blen x))))%nat in
  (blen data - Z.of_nat off <? blen x) = false /\
  take (Z.to_nat (blen x)) (drop off data) = x /\
  (off + Z.to_nat (blen x))%nat = length (pre ++ field x).
Proof.
  intros Hx. unfold field. cbv zeta. rewrite !Nat2Z.id, <- !app_assoc.
  pose proof (PutUvarint_length (blen x)).
  rewrite (drop_app_exact pre _ (length pre)), Uvarint_Put by (done || lia).
  rewrite (drop_app_add pre), drop_app_exact, take_app_exact by done.
  rewrite !length_app. split_and!; try done; try lia. apply Z.ltb_ge. lia.
Qed.

Lemma decodeEnvelopeHeader_encode codec typ rest :
  blen codec < 2^64 -> blen typ < 2^64 -> typ <> [] ->
  decodeEnvelopeHeader ([envelopeVersion] ++ field codec ++ field typ ++ rest) =
    Ok (codec, versionedName typ,
        length ([envelopeVersion] ++ field codec ++ field typ)).
Proof.
  intros Hc Ht Hne. unfold decodeEnvelopeHeader. cbn [app]. cbv iota beta.
  change (bool_decide (envelopeVersion = envelopeVersion)) with true. cbn [negb andb]. cbv iota.
  change (envelopeVersion :: field codec ++ field typ ++ rest)
    with ([envelopeVersion] ++ field codec ++ field typ ++ rest).
  destruct (field_decode [envelopeVersion] codec (field typ ++ rest)) as (E1 & E2 & E3 & E4 & E5); [done|].
  change (length [envelopeVersion]) with 1%nat in *. rewrite E1, E2, E3, E4, E5. munfold. cbv iota beta.
  rewrite (app_assoc [envelopeVersion] (field codec) (field typ ++ rest)).
  destruct (field_decode ([envelopeVersion] ++ field codec) typ rest) as (F1 & F2 & F3 & F4 & F5); [done|].
  rewrite F1, F2, F3, F4, F5.
  destruct (Z.eqb_spec (blen typ) 0); [destruct typ; done|]. simpl orb. cbv iota.
  by rewrite <- app_assoc.
Qed.

Lemma decodeEnvelope_encode codec typ payload rest :
  blen codec < 2^64 -> blen typ < 2^64 -> blen payload < 2^64 -> typ <> [] ->
  decodeEnvelope (encodeEnvelope codec typ payload ++ rest) =
    Ok (mkEnvelope (versionedName typ) codec payload).
Proof.
  intros Hc Ht Hp Hne. unfold decodeEnvelope. rewrite encodeEnvelope_fields, <- !app_assoc.
  rewrite decodeEnvelopeHeader_encode by done. munfold. cbv iota beta.
  set (pre := [envelopeVersion] ++ field codec ++ field typ).
  replace ([envelopeVersion] ++ field codec ++ field typ ++ field payload ++ rest)
    with (pre ++ field payload ++ rest) by (unfold pre; by rewrite <- !app_assoc).
  destruct (field_decode pre payload rest) as (F1 & F2 & F3 & F4 & F5); [done|].
  by rewrite F1, F2, F3, F4.
Qed.

Lemma EncodeEnvelope_ok codec typ payload data :
  EncodeEnvelope codec typ payload = Ok data ->
  typ <> [] /\ containsAt typ = true /\ data = encodeEnvelope codec typ payload.
Proof.
  unfold EncodeEnvelope. destruct (Nat.eqb_spec (length typ) 0); [done|].
  destruct (containsAt typ); [|done]. intros [= <-]. split_and!; try done. by destruct typ.
Qed.

(** ** Properties of the frame *)

(** C32. Round trip: the frame written for a codec tag, a versioned type name
    and a payload decodes to exactly those three, whatever bytes follow it (a
    frame extension is ignored). *)
Theorem EncodeEnvelope_roundtrip (codec typ payload data trailer : bytes) :
  blen codec < 2^64 -> blen typ < 2^64 -> blen payload < 2^64 ->
  EncodeEnvelope codec typ payload = Ok data ->
  EnvelopeFromBytes (data ++ trailer) = Ok (mkEnvelope typ codec payload) /\
  EnvelopeType (data ++ trailer) = Ok typ.
Proof.
  intros Hc Ht Hp (Hne & Hat & ->)%EncodeEnvelope_ok.
  unfold EnvelopeFromBytes, EnvelopeType. rewrite decodeEnvelope_encode by done. unfold versionedName. rewrite Hat. split; [done|].
  rewrite encodeEnvelope_fields, <- !app_assoc, decodeEnvelopeHeader_encode by done.
  unfold versionedName. by rewrite Hat.
Qed.

Example EncodeEnvelope_roundtrip_witness :
  EnvelopeFromBytes (encodeEnvelope (str "json") (str "blob@1") (str "{}") ++ str "x") =
    Ok (mkEnvelope (str "blob@1") (str "json") (str "{}")).
Proof.
  apply (EncodeEnvelope_roundtrip (str "json") (str "blob@1") (str "{}")
    (encodeEnvelope (str "json") (str "blob@1") (str "{}")) (str "x")); vm_compute; reflexivity.
Defined.

(** The frame is injective: two objects share their stored bytes, and so
    their address, only when codec tag, type name and payload all agree. *)
Theorem encodeEnvelope_injective (c1 t1 p1 c2 t2 p2 : bytes) :
  blen c1 < 2^64 -> blen t1 < 2^64 -> blen p1 < 2^64 ->
  blen c2 < 2^64 -> blen t2 < 2^64 -> blen p2 < 2^64 ->
  EncodeEnvelope c1 t1 p1 = EncodeEnvelope c2 t2 p2 -> is_ok (EncodeEnvelope c1 t1 p1) = true ->
  c1 = c2 /\ t1 = t2 /\ p1 = p2.
Proof.
  intros ?????? He Hok.
  destruct (EncodeEnvelope c1 t1 p1) as [d|] eqn:E1; [|done]. symmetry in He.
  apply EncodeEnvelope_ok in E1 as (N1 & A1 & ->). apply EncodeEnvelope_ok in He as (N2 & A2 & E2).
  pose proof (decodeEnvelope_encode c1 t1 p1 []) as D1. pose proof (decodeEnvelope_encode c2 t2 p2 []) as D2.
  unfold versionedName in *. rewrite A1 in D1. rewrite <- E2, D1, A2 in D2 by done. specialize (D2 ltac:(done) ltac:(done) ltac:(done) ltac:(done)).
  by simplify_eq.
Qed.

Example encodeEnvelope_injective_witness :
  str "json" = str "json" /\ str "b@1" = str "b@1" /\ str "1" = str "1".
Proof. apply encodeEnvelope_injective; vm_compute; reflexivity. Defined.


(** ** The header as fields *)
(** [x] is the length-prefixed field at offset [off], ending at [off']. *)
Definition fieldAt (data : bytes) (off : nat) (x : bytes) (off' : nat) : Prop :=
  exists n, Uvarint (drop off data) = (blen x, Z.of_nat n) /\ (0 < n)%nat /\
    off' = (off + n + length x)%nat /\ (off' <= length data)%nat /\
    x = take (length x) (drop (off + n) data).

Definition headerAt (data : bytes) (v : byte) (codec raw : bytes) (off : nat) : Prop :=
  head data = Some v /\ raw <> [] /\
  ((v = envelopeVersion /\ exists o, fieldAt data 1 codec o /\ fieldAt data o raw off) \/
   (v = envelopeVersionV1 /\ codec = [] /\ fieldAt data 1 raw off)).

Lemma fieldAt_intro data off v n :
  Uvarint (drop off data) = (v, n) -> (n <=? 0) = false ->
  (blen data - Z.of_nat (off + Z.to_nat n) <? v) = false ->
  fieldAt data off (take (Z.to_nat v) (drop (off + Z.to_nat n) data)) (off + Z.to_nat n + Z.to_nat v) /\
  blen (take (Z.to_nat v) (drop (off + Z.to_nat n) data)) = v.
Proof.
  intros HU Hn Hv. apply Z.leb_gt in Hn. apply Z.ltb_ge in Hv.
  pose proof (Uvarint_range _ _ _ HU Hn) as Hr. pose proof (Uvarint_value _ _ _ HU).
  rewrite blen_drop in Hr.
  assert (Hl : length (take (Z.to_nat v) (drop (off + Z.to_nat n) data)) = Z.to_nat v)
    by (rewrite length_take_le; [done|rewrite length_drop; lia]).
  split; [exists (Z.to_nat n)|]; rewrite Hl, ?Z2Nat.id by lia; [|done]. split_and!; (done || lia).
Qed.

Lemma fieldAt_elim data off x off' :
  fieldAt data off x off' ->
  exists n, Uvarint (drop off data) = (blen x, n) /\ (n <=? 0) = false /\
    (blen data - Z.of_nat (off + Z.to_nat n) <? blen x) = false /\
    take (Z.to_nat (blen x)) (drop (off + Z.to_nat n) data) = x /\
    (off + Z.to_nat n + Z.to_nat (blen x))%nat = off'.
Proof.
  intros (n & HU & Hn & -> & Hl & Hx). exists (Z.of_nat n).
  rewrite !Nat2Z.id. split_and!; try done; try lia. apply Z.ltb_ge. lia.
Qed.

Lemma decodeEnvelopeHeader_inv data codec typ off :
  decodeEnvelopeHeader data = Ok (codec, typ, off) ->
  exists v raw, headerAt data v codec raw off /\ typ = versionedName raw.
Proof.
  unfold headerAt, decodeEnvelopeHeader. munfold. intros H.
  repeat case_match; simplify_eq; rewrite ?orb_false_iff, ?andb_false_iff, ?negb_false_iff in *;
    destruct_and?; repeat case_bool_decide; simplify_eq; try (destruct_or?; done);
    repeat match goal with
      | HU : Uvarint (drop ?o ?d) = (?v, ?n), Hn : (?n <=? 0) = false |- _ =>
        destruct (fieldAt_intro d o v n HU Hn ltac:(assumption)); clear HU
      end;
    do 2 eexists; (split; [split_and!|reflexivity]; [done| |eauto 10]);
    intros E; rewrite E in *; simpl in *; subst; done.
Qed.

Lemma decodeEnvelopeHeader_intro data v codec raw off :
  headerAt data v codec raw off -> decodeEnvelopeHeader data = Ok (codec, versionedName raw, off).
Proof.
  unfold headerAt, decodeEnvelopeHeader. intros (Hv & Hr & Hcase).
  destruct data as [|v' tl]; [done|]. injection Hv as ->.
  assert (Hz : (blen raw =? 0) = false) by (destruct raw; done).
  destruct Hcase as [[-> (o & Hc & Ht)]|(-> & -> & Ht)]; munfold.
  - change (bool_decide (envelopeVersion = envelopeVersion)) with true. cbn [negb andb]. cbv iota beta.
    apply fieldAt_elim in Hc as (n & -> & -> & -> & -> & ->). cbv iota beta.
    apply fieldAt_elim in Ht as (n' & -> & -> & -> & -> & ->). by rewrite Hz.
  - change (bool_decide (envelopeVersionV1 = envelopeVersionV1)) with true.
    change (bool_decide (envelopeVersionV1 = envelopeVersion)) with false. cbn [negb andb]. cbv iota beta.
    apply fieldAt_elim in Ht as (n' & -> & -> & -> & -> & ->). by rewrite Hz.
Qed.

(** A field is read from the bytes before its end only. *)
Lemma fieldAt_prefix data off x off' k rest :
  fieldAt data off x off' -> (off' <= k <= length data)%nat -> fieldAt (take k data ++ rest) off x off'.
Proof.
  intros (n & HU & Hn & -> & Hl & Hx) Hk.
  assert (Hd : forall m, (m <= k)%nat -> drop m (take k data ++ rest) = take (k - m) (drop m data) ++ rest).
  { intros m Hm. rewrite drop_app_le by (rewrite length_take; lia). by rewrite skipn_firstn_comm. }
  exists n. rewrite !Hd, length_app, length_take by lia. split_and!; try (done || lia).
  - apply Uvarint_take; (done || lia).
  - rewrite Hx at 1. rewrite take_app_le; [|rewrite length_take, length_drop; lia].
    rewrite take_take. f_equal. lia.
Qed.

Lemma headerAt_prefix data v codec raw off rest :
  headerAt data v codec raw off -> (off <= length data)%nat /\ headerAt (take off data ++ rest) v codec raw off.
Proof.
  intros (Hv & Hr & Hcase).
  assert (Hl : (1 < off <= length data)%nat).
  { destruct Hcase as [(-> & o & (n1 & _ & ? & -> & ? & _) & (n2 & _ & ? & -> & ? & _))|
      (-> & -> & (n2 & _ & ? & -> & ? & _))]; lia. }
  split; [lia|]. split; [|split; [done|]].
  - destruct data as [|b data], off as [|off]; simpl in *; (done || lia).
  - destruct Hcase as [(-> & o & Hc & Ht)|(-> & -> & Ht)]; [left|right].
    + split; [done|]. exists o. split; apply fieldAt_prefix; try done; try lia.
      destruct Ht as (n2 & _ & ? & -> & ? & _). lia.
    + split_and!; try done. apply fieldAt_prefix; (done || lia).
Qed.

(** A bounded prefix is enough to learn an object's type: the header
    decode reads no byte beyond the type name, so it gives the same answer for
    the prefix that ends there followed by anything, and for the whole object. *)
Theorem decodeEnvelopeHeader_prefix (data codec typ rest : bytes) (off : nat) :
  decodeEnvelopeHeader data = Ok (codec, typ, off) ->
  (off <= length data)%nat /\
  decodeEnvelopeHeader (take off data ++ rest) = Ok (codec, typ, off).
Proof.
  intros (v & raw & H & ->)%decodeEnvelopeHeader_inv.
  apply (headerAt_prefix _ _ _ _ _ rest) in H as [Hl H]. split; [done|].
  by apply decodeEnvelopeHeader_intro in H.
Qed.

Example decodeEnvelopeHeader_prefix_witness :
  (13 <= 16)%nat /\
  decodeEnvelopeHeader (take 13 (encodeEnvelope (str "json") (str "blob@1") (str "{}")) ++ []) =
    Ok (str "json", str "blob@1", 13%nat).
Proof.
  apply (decodeEnvelopeHeader_prefix (encodeEnvelope (str "json") (str "blob@1") (str "{}"))).
  vm_compute. reflexivity.
Defined.

(** Every failure of the decoders is [ErrCorrupt]. *)
Lemma decodeEnvelopeHeader_err data e :
  decodeEnvelopeHeader data = Err e -> errIs e ErrCorrupt = true.
Proof. unfold decodeEnvelopeHeader. munfold. repeat case_match; intros; simplify_eq; done. Qed.
Lemma decodeEnvelope_err data e : decodeEnvelope data = Err e -> errIs e ErrCorrupt = true.
Proof.
  unfold decodeEnvelope. munfold. destruct (decodeEnvelopeHeader data) as [[[c t] o]|e'] eqn:E.
  - repeat case_match; intros; simplify_eq; done.
  - intros [= ->]. by apply decodeEnvelopeHeader_err in E.
Qed.

(** ** The stream reads against the decoder *)
Lemma readByte_ok c r b rest :
  rd_data r = b :: rest -> exists r', readByte c r = (Ok b, c, r') /\ rd_data r' = rest /\ rd_tail r' = rd_tail r.
Proof.
  intros Hd. destruct (ReadFull_ok 1 c r) as (r' & Hr & Hd' & Ht); [rewrite Hd; simpl; lia|].
  exists r'. unfold readByte. munfold. rewrite Hr, Hd in *. simpl in *. done.
Qed.
Lemma readByte_end c r : rd_data r = [] -> readByte c r = (Err (rd_tail r), c, mkReader [] (rd_tail r)).
Proof.
  intros Hd. unfold readByte. munfold. rewrite ReadFull_short, Hd by (rewrite Hd; simpl; lia).
  unfold shortErr. by rewrite decide_True.
Qed.

Lemma readUvarint_go_spec fuel i x s c r :
  (i + fuel = 10)%nat ->
  let '(v, n) := uvarint_go (rd_data r) i x s in
  if 0 <? n then
    exists r', readUvarint_go fuel i x s c r = (Ok v, c, r') /\
      rd_data r' = drop (Z.to_nat n - i) (rd_data r) /\ rd_tail r' = rd_tail r
  else exists e r', readUvarint_go fuel i x s c r = (Err e, c, r').
Proof.
  revert i x s r. induction fuel as [|fuel IH]; intros i x s r Hi.
  { assert (i = 10%nat) as -> by lia. destruct (rd_data r); simpl; unfold throw; eauto. }
  destruct (rd_data r) as [|b rest] eqn:Hd; cbn [uvarint_go readUvarint_go].
  - munfold. rewrite (readByte_end c r Hd). simpl. eauto.
  - destruct (readByte_ok c r b rest Hd) as (r1 & Hb & Hd1 & Ht1). munfold. rewrite Hb. cbv iota beta.
    destruct (Nat.eqb_spec i MaxVarintLen64) as [E|_]; [unfold MaxVarintLen64 in E; lia|].
    destruct (b2z b <? 128) eqn:E128.
    + destruct (Nat.eqb i (MaxVarintLen64 - 1) && (1 <? b2z b)) eqn:Eov.
      * destruct (Z.ltb_spec 0 (- (Z.of_nat i + 1))); [lia|]. eauto.
      * destruct (Z.ltb_spec 0 (Z.of_nat i + 1)); [|lia]. exists r1. split; [done|].
        replace (Z.to_nat (Z.of_nat i + 1) - i)%nat with 1%nat by lia. done.
    + specialize (IH (S i) (Z.lor x (wrap64 (Z.shiftl (Z.land (b2z b) 127) s))) (s + 7) r1 ltac:(lia)).
      rewrite Hd1 in IH. destruct (uvarint_go rest (S i) _ _) as [v n] eqn:EU.
      destruct (Z.ltb_spec 0 n) as [Hn|Hn]; [|done].
      destruct IH as (r' & Hr & Hd' & Ht'). exists r'. split; [done|].
      apply uvarint_go_range in EU; [|done].
      replace (Z.to_nat n - i)%nat with (S (Z.to_nat n - S i)) by lia. simpl. by rewrite Ht'.
Qed.

Lemma ReadUvarint_spec c r :
  let '(v, n) := Uvarint (rd_data r) in
  if 0 <? n then
    exists r', ReadUvarint c r = (Ok v, c, r') /\
      rd_data r' = drop (Z.to_nat n) (rd_data r) /\ rd_tail r' = rd_tail r
  else exists e r', ReadUvarint c r = (Err e, c, r').
Proof.
  pose proof (readUvarint_go_spec MaxVarintLen64 0 0 0 c r eq_refl) as H.
  unfold Uvarint, ReadUvarint. destruct (uvarint_go (rd_data r) 0 0 0) as [v n].
  by rewrite Nat.sub_0_r in H.
Qed.

Lemma fieldAt_shift data o x k : fieldAt (drop o data) 0 x k <-> fieldAt data o x (o + k).
Proof.
  unfold fieldAt. rewrite length_drop, drop_0.
  split; intros (n & HU & Hn & Hk & Hl & Hx); exists n; rewrite drop_drop in *; simpl in *;
    split_and!; (done || lia).
Qed.

Lemma readPeekName_inv op f allow c r x c' r' :
  readPeekName op f allow c r = (Ok x, c', r') ->
  c' = c /\ rd_tail r' = rd_tail r /\ blen x <= maxPeekNameLen /\ (allow = false -> x <> []) /\
  exists k, fieldAt (rd_data r) 0 x k /\ rd_data r' = drop k (rd_data r).
Proof.
  unfold readPeekName. munfold. pose proof (ReadUvarint_spec c r) as HU.
  destruct (Uvarint (rd_data r)) as [v n] eqn:EU.
  destruct (Z.ltb_spec 0 n) as [Hn|Hn].
  2:{ destruct HU as (e & r1 & ->). done. }
  destruct HU as (r1 & -> & Hd1 & Ht1). simpl.
  pose proof (Uvarint_range _ _ _ EU Hn). pose proof (Uvarint_value _ _ _ EU).
  destruct (Z.ltb_spec maxPeekNameLen v) as [|Hmax]; [done|].
  destruct (Z.eqb_spec v 0) as [->|Hv0].
  - destruct allow; [|done]. intros [= <- <- <-]. simpl. split_and!; try done.
    exists (Z.to_nat n). split; [|done]. exists (Z.to_nat n). simpl. rewrite drop_0, EU.
    split_and!; try lia; [f_equal; lia|done].
  - destruct (Nat.leb_spec (Z.to_nat v) (length (rd_data r1))) as [Hl|Hl].
    + destruct (ReadFull_ok (Z.to_nat v) c r1 Hl) as (r2 & -> & Hd2 & Ht2). intros [= <- <- <-].
      assert (Hlen : length (take (Z.to_nat v) (rd_data r1)) = Z.to_nat v) by (by rewrite length_take_le).
      rewrite Hlen. split_and!; try done; [congruence|lia|intros _ E; rewrite E in Hlen; simpl in Hlen; lia|].
      exists (Z.to_nat n + Z.to_nat v)%nat. rewrite Hd2, Hd1, drop_drop. split; [|done].
      rewrite <- Hd1 at 1. exists (Z.to_nat n). rewrite Hlen, drop_0, EU, Hd1.
      rewrite Hd1, length_drop in Hl. split_and!; try lia; [f_equal; lia|done].
    + rewrite ReadFull_short by done. done.
Qed.

Lemma readPeekName_ok op f allow c r x k :
  fieldAt (rd_data r) 0 x k -> blen x <= maxPeekNameLen -> (allow = true \/ x <> []) ->
  exists r', readPeekName op f allow c r = (Ok x, c, r') /\
    rd_data r' = drop k (rd_data r) /\ rd_tail r' = rd_tail r.
Proof.
  intros (n & HU & Hn & -> & Hl & Hx) Hmax Hal. rewrite drop_0 in HU. simpl in *.
  unfold readPeekName. munfold. pose proof (ReadUvarint_spec c r) as Hs. rewrite HU in Hs.
  destruct (Z.ltb_spec 0 (Z.of_nat n)); [|lia]. destruct Hs as (r1 & -> & Hd1 & Ht1). simpl.
  rewrite Nat2Z.id in Hd1. destruct (Z.ltb_spec maxPeekNameLen (blen x)); [lia|].
  destruct (Z.eqb_spec (blen x) 0) as [E|E].
  - destruct x; [|done]. destruct Hal as [->|]; [|done]. simpl. rewrite Nat.add_0_r. eauto.
  - rewrite Nat2Z.id. destruct (ReadFull_ok (length x) c r1) as (r2 & -> & Hd2 & Ht2).
    { rewrite Hd1, length_drop. lia. }
    exists r2. rewrite Hd2, Hd1, drop_drop, <- Hx, Ht2. done.
Qed.

(** The header of a stream, read field by field. *)
Lemma peekHeader_inv op c r v codec typ c' r' :
  peekHeader op c r = (Ok (v, codec, typ), c', r') ->
  exists raw off, headerAt (rd_data r) v codec raw off /\ typ = versionedName raw /\
    rd_data r' = drop off (rd_data r).
Proof.
  unfold peekHeader. munfold. destruct (rd_data r) as [|b tl] eqn:Hd.
  { by rewrite (readByte_end c r Hd). }
  destruct (readByte_ok c r b tl Hd) as (r1 & -> & Hd1 & Ht1). cbn [wrapErr].
  assert (Htl : rd_data r1 = drop 1 (b :: tl)) by done.
  destruct (bool_decide (b = envelopeVersion)) eqn:E2; [|destruct (bool_decide (b = envelopeVersionV1)) eqn:E1];
    rewrite ?bool_decide_eq_true in *; subst; cbn [negb andb]; cbv iota beta; [| |done].
  - destruct (readPeekName op "codec" true c r1) as [[[x|e] c2] r2] eqn:Hc; [|done].
    destruct (readPeekName op "type" false c2 r2) as [[[y|e] c3] r3] eqn:Ht; [|done].
    intros [= <- <- <- <- <-].
    apply readPeekName_inv in Hc as (-> & _ & _ & _ & k & Hf & Hd2).
    apply readPeekName_inv in Ht as (-> & _ & _ & Hne & k' & Hf' & Hd3).
    rewrite Htl in *. rewrite drop_drop in Hd2. rewrite Hd2 in *. rewrite drop_drop in Hd3.
    exists y, (1 + k + k')%nat. split_and!; try done. split; [done|]. split; [by apply Hne|]. left.
    split; [done|]. exists (1 + k)%nat. split; by apply fieldAt_shift.
  - destruct (readPeekName op "type" false c r1) as [[[y|e] c3] r3] eqn:Ht; [|done].
    intros [= <- <- <- <- <-]. apply readPeekName_inv in Ht as (-> & _ & _ & Hne & k' & Hf' & Hd3).
    rewrite Htl in *. rewrite drop_drop in Hd3.
    exists y, (1 + k')%nat. split_and!; try done. split; [done|]. split; [by apply Hne|]. right.
    split_and!; try done. by apply fieldAt_shift.
Qed.

Lemma peekHeader_ok op c r v codec raw off :
  headerAt (rd_data r) v codec raw off -> blen codec <= maxPeekNameLen -> blen raw <= maxPeekNameLen ->
  exists r', peekHeader op c r = (Ok (v, codec, versionedName raw), c, r') /\ rd_data r' = drop off (rd_data r).
Proof.
  intros (Hv & Hne & Hcase) Hmc Hmr. unfold peekHeader. munfold.
  destruct (rd_data r) as [|b tl] eqn:Hd; [done|]. injection Hv as ->.
  destruct (readByte_ok c r v tl Hd) as (r1 & -> & Hd1 & Ht1). cbn [wrapErr].
  assert (Htl : rd_data r1 = drop 1 (v :: tl)) by done.
  destruct Hcase as [[-> (o & Hc & Ht)]|(-> & -> & Ht)].
  - change (bool_decide (envelopeVersion = envelopeVersion)) with true. cbn [negb andb]. cbv iota beta.
    assert (exists k, o = (1 + k)%nat) as [k ->] by (destruct Hc as (n & _ & ? & -> & _); exists (n + length codec)%nat; lia).
    assert (exists k', off = (1 + k + k')%nat) as [k' ->] by (destruct Ht as (n & _ & ? & -> & _); exists (n + length raw)%nat; lia).
    apply fieldAt_shift in Hc, Ht. rewrite <- Htl in Hc.
    destruct (readPeekName_ok op "codec" true c r1 codec k) as (r2 & -> & Hd2 & Ht2); [done..|auto|].
    rewrite Htl, drop_drop in Hd2. rewrite <- Hd2 in Ht.
    destruct (readPeekName_ok op "type" false c r2 raw k') as (r3 & -> & Hd3 & Ht3); [done..|auto|].
    exists r3. by rewrite Hd3, Hd2, drop_drop.
  - change (bool_decide (envelopeVersionV1 = envelopeVersionV1)) with true.
    change (bool_decide (envelopeVersionV1 = envelopeVersion)) with false. cbn [negb andb]. cbv iota beta.
    assert (exists k', off = (1 + k')%nat) as [k' ->] by (destruct Ht as (n & _ & ? & -> & _); exists (n + length raw)%nat; lia).
    apply fieldAt_shift in Ht. rewrite <- Htl in Ht.
    destruct (readPeekName_ok op "type" false c r1 raw k') as (r3 & -> & Hd3 & Ht3); [done..|auto|].
    exists r3. by rewrite Hd3, Htl, drop_drop.
Qed.

Lemma peekError_corrupt op f e : errIs (peekError op f e) ErrCorrupt = true.
Proof. unfold peekError. by destruct (errIs e EOF || errIs e ErrUnexpectedEOF). Qed.

Lemma mapErr_corrupt {A} op f (m : M Reader A) c r e c' r' :
  mapErr (peekError op f) m c r = (Err e, c', r') -> errIs e ErrCorrupt = true.
Proof.
  unfold mapErr. destruct (m c r) as [[[a|e1] c1] r1]; simpl; [done|]. intros [= <- <- <-].
  apply peekError_corrupt.
Qed.
Lemma readPeekName_err op f allow c r e c' r' :
  readPeekName op f allow c r = (Err e, c', r') -> errIs e ErrCorrupt = true.
Proof.
  unfold readPeekName, mbind, M_bind.
  destruct (mapErr _ ReadUvarint c r) as [[[v|e1] c1] r1] eqn:E.
  - unfold throw, mret, M_ret. repeat case_match; intros; simplify_eq; try done.
    by eapply mapErr_corrupt.
  - intros [= <- <- <-]. by eapply mapErr_corrupt.
Qed.
Lemma peekHeader_err op c r e c' r' :
  peekHeader op c r = (Err e, c', r') -> errIs e ErrCorrupt = true.
Proof.
  unfold peekHeader, mbind, M_bind.
  destruct (mapErr _ readByte c r) as [[[v|e1] c1] r1] eqn:E.
  2:{ intros [= <- <- <-]. by eapply mapErr_corrupt. }
  destruct (negb _ && _); [unfold throw; intros [= <- <- <-]; done|].
  assert (Htype : forall (x : bytes) c2 r2, match readPeekName op "type" false c2 r2 with
      | (Ok y, c3, r3) => (mret (v, x, versionedName y) : M Reader (byte * bytes * bytes)) c3 r3
      | (Err e1, c3, r3) => (Err e1, c3, r3)
      end = (Err e, c', r') -> errIs e ErrCorrupt = true).
  { intros x c2 r2. destruct (readPeekName op "type" false c2 r2) as [[[y|e1] c3] r3] eqn:Et; [done|].
    intros [= <- <- <-]. by eapply readPeekName_err. }
  destruct (bool_decide (v = envelopeVersion)); [|apply Htype].
  destruct (readPeekName op "codec" true c1 r1) as [[[x|e1] c2] r2] eqn:Ec; [apply Htype|].
  intros [= <- <- <-]. by eapply readPeekName_err.
Qed.

(** C33. One header layout, read two ways: over a stream holding an object,
    however its bytes are split into reads, the bounded header read answers
    what the in-memory decoder answers and stops where the payload length
    starts; it accepts every header whose two names are within the 4096-byte
    bound; and whatever either reader rejects is [ErrCorrupt]. *)
Theorem PeekHeader_agrees (r : Reader) (c : ctx) :
  (forall v codec typ c' r', PeekHeader c r = (Ok (v, codec, typ), c', r') ->
     exists off, decodeEnvelopeHeader (rd_data r) = Ok (codec, typ, off) /\
       head (rd_data r) = Some v /\ rd_data r' = drop off (rd_data r)) /\
  (forall codec typ off, decodeEnvelopeHeader (rd_data r) = Ok (codec, typ, off) ->
     blen codec <= maxPeekNameLen -> blen typ <= maxPeekNameLen ->
     exists v r', PeekHeader c r = (Ok (v, codec, typ), c, r') /\
       head (rd_data r) = Some v /\ rd_data r' = drop off (rd_data r)) /\
  (is_ok (run_res (PeekHeader c r)) = false -> res_errIs (run_res (PeekHeader c r)) ErrCorrupt = true) /\
  (is_ok (decodeEnvelope (rd_data r)) = false -> res_errIs (decodeEnvelope (rd_data r)) ErrCorrupt = true).
Proof.
  split_and!.
  - intros v codec typ c' r' (raw & off & H & -> & Hd)%peekHeader_inv. exists off.
    split_and!; [by eapply decodeEnvelopeHeader_intro|apply H|done].
  - intros codec typ off (v & raw & H & ->)%decodeEnvelopeHeader_inv Hc Ht.
    destruct (peekHeader_ok "peek header" c r v codec raw off H Hc) as (r' & Hr & Hd).
    { unfold versionedName in Ht. destruct (containsAt raw); [done|]. rewrite length_app in Ht. simpl in Ht. lia. }
    exists v, r'. split_and!; [done|apply H|done].
  - unfold run_res, PeekHeader. destruct (peekHeader _ c r) as [[[x|e] c'] r'] eqn:E; [done|]. intros _.
    by eapply peekHeader_err.
  - destruct (decodeEnvelope (rd_data r)) eqn:E; [done|]. intros _. by eapply decodeEnvelope_err.
Qed.
