(* ===== verification/Backend.v ===== *)
(** The byte layer's interface (src/cas/backend.go, src/cas/capabilities.go,
    src/cas/batch.go): the operations of a Backend over its own state, the
    optional interfaces a backend may add, the contract the rest of the library
    is proved against, and the batched read. *)

From S2P Require Import Prelude Digest Stream.

Record Stats := mkStats { TotalSize : Z; ObjectCount : Z }.

#[export] Instance Stats_eq_dec : EqDecision Stats.
Proof. solve_decision. Defined.

(** [cas.Backend], with its optional interfaces: [Statter], [Cleaner],
    [io.Closer] and [BatchGetter] (the batch's callback runs over any client
    state).  Times and durations are nanoseconds. *)
Record Backend (S : Type) := mkBackend {
  bk_Put : Digest -> Reader -> M S unit;
  bk_Get : Digest -> M S ReadCloser;
  bk_Exists : Digest -> M S bool;
  bk_Delete : Digest -> M S unit;
  bk_List : M S (list Digest);
  bk_Stats : M S Stats;
  bk_Statter : option ((Digest -> M S Z) * (Digest -> M S Z));
  bk_Cleaner : option (Z -> M S Z);
  bk_Closer : option (M S unit);
}.
Arguments mkBackend {S}.
Arguments bk_Put {S}. Arguments bk_Get {S}. Arguments bk_Exists {S}. Arguments bk_Delete {S}.
Arguments bk_List {S}. Arguments bk_Stats {S}.
Arguments bk_Statter {S}. Arguments bk_Cleaner {S}. Arguments bk_Closer {S}.

Record Capabilities := mkCapabilities { cap_Verify : bool; cap_Sweep : bool; cap_Clean : bool; cap_Stat : bool }.

Definition CapabilitiesOf {S} (b : Backend S) : Capabilities :=
  mkCapabilities true true (bool_decide (is_Some (bk_Cleaner b))) (bool_decide (is_Some (bk_Statter b))).

(** ** The contract

    [abs] is the map from digests to bytes a state stands for, [key] the
    digests the backend can address, [inv] its representation invariant and
    [quiet] the states in which no failure of the medium is pending.  A
    successful call did what the interface says, under any context (a Get's
    reader may still fail midway, after a prefix of the bytes, and then does not
    end in [io.EOF]); a failed one left the contents alone, or had done its work before it failed;
    with the background context and a quiet medium the reads succeed. *)
Definition put_post (m : gmap Digest bytes) (d : Digest) (data : bytes) (m' : gmap Digest bytes) : Prop :=
  m' = <[d := data]> m \/ (is_Some (m !! d) /\ m' = m).

Class BackendSpec {S} (B : Backend S) (inv quiet : S -> Prop) (key : Digest -> Prop)
    (abs : S -> gmap Digest bytes) : Prop := {
  bs_key_nonzero : forall d, key d -> d <> [];
  bs_abs_key : forall s d, inv s -> is_Some (abs s !! d) -> key d;
  bs_Put : forall d r c s res c' s', inv s -> bk_Put B d r c s = (res, c', s') ->
    inv s' /\ (quiet s -> quiet s') /\
    match res with
    | Ok _ => key d /\ rd_tail r = Sentinel EOF /\ put_post (abs s) d (rd_data r) (abs s')
    | Err _ => abs s' = abs s \/ (rd_tail r = Sentinel EOF /\ put_post (abs s) d (rd_data r) (abs s'))
    end;
  bs_Get : forall d c s res c' s', inv s -> bk_Get B d c s = (res, c', s') ->
    inv s' /\ (quiet s -> quiet s') /\ abs s' = abs s /\
    match res with
    | Ok rc => exists data, abs s !! d = Some data /\
        serves rc data /\
        (quiet s -> rd_tail (rc_reader rc) = Sentinel EOF /\ rc_close rc = None)
    | Err e => (errIs e ErrNotFound = true -> abs s !! d = None) /\ errIs e ErrUnknownType = false
    end;
  bs_Get_found : forall d s data, inv s -> quiet s -> abs s !! d = Some data ->
    exists rc s', bk_Get B d [] s = (Ok rc, [], s');
  bs_Get_missing : forall d s, inv s -> quiet s -> key d -> abs s !! d = None ->
    exists e s', bk_Get B d [] s = (Err e, [], s') /\ errIs e ErrNotFound = true;
  bs_Exists : forall d c s res c' s', inv s -> bk_Exists B d c s = (res, c', s') ->
    inv s' /\ (quiet s -> quiet s') /\ abs s' = abs s /\
    match res with
    | Ok b => key d /\ b = bool_decide (is_Some (abs s !! d))
    | Err e => errIs e ErrInvalidDigest = true -> ~ key d
    end;
  bs_Exists_total : forall d s, inv s -> quiet s -> key d ->
    exists b s', bk_Exists B d [] s = (Ok b, [], s');
  bs_Delete : forall d c s res c' s', inv s -> bk_Delete B d c s = (res, c', s') ->
    inv s' /\ (quiet s -> quiet s') /\
    match res with
    | Ok _ => key d /\ abs s' = delete d (abs s)
    | Err _ => abs s' = abs s \/ abs s' = delete d (abs s)
    end;
  bs_Delete_total : forall d s, inv s -> quiet s -> key d ->
    exists s', bk_Delete B d [] s = (Ok tt, [], s');
  bs_List : forall c s res c' s', inv s -> bk_List B c s = (res, c', s') ->
    inv s' /\ (quiet s -> quiet s') /\ abs s' = abs s /\
    match res with
    | Ok l => StronglySorted bytes_le l /\ NoDup l /\ (forall d, key d -> d ∈ l <-> is_Some (abs s !! d))
    | Err _ => True
    end;
  bs_List_total : forall s, inv s -> quiet s -> exists l s', bk_List B [] s = (Ok l, [], s');
}.

(** ** The batched read (batch.go) *)
Section GetMany.
Context {S T : Type}.

(** The batch runs over the backend's state and the callback's. *)
Definition onFst {A} (m : M S A) : M (S * T) A := fun c st =>
  match m c st.1 with (r, c', s') => (r, c', (s', st.2)) end.
Definition onSnd {A} (m : M T A) : M (S * T) A := fun c st =>
  match m c st.2 with (r, c', t') => (r, c', (st.1, t')) end.

Variable raw : Backend S.
(** [fn] consumes what it needs from the reader; the reader is closed after it. *)
Variable fn : Digest -> Reader -> M T unit.

Definition closeAfterFn (d : Digest) (reader : ReadCloser) : M T unit :=
  readThenClose reader (fn d) readWins None (Some (Errorf "cas: get many: close %s: %w")).

Definition getManyEach (digests : list Digest) : M (S * T) unit :=
  forM_ digests (fun d =>
    ctxErr;;
    lift (CheckDigest d "cas: get many");;
    reader ← onFst (mapErr (Errorf "cas: get many: %s: %w") (bk_Get raw d));
    onSnd (closeAfterFn d reader)).

(** [batch] is the backend's own [BatchGetter.GetMany], when it has one. *)
Definition GetMany (batch : option (list Digest -> (Digest -> Reader -> M T unit) -> M (S * T) unit))
    (digests : list Digest) : M (S * T) unit :=
  match batch with
  | Some getMany => getMany digests fn
  | None => getManyEach digests
  end.
End GetMany.

(** ** Lemmas *)
Lemma onFst_inv {S' T A} (m : M S' A) c (st : S' * T) r c' st' :
  onFst m c st = (r, c', st') -> m c st.1 = (r, c', st'.1) /\ st'.2 = st.2.
Proof. unfold onFst. destruct (m c st.1) as [[? ?] ?]. intros. by simplify_eq. Qed.
Lemma onSnd_inv {S' T A} (m : M T A) c (st : S' * T) r c' st' :
  onSnd m c st = (r, c', st') -> m c st.2 = (r, c', st'.2) /\ st'.1 = st.1.
Proof. unfold onSnd. destruct (m c st.2) as [[? ?] ?]. intros. by simplify_eq. Qed.
Section Facts.
Context {S : Type} (B : Backend S) (inv quiet : S -> Prop) (key : Digest -> Prop) (abs : S -> gmap Digest bytes).
Context `{!BackendSpec B inv quiet key abs}.

(** A quiet read of a stored digest gives its bytes. *)
Lemma bs_Get_ok d s data :
  inv s -> quiet s -> abs s !! d = Some data ->
  exists rc s', bk_Get B d [] s = (Ok rc, [], s') /\ rd_data (rc_reader rc) = data /\
    rd_tail (rc_reader rc) = Sentinel EOF /\ rc_close rc = None /\
    inv s' /\ quiet s' /\ abs s' = abs s.
Proof.
  intros Hi Hq Hd. destruct (bs_Get_found d s data Hi Hq Hd) as (rc & s' & E).
  pose proof (bs_Get _ _ _ _ _ _ Hi E) as (Hi' & Hq' & Ha & data' & Hd' & [[_ Ht] _] & Hc).
  destruct (Hc Hq) as [He ?]. rewrite Hd in Hd'. simplify_eq. rewrite He in Ht. exists rc, s'. split_and!; eauto.
Qed.

Lemma bs_Exists_ok d s :
  inv s -> quiet s -> key d ->
  exists s', bk_Exists B d [] s = (Ok (bool_decide (is_Some (abs s !! d))), [], s') /\
    inv s' /\ quiet s' /\ abs s' = abs s.
Proof.
  intros Hi Hq Hk. destruct (bs_Exists_total d s Hi Hq Hk) as (b & s' & E).
  pose proof (bs_Exists _ _ _ _ _ _ Hi E) as (? & ? & ? & _ & ->). exists s'. split_and!; eauto.
Qed.
End Facts.
