(* ===== verification/MemBackend.v ===== *)
(** The in-memory backend (src/cas/backend/mem/mem.go): a map from digests to
    byte slices under one lock, with an optional cap on the bytes it holds. Each
    operation is one critical section (Put: the budget read, then the store),
    so a concurrent run is an interleaving of the steps modelled here. *)

From S2P Require Import Prelude Digest Stream Backend.

Module Mem.

Record Mem := mkMem { objects : gmap Digest bytes; maxBytes : Z; usedBytes : Z }.

(** [New(WithMaxSize(maxBytes))]; no option is [maxBytes = 0]. *)
Definition New (maxBytes : Z) : Mem := mkMem ∅ maxBytes 0.

(** The bytes [key] may still take, and whether there is a cap. *)
Definition budget (key : Digest) : M Mem (Z * bool) := gets (fun m =>
  if maxBytes m <=? 0 then (0, false)
  else (Z.max (int64 (maxBytes m - int64 (usedBytes m - olen (objects m !! key)))) 0, true)).

Definition store (key : Digest) (data : bytes) : M Mem unit :=
  m ← get;
  let added := match objects m !! key with
               | Some old => int64 (blen data - blen old)
               | None => blen data
               end in
  if (0 <? maxBytes m) && (maxBytes m <? int64 (usedBytes m + added))
  then throw (Prelude.New "cas: memory backend would exceed max size %d bytes")
  else Prelude.put (mkMem (<[key := data]> (objects m)) (maxBytes m) (int64 (usedBytes m + added))).

(** [backend.ReadWhole(ctx, r, 0)]: the reader is read to its end (ReadWhole's
    buffering is Stream's; it reads what [io.ReadAll] reads). *)
Definition readWhole (r : Reader) : ctx -> res bytes * ctx := fun c =>
  match chk true c with
  | (Err e, c') => (Err e, c')
  | (Ok _, c') => match ioReadAll true c' r with (res, c'', _) => (res, c'') end
  end.

Definition lift_ctx {S A} (f : ctx -> res A * ctx) : M S A := fun c s =>
  match f c with (r, c') => (r, c', s) end.

Definition Put (d : Digest) (r : Reader) : M Mem unit :=
  ctxErr;;
  lift (CheckDigest d "mem: put");;
  '(budget, capped) ← budget d;
  if capped && (budget <? MaxInt64) then
    data ← mapErr (Errorf "cas: buffer object: %w")
      (lift_ctx (fun c => match readLimited true (budget + 1) c r with (res, c', _) => (res, c') end));
    store d data
  else
    data ← mapErr (Errorf "cas: buffer object: %w") (lift_ctx (readWhole r));
    store d data.

Definition Get (d : Digest) : M Mem ReadCloser :=
  ctxErr;;
  lift (CheckDigest d "mem: get");;
  m ← get;
  match objects m !! d with
  | None => throw (Errorf "%w: %s" ErrNotFound)
  | Some data => mret (mkRC (bytesReader data) None)
  end.

Definition Exists (d : Digest) : M Mem bool :=
  ctxErr;;
  lift (CheckDigest d "mem: exists");;
  m ← get;
  mret (bool_decide (is_Some (objects m !! d))).

Definition Delete (d : Digest) : M Mem unit :=
  ctxErr;;
  lift (CheckDigest d "mem: delete");;
  m ← get;
  match objects m !! d with
  | Some old => Prelude.put (mkMem (delete d (objects m)) (maxBytes m) (int64 (usedBytes m - blen old)))
  | None => mret tt
  end.

(** The keys of the map in the iteration order of the runtime, which is not
    specified: any order, and [map_to_list]'s here; both results below are
    independent of it. *)
Definition List : M Mem (list Digest) :=
  ctxErr;;
  m ← get;
  let digests := NewDigest <$> filter (fun k => k <> []) ((map_to_list (objects m)).*1) in
  mret (sortBytes digests).

Definition Stats : M Mem Stats :=
  ctxErr;;
  m ← get;
  mret (foldl (fun st '(key, data) =>
          if decide (key = []) then st
          else mkStats (int64 (TotalSize st + blen (data : bytes))) (int64 (ObjectCount st + 1)))
        (mkStats 0 0) (map_to_list (objects m))).

Definition Backend : Backend Mem :=
  mkBackend Put Get Exists Delete List Stats None None None.

(** ** The invariant

    The absent digest is no key, the accounting is the sum of the lengths at
    the machine's width, and a cap is never exceeded. *)
Record inv (m : Mem) : Prop := {
  inv_key : objects m !! [] = None;
  inv_used : usedBytes m = int64 (sumLen (objects m));
  inv_range : maxBytes m < MaxInt64;
  inv_cap : 0 < maxBytes m -> sumLen (objects m) <= maxBytes m;
}.

Lemma mem_New_inv n : n < MaxInt64 -> inv (New n).
Proof.
  intros. split; simpl; try done. intros. rewrite sumLen_empty. lia.
Qed.

Lemma mem_used_cap m : inv m -> 0 < maxBytes m -> usedBytes m = sumLen (objects m).
Proof.
  intros Hi Hm. rewrite (inv_used m Hi). pose proof (inv_cap m Hi Hm). pose proof (inv_range m Hi).
  pose proof (sumLen_nonneg (objects m)). apply int64_id. unfold MaxInt64 in *. lia.
Qed.

(** The store step decides by the exact total. *)
Lemma mem_store_spec m key data c :
  inv m ->
  let total := sumLen (objects m) - olen (objects m !! key) + blen data in
  (0 < maxBytes m -> total <= maxBytes m + 1) ->
  store key data c m =
    if decide (0 < maxBytes m /\ maxBytes m < total)
    then (Err (Prelude.New "cas: memory backend would exceed max size %d bytes"), c, m)
    else (Ok tt, c, mkMem (<[key := data]> (objects m)) (maxBytes m) (int64 total)).
Proof.
  intros Hi total Hd. unfold store. munfold.
  assert (int64 (usedBytes m + match objects m !! key with
      | Some old => int64 (blen data - blen old) | None => blen data end) = int64 total) as ->.
  { rewrite (inv_used m Hi), int64_add_l. unfold total. destruct (objects m !! key); simpl.
    - rewrite int64_add_r. f_equal. lia.
    - f_equal. lia. }
  destruct (Z.ltb_spec 0 (maxBytes m)) as [Hpos|]; simpl; [|rewrite decide_False by lia; done].
  pose proof (inv_range m Hi). pose proof (sumLen_lookup (objects m) key). unfold MaxInt64 in *.
  specialize (Hd Hpos). rewrite int64_id by (unfold total in *; lia).
  destruct (Z.ltb_spec (maxBytes m) total); case_decide; (done || lia).
Qed.

Lemma mem_store_inv m key data :
  inv m -> key <> [] ->
  let total := sumLen (objects m) - olen (objects m !! key) + blen data in
  ~ (0 < maxBytes m /\ maxBytes m < total) ->
  inv (mkMem (<[key := data]> (objects m)) (maxBytes m) (int64 total)).
Proof.
  intros Hi Hk total Hc. split; simpl.
  - rewrite lookup_insert_ne by done. apply Hi.
  - by rewrite sumLen_insert.
  - apply Hi.
  - rewrite sumLen_insert. fold total. lia.
Qed.

Lemma mem_budget_spec m key c :
  inv m ->
  budget key c m = (Ok (if decide (0 < maxBytes m)
    then (maxBytes m - (sumLen (objects m) - olen (objects m !! key)), true) else (0, false)), c, m).
Proof.
  intros Hi. unfold budget. munfold. do 3 f_equal.
  destruct (Z.leb_spec (maxBytes m) 0); case_decide; try lia; [done|].
  rewrite mem_used_cap by done. pose proof (inv_cap m Hi ltac:(done)). pose proof (inv_range m Hi).
  pose proof (sumLen_lookup (objects m) key). unfold MaxInt64 in *.
  assert (0 <= olen (objects m !! key)) by (destruct (objects m !! key); simpl; lia).
  rewrite !int64_id by (rewrite ?int64_id; lia). f_equal. lia.
Qed.

Lemma chk_true c : chk true c = (run_res (ctxErr c tt), (ctxErr c tt).1.2).
Proof. by destruct c as [|[e|] c]. Qed.

Lemma readWhole_sound r c data c' :
  readWhole r c = (Ok data, c') -> data = rd_data r /\ rd_tail r = Sentinel EOF.
Proof.
  unfold readWhole. destruct (chk true c) as [[u|e] c1]; [|done].
  unfold ioReadAll. destruct (readAll_go _ _ _ _ _) as [[[b|e] c2] r2] eqn:E; [|done].
  intros [= <- <-]. by apply readAll_sound in E as (-> & -> & _).
Qed.

(** What a Put does under any context: it stores the whole stream, or it fails
    and changes nothing. *)
Lemma mem_Put_sound d r c m res c' m' :
  inv m -> Put d r c m = (res, c', m') ->
  inv m' /\ maxBytes m' = maxBytes m /\
  match res with
  | Ok _ => d <> [] /\ rd_tail r = Sentinel EOF /\ objects m' = <[d := rd_data r]> (objects m)
  | Err _ => m' = m
  end.
Proof.
  intros Hi H. unfold Put in H.
  mstep H as E1; apply ctxErr_inv in E1 as ->; [|done].
  mstep H as E2; apply lift_inv in E2 as (Hd & -> & ->); [|done].
  symmetry in Hd. apply CheckDigest_ok_inv in Hd.
  mstep H as E3; rewrite mem_budget_spec in E3 by done; [|done]. injection E3 as <- <- <-.
  case_decide as Hcap; simpl in H.
  - set (room := maxBytes m - (sumLen (objects m) - olen (objects m !! d))) in *.
    pose proof (inv_range m Hi) as Hrg. unfold MaxInt64 in *.
    pose proof (sumLen_lookup (objects m) d). pose proof (inv_cap m Hi Hcap).
    pose proof (olen_nonneg (objects m !! d)).
    destruct (Z.ltb_spec room (2^63 - 1)); [|lia].
    mstep H as E4; apply mapErr_inv in E4 as (r0 & E4 & Hr0); unfold lift_ctx, readLimited in E4;
      destruct (readLimited_go _ _ _ _ _ _) as [[[b|e] c4] r4] eqn:E5; simplify_eq; simpl in Hr0; simplify_eq; [|done].
    apply readLimited_sound in E5 as (-> & _ & _ & Heof); [|lia]. simpl in H.
    fold (rd_data r) in *.
    rewrite mem_store_spec in H by (try done; intros; rewrite length_take; lia).
    rewrite length_take in H. case_decide; simplify_eq; [done|].
    assert (Hshort : blen (rd_data r) <= room) by lia.
    replace (Z.of_nat (Z.to_nat (room + 1) `min` length (rd_data r))) with (blen (rd_data r)) in * by lia.
    rewrite firstn_all2 by lia. split_and!; try done; [|apply Heof; lia].
    apply mem_store_inv; done.
  - mstep H as E4; apply mapErr_inv in E4 as (r0 & E4 & Hr0); unfold lift_ctx in E4;
      destruct (readWhole r _) as [[b|e] c4] eqn:E5; simplify_eq; simpl in Hr0; simplify_eq; [|done].
    apply readWhole_sound in E5 as [-> Ht].
    rewrite mem_store_spec in H by (try done; lia). rewrite decide_False in H by lia. simplify_eq.
    split_and!; try done. apply mem_store_inv; (done || lia).
Qed.

(** With the background context a Put of a stream that ends is decided by the
    digest and the cap alone. *)
Lemma mem_Put_total d r m :
  inv m -> rd_tail r = Sentinel EOF ->
  let total := sumLen (objects m) - olen (objects m !! d) + blen (rd_data r) in
  exists m', Put d r [] m =
    (if decide (d = []) then Err (Errorf "mem: put: absent digest" ErrInvalidDigest)
     else if decide (0 < maxBytes m /\ maxBytes m < total)
     then Err (Prelude.New "cas: memory backend would exceed max size %d bytes")
     else Ok tt, [], m').
Proof.
  intros Hi Ht total. unfold Put. erewrite bind_ok by apply ctxErr_nil.
  case_decide as Hd; [subst d; unfold lift; eauto using bind_err|].
  erewrite bind_ok by (unfold lift; by rewrite CheckDigest_ok).
  erewrite bind_ok by by apply mem_budget_spec.
  pose proof (sumLen_lookup (objects m) d). pose proof (olen_nonneg (objects m !! d)).
  pose proof (inv_range m Hi) as Hrg. unfold MaxInt64 in *.
  case_decide as Hcap; simpl.
  - set (room := maxBytes m - (sumLen (objects m) - olen (objects m !! d))) in *.
    pose proof (inv_cap m Hi Hcap). destruct (Z.ltb_spec room (2^63 - 1)); [|lia].
    destruct (readLimited_total true (room + 1) (rd_chunks r) (rd_tail r) []) as (r' & Hr & Hd' & _);
      [lia|auto|]. fold (rd_data r) in Hr.
    erewrite bind_ok by (unfold mapErr, lift_ctx, readLimited; by rewrite Hr). simpl.
    rewrite mem_store_spec by (try done; intros; rewrite length_take; lia). rewrite length_take.
    repeat case_decide; try (eexists; reflexivity); lia.
  - erewrite bind_ok.
    2:{ unfold mapErr, lift_ctx, readWhole, ioReadAll. rewrite chk_nil, Ht, readAll_total. reflexivity. }
    rewrite mem_store_spec by (try done; lia). rewrite !decide_False by lia. eauto.
Qed.

(** ** The contract *)
Definition key (d : Digest) : Prop := d <> [].

Lemma elem_of_keys (m : gmap Digest bytes) d :
  d ∈ NewDigest <$> filter (fun k => k <> []) ((map_to_list m).*1) <-> d <> [] /\ is_Some (m !! d).
Proof.
  rewrite list_elem_of_fmap. setoid_rewrite list_elem_of_filter. setoid_rewrite NewDigest_id. split.
  - intros (k & -> & Hk & Hin). split; [done|].
    apply list_elem_of_fmap in Hin as ([k' v] & -> & Hin). apply elem_of_map_to_list in Hin. by exists v.
  - intros [Hd [v Hv]]. exists d. split_and!; try done. apply list_elem_of_fmap.
    exists (d, v). split; [done|]. by apply elem_of_map_to_list.
Qed.

Lemma NoDup_keys (m : gmap Digest bytes) :
  NoDup (NewDigest <$> filter (fun k => k <> []) ((map_to_list m).*1)).
Proof.
  rewrite (list_fmap_ext NewDigest id); [|intros; apply NewDigest_id].
  rewrite list_fmap_id. apply list.NoDup_filter, NoDup_fst_map_to_list.
Qed.

(** The guards every operation starts with. *)
Lemma mem_guards_inv {A} d what (k : M Mem A) c m res c' m' :
  (ctxErr;; lift (CheckDigest d what);; k) c m = (res, c', m') ->
  (exists c1, d <> [] /\ k c1 m = (res, c', m')) \/
  (m' = m /\ exists e, res = Err e /\ (errIs e ErrNotFound = false /\ errIs e ErrUnknownType = false) /\ (errIs e ErrInvalidDigest = true -> d = [])).
Proof.
  intros H. mstep H as E1.
  2:{ pose proof E1 as ->%ctxErr_inv. apply ctxErr_err in E1. right. split; [done|].
      eexists. split; [done|]. by destruct E1 as [-> | ->]. }
  apply ctxErr_inv in E1 as ->. mstep H as E2; apply lift_inv in E2 as (Hd & -> & ->).
  - left. eexists. split; [|done]. by eapply CheckDigest_ok_inv.
  - right. split; [done|]. eexists. split; [done|]. unfold CheckDigest in Hd.
    destruct (IsZero d) eqn:Ez; simplify_eq. split; [done|]. intros _. by apply IsZero_true.
Qed.
Lemma mem_guards_ok {A} d what (k : M Mem A) m :
  d <> [] -> (ctxErr;; lift (CheckDigest d what);; k) [] m = k [] m.
Proof.
  intros. erewrite bind_ok by apply ctxErr_nil.
  erewrite bind_ok by (unfold lift; by rewrite CheckDigest_ok). done.
Qed.

Lemma mem_Delete_inv m d old : inv m -> objects m !! d = Some old ->
  inv (mkMem (delete d (objects m)) (maxBytes m) (int64 (usedBytes m - blen old))).
Proof.
  intros Hi Hd. split; simpl.
  - rewrite lookup_delete. case_decide; [done|]. apply Hi.
  - by rewrite (inv_used m Hi), int64_sub_l, sumLen_delete, Hd.
  - apply Hi.
  - intros Hc. rewrite sumLen_delete, Hd. pose proof (inv_cap m Hi Hc). simpl. lia.
Qed.

#[export] Instance mem_BackendSpec : BackendSpec Backend inv (fun _ => True) key objects.
Proof.
  split; unfold key; simpl.
  - done.
  - intros s d Hi Hd ->. rewrite (inv_key s Hi) in Hd. by destruct Hd.
  - intros d r c s res c' s' Hi H. apply mem_Put_sound in H as (Hi' & _ & Hres); [|done].
    split_and!; [done..|]. destruct res; [|subst; auto].
    destruct Hres as (? & ? & ->). split_and!; try done. by left.
  - intros d c s res c' s' Hi H. unfold Get in H.
    apply mem_guards_inv in H as [(c1 & Hd & H)|(-> & e & -> & [He ?] & _)]; [|split_and!; congruence].
    munfold. destruct (objects s !! d) as [data|] eqn:E; simplify_eq; split_and!; try done.
    exists data. split_and!; try done. apply serves_bytesReader.
  - intros d s data Hi _ Hd. unfold Get. rewrite mem_guards_ok.
    + munfold. rewrite Hd. eauto.
    + intros ->. by rewrite (inv_key s Hi) in Hd.
  - intros d s Hi _ Hd Hn. unfold Get. rewrite mem_guards_ok by done. munfold. rewrite Hn. eauto.
  - intros d c s res c' s' Hi H. unfold Exists in H.
    apply mem_guards_inv in H as [(c1 & Hd & H)|(-> & e & -> & _ & He)]; [|split_and!; auto].
    munfold. simplify_eq. done.
  - intros d s Hi _ Hd. unfold Exists. rewrite mem_guards_ok by done. munfold. eauto.
  - intros d c s res c' s' Hi H. unfold Delete in H.
    apply mem_guards_inv in H as [(c1 & Hd & H)|(-> & e & -> & He)]; [|by split_and!; [..|left]].
    munfold. destruct (objects s !! d) as [old|] eqn:E; simplify_eq.
    + split_and!; try done. by apply mem_Delete_inv.
    + split_and!; try done. by rewrite delete_id.
  - intros d s Hi _ Hd. unfold Delete. rewrite mem_guards_ok by done. munfold.
    destruct (objects s !! d); eauto.
  - intros c s res c' s' Hi H. unfold List in H.
    mstep H as E; apply ctxErr_inv in E as ->; [|done]. munfold. simplify_eq.
    split_and!; try done.
    + apply sortBytes_sorted.
    + apply NoDup_sortBytes, NoDup_keys.
    + intros d Hd. rewrite elem_of_sortBytes, elem_of_keys. tauto.
  - intros s _ _. unfold List. munfold. eauto.
Qed.

(** ** Properties *)

(** The in-memory Put, on every branch, with the background context and a
    stream that ends: the absent digest is refused with [ErrInvalidDigest]; a
    capped store refuses exactly the writes after which the bytes held would
    exceed the cap (an overwrite gives its old bytes back first); a refused or
    failed write changes nothing; otherwise the map holds the whole stream
    under the digest.  The representation invariant, with the exact accounting
    of the bytes held, survives every Put under every context. *)
Theorem mem_Put_spec (m : Mem) (d : Digest) (r : Reader) :
  inv m ->
  (forall c res c' m', Put d r c m = (res, c', m') -> inv m' /\ (is_ok res = false -> m' = m)) /\
  (rd_tail r = Sentinel EOF ->
   let total := sumLen (objects m) - olen (objects m !! d) + blen (rd_data r) in
   let '(res, _, m') := Put d r [] m in
   if decide (d = []) then res_errIs res ErrInvalidDigest = true
   else if decide (0 < maxBytes m /\ maxBytes m < total) then is_ok res = false
   else res = Ok tt /\ objects m' = <[d := rd_data r]> (objects m) /\ usedBytes m' = int64 total).
Proof.
  intros Hi. split.
  { intros c res c' m' H. apply mem_Put_sound in H as (Hi' & _ & Hres); [|done].
    split; [done|]. by destruct res. }
  intros Ht total. destruct (mem_Put_total d r m Hi Ht) as [m' E]. rewrite E.
  pose proof (mem_Put_sound _ _ _ _ _ _ _ Hi E) as (Hi' & _ & Hres).
  fold total in Hres. fold total. remember total as tot eqn:Etot.
  case_decide; [done|]. case_decide; [done|]. destruct Hres as (_ & _ & Ho).
  split_and!; try done. by rewrite (inv_used m' Hi'), Ho, sumLen_insert, Etot.
Qed.

Example mem_Put_spec_witness :
  let m := mkMem {[str "k" := str "abc"]} 4 3 in
  inv m /\ is_ok (run_res (Put (str "j") (bytesReader (str "de")) [] m)) = false /\
  run_res (Put (str "k") (bytesReader (str "vwxy")) [] m) = Ok tt.
Proof.
  assert (Hi : inv (mkMem {[str "k" := str "abc"]} 4 3)).
  { split; vm_compute; try reflexivity; intros; discriminate. }
  split; [exact Hi|].
  destruct (mem_Put_spec _ (str "j") (bytesReader (str "de")) Hi) as [_ H1].
  destruct (mem_Put_spec _ (str "k") (bytesReader (str "vwxy")) Hi) as [_ H2].
  specialize (H1 eq_refl). specialize (H2 eq_refl).
  vm_compute in H1. destruct H2 as [H2 _]. split; [exact H1|exact H2].
Defined.

(** The statistics are the contents': the number of objects and the sum of
    their sizes, at the machine's width. *)
Theorem mem_Stats_spec (m : Mem) :
  inv m ->
  run_res (Stats [] m) = Ok (mkStats (int64 (sumLen (objects m))) (int64 (Z.of_nat (size (objects m))))).
Proof.
  intros Hi. unfold Stats. erewrite bind_ok by apply ctxErr_nil. munfold. unfold run_res. simpl. f_equal.
  assert (Hgen : forall l a b, Forall (fun kv => kv.1 <> []) l ->
    foldl (fun st '(key, data) => if decide (key = []) then st
        else mkStats (int64 (TotalSize st + blen (data : bytes))) (int64 (ObjectCount st + 1)))
      (mkStats (int64 a) (int64 b)) l =
    mkStats (int64 (a + foldr (fun (kv : Digest * bytes) acc => blen kv.2 + acc) 0 l)) (int64 (b + blen l))).
  { intros l. induction l as [|[k v] l IH]; intros a b Hl; simpl; [by rewrite !Z.add_0_r|].
    apply list.Forall_cons in Hl as [Hk Hl]. rewrite decide_False by done.
    rewrite !int64_add_l, IH by done. f_equal; f_equal; lia. }
  change 0 with (int64 0) at 1 2. rewrite Hgen.
  - rewrite length_map_to_list, !Z.add_0_l. unfold sumLen. rewrite map_fold_foldr.
    do 2 f_equal. apply foldr_ext; [|done|done]. by intros [].
  - apply list.Forall_forall. intros [k v] Hin; simpl. intros ->.
    apply elem_of_map_to_list in Hin. by rewrite (inv_key m Hi) in Hin.
Qed.

Example mem_Stats_spec_witness :
  run_res (Stats [] (mkMem {[str "k" := str "abc"]} 0 3)) = Ok (mkStats 3 1).
Proof.
  assert (Hi : inv (mkMem {[str "k" := str "abc"]} 0 3)) by (split; vm_compute; try reflexivity; intros; discriminate).
  exact (mem_Stats_spec _ Hi).
Defined.
End Mem.

(** The memory backend lists the digests it can address. *)
Lemma mem_List_keys c l c' s s' : bk_List Mem.Backend c s = (Ok l, c', s') -> Forall Mem.key l.
Proof.
  intros H. simpl in H. unfold Mem.List in H. mstep H as E. munfold. simplify_eq.
  apply list.Forall_forall. intros d Hd. apply elem_of_sortBytes, Mem.elem_of_keys in Hd. apply Hd.
Qed.
