(* ===== verification/Store.v ===== *)
(** The typed layer (src/cas/store.go, src/cas/codec.go, src/cas/object.go,
    src/cas/hasher.go, and Header of src/cas/envelope.go): a store over a
    backend, a codec, an object model and a hasher, all supplied by the client. *)

From S2P Require Import Prelude Digest Binary Stream Envelope Backend MemBackend.

(** ** What the client supplies *)

(** [cas.Codec], with the optional [CodecNamer]. *)
Record Codec (T : Type) := mkCodec {
  cd_Encode : T -> res bytes;
  cd_Decode : bytes -> res T;
  cd_Name : option bytes;
}.
Arguments mkCodec {T}. Arguments cd_Encode {T}. Arguments cd_Decode {T}. Arguments cd_Name {T}.

(** [cas.Object], with the optional [Validator]; [ob_isNil] is what reflection
    answers for a value ([isNilValue]). [References] may be nil. *)
Record Object (T : Type) := mkObject {
  ob_Type : T -> bytes;
  ob_References : T -> option (list Digest);
  ob_Validate : option (T -> option error);
  ob_isNil : T -> bool;
}.
Arguments mkObject {T}. Arguments ob_Type {T}. Arguments ob_References {T}.
Arguments ob_Validate {T}. Arguments ob_isNil {T}.

(** [cas.Hasher]: the digest of everything readable, and the width check. *)
Record Hasher := mkHasher {
  hs_Digest : M Reader Digest;
  hs_Validate : Digest -> option error;
}.

(** The documented contract of a hasher that computes [hash]: deterministic,
    pure, it reads to the end, and its own digests are well formed. *)
Record HasherSpec (h : Hasher) (hash : bytes -> Digest) : Prop := {
  hs_reads : forall c r, rd_tail r = Sentinel EOF ->
    exists r', hs_Digest h c r = (Ok (hash (rd_data r)), c, r') /\ rd_data r' = [];
  hs_fails : forall c r, rd_tail r <> Sentinel EOF -> exists e c' r', hs_Digest h c r = (Err e, c', r');
  hs_valid : forall data, hash data <> [] /\ hs_Validate h (hash data) = None;
}.

(** The shape of the shipped hashers: [io.Copy] into the hash, then its sum. *)
Definition copyHasher (hash : bytes -> Digest) (size : nat) : Hasher :=
  mkHasher (fun c r =>
              match ioReadAll false c r with
              | (Ok data, c', r') => (Ok (hash data), c', r')
              | (Err e, c', r') => (Err (Errorf "cas/sha256: %w" e), c', r')
              end)
           (fun d => if decide (d = []) then Some (Errorf "%w: absent digest" ErrInvalidDigest)
                     else if decide (length d = size) then None
                     else Some (Errorf "%w: digest is %d bytes, want %d" ErrInvalidDigest)).

Lemma readAll_quiet cs tail got c :
  readAll_go false cs tail got c =
    (if decide (tail = Sentinel EOF) then Ok (got ++ concat cs) else Err tail, c, mkReader [] tail).
Proof.
  revert got. induction cs as [|x cs IH]; intros got; simpl; [by rewrite app_nil_r|].
  by rewrite IH, app_assoc.
Qed.

Lemma copyHasher_spec hash size :
  (forall data, length (hash data) = size) -> (0 < size)%nat -> HasherSpec (copyHasher hash size) hash.
Proof.
  intros Hs Hp. split; simpl; unfold ioReadAll.
  - intros c r Ht. rewrite readAll_quiet, decide_True by done. unfold rd_data. simpl. eauto.
  - intros c r Ht. rewrite readAll_quiet, decide_False by done. eauto.
  - intros data. specialize (Hs data). destruct (decide (hash data = [])) as [E|]; [rewrite E in Hs; simpl in Hs; lia|].
    by rewrite decide_True.
Qed.

(** ** The store *)
Section Store.
Context {S T : Type}.
Variable backend : Backend S.
Variable codec : Codec T.
Variable obj : Object T.
Variable hasher : Hasher.

(** [codecNameOf]: resolved once, "" when the codec declares no tag. *)
Definition codecNameOf : bytes := default [] (cd_Name codec).

Definition check (d : Digest) (what : string) : res unit :=
  CheckDigest d what;;
  match hs_Validate hasher d with
  | Some e => Err (Errorf (what +:+ ": %w") e)
  | None => Ok tt
  end.

Definition validateObject (v : T) : res unit :=
  if ob_isNil obj v then Err (New "cas: put: nil object")
  else match ob_Validate obj with
       | Some validate => match validate v with Some e => Err (Errorf "cas: put: %w" e) | None => Ok tt end
       | None => Ok tt
       end.

Definition validateDecoded (v : T) : res unit :=
  match ob_Validate obj with
  | Some validate => match validate v with Some e => Err (Errorf2 "%w: %s: %w" ErrCorrupt e) | None => Ok tt end
  | None => Ok tt
  end.

Definition marshal (v : T) : res bytes :=
  payload ← wrapErr (Errorf "cas: encode: %w") (cd_Encode codec v);
  EncodeEnvelope codecNameOf (ob_Type obj v) payload.

Definition encoded (v : T) : res (Digest * bytes) :=
  validateObject v;;
  data ← marshal v;
  d ← run_res (hs_Digest hasher [] (bytesReader data));
  check d "store: put";;
  Ok (d, data).

Definition Put (v : T) : M S Digest :=
  ctxErr;;
  '(d, data) ← lift (encoded v);
  bk_Put backend d (bytesReader data);;
  mret d.

Definition PutDedup (v : T) : M S (Digest * bool) :=
  ctxErr;;
  '(d, data) ← lift (encoded v);
  exists_ ← bk_Exists backend d;
  if (exists_ : bool) then mret (d, true)
  else
    bk_Put backend d (bytesReader data);;
    mret (d, false).

Definition GetReader (d : Digest) : M S ReadCloser :=
  ctxErr;;
  lift (check d "store: get");;
  bk_Get backend d.

Definition GetRaw (d : Digest) : M S bytes :=
  rc ← GetReader d;
  readThenClose rc (onReader (ioReadAll false)) readWins (wrap "cas: read object") (wrap "cas: close object").

Definition checkCodec (env : Envelope) : res unit :=
  if bool_decide (codecNameOf = []) || bool_decide (env_Codec env = [])
     || bool_decide (env_Codec env = codecNameOf)
  then Ok tt
  else Err (Errorf "%w: %s: object was written with codec %q, this store reads %q" ErrCodecMismatch).

(** What [Get] makes of the stored bytes. *)
Definition decodeObject (data : bytes) : res T :=
  env ← decodeEnvelope data;
  checkCodec env;;
  match cd_Decode codec (env_Data env) with
  | Err e =>
    if bool_decide (env_Codec env = [])
    then Err (Errorf2 "cas: %w: %s: object carries no codec identity: %w" ErrCorrupt e)
    else Err (Errorf2 "cas: %w: payload decode: %w" ErrCorrupt e)
  | Ok v =>
    if ob_isNil obj v then Err (Errorf "%w: %s: decoded to nil" ErrCorrupt)
    else if negb (bool_decide (ob_Type obj v = env_Type env))
    then Err (Errorf "%w: stored type %q != decoded type %q" ErrUnknownType)
    else
      validateDecoded v;;
      Ok v
  end.

Definition Get (d : Digest) : M S T :=
  data ← GetRaw d;
  lift (decodeObject data).

(** [peekAt]: open, one bounded header peek, close. *)
Definition peekAt {A} (d : Digest) (peek : M Reader A) : M S A :=
  rc ← bk_Get backend d;
  readThenClose rc (onReader peek) readWins None (wrap "cas: close object").

Definition Type_ (d : Digest) : M S bytes :=
  ctxErr;;
  lift (check d "store: type");;
  peekAt d PeekType.

Definition Version (d : Digest) : M S byte :=
  ctxErr;;
  lift (check d "store: version");;
  peekAt d PeekVersion.

Definition Exists (d : Digest) : M S bool :=
  lift (check d "store: exists");;
  bk_Exists backend d.

Definition Delete (d : Digest) : M S unit :=
  lift (check d "store: delete");;
  bk_Delete backend d.

(** [Close]: the backend's Close runs at most once, and every call returns that
    first call's outcome, kept beside the backend's state. *)
Definition Close : M (S * option (res unit)) unit := fun c st =>
  match st.2 with
  | Some r => (r, c, st)
  | None =>
    match bk_Closer backend with
    | Some close => match close c st.1 with (r, c', s') => (r, c', (s', Some r)) end
    | None => (Ok tt, c, (st.1, Some (Ok tt)))
    end
  end.
End Store.

(** ** Header (envelope.go): one bounded header read at a digest *)

(** [io.LimitReader(r, n)]: at most [n] bytes, then [io.EOF]. *)
Fixpoint limitChunks (n : Z) (cs : list bytes) (tail : error) : list bytes * error :=
  if n <=? 0 then ([], Sentinel EOF)
  else match cs with
       | [] => ([], tail)
       | x :: cs' =>
         if blen x <=? n then let '(l, t) := limitChunks (n - blen x) cs' tail in (x :: l, t)
         else ([take (Z.to_nat n) x], Sentinel EOF)
       end.
Definition LimitReader (n : Z) (r : Reader) : Reader :=
  let '(l, t) := limitChunks n (rd_chunks r) (rd_tail r) in mkReader l t.

Definition Header {S} (backend : Backend S) (d : Digest) : M S (byte * bytes * bytes) :=
  rc ← bk_Get backend d;
  readThenClose rc (fun r => onReader PeekHeader (LimitReader headerPrefixLimit r)) closeWins
    (wrap "cas: read object header") (wrap "cas: close object header reader").

Definition HeaderType {S} (backend : Backend S) (d : Digest) : M S bytes :=
  '(_, _, typeName) ← Header backend d;
  mret typeName.

(** ** Lemmas *)
Lemma limitChunks_spec n cs tail l t : limitChunks n cs tail = (l, t) -> 0 <= n ->
  concat l = take (Z.to_nat n) (concat cs) /\ (t = Sentinel EOF -> n <= blen (concat cs) \/ tail = Sentinel EOF).
Proof.
  revert n l t. induction cs as [|x cs IH]; intros n l t; cbn [limitChunks concat]; destruct (Z.leb_spec n 0).
  - intros [= <- <-] Hn. assert (n = 0) as -> by lia. split; [done|]. intros _. left. simpl. lia.
  - intros [= <- <-] Hn. split; [by rewrite take_nil|]. auto.
  - intros [= <- <-] Hn. assert (n = 0) as -> by lia. split; [done|]. intros _. left. lia.
  - intros H0 Hn. rewrite length_app. destruct (Z.leb_spec (blen x) n).
    + destruct (limitChunks (n - blen x) cs tail) as [l0 t0] eqn:E. injection H0 as <- <-.
      destruct (IH _ _ _ E ltac:(lia)) as [IH1 IH2]. cbn [concat]. rewrite IH1, take_app_ge by lia. split.
      * do 2 f_equal. lia.
      * intros [|]%IH2; [left; lia|by right].
    + injection H0 as <- <-. cbn [concat]. rewrite app_nil_r, take_app_le by lia. split; [done|]. intros _. left. lia.
Qed.
Lemma LimitReader_data n r : 0 <= n -> rd_data (LimitReader n r) = take (Z.to_nat n) (rd_data r).
Proof.
  intros Hn. unfold LimitReader. destruct (limitChunks _ _ _) as [l t] eqn:E. by apply limitChunks_spec in E as [? _].
Qed.
Lemma LimitReader_prefix n r data : 0 <= n -> reads r data -> rd_data (LimitReader n r) `prefix_of` data.
Proof.
  intros Hn [Hp _]. rewrite LimitReader_data by done. etrans; [|exact Hp].
  exists (drop (Z.to_nat n) (rd_data r)). by rewrite take_drop.
Qed.
(** The limited reader ends as the reader does, or in [io.EOF]. *)
Lemma LimitReader_tail (P : error -> Prop) n r : P EOF -> P (rd_tail r) -> P (rd_tail (LimitReader n r)).
Proof.
  intros HE Ht. unfold LimitReader. destruct (limitChunks _ _ _) as [l t] eqn:E. cbn [rd_tail].
  revert n l t E. induction (rd_chunks r) as [|x cs IH]; intros n l t; cbn [limitChunks]; destruct (n <=? 0);
    try by intros [= <- <-]. destruct (blen x <=? n); [|by intros [= <- <-]].
  destruct (limitChunks (n - blen x) cs (rd_tail r)) as [l0 t0] eqn:E0. intros [= <- <-]. by eapply IH.
Qed.

Section StoreFacts.
Context {S T : Type} (B : Backend S) (codec : Codec T) (obj : Object T) (hasher : Hasher) (hash : bytes -> Digest).
Context (inv quiet : S -> Prop) (key : Digest -> Prop) (abs : S -> gmap Digest bytes).
Context `{HB : !BackendSpec B inv quiet key abs} (HH : HasherSpec hasher hash).

Lemma check_inv d what u : check hasher d what = Ok u -> d <> [] /\ hs_Validate hasher d = None.
Proof.
  unfold check. munfold. destruct (CheckDigest d what) eqn:E; [|done]. apply CheckDigest_ok_inv in E.
  by destruct (hs_Validate hasher d).
Qed.
Lemma check_ok d what : d <> [] -> hs_Validate hasher d = None -> check hasher d what = Ok tt.
Proof. intros Hd Hv. unfold check. munfold. by rewrite CheckDigest_ok, Hv. Qed.

(** What an encoding is: the frame of the codec's payload, under its hash. *)
Lemma encoded_inv v d data :
  encoded codec obj hasher v = Ok (d, data) ->
  exists payload, cd_Encode codec v = Ok payload /\
    EncodeEnvelope (codecNameOf codec) (ob_Type obj v) payload = Ok data /\ d = hash data /\
    d <> [] /\ hs_Validate hasher d = None /\ ob_isNil obj v = false /\ validateDecoded obj v = Ok tt.
Proof.
  unfold encoded, marshal, validateObject, validateDecoded. munfold.
  destruct (ob_isNil obj v); [done|]. intros H.
  destruct (match ob_Validate obj with Some _ => _ | None => _ end) as [[]|e] eqn:EV; [|done].
  destruct (cd_Encode codec v) as [payload|e]; simpl in H; [|done].
  destruct (EncodeEnvelope _ _ _) as [data'|e] eqn:EE; [|done].
  destruct (hs_reads _ _ HH [] (bytesReader data') eq_refl) as (r' & Hr & _). rewrite Hr in H.
  unfold run_res in H. cbn [fst] in H.
  destruct (check hasher _ _) as [u|e] eqn:EC; [|done]. apply check_inv in EC as [? ?].
  rewrite rd_data_bytesReader in *. simplify_eq. exists payload. split_and!; try done.
  destruct (ob_Validate obj) as [validate|]; [|done]. by destruct (validate v).
Qed.

(** What a Put under any context that succeeds leaves. *)
Lemma Put_inv v c s d c' s' :
  inv s -> Put B codec obj hasher v c s = (Ok d, c', s') ->
  exists data, encoded codec obj hasher v = Ok (d, data) /\
    inv s' /\ (quiet s -> quiet s') /\ key d /\ put_post (abs s) d data (abs s').
Proof.
  intros Hi H. unfold Put in H. mstep H as E1. apply ctxErr_inv in E1 as ->.
  mstep H as E2. apply lift_inv in E2 as (E2 & -> & ->).
  match goal with p : (Digest * bytes)%type |- _ => destruct p as [d0 data] end.
  mstep H as E3. munfold. simplify_eq.
  pose proof (bs_Put _ _ _ _ _ _ _ Hi E3) as (? & ? & ? & ? & Hp). rewrite rd_data_bytesReader in Hp. eauto 10.
Qed.

(** A quiet read gives the stored bytes to the decoder. *)
Lemma GetRaw_ok d s data :
  inv s -> quiet s -> hs_Validate hasher d = None -> abs s !! d = Some data ->
  exists s', GetRaw B hasher d [] s = (Ok data, [], s') /\ inv s' /\ quiet s' /\ abs s' = abs s.
Proof.
  intros Hi Hq Hv Hd.
  assert (Hne : d <> []) by (eapply bs_key_nonzero, bs_abs_key; eauto).
  destruct (bs_Get_ok B inv quiet key abs d s data Hi Hq Hd) as (rc & s' & E & <- & Ht & Hc & ? & ? & ?).
  exists s'. split; [|done]. unfold GetRaw, GetReader. erewrite bind_ok.
  2:{ erewrite bind_ok by apply ctxErr_nil. erewrite bind_ok by (unfold lift; by rewrite check_ok). exact E. }
  unfold readThenClose, onReader, ioReadAll. by rewrite readAll_quiet, decide_True, Hc.
Qed.

Lemma Get_found d s data :
  inv s -> quiet s -> hs_Validate hasher d = None -> abs s !! d = Some data ->
  exists s', Get B codec obj hasher d [] s = (decodeObject codec obj data, [], s') /\
    inv s' /\ quiet s' /\ abs s' = abs s.
Proof.
  intros Hi Hq Hv Hd. destruct (GetRaw_ok d s data Hi Hq Hv Hd) as (s' & E & ?).
  exists s'. split; [|done]. unfold Get. by erewrite bind_ok by exact E.
Qed.

Lemma Get_missing d s :
  inv s -> quiet s -> key d -> hs_Validate hasher d = None -> abs s !! d = None ->
  exists e s', Get B codec obj hasher d [] s = (Err e, [], s') /\ errIs e ErrNotFound = true.
Proof.
  intros Hi Hq Hk Hv Hd. pose proof (bs_key_nonzero d Hk).
  destruct (bs_Get_missing d s Hi Hq Hk Hd) as (e & s' & E & He). exists e, s'. split; [|done].
  unfold Get, GetRaw, GetReader. erewrite bind_err; [done|]. erewrite bind_err; [done|].
  erewrite bind_ok by apply ctxErr_nil. erewrite bind_ok by (unfold lift; by rewrite check_ok). exact E.
Qed.

(** A successful read, under any context, decoded the stored bytes. *)
Lemma GetRaw_inv d c s data c' s' :
  inv s -> GetRaw B hasher d c s = (Ok data, c', s') ->
  inv s' /\ (quiet s -> quiet s') /\ abs s' = abs s /\ abs s !! d = Some data.
Proof.
  intros Hi H. unfold GetRaw, GetReader in H. mstep H as E. mstep E as E1. apply ctxErr_inv in E1 as ->.
  mstep E as E2. apply lift_inv in E2 as (_ & -> & ->).
  pose proof (bs_Get _ _ _ _ _ _ Hi E) as (? & ? & Ha & data' & Hd & [[_ Ht] _] & _).
  unfold readThenClose, onReader, ioReadAll in H. rewrite readAll_quiet in H.
  case_decide as He; [|destruct (rc_close _); discriminate H].
  rewrite He in Ht. specialize (Ht eq_refl). destruct (rc_close _); [discriminate H|]. cbn in H. simplify_eq.
  rewrite Ha. split_and!; done.
Qed.
Lemma Get_inv d c s v c' s' :
  inv s -> Get B codec obj hasher d c s = (Ok v, c', s') ->
  inv s' /\ (quiet s -> quiet s') /\ abs s' = abs s /\
  exists data, abs s !! d = Some data /\ decodeObject codec obj data = Ok v.
Proof.
  intros Hi H. unfold Get in H. mstep H as E. apply lift_inv in H as (H & -> & ->).
  apply GetRaw_inv in E as (? & ? & ? & ?); [|done]. eauto 10.
Qed.

(** Decoding what was encoded, when the codec decodes its own output. *)
Lemma decodeObject_encoded v d data :
  encoded codec obj hasher v = Ok (d, data) ->
  (forall payload, cd_Encode codec v = Ok payload -> cd_Decode codec payload = Ok v /\ blen payload < 2^64) ->
  blen (codecNameOf codec) < 2^64 -> blen (ob_Type obj v) < 2^64 ->
  decodeObject codec obj data = Ok v.
Proof.
  intros (payload & Hp & HE & -> & _ & _ & Hnil & Hval)%encoded_inv Hrt Hc Ht.
  destruct (Hrt _ Hp) as [Hdec Hlen]. pose proof HE as (Hne & Hat & ->)%EncodeEnvelope_ok.
  unfold decodeObject. munfold.
  pose proof (decodeEnvelope_encode (codecNameOf codec) (ob_Type obj v) payload [] Hc Ht Hlen Hne) as D.
  rewrite app_nil_r in D. rewrite D. unfold checkCodec, versionedName. rewrite Hat. simpl.
  rewrite (bool_decide_eq_true_2 (codecNameOf codec = codecNameOf codec)), !orb_true_r by done.
  rewrite Hdec, Hnil, bool_decide_eq_true_2 by done. simpl. by rewrite Hval.
Qed.

(** The four answers of the decoder, told apart. *)
Lemma decodeEnvelope_err_only data e s :
  decodeEnvelope data = Err e -> errIs e s = true -> s = ErrCorrupt.
Proof.
  unfold decodeEnvelope, decodeEnvelopeHeader. munfold.
  repeat case_match; intros; simplify_eq; simpl in *; repeat case_match; simplify_eq;
    match goal with H : bool_decide _ = true |- _ => by apply bool_decide_eq_true in H end.
Qed.

(** ** Properties *)

(** C1. What Put stored, Get gives back: after a successful Put of an object
    the codec round-trips, into a backend that held nothing else at its
    address, Get at the returned digest returns that object, the bytes stored
    are the object's frame and the digest is their hash. *)
Theorem Store_Get_after_Put (v : T) (c c' : ctx) (s s1 : S) (d : Digest) :
  inv s -> quiet s ->
  (forall payload, cd_Encode codec v = Ok payload -> cd_Decode codec payload = Ok v /\ blen payload < 2^64) ->
  blen (codecNameOf codec) < 2^64 -> blen (ob_Type obj v) < 2^64 ->
  Put B codec obj hasher v c s = (Ok d, c', s1) ->
  (forall data, abs s !! d = Some data -> encoded codec obj hasher v = Ok (d, data)) ->
  run_res (Get B codec obj hasher d [] s1) = Ok v /\
  exists data, abs s1 !! d = Some data /\ d = hash data /\
    decodeEnvelope data = Ok (mkEnvelope (ob_Type obj v) (codecNameOf codec)
                                (default [] (match cd_Encode codec v with Ok p => Some p | Err _ => None end))).
Proof.
  intros Hi Hq Hrt Hc Ht H Hfresh.
  apply Put_inv in H as (data & HE & Hi1 & Hq1 & Hk & Hp); [|done].
  assert (Hst : abs s1 !! d = Some data).
  { destruct Hp as [-> |[[old Hold] ->]]; [apply lookup_insert_eq|].
    pose proof (Hfresh _ Hold). congruence. }
  pose proof HE as (payload & Hpl & HEE & Hd & _ & Hv & _)%encoded_inv.
  destruct (Get_found d s1 data Hi1 (Hq1 Hq) Hv Hst) as (s2 & E & _). split.
  - rewrite E. by apply (decodeObject_encoded v d data).
  - exists data. split_and!; [done|done|]. rewrite Hpl. simpl.
    pose proof HEE as (Hne & Hat & ->)%EncodeEnvelope_ok. destruct (Hrt _ Hpl) as [_ Hlen].
    pose proof (decodeEnvelope_encode (codecNameOf codec) (ob_Type obj v) payload [] Hc Ht Hlen Hne) as D.
    rewrite app_nil_r in D. rewrite D. unfold versionedName. by rewrite Hat.
Qed.


(** PutDedup tells whether the content was there: it returns the same
    digest Put does, reports a duplicate exactly when the digest was stored, in
    which case nothing is written, and otherwise stores the object's frame. *)
Theorem Store_PutDedup_spec (v : T) (c c' : ctx) (s s' : S) (d : Digest) (dup : bool) :
  inv s -> PutDedup B codec obj hasher v c s = (Ok (d, dup), c', s') ->
  exists data, encoded codec obj hasher v = Ok (d, data) /\ inv s' /\
    dup = bool_decide (is_Some (abs s !! d)) /\
    abs s' = (if dup then abs s else <[d := data]> (abs s)).
Proof.
  intros Hi H. unfold PutDedup in H. mstep H as E1. apply ctxErr_inv in E1 as ->.
  mstep H as E2. apply lift_inv in E2 as (E2 & -> & ->).
  match goal with p : (Digest * bytes)%type |- _ => destruct p as [d0 data] end.
  mstep H as E3. pose proof (bs_Exists _ _ _ _ _ _ Hi E3) as (Hi' & _ & Ha & Hk & Hb).
  match goal with b : bool |- _ => destruct b eqn:Eb end.
  - munfold. simplify_eq. exists data. by rewrite Hb.
  - mstep H as E4. munfold. simplify_eq. pose proof (bs_Put _ _ _ _ _ _ _ Hi' E4) as (? & _ & _ & _ & Hp).
    rewrite Ha, rd_data_bytesReader in Hp. exists data. rewrite <- Hb. split_and!; try done.
    symmetry in Hb. apply bool_decide_eq_false in Hb. destruct Hp as [-> |[Hx _]]; [done|].
    by destruct Hb.
Qed.
End StoreFacts.

(** ** A concrete store: raw byte objects over the memory backend *)
Definition rawCodec : Codec bytes := mkCodec Ok Ok (Some (str "raw")).
Definition rawObject : Object bytes := mkObject (fun _ => str "blob@1") (fun _ => None) None (fun _ => false).
Definition sumHash (data : bytes) : Digest := be_put 4 (foldl (fun acc b => acc * 31 + b2z b) 7 data).
Definition sumHasher : Hasher := copyHasher sumHash 4.

Lemma sumHasher_spec : HasherSpec sumHasher sumHash.
Proof. apply copyHasher_spec; [intros; apply length_be_put|lia]. Qed.

Example Store_Get_after_Put_witness :
  exists d s1, Put Mem.Backend rawCodec rawObject sumHasher (str "hi") [] (Mem.New 0) = (Ok d, [], s1) /\
    run_res (Get Mem.Backend rawCodec rawObject sumHasher d [] s1) = Ok (str "hi").
Proof.
  eexists _, _. split; [vm_compute; reflexivity|].
  refine (proj1 (Store_Get_after_Put Mem.Backend rawCodec rawObject sumHasher sumHash Mem.inv (fun _ => True)
    Mem.key Mem.objects (HB := Mem.mem_BackendSpec) sumHasher_spec (str "hi") [] [] (Mem.New 0) _ _ _ I _ _ _ _ _)).
  - by apply Mem.mem_New_inv.
  - intros payload [= <-]. split; done.
  - done.
  - done.
  - vm_compute. reflexivity.
  - intros data Hd. exfalso. clear -Hd. vm_compute in Hd. discriminate.
Defined.


Example Store_PutDedup_spec_witness :
  exists d s', PutDedup Mem.Backend rawCodec rawObject sumHasher (str "hi") [] (Mem.New 0) = (Ok (d, false), [], s') /\
    exists data, encoded rawCodec rawObject sumHasher (str "hi") = Ok (d, data) /\ Mem.objects s' = <[d := data]> ∅.
Proof.
  eexists _, _. split; [vm_compute; reflexivity|].
  edestruct (Store_PutDedup_spec Mem.Backend rawCodec rawObject sumHasher Mem.inv (fun _ => True)
    Mem.key Mem.objects (HB := Mem.mem_BackendSpec) (str "hi") [] [] (Mem.New 0)) as (data & H1 & _ & _ & H2).
  - by apply Mem.mem_New_inv.
  - vm_compute. reflexivity.
  - exists data. split; [exact H1|exact H2].
Defined.
