(* ===== verification/Walk.v ===== *)
(** Graph traversal (src/cas/reachability.go, src/cas/walker.go): the one
    depth-first walk of the library, the reachable set a sweep retains, and the
    typed walker. *)

From S2P Require Import Prelude Digest Stream Envelope Backend MemBackend Store.

(** ** The walk

    [N] is the type of nodes; a resolver gives a node (or nil), its references
    (or nil, leaving them to the node) or an error.  The stack's top is the
    head of the list: the Go slice grows at its end, so its initial contents
    are the roots reversed, and pushing the references backwards leaves the
    first one on top. *)
Section Walk.
Context {S N : Type}.
Variable node_References : N -> option (list Digest).
Variable resolve : Digest -> M S (option N * option (list Digest)).
Variable visit : Digest -> option N -> option (list Digest) -> M S unit.

Definition unseen (visited : gset Digest) (ref : Digest) : Prop := ref <> [] /\ ref ∉ visited.

(** The references a node is expanded with: the resolver's, or the node's own. *)
Definition expand (node : option N) (refs : option (list Digest)) : option (list Digest) :=
  match refs, node with
  | None, Some n => node_References n
  | _, _ => refs
  end.

Fixpoint walkLoop (fuel : nat) (visited : gset Digest) (stack : list Digest) : M S unit :=
  match fuel with
  | O => throw (New "out of fuel")
  | Datatypes.S fuel =>
    match stack with
    | [] => mret tt
    | d :: stack' =>
      ctxErr;;
      if decide (d ∈ visited) then walkLoop fuel visited stack'
      else
        let visited := {[d]} ∪ visited in
        '(node, refs0) ← resolve d;
        let refs := expand node refs0 in
        visit d node refs;;
        walkLoop fuel visited (filter (unseen visited) (default [] refs) ++ stack')
    end
  end.

Definition WalkDigests (fuel : nat) (roots : list Digest) : M S unit :=
  ctxErr;;
  walkLoop fuel ∅ (reverse (filter (fun root => root <> []) roots)).
End Walk.

(** [cas.Reachable]: the set is a map from hex digests, kept beside the state. *)
Section Reachable.
Context {S : Type}.
Variable References : Digest -> M S (option (list Digest)).

Definition Reachable (fuel : nat) (roots : list Digest) : M S (gmap bytes bool) := fun c s =>
  match
    WalkDigests (fun _ : unit => None)
      (fun d => direct ← onFst (mapErr (Errorf "cas: reachable: expand %s: %w") (References d)); mret (None, direct))
      (fun d _ _ => modify (fun st => (st.1, <[DString d := true]> st.2)))
      fuel roots c (s, ∅)
  with
  | (Ok _, c', (s', reachable)) => (Ok reachable, c', s')
  | (Err e, c', (s', _)) => (Err e, c', s')
  end.
End Reachable.

(** [cas.Walker]: every object reachable from a digest, read through the store,
    is handed to the visitor, which may change the client's own state. *)
Section Walker.
Context {S T U : Type}.
Variables (backend : Backend S) (codec : Codec T) (obj : Object T) (hasher : Hasher).
Variable visit : T -> M U unit.

Definition Walk (fuel : nat) (d : Digest) : M (S * U) unit :=
  WalkDigests (ob_References obj)
    (fun cur => v ← onFst (Get backend codec obj hasher cur); mret (Some v, None))
    (fun _ node _ => match node with Some v => onSnd (visit v) | None => mret tt end)
    fuel [d].
End Walker.

(** ** Reachability as a relation *)
Section Graph.
Variable graph : Digest -> list Digest.

Definition edge (a b : Digest) : Prop := b ∈ graph a /\ b <> [].
Definition reach (roots : list Digest) (d : Digest) : Prop :=
  exists root, root ∈ roots /\ root <> [] /\ rtc edge root d.

(** ** The loop's invariant *)
Section Loop.
Context {S N : Type} (nrefs : N -> option (list Digest)).
Context (resolve : Digest -> M S (option N * option (list Digest))).
Context (visit : Digest -> option N -> option (list Digest) -> M S unit).
Context (roots : list Digest) (P : gset Digest -> S -> Prop).

(** [P] relates the digests visited to the state: expanding and visiting a new
    reachable digest keeps it, and the references found are the graph's. *)
Hypothesis P_step : forall V s d c c1 s1 node refs0 c2 s2,
  P V s -> d ∉ V -> reach roots d ->
  resolve d c s = (Ok (node, refs0), c1, s1) ->
  visit d node (expand nrefs node refs0) c1 s1 = (Ok tt, c2, s2) ->
  P ({[d]} ∪ V) s2 /\ default [] (expand nrefs node refs0) = graph d.

Record walkInv (V : gset Digest) (stack : list Digest) : Prop := {
  wi_visited : forall d, d ∈ V -> reach roots d;
  wi_stack : forall d, d ∈ stack -> reach roots d;
  wi_roots : forall d, d ∈ roots -> d <> [] -> d ∈ V \/ d ∈ stack;
  wi_closed : forall a b, a ∈ V -> edge a b -> b ∈ V \/ b ∈ stack;
}.

Lemma walkInv_init : walkInv ∅ (reverse (filter (fun root => root <> []) roots)).
Proof.
  assert (Hin : forall d, d ∈ reverse (filter (fun root => root <> []) roots) <-> d <> [] /\ d ∈ roots).
  { intros d. by rewrite elem_of_reverse, list_elem_of_filter. }
  split.
  - set_solver.
  - intros d [? ?]%Hin. exists d. split_and!; done.
  - intros d ? ?. right. by apply Hin.
  - set_solver.
Qed.

Lemma walkInv_done V : walkInv V [] -> forall d, d ∈ V <-> reach roots d.
Proof.
  intros [Hv _ Hr Hc] d. split; [apply Hv|]. intros (root & Hin & Hne & Hrtc).
  assert (root ∈ V) as HV by (destruct (Hr root Hin Hne); [done|set_solver]).
  clear Hin Hne. induction Hrtc as [|x y z Hxy _ IH]; [done|].
  apply IH. destruct (Hc x y HV Hxy); [done|set_solver].
Qed.

Lemma walkInv_pop V d stack : walkInv V (d :: stack) -> d ∈ V -> walkInv V stack.
Proof.
  intros [Hv Hs Hr Hc] Hd. split; [done|set_solver| |].
  - intros x Hx Hne. destruct (Hr x Hx Hne) as [|[->|]%elem_of_cons]; auto.
  - intros a b Ha He. destruct (Hc a b Ha He) as [|[->|]%elem_of_cons]; auto.
Qed.

Lemma walkInv_push V d stack :
  walkInv V (d :: stack) -> d ∉ V -> walkInv ({[d]} ∪ V) (filter (unseen ({[d]} ∪ V)) (graph d) ++ stack).
Proof.
  intros [Hv Hs Hr Hc] Hd.
  assert (Hrd : reach roots d) by (apply Hs; set_solver).
  assert (Hnew : forall b, edge d b -> b ∈ {[d]} ∪ V \/ b ∈ filter (unseen ({[d]} ∪ V)) (graph d) ++ stack).
  { intros b [Hb Hne]. destruct (decide (b ∈ {[d]} ∪ V)); [by left|right].
    apply elem_of_app. left. apply list_elem_of_filter. split; [by split|done]. }
  split.
  - intros x [->%elem_of_singleton|]%elem_of_union; auto.
  - intros x [[[Hne _] Hx]%list_elem_of_filter|Hx]%elem_of_app; [|apply Hs; set_solver].
    destruct Hrd as (root & ? & ? & Hrtc). exists root. split_and!; try done.
    eapply rtc_r; [done|]. by split.
  - intros x Hx Hne. destruct (Hr x Hx Hne) as [|[->|]%elem_of_cons]; set_solver.
  - intros a b [->%elem_of_singleton|Ha]%elem_of_union He; [by apply Hnew|].
    destruct (Hc a b Ha He) as [|[->|]%elem_of_cons]; set_solver.
Qed.

Lemma walkLoop_sound fuel V stack c s c' s' :
  walkInv V stack -> P V s ->
  walkLoop nrefs resolve visit fuel V stack c s = (Ok tt, c', s') ->
  exists V', P V' s' /\ forall d, d ∈ V' <-> reach roots d.
Proof.
  revert V stack c s. induction fuel as [|fuel IH]; intros V stack c s Hw HP H; [done|].
  destruct stack as [|d stack]; simpl in H.
  - munfold. simplify_eq. exists V. split; [done|]. by apply walkInv_done.
  - mstep H as E1. apply ctxErr_inv in E1 as ->. case_decide as Hd.
    + eapply IH; [|done|done]. by eapply walkInv_pop.
    + mstep H as E2. match goal with p : (option N * _)%type |- _ => destruct p as [node refs0] end.
      mstep H as E3. match goal with u : unit |- _ => destruct u end.
      destruct (P_step _ _ _ _ _ _ _ _ _ _ HP Hd ltac:(apply (wi_stack _ _ Hw); set_solver) E2 E3) as [HP' Hg].
      rewrite Hg in H. eapply IH; [|done|done]. by apply walkInv_push.
Qed.

Lemma WalkDigests_sound fuel c s c' s' :
  P ∅ s -> WalkDigests nrefs resolve visit fuel roots c s = (Ok tt, c', s') ->
  exists V, P V s' /\ forall d, d ∈ V <-> reach roots d.
Proof.
  intros HP H. unfold WalkDigests in H. mstep H as E. apply ctxErr_inv in E as ->.
  eapply walkLoop_sound; [apply walkInv_init|done|done].
Qed.

(** ** Enough fuel: the pushes are bounded by the references of a finite universe *)
Variable universe : gset Digest.
Hypothesis graph_closed : forall d, reach roots d -> d ∈ universe.
Hypothesis live : forall V s d, P V s -> d ∉ V -> reach roots d ->
  exists node refs0 s1 s2, resolve d [] s = (Ok (node, refs0), [], s1) /\
    visit d node (expand nrefs node refs0) [] s1 = (Ok tt, [], s2).

Definition outdeg (X : gset Digest) : nat := sum_list_with (fun d => length (graph d)) (elements X).

Lemma outdeg_remove X d :
  d ∈ X -> outdeg X = (length (graph d) + outdeg (X ∖ {[d]}))%nat.
Proof.
  intros Hd. unfold outdeg.
  assert (Permutation (elements X) (d :: elements (X ∖ {[d]}))) as ->.
  { rewrite <- elements_union_singleton by set_solver. by rewrite <- union_difference_singleton_L. }
  done.
Qed.

Definition walkFuel : nat := (2 + length roots + outdeg universe)%nat.

Lemma walkLoop_total fuel V stack s :
  walkInv V stack -> P V s -> (length stack + outdeg (universe ∖ V) < fuel)%nat ->
  exists s', walkLoop nrefs resolve visit fuel V stack [] s = (Ok tt, [], s').
Proof.
  revert V stack s. induction fuel as [|fuel IH]; intros V stack s Hw HP Hf; [lia|].
  destruct stack as [|d stack]; simpl; [munfold; eauto|].
  erewrite bind_ok by apply ctxErr_nil. case_decide as Hd.
  - apply IH; [by eapply walkInv_pop|done|simpl in Hf; lia].
  - assert (Hr : reach roots d) by (apply (wi_stack _ _ Hw); set_solver).
    destruct (live V s d HP Hd Hr) as (node & refs0 & s1 & s2 & E1 & E2).
    destruct (P_step _ _ _ _ _ _ _ _ _ _ HP Hd Hr E1 E2) as [HP' Hg].
    erewrite bind_ok by exact E1. simpl. erewrite bind_ok by exact E2. rewrite Hg.
    apply IH; [by apply walkInv_push|done|].
    rewrite length_app. pose proof (length_filter (unseen ({[d]} ∪ V)) (graph d)).
    rewrite (outdeg_remove (universe ∖ V) d) in Hf by (apply graph_closed in Hr; set_solver).
    replace (universe ∖ ({[d]} ∪ V)) with (universe ∖ V ∖ {[d]}) by set_solver. simpl in Hf. lia.
Qed.

Lemma WalkDigests_total s :
  P ∅ s -> exists s', WalkDigests nrefs resolve visit walkFuel roots [] s = (Ok tt, [], s').
Proof.
  intros HP. unfold WalkDigests. erewrite bind_ok by apply ctxErr_nil.
  apply walkLoop_total; [apply walkInv_init|done|].
  rewrite length_reverse. pose proof (length_filter (fun root : Digest => root <> []) roots).
  replace (universe ∖ ∅) with universe by set_solver. unfold walkFuel. lia.
Qed.
End Loop.

(** ** The reachable set *)
Section ReachableFacts.
Context {S : Type} (References : Digest -> M S (option (list Digest))).

(** A lister that reports the graph: what it answers is the node's out-edges,
    nil standing for none. *)
Definition lists_graph : Prop := forall d c s refs c' s',
  References d c s = (Ok refs, c', s') -> default [] refs = graph d.

Lemma expand_unit (refs : option (list Digest)) (n : option unit) :
  default [] (expand (fun _ : unit => None) n refs) = default [] refs.
Proof. by destruct refs, n. Qed.

Definition collected (V : gset Digest) (st : S * gmap bytes bool) : Prop :=
  forall k, st.2 !! k = if decide (k ∈ (set_map DString V : gset bytes)) then Some true else None.

Lemma collected_step roots V s d c c1 s1 (node : option unit) refs0 c2 s2 :
  lists_graph -> collected V s -> d ∉ V -> reach roots d ->
  (direct ← onFst (mapErr (Errorf "cas: reachable: expand %s: %w") (References d));
   mret (None, direct)) c s = (Ok (node, refs0), c1, s1) ->
  modify (fun st : S * gmap bytes bool => (st.1, <[DString d := true]> st.2)) c1 s1 = (Ok tt, c2, s2) ->
  collected ({[d]} ∪ V) s2 /\ default [] (expand (fun _ => None) node refs0) = graph d.
Proof.
  intros HL HC Hd Hr E1 E2. mstep E1 as E. unfold onFst, mapErr in E.
  destruct (References d c s.1) as [[[refs|e] c3] s3] eqn:ER; simplify_eq/=. munfold. simplify_eq.
  split; [|rewrite expand_unit; by eapply HL].
  intros k. simpl. unfold collected in HC. destruct (decide (k = DString d)) as [->|Hk].
  - rewrite lookup_insert_eq, decide_True by (apply elem_of_map; set_solver). done.
  - rewrite lookup_insert_ne, HC by done. apply decide_ext. rewrite set_map_union_L, set_map_singleton_L. set_solver.
Qed.

Lemma Reachable_sound (fuel : nat) (roots : list Digest) (c c' : ctx) (s s' : S) (m : gmap bytes bool) :
  lists_graph -> Reachable References fuel roots c s = (Ok m, c', s') ->
  (forall d, default false (m !! DString d) = true <-> reach roots d) /\
  (forall k b, m !! k = Some b -> b = true /\ exists d, k = DString d /\ reach roots d).
Proof.
  intros HL H. unfold Reachable in H.
  destruct (WalkDigests _ _ _ _ _ _ _) as [[[[]|e] c1] [s1 m1]] eqn:E; [|done]. simplify_eq.
  eapply (WalkDigests_sound _ _ _ roots collected) in E as (V & HC & HV).
  - split.
    + intros d. pose proof (HC (DString d)) as Hk. simpl in Hk. rewrite Hk, <- HV. case_decide as Hin; simpl.
      * apply elem_of_map in Hin as (d' & ->%(inj DString) & ?). done.
      * split; [done|]. intros ?. destruct Hin. apply elem_of_map. eauto.
    + intros k b Hk. pose proof (HC k) as Hk'. simpl in Hk'. rewrite Hk' in Hk. case_decide as Hin; simplify_eq. split; [done|].
      apply elem_of_map in Hin as (d & -> & ?). exists d. split; [done|]. by apply HV.
  - intros. by eapply collected_step.
  - intros k. by rewrite set_map_empty, decide_False by set_solver.
Qed.

(** C35. Reachable is the transitive closure: when it answers, under any
    context and over any state, a digest is in the set exactly when a path of
    present references leads to it from a present root; the set holds nothing
    else. *)
Theorem Reachable_correct (fuel : nat) (roots : list Digest) (c c' : ctx) (s s' : S) (m : gmap bytes bool) :
  lists_graph -> Reachable References fuel roots c s = (Ok m, c', s') ->
  (forall d, default false (m !! DString d) = true <-> reach roots d) /\
  (forall k b, m !! k = Some b -> b = true /\ exists d, k = DString d /\ reach roots d).
Proof. apply Reachable_sound. Qed.

(** C36. The walk ends: over a finite universe of digests that the references
    do not leave, with references that can all be read, the fuel bound given
    by the roots and the out-degrees is enough for Reachable to answer. *)
Theorem Reachable_terminates (roots : list Digest) (universe : gset Digest) (s : S) :
  lists_graph ->
  (forall d, reach roots d -> d ∈ universe) ->
  (forall d s, d ∈ universe -> exists refs s', References d [] s = (Ok refs, [], s')) ->
  exists m s', Reachable References (walkFuel roots universe) roots [] s = (Ok m, [], s').
Proof.
  intros HL HU Hlive. unfold Reachable.
  edestruct (WalkDigests_total (fun _ : unit => None)
    (fun d => direct ← onFst (mapErr (Errorf "cas: reachable: expand %s: %w") (References d)); mret (None, direct))
    (fun d _ _ => modify (fun st : S * gmap bytes bool => (st.1, <[DString d := true]> st.2)))
    roots collected) as [[s' m] ->]; [..|eauto].
  - intros. by eapply collected_step.
  - exact HU.
  - intros V [s0 m0] d HC Hd Hr. destruct (Hlive d s0 (HU d Hr)) as (refs & s1 & E).
    do 4 eexists. split; [|munfold; reflexivity].
    erewrite bind_ok by (unfold onFst, mapErr; simpl; rewrite E; reflexivity). munfold. reflexivity.
  - intros k. by rewrite set_map_empty, decide_False by set_solver.
Qed.
End ReachableFacts.
End Graph.

(** ** The typed walker *)
Section WalkerFacts.
Context {S T : Type} (B : Backend S) (codec : Codec T) (obj : Object T) (hasher : Hasher).
Context (inv quiet : S -> Prop) (key : Digest -> Prop) (abs : S -> gmap Digest bytes).
Context `{HB : !BackendSpec B inv quiet key abs}.

(** The object a map of stored bytes holds at a digest, and its references. *)
Definition objectAt (m : gmap Digest bytes) (d : Digest) : option T :=
  match m !! d with
  | Some data => match decodeObject codec obj data with Ok v => Some v | Err _ => None end
  | None => None
  end.
Definition objectGraph (m : gmap Digest bytes) (d : Digest) : list Digest :=
  match objectAt m d with Some v => default [] (ob_References obj v) | None => [] end.

Definition logged (m : gmap Digest bytes) (V : gset Digest) (st : S * list T) : Prop :=
  inv st.1 /\ abs st.1 = m /\
  exists l, NoDup l /\ (forall d, d ∈ l <-> d ∈ V) /\ Forall2 (fun d v => objectAt m d = Some v) l st.2.

(** The walker hands every object reachable from a digest to the visitor
    exactly once: after a walk that ended without an error, the objects the
    visitor received are those of a duplicate-free list of exactly the
    reachable digests, whatever cycles and shared references the graph has. *)
Theorem Walk_visits_once (fuel : nat) (d : Digest) (c c' : ctx) (s s' : S) (u : list T) :
  inv s ->
  Walk B codec obj hasher (fun v => modify (fun l => l ++ [v])) fuel d c (s, []) = (Ok tt, c', (s', u)) ->
  abs s' = abs s /\
  exists l, NoDup l /\ (forall x, x ∈ l <-> reach (objectGraph (abs s)) [d] x) /\
    Forall2 (fun x v => objectAt (abs s) x = Some v) l u.
Proof.
  intros Hi H. unfold Walk in H.
  eapply (WalkDigests_sound (objectGraph (abs s)) _ _ _ [d] (logged (abs s))) in H as (V & (_ & Ha & l & ? & Hl & ?) & HV).
  - split; [done|]. exists l. split_and!; try done. intros x. by rewrite Hl.
  - intros V [s0 u0] x c0 c1 s1 node refs0 c2 s2 (Hi0 & Ha0 & l & Hnd & Hl & Hf) Hx Hr E1 E2. simpl in *.
    mstep E1 as E. unfold onFst in E. simpl in E.
    destruct (Get B codec obj hasher x c0 s0) as [[[v|e] c3] s3] eqn:EG; simplify_eq/=.
    apply Get_inv with (HB := HB) in EG as (Hi3 & _ & Ha3 & data & Hd & Hdec); [|done].
    munfold. simplify_eq/=. unfold onSnd in E2. simpl in E2. simplify_eq.
    match type of Hdec with _ = Ok ?w =>
      assert (Ho : objectAt (abs s) x = Some w) by (unfold objectAt; by rewrite <- Ha0, Hd, Hdec) end.
    split; [|unfold objectGraph; by rewrite Ho].
    split_and!; simpl; [done|congruence|]. exists (l ++ [x]). split_and!.
    + apply list.NoDup_app. split_and!; [done| |apply list.NoDup_singleton].
      intros y Hy ->%list_elem_of_singleton. by apply Hx, Hl.
    + intros y. rewrite elem_of_app, Hl. set_solver.
    + apply Forall2_app; [done|]. by constructor.
  - split_and!; simpl; try done. exists []. split_and!; [constructor|set_solver|constructor].
Qed.
End WalkerFacts.

(** ** A concrete graph: a cycle between two digests, and a third that leads into it *)
Definition sampleGraph (d : Digest) : list Digest :=
  if decide (d = str "a") then [str "b"; []] else if decide (d = str "b") then [str "a"]
  else if decide (d = str "c") then [str "a"] else [].
Definition sampleLister (d : Digest) : M unit (option (list Digest)) := mret (Some (sampleGraph d)).

Lemma sampleLister_graph : lists_graph sampleGraph sampleLister.
Proof. intros d c s refs c' s' H. unfold sampleLister in H. munfold. by simplify_eq. Qed.

Definition sampleSet : gmap bytes bool := {[DString (str "a") := true; DString (str "b") := true]}.
Lemma sample_Reachable : Reachable sampleLister 9 [str "a"] [] tt = (Ok sampleSet, [], tt).
Proof. vm_compute. reflexivity. Qed.

Example Reachable_correct_witness :
  default false (sampleSet !! DString (str "b")) = true <-> reach sampleGraph [str "a"] (str "b").
Proof.
  exact (proj1 (Reachable_correct sampleGraph sampleLister 9 [str "a"] [] [] tt tt sampleSet
    sampleLister_graph sample_Reachable) (str "b")).
Defined.

Lemma sampleGraph_closed d :
  reach sampleGraph [str "a"] d -> d ∈ ({[str "a"; str "b"; str "c"]} : gset Digest).
Proof.
  intros (root & Hin & _ & Hr).
  assert (Hroot : root ∈ ({[str "a"; str "b"; str "c"]} : gset Digest)) by set_solver.
  clear Hin. induction Hr as [|x y z Hxy _ IH]; [done|]. destruct Hxy as [Hxy Hy]. apply IH.
  unfold sampleGraph in Hxy. repeat case_decide; set_solver.
Qed.

Example Reachable_terminates_witness :
  exists m s', Reachable sampleLister (walkFuel sampleGraph [str "a"] {[str "a"; str "b"; str "c"]})
    [str "a"] [] tt = (Ok m, [], s').
Proof.
  apply (Reachable_terminates sampleGraph sampleLister [str "a"] {[str "a"; str "b"; str "c"]} tt).
  - apply sampleLister_graph.
  - apply sampleGraph_closed.
  - intros d s _. unfold sampleLister. munfold. eauto.
Defined.

Definition oneObject : Mem.Mem :=
  Mem.mkMem {[str "k" := encodeEnvelope (str "raw") (str "blob@1") (str "hi")]} 0 15.
Definition anyWidth : Hasher := mkHasher (hs_Digest sumHasher) (fun _ => None).
Lemma oneObject_inv : Mem.inv oneObject.
Proof. split; vm_compute; try reflexivity; intros; discriminate. Qed.
Lemma sample_Walk :
  Walk Mem.Backend rawCodec rawObject anyWidth (fun v => modify (fun l => l ++ [v])) 9 (str "k") [] (oneObject, []) =
    (Ok tt, [], (oneObject, [str "hi"])).
Proof. vm_compute. reflexivity. Qed.

Example Walk_visits_once_witness :
  exists l, NoDup l /\ (forall x, x ∈ l <-> reach (objectGraph rawCodec rawObject (Mem.objects oneObject)) [str "k"] x) /\
    Forall2 (fun x v => objectAt rawCodec rawObject (Mem.objects oneObject) x = Some v) l [str "hi"].
Proof.
  exact (proj2 (Walk_visits_once Mem.Backend rawCodec rawObject anyWidth
    Mem.inv (fun _ => True) Mem.key Mem.objects (HB := Mem.mem_BackendSpec) 9 (str "k") [] [] oneObject oneObject
    [str "hi"] oneObject_inv sample_Walk)).
Defined.
