(* ===== verification/Sweep.v ===== *)
(** Maintenance over any backend (src/cas/sweep.go, src/cas/verifier.go,
    src/cas/stream.go): reclaiming unreachable objects, checking stored bytes
    against their digests, and storing a stream under its own digest. *)

From S2P Require Import Prelude Digest Stream Backend MemBackend Store Walk.

(** ** Sweep *)

(** [time.Time.Sub]: the difference, saturated to an int64. *)
Definition timeSub (t u : Z) : Z := Z.max (- 2^63) (Z.min (2^63 - 1) (t - u)).

Section Sweep.
Context {S : Type}.
Variable backend : Backend S.
Variable reachable : gmap bytes bool.

Record SweepOptions := mkSweepOptions { MinAge : Z; DryRun : bool }.

(** The statter the options ask for: required only for an age. *)
Definition sweepStatter (opts : SweepOptions) : res (option (Digest -> M S Z)) :=
  if 0 <? MinAge opts then
    match bk_Statter backend with
    | None => Err (Errorf "%w: age-based sweep requires Statter" ErrUnsupported)
    | Some (_, modTime) => Ok (Some modTime)
    end
  else Ok None.

(** One listed digest: kept, skipped, or added to the doomed ones. *)
Definition sweepOne (statter : option (Digest -> M S Z)) (now : Z) (opts : SweepOptions)
    (doomed : list Digest) (d : Digest) : M S (list Digest) :=
  ctxErr;;
  if default false (reachable !! DString d) then mret doomed
  else
    ex ← attempt (bk_Exists backend d);
    match ex with
    | Err e => if errIs e ErrInvalidDigest then mret doomed else throw e
    | Ok false => mret doomed
    | Ok true =>
      match statter with
      | None => mret (doomed ++ [d])
      | Some modTime =>
        mt ← attempt (modTime d);
        match mt with
        | Err e => if errIs e ErrNotFound then mret doomed
                   else if errIs e ErrInvalidDigest then mret doomed
                   else throw e
        | Ok mt => if timeSub now mt <? MinAge opts then mret doomed else mret (doomed ++ [d])
        end
      end
    end.

Definition sweepDelete (d : Digest) : M S unit :=
  ctxErr;;
  bk_Delete backend d.

Definition Sweep (now : Z) (opts : SweepOptions) : M S (list Digest) :=
  statter ← lift (sweepStatter opts);
  digests ← bk_List backend;
  doomed ← foldM digests [] (sweepOne statter now opts);
  if DryRun opts then mret doomed
  else
    forM_ doomed sweepDelete;;
    mret doomed.
End Sweep.

(** ** Verify *)
Section Verify.
Context {S : Type}.
Variable backend : Backend S.
Variable hasher : Hasher.

Definition Verify (d : Digest) : M S unit :=
  ctxErr;;
  lift (CheckDigest d "cas: verify");;
  match hs_Validate hasher d with
  | Some e => throw e
  | None =>
    rc ← bk_Get backend d;
    actual ← readThenClose rc (onReader (hs_Digest hasher)) readWins (wrap "cas: verify read") (wrap "cas: verify close");
    if negb (Equal actual d) then throw (Errorf "%w: %s" ErrDigestMismatch) else mret tt
  end.

Record Report := mkReport { Checked : Z; Bad : list Digest }.

(** The loop over the listed digests: the report comes back with an error too. *)
Fixpoint verifyLoop (digests : list Digest) (report : Report) : M S (Report * option error) :=
  match digests with
  | [] => mret (report, None)
  | d :: rest =>
    cerr ← attempt ctxErr;
    match cerr with
    | Err e => mret (report, Some e)
    | Ok _ =>
      let report := mkReport (int64 (Checked report + 1)) (Bad report) in
      v ← attempt (Verify d);
      match v with
      | Ok _ => verifyLoop rest report
      | Err e =>
        if errIs e ErrDigestMismatch then verifyLoop rest (mkReport (Checked report) (Bad report ++ [d]))
        else mret (report, Some (Errorf "cas: verify all %s: %w" e))
      end
    end
  end.

Definition VerifyAll : M S (Report * option error) :=
  digests ← bk_List backend;
  verifyLoop digests (mkReport 0 []).

(** [PutStream]: the spool's creation, its write and its two rewinds may fail,
    and so may reading it back; those outcomes are arguments ([io.EOF] ends a
    read that does not fail). *)
Record SpoolFaults := mkSpoolFaults {
  sf_create : option error; sf_write : option error;
  sf_seek1 : option error; sf_read1 : error;
  sf_seek2 : option error; sf_read2 : error;
}.

Definition faultOr (f : option error) (msg : string) : res unit :=
  match f with Some e => Err (Errorf msg e) | None => Ok tt end.

Definition PutStream (sf : SpoolFaults) (r : Reader) : M S (Digest * bool) :=
  ctxErr;;
  lift (faultOr (sf_create sf) "cas: put stream: create spool: %w");;
  lift (faultOr (sf_write sf) "cas: put stream: spool: %w");;
  data ← mapErr (Errorf "cas: put stream: spool: %w") (onReader (ioReadAll false) r);
  ctxErr;;
  lift (faultOr (sf_seek1 sf) "cas: put stream: rewind spool: %w");;
  d ← mapErr (Errorf "cas: put stream: digest: %w") (onReader (hs_Digest hasher) (mkReader [data] (sf_read1 sf)));
  deduplicated ← bk_Exists backend d;
  if (deduplicated : bool) then mret (d, true)
  else
    lift (faultOr (sf_seek2 sf) "cas: put stream: rewind spool: %w");;
    bk_Put backend d (mkReader [data] (sf_read2 sf));;
    mret (d, false).
End Verify.

(** ** Lemmas *)
Section SweepFacts.
Context {S : Type} (B : Backend S).
Context (inv quiet : S -> Prop) (key : Digest -> Prop) (abs : S -> gmap Digest bytes).
Context `{HB : !BackendSpec B inv quiet key abs}.
Variable reachable : gmap bytes bool.

Definition marked (d : Digest) : Prop := default false (reachable !! DString d) = true.
#[export] Instance marked_dec d : Decision (marked d).
Proof. unfold marked. apply _. Defined.

(** Reading a modification time changes nothing. *)
Definition pureStatter (statter : option (Digest -> M S Z)) : Prop :=
  forall modTime, statter = Some modTime -> forall d c s r c' s', inv s -> modTime d c s = (r, c', s') ->
    inv s' /\ (quiet s -> quiet s') /\ abs s' = abs s.

(** The age check passed: some read of the modification time answered an age
    of at least the minimum. *)
Definition aged (statter : option (Digest -> M S Z)) (now minAge : Z) (d : Digest) : Prop :=
  match statter with
  | None => True
  | Some modTime => exists c s t c' s', modTime d c s = (Ok t, c', s') /\ minAge <= timeSub now t
  end.

Lemma sweepOne_inv statter now opts acc d c s r c' s' :
  pureStatter statter -> inv s -> sweepOne B reachable statter now opts acc d c s = (r, c', s') ->
  inv s' /\ (quiet s -> quiet s') /\ abs s' = abs s /\
  forall acc', r = Ok acc' ->
    (acc' = acc /\ (statter = None -> key d -> is_Some (abs s !! d) -> marked d)) \/
    (acc' = acc ++ [d] /\ ~ marked d /\ key d /\ is_Some (abs s !! d) /\ aged statter now (MinAge opts) d).
Proof.
  intros Hst Hi H. unfold sweepOne in H. mstep H as E.
  2:{ apply ctxErr_inv in E as ->. split_and!; try done. }
  apply ctxErr_inv in E as ->. unfold marked.
  destruct (default false (reachable !! DString d)) eqn:Em.
  { munfold. simplify_eq. split_and!; try done. intros acc' [= <-]. by left. }
  apply bind_attempt in H as (rex & cx & sx & EX & H).
  pose proof (bs_Exists _ _ _ _ _ _ Hi EX) as (Hi1 & Hq1 & Ha1 & Hx).
  destruct rex as [[]|e].
  - destruct Hx as [Hk Hb]. symmetry in Hb. apply bool_decide_eq_true in Hb.
    destruct statter as [modTime|].
    + apply bind_attempt in H as (rm & cm & sm & EM & H).
      pose proof (Hst _ eq_refl _ _ _ _ _ _ Hi1 EM) as (Hi2 & Hq2 & Ha2). rewrite Ha1 in Ha2.
      assert (Hskip : forall acc', Ok acc = Ok acc' ->
        (acc' = acc /\ (Some modTime = None -> key d -> is_Some (abs s !! d) -> false = true)) \/
        (acc' = acc ++ [d] /\ ~ false = true /\ key d /\ is_Some (abs s !! d) /\
         aged (Some modTime) now (MinAge opts) d)) by (intros acc' [= <-]; by left).
      munfold. destruct rm as [mt|e].
      * destruct (Z.ltb_spec (timeSub now mt) (MinAge opts)); simplify_eq; (split_and!; [done|auto|done|]); auto.
        intros acc' [= <-]. right. split_and!; try done. simpl. eauto 10.
      * destruct (errIs e ErrNotFound); [|destruct (errIs e ErrInvalidDigest)]; simplify_eq;
          (split_and!; [done|auto|done|]); auto. done.
    + munfold. simplify_eq. split_and!; try done. intros acc' [= <-]. right. by split_and!.
  - destruct Hx as [Hk Hb]. symmetry in Hb. apply bool_decide_eq_false in Hb.
    munfold. simplify_eq. split_and!; try done. intros acc' [= <-]. left. split; [done|]. intros _ _ ?. by destruct Hb.
  - munfold. destruct (errIs e ErrInvalidDigest) eqn:Ei; simplify_eq; (split_and!; try done).
    intros acc' [= <-]. left. split; [done|]. intros _ Hk. by destruct (Hx eq_refl).
Qed.

(** What the loop over the listed digests has decided so far. *)
Record decided (statter : option (Digest -> M S Z)) (now minAge : Z) (m : gmap Digest bytes)
    (done doomed : list Digest) : Prop := {
  dc_doomed : forall d, d ∈ doomed -> ~ marked d /\ key d /\ is_Some (m !! d) /\ aged statter now minAge d;
  dc_complete : statter = None -> forall d, d ∈ done -> key d -> is_Some (m !! d) -> marked d \/ d ∈ doomed;
}.

Lemma decided_step statter now minAge m done doomed doomed' d :
  decided statter now minAge m done doomed ->
  (doomed' = doomed /\ (statter = None -> key d -> is_Some (m !! d) -> marked d)) \/
  (doomed' = doomed ++ [d] /\ ~ marked d /\ key d /\ is_Some (m !! d) /\ aged statter now minAge d) ->
  decided statter now minAge m (done ++ [d]) doomed'.
Proof.
  intros [Hd Hc] [[-> Hm]|(-> & Hn & Hk & Hs & Ha)]; split.
  - done.
  - intros Hst x [Hx|Hx%list_elem_of_singleton]%elem_of_app; [by apply Hc|]. subst. left. by apply Hm.
  - intros x [Hx|Hx%list_elem_of_singleton]%elem_of_app; [by apply Hd|]. by subst.
  - intros Hst x [Hx|Hx%list_elem_of_singleton]%elem_of_app Hkx Hsx; rewrite elem_of_app, list_elem_of_singleton; [|auto].
    destruct (Hc Hst x Hx Hkx Hsx); auto.
Qed.

(** Deleting the doomed digests removes them and nothing else. *)
Lemma sweepDelete_loop doomed c s r c' s' :
  inv s -> forM_ doomed (sweepDelete B) c s = (r, c', s') ->
  inv s' /\ (forall d, abs s' !! d = abs s !! d \/ (d ∈ doomed /\ abs s' !! d = None)) /\
  (r = Ok tt -> forall d, d ∈ doomed -> abs s' !! d = None).
Proof.
  revert c s. induction doomed as [|x doomed IH]; intros c s Hi H; simpl in H.
  { munfold. simplify_eq. split_and!; try done; [auto|]. intros _ d Hd. by apply not_elem_of_nil in Hd. }
  assert (Hx : forall c s r c' s', inv s -> sweepDelete B x c s = (r, c', s') ->
    inv s' /\ (abs s' = abs s \/ abs s' = delete x (abs s)) /\ (is_ok r = true -> abs s' = delete x (abs s))).
  { clear IH H Hi. intros c0 s0 r0 c0' s0' Hi H. unfold sweepDelete in H. mstep H as E.
    - apply ctxErr_inv in E as ->. pose proof (bs_Delete _ _ _ _ _ _ Hi H) as (? & _ & Hr).
      destruct r0; [destruct Hr; auto|]. split_and!; [done|auto|done].
    - apply ctxErr_inv in E as ->. split_and!; [done|auto|done]. }
  assert (Hone : forall (m m' : gmap Digest bytes) l, (m' = m \/ m' = delete x m) -> forall d,
    m' !! d = m !! d \/ (d ∈ x :: l /\ m' !! d = None)).
  { intros m m' l [-> | ->] d; [by left|]. rewrite lookup_delete. case_decide; [right|by left].
    subst. split; [apply list_elem_of_here|done]. }
  mstep H as E.
  - destruct (Hx _ _ _ _ _ Hi E) as (Hi1 & Ha1 & Hok1). apply IH in H as (Hi' & Ha' & Hok'); [|done].
    split_and!; [done| |].
    + intros d. destruct (Ha' d) as [Hd|[Hd Hn]].
      * rewrite Hd. by apply Hone.
      * right. split; [by apply list_elem_of_further|done].
    + intros Hr d [->|Hd]%elem_of_cons; [|by apply Hok'].
      destruct (Ha' x) as [Hd|[_ Hn]]; [|done]. rewrite Hd, (Hok1 eq_refl). apply lookup_delete_eq.
  - destruct (Hx _ _ _ _ _ Hi E) as (Hi1 & Ha1 & _). split_and!; [done|by apply Hone|done].
Qed.

Lemma sweepStatter_pure opts statter :
  (forall sz modTime, bk_Statter B = Some (sz, modTime) -> pureStatter (Some modTime)) ->
  sweepStatter B opts = Ok statter -> pureStatter statter /\ (MinAge opts <= 0 -> statter = None).
Proof.
  unfold sweepStatter. intros Hp. destruct (Z.ltb_spec 0 (MinAge opts)).
  - destruct (bk_Statter B) as [[sz mt]|]; [|done]. intros [= <-]. split; [by eapply Hp|lia].
  - intros [= <-]. split; [|done]. by intros ? [=].
Qed.

(** Deciding what to delete changes nothing. *)
Lemma sweepLoop_state statter now opts digests acc c s r c' s' :
  pureStatter statter -> inv s ->
  foldM digests acc (sweepOne B reachable statter now opts) c s = (r, c', s') -> inv s' /\ abs s' = abs s.
Proof.
  intros Hst Hi Hf.
  eapply (foldM_state (fun s0 => inv s0 /\ abs s0 = abs s)); [|by split|exact Hf].
  intros acc1 d c1 s1 r1 c1' s1' [Hi1 Ha1] Hone.
  apply sweepOne_inv in Hone as (? & _ & Ha' & _); [|done|done]. split; [done|congruence].
Qed.

Lemma sweepLoop_decides statter now opts digests c s doomed c' s' :
  pureStatter statter -> inv s ->
  foldM digests [] (sweepOne B reachable statter now opts) c s = (Ok doomed, c', s') ->
  decided statter now (MinAge opts) (abs s) digests doomed.
Proof.
  intros Hst Hi E3. change digests with ([] ++ digests).
  refine (proj2 (foldM_inv (fun dn acc s0 => (inv s0 /\ abs s0 = abs s) /\
    decided statter now (MinAge opts) (abs s) dn acc) digests [] [] _ _ _ _ _ _ _ _ E3)).
  - intros dn acc d c1 s1 acc' c1' s1' _ [[Hi1 Ha1] Hd1] Hone.
    apply sweepOne_inv in Hone as (? & _ & Ha' & Hcase); [|done|done].
    split; [split; [done|congruence]|]. rewrite Ha1 in Hcase. eapply decided_step; [done|by apply Hcase].
  - split; [done|]. split; [|intros _]; intros d Hd; by apply not_elem_of_nil in Hd.
Qed.

(** A sweep reclaims the unreachable and nothing else.  Whatever the
    outcome, and wherever a failure or a cancellation stops it: no reachable
    object is touched, nothing changes but by removing unreachable stored
    objects, and a dry run changes nothing.  When it succeeds, every digest it
    reports is unreachable, addressable, was stored and passed the age check,
    and (unless it is a dry run) is gone; without a minimum age it reports every
    unreachable stored object. *)
Lemma Sweep_sound (now : Z) (opts : SweepOptions) (c c' : ctx) (s s' : S) (r : res (list Digest)) :
  (forall sz modTime, bk_Statter B = Some (sz, modTime) -> pureStatter (Some modTime)) ->
  inv s -> Sweep B reachable now opts c s = (r, c', s') ->
  inv s' /\
  (forall d, abs s' !! d = abs s !! d \/ (DryRun opts = false /\ ~ marked d /\ is_Some (abs s !! d) /\ abs s' !! d = None)) /\
  (forall doomed, r = Ok doomed ->
     (forall d, d ∈ doomed -> ~ marked d /\ key d /\ is_Some (abs s !! d) /\
        (exists statter, sweepStatter B opts = Ok statter /\ aged statter now (MinAge opts) d) /\
        (DryRun opts = false -> abs s' !! d = None)) /\
     (MinAge opts <= 0 -> forall d, is_Some (abs s !! d) -> ~ marked d -> d ∈ doomed)).
Proof.
  intros Hpure Hi H. unfold Sweep in H.
  mstep H as E1; apply lift_inv in E1 as (E1 & -> & ->); [|by split_and!; [|auto|]].
  symmetry in E1. destruct (sweepStatter_pure _ _ Hpure E1) as [Hst Hnone].
  mstep H as E2; pose proof (bs_List _ _ _ _ _ Hi E2) as (Hi2 & _ & Ha2 & Hl);
    [|split_and!; [done|intros d; left; by rewrite Ha2|done]].
  destruct Hl as (_ & _ & Hl). rewrite <- Ha2 in *.
  mstep H as E3.
  2:{ apply sweepLoop_state in E3 as [? Ha3]; [|done|done]. split_and!; [done|intros d; left; by rewrite Ha3|done]. }
  pose proof E3 as [Hi3 Ha3]%sweepLoop_state; [|done|done].
  apply sweepLoop_decides in E3 as [Hdoom Hcomp]; [|done|done].
  assert (Hall : MinAge opts <= 0 -> forall d, is_Some (abs x2 !! d) -> ~ marked d -> d ∈ x3).
  { intros Hage d Hd Hm. assert (Hk : key d) by (by eapply (bs_abs_key x2)).
    destruct (Hcomp (Hnone Hage) d); try done. by apply Hl. }
  destruct (DryRun opts) eqn:Edry.
  { munfold. simplify_eq. split_and!; [done|intros d; left; by rewrite Ha3|].
    intros doomed' [= <-]. split; [|done]. intros d Hd. destruct (Hdoom d Hd) as (?&?&?&?).
    split_and!; try done. eauto. }
  assert (Hdel : forall r0 c0, forM_ x3 (sweepDelete B) x4 x5 = (r0, c0, s') -> inv s' /\
    (forall d, abs s' !! d = abs x2 !! d \/ (false = false /\ ~ marked d /\ is_Some (abs x2 !! d) /\ abs s' !! d = None)) /\
    (r0 = Ok tt -> forall d, d ∈ x3 -> abs s' !! d = None)).
  { intros r0 c0 E4. apply sweepDelete_loop in E4 as (Hi4 & Ha4 & Hgone); [|done].
    split_and!; [done| |done]. intros d. rewrite <- Ha3. destruct (Ha4 d) as [?|[Hin ?]]; [by left|right].
    rewrite Ha3. destruct (Hdoom d Hin) as (?&?&?&?). by split_and!. }
  mstep H as E4.
  - destruct x6. munfold. simplify_eq. destruct (Hdel _ _ E4) as (? & ? & Hgone). split_and!; [done|done|].
    intros doomed' [= <-]. split; [|done]. intros d Hd. destruct (Hdoom d Hd) as (?&?&?&?).
    split_and!; eauto.
  - destruct (Hdel _ _ E4) as (? & ? & _). split_and!; [done|done|]. by intros doomed' [=].
Qed.


End SweepFacts.

(** ** Collection: mark, then sweep *)
Section CollectFacts.
Context {S : Type} (B : Backend S).
Context (inv quiet : S -> Prop) (key : Digest -> Prop) (abs : S -> gmap Digest bytes).
Context `{HB : !BackendSpec B inv quiet key abs}.

(** C7. Garbage collection end to end: mark with Reachable, then sweep what it
    did not mark.  Under any contexts and whatever fails on the way, every
    object a path of references leads to from a root keeps its bytes; and a
    sweep that succeeds without an age and not as a dry run leaves exactly the
    stored objects that such a path leads to. *)
Theorem collect_keeps_reachable (graph : Digest -> list Digest) (References : Digest -> M S (option (list Digest)))
    (fuel : nat) (roots : list Digest) (m : gmap bytes bool) (now : Z) (opts : SweepOptions)
    (c c1 c2 c' : ctx) (s s1 s' : S) (r : res (list Digest)) :
  (forall sz modTime, bk_Statter B = Some (sz, modTime) -> pureStatter inv quiet abs (Some modTime)) ->
  lists_graph graph References ->
  Reachable References fuel roots c s = (Ok m, c1, s1) ->
  inv s1 -> Sweep B m now opts c2 s1 = (r, c', s') ->
  (forall d, reach graph roots d -> abs s' !! d = abs s1 !! d) /\
  (is_ok r = true -> DryRun opts = false -> MinAge opts <= 0 ->
   forall d, is_Some (abs s' !! d) <-> is_Some (abs s1 !! d) /\ reach graph roots d).
Proof.
  intros Hp HL HR Hi HS. apply Reachable_sound with (graph := graph) in HR as [HR _]; [|done].
  assert (Hm : forall d, marked m d <-> reach graph roots d) by apply HR.
  apply Sweep_sound with (HB := HB) in HS as (_ & Ha & Hok); [|done|done]. split.
  - intros d Hd%Hm. by destruct (Ha d) as [?|(_ & ? & _)].
  - intros Hr Hdry Hage d. destruct r as [doomed|]; [|done]. destruct (Hok doomed eq_refl) as [Hdoom Hall].
    rewrite <- Hm. split.
    + intros Hd. destruct (Ha d) as [E|(_ & _ & _ & E)]; rewrite E in Hd; [|by destruct Hd]. split; [done|].
      destruct (decide (marked m d)) as [|Hn]; [done|exfalso].
      destruct (Hdoom d (Hall Hage d Hd Hn)) as (_ & _ & _ & _ & Hg). rewrite Hg in E by done.
      rewrite <- E in Hd. by destruct Hd.
    + intros [Hd Hmk]. by destruct (Ha d) as [-> |(_ & ? & _)].
Qed.
End CollectFacts.

(** ** Verification *)
Section VerifyFacts.
Context {S : Type} (B : Backend S) (hasher : Hasher) (hash : bytes -> Digest).
Context (inv quiet : S -> Prop) (key : Digest -> Prop) (abs : S -> gmap Digest bytes).
Context `{HB : !BackendSpec B inv quiet key abs} (HH : HasherSpec hasher hash).

(** The bytes stored at a digest, if any, are those it identifies. *)
Definition intact (m : gmap Digest bytes) (d : Digest) : Prop := forall data, m !! d = Some data -> hash data = d.

Lemma Equal_hash data d : d <> [] -> Equal (hash data) d = bool_decide (hash data = d).
Proof.
  intros Hd. unfold Equal. destruct (hs_valid _ _ HH data) as [Hn _].
  destruct (IsZero (hash data)) eqn:E1; [by apply IsZero_true in E1|].
  destruct (IsZero d) eqn:E2; [by apply IsZero_true in E2|]. done.
Qed.

(** Verifying never changes what is stored; a success, under any context,
    found the digest's own bytes. *)
Lemma Verify_sound d c s r c' s' :
  inv s -> Verify B hasher d c s = (r, c', s') ->
  inv s' /\ (quiet s -> quiet s') /\ abs s' = abs s /\
  (is_ok r = true -> is_Some (abs s !! d) /\ intact (abs s) d).
Proof.
  intros Hi H. unfold Verify in H. mstep H as E1; apply ctxErr_inv in E1 as ->; [|done].
  mstep H as E2; apply lift_inv in E2 as (E2 & -> & ->); [|done].
  symmetry in E2. apply CheckDigest_ok_inv in E2 as Hd.
  destruct (hs_Validate hasher d); [munfold; by simplify_eq|].
  mstep H as E3; pose proof (bs_Get _ _ _ _ _ _ Hi E3) as (Hi' & Hq & Ha & Hx); [|by split_and!].
  destruct Hx as (data & Hx & [[_ Hdt] _] & _). mstep H as E4.
  - unfold readThenClose, onReader in E4. destruct (decide (rd_tail (rc_reader x2) = Sentinel EOF)) as [Ht|Ht].
    2:{ destruct (hs_fails _ _ HH x3 (rc_reader x2) Ht) as (? & ? & ? & Hr). rewrite Hr in E4. by destruct (rc_close x2). }
    destruct (hs_reads _ _ HH x3 (rc_reader x2) Ht) as (r' & Hr & _). rewrite Hr in E4.
    rewrite Ht in Hdt. specialize (Hdt eq_refl). subst data.
    destruct (rc_close x2); simplify_eq/=. rewrite Equal_hash in H by done. munfold.
    case_bool_decide; simplify_eq/=; split_and!; try done. intros _. split; [by eexists|].
    unfold intact. rewrite Hx. by intros ? [= <-].
  - unfold readThenClose, onReader in E4. destruct (hs_Digest hasher _ _) as [[? ?] ?].
    simplify_eq. by split_and!.
Qed.

Lemma Verify_quiet d s data :
  inv s -> quiet s -> hs_Validate hasher d = None -> abs s !! d = Some data ->
  exists s', Verify B hasher d [] s =
    (if decide (hash data = d) then Ok tt else Err (Errorf "%w: %s" ErrDigestMismatch), [], s') /\
    inv s' /\ quiet s' /\ abs s' = abs s.
Proof.
  intros Hi Hq Hv Hd. assert (Hne : d <> []) by (eapply bs_key_nonzero, bs_abs_key; eauto).
  destruct (bs_Get_ok B inv quiet key abs d s data Hi Hq Hd) as (rc & s' & E & <- & Ht & Hc & ? & ? & ?).
  exists s'. split; [|done]. unfold Verify. erewrite bind_ok by apply ctxErr_nil.
  erewrite bind_ok by (unfold lift; by rewrite CheckDigest_ok). rewrite Hv. erewrite bind_ok by exact E.
  destruct (hs_reads _ _ HH [] (rc_reader rc) Ht) as (r' & Hr & _).
  erewrite bind_ok by (unfold readThenClose, onReader; rewrite Hr, Hc; reflexivity).
  rewrite Equal_hash by done. munfold. case_bool_decide; by case_decide.
Qed.

(** The digests the loop found damaged. *)
Definition damaged (m : gmap Digest bytes) (d : Digest) : bool :=
  match m !! d with Some data => negb (bool_decide (hash data = d)) | None => false end.

Lemma verifyLoop_sound ds rep c s rep' e c' s' :
  inv s -> verifyLoop B hasher ds rep c s = (Ok (rep', e), c', s') ->
  inv s' /\ abs s' = abs s /\ (exists bad, Bad rep' = Bad rep ++ bad /\ sublist bad ds) /\
  (e = None -> forall d, d ∈ ds -> d ∈ Bad rep' \/ (is_Some (abs s !! d) /\ intact (abs s) d)).
Proof.
  revert rep c s. induction ds as [|d ds IH]; intros rep c s Hi H; simpl in H.
  { munfold. simplify_eq. split_and!; try done; [exists []; by rewrite app_nil_r|].
    intros _ x Hx. by apply not_elem_of_nil in Hx. }
  apply bind_attempt in H as (r0 & c1 & s1 & E1 & H). apply ctxErr_inv in E1 as ->.
  destruct r0; [|munfold; simplify_eq; split_and!; try done; exists []; rewrite app_nil_r; split; [done|apply sublist_nil_l]].
  apply bind_attempt in H as (r1 & c2 & s2 & E2 & H).
  pose proof (Verify_sound _ _ _ _ _ _ Hi E2) as (Hi2 & _ & Ha2 & Hok).
  destruct r1 as [u|ev]; [|destruct (errIs ev ErrDigestMismatch)].
  - apply IH in H as (? & Ha & (bad & Hb & Hs) & Hc); [|done]. rewrite Ha2 in *. split_and!; try done.
    + exists bad. split; [done|by apply sublist_cons].
    + intros He x [->|Hx]%elem_of_cons; [right; by apply Hok|by apply Hc].
  - apply IH in H as (? & Ha & (bad & Hb & Hs) & Hc); [|done]. rewrite Ha2 in *. simpl in Hb. split_and!; try done.
    + exists (d :: bad). rewrite Hb, <- app_assoc. split; [done|by apply sublist_skip].
    + intros He x [->|Hx]%elem_of_cons; [|by apply Hc]. left. rewrite Hb. set_solver.
  - munfold. simplify_eq. split_and!; try done. exists []. rewrite app_nil_r. split; [done|apply sublist_nil_l].
Qed.

Lemma verifyLoop_quiet ds n bad s :
  inv s -> quiet s -> (forall d, d ∈ ds -> is_Some (abs s !! d) /\ hs_Validate hasher d = None) ->
  exists s', verifyLoop B hasher ds (mkReport (int64 n) bad) [] s =
    (Ok (mkReport (int64 (n + blen ds)) (bad ++ filter (fun d => damaged (abs s) d) ds), None), [], s') /\ abs s' = abs s.
Proof.
  revert n bad s. induction ds as [|d ds IH]; intros n bad s Hi Hq Hds; cbn [verifyLoop].
  { exists s. split; [|done]. unfold mret, M_ret. by rewrite Z.add_0_r, app_nil_r. }
  destruct (Hds d) as [[data Hd] Hv]; [set_solver|].
  destruct (Verify_quiet d s data Hi Hq Hv Hd) as (s1 & E & Hi1 & Hq1 & Ha1).
  erewrite bind_ok by (unfold attempt; rewrite ctxErr_nil; reflexivity). cbv beta iota zeta.
  erewrite bind_ok by (unfold attempt; rewrite E; reflexivity). simpl. rewrite int64_add_l.
  destruct (IH (n + 1) bad s1 Hi1 Hq1) as (s2 & E2 & Ha2); [intros; rewrite Ha1; set_solver|].
  destruct (IH (n + 1) (bad ++ [d]) s1 Hi1 Hq1) as (s3 & E3 & Ha3); [intros; rewrite Ha1; set_solver|].
  rewrite Ha1 in *.
  assert (Hlen : n + Z.of_nat (Datatypes.S (length ds)) = n + 1 + blen ds) by lia. rewrite Hlen.
  assert (Hf : filter (fun d => damaged (abs s) d) (d :: ds) =
    (if decide (hash data = d) then [] else [d]) ++ filter (fun d => damaged (abs s) d) ds).
  { assert (Hdam : damaged (abs s) d = negb (bool_decide (hash data = d))) by (unfold damaged; by rewrite Hd).
    rewrite filter_cons. repeat case_decide; rewrite Hdam in *; case_bool_decide; naive_solver. }
  rewrite Hf. destruct (decide (hash data = d)); cbv beta iota.
  - exists s2. split; [exact E2|done].
  - exists s3. split; [|done]. simpl. rewrite E3. by rewrite <- app_assoc.
Qed.

(** C37. Verifying everything finds exactly the damage.  Under any context and
    whatever fails, nothing stored changes, and a report that comes without an
    error misses no damaged object: every listed object outside [Bad] holds
    bytes that hash to its digest.  With a quiet medium and well-formed stored
    digests the report does come, it lists, in order, exactly the digests whose
    bytes hash to something else, and it counts every object. *)
Theorem VerifyAll_spec (s : S) :
  inv s ->
  (forall c rep e c' s', VerifyAll B hasher c s = (Ok (rep, e), c', s') ->
    inv s' /\ abs s' = abs s /\
    (e = None -> forall d, is_Some (abs s !! d) -> d ∈ Bad rep \/ intact (abs s) d)) /\
  (quiet s -> (forall c l c' s', bk_List B c s = (Ok l, c', s') -> Forall key l) ->
   (forall d, is_Some (abs s !! d) -> hs_Validate hasher d = None) ->
   exists rep s', VerifyAll B hasher [] s = (Ok (rep, None), [], s') /\
     Checked rep = int64 (Z.of_nat (size (abs s))) /\
     StronglySorted bytes_le (Bad rep) /\
     (forall d, d ∈ Bad rep <-> is_Some (abs s !! d) /\ ~ intact (abs s) d)).
Proof.
  intros Hi. split.
  - intros c rep e c' s' H. unfold VerifyAll in H. mstep H as E.
    pose proof (bs_List _ _ _ _ _ Hi E) as (Hi1 & _ & Ha1 & _ & _ & Hl).
    apply verifyLoop_sound in H as (? & Ha & _ & Hc); [|done]. rewrite Ha1 in *. split_and!; try done.
    intros He d Hd. destruct (Hc He d); [|by left|right; tauto]. apply Hl; [by eapply (bs_abs_key s)|done].
  - intros Hq Hk Hv. destruct (bs_List_total s Hi Hq) as (l & s1 & E).
    pose proof (bs_List _ _ _ _ _ Hi E) as (Hi1 & Hq1 & Ha1 & Hs & Hnd & Hl).
    apply Hk in E as Hkl. rewrite list.Forall_forall in Hkl.
    assert (Hin : forall d, d ∈ l <-> is_Some (abs s !! d)).
    { intros d. split; [intros Hd; by apply Hl; [apply Hkl|]|].
      intros Hd. apply Hl; [by eapply (bs_abs_key s)|done]. }
    destruct (verifyLoop_quiet l 0 [] s1 Hi1 (Hq1 Hq)) as (s2 & E2 & _).
    { intros d Hd%Hin. rewrite Ha1. auto. }
    eexists _, s2. split; [unfold VerifyAll; erewrite bind_ok by exact E; exact E2|]. simpl. rewrite Ha1. split_and!.
    + f_equal. f_equal. rewrite <- size_dom, <- (size_list_to_set (C := gset Digest)) by done.
      rewrite Z.add_0_l. do 2 f_equal. apply set_eq. intros d. by rewrite elem_of_list_to_set, elem_of_dom, Hin.
    + by apply StronglySorted_filter.
    + intros d. rewrite list_elem_of_filter, Hin. unfold damaged, intact. split.
      * intros [Hdam [data Hd]]. rewrite Hd in *. split; [by eexists|]. intros Hx. by rewrite bool_decide_eq_true_2 in Hdam by auto.
      * intros [[data Hd] Hx]. rewrite Hd in *. split; [|by eexists]. case_bool_decide; [|done].
        destruct Hx. by intros ? [= <-].
Qed.

(** ** Storing a stream *)
(** PutStream stores a stream under its own hash.  Under any context and
    whatever the spool or the backend does, a success names the digest of
    everything the stream held, tells truly whether it was stored before, and
    leaves it stored (adding nothing else, and nothing at all for a duplicate);
    a failure changes no other digest. *)
Theorem PutStream_spec (sf : SpoolFaults) (r : Reader) (s : S) :
  inv s ->
  (forall c d dup c' s', PutStream B hasher sf r c s = (Ok (d, dup), c', s') ->
     rd_tail r = Sentinel EOF /\ d = hash (rd_data r) /\ dup = bool_decide (is_Some (abs s !! d)) /\ inv s' /\
     abs s' = if dup then abs s else <[d := rd_data r]> (abs s)) /\
  (forall c e c' s', PutStream B hasher sf r c s = (Err e, c', s') ->
     inv s' /\ forall d, d <> hash (rd_data r) -> abs s' !! d = abs s !! d).
Proof.
  intros Hi.
  assert (Hgo : forall c res c' s', PutStream B hasher sf r c s = (res, c', s') -> inv s' /\
    match res with
    | Ok (d, dup) => rd_tail r = Sentinel EOF /\ d = hash (rd_data r) /\ dup = bool_decide (is_Some (abs s !! d)) /\
        abs s' = if dup then abs s else <[d := rd_data r]> (abs s)
    | Err _ => forall d, d <> hash (rd_data r) -> abs s' !! d = abs s !! d
    end).
  2:{ split; [intros c d dup c' s' H%Hgo; tauto|intros c e c' s' H%Hgo; tauto]. }
  intros c res c' s' H. unfold PutStream in H.
  mstep H as E; apply ctxErr_inv in E as ->; [|done].
  mstep H as E; apply lift_inv in E as (_ & -> & ->); [|done].
  mstep H as E; apply lift_inv in E as (_ & -> & ->); [|done].
  mstep H as E; apply mapErr_inv in E as (r0 & E & Hr0); unfold onReader, ioReadAll in E; rewrite readAll_quiet in E; simplify_eq/=; [|done].
  destruct (decide (rd_tail r = Sentinel EOF)) as [Ht|]; simplify_eq/=.
  fold (rd_data r) in *.
  mstep H as E; apply ctxErr_inv in E as ->; [|done].
  mstep H as E; apply lift_inv in E as (_ & -> & ->); [|done].
  mstep H as E; apply mapErr_inv in E as (r0 & E & Hr0); unfold onReader in E.
  2:{ destruct (hs_Digest hasher _ _) as [[? ?] ?]. by simplify_eq. }
  match type of E with context [hs_Digest hasher ?c0 ?rd] =>
    destruct (decide (sf_read1 sf = Sentinel EOF)) as [E1|E1];
    [destruct (hs_reads _ _ HH c0 rd E1) as (r' & Hr & _)|destruct (hs_fails _ _ HH c0 rd E1) as (? & ? & ? & Hr)] end;
    rewrite Hr in E; simplify_eq/=.
  rewrite rd_data_one in H.
  mstep H as E; pose proof (bs_Exists _ _ _ _ _ _ Hi E) as (Hi1 & _ & Ha1 & Hx); [|by rewrite Ha1].
  destruct Hx as [_ Hx]. destruct x3; [munfold; simplify_eq; by split_and!|].
  mstep H as E3; apply lift_inv in E3 as (_ & -> & ->); [|by rewrite Ha1].
  mstep H as E3; pose proof (bs_Put _ _ _ _ _ _ _ Hi1 E3) as (Hi2 & _ & Hp).
  - munfold. simplify_eq. destruct Hp as (_ & _ & Hp). rewrite Ha1 in *.
    rewrite rd_data_one in Hp. symmetry in Hx. split_and!; try done.
    apply bool_decide_eq_false in Hx. by destruct Hp as [|[? _]].
  - split; [done|]. intros d Hd. rewrite Ha1 in Hp. unfold put_post in Hp.
    destruct Hp as [-> |[_ [-> |[_ ->]]]]; try done. by rewrite lookup_insert_ne.
Qed.
End VerifyFacts.

(** ** Concrete runs over the memory backend *)
Definition twoObjects : Mem.Mem := Mem.mkMem {[str "a" := str "x"; str "z" := str "yy"]} 0 3.
Lemma twoObjects_inv : Mem.inv twoObjects.
Proof. split; vm_compute; try reflexivity; intros; discriminate. Qed.
Definition sweptObjects : Mem.Mem := Mem.mkMem {[str "a" := str "x"]} 0 1.
Lemma mem_no_statter (P : option (Digest -> M Mem.Mem Z) -> Prop) sz modTime :
  bk_Statter Mem.Backend = Some (sz, modTime) -> P (Some modTime).
Proof. discriminate. Qed.

Lemma sample_Sweep :
  Sweep Mem.Backend {[DString (str "a") := true]} 0 (mkSweepOptions 0 false) [] twoObjects =
    (Ok [str "z"], [], sweptObjects).
Proof. vm_compute. reflexivity. Qed.


Definition listA (d : Digest) : M Mem.Mem (option (list Digest)) := mret (Some (sampleGraph d)).
Lemma listA_graph : lists_graph sampleGraph listA.
Proof. intros d c s refs c' s' H. unfold listA in H. munfold. by simplify_eq. Qed.
Lemma sample_mark : Reachable listA 9 [str "a"] [] twoObjects = (Ok sampleSet, [], twoObjects).
Proof. vm_compute. reflexivity. Qed.
Lemma sample_collect :
  Sweep Mem.Backend sampleSet 0 (mkSweepOptions 0 false) [] twoObjects = (Ok [str "z"], [], sweptObjects).
Proof. vm_compute. reflexivity. Qed.

Example collect_keeps_reachable_witness :
  Mem.inv twoObjects /\ forall d, is_Some (Mem.objects sweptObjects !! d) <->
    is_Some (Mem.objects twoObjects !! d) /\ reach sampleGraph [str "a"] d.
Proof.
  split; [exact twoObjects_inv|].
  exact (proj2 (collect_keeps_reachable Mem.Backend Mem.inv (fun _ => True) Mem.key Mem.objects
    (HB := Mem.mem_BackendSpec) sampleGraph listA 9 [str "a"] sampleSet 0 (mkSweepOptions 0 false)
    [] [] [] [] twoObjects twoObjects sweptObjects (Ok [str "z"])
    (fun sz mt => mem_no_statter (pureStatter Mem.inv (fun _ => True) Mem.objects) sz mt)
    listA_graph sample_mark twoObjects_inv sample_collect) eq_refl eq_refl ltac:(done)).
Defined.

(** One damaged object: its four-byte digest is not the hash of its bytes. *)
Definition damagedObject : Mem.Mem := Mem.mkMem {[str "abcd" := str "x"]} 0 1.
Lemma damagedObject_inv : Mem.inv damagedObject.
Proof. split; vm_compute; try reflexivity; intros; discriminate. Qed.
Lemma damagedObject_valid d : is_Some (Mem.objects damagedObject !! d) -> hs_Validate sumHasher d = None.
Proof.
  simpl. intros [v Hv]. destruct (decide (d = str "abcd")) as [->|Hd]; [vm_compute; reflexivity|].
  rewrite lookup_singleton_ne in Hv by done. discriminate.
Qed.

Example VerifyAll_spec_witness :
  exists rep s', VerifyAll Mem.Backend sumHasher [] damagedObject = (Ok (rep, None), [], s') /\
    Checked rep = int64 (Z.of_nat (size (Mem.objects damagedObject))) /\
    StronglySorted bytes_le (Bad rep) /\
    (forall d, d ∈ Bad rep <-> is_Some (Mem.objects damagedObject !! d) /\ ~ intact sumHash (Mem.objects damagedObject) d).
Proof.
  exact (proj2 (VerifyAll_spec Mem.Backend sumHasher sumHash Mem.inv (fun _ => True) Mem.key Mem.objects
    (HB := Mem.mem_BackendSpec) sumHasher_spec damagedObject damagedObject_inv) I
    (fun c l c' s' => mem_List_keys c l c' damagedObject s') damagedObject_valid).
Defined.

Definition noFaults : SpoolFaults := mkSpoolFaults None None None EOF None EOF.
Example PutStream_spec_witness :
  exists d s', PutStream Mem.Backend sumHasher noFaults (mkReader [str "he"; str "llo"] EOF) [] (Mem.New 0) =
      (Ok (d, false), [], s') /\ d = sumHash (str "hello") /\ Mem.objects s' = <[d := str "hello"]> ∅.
Proof.
  assert (Hi : Mem.inv (Mem.New 0)) by (by apply Mem.mem_New_inv).
  pose proof (proj1 (PutStream_spec Mem.Backend sumHasher sumHash Mem.inv (fun _ => True) Mem.key Mem.objects
    (HB := Mem.mem_BackendSpec) sumHasher_spec noFaults (mkReader [str "he"; str "llo"] EOF) (Mem.New 0) Hi)
    [] (sumHash (str "hello")) false []) as H.
  exists (sumHash (str "hello")), (Mem.mkMem {[sumHash (str "hello") := str "hello"]} 0 5).
  destruct (H (Mem.mkMem {[sumHash (str "hello") := str "hello"]} 0 5)) as (_ & Hd & _ & _ & Ha).
  - vm_compute. reflexivity.
  - split; [vm_compute; reflexivity|]. split; [exact Hd|exact Ha].
Defined.
