(* ===== verification/FileSystem.v ===== *)
(** The operating system as the file backends use it (Go's os, io/fs and
    path/filepath): a tree of entries below the store's base directory, and the
    calls over it, any of which may fail. *)

From S2P Require Import Prelude Stream.

(** ** The tree

    A path is its components below the base; [[]] is the base itself. *)
Abbreviation path := (list bytes).

Inductive entry :=
  | File (data : bytes) (mtime : Z)
  | Directory
  | Symlink (mtime : Z)
  | Other (mtime : Z).

#[export] Instance entry_eq_dec : EqDecision entry.
Proof. solve_decision. Defined.

Definition isDir (e : entry) : bool := match e with Directory => true | _ => false end.
Definition modTime (e : entry) : Z :=
  match e with File _ m | Symlink m | Other m => m | Directory => 0 end.
Definition sizeOf (e : entry) : Z := match e with File data _ => blen data | _ => 0 end.

(** A fault is one call's failure: an error that is none of the library's and
    neither "not exist" nor "exist", and for a read or a write the number of
    bytes that passed before it.  [faults] says, call by call, which fail; once
    it is exhausted none does. *)
Record fault := mkFault { fl_msg : string; fl_partial : nat }.
Record FS := mkFS { tree : gmap path entry; faults : list (option fault); clock : Z }.

Definition popFault : M FS (option fault) := fun c s =>
  match faults s with
  | [] => (Ok None, c, s)
  | f :: rest => (Ok f, c, mkFS (tree s) rest (clock s))
  end.
Definition syscall : M FS unit :=
  f ← popFault;
  match f with Some f => throw (New (fl_msg f)) | None => mret tt end.
Definition setTree (f : gmap path entry -> gmap path entry) : M FS unit :=
  modify (fun s => mkFS (f (tree s)) (faults s) (clock s)).

Definition ENOENT : error := Errorf "no such file or directory" ErrNotExist.
Definition EEXIST : error := Errorf "file exists" ErrExist.
Definition ENOTDIR : error := New "not a directory".
Definition ENOTEMPTY : error := New "directory not empty".
Definition EISDIR : error := New "is a directory".

Section OS.
(** What a path that passes through a symbolic link leads to, outside the tree. *)
Variable outside : path -> option entry.

Inductive found := Absent | NoParent | NotDir | Found (e : entry).

Fixpoint resolveFrom (t : gmap path entry) (follow : bool) (full q : path) (rest : list bytes) : found :=
  match rest, t !! q with
  | [], None => Absent
  | [], Some (Symlink m) =>
    if follow then match outside full with Some e => Found e | None => Absent end else Found (Symlink m)
  | [], Some e => Found e
  | _ :: _, None => NoParent
  | n :: rest', Some Directory => resolveFrom t follow full (q ++ [n]) rest'
  | _ :: _, Some (Symlink _) => match outside full with Some e => Found e | None => NoParent end
  | _ :: _, Some _ => NotDir
  end.
Definition resolve (t : gmap path entry) (follow : bool) (p : path) : found := resolveFrom t follow p [] p.

Definition statWith (follow : bool) (p : path) : M FS entry :=
  syscall;;
  s ← get;
  match resolve (tree s) follow p with
  | Found e => mret e
  | NotDir => throw ENOTDIR
  | Absent | NoParent => throw ENOENT
  end.
Definition os_Stat : path -> M FS entry := statWith true.
Definition os_Lstat : path -> M FS entry := statWith false.

Definition hasChild (t : gmap path entry) (p : path) : bool :=
  existsb (fun kv => bool_decide (kv.1 <> [] /\ removelast kv.1 = p)) (map_to_list t).

Definition os_Remove (p : path) : M FS unit :=
  syscall;;
  s ← get;
  match resolve (tree s) false p with
  | Found Directory => if hasChild (tree s) p then throw ENOTEMPTY else setTree (delete p)
  | Found _ => setTree (delete p)
  | NotDir => throw ENOTDIR
  | Absent | NoParent => throw ENOENT
  end.

(** [os.OpenFile(p, O_CREATE|O_EXCL|O_WRONLY, _)]. *)
Definition os_OpenExcl (p : path) : M FS unit :=
  syscall;;
  s ← get;
  match resolve (tree s) false p with
  | Found _ => throw EEXIST
  | Absent => setTree (<[p := File [] (clock s)]>)
  | NoParent => throw ENOENT
  | NotDir => throw ENOTDIR
  end.

(** [f.Write(data)] on a file opened at [p]: the bytes written and the error. *)
Definition appendTo (p : path) (data : bytes) (s : FS) (rest : list (option fault)) : FS :=
  mkFS (match tree s !! p with
        | Some (File old _) => <[p := File (old ++ data) (clock s)]> (tree s)
        | _ => tree s
        end) rest (clock s).
Definition os_Write (p : path) (data : bytes) (s : FS) : nat * option error * FS :=
  match faults s with
  | Some f :: rest => let n := Nat.min (fl_partial f) (length data) in
                      (n, Some (New (fl_msg f)), appendTo p (take n data) s rest)
  | None :: rest => (length data, None, appendTo p data s rest)
  | [] => (length data, None, appendTo p data s [])
  end.

Definition os_Rename (p q : path) : M FS unit :=
  syscall;;
  s ← get;
  match tree s !! p, resolve (tree s) false q with
  | None, _ | _, NoParent => throw ENOENT
  | _, NotDir => throw ENOTDIR
  | _, Found Directory => throw EEXIST
  | Some e, _ => setTree (fun t => <[q := e]> (delete p t))
  end.

(** [os.MkdirAll]: the missing directories, the outermost first. *)
Definition mkdirMissing (q : path) : M FS unit :=
  s ← get;
  match resolve (tree s) true q with
  | Found Directory => mret tt
  | Found _ | NotDir => throw ENOTDIR
  | NoParent => throw ENOENT
  | Absent => syscall;; setTree (<[q := Directory]>)
  end.
Fixpoint mkdirFrom (q : path) (rest : list bytes) : M FS unit :=
  mkdirMissing q;;
  match rest with
  | [] => mret tt
  | n :: rest' => mkdirFrom (q ++ [n]) rest'
  end.
Definition os_MkdirAll (p : path) : M FS unit := mkdirFrom [] p.

(** [os.Open] of an entry to read: its content, cut short by a failing read. *)
Definition os_Open (p : path) : M FS ReadCloser :=
  syscall;;
  s ← get;
  match resolve (tree s) true p with
  | Found (File data _) =>
    rf ← popFault;
    cf ← popFault;
    mret (mkRC (match rf with
                | None => bytesReader data
                | Some f => mkReader (rd_chunks (bytesReader (take (fl_partial f) data))) (New (fl_msg f))
                end) (option_map (fun f => New (fl_msg f)) cf))
  | Found _ => mret (mkRC (mkReader [] EISDIR) None)
  | NotDir => throw ENOTDIR
  | Absent | NoParent => throw ENOENT
  end.

(** ** [filepath.WalkDir] over the base

    Every entry in lexical order, a directory before what it holds; the
    callback may change the tree and the caller's variables ([B]).  An error
    from the callback ends the walk (none of the callbacks modelled answers a
    directory's read error with nil). *)
Fixpoint path_compare (p q : path) : comparison :=
  match p, q with
  | [], [] => Eq
  | [], _ => Lt
  | _, [] => Gt
  | x :: p', y :: q' => match bytes_compare x y with Eq => path_compare p' q' | c => c end
  end.
Definition entry_before (a b : path * entry) : Prop := path_compare a.1 b.1 <> Gt.
#[export] Instance entry_before_dec : RelDecision entry_before.
Proof. intros a b. unfold entry_before. solve_decision. Defined.
Definition walkOrder (t : gmap path entry) : list (path * entry) := merge_sort entry_before (map_to_list t).

Section Walk.
Context {B : Type}.
Variable fn : path -> entry -> option error -> M (FS * B) unit.

Definition onFS {A} (m : M FS A) : M (FS * B) A := fun c st =>
  match m c st.1 with (r, c', s') => (r, c', (s', st.2)) end.

Definition visitEntry (kv : path * entry) : M (FS * B) unit :=
  let '(p, e) := kv in
  fn p e None;;
  match e with
  | Directory =>
    r ← attempt (onFS syscall);
    match r with Ok _ => mret tt | Err err => fn p e (Some err) end
  | _ => mret tt
  end.

(** The callback's own error is the walk's. *)
Definition WalkDir : M (FS * B) unit :=
  r ← attempt (onFS (os_Lstat []));
  match r with
  | Err err => fn [] Directory (Some err)
  | Ok _ => s ← onFS get; forM_ (walkOrder (tree s)) visitEntry
  end.
End Walk.

(** A walk over a local variable that starts as [b]: its error and the
    variable's last value. *)
Definition withVar {B} (b : B) (m : M (FS * B) unit) : M FS (option error * B) := fun c s =>
  match m c (s, b) with
  | (Ok _, c', (s', b')) => (Ok (None, b'), c', s')
  | (Err e, c', (s', b')) => (Ok (Some e, b'), c', s')
  end.
End OS.

(** ** Lemmas *)

(** What a call leaves: the tree it produced, the same clock, and no new fault. *)
Definition evolves (s : FS) (t : gmap path entry) (s' : FS) : Prop :=
  tree s' = t /\ clock s' = clock s /\ (faults s = [] -> faults s' = []).
(** A failure that no test of the library recognises. *)
Definition plain (e : error) : Prop := forall x, errIs e x = false.

Lemma evolves_refl s : evolves s (tree s) s.
Proof. done. Qed.
Lemma evolves_trans s t s1 t' s' : evolves s t s1 -> evolves s1 t' s' -> evolves s t' s'.
Proof. intros (? & ? & ?) (? & ? & ?). split_and!; [done|congruence|auto]. Qed.

Lemma popFault_inv c s r c' s' : popFault c s = (r, c', s') ->
  c' = c /\ evolves s (tree s) s' /\ exists f, r = Ok f /\ (faults s = [] -> f = None).
Proof.
  unfold popFault, evolves. destruct (faults s) eqn:E; intros; simplify_eq/=;
    split_and!; try done; try (intros; congruence); eexists; (split; [done|]); intros; congruence.
Qed.
Lemma syscall_inv c s r c' s' :
  syscall c s = (r, c', s') ->
  c' = c /\ evolves s (tree s) s' /\ (faults s = [] -> r = Ok tt) /\ (forall e, r = Err e -> plain e).
Proof.
  unfold syscall, popFault, evolves. munfold. destruct (faults s) as [|[f|] rest] eqn:E; intros; simplify_eq/=;
    split_and!; try done.
  by intros e [= <-].
Qed.

Section TreeLemmas.
Variable outside : path -> option entry.
Implicit Types (t : gmap path entry) (p q : path).

(** Every entry but the base has its parent directory. *)
Definition parents t : Prop := forall p n e, t !! (p ++ [n]) = Some e -> t !! p = Some Directory.
(** No entry on the way to [p] is anything but a directory. *)
Definition clear t p : Prop := forall q k, p = q ++ k -> k <> [] -> t !! q = None \/ t !! q = Some Directory.

Lemma parents_prefix t q k e : parents t -> t !! (q ++ k) = Some e -> k <> [] -> t !! q = Some Directory.
Proof.
  intros Hp. revert e. induction k as [|n k IH] using rev_ind; intros e He Hk; [done|].
  rewrite app_assoc in He. apply Hp in He. destruct (decide (k = [])) as [->|Hne]; [by rewrite app_nil_r in He|].
  by eapply IH.
Qed.

Lemma resolveFrom_present t follow full q rest e :
  parents t -> t !! (q ++ rest) = Some e -> (forall m, e = Symlink m -> follow = false) ->
  resolveFrom outside t follow full q rest = Found e.
Proof.
  intros Hp. revert q. induction rest as [|n rest IH]; intros q He Hs; cbn [resolveFrom].
  - rewrite app_nil_r in He. rewrite He. destruct e; try done. by rewrite (Hs mtime).
  - rewrite (parents_prefix t q (n :: rest) e) by done. apply IH; [by rewrite <- app_assoc|done].
Qed.
Lemma resolve_present t follow p e :
  parents t -> t !! p = Some e -> (forall m, e = Symlink m -> follow = false) -> resolve outside t follow p = Found e.
Proof. intros. by apply resolveFrom_present. Qed.

Lemma resolveFrom_absent t follow full q rest :
  clear t (q ++ rest) -> t !! (q ++ rest) = None ->
  resolveFrom outside t follow full q rest = Absent \/
  (resolveFrom outside t follow full q rest = NoParent /\ exists l n k, rest = l ++ n :: k /\ t !! (q ++ l) = None).
Proof.
  revert q. induction rest as [|n rest IH]; intros q Hc He; cbn [resolveFrom].
  - rewrite app_nil_r in He. rewrite He. by left.
  - destruct (Hc q (n :: rest) eq_refl) as [Hq|Hq]; [done| |]; rewrite Hq.
    + right. split; [done|]. exists [], n, rest. split; [done|]. by rewrite app_nil_r.
    + destruct (IH (q ++ [n])) as [?|[? (l & m & k & -> & Hl)]]; [by rewrite <- app_assoc..|by left|right].
      split; [done|]. exists (n :: l), m, k. split; [done|]. by rewrite <- app_assoc in Hl.
Qed.
Lemma resolve_absent t follow p :
  clear t p -> t !! p = None -> resolve outside t follow p = Absent \/ resolve outside t follow p = NoParent.
Proof. intros Hc Hp. destruct (resolveFrom_absent t follow p [] p) as [?|[? _]]; auto. Qed.
Lemma resolve_child t follow q n :
  parents t -> t !! q = Some Directory -> t !! (q ++ [n]) = None -> resolve outside t follow (q ++ [n]) = Absent.
Proof.
  intros Hp Hq Hn.
  assert (Hc : clear t ([] ++ (q ++ [n]))).
  { intros q0 k Hk Hne. right. simpl in Hk. destruct (decide (q0 = q)) as [->|Hne0]; [done|].
    assert (exists k', q = q0 ++ k' /\ k' <> []) as (k' & -> & Hk').
    { destruct (exists_last Hne) as (k' & n' & ->). rewrite app_assoc in Hk.
      apply app_inj_tail in Hk as [-> ->]. exists k'. split; [done|]. intros ->. by rewrite app_nil_r in Hne0. }
    by eapply parents_prefix. }
  destruct (resolveFrom_absent t follow (q ++ [n]) [] (q ++ [n])) as [?|[_ (l & m & k & Hk & Hl)]]; try done.
  simpl in *. destruct (Hc l (m :: k) Hk) as [_|Hl']; [done| |congruence].
  assert (exists k', q = l ++ k') as [k' ->].
  { destruct (@exists_last _ (m :: k)) as (k' & n' & Hk'); [done|]. rewrite Hk', app_assoc in Hk.
    apply app_inj_tail in Hk as [-> _]. eauto. }
  destruct (decide (k' = [])) as [->|]; [rewrite app_nil_r in *; congruence|].
  rewrite (parents_prefix t l k' Directory) in Hl by done. done.
Qed.

(** ** The calls *)
Lemma statWith_inv follow p c s r c' s' :
  statWith outside follow p c s = (r, c', s') ->
  c' = c /\ evolves s (tree s) s' /\
  match r with
  | Ok e => resolve outside (tree s) follow p = Found e
  | Err e => (faults s <> [] /\ plain e) \/
      (e = ENOTDIR /\ resolve outside (tree s) follow p = NotDir) \/
      (e = ENOENT /\ (resolve outside (tree s) follow p = Absent \/ resolve outside (tree s) follow p = NoParent))
  end.
Proof.
  intros H. unfold statWith in H. mstep H as E with u c1 s1; apply syscall_inv in E as (-> & Hs & Hq & Hpl).
  - unfold get in H. munfold. pose proof Hs as (Ht & _). rewrite Ht in H.
    destruct (resolve outside (tree s) follow p) eqn:Er; simplify_eq; split_and!; auto.
  - split_and!; try done. left. split; [|by apply Hpl]. by intros ?%Hq.
Qed.

Lemma os_Remove_inv p c s r c' s' :
  os_Remove outside p c s = (r, c', s') ->
  c' = c /\
  match r with
  | Ok _ => evolves s (delete p (tree s)) s' /\
      exists e, resolve outside (tree s) false p = Found e /\ (e = Directory -> hasChild (tree s) p = false)
  | Err e => evolves s (tree s) s' /\
      ((faults s <> [] /\ plain e) \/
       (e = ENOTEMPTY /\ resolve outside (tree s) false p = Found Directory) \/
       (e = ENOTDIR /\ resolve outside (tree s) false p = NotDir) \/
       (e = ENOENT /\ (resolve outside (tree s) false p = Absent \/ resolve outside (tree s) false p = NoParent)))
  end.
Proof.
  intros H. unfold os_Remove in H. mstep H as E with u c1 s1; apply syscall_inv in E as (-> & Hs & Hq & Hpl).
  - unfold get, setTree in H. munfold. pose proof Hs as (Ht & Hck & Hqu). rewrite Ht in H.
    assert (Hdel : evolves s (delete p (tree s)) (mkFS (delete p (tree s1)) (faults s1) (clock s1))).
    { unfold evolves. cbn. rewrite Ht. auto. }
    destruct (resolve outside (tree s) false p) as [| | |e] eqn:Er;
      [simplify_eq; split; [done|]; split; [done|]; auto 10..|].
    destruct e; try (destruct (hasChild (tree s) p) eqn:Hch); simplify_eq; (split; [done|]);
      try (split; [done|]; auto 10; fail); (split; [done|]; eexists; done).
  - split; [done|]. split; [done|]. left. split; [|by apply Hpl]. by intros ?%Hq.
Qed.

Lemma os_OpenExcl_inv p c s r c' s' :
  os_OpenExcl outside p c s = (r, c', s') ->
  c' = c /\
  match r with
  | Ok _ => evolves s (<[p := File [] (clock s)]> (tree s)) s' /\ resolve outside (tree s) false p = Absent
  | Err e => evolves s (tree s) s' /\ ((faults s <> [] /\ plain e) \/ resolve outside (tree s) false p <> Absent)
  end.
Proof.
  intros H. unfold os_OpenExcl in H. mstep H as E with u c1 s1; apply syscall_inv in E as (-> & Hs & Hq & Hpl).
  - unfold get, setTree in H. munfold. pose proof Hs as (Ht & Hck & Hqu). rewrite Ht in H.
    destruct (resolve outside (tree s) false p) eqn:Er; simplify_eq; (split; [done|]); (split; [|auto; by right]); try done.
    unfold evolves. cbn. rewrite Ht, Hck. auto.
  - split; [done|]. split; [done|]. left. split; [|by apply Hpl]. by intros ?%Hq.
Qed.

Lemma os_Write_inv p data old m s n werr s' :
  tree s !! p = Some (File old m) -> os_Write p data s = (n, werr, s') ->
  evolves s (<[p := File (old ++ take n data) (clock s)]> (tree s)) s' /\ (n <= length data)%nat /\
  (werr = None -> n = length data) /\ (faults s = [] -> werr = None).
Proof.
  intros Hp H. unfold os_Write, appendTo, evolves in *. rewrite Hp in H.
  destruct (faults s) as [|[f|] rest] eqn:E; simplify_eq/=; rewrite ?firstn_all;
    (split; [by split_and!|]); split_and!; try done; lia.
Qed.

Lemma os_Rename_inv p q e c s r c' s' :
  tree s !! p = Some e -> os_Rename outside p q c s = (r, c', s') ->
  c' = c /\
  match r with
  | Ok _ => evolves s (<[q := e]> (delete p (tree s))) s'
  | Err _ => evolves s (tree s) s' /\
      (faults s <> [] \/ resolve outside (tree s) false q = Found Directory \/
       resolve outside (tree s) false q = NoParent \/ resolve outside (tree s) false q = NotDir)
  end.
Proof.
  intros Hp H. unfold os_Rename in H. mstep H as E with u c1 s1; apply syscall_inv in E as (-> & Hs & Hq & _).
  - unfold get, setTree in H. munfold. pose proof Hs as (Ht & Hck & Hqu). rewrite Ht, Hp in H.
    assert (Hmv : evolves s (<[q := e]> (delete p (tree s))) (mkFS (<[q := e]> (delete p (tree s1))) (faults s1) (clock s1))).
    { unfold evolves. cbn. rewrite Ht. auto. }
    destruct (resolve outside (tree s) false q) as [| | |[]] eqn:Er; simplify_eq; (split; [done|]); auto 10.
  - split; [done|]. split; [done|]. left. by intros ?%Hq.
Qed.

Lemma os_Open_inv p c s r c' s' :
  os_Open outside p c s = (r, c', s') ->
  c' = c /\ evolves s (tree s) s' /\
  match r with
  | Ok rc => exists e, resolve outside (tree s) true p = Found e /\
      forall data m, e = File data m ->
        serves rc data /\
        (faults s = [] -> rd_tail (rc_reader rc) = Sentinel EOF /\ rc_close rc = None)
  | Err e => (faults s <> [] /\ plain e) \/
      (e = ENOTDIR /\ resolve outside (tree s) true p = NotDir) \/
      (e = ENOENT /\ (resolve outside (tree s) true p = Absent \/ resolve outside (tree s) true p = NoParent))
  end.
Proof.
  intros H. unfold os_Open in H. mstep H as E with u c1 s1; apply syscall_inv in E as (-> & Hs & Hq & Hpl).
  2:{ split_and!; try done. left. split; [|by apply Hpl]. by intros ?%Hq. }
  unfold get in H. munfold. pose proof Hs as (Ht & Hck & Hqu). rewrite Ht in H.
  destruct (resolve outside (tree s) true p) as [| | |e] eqn:Er; [simplify_eq; split_and!; auto 10..|].
  destruct e as [data m| | |]; [|simplify_eq; split_and!; try done; eexists; split; [done|]; by intros ? ? [=]..].
  destruct (popFault c s1) as [[r1 c1] s2] eqn:E1. apply popFault_inv in E1 as (-> & Hs1 & f1 & -> & Hf1).
  destruct (popFault c s2) as [[r2 c2] s3] eqn:E2. apply popFault_inv in E2 as (-> & Hs2 & f2 & -> & Hf2).
  simplify_eq. split; [done|]. split.
  { destruct Hs1 as (? & ? & ?), Hs2 as (? & ? & ?). unfold evolves. split_and!; [congruence..|auto]. }
  eexists. split; [done|]. intros data0 m0 [= -> ->]. destruct Hs1 as (_ & _ & Hq1). split.
  - split_and!; [destruct f1 as [f|]; [apply reads_cut|apply reads_bytesReader]|by destruct f1|]. destruct f2; by intros e [= <-].
  - intros Hf. rewrite Hf1, Hf2 by auto. done.
Qed.

(** Making the missing directories of a path no link is on. *)
Record madeDirs (q : path) (rest : list bytes) (s s' : FS) : Prop := {
  md_clock : clock s' = clock s;
  md_quiet : faults s = [] -> faults s' = [];
  md_parents : parents (tree s');
  md_tree : forall p, tree s' !! p = tree s !! p \/
    (tree s !! p = None /\ tree s' !! p = Some Directory /\ exists k1 k2, rest = k1 ++ k2 /\ p = q ++ k1);
}.

Lemma clear_prefix t p k : clear t (p ++ k) -> clear t p.
Proof. intros Hc q k' -> Hk'. apply (Hc q (k' ++ k)); [by rewrite app_assoc|]. by destruct k'. Qed.
Lemma app_self_nil {A} (l k : list A) : l = l ++ k -> k = [].
Proof. intros E. apply (f_equal length) in E. rewrite length_app in E. destruct k; [done|simpl in E; lia]. Qed.

Lemma madeDirs_refl q rest s : parents (tree s) -> madeDirs q rest s s.
Proof. intros. split; auto. Qed.

Lemma mkdirOne q c s r c' s' :
  parents (tree s) -> clear (tree s) q -> (q = [] \/ exists q0 n, q = q0 ++ [n] /\ tree s !! q0 = Some Directory) ->
  (tree s !! q = None \/ tree s !! q = Some Directory) ->
  mkdirMissing outside q c s = (r, c', s') ->
  c' = c /\ madeDirs q [] s s' /\ (r = Ok tt -> tree s' !! q = Some Directory) /\ (faults s = [] -> r = Ok tt).
Proof.
  intros Hp Hc Hpar Hq H. unfold mkdirMissing in H.
  destruct Hq as [Hq|Hq].
  - assert (HA : resolve outside (tree s) true q = Absent).
    { destruct Hpar as [-> |(q0 & n & -> & H0)]; [unfold resolve; simpl; by rewrite Hq|by apply resolve_child]. }
    unfold get in H. mstep H as E with s0 c0 s1; [injection E as <- <- <-|discriminate E]. rewrite HA in H.
    mstep H as E with u c1 s1; apply syscall_inv in E as (-> & (Ht & Hck & Hqu) & Hok & _).
    + unfold setTree in H. munfold. simplify_eq. split_and!; try done; [|intros _; cbn; apply lookup_insert_eq].
      split; cbn; try done.
      * intros p n e. rewrite Ht. destruct (decide (p ++ [n] = q)) as [<-|Hne].
        { intros _. destruct Hpar as [Hnil|(q0 & n0 & Heq & H0)]; [by destruct p|].
          apply app_inj_tail in Heq as [-> ->]. rewrite lookup_insert_ne; [done|].
          intros Hx. symmetry in Hx. by apply app_self_nil in Hx. }
        rewrite lookup_insert_ne by done. intros He%Hp. rewrite lookup_insert. case_decide; [|done]. done.
      * intros p. rewrite Ht. destruct (decide (q = p)) as [->|Hne]; [|left; by rewrite lookup_insert_ne].
        right. rewrite lookup_insert_eq. split_and!; try done. exists [], []. split; [done|by rewrite app_nil_r].
    + split_and!; try done. split; try done; rewrite ?Ht; auto.
  - unfold get in H. mstep H as E with s0 c0 s1; [injection E as <- <- <-|discriminate E].
    rewrite (resolve_present _ true q Directory) in H by done. munfold. simplify_eq.
    split_and!; try done. by apply madeDirs_refl.
Qed.

Lemma madeDirs_trans q n rest s s1 s' :
  madeDirs q [] s s1 -> madeDirs (q ++ [n]) rest s1 s' -> madeDirs q (n :: rest) s s'.
Proof.
  intros [Hk1 Hq1 _ Ht1] [Hk2 Hq2 Hp2 Ht2]. split; [congruence|auto|done|].
  assert (Hfst : forall k1 k2, [] = k1 ++ k2 -> k1 = ([] : path)) by (by intros [] ?).
  intros p. destruct (Ht1 p) as [E1|(HN & HD & k1 & k2 & Hk%Hfst & Hp1)], (Ht2 p) as [E2|(HN' & HD' & l1 & l2 & Hl & Hp')].
  - left. congruence.
  - right. split_and!; [congruence|done|]. exists (n :: l1), l2. split; [by rewrite Hl|]. by rewrite Hp', <- app_assoc.
  - right. split_and!; [done|congruence|]. exists [], (n :: rest). split; [done|]. by rewrite Hp1, Hk.
  - congruence.
Qed.

Lemma mkdirFrom_inv q rest c s r c' s' :
  parents (tree s) -> clear (tree s) (q ++ rest) ->
  (q = [] \/ exists q0 n, q = q0 ++ [n] /\ tree s !! q0 = Some Directory) ->
  (tree s !! (q ++ rest) = None \/ tree s !! (q ++ rest) = Some Directory) ->
  mkdirFrom outside q rest c s = (r, c', s') ->
  c' = c /\ madeDirs q rest s s' /\ (r = Ok tt -> tree s' !! (q ++ rest) = Some Directory) /\ (faults s = [] -> r = Ok tt).
Proof.
  revert q c s. induction rest as [|n rest IH]; intros q c s Hp Hc Hpar Hend H; cbn [mkdirFrom] in H.
  - rewrite app_nil_r in *. mstep H as E with u c1 s1; apply mkdirOne in E as (-> & Hm & Hok & Hq); try done.
    munfold. destruct u. simplify_eq. by split_and!.
  - assert (Hq : tree s !! q = None \/ tree s !! q = Some Directory) by (by apply (Hc q (n :: rest))).
    assert (Hcq : clear (tree s) q) by by eapply clear_prefix.
    mstep H as E with u c1 s1; apply mkdirOne in E as (-> & Hm & Hok & Hqu); try done.
    + destruct u. specialize (Hok eq_refl). destruct Hm as [Hck Hqs Hpp Htr].
      assert (Hsame : forall p, p <> q -> tree s1 !! p = tree s !! p).
      { intros p Hne. destruct (Htr p) as [?|(_ & _ & k1 & k2 & Hk & ->)]; [done|]. destruct k1; [|done]. by rewrite app_nil_r in Hne. }
      apply IH in H as (-> & Hm2 & Hok2 & Hqu2); rewrite <- ?app_assoc in *; try done; cbn [app] in *.
      * split_and!; try done; [by eapply madeDirs_trans|]. intros Hf. apply Hqu2, Hqs, Hf.
      * intros q0 k Hk Hne. destruct (decide (q0 = q)) as [->|]; [by right|]. rewrite Hsame by done. by apply (Hc q0 k).
      * right. by exists q, n.
      * rewrite Hsame; [done|]. intros Hx. symmetry in Hx. by apply app_self_nil in Hx.
    + split_and!; try done. destruct Hm as [Hck Hqs Hpp Htr]. split; try done.
      intros p. destruct (Htr p) as [?|(? & ? & k1 & k2 & Hk & ->)]; [by left|right]. destruct k1; [|done].
      split_and!; try done. by exists [], (n :: rest).
Qed.

Lemma parents_insert t q n e :
  parents t -> t !! q = Some Directory -> t !! (q ++ [n]) <> Some Directory -> parents (<[q ++ [n] := e]> t).
Proof.
  intros Hp Hq Hn q' n' e'. destruct (decide (q' ++ [n'] = q ++ [n])) as [E|Hne].
  - apply app_inj_tail in E as [-> ->]. intros _. rewrite lookup_insert_ne; [done|].
    intros Hx. symmetry in Hx. by apply app_self_nil in Hx.
  - rewrite lookup_insert_ne by done. intros Hq'%Hp. rewrite lookup_insert_ne; [done|]. intros <-. done.
Qed.
Lemma parents_delete t q : parents t -> t !! q <> Some Directory -> parents (delete q t).
Proof.
  intros Hp Hq q' n' e'. rewrite lookup_delete. case_decide; [done|]. intros He%Hp.
  rewrite lookup_delete_ne; [done|]. by intros ->.
Qed.
End TreeLemmas.

(** ** The walk *)
Lemma onFS_syscall {T} c (st : FS * T) r c' st' :
  onFS syscall c st = (r, c', st') ->
  c' = c /\ st'.2 = st.2 /\ evolves st.1 (tree st.1) st'.1 /\ (faults st.1 = [] -> r = Ok tt) /\ (forall e, r = Err e -> plain e).
Proof.
  unfold onFS. destruct (syscall c st.1) as [[r0 c0] s0] eqn:E. intros. simplify_eq.
  apply syscall_inv in E as (-> & ? & ? & ?). by split_and!.
Qed.
Lemma walkOrder_perm t : Permutation (walkOrder t) (map_to_list t).
Proof. apply merge_sort_Permutation. Qed.
Lemma elem_of_walkOrder t (kv : path * entry) : kv ∈ walkOrder t <-> t !! kv.1 = Some kv.2.
Proof. rewrite walkOrder_perm. destruct kv. apply elem_of_map_to_list. Qed.
