(* ===== verification/AtomicFile.v ===== *)
(** Publishing a file in one step (src/cas/internal/atomicfile/atomicfile.go)
    and the context-checked copy it is written through
    (src/cas/backend/context.go). *)

From S2P Require Import Prelude Stream FileSystem.
From stdpp Require Import pretty.
Open Scope Z_scope.

(** ** [ContextReader.WriteTo]

    The copy loop with a buffer of [bufSize] bytes, over any destination state;
    the number of bytes written, which only [io.Copy]'s caller could ask for,
    is dropped by every caller modelled. *)
Section WriteTo.
Context {S : Type}.
Variable bufSize : nat.
Variable write : bytes -> S -> nat * option error * S.

Fixpoint writeTo_go (fuel : nat) (c : ctx) (r : Reader) (s : S) : res unit * ctx * S :=
  match fuel with
  | O => (Err (New "out of fuel"), c, s)
  | Datatypes.S fuel =>
    match chk true c with
    | (Err e, c') => (Err e, c', s)
    | (Ok _, c') =>
      let '(buf, rerr, r') := readOnce bufSize r in
      let '(wn, werr, s') := match buf with [] => (0%nat, None, s) | _ => write buf s end in
      match werr with
      | Some e => (Err e, c', s')
      | None =>
        if (wn <? length buf)%nat then (Err ErrShortWrite, c', s')
        else match rerr with
             | Some e => (if decide (e = Sentinel EOF) then Ok tt else Err e, c', s')
             | None => writeTo_go fuel c' r' s'
             end
      end
    end
  end.
Definition WriteTo (r : Reader) : M S unit := fun c s =>
  writeTo_go (1 + length (rd_chunks r) + length (rd_data r)) c r s.

(** [backend.WriteAll] over the same destinations. *)
Fixpoint writeAllTo_go (fuel : nat) (data : bytes) : M S unit := fun c s =>
  match fuel, data with
  | _, [] => (Ok tt, c, s)
  | O, _ => (Err (New "out of fuel"), c, s)
  | Datatypes.S fuel, _ =>
    match chk true c with
    | (Err e, c') => (Err e, c', s)
    | (Ok _, c') =>
      let '(n, werr, s') := write data s in
      match werr with
      | Some e => (Err e, c', s')
      | None => if Nat.eqb n 0 then (Err ErrShortWrite, c', s') else writeAllTo_go fuel (drop n data) c' s'
      end
    end
  end.
Definition WriteAllTo (data : bytes) : M S unit := writeAllTo_go (length data) data.
End WriteTo.

Definition copyBufSize : nat := Z.to_nat (32 * 1024).

(** ** Phases *)
Definition PhaseDir : Z := 1.
Definition PhaseTemp : Z := 2.
Definition PhaseWrite : Z := 3.
Definition PhaseSync : Z := 4.
Definition PhaseClose : Z := 5.
Definition PhasePublish : Z := 6.
Definition PhaseDirSync : Z := 7.

Definition PhaseString (p : Z) : string :=
  if p =? PhaseDir then "create directory"
  else if p =? PhaseTemp then "create temp file"
  else if p =? PhaseWrite then "write temp file"
  else if p =? PhaseSync then "sync temp file"
  else if p =? PhaseClose then "close temp file"
  else if p =? PhasePublish then "publish"
  else if p =? PhaseDirSync then "sync directory"
  else "publish".

(** [errors.As(err, &pubErr)]: the first [*Error] of the chain. *)
Fixpoint FailedPhase (err : error) : option (Z * error) :=
  match err with
  | Phased p cause => Some (p, cause)
  | Errorf _ e => FailedPhase e
  | Errorf2 _ e1 e2 => match FailedPhase e1 with Some r => Some r | None => FailedPhase e2 end
  | Sentinel _ | New _ | UnknownType _ _ => None
  end.

(** ** Temp names *)
Definition itoa (i : nat) : bytes := str (pretty (N.of_nat i)).
Definition tempSuffix (i : nat) : bytes :=
  str ".tmp" ++ match i with O => [] | _ => str "." ++ itoa i end.

(** [path + ".tmp"], [path + ".tmp.1"], ...: the last component grows. *)
Definition appendName (p : path) (suffix : bytes) : path :=
  match reverse p with [] => [] | leaf :: dir => reverse dir ++ [leaf ++ suffix] end.
Definition tempPath (p : path) (i : nat) : path := appendName p (tempSuffix i).

(** [strings.Cut(name, sep)]. *)
Fixpoint hasPrefix (p s : bytes) : option bytes :=
  match p, s with
  | [], _ => Some s
  | x :: p', y :: s' => if decide (x = y) then hasPrefix p' s' else None
  | _ :: _, [] => None
  end.
Fixpoint Cut (s sep : bytes) : option (bytes * bytes) :=
  match hasPrefix sep s with
  | Some after => Some ([], after)
  | None => match s with
            | [] => None
            | x :: s' => match Cut s' sep with Some (b, a) => Some (x :: b, a) | None => None end
            end
  end.

(** [strconv.Atoi(s)] succeeds: an optional sign, decimal digits, in range. *)
Definition isDigit (b : byte) : bool := (b2z (x30) <=? b2z b) && (b2z b <=? b2z (x39)).
Definition decimal (s : bytes) : Z := fold_left (fun acc b => acc * 10 + (b2z b - 48)) s 0.
Definition atoiOk (s : bytes) : bool :=
  let '(neg, ds) := match s with
                    | x2b :: ds => (false, ds)
                    | x2d :: ds => (true, ds)
                    | _ => (false, s)
                    end in
  negb (bool_decide (ds = [])) && forallb isDigit ds
  && (if (neg : bool) then decimal ds <=? 2^63 else decimal ds <? 2^63).

Definition IsTempFile (name : bytes) : bool :=
  match Cut name (str ".tmp") with
  | None => false
  | Some (_, []) => true
  | Some (_, x :: rest) => if decide (x = x2e) then atoiOk rest else false
  end.

(** ** Publish *)
Record Options := mkOptions { SyncDir : bool; ExistingIsSuccess : bool }.

Section Publish.
Variable outside : path -> option entry.

Fixpoint createTemp_go (fuel i : nat) (p : path) : M FS path :=
  match fuel with
  | O => throw (New "temp name exhausted for %s")
  | S fuel =>
    r ← attempt (os_OpenExcl outside (tempPath p i));
    match r with
    | Ok _ => mret (tempPath p i)
    | Err e => if errIs e ErrExist then createTemp_go fuel (S i) p else throw e
    end
  end.
Definition createTemp (p : path) : M FS path := createTemp_go (Z.to_nat 10000) 0 p.

(** A removal whose error is discarded. *)
Definition tryRemove (p : path) : M FS unit :=
  attempt (os_Remove outside p);;
  mret tt.
Definition discard (tmp : path) : M FS unit :=
  attempt syscall;;
  tryRemove tmp.

Definition phase (p : Z) : error -> error := Phased p.

(** A call whose failure runs [cleanup] and is then reported. *)
Definition orElse {A} (m : M FS A) (cleanup : M FS unit) (f : error -> error) : M FS A :=
  r ← attempt m;
  match r with
  | Ok a => mret a
  | Err e => cleanup;; throw (f e)
  end.

(** Everything after the temp file's creation. *)
Definition publishTemp (tmp p : path) (r : Reader) (opts : Options) : M FS unit :=
  orElse (WriteTo copyBufSize (os_Write tmp) r) (discard tmp) (phase PhaseWrite);;
  orElse syscall (discard tmp) (phase PhaseSync);;
  orElse syscall (tryRemove tmp) (phase PhaseClose);;
  orElse ctxErr (tryRemove tmp) id;;
  renamed ← attempt (os_Rename outside tmp p);
  match renamed with
  | Ok _ => if SyncDir opts then mapErr (phase PhaseDirSync) syscall else mret tt
  | Err e =>
    held ← (if ExistingIsSuccess opts then
              st ← attempt (os_Stat outside p);
              mret (match st with Ok (File _ _) => true | _ => false end)
            else mret false);
    tryRemove tmp;;
    if (held : bool) then mret tt else throw (Phased PhasePublish e)
  end.

Definition Publish (p : path) (r : Reader) (opts : Options) : M FS unit :=
  ctxErr;;
  mapErr (phase PhaseDir) (os_MkdirAll outside (removelast p));;
  ctxErr;;
  tmp ← mapErr (phase PhaseTemp) (createTemp p);
  publishTemp tmp p r opts.
End Publish.

(** ** Lemmas *)
(** A destination that adds what it accepts to the end of a file. *)
Definition appends (p : path) (write : bytes -> FS -> nat * option error * FS) : Prop :=
  forall data old m s n werr s', tree s !! p = Some (File old m) -> write data s = (n, werr, s') ->
    (exists m', evolves s (<[p := File (old ++ take n data) m']> (tree s)) s') /\ (werr = None -> n = length data).
Lemma os_Write_appends p : appends p (os_Write p).
Proof. intros data old m s n werr s' Hp H. apply (os_Write_inv p data old m) in H as (He & _ & Hn & _); [|done]. eauto. Qed.
Lemma evolves_append_nil p old m s : tree s !! p = Some (File old m) -> evolves s (<[p := File (old ++ []) m]> (tree s)) s.
Proof. intros Hp. rewrite app_nil_r, insert_id by done. apply evolves_refl. Qed.
Lemma evolves_append_app p old x k m1 m' s s1 s' :
  evolves s (<[p := File (old ++ x) m1]> (tree s)) s1 -> evolves s1 (<[p := File ((old ++ x) ++ k) m']> (tree s1)) s' ->
  evolves s (<[p := File (old ++ x ++ k) m']> (tree s)) s'.
Proof.
  intros He He'. pose proof He as (Hts & _). rewrite Hts, insert_insert_eq, <- app_assoc in He'. by eapply evolves_trans.
Qed.

Lemma writeTo_appends bufSize write fuel tmp old m c r s res c' s' :
  appends tmp write -> (0 < bufSize)%nat -> tree s !! tmp = Some (File old m) ->
  writeTo_go bufSize write fuel c r s = (res, c', s') ->
  exists k m', evolves s (<[tmp := File (old ++ k) m']> (tree s)) s' /\
    (res = Ok tt -> k = rd_data r /\ rd_tail r = Sentinel EOF).
Proof.
  intros Hw0 Hb. revert old m c r s. induction fuel as [|fuel IH]; intros old m c r s Ht H; cbn [writeTo_go] in H.
  { simplify_eq. exists [], m. split; [by apply evolves_append_nil|done]. }
  destruct (chk true c) as [[u|e] c1].
  2:{ simplify_eq. exists [], m. split; [by apply evolves_append_nil|done]. }
  destruct (readOnce bufSize r) as [[buf rerr] r1] eqn:ER. apply readOnce_step in ER as [Htl Hr]; [|done].
  assert (Hw : exists wn werr s1, (match buf with [] => (0%nat, None, s) | _ => write buf s end) = (wn, werr, s1) /\
    exists m1, evolves s (<[tmp := File (old ++ take wn buf) m1]> (tree s)) s1 /\ (werr = None -> wn = length buf)).
  { destruct buf as [|b buf].
    - exists 0%nat, None, s. split; [done|]. exists m. rewrite take_nil. split; [by apply evolves_append_nil|done].
    - destruct (write (b :: buf) s) as [[wn werr] s1] eqn:EW. exists wn, werr, s1. split; [done|].
      apply (Hw0 (b :: buf) old m) in EW as ([m1 He] & Hn); [|done]. eauto. }
  destruct Hw as (wn & werr & s1 & EW & m1 & He & Hn). rewrite EW in H.
  destruct werr as [we|]; [simplify_eq; exists (take wn buf), m1; by split|].
  rewrite (Hn eq_refl), firstn_all in *. rewrite Nat.ltb_irrefl in H.
  destruct rerr as [e|].
  - destruct Hr as (Hcs & -> & ->). simplify_eq. exists [], m1. split; [done|].
    unfold rd_data. rewrite Hcs. case_decide; by intros.
  - pose proof He as (Hts & _). apply (IH (old ++ buf) m1) in H as (k & m' & He' & Hok); [|rewrite Hts; apply lookup_insert_eq].
    exists (buf ++ k), m'. split; [by eapply evolves_append_app|].
    intros ?%Hok. rewrite (proj1 Hr), <- Htl. naive_solver.
Qed.
Lemma writeTo_file bufSize fuel tmp old m c r s res c' s' :
  (0 < bufSize)%nat -> tree s !! tmp = Some (File old m) ->
  writeTo_go bufSize (os_Write tmp) fuel c r s = (res, c', s') ->
  exists k m', evolves s (<[tmp := File (old ++ k) m']> (tree s)) s' /\
    (res = Ok tt -> k = rd_data r /\ rd_tail r = Sentinel EOF).
Proof. apply writeTo_appends, os_Write_appends. Qed.

Lemma writeAllTo_appends write fuel p data old m c s res c' s' :
  appends p write -> tree s !! p = Some (File old m) ->
  writeAllTo_go write fuel data c s = (res, c', s') ->
  exists k m', evolves s (<[p := File (old ++ k) m']> (tree s)) s' /\ (res = Ok tt -> k = data).
Proof.
  intros Hw. revert data old m c s. induction fuel as [|fuel IH]; intros data old m c s Hp H; destruct data as [|b data]; cbn [writeAllTo_go] in H;
    try (simplify_eq; exists [], m; split; [by apply evolves_append_nil|done]).
  destruct (chk true c) as [[u|e] c1]; [|simplify_eq; exists [], m; split; [by apply evolves_append_nil|done]].
  destruct (write (b :: data) s) as [[n werr] s1] eqn:EW. apply (Hw _ old m) in EW as ([m1 He] & Hn); [|done].
  destruct werr as [we|]; [simplify_eq; exists (take n (b :: data)), m1; by split|].
  rewrite (Hn eq_refl) in *. rewrite firstn_all in He. cbn [length Nat.eqb] in H. rewrite skipn_all2 in H by (cbn; lia). pose proof He as (Hts & _).
  apply (IH _ (old ++ b :: data) m1) in H as (k & m' & He' & Hok); [|rewrite Hts; apply lookup_insert_eq].
  exists ((b :: data) ++ k), m'. split; [by eapply evolves_append_app|]. intros ->%Hok. by rewrite app_nil_r.
Qed.

(** What every write keeps, the copies keep. *)
Lemma writeTo_inv {S} (P : S -> Prop) bufSize write fuel c r (s : S) res c' s' :
  (forall data s n werr s', P s -> write data s = (n, werr, s') -> P s') ->
  P s -> writeTo_go bufSize write fuel c r s = (res, c', s') -> P s'.
Proof.
  intros Hw. revert c r s. induction fuel as [|fuel IH]; intros c r s Hs H; cbn [writeTo_go] in H; [by simplify_eq|].
  destruct (chk true c) as [[u|e] c1]; [|by simplify_eq].
  destruct (readOnce bufSize r) as [[[|b buf] rerr] r1].
  - cbn in H. destruct rerr; simplify_eq; eauto.
  - destruct (write (b :: buf) s) as [[wn werr] s1] eqn:EW. apply Hw in EW; [|done].
    destruct werr; [by simplify_eq|]. destruct (_ <? _)%nat; [by simplify_eq|]. destruct rerr; simplify_eq; eauto.
Qed.
Lemma writeAllTo_inv {S} (P : S -> Prop) write fuel data c (s : S) res c' s' :
  (forall data s n werr s', P s -> write data s = (n, werr, s') -> P s') ->
  P s -> writeAllTo_go write fuel data c s = (res, c', s') -> P s'.
Proof.
  intros Hw. revert data c s. induction fuel as [|fuel IH]; intros [|b data] c s Hs H; cbn [writeAllTo_go] in H; try by simplify_eq.
  destruct (chk true c) as [[u|e] c1]; [|by simplify_eq].
  destruct (write (b :: data) s) as [[n werr] s1] eqn:EW. apply Hw in EW; [|done].
  destruct werr; [by simplify_eq|]. destruct (Nat.eqb n 0); [by simplify_eq|]. eauto.
Qed.

(** With no fault, the background context and enough fuel the copy succeeds. *)
Lemma writeTo_total bufSize fuel tmp old m r s :
  (0 < bufSize)%nat -> tree s !! tmp = Some (File old m) -> faults s = [] -> rd_tail r = Sentinel EOF ->
  (length (rd_chunks r) + length (rd_data r) < fuel)%nat ->
  exists s', writeTo_go bufSize (os_Write tmp) fuel [] r s = (Ok tt, [], s').
Proof.
  intros Hb. revert old m r s. induction fuel as [|fuel IH]; intros old m r s Ht Hf Htl Hlen; [lia|].
  cbn [writeTo_go]. rewrite chk_nil.
  destruct (readOnce bufSize r) as [[buf rerr] r1] eqn:ER. apply readOnce_step in ER as [Htl1 Hr]; [|done].
  assert (Hw : exists s1, (match buf with [] => (0%nat, None, s) | _ => os_Write tmp buf s end) = (length buf, None, s1) /\
    faults s1 = [] /\ exists o1 m1, tree s1 !! tmp = Some (File o1 m1)).
  { destruct buf as [|b buf]; [eauto 10|].
    destruct (os_Write tmp (b :: buf) s) as [[wn werr] s1] eqn:EW.
    apply (os_Write_inv tmp (b :: buf) old m) in EW as ((Hts & _ & Hq) & _ & Hn & Hok); [|done].
    rewrite (Hok Hf) in *. rewrite Hn by done. exists s1. split_and!; auto. rewrite Hts. eexists _, _. apply lookup_insert_eq. }
  destruct Hw as (s1 & -> & Hf1 & o1 & m1 & Ht1). rewrite Nat.ltb_irrefl.
  destruct rerr as [e|].
  - destruct Hr as (_ & _ & ->). rewrite decide_True by done. eauto.
  - destruct Hr as [_ Hlt]. eapply IH; [exact Ht1|done|congruence|lia].
Qed.

(** ** Publishing, step by step *)
Section PublishFacts.
Variable outside : path -> option entry.
Variables (dir : path) (leaf : bytes).
Abbreviation p := (dir ++ [leaf]).

Lemma tempPath_eq i : tempPath p i = dir ++ [leaf ++ tempSuffix i].
Proof. unfold tempPath, appendName. rewrite reverse_snoc. by rewrite reverse_involutive. Qed.
Lemma tempSuffix_nonempty i : tempSuffix i <> [].
Proof. by destruct i. Qed.
Lemma tempPath_ne i : tempPath p i <> p.
Proof.
  rewrite tempPath_eq. intros E%app_inv_head. injection E as E.
  symmetry in E. apply app_self_nil in E. by apply tempSuffix_nonempty in E.
Qed.

(** The state while a publish is under way, against the one it started from:
    the directories on the way exist, the temp file may hold bytes, and nothing
    else changed. *)
Record staged (s0 s : FS) (i : nat) (content : option (bytes * Z)) : Prop := {
  sg_clock : clock s = clock s0;
  sg_quiet : faults s0 = [] -> faults s = [];
  sg_parents : parents (tree s);
  sg_dir : tree s !! dir = Some Directory;
  sg_other : forall x, x <> tempPath p i -> tree s !! x = tree s0 !! x \/
    (tree s0 !! x = None /\ tree s !! x = Some Directory /\ exists k, dir = x ++ k);
  sg_temp : match content with
            | Some (data, m) => tree s !! tempPath p i = Some (File data m) /\ tree s0 !! tempPath p i = None
            | None => tree s !! tempPath p i = tree s0 !! tempPath p i
            end;
}.

Lemma staged_path s0 s i content : staged s0 s i content -> tree s !! p = tree s0 !! p.
Proof.
  intros H. destruct (sg_other _ _ _ _ H p) as [?|(_ & _ & k & E)]; [by intros E; symmetry in E; apply tempPath_ne in E|done|].
  rewrite <- app_assoc in E. apply app_self_nil in E. by destruct k.
Qed.

(** Steps that only consume faults. *)
Lemma staged_evolves s0 s i content s' : staged s0 s i content -> evolves s (tree s) s' -> staged s0 s' i content.
Proof.
  intros [] (Ht & Hk & Hq). split; rewrite ?Ht; try done; [congruence|auto].
Qed.
Lemma staged_syscall s0 s i content c r c' s' :
  staged s0 s i content -> syscall c s = (r, c', s') -> c' = c /\ staged s0 s' i content /\ (faults s0 = [] -> r = Ok tt).
Proof.
  intros Hg (-> & He & Hq & _)%syscall_inv. split_and!; [done|by eapply staged_evolves|].
  intros Hf. apply Hq, (sg_quiet _ _ _ _ Hg), Hf.
Qed.

Lemma staged_temp_update s0 s i data m data' m' s' :
  staged s0 s i (Some (data, m)) -> evolves s (<[tempPath p i := File data' m']> (tree s)) s' -> staged s0 s' i (Some (data', m')).
Proof.
  intros [Hk Hq Hp Hd Ho [Ht Ht0]] (Et & Ek & Eq). rewrite tempPath_eq in *. split; rewrite ?tempPath_eq, ?Et.
  - congruence.
  - auto.
  - apply parents_insert; [done|done|]. by rewrite Ht.
  - rewrite lookup_insert_ne; [done|]. intros E. symmetry in E. by apply app_self_nil in E.
  - intros x Hx. rewrite lookup_insert_ne by done. by apply Ho.
  - split; [apply lookup_insert_eq|done].
Qed.

Lemma staged_remove s0 s i data m c r c' s' :
  staged s0 s i (Some (data, m)) -> tryRemove outside (tempPath p i) c s = (r, c', s') ->
  c' = c /\ r = Ok tt /\ exists content, staged s0 s' i content /\ (faults s0 = [] -> content = None).
Proof.
  intros Hg H. unfold tryRemove in H. apply bind_attempt in H as (r0 & c1 & s1 & E & H).
  munfold. simplify_eq. pose proof Hg as [Hk Hq Hp Hd Ho [Ht Ht0]].
  assert (HR : resolve outside (tree s) false (tempPath p i) = Found (File data m)) by by apply resolve_present.
  apply os_Remove_inv in E as (-> & E). split_and!; [done..|]. destruct r0 as [u|e].
  - exists None. split; [|done]. destruct E as [(Et & Ek & Eq) _]. split; rewrite ?Et.
    + congruence.
    + auto.
    + apply parents_delete; [done|]. by rewrite Ht.
    + rewrite lookup_delete_ne; [done|]. rewrite tempPath_eq. intros E. symmetry in E. by apply app_self_nil in E.
    + intros x Hx. rewrite lookup_delete_ne by done. by apply Ho.
    + by rewrite lookup_delete_eq.
  - destruct E as [He E]. exists (Some (data, m)). split; [by eapply staged_evolves|]. rewrite HR in E.
    intros Hf. destruct E as [[Hn _]|[[_ ?]|[[_ ?]|[_ [?|?]]]]]; try done. by destruct (Hn (Hq Hf)).
Qed.

Lemma staged_create n i0 s0 s c r c' s' :
  staged s0 s i0 None -> (forall i, tree s !! tempPath p i = tree s0 !! tempPath p i) ->
  createTemp_go outside n i0 p c s = (r, c', s') ->
  c' = c /\
  match r with
  | Ok tmp => exists i, tmp = tempPath p i /\ exists m, staged s0 s' i (Some ([], m))
  | Err _ => (forall i, staged s0 s' i None) /\ (faults s0 = [] -> forall i, (i0 <= i < i0 + n)%nat -> tree s !! tempPath p i <> None)
  end.
Proof.
  revert i0 s. induction n as [|n IH]; intros i0 s Hg Hsame H; cbn [createTemp_go] in H.
  - unfold throw in H. simplify_eq. split; [done|]. split; [|lia]. intros i.
    destruct Hg. split; try done. intros x Hx.
    destruct (decide (x = tempPath p i0)) as [->|]; [left; by rewrite Hsame|auto].
  - apply bind_attempt in H as (r0 & c1 & s1 & E & H). pose proof E as E0. apply os_OpenExcl_inv in E as (-> & E).
    pose proof Hg as [Hk Hq Hp Hd Ho _]. destruct r0 as [u|e].
    + unfold mret, M_ret in H. simplify_eq. split; [done|]. exists i0. split; [done|]. exists (clock s).
      destruct E as [(Et & Ek & Eq) HA].
      assert (HN : tree s !! tempPath p i0 = None).
      { destruct (tree s !! tempPath p i0) as [e|] eqn:HE; [|done].
        by rewrite (resolve_present outside _ false _ e) in HA. }
      rewrite tempPath_eq in *. split; rewrite ?tempPath_eq, ?Et.
      * congruence.
      * auto.
      * apply parents_insert; [done|done|]. by rewrite HN.
      * rewrite lookup_insert_ne; [done|]. intros E. symmetry in E. by apply app_self_nil in E.
      * intros x Hx. rewrite lookup_insert_ne by done. by apply Ho.
      * split; [apply lookup_insert_eq|]. by rewrite <- tempPath_eq, <- Hsame, tempPath_eq.
    + destruct E as [He Hfail]. pose proof He as (Et & _). apply (staged_evolves s0 s i0 None s1) in Hg as Hg1; [|done].
      assert (Hbusy : faults s0 = [] -> tree s !! tempPath p i0 <> None).
      { intros Hf HN. destruct Hfail as [[Hn _]|HA]; [by apply Hn, Hq|]. apply HA. rewrite tempPath_eq in *.
        by apply resolve_child. }
      assert (Hany : forall i, staged s0 s1 i None).
      { intros i. destruct Hg1. split; try done. 2:{ rewrite Et. apply Hsame. }
        intros x Hx. destruct (decide (x = tempPath p i0)) as [->|]; [left; rewrite Et; apply Hsame|auto]. }
      destruct (errIs e ErrExist) eqn:Ex.
      * apply IH in H as (-> & H); [|apply Hany|intros; rewrite Et; apply Hsame]. split; [done|].
        destruct r; [done|]. destruct H as [? Hb]. split; [done|]. intros Hf i Hi.
        destruct (decide (i = i0)) as [->|]; [by apply Hbusy|]. rewrite <- Et. apply Hb; [done|lia].
      * unfold throw in H. simplify_eq. split; [done|]. split; [done|]. intros Hf. exfalso. specialize (Hbusy Hf).
        unfold os_OpenExcl, syscall, popFault in E0. munfold. rewrite (Hq Hf) in E0. unfold get in E0.
        destruct (tree s !! tempPath p i0) as [x|] eqn:HE; [|done].
        rewrite (resolve_present outside (tree s) false _ x Hp HE) in E0; [|by intros]. unfold throw in E0. simplify_eq.
Qed.

(** What a publish may leave, whatever its outcome: missing directories of its
    path made, one temp file where there was none, and its own path. *)
Record settled (s0 s : FS) (i : nat) : Prop := {
  sd_clock : clock s = clock s0;
  sd_quiet : faults s0 = [] -> faults s = [];
  sd_parents : parents (tree s);
  sd_other : forall x, x <> p -> x <> tempPath p i -> tree s !! x = tree s0 !! x \/
    (tree s0 !! x = None /\ tree s !! x = Some Directory /\ exists k, dir = x ++ k);
  sd_temp : tree s !! tempPath p i = tree s0 !! tempPath p i \/
    (tree s0 !! tempPath p i = None /\ exists data m, tree s !! tempPath p i = Some (File data m));
}.

Lemma staged_settled s0 s i content : staged s0 s i content -> settled s0 s i.
Proof. intros []. split; auto. destruct content as [[data m]|]; [right|by left]. destruct sg_temp0. eauto. Qed.

Definition destination (t : gmap path entry) : Prop := t !! p = None \/ exists data m, t !! p = Some (File data m).

Section Run.
Context (s : FS).
Hypotheses (Hpar : parents (tree s)) (Hclear : clear (tree s) p) (Hdest : destination (tree s)).

Lemma mkdir_staged c r c' s1 :
  os_MkdirAll outside dir c s = (r, c', s1) ->
  c' = c /\ settled s s1 0 /\ tree s1 !! p = tree s !! p /\
  (r = Ok tt -> forall i, staged s s1 i None) /\ (faults s = [] -> r = Ok tt).
Proof.
  intros H. apply mkdirFrom_inv in H as (-> & [Hk Hq Hp Ht] & Hok & Hqu); try done; cycle 1.
  - by eapply clear_prefix.
  - by left.
  - by apply (Hclear dir [leaf]).
  - assert (Hsame : forall n, tree s1 !! (dir ++ [n]) = tree s !! (dir ++ [n])).
    { intros n. destruct (Ht (dir ++ [n])) as [?|(_ & _ & k1 & k2 & E & E')]; [done|]. simpl in E'. subst.
      rewrite <- app_assoc in E. apply app_self_nil in E. by destruct k2. }
    assert (Hst : forall i x, x <> tempPath p i -> tree s1 !! x = tree s !! x \/
      (tree s !! x = None /\ tree s1 !! x = Some Directory /\ exists k, dir = x ++ k)).
    { intros _ x _. destruct (Ht x) as [?|(? & ? & k1 & k2 & -> & ->)]; [by left|right]. split_and!; eauto. }
    split_and!; try done.
    + split; try done; [|left; rewrite tempPath_eq; apply Hsame]. intros x _ Hx. by apply (Hst 0%nat).
    + intros Hr i. split; try done; [by apply Hok|by apply Hst|]. rewrite tempPath_eq. apply Hsame.
Qed.

(** The rename: the whole content appears at the path, or nothing changes. *)
Lemma staged_rename s1 i data m c r c' s' :
  staged s s1 i (Some (data, m)) -> os_Rename outside (tempPath p i) p c s1 = (r, c', s') ->
  c' = c /\ (faults s = [] -> r = Ok tt) /\
  match r with
  | Ok _ => settled s s' i /\ tree s' !! p = Some (File data m)
  | Err _ => staged s s' i (Some (data, m))
  end.
Proof.
  intros Hg H. pose proof Hg as [Hk Hq Hp Hd Ho [Ht Ht0]]. pose proof (staged_path _ _ _ _ Hg) as Hpath.
  assert (HR : resolve outside (tree s1) false p = Absent \/ exists d0 m0, resolve outside (tree s1) false p = Found (File d0 m0)).
  { destruct Hdest as [HN|(d0 & m0 & HN)]; rewrite <- Hpath in HN.
    - left. by apply resolve_child.
    - right. exists d0, m0. by apply resolve_present. }
  apply (os_Rename_inv outside _ _ (File data m)) in H as (-> & H); [|done]. split; [done|].
  destruct r as [[]|e].
  - destruct H as (Et & Ek & Eq). split; [done|]. split; [|rewrite Et; apply lookup_insert_eq]. split; rewrite ?Et.
    + congruence.
    + auto.
    + apply parents_insert; [apply parents_delete; [done|by rewrite Ht]| |].
      * rewrite lookup_delete_ne; [done|]. rewrite tempPath_eq. intros E. symmetry in E. by apply app_self_nil in E.
      * rewrite lookup_delete. case_decide; [done|]. rewrite Hpath. by destruct Hdest as [-> |(? & ? & ->)].
    + intros x Hx Hx'. rewrite lookup_insert_ne, lookup_delete_ne by done. by apply Ho.
    + left. rewrite lookup_insert_ne, lookup_delete_eq by (intros E; symmetry in E; by apply tempPath_ne in E). done.
  - destruct H as [He Hb]. split; [|by eapply staged_evolves]. intros Hf. exfalso.
    destruct Hb as [Hb|Hb]; [by apply Hb, Hq|]. destruct HR as [HR|(? & ? & HR)]; rewrite HR in Hb; naive_solver.
Qed.

(** A failure that leaves the path alone. *)
Definition untouched (s' : FS) : Prop := exists i, settled s s' i /\ tree s' !! p = tree s !! p.

Lemma staged_untouched s1 i content : staged s s1 i content -> untouched s1.
Proof. intros Hg. exists i. split; [by eapply staged_settled|by eapply staged_path]. Qed.

Lemma orElse_ok {A} (m : M FS A) cleanup f c s0 a c1 s1 :
  m c s0 = (Ok a, c1, s1) -> orElse m cleanup f c s0 = (Ok a, c1, s1).
Proof. intros E. unfold orElse, attempt. erewrite bind_ok by (rewrite E; reflexivity). done. Qed.

(** A cleanup leaves the path alone. *)
Definition cleans (i : nat) (cleanup : M FS unit) : Prop := forall c s1 r c' s' ct,
  staged s s1 i (Some ct) -> cleanup c s1 = (r, c', s') -> untouched s'.

Lemma tryRemove_cleans i : cleans i (tryRemove outside (tempPath p i)).
Proof.
  intros c s1 r c' s' [data m] Hg H. eapply staged_remove in H as (_ & _ & ct & Hg3 & _); [|done].
  by eapply staged_untouched.
Qed.
Lemma discard_cleans i : cleans i (discard outside (tempPath p i)).
Proof.
  intros c s1 r c' s' ct Hg H. unfold discard in H. apply bind_attempt in H as (r0 & c1 & s2 & E & H).
  apply (staged_syscall _ _ _ _ _ _ _ _ Hg) in E as (-> & Hg2 & _). by eapply tryRemove_cleans.
Qed.

(** A step with a cleanup: it succeeded and the rest ran, or nothing happened. *)
Lemma orElse_step {A} (m : M FS A) cleanup f (k : A -> M FS unit) (Q : A -> bytes * Z -> Prop) i c s1 res c' s' :
  cleans i cleanup ->
  (forall r0 c1 s2, m c s1 = (r0, c1, s2) -> exists ct, staged s s2 i (Some ct) /\ (forall a, r0 = Ok a -> Q a ct)) ->
  (orElse m cleanup f ≫= k) c s1 = (res, c', s') ->
  (exists a c1 s2 ct, staged s s2 i (Some ct) /\ Q a ct /\ k a c1 s2 = (res, c', s')) \/
  (untouched s' /\ is_ok res = false).
Proof.
  intros Hc Hm H. destruct (m c s1) as [[r0 c1] s2] eqn:E. destruct (Hm _ _ _ eq_refl) as (ct & Hg & HQ).
  destruct r0 as [a|e].
  - left. erewrite bind_ok in H by (by eapply orElse_ok). eauto 10.
  - right. unfold orElse, attempt in H. mstep H as E1 with a c2 s3.
    + erewrite bind_ok in E1 by (rewrite E; reflexivity). mstep E1 as E2. discriminate E1.
    + erewrite bind_ok in E1 by (rewrite E; reflexivity). split; [|done].
      mstep E1 as E2 with b c2 s3; [unfold throw in E1; simplify_eq|]; by eapply Hc.
Qed.
Lemma syscall_step i ct c s1 :
  staged s s1 i (Some ct) -> forall r0 c1 s2, syscall c s1 = (r0, c1, s2) ->
  exists ct', staged s s2 i (Some ct') /\ (forall a : unit, r0 = Ok a -> ct' = ct).
Proof. intros Hg r0 c1 s2 (-> & Hg' & _)%(staged_syscall _ _ _ _ _ _ _ _ Hg). eauto. Qed.
Lemma ctx_step i ct c s1 :
  staged s s1 i (Some ct) -> forall r0 c1 s2, ctxErr c s1 = (r0, c1, s2) ->
  exists ct', staged s s2 i (Some ct') /\ (forall a : unit, r0 = Ok a -> ct' = ct).
Proof. intros Hg r0 c1 s2 ->%ctxErr_inv. eauto. Qed.
Lemma write_step i m r c s1 :
  staged s s1 i (Some ([], m)) -> forall r0 c1 s2, WriteTo copyBufSize (os_Write (tempPath p i)) r c s1 = (r0, c1, s2) ->
  exists ct, staged s s2 i (Some ct) /\ (forall a, r0 = Ok a -> ct.1 = rd_data r /\ rd_tail r = Sentinel EOF).
Proof.
  intros Hg r0 c1 s2 E. unfold WriteTo in E.
  eapply writeTo_file in E as (k & m2 & He & Hk); [|unfold copyBufSize; lia|apply (sg_temp _ _ _ _ Hg)].
  exists (k, m2). split; [by eapply (staged_temp_update _ _ _ _ _ k)|]. intros [] Hr. by apply Hk.
Qed.

(** The outcome of a publish. *)
Definition publishPost (r : Reader) (opts : Options) (res : res unit) (s' : FS) : Prop :=
  exists i, settled s s' i /\
  match res with
  | Ok _ => rd_tail r = Sentinel EOF /\
      ((exists m, tree s' !! p = Some (File (rd_data r) m)) \/
       (ExistingIsSuccess opts = true /\ faults s <> [] /\ tree s' !! p = tree s !! p /\ is_Some (tree s !! p)))
  | Err _ => tree s' !! p = tree s !! p \/
      (rd_tail r = Sentinel EOF /\ faults s <> [] /\ exists m, tree s' !! p = Some (File (rd_data r) m))
  end.

Lemma untouched_post r opts res s' : untouched s' -> is_ok res = false -> publishPost r opts res s'.
Proof. intros (i & ? & ?) Hr. exists i. split; [done|]. destruct res; [done|auto]. Qed.

Lemma staged_stat s1 i content c r0 c' s' :
  staged s s1 i content -> os_Stat outside p c s1 = (r0, c', s') ->
  c' = c /\ staged s s' i content /\ (forall data m, r0 = Ok (File data m) -> is_Some (tree s !! p)).
Proof.
  intros Hg H. apply statWith_inv in H as (-> & He & Hr). split_and!; [done|by eapply staged_evolves|].
  intros data m ->. rewrite <- (staged_path _ _ _ _ Hg). destruct Hg as [_ _ Hp Hd Ho _].
  destruct (tree s1 !! p) eqn:E; [done|]. by rewrite (resolve_child outside _ true dir leaf Hp Hd E) in Hr.
Qed.

Lemma publishTemp_inv i m r opts s1 c res c' s' :
  staged s s1 i (Some ([], m)) -> publishTemp outside (tempPath p i) p r opts c s1 = (res, c', s') ->
  publishPost r opts res s'.
Proof.
  intros Hg H. unfold publishTemp in H.
  eapply (orElse_step _ _ _ _ (fun _ ct => ct.1 = rd_data r /\ rd_tail r = Sentinel EOF)) in H
    as [([] & c2 & s2 & ct & Hg2 & HQ & H)|[? ?]];
    [|by apply untouched_post|apply discard_cleans|by eapply write_step].
  destruct HQ as [Hct Ht].
  eapply (orElse_step _ _ _ _ (fun _ ct' => ct' = ct)) in H as [([] & c3 & s3 & ct3 & Hg3 & -> & H)|[? ?]];
    [|by apply untouched_post|apply discard_cleans|by eapply syscall_step].
  eapply (orElse_step _ _ _ _ (fun _ ct' => ct' = ct)) in H as [([] & c4 & s4 & ct4 & Hg4 & -> & H)|[? ?]];
    [|by apply untouched_post|apply tryRemove_cleans|by eapply syscall_step].
  eapply (orElse_step _ _ _ _ (fun _ ct' => ct' = ct)) in H as [([] & c5 & s5 & ct5 & Hg5 & -> & H)|[? ?]];
    [|by apply untouched_post|apply tryRemove_cleans|by eapply ctx_step].
  clear Hg Hg2 Hg3 Hg4. destruct ct as [data mt]. simpl in Hct. subst data.
  apply bind_attempt in H as (r6 & c6 & s6 & E & H). eapply staged_rename in E as (-> & Hok & E); [|done]. destruct r6 as [[]|e].
  - destruct E as [Hset Hp]. destruct (SyncDir opts).
    + apply mapErr_inv in H as (r7 & E & ->). apply syscall_inv in E as (-> & (Et & Ek & Eq) & Hsok & _).
      exists i. split.
      * destruct Hset. split; rewrite ?Et; try done; [congruence|auto].
      * destruct r7; simpl; rewrite Et; [split; [done|]; left; by eexists|].
        right. split_and!; [done| |by eexists]. intros Hf. apply (sd_quiet _ _ _ Hset), Hsok in Hf. done.
    + munfold. simplify_eq. exists i. split; [done|]. split; [done|]. left. by eexists.
  - assert (Hf : faults s <> []) by (intros Hf; by apply Hok in Hf).
    mstep H as E1 with held c7 s7.
    2:{ destruct (ExistingIsSuccess opts); [apply bind_attempt in E1 as (? & ? & ? & _ & E1)|]; munfold; discriminate E1. }
    assert (Hheld : exists ct, staged s s7 i (Some ct) /\ (held = true -> ExistingIsSuccess opts = true /\ is_Some (tree s !! p))).
    { destruct (ExistingIsSuccess opts).
      - apply bind_attempt in E1 as (r8 & c8 & s8 & E2 & E1). eapply staged_stat in E2 as (-> & Hg7 & Hst); [|done].
        munfold. simplify_eq. exists (rd_data r, mt). split; [done|]. destruct r8 as [[]|]; try done. intros _. eauto.
      - munfold. simplify_eq. by exists (rd_data r, mt). }
    destruct Hheld as ([d7 m7] & Hg7 & Hh). mstep H as E2 with u c8 s8.
    2:{ eapply staged_remove in E2 as (_ & ? & _); done. }
    eapply staged_remove in E2 as (-> & _ & ct & Hg8 & _); [|done]. apply staged_untouched in Hg8 as (j & Hset & Hp).
    exists j. destruct held; munfold; simplify_eq; (split; [done|]); [|by left].
    split; [done|]. right. destruct (Hh eq_refl). by split_and!.
Qed.

Lemma Publish_inv r opts c res c' s' : Publish outside p r opts c s = (res, c', s') -> publishPost r opts res s'.
Proof.
  intros H. unfold Publish in H. rewrite removelast_last in H.
  assert (H0 : untouched s) by (exists 0%nat; split; [split; auto|done]).
  mstep H as E; apply ctxErr_inv in E as ->; [|by apply untouched_post].
  mstep H as E with u c1 s1; apply mapErr_inv in E as (r1 & E & Hr1); apply mkdir_staged in E as (-> & Hs1 & Hp1 & Hg1 & _);
    [|apply untouched_post; [by exists 0%nat|done]].
  destruct r1 as [[]|]; [|done]. specialize (Hg1 eq_refl).
  mstep H as E; apply ctxErr_inv in E as ->; [|apply untouched_post; [by eapply staged_untouched, (Hg1 0%nat)|done]].
  mstep H as E with tmp c2 s2; apply mapErr_inv in E as (r2 & E & Hr2); unfold createTemp in E;
    (eapply staged_create in E as (-> & E); [|apply (Hg1 0%nat)|intros i; exact (sg_temp _ _ _ _ (Hg1 i))]);
    destruct r2 as [tmp'|e]; simplify_eq/=.
  2:{ apply untouched_post; [by eapply staged_untouched, (proj1 E 0%nat)|done]. }
  destruct E as (i & -> & m & Hg2). by eapply publishTemp_inv.
Qed.

(** With no fault, the background context and one of the temp names free, a
    publish of a stream that ends succeeds, and leaves no temp file. *)
Lemma Publish_total_free j r opts :
  faults s = [] -> rd_tail r = Sentinel EOF -> Z.of_nat j < 10000 -> tree s !! tempPath p j = None ->
  exists s', Publish outside p r opts [] s = (Ok tt, [], s').
Proof.
  intros Hf Ht Hj Hfree. unfold Publish. rewrite removelast_last. erewrite bind_ok by apply ctxErr_nil.
  destruct (os_MkdirAll outside dir [] s) as [[r1 c1] s1] eqn:E1. apply mkdir_staged in E1 as E1'.
  destruct E1' as (-> & _ & _ & Hg1 & Hok1). rewrite (Hok1 Hf) in *. specialize (Hg1 eq_refl).
  erewrite bind_ok by (unfold mapErr; rewrite E1; reflexivity). erewrite bind_ok by apply ctxErr_nil.
  assert (Hsame : forall i, tree s1 !! tempPath p i = tree s !! tempPath p i) by (intros i; exact (sg_temp _ _ _ _ (Hg1 i))).
  destruct (createTemp outside p [] s1) as [[r2 c2] s2] eqn:E2. unfold createTemp in E2.
  apply (staged_create _ 0 s) in E2 as E2'; [|apply Hg1|apply Hsame]. destruct E2' as (-> & E2').
  destruct r2 as [tmp|e]; [|exfalso; apply (proj2 E2' Hf j); [lia|by rewrite Hsame]].
  destruct E2' as (i & -> & m & Hg2). erewrite bind_ok by (unfold mapErr, createTemp; rewrite E2; reflexivity).
  unfold publishTemp. pose proof Hg2 as [_ Hq2 _ _ _ [Htmp _]].
  destruct (writeTo_total copyBufSize (1 + length (rd_chunks r) + length (rd_data r)) (tempPath p i) [] m r s2)
    as [s3 E3]; [unfold copyBufSize; lia|done|by apply Hq2|done|lia|].
  destruct (write_step i m r [] s2 Hg2 (Ok tt) [] s3) as (ct3 & Hg3 & _); [exact E3|].
  erewrite bind_ok by (apply orElse_ok; exact E3).
  assert (Hsys : forall s4 ct, staged s s4 i (Some ct) -> exists s5, syscall [] s4 = (Ok tt, [], s5) /\ staged s s5 i (Some ct)).
  { intros s4 ct Hg. destruct (syscall [] s4) as [[r5 c5] s5] eqn:E5.
    apply (staged_syscall _ _ _ _ _ _ _ _ Hg) in E5 as (-> & Hg5 & Hok). rewrite (Hok Hf). eauto. }
  destruct (Hsys s3 ct3 Hg3) as (s4 & E4 & Hg4). erewrite bind_ok by (apply orElse_ok; exact E4).
  destruct (Hsys s4 ct3 Hg4) as (s5 & E5 & Hg5). erewrite bind_ok by (apply orElse_ok; exact E5).
  erewrite bind_ok by (apply orElse_ok, ctxErr_nil).
  destruct (os_Rename outside (tempPath p i) p [] s5) as [[r6 c6] s6] eqn:E6. destruct ct3 as [d3 m3].
  apply (staged_rename _ _ _ _ _ _ _ _ Hg5) in E6 as E6'. destruct E6' as (-> & Hok6 & E6'). rewrite (Hok6 Hf) in *.
  erewrite bind_ok by (unfold attempt; rewrite E6; reflexivity).
  destruct (SyncDir opts); [|munfold; eauto]. destruct E6' as [[_ Hq6 _ _ _] _].
  destruct (syscall [] s6) as [[r7 c7] s7] eqn:E7. apply syscall_inv in E7 as E7'. destruct E7' as (-> & _ & Hok7 & _).
  rewrite (Hok7 (Hq6 Hf)) in E7. exists s7. unfold mapErr. by rewrite E7.
Qed.
Lemma Publish_total r opts :
  faults s = [] -> rd_tail r = Sentinel EOF -> tree s !! tempPath p 0 = None ->
  exists s', Publish outside p r opts [] s = (Ok tt, [], s').
Proof. intros Hf Ht Hfree. by apply (Publish_total_free 0). Qed.
End Run.
End PublishFacts.

(** ** Temp names are recognised and digest names are not *)
Lemma hasPrefix_app l k : hasPrefix l (l ++ k) = Some k.
Proof. induction l as [|x l IH]; simpl; [done|]. by rewrite decide_True. Qed.
Lemma Cut_app name x sep' after :
  x ∉ name -> Cut (name ++ x :: sep' ++ after) (x :: sep') = Some (name, after).
Proof.
  induction name as [|y name IH]; intros Hx.
  - cbn [app]. unfold Cut. fold Cut. by rewrite (hasPrefix_app (x :: sep') after : hasPrefix (x :: sep') (x :: sep' ++ after) = _).
  - apply not_elem_of_cons in Hx as [Hne Hx]. cbn [app Cut hasPrefix]. rewrite decide_False by done. by rewrite IH.
Qed.
Lemma Cut_absent name x sep' : x ∉ name -> Cut name (x :: sep') = None.
Proof.
  induction name as [|y name IH]; intros Hx; [done|]. apply not_elem_of_cons in Hx as [Hne Hx].
  cbn [Cut hasPrefix]. rewrite decide_False by done. by rewrite IH.
Qed.

Lemma itoa_ok i : (i < Z.to_nat 10000)%nat -> atoiOk (itoa i) = true.
Proof.
  intros Hi. assert (Hall : forallb (fun n => atoiOk (itoa n)) (seq 0 (Z.to_nat 10000)) = true) by (vm_compute; reflexivity).
  rewrite forallb_forall in Hall. apply Hall, in_seq. lia.
Qed.
Lemma IsTempFile_temp name i : x2e ∉ name -> (i < Z.to_nat 10000)%nat -> IsTempFile (name ++ tempSuffix i) = true.
Proof.
  intros Hx Hi. unfold IsTempFile, tempSuffix. change (str ".tmp") with (x2e :: str "tmp"). cbn [app].
  rewrite (Cut_app name x2e (str "tmp")) by done. destruct i as [|i]; [done|]. cbn [str app]. change (str ".") with [x2e]. cbn [app].
  rewrite decide_True by done. by apply itoa_ok.
Qed.
Lemma hasPrefix_inv p s r : hasPrefix p s = Some r -> s = p ++ r.
Proof.
  revert s. induction p as [|x p IH]; intros [|y s] H; simpl in H; try (by simplify_eq).
  case_decide; [|done]. subst. cbn. f_equal. by apply IH.
Qed.
Lemma Cut_inv s sep b a : Cut s sep = Some (b, a) -> s = b ++ sep ++ a.
Proof.
  revert b. induction s as [|x s IH]; intros b H; cbn [Cut] in H; destruct (hasPrefix sep _) as [r|] eqn:Ep;
    try (apply hasPrefix_inv in Ep; by simplify_eq); [done|].
  destruct (Cut s sep) as [[b0 a0]|] eqn:Ec; [|done]. simplify_eq. cbn. f_equal. by apply IH.
Qed.
Lemma atoiOk_last s : atoiOk s = true -> exists x, list.last s = Some x /\ isDigit x = true.
Proof.
  assert (H : forall ds, negb (bool_decide (ds = [])) && forallb isDigit ds = true -> exists x, list.last ds = Some x /\ isDigit x = true).
  { intros ds [Hne Hall]%andb_true_iff. destruct ds as [|d ds _] using rev_ind; [done|].
    rewrite forallb_app in Hall. apply andb_true_iff in Hall as [_ Hx]. exists d. rewrite last_snoc. split; [done|].
    cbn in Hx. by rewrite andb_true_r in Hx. }
  unfold atoiOk. intros E.
  assert (Hs : exists neg ds k, s = k ++ ds /\ (negb (bool_decide (ds = [])) && forallb isDigit ds
    && (if (neg : bool) then decimal ds <=? 2 ^ 63 else decimal ds <? 2 ^ 63)) = true).
  { destruct s as [|y s]; [done|]. destruct y; 
      first [exists false; eexists (_ :: s), []; split; [reflexivity|exact E]|
             exists false; eexists s, [_]; split; [reflexivity|exact E]|
             exists true; eexists s, [_]; split; [reflexivity|exact E]]. }
  destruct Hs as (neg & ds & k & -> & Hds). apply andb_true_iff in Hds as [Hds _]. destruct (H ds Hds) as (x & Hx & Hd).
  exists x. split; [|done]. rewrite last_app, Hx. done.
Qed.
(** A temp name ends in a digit or in ".tmp". *)
Lemma IsTempFile_last name : IsTempFile name = true -> exists x, list.last name = Some x /\ (x = x70 \/ isDigit x = true).
Proof.
  unfold IsTempFile. destruct (Cut name (str ".tmp")) as [[b [|y a]]|] eqn:Ec; [| |done]; apply Cut_inv in Ec as ->.
  - intros _. exists x70. rewrite app_nil_r, last_app. split; [done|by left].
  - case_decide; [|done]. intros (x & Hx & Hd)%atoiOk_last. exists x. split; [|by right].
    by rewrite !last_app, last_cons, Hx.
Qed.
Lemma IsTempFile_dot name : IsTempFile name = true -> x2e ∈ name.
Proof.
  unfold IsTempFile. change (str ".tmp") with (x2e :: str "tmp"). intros H. destruct (decide (x2e ∈ name)) as [|Hn]; [done|].
  by rewrite (Cut_absent name x2e (str "tmp")) in H.
Qed.
