(* ===== verification/FsBackend.v ===== *)
(** The filesystem backend (src/cas/backend/fs/fs.go,
    src/cas/backend/fs/policy.go): objects as files named by their digest in a
    fan-out tree, published atomically, with the maintenance that sweeps them. *)

From S2P Require Import Prelude Digest Stream Backend FileSystem AtomicFile Store Sweep.

Module Fs.

(** ** Layout *)
Definition DefaultFanOut : Z := 2.
Definition DefaultFanLevels : Z := 1.
Definition MaxFanDepth : Z := 64.

(** The layout check of [New], on the options' int values. *)
Definition checkLayout (fanOut fanLevels : Z) : res unit :=
  if (fanOut <? 0) || (fanLevels <? 0)
  then Err (Prelude.New "cas: negative fan-out parameters (fanOut=%d, fanLevels=%d)")
  else if MaxFanDepth <? int64 (fanOut * fanLevels)
  then Err (Prelude.New "cas: fan-out %d×%d exceeds max depth %d")
  else Ok tt.

Section Fs.
Variable outside : path -> option entry.
Variables fanOut fanLevels : nat.
Variable dirSync : bool.

(** The layout's depth, multiplied as ints; a digest's path takes the slices of
    its hex form that the numbers say, which panics when they are out of range.
    The two differ in a layout whose product wraps around. *)
Definition fanDepth : Z := int64 (Z.of_nat fanOut * Z.of_nat fanLevels).
Definition addressable (d : Digest) : bool := fanDepth <=? 2 * blen d.
Definition sliceable (d : Digest) : bool := (fanOut * fanLevels <=? length d * 2)%nat.

Definition checkKey (d : Digest) (what : string) : res unit :=
  CheckDigest d what;;
  if negb (addressable d)
  then Err (Errorf "%w: %s: digest has %d hex chars, layout %d×%d needs %d" ErrInvalidDigest)
  else Ok tt.

(** [checkKey], and the panic of the [digestPath] every operation goes on with. *)
Definition keyed (d : Digest) (what : string) : res unit :=
  checkKey d what;;
  if negb (sliceable d) then Err (Prelude.New "runtime error: slice bounds out of range") else Ok tt.

Definition shard (hexDigest : bytes) (i : nat) : bytes := take fanOut (drop (i * fanOut) hexDigest).
Definition digestPath (d : Digest) : path :=
  let hexDigest := hexEncode d in
  (if (0 <? fanOut)%nat && (0 <? fanLevels)%nat then shard hexDigest <$> seq 0 fanLevels else []) ++ [hexDigest].

Definition pathToDigest (rel : path) : res Digest := ParseDigest (default [] (list.last rel)).

(** ** The shape rule (policy.go) *)
Fixpoint validateFrom (wantDir : bool) (q : path) (rest : list bytes) : M FS unit :=
  match rest with
  | [] => mret tt
  | n :: rest' =>
    let cur := q ++ [n] in
    let last := match rest' with [] => true | _ => false end in
    info ← attempt (os_Lstat outside cur);
    match info with
    | Err e => if errIs e ErrNotExist then mret tt else throw (Errorf "cas: stat store path %s: %w" e)
    | Ok (Symlink _) => throw (Errorf "%w: %s is a symbolic link to %s" ErrUnsafeTarget)
    | Ok e =>
      if (negb last || wantDir) && negb (isDir e) then throw (Errorf "%w: %s is not a directory (mode %s)" ErrUnsafeTarget)
      else if last then mret tt
      else validateFrom wantDir cur rest'
    end
  end.
Definition validateChain (wantDir : bool) (p : path) : M FS unit :=
  match p with
  | [] => throw (Errorf "%w: %s is the store base itself, not an entry inside it" ErrUnsafeTarget)
  | _ => validateFrom wantDir [] p
  end.
Definition ValidateDir : path -> M FS unit := validateChain true.
Definition ValidateFile : path -> M FS unit := validateChain false.

(** ** The operations *)
Definition putError (err : error) : error :=
  match FailedPhase err with
  | None => err
  | Some (phase, cause) =>
    if phase =? PhaseDir then Errorf "cas: create object dir: %w" cause
    else if phase =? PhaseTemp then Errorf "cas: create temp file: %w" cause
    else if phase =? PhaseWrite then Errorf "cas: write object: %w" cause
    else if phase =? PhaseSync then Errorf "cas: sync object: %w" cause
    else if phase =? PhaseClose then Errorf "cas: close object: %w" cause
    else if phase =? PhasePublish then Errorf "cas: publish object: %w" cause
    else if phase =? PhaseDirSync then Errorf "cas: sync object dir: %w" cause
    else err
  end.

Definition Put (d : Digest) (r : Reader) : M FS unit :=
  ctxErr;;
  lift (keyed d "fs: put");;
  ValidateFile (digestPath d);;
  mapErr putError (Publish outside (digestPath d) r (mkOptions dirSync true)).

(** [openWithRetry]: an open that fails while the entry is there is retried. *)
Fixpoint openWithRetry (attempts : nat) (lastErr : error) (p : path) : M FS ReadCloser :=
  match attempts with
  | O => throw lastErr
  | S attempts =>
    f ← attempt (os_Open outside p);
    match f with
    | Ok f => mret f
    | Err e =>
      if errIs e ErrNotExist then throw e
      else
        st ← attempt (os_Stat outside p);
        match st with
        | Err _ => throw e
        | Ok _ => openWithRetry attempts e p
        end
    end
  end.

Definition Get (d : Digest) : M FS ReadCloser :=
  ctxErr;;
  lift (keyed d "fs: get");;
  f ← attempt (openWithRetry 20 (Prelude.New "") (digestPath d));
  match f with
  | Ok f => mret f
  | Err e => if errIs e ErrNotExist then throw (Errorf "%w: %s" ErrNotFound) else throw (Errorf "cas: open object: %w" e)
  end.

Definition Exists (d : Digest) : M FS bool :=
  ctxErr;;
  lift (keyed d "fs: exists");;
  st ← attempt (os_Stat outside (digestPath d));
  match st with
  | Ok _ => mret true
  | Err e => if errIs e ErrNotExist then mret false else throw (Errorf "cas: stat object: %w" e)
  end.

Definition Delete (d : Digest) : M FS unit :=
  ctxErr;;
  lift (keyed d "fs: delete");;
  rm ← attempt (os_Remove outside (digestPath d));
  match rm with
  | Ok _ => mret tt
  | Err e => if errIs e ErrNotExist then mret tt else throw (Errorf "cas: delete object: %w" e)
  end.

Definition physicalStat (d : Digest) (what : string) : M FS (Z * Z) :=
  ctxErr;;
  lift (keyed d what);;
  st ← attempt (os_Stat outside (digestPath d));
  match st with
  | Ok fi => mret (sizeOf fi, modTime fi)
  | Err e => if errIs e ErrNotExist then throw (Errorf "%w: %s" ErrNotFound) else throw (Errorf "cas: stat object: %w" e)
  end.
Definition Size (d : Digest) : M FS Z := p ← physicalStat d "fs: size"; mret p.1.
Definition ModTime (d : Digest) : M FS Z := p ← physicalStat d "fs: mod time"; mret p.2.
Definition Stat (d : Digest) : M FS (Z * Z) := physicalStat d "fs: stat".

(** ** The walks *)
(** The callback's prologue: the context, then the walk's own error. *)
Definition walkGuard {B} (err : option error) (k : M (FS * B) unit) : M (FS * B) unit :=
  ctxErr;;
  match err with
  | Some e => if errIs e ErrNotExist then mret tt else throw e
  | None => k
  end.

Definition listEntry (p : path) (e : entry) (err : option error) : M (FS * list Digest) unit :=
  walkGuard err
    (if isDir e then mret tt
     else match pathToDigest p with
          | Err _ => mret tt
          | Ok digest => modify (fun st => (st.1, st.2 ++ [digest]))
          end).

Definition List : M FS (list Digest) :=
  ctxErr;;
  mapErr (Errorf "cas: list objects: %w") (os_Stat outside []);;
  '(err, digests) ← withVar [] (WalkDir outside listEntry);
  match err with
  | Some e => if errIs e ErrNotExist then mret digests else throw (Errorf "cas: list objects: %w" e)
  | None => mret (sortBytes digests)
  end.

Definition statsEntry (p : path) (e : entry) (err : option error) : M (FS * Stats) unit :=
  walkGuard err
    (if isDir e then mret tt
     else match pathToDigest p with
          | Err _ => mret tt
          | Ok _ =>
            info ← attempt (onFS (os_Lstat outside p));
            match info with
            | Err e => if errIs e ErrNotExist then mret tt else throw e
            | Ok info => modify (fun st => (st.1, mkStats (int64 (TotalSize st.2 + sizeOf info)) (int64 (ObjectCount st.2 + 1))))
            end
          end).

Definition Stats : M FS Stats :=
  ctxErr;;
  mapErr (Errorf "cas: stats: %w") (os_Stat outside []);;
  '(err, st) ← withVar (mkStats 0 0) (WalkDir outside statsEntry);
  match err with
  | Some e => if errIs e ErrNotExist then mret st else throw (Errorf "cas: stats: %w" e)
  | None => mret st
  end.

(** [cleanTemp]: the count comes back with an error too. *)
Definition cleanEntry (olderThan cutoff : Z) (p : path) (e : entry) (err : option error) : M (FS * Z) unit :=
  walkGuard err
    (if isDir e || negb (IsTempFile (default [] (list.last p))) then mret tt
     else
       keep ← (if 0 <? olderThan then fi ← onFS (os_Lstat outside p); mret (cutoff <? modTime fi) else mret false);
       if (keep : bool) then mret tt
       else
         rm ← attempt (onFS (os_Remove outside p));
         match rm with
         | Err e => if errIs e ErrNotExist then mret tt else throw e
         | Ok _ => modify (fun st => (st.1, st.2 + 1))
         end).

Definition cleanTemp (olderThan : Z) : M FS (Z * option error) :=
  r ← attempt ctxErr;
  match r with
  | Err e => mret (0, Some e)
  | Ok _ =>
    s ← get;
    '(err, removed) ← withVar 0 (WalkDir outside (cleanEntry olderThan (clock s - olderThan)));
    match err with
    | Some e => if errIs e ErrNotExist then mret (removed, None) else mret (removed, Some (Errorf "cas: clean: %w" e))
    | None => mret (removed, None)
    end
  end.
Definition Clean (olderThan : Z) : M FS Z :=
  '(removed, err) ← cleanTemp olderThan;
  match err with Some e => throw e | None => mret removed end.

(** ** GC and Prune *)
Definition GC (reachable : gmap bytes bool) : M FS unit :=
  digests ← List;
  forM_ digests (fun d =>
    ctxErr;;
    if negb (addressable d) then mret tt
    else if negb (default false (reachable !! DString d)) then Delete d else mret tt).

Definition pruneOne (reachable : gmap bytes bool) (now minAge : Z) (doomed : list Digest) (d : Digest) : M FS (list Digest) :=
  ctxErr;;
  if negb (addressable d) then mret doomed
  else if default false (reachable !! DString d) then mret doomed
  else if negb (sliceable d) then throw (Prelude.New "runtime error: slice bounds out of range")
  else
    info ← attempt (os_Stat outside (digestPath d));
    match info with
    | Err _ => mret doomed
    | Ok info => if timeSub now (modTime info) <? minAge then mret doomed else mret (doomed ++ [d])
    end.
Definition Prune (reachable : gmap bytes bool) (minAge : Z) (dryRun : bool) : M FS (list Digest) :=
  digests ← List;
  s ← get;
  doomed ← foldM digests [] (pruneOne reachable (clock s) minAge);
  if dryRun then mret doomed
  else
    forM_ doomed (fun d => ctxErr;; Delete d);;
    mret doomed.

Definition Verify (hasher : Hasher) (bk : Backend FS) (d : Digest) : M FS unit :=
  lift (checkKey d "fs: verify");;
  Sweep.Verify bk hasher d.

Definition Backend : Backend FS :=
  mkBackend Put Get Exists Delete List Stats (Some (Size, ModTime)) (Some Clean) None.
End Fs.
End Fs.
