(* ===== verification/Snapshot.v ===== *)
(** Backup streams (src/cas/backend/mem/snapshot.go,
    src/cas/backend/snapshot/snapshot.go): the whole contents of the memory
    backend, or of any backend, written to one stream and read back. *)

From S2P Require Import Prelude Digest Binary Stream Backend MemBackend.

(** ** The record format both share *)
Definition record (key data : bytes) : bytes := be_put 8 (blen key) ++ be_put 8 (blen data) ++ key ++ data.
Definition records (l : list (Digest * bytes)) : bytes := concat ((fun kd => record kd.1 kd.2) <$> l).
Definition maxSnapshotDigestSize : Z := Z.shiftl 1 20.
Definition maxDigestSize : Z := Z.shiftl 1 20.

Definition payloadSum (l : list (Digest * bytes)) : Z := foldr (fun kd acc => blen kd.2 + acc) 0 l.
(** The map a sequence of records builds, and what makes the sequence one of
    distinct keys that the map did not hold. *)
Definition addAll (m : gmap Digest bytes) (l : list (Digest * bytes)) : gmap Digest bytes :=
  foldl (fun m kd => <[kd.1 := kd.2]> m) m l.
Definition fresh (m : gmap Digest bytes) (l : list (Digest * bytes)) : Prop :=
  NoDup l.*1 /\ forall k, k ∈ l.*1 -> m !! k = None.

Lemma records_cons k d l : records ((k, d) :: l) = record k d ++ records l.
Proof. done. Qed.
Lemma payloadSum_nonneg l : 0 <= payloadSum l.
Proof. induction l; simpl; lia. Qed.
Lemma fresh_cons m k d l : fresh m ((k, d) :: l) <-> m !! k = None /\ fresh (<[k := d]> m) l.
Proof.
  unfold fresh. rewrite fmap_cons, list.NoDup_cons. simpl. split.
  - intros [[Hk Hnd] Hm]. split; [apply Hm; left|]. split; [done|]. intros k' Hk'.
    rewrite lookup_insert_ne by (intros ->; done). apply Hm. by right.
  - intros [Hk [Hnd Hm]]. split_and!; try done.
    + intros Hin. apply Hm in Hin. by rewrite lookup_insert_eq in Hin.
    + intros k' [->|Hk']%elem_of_cons; [done|]. apply Hm in Hk'.
      destruct (decide (k' = k)) as [->|Hne]; [done|]. by rewrite lookup_insert_ne in Hk'.
Qed.
Lemma sumLen_addAll m l : fresh m l -> sumLen (addAll m l) = sumLen m + payloadSum l.
Proof.
  revert m. induction l as [|[k d] l IH]; intros m Hf; simpl; [lia|].
  apply fresh_cons in Hf as [Hk Hf]. rewrite IH by done. rewrite sumLen_insert_None by done. lia.
Qed.
Lemma addAll_union m l : fresh m l -> addAll m l = list_to_map l ∪ m.
Proof.
  revert m. induction l as [|[k d] l IH]; intros m Hf; simpl; [by rewrite map_empty_union|].
  pose proof Hf as [Hnd _]. apply list.NoDup_cons in Hnd as [Hk _].
  apply fresh_cons in Hf as [_ Hf]. rewrite IH by done.
  rewrite <- insert_union_r; [by rewrite insert_union_l|]. by apply not_elem_of_list_to_map_1.
Qed.
(** Records of all of a map's entries, in any order, build the map. *)
Lemma addAll_perm l m : Permutation l (map_to_list m) -> fresh ∅ l /\ addAll ∅ l = m.
Proof.
  intros Hp.
  assert (Hf : fresh ∅ l) by (split; [rewrite Hp; apply NoDup_fst_map_to_list|done]).
  split; [done|]. rewrite addAll_union, map_union_empty by done.
  rewrite <- (list_to_map_to_list m). apply list_to_map_proper; [apply Hf|done].
Qed.

(** ** The memory backend's own snapshot *)
Module MemSnapshot.
Import MemBackend.Mem.

Definition snapshotMagic : bytes := str "CASKMEM" ++ [x00].
Definition snapshotVersion : Z := 1.
Definition snapshotHeader (count total : Z) : bytes :=
  snapshotMagic ++ be_put 2 snapshotVersion ++ be_put 8 count ++ be_put 8 total.
Definition snapshotHeaderSize : nat := 26.

Definition Snapshot : M (Mem * Writer) unit :=
  ctxErr;;
  m ← onFst get;
  let present := filter (fun kd => kd.1 <> []) (map_to_list (objects m)) in
  let keys := sortBytes present.*1 in
  let total := foldl (fun t kd => wrap64 (t + blen kd.2)) 0 present in
  onSnd (mapErr (Errorf "mem: write snapshot header: %w") (WriteAll (snapshotHeader (blen keys) total)));;
  forM_ keys (fun key =>
    ctxErr;;
    let data := default [] (objects m !! key) in
    onSnd (mapErr (Errorf "mem: write snapshot record lengths: %w")
             (WriteAll (be_put 8 (blen key) ++ be_put 8 (blen data))));;
    onSnd (mapErr (Errorf "mem: write snapshot digest: %w") (WriteAll key));;
    onSnd (mapErr (Errorf "mem: write snapshot payload: %w") (WriteAll data))).

(** The guards on one record's declared lengths. *)
Definition checkLengths (maxBytes declaredTotal total digestSize payloadSize : Z) : res Z :=
  if (digestSize =? 0) || (maxSnapshotDigestSize <? digestSize) || (MaxInt64 <? digestSize)
  then Err (Prelude.New "mem: invalid snapshot digest size")
  else if MaxInt64 <? payloadSize then Err (Prelude.New "mem: invalid snapshot payload size")
  else if wrap64 (MaxInt64 - total) <? payloadSize then Err (Prelude.New "mem: snapshot size overflows")
  else
    let total := wrap64 (total + payloadSize) in
    if declaredTotal <? total then Err (Prelude.New "mem: snapshot payload exceeds declared size")
    else if (0 <? maxBytes) && (maxBytes <? total) then Err (Prelude.New "mem: snapshot exceeds max size %d bytes")
    else Ok total.

(** [for range count]: the map built so far and the total of its payloads. *)
Fixpoint restoreLoop (count : nat) (maxBytes declaredTotal : Z) (objects : gmap Digest bytes) (total : Z)
    : M Reader (gmap Digest bytes * Z) :=
  match count with
  | O => mret (objects, total)
  | S count =>
    ctxErr;;
    lengths ← mapErr (Errorf "mem: read snapshot record lengths: %w") (BackendReadAll 16);
    let digestSize := be_get (take 8 lengths) in
    let payloadSize := be_get (drop 8 lengths) in
    total ← lift (checkLengths maxBytes declaredTotal total digestSize payloadSize);
    digest ← mapErr (Errorf "mem: read snapshot digest: %w") (BackendReadAll (Z.to_nat digestSize));
    let d := NewDigest digest in
    if IsZero d then throw (Prelude.New "mem: snapshot contains an empty digest")
    else if bool_decide (is_Some (objects !! d)) then throw (Prelude.New "mem: snapshot contains duplicate digest")
    else
      payload ← mapErr (Errorf "mem: read snapshot payload: %w") (ReadPayload payloadSize);
      restoreLoop count maxBytes declaredTotal (<[d := payload]> objects) total
  end.

(** The one-byte read that must find the end of the stream. *)
Definition noTrailing : M Reader unit := fun c r =>
  match ContextReader_Read 1 c r with
  | (b, e, c', r') =>
    (if negb (bool_decide (b = [])) then Err (Prelude.New "mem: snapshot trailing data")
     else match e with
          | None => Err (Prelude.New "mem: snapshot trailing data")
          | Some e => if errIs e EOF then Ok tt else Err (Errorf "mem: check snapshot trailing data: %w" e)
          end, c', r')
  end.

(** Everything Restore reads and checks, before it touches the backend. *)
Definition readSnapshot (maxBytes : Z) : M Reader (gmap Digest bytes * Z) :=
  header ← mapErr (Errorf "mem: read snapshot header: %w") (BackendReadAll snapshotHeaderSize);
  if negb (bool_decide (take 8 header = snapshotMagic)) then throw (Prelude.New "mem: invalid snapshot magic")
  else if negb (be_get (take 2 (drop 8 header)) =? snapshotVersion)
  then throw (Prelude.New "mem: unsupported snapshot version")
  else
    let count := be_get (take 8 (drop 10 header)) in
    let declaredTotal := be_get (drop 18 header) in
    if MaxInt64 <? count then throw (Prelude.New "mem: snapshot object count is too large")
    else if MaxInt64 <? declaredTotal then throw (Prelude.New "mem: snapshot size is too large")
    else if (0 <? maxBytes) && (maxBytes <? declaredTotal)
    then throw (Prelude.New "mem: snapshot exceeds max size %d bytes")
    else
      '(objects, total) ← restoreLoop (Z.to_nat count) maxBytes declaredTotal ∅ 0;
      if negb (total =? declaredTotal) then throw (Prelude.New "mem: snapshot total size mismatch")
      else
        noTrailing;;
        mret (objects, total).

Definition Restore : M (Mem * Reader) unit :=
  ctxErr;;
  m ← onFst get;
  '(objs, total) ← onSnd (readSnapshot (maxBytes m));
  onFst (put (mkMem objs (maxBytes m) (int64 total))).

(** ** Reading records back *)
Definition goodKey (kd : Digest * bytes) : Prop := kd.1 <> [] /\ blen kd.1 <= maxSnapshotDigestSize.

Lemma checkLengths_ok mb dt total ds ps t :
  0 <= total <= MaxInt64 -> 0 <= ds -> 0 <= ps ->
  checkLengths mb dt total ds ps = Ok t <->
  0 < ds <= maxSnapshotDigestSize /\ t = total + ps /\ t <= MaxInt64 /\ t <= dt /\ (0 < mb -> t <= mb).
Proof.
  unfold MaxInt64, maxSnapshotDigestSize. change (Z.shiftl 1 20) with (2^20). intros Ht Hd Hp. unfold checkLengths, maxSnapshotDigestSize, MaxInt64.
  change (Z.shiftl 1 20) with (2^20). rewrite (wrap64_id (_ - _)) by lia.
  destruct (Z.eqb_spec ds 0); simpl; [split; [done|lia]|].
  destruct (Z.ltb_spec (2^20) ds); simpl; [split; [done|lia]|].
  destruct (Z.ltb_spec (2^63 - 1) ds); simpl; [split; [done|lia]|].
  destruct (Z.ltb_spec (2^63 - 1) ps); simpl; [split; [done|lia]|].
  destruct (Z.ltb_spec (2^63 - 1 - total) ps); simpl; [split; [done|lia]|].
  rewrite wrap64_id by lia.
  destruct (Z.ltb_spec dt (total + ps)); simpl; [split; [done|lia]|].
  destruct (Z.ltb_spec 0 mb), (Z.ltb_spec mb (total + ps)); simpl; (split; [intros [= <-]|]); intros; try lia; f_equal; lia.
Qed.

Lemma restoreLoop_sound n mb dt objs total c r objs' total' c' r' :
  0 <= total <= MaxInt64 ->
  restoreLoop n mb dt objs total c r = (Ok (objs', total'), c', r') ->
  exists l, length l = n /\ rd_data r = records l ++ rd_data r' /\ objs' = addAll objs l /\ fresh objs l /\
    Forall goodKey l /\ total' = total + payloadSum l /\ total' <= MaxInt64 /\
    (l = [] \/ (total' <= dt /\ (0 < mb -> total' <= mb))) /\ rd_tail r' = rd_tail r /\ (tidy r -> tidy r').
Proof.
  revert objs total c r. induction n as [|n IH]; intros objs total c r Ht H; simpl in H.
  { munfold. simplify_eq. exists []. split_and!; try done; [by split; [constructor|set_solver]|simpl; lia|lia|by left]. }
  mstep H as E; apply ctxErr_inv in E as ->.
  mstep H as E with lengths c1 r1. apply readN_sound in E as (Hd & Hlen & Htl & Htd).
  set (ds := be_get (take 8 lengths)) in *. set (ps := be_get (drop 8 lengths)) in *.
  pose proof (be_get_range (take 8 lengths)) as Hds. pose proof (be_get_range (drop 8 lengths)) as Hps.
  mstep H as E1; apply lift_inv in E1 as (E1 & -> & ->). symmetry in E1.
  apply checkLengths_ok in E1 as (Hdsz & -> & Htm & Htd1 & Htmb); [|lia..].
  mstep H as E2 with digest c2 r2. apply readN_sound in E2 as (Hd2 & Hlen2 & Htl2 & Htdy2).
  destruct (IsZero _) eqn:Ez; [done|]. case_bool_decide as Hex; [done|].
  rewrite NewDigest_id in *. apply eq_None_not_Some in Hex.
  mstep H as E3 with payload c3 r3. apply readPayload_sound in E3 as (Hd3 & Hlen3 & Htl3 & Htdy3); [|unfold MaxInt64 in *; lia].
  apply IH in H as (l & <- & Hdl & -> & Hf & Hg & -> & Hm & Hb & Htl4 & Htdy4); [|unfold MaxInt64 in *; lia].
  exists ((digest, payload) :: l). pose proof (payloadSum_nonneg l).
  change (payloadSum ((digest, payload) :: l)) with (blen payload + payloadSum l). split_and!; try done; try lia.
  - rewrite Hd, Hd2, Hd3, Hdl, records_cons. unfold record.
    replace (blen digest) with ds by lia. rewrite Hlen3, !app_assoc. do 4 f_equal.
    rewrite <- (take_drop 8 lengths) at 1. f_equal.
    + pose proof (be_put_get (take 8 lengths)) as Hp. by rewrite length_take_le in Hp by lia.
    + pose proof (be_put_get (drop 8 lengths)) as Hp. rewrite length_drop, Hlen in Hp. done.
  - by apply fresh_cons.
  - constructor; [|done]. split; simpl; [|lia]. by intros ->.
  - right. destruct Hb as [->|[??]]; simpl in *; [|auto]. split; [lia|]. intros. specialize (Htmb ltac:(done)). lia.
  - congruence.
  - auto.
Qed.

Lemma restoreLoop_total l mb dt objs total rest r :
  rd_data r = records l ++ rest -> fresh objs l -> Forall goodKey l ->
  0 <= total -> total + payloadSum l <= MaxInt64 -> total + payloadSum l <= dt ->
  (0 < mb -> total + payloadSum l <= mb) ->
  exists r', restoreLoop (length l) mb dt objs total [] r = (Ok (addAll objs l, total + payloadSum l), [], r') /\
    rd_data r' = rest /\ rd_tail r' = rd_tail r /\ (tidy r -> tidy r').
Proof.
  revert objs total r. induction l as [|[k d] l IH]; intros objs total r Hr Hf Hg Ht Hm Hdt Hmb; cbn [restoreLoop length] in *.
  { munfold. exists r. change (payloadSum []) with 0. rewrite Z.add_0_r. done. }
  change (payloadSum ((k, d) :: l)) with (blen d + payloadSum l) in *.
  change (addAll objs ((k, d) :: l)) with (addAll (<[k := d]> objs) l).
  apply fresh_cons in Hf as [Hk Hf]. apply list.Forall_cons in Hg as [[Hne Hlen] Hg]. simpl in Hne, Hlen.
  pose proof (payloadSum_nonneg l). unfold MaxInt64, maxSnapshotDigestSize in *.
  change (Z.shiftl 1 20) with (2^20) in *.
  rewrite records_cons in Hr. unfold record in Hr. rewrite <- !app_assoc in Hr.
  assert (0 < length k)%nat by (destruct k; [done|simpl; lia]).
  erewrite bind_ok by apply ctxErr_nil.
  destruct (readN_total (Errorf "mem: read snapshot record lengths: %w") 16 r
    (be_put 8 (blen k) ++ be_put 8 (blen d)) (k ++ d ++ records l ++ rest)) as (r1 & E1 & Hd1 & Ht1 & Hy1);
    [by rewrite Hr, <- app_assoc|by rewrite length_app, !length_be_put|].
  erewrite bind_ok by exact E1.
  rewrite take_app_exact, drop_app_exact by by rewrite length_be_put.
  rewrite !be_get_put by (simpl; lia). cbv zeta.
  erewrite bind_ok.
  2:{ unfold lift. do 2 f_equal. apply (checkLengths_ok mb dt total (blen k) (blen d) (total + blen d));
      unfold MaxInt64, maxSnapshotDigestSize; change (Z.shiftl 1 20) with (2^20); lia. }
  destruct (readN_total (Errorf "mem: read snapshot digest: %w") (Z.to_nat (blen k)) r1 k (d ++ records l ++ rest))
    as (r2 & E2 & Hd2 & Ht2 & Hy2); [done|lia|].
  erewrite bind_ok by exact E2. rewrite NewDigest_id.
  destruct (IsZero k) eqn:Ez; [by apply IsZero_true in Ez|]. rewrite bool_decide_eq_false_2 by (rewrite Hk; by intros [? ?]).
  destruct (readPayload_total (Errorf "mem: read snapshot payload: %w") (blen d) r2 d (records l ++ rest))
    as (r3 & E3 & Hd3 & Ht3 & Hy3); [done|done|lia|].
  erewrite bind_ok by exact E3.
  destruct (IH (<[k := d]> objs) (total + blen d) r3 Hd3 Hf Hg) as (r' & E & Hd & Htl & Hy); [lia..|].
  exists r'. rewrite E. split_and!; try done; [do 4 f_equal; lia|congruence|auto].
Qed.

(** ** The whole stream *)
Definition snapshotBytes (l : list (Digest * bytes)) : bytes := snapshotHeader (blen l) (payloadSum l) ++ records l.

Lemma header_fields count total :
  let h := snapshotHeader count total in
  length h = 26%nat /\ take 8 h = snapshotMagic /\ take 2 (drop 8 h) = be_put 2 snapshotVersion /\
  take 8 (drop 10 h) = be_put 8 count /\ drop 18 h = be_put 8 total.
Proof.
  cbv zeta. unfold snapshotHeader. remember (be_put 8 count) as a eqn:Ea. remember (be_put 8 total) as b eqn:Eb.
  assert (length a = 8%nat) by (subst; apply length_be_put). assert (length b = 8%nat) by (subst; apply length_be_put).
  rewrite !length_app. split_and!; try done.
  - simpl. lia.
  - by destruct a as [|? [|? [|? [|? [|? [|? [|? [|? []]]]]]]]].
  - by destruct a as [|? [|? [|? [|? [|? [|? [|? [|? []]]]]]]]].
Qed.
Lemma header_of_fields (h : bytes) :
  length h = 26%nat -> take 8 h = snapshotMagic -> be_get (take 2 (drop 8 h)) = snapshotVersion ->
  h = snapshotHeader (be_get (take 8 (drop 10 h))) (be_get (drop 18 h)).
Proof.
  intros Hl Hm Hv. unfold snapshotHeader. rewrite <- Hv, <- Hm.
  pose proof (be_put_get (take 2 (drop 8 h))) as H1. rewrite length_take_le in H1 by (rewrite length_drop; lia). rewrite H1.
  pose proof (be_put_get (take 8 (drop 10 h))) as H2. rewrite length_take_le in H2 by (rewrite length_drop; lia). rewrite H2.
  pose proof (be_put_get (drop 18 h)) as H3. replace (length (drop 18 h)) with 8%nat in H3 by (rewrite length_drop; lia). rewrite H3.
  rewrite <- (take_drop 8 h) at 1. f_equal. rewrite <- (take_drop 2 (drop 8 h)) at 1. f_equal.
  rewrite drop_drop. rewrite <- (take_drop 8 (drop (8 + 2) h)) at 1. by rewrite drop_drop.
Qed.

Lemma noTrailing_sound c r u c' r' :
  noTrailing c r = (Ok u, c', r') -> rd_data r = [] /\ errIs (rd_tail r) EOF = true.
Proof.
  unfold noTrailing, ContextReader_Read, rd_data. destruct c as [|[d|] c]; simpl; [|by destruct d|];
    unfold readOnce; (destruct (rd_chunks r) as [|x cs]; simpl;
    [by destruct (errIs (rd_tail r) EOF)|]); destruct (_ <=? _)%nat; by case_bool_decide.
Qed.
Lemma noTrailing_total r : rd_chunks r = [] -> rd_tail r = Sentinel EOF -> exists r', noTrailing [] r = (Ok tt, [], r').
Proof. unfold noTrailing, ContextReader_Read, readOnce. simpl. intros -> ->. eauto. Qed.

Lemma readSnapshot_sound mb c r objs total c' r' :
  readSnapshot mb c r = (Ok (objs, total), c', r') ->
  exists l, rd_data r = snapshotBytes l /\ objs = addAll ∅ l /\ fresh ∅ l /\ Forall goodKey l /\
    total = payloadSum l /\ total <= MaxInt64 /\ (0 < mb -> total <= mb) /\ errIs (rd_tail r) EOF = true.
Proof.
  intros H. unfold readSnapshot in H. mstep H as E with h c1 r1. apply readN_sound in E as (Hd & Hlen & Ht & _).
  case_bool_decide as Hm; [|done]. destruct (Z.eqb_spec (be_get (take 2 (drop 8 h))) snapshotVersion) as [Hv|]; [|done].
  cbn [negb] in H.
  remember (be_get (take 8 (drop 10 h))) as count eqn:Ec. remember (be_get (drop 18 h)) as decl eqn:Ed.
  destruct (Z.ltb_spec MaxInt64 count); [done|]. destruct (Z.ltb_spec MaxInt64 decl); [done|].
  destruct ((0 <? mb) && (mb <? decl)) eqn:Ecap; [done|].
  mstep H as E1 with p c2 r2. destruct p as [objs1 total1].
  apply restoreLoop_sound in E1 as (l & Hl & Hdl & -> & Hf & Hg & -> & Hmx & _ & Ht2 & _); [|unfold MaxInt64; lia].
  destruct (Z.eqb_spec (0 + payloadSum l) decl) as [Hdecl|]; [|done]. simpl in H.
  mstep H as E2 with u c3 r3. apply noTrailing_sound in E2 as [Hend Heof]. munfold. injection H as <- <- _ _.
  exists l. split_and!; try done; try lia.
  - rewrite Hd, Hdl, Hend, app_nil_r. unfold snapshotBytes. f_equal.
    rewrite (header_of_fields h), <- Ec, <- Ed by done.
    pose proof (be_get_range (take 8 (drop 10 h))). f_equal; lia.
  - congruence.
Qed.

Lemma readSnapshot_total mb l r :
  rd_data r = snapshotBytes l -> tidy r -> rd_tail r = Sentinel EOF -> fresh ∅ l -> Forall goodKey l ->
  blen l <= MaxInt64 -> payloadSum l <= MaxInt64 -> (0 < mb -> payloadSum l <= mb) ->
  exists r', readSnapshot mb [] r = (Ok (addAll ∅ l, payloadSum l), [], r').
Proof.
  intros Hr Hy Ht Hf Hg Hn Hs Hmb. pose proof (payloadSum_nonneg l). unfold readSnapshot.
  destruct (header_fields (blen l) (payloadSum l)) as (Hlen & Hm & Hv & Hc & Hd).
  destruct (readN_total (Errorf "mem: read snapshot header: %w") snapshotHeaderSize r _ (records l) Hr Hlen)
    as (r1 & E1 & Hd1 & Ht1 & Hy1).
  erewrite bind_ok by exact E1. rewrite Hm, Hv, Hc, Hd, bool_decide_eq_true_2 by done.
  unfold MaxInt64, snapshotVersion in *. rewrite !be_get_put by (simpl; lia). cbn [negb Z.eqb Pos.eqb].
  destruct (Z.ltb_spec (2^63 - 1) (blen l)); [lia|]. destruct (Z.ltb_spec (2^63 - 1) (payloadSum l)); [lia|].
  assert ((0 <? mb) && (mb <? payloadSum l) = false) as ->.
  { destruct (Z.ltb_spec 0 mb), (Z.ltb_spec mb (payloadSum l)); simpl; (done || lia). }
  destruct (restoreLoop_total l mb (payloadSum l) ∅ 0 [] r1) as (r2 & E2 & Hd2 & Ht2 & Hy2);
    unfold MaxInt64; try done; try lia; [by rewrite app_nil_r|].
  rewrite Nat2Z.id. erewrite bind_ok by exact E2. cbv iota beta. rewrite Z.add_0_l, Z.eqb_refl.
  destruct (noTrailing_total r2) as (r3 & E3); [by apply tidy_nil; auto|congruence|].
  cbn [negb]. erewrite bind_ok by exact E3. munfold. eauto.
Qed.

(** ** The writing side *)
Lemma write_ok {S} f data out (st : S) :
  onSnd (mapErr f (WriteAll data)) [] (st, mkWriter out []) = (Ok tt, [], (st, mkWriter (out ++ data) [])).
Proof. unfold onSnd, mapErr. cbn [fst snd]. by rewrite WriteAll_plain. Qed.

(** The sorted entries of the map: what Snapshot writes. *)
Definition entries (m : gmap Digest bytes) : list (Digest * bytes) :=
  (fun k => (k, default [] (m !! k))) <$> sortBytes (filter (fun kd => kd.1 <> []) (map_to_list m)).*1.

Lemma payloadSum_perm l k : Permutation l k -> payloadSum l = payloadSum k.
Proof. induction 1; simpl; lia. Qed.
Lemma payloadSum_map m : payloadSum (map_to_list m) = sumLen m.
Proof. unfold sumLen, payloadSum. rewrite map_fold_foldr. apply foldr_ext; [|done|done]. by intros []. Qed.
Lemma map_keys_nonempty (m : gmap Digest bytes) :
  m !! [] = None -> filter (fun kd => kd.1 <> []) (map_to_list m) = map_to_list m.
Proof.
  intros Hm. apply filter_all. intros [k v] Hin; simpl. intros ->. apply elem_of_map_to_list in Hin. congruence.
Qed.
Lemma entries_perm m : m !! [] = None -> Permutation (entries m) (map_to_list m).
Proof.
  intros Hm. unfold entries. rewrite sortBytes_perm, map_keys_nonempty by done.
  rewrite <- list_fmap_compose. rewrite <- (list_fmap_id (map_to_list m)) at 2.
  apply reflexive_eq, list_fmap_ext. intros i [k v] Hi%list_elem_of_lookup_2%elem_of_map_to_list. simpl. by rewrite Hi.
Qed.

Lemma total_wrap l t :
  0 <= t -> t + payloadSum l < 2^64 -> foldl (fun t kd => wrap64 (t + blen (kd : Digest * bytes).2)) t l = t + payloadSum l.
Proof.
  revert t. induction l as [|[k d] l IH]; intros t Ht Hs; simpl in *; [lia|].
  pose proof (payloadSum_nonneg l). rewrite wrap64_id by lia. rewrite IH by lia. lia.
Qed.

Lemma snapshot_loop (m : Mem) keys out :
  forM_ keys (fun key =>
    ctxErr;;
    let data := default [] (objects m !! key) in
    onSnd (mapErr (Errorf "mem: write snapshot record lengths: %w")
             (WriteAll (be_put 8 (blen key) ++ be_put 8 (blen data))));;
    onSnd (mapErr (Errorf "mem: write snapshot digest: %w") (WriteAll key));;
    onSnd (mapErr (Errorf "mem: write snapshot payload: %w") (WriteAll data))) [] (m, mkWriter out []) =
  (Ok tt, [], (m, mkWriter (out ++ records ((fun k => (k, default [] (objects m !! k))) <$> keys)) [])).
Proof.
  revert out. induction keys as [|k keys IH]; intros out; cbn [forM_]; [by rewrite app_nil_r|].
  erewrite bind_ok.
  2:{ erewrite bind_ok by apply ctxErr_nil. erewrite bind_ok by apply write_ok. erewrite bind_ok by apply write_ok. apply write_ok. }
  rewrite IH, fmap_cons, records_cons. unfold record. by rewrite !app_assoc.
Qed.

Lemma Snapshot_writes (m : Mem) out :
  objects m !! [] = None -> sumLen (objects m) < 2^64 ->
  Snapshot [] (m, mkWriter out []) = (Ok tt, [], (m, mkWriter (out ++ snapshotBytes (entries (objects m))) [])).
Proof.
  intros Hm Hs. unfold Snapshot. erewrite bind_ok by apply ctxErr_nil. erewrite bind_ok by (unfold onFst, get; reflexivity).
  cbv zeta. cbn [fst]. erewrite bind_ok by apply write_ok. rewrite map_keys_nonempty by done.
  rewrite total_wrap, payloadSum_map by (rewrite ?payloadSum_map; lia).
  rewrite snapshot_loop. unfold snapshotBytes.
  rewrite (payloadSum_perm _ _ (entries_perm _ Hm)), payloadSum_map.
  unfold entries. rewrite map_keys_nonempty, length_fmap, app_assoc by done. done.
Qed.

(** A backup restores to what it backed up: the snapshot of a memory
    backend, read back by Restore through any reader that delivers its bytes
    (in whatever runs), into any backend whose cap allows it and whatever that
    one held, leaves exactly the original objects there, the original backend
    unchanged, and the accounting exact. *)
Theorem mem_Snapshot_roundtrip (m m2 : Mem) (r : Reader) :
  inv m -> inv m2 ->
  (forall k, is_Some (objects m !! k) -> blen k <= maxSnapshotDigestSize) ->
  sumLen (objects m) <= MaxInt64 -> Z.of_nat (size (objects m)) <= MaxInt64 ->
  (0 < maxBytes m2 -> sumLen (objects m) <= maxBytes m2) ->
  rd_data r = w_out (run_st (Snapshot [] (m, mkWriter [] []))).2 -> tidy r -> rd_tail r = Sentinel EOF ->
  run_res (Snapshot [] (m, mkWriter [] [])) = Ok tt /\ (run_st (Snapshot [] (m, mkWriter [] []))).1 = m /\
  exists r', Restore [] (m2, r) = (Ok tt, [], (mkMem (objects m) (maxBytes m2) (sumLen (objects m)), r')).
Proof.
  intros Hi Hi2 Hk Hs Hn Hcap. pose proof (inv_key m Hi) as Hm.
  rewrite Snapshot_writes by (try done; unfold MaxInt64 in *; lia). intros Hr Hy Ht. simpl in Hr. split_and!; [done..|].
  pose proof (entries_perm _ Hm) as Hp. pose proof (addAll_perm _ _ Hp) as [Hf Ha].
  assert (Hsum : payloadSum (entries (objects m)) = sumLen (objects m)) by by rewrite (payloadSum_perm _ _ Hp), payloadSum_map.
  destruct (readSnapshot_total (maxBytes m2) (entries (objects m)) r) as [r' E]; try done; try (by rewrite Hsum).
  - apply list.Forall_forall. intros [k v] Hin. rewrite Hp in Hin. apply elem_of_map_to_list in Hin.
    split; simpl; [intros ->; congruence|]. apply Hk. by eexists.
  - by rewrite Hp, length_map_to_list.
  - exists r'. unfold Restore. erewrite bind_ok by apply ctxErr_nil. erewrite bind_ok by (unfold onFst, get; reflexivity).
    cbn [fst snd]. erewrite bind_ok by (unfold onSnd; cbn [fst snd]; rewrite E; reflexivity). cbv beta iota.
    unfold onFst, put. cbn [fst snd]. rewrite Ha, Hsum, int64_id; [done|].
    pose proof (sumLen_nonneg (objects m)). unfold MaxInt64 in *. lia.
Qed.

(** Restore is all or nothing and accepts only whole backups: under any
    context and on any input, a failed Restore leaves the backend as it was; a
    successful one read, to the end of the stream, a header and as many records
    as it declares, with distinct non-empty digests of at most 1 MiB, sizes that
    add up to the declared total and stay within the cap, and the backend holds
    exactly those records, its invariant restored. *)
Theorem mem_Restore_spec (m m' : Mem) (r r' : Reader) (c c' : ctx) (res : res unit) :
  inv m -> Restore c (m, r) = (res, c', (m', r')) ->
  match res with
  | Err _ => m' = m
  | Ok _ => exists l, rd_data r = snapshotBytes l /\ fresh ∅ l /\ Forall goodKey l /\
      payloadSum l <= MaxInt64 /\ (0 < maxBytes m -> payloadSum l <= maxBytes m) /\
      objects m' = list_to_map l /\ maxBytes m' = maxBytes m /\ inv m'
  end.
Proof.
  intros Hi H. unfold Restore in H. mstep H as E; apply ctxErr_inv in E; simplify_eq; [|done].
  mstep H as E; unfold onFst, get in E; simplify_eq/=. mstep H as E1 with p c1 s1; unfold onSnd in E1; cbn [fst snd] in E1;
    destruct (readSnapshot _ _ _) as [[rs cs] rr] eqn:ER; simplify_eq; [|done].
  destruct p as [objs total]. apply readSnapshot_sound in ER as (l & Hr & -> & Hf & Hg & -> & Hm & Hcap & _).
  unfold onFst, put in H. cbn [fst snd] in H. simplify_eq. exists l.
  pose proof (sumLen_addAll ∅ l Hf) as Hs. rewrite sumLen_empty, Z.add_0_l in Hs.
  rewrite addAll_union, map_union_empty in * by done. simpl.
  split_and!; try done. split; simpl; try lia; [|by rewrite Hs|apply Hi].
  apply not_elem_of_list_to_map_1. intros Hin. apply list_elem_of_fmap in Hin as ([k v] & Hk & Hin). simpl in Hk. subst.
  rewrite list.Forall_forall in Hg. by destruct (Hg _ Hin).
Qed.

Definition backedUp : Mem := mkMem {[str "k" := str "abc"; str "j" := []]} 0 3.
Definition restored : Mem := mkMem {[str "old" := str "zz"]} 4 2.
Lemma backedUp_inv : inv backedUp.
Proof. split; vm_compute; try reflexivity; intros; discriminate. Qed.
Lemma restored_inv : inv restored.
Proof. split; vm_compute; try reflexivity; intros; discriminate. Qed.
Definition backup : bytes := snapshotBytes [(str "j", []); (str "k", str "abc")].
Lemma backup_written : backup = w_out (run_st (Snapshot [] (backedUp, mkWriter [] []))).2.
Proof. vm_compute. reflexivity. Qed.
Lemma backedUp_keys k : is_Some (objects backedUp !! k) -> blen k <= maxSnapshotDigestSize.
Proof.
  simpl. intros [v Hv]. destruct (decide (k = str "k")) as [->|]; [done|].
  destruct (decide (k = str "j")) as [->|]; [done|]. rewrite lookup_insert_ne, lookup_singleton_ne in Hv by congruence. done.
Qed.

Example mem_Snapshot_roundtrip_witness :
  exists r', Restore [] (restored, bytesReader backup) =
    (Ok tt, [], (mkMem (objects backedUp) 4 (sumLen (objects backedUp)), r')).
Proof.
  refine (proj2 (proj2 (mem_Snapshot_roundtrip backedUp restored (bytesReader backup) backedUp_inv restored_inv
    backedUp_keys _ _ _ _ (tidy_bytesReader backup) eq_refl))).
  - vm_compute. discriminate.
  - vm_compute. discriminate.
  - intros _. vm_compute. discriminate.
  - rewrite rd_data_bytesReader. exact backup_written.
Defined.

(** A truncated backup is refused and the backend keeps what it had. *)
Lemma truncated_run :
  exists r', Restore [] (restored, bytesReader (take 40 backup)) =
    (Err (Errorf "mem: read snapshot record lengths: %w" ErrUnexpectedEOF), [], (restored, r')).
Proof. eexists. vm_compute. reflexivity. Qed.
Example mem_Restore_spec_witness :
  exists m' r', Restore [] (restored, bytesReader (take 40 backup)) =
    (Err (Errorf "mem: read snapshot record lengths: %w" ErrUnexpectedEOF), [], (m', r')) /\ m' = restored.
Proof.
  destruct truncated_run as [r' H]. exists restored, r'. split; [exact H|].
  exact (mem_Restore_spec _ _ _ _ _ _ _ restored_inv H).
Defined.
End MemSnapshot.

(** ** Snapshots of any backend *)
Module BackendSnapshot.

Definition magic : bytes := str "CASKSNAP".
Definition version : Z := 1.
Definition header (count : Z) : bytes := magic ++ be_put 2 version ++ be_put 8 count.
Definition headerSize : nat := 18.

Section Snapshot.
Context {S : Type}.
Variable src : Backend S.
(** The capacity [append] gives, and the Len() a reader may answer: they
    choose ReadWhole's buffer, not its result. *)
Variable grow : nat -> nat.
Variable hinted : ReadCloser -> option Z.

Definition payloadHint (d : Digest) : M S Z :=
  match bk_Statter src with
  | None => mret 0
  | Some (size, _) =>
    r ← attempt (size d);
    match r with
    | Ok size => mret (if size <=? 0 then 0 else size)
    | Err _ => mret 0
    end
  end.

Definition exportOne (digest : Digest) : M (S * Writer) unit :=
  ctxErr;;
  lift (CheckDigest digest "snapshot: export");;
  rc ← onFst (mapErr (Errorf "snapshot: get %s: %w") (bk_Get src digest));
  hint ← onFst (payloadHint digest);
  payload ← readThenClose rc (onReader (ReadWhole grow (hinted rc) hint)) readWins
              (Some (Errorf "snapshot: read %s: %w")) (Some (Errorf "snapshot: close %s: %w"));
  onSnd (mapErr (Errorf "snapshot: write record lengths: %w")
           (WriteAll (be_put 8 (blen digest) ++ be_put 8 (blen payload))));;
  onSnd (mapErr (Errorf "snapshot: write digest %s: %w") (WriteAll digest));;
  onSnd (mapErr (Errorf "snapshot: write payload %s: %w") (WriteAll payload)).

Definition Export : M (S * Writer) unit :=
  ctxErr;;
  digests ← onFst (mapErr (Errorf "snapshot: list source objects: %w") (bk_List src));
  let digests := sortBytes digests in
  onSnd (mapErr (Errorf "snapshot: write header: %w") (WriteAll (header (blen digests))));;
  forM_ digests exportOne.
End Snapshot.

Section Import.
Context {S : Type}.
Variable dst : Backend S.

Fixpoint importLoop (count : nat) (seen : gset Digest) : M (S * Reader) unit :=
  match count with
  | O => mret tt
  | Datatypes.S count =>
    ctxErr;;
    lengths ← onSnd (mapErr (Errorf "snapshot: read record lengths: %w") (BackendReadAll 16));
    let digestSize := be_get (take 8 lengths) in
    let payloadSize := be_get (drop 8 lengths) in
    if (maxDigestSize <? digestSize) || (MaxInt64 <? digestSize) then throw (New "snapshot: invalid digest size")
    else if MaxInt64 <? payloadSize then throw (New "snapshot: payload is too large")
    else
      digest ← onSnd (mapErr (Errorf "snapshot: read digest: %w") (BackendReadAll (Z.to_nat digestSize)));
      let d := NewDigest digest in
      lift (CheckDigest d "snapshot: import");;
      if decide (d ∈ seen) then throw (New "snapshot: duplicate digest")
      else
        payload ← onSnd (mapErr (Errorf "snapshot: read payload for %s: %w") (ReadPayload payloadSize));
        onFst (mapErr (Errorf "snapshot: put %s: %w") (bk_Put dst d (bytesReader payload)));;
        importLoop count ({[d]} ∪ seen)
  end.

(** The last read is the reader's own, without a context check, and only
    [io.EOF] itself is the end. *)
Definition trailing : M Reader unit := fun c r =>
  match readOnce 1 r with
  | (b, e, r') =>
    (if negb (bool_decide (b = [])) then Err (New "snapshot: trailing data")
     else match e with
          | None => Err (New "snapshot: trailing data")
          | Some e => if decide (e = Sentinel EOF) then Ok tt else Err (Errorf "snapshot: check trailing data: %w" e)
          end, c, r')
  end.

Definition Import : M (S * Reader) unit :=
  ctxErr;;
  h ← onSnd (mapErr (Errorf "snapshot: read header: %w") (BackendReadAll headerSize));
  if negb (bool_decide (take 8 h = magic)) then throw (New "snapshot: invalid magic")
  else if negb (be_get (take 2 (drop 8 h)) =? version) then throw (New "snapshot: unsupported version")
  else
    let count := be_get (drop 10 h) in
    if MaxInt64 <? count then throw (New "snapshot: object count is too large")
    else
      importLoop (Z.to_nat count) ∅;;
      onSnd trailing.
End Import.

Definition snapshotBytes (l : list (Digest * bytes)) : bytes := header (blen l) ++ records l.

Lemma bheader_fields count :
  let h := header count in
  length h = headerSize /\ take 8 h = magic /\ take 2 (drop 8 h) = be_put 2 version /\ drop 10 h = be_put 8 count.
Proof.
  cbv zeta. unfold header. remember (be_put 8 count) as a eqn:Ea.
  assert (length a = 8%nat) by (subst; apply length_be_put). rewrite !length_app. split_and!; try done. unfold headerSize. simpl. lia.
Qed.

(** ** Export *)
Section ExportFacts.
Context {S : Type} (B : Backend S).
Context (inv quiet : S -> Prop) (key : Digest -> Prop) (abs : S -> gmap Digest bytes).
Context `{HB : !BackendSpec B inv quiet key abs}.
Context (grow : nat -> nat) (hinted : ReadCloser -> option Z).
(** Asking for a size changes nothing. *)
Hypothesis pureSize : forall size modTime, bk_Statter B = Some (size, modTime) ->
  forall d c s r c' s', inv s -> size d c s = (r, c', s') ->
    inv s' /\ (quiet s -> quiet s') /\ abs s' = abs s /\ (c = [] -> c' = []).

Lemma payloadHint_inv d c s r c' s' :
  inv s -> payloadHint B d c s = (r, c', s') ->
  inv s' /\ (quiet s -> quiet s') /\ abs s' = abs s /\ is_ok r = true /\ (c = [] -> c' = []).
Proof.
  intros Hi H. unfold payloadHint in H. destruct (bk_Statter B) as [[size mt]|] eqn:Es.
  - apply bind_attempt in H as (r0 & c1 & s1 & E & H). pose proof (pureSize _ _ eq_refl _ _ _ _ _ _ Hi E) as (? & ? & ? & ?).
    destruct r0; munfold; simplify_eq; by split_and!.
  - munfold. simplify_eq. by split_and!.
Qed.

Lemma exportOne_ok d c st u c' st' :
  inv st.1 -> exportOne B grow hinted d c st = (Ok u, c', st') ->
  inv st'.1 /\ (quiet st.1 -> quiet st'.1) /\ abs st'.1 = abs st.1 /\
  exists data, abs st.1 !! d = Some data /\ w_out st'.2 = w_out st.2 ++ record d data.
Proof.
  intros Hi H. unfold exportOne in H. mstep H as E; apply ctxErr_inv in E as ->.
  mstep H as E; apply lift_inv in E as (_ & -> & ->).
  mstep H as E with rc0 c1 s1. apply onFst_inv in E as [E Hw1].
  apply mapErr_inv in E as ([rc|?] & E & [= ->]).
  pose proof (bs_Get _ _ _ _ _ _ Hi E) as (Hi1 & Hq1 & Ha1 & data & Hd & [[_ Hdt] _] & _).
  mstep H as E2 with hint c2 s2. apply onFst_inv in E2 as [E2 Hw2].
  apply payloadHint_inv in E2 as (Hi2 & Hq2 & Ha2 & _); [|done].
  mstep H as E3 with payload c3 s3.
  assert (s3 = s2 /\ payload = data) as [-> ->].
  { unfold readThenClose, onReader in E3. destruct (ReadWhole _ _ _ _ _) as [[rr cr] r3] eqn:ER.
    destruct rr as [b|]; [|by destruct (rc_close rc)]. apply ReadWhole_sound in ER as [-> He]. apply Hdt in He.
    destruct (rc_close rc); by simplify_eq/=. }
  mstep H as E4 with u4 c4 s4. apply onSnd_inv in E4 as [E4 Hs4]. apply WriteAll_ok in E4.
  mstep H as E5 with u5 c5 s5. apply onSnd_inv in E5 as [E5 Hs5]. apply WriteAll_ok in E5.
  apply onSnd_inv in H as [H Hs6]. apply WriteAll_ok in H.
  rewrite Hs6, Hs5, Hs4, Ha2, Ha1. split_and!; [done|auto|done|].
  exists data. split; [done|]. rewrite H, E5, E4, Hw2, Hw1. unfold record. by rewrite !app_assoc.
Qed.

Lemma exportLoop_ok ds c st u c' st' :
  inv st.1 -> forM_ ds (exportOne B grow hinted) c st = (Ok u, c', st') ->
  inv st'.1 /\ (quiet st.1 -> quiet st'.1) /\ abs st'.1 = abs st.1 /\
  exists l, l.*1 = ds /\ (forall d data, (d, data) ∈ l -> abs st.1 !! d = Some data) /\
    w_out st'.2 = w_out st.2 ++ records l.
Proof.
  revert c st. induction ds as [|d ds IH]; intros c st Hi H; cbn [forM_] in H.
  { munfold. simplify_eq. split_and!; try done. exists []. split_and!; [done|set_solver|by rewrite app_nil_r]. }
  mstep H as E with u1 c1 s1. apply exportOne_ok in E as (Hi1 & Hq1 & Ha1 & data & Hd & Hw); [|done].
  apply IH in H as (Hi' & Hq' & Ha' & l & Hl & Hin & Hw'); [|done]. rewrite Ha1 in *. split_and!; [done|auto|done|].
  exists ((d, data) :: l). split_and!; [by rewrite fmap_cons, Hl| |].
  - intros d0 data0 [[= -> ->]|?]%elem_of_cons; [done|by apply Hin].
  - by rewrite Hw', Hw, records_cons, app_assoc.
Qed.

(** What a successful Export wrote: every stored object once, in digest order. *)
Lemma Export_ok c s w u c' st' :
  inv s -> Export B grow hinted c (s, w) = (Ok u, c', st') ->
  inv st'.1 /\ (quiet s -> quiet st'.1) /\ abs st'.1 = abs s /\
  exists l, Permutation l (map_to_list (abs s)) /\ StronglySorted bytes_le l.*1 /\
    w_out st'.2 = w_out w ++ snapshotBytes l.
Proof.
  intros Hi H. unfold Export in H. mstep H as E; apply ctxErr_inv in E as ->.
  mstep H as E with ds c1 s1. apply onFst_inv in E as [E Hw1]. cbn [fst snd] in *.
  apply mapErr_inv in E as ([ds'|?] & E & [= <-]).
  pose proof (bs_List _ _ _ _ _ Hi E) as (Hi1 & Hq1 & Ha1 & Hs & Hnd & Hl).
  rewrite (sortBytes_id ds) in H by done.
  mstep H as E2 with u2 c2 s2. apply onSnd_inv in E2 as [E2 Hs2]. apply WriteAll_ok in E2.
  apply exportLoop_ok in H as (Hi' & Hq' & Ha' & l & <- & Hin & Hw); [|by rewrite Hs2].
  rewrite Hs2, Ha1 in *. split_and!; [done|auto|done|]. exists l. split_and!; [|done|].
  - apply NoDup_Permutation; [by eapply NoDup_fmap_1|apply NoDup_map_to_list|].
    intros [d data]. rewrite elem_of_map_to_list. split; [apply Hin|]. intros Hd.
    assert (Hdl : d ∈ l.*1) by (apply Hl; [by eapply (bs_abs_key s)|by eexists]).
    apply list_elem_of_fmap in Hdl as ([d' data'] & -> & Hd'). pose proof (Hin _ _ Hd'). simpl in *. by simplify_eq.
  - rewrite Hw, E2, Hw1. unfold snapshotBytes. by rewrite length_fmap, app_assoc.
Qed.

Lemma exportOne_total d s out :
  inv s -> quiet s -> is_Some (abs s !! d) ->
  exists s' w', exportOne B grow hinted d [] (s, mkWriter out []) = (Ok tt, [], (s', mkWriter w' [])) /\
    inv s' /\ quiet s' /\ abs s' = abs s.
Proof.
  intros Hi Hq [data Hd]. assert (Hne : d <> []) by (eapply bs_key_nonzero, bs_abs_key; eauto).
  destruct (bs_Get_ok B inv quiet key abs d s data Hi Hq Hd) as (rc & s1 & E & <- & Ht & Hc & Hi1 & Hq1 & Ha1).
  destruct (payloadHint B d [] s1) as [[rh ch] s2] eqn:EH.
  apply payloadHint_inv in EH as EH'; [|done]. destruct EH' as (Hi2 & Hq2 & Ha2 & Hok & Hch). rewrite Hch in EH by done.
  destruct rh as [hint|]; [|done].
  destruct (ReadWhole_total grow (hinted rc) hint (rc_reader rc) Ht) as [r' ER].
  exists s2. eexists. split; [|split_and!; [done|auto|congruence]].
  unfold exportOne. erewrite bind_ok by apply ctxErr_nil.
  erewrite bind_ok by (unfold lift; by rewrite CheckDigest_ok).
  erewrite bind_ok by (unfold onFst, mapErr; cbn [fst snd]; rewrite E; reflexivity).
  erewrite bind_ok by (unfold onFst; cbn [fst snd]; rewrite EH; reflexivity).
  erewrite bind_ok by (unfold readThenClose, onReader; rewrite ER, Hc; reflexivity).
  erewrite bind_ok by apply MemSnapshot.write_ok. erewrite bind_ok by apply MemSnapshot.write_ok.
  apply MemSnapshot.write_ok.
Qed.

(** With a quiet source, whose listed digests are all addressable, and a
    writer that accepts what it is given, Export does finish. *)
Lemma Export_total s :
  inv s -> quiet s -> (forall c l c' s', bk_List B c s = (Ok l, c', s') -> Forall key l) ->
  exists st', Export B grow hinted [] (s, mkWriter [] []) = (Ok tt, [], st').
Proof.
  intros Hi Hq Hk. unfold Export. erewrite bind_ok by apply ctxErr_nil.
  destruct (bs_List_total s Hi Hq) as (l & s1 & E). apply Hk in E as Hkl. rewrite list.Forall_forall in Hkl.
  pose proof (bs_List _ _ _ _ _ Hi E) as (Hi1 & Hq1 & Ha1 & Hs & _ & Hl).
  erewrite bind_ok by (unfold onFst, mapErr; cbn [fst snd]; rewrite E; reflexivity). cbv zeta.
  erewrite bind_ok by apply MemSnapshot.write_ok. rewrite sortBytes_id by done.
  assert (Hin : forall d, d ∈ l -> is_Some (abs s1 !! d)) by (intros d Hd; rewrite Ha1; apply Hl; auto).
  cbn [snd]. revert Hin. clear -Hi1 Hq1 Hq HB pureSize. intros Hin. specialize (Hq1 Hq). generalize ([] ++ header (blen l)).
  revert s1 Hi1 Hq1 Hin. induction l as [|d l IH]; intros s1 Hi1 Hq1 Hin out; cbn [forM_]; [munfold; eauto|].
  destruct (exportOne_total d s1 out Hi1 Hq1) as (s2 & w2 & E & Hi2 & Hq2 & Ha2); [apply Hin; left|].
  erewrite bind_ok by exact E. apply IH; try done. intros d0 Hd0. rewrite Ha2. apply Hin. by right.
Qed.
End ExportFacts.

(** ** Import *)
Section ImportFacts.
Context {S : Type} (B : Backend S).
Context (inv quiet : S -> Prop) (key : Digest -> Prop) (abs : S -> gmap Digest bytes).
Context `{HB : !BackendSpec B inv quiet key abs}.

(** What importing the records of [l] may have done to a store: nothing to the
    other digests, and to theirs nothing or the record's bytes; [copied] when
    every record arrived (a digest already stored may keep its bytes). *)
Definition touched (l : list (Digest * bytes)) (m m' : gmap Digest bytes) : Prop :=
  forall d, m' !! d = m !! d \/ exists data, (d, data) ∈ l /\ m' !! d = Some data.
Definition copied (l : list (Digest * bytes)) (m m' : gmap Digest bytes) : Prop :=
  forall d data, (d, data) ∈ l -> m' !! d = Some data \/ (is_Some (m !! d) /\ m' !! d = m !! d).

Lemma importOne (l : list (Digest * bytes)) (d : Digest) (data : bytes) (m m1 m' : gmap Digest bytes) :
  d ∉ l.*1 -> (m1 = m \/ put_post m d data m1) -> touched l m1 m' ->
  touched ((d, data) :: l) m m' /\ (put_post m d data m1 -> copied l m1 m' -> copied ((d, data) :: l) m m').
Proof.
  intros Hd Hp Ht.
  assert (Hne : forall d0 data0, (d0, data0) ∈ l -> d0 <> d).
  { intros d0 data0 Hin ->. apply Hd, list_elem_of_fmap. by exists (d, data0). }
  assert (Hm1 : forall d0, d0 <> d -> m1 !! d0 = m !! d0).
  { intros d0 Hne0. destruct Hp as [-> |[-> |[_ ->]]]; try done. by rewrite lookup_insert_ne. }
  assert (Hmd : m' !! d = m1 !! d).
  { destruct (Ht d) as [?|(data0 & Hin & _)]; [done|]. by apply Hne in Hin. }
  split.
  - intros d0. destruct (decide (d0 = d)) as [->|Hn].
    + rewrite Hmd. destruct Hp as [-> |[-> |[_ ->]]]; [by left| |by left]. right. exists data.
      rewrite lookup_insert_eq. split; [left|done].
    + rewrite <- Hm1 by done. destruct (Ht d0) as [?|(data0 & Hin & ?)]; [by left|right]. exists data0. split; [by right|done].
  - intros Hpp Hc d0 data0 [[= -> ->]|Hin]%elem_of_cons.
    + rewrite Hmd. destruct Hpp as [-> |[? ->]]; [left; apply lookup_insert_eq|by right].
    + rewrite <- (Hm1 d0) by by eapply Hne. by apply Hc.
Qed.

(** Importing records that are there, under any context, touches nothing else;
    a success copied them all. *)
Lemma importLoop_known (l : list (Digest * bytes)) seen rest c st r c' st' :
  inv st.1 -> rd_data st.2 = records l ++ rest ->
  NoDup l.*1 -> Forall MemSnapshot.goodKey l -> payloadSum l < 2^63 ->
  importLoop B (length l) seen c st = (r, c', st') ->
  inv st'.1 /\ touched l (abs st.1) (abs st'.1) /\ (is_ok r = true -> copied l (abs st.1) (abs st'.1)).
Proof.
  revert seen c st. induction l as [|[k d] l IH]; intros seen c st Hi Hr Hnd Hg Hs H; cbn [importLoop length] in H.
  { munfold. simplify_eq. split_and!; [done|intros x; by left|]. intros _ x data Hin. by apply not_elem_of_nil in Hin. }
  assert (Hstop : touched ((k, d) :: l) (abs st.1) (abs st.1)) by (intros x; by left).
  rewrite fmap_cons, list.NoDup_cons in Hnd. destruct Hnd as [Hk Hnd]. cbn [fst] in Hk.
  apply list.Forall_cons in Hg as [[Hne Hlen] Hg]. cbn [fst] in Hne, Hlen.
  change (payloadSum ((k, d) :: l)) with (blen d + payloadSum l) in Hs. pose proof (payloadSum_nonneg l).
  rewrite records_cons in Hr. unfold record in Hr. rewrite <- !app_assoc in Hr.
  unfold MemSnapshot.goodKey, maxSnapshotDigestSize in *. change (Z.shiftl 1 20) with (2^20) in *.
  mstep H as E; apply ctxErr_inv in E; subst; [|done].
  mstep H as E with lengths c1 s1; apply onSnd_inv in E as [E Hs1]; [|by rewrite Hs1].
  apply readN_sound in E as (Hd1 & Hl1 & _). rewrite Hd1 in Hr. rewrite app_assoc in Hr.
  apply app_inj_1 in Hr as [-> Hr]; [|by rewrite length_app, !length_be_put].
  rewrite take_app_exact, drop_app_exact in H by by rewrite length_be_put.
  rewrite !be_get_put in H by (simpl; lia).
  destruct (_ || _); [munfold; simplify_eq; by rewrite Hs1|].
  destruct (_ <? _); [munfold; simplify_eq; by rewrite Hs1|].
  mstep H as E2 with digest c2 s2; apply onSnd_inv in E2 as [E2 Hs2]; [|by rewrite Hs2, Hs1].
  apply readN_sound in E2 as (Hd2 & Hl2 & _). rewrite Hd2 in Hr.
  apply app_inj_1 in Hr as [-> Hr]; [|lia].
  rewrite NewDigest_id in H.
  mstep H as E3; apply lift_inv in E3 as (_ & -> & ->); [|by rewrite Hs2, Hs1].
  case_decide; [munfold; simplify_eq; by rewrite Hs2, Hs1|].
  mstep H as E4 with payload c4 s4; apply onSnd_inv in E4 as [E4 Hs4]; [|by rewrite Hs4, Hs2, Hs1].
  apply readPayload_sound in E4 as (Hd4 & Hl4 & _); [|lia]. rewrite Hd4 in Hr.
  apply app_inj_1 in Hr as [-> Hr]; [|lia]. rewrite <- Hs1, <- Hs2, <- Hs4 in *.
  mstep H as E5 with u c5 s5; apply onFst_inv in E5 as [E5 Hs5]; apply mapErr_inv in E5 as (rp & E5 & Hrp);
    pose proof (bs_Put _ _ _ _ _ _ _ Hi E5) as (Hi5 & _ & Hp); rewrite rd_data_bytesReader in Hp.
  - destruct rp; [|done]. destruct Hp as (_ & _ & Hp). apply IH in H as (Hi' & Ht & Hc); try done; [|by rewrite Hs5|lia].
    destruct (importOne l k d (abs s4.1) (abs s5.1) (abs st'.1) Hk (or_intror Hp) Ht) as [? Hcp].
    split_and!; [done..|]. auto.
  - destruct rp; [done|]. destruct (importOne l k d (abs s4.1) (abs st'.1) (abs st'.1) Hk) as [? _]; [tauto|intros ?; by left|].
    by split_and!.
Qed.

(** Under the background context the only failure left is the destination's. *)
Lemma importLoop_total (l : list (Digest * bytes)) (seen : gset Digest) (rest : bytes) (st : S * Reader) :
  (forall d rd t res c t', bk_Put B d rd [] t = (res, c, t') -> c = []) ->
  rd_data st.2 = records l ++ rest -> tidy st.2 ->
  NoDup l.*1 -> (forall k, k ∈ l.*1 -> k ∉ seen) -> Forall MemSnapshot.goodKey l -> payloadSum l < 2^63 ->
  exists r c' st', importLoop B (length l) seen [] st = (r, c', st') /\
    ((r = Ok tt /\ c' = [] /\ rd_data st'.2 = rest /\ rd_tail st'.2 = rd_tail st.2 /\ tidy st'.2) \/
     exists e, r = Err (Errorf "snapshot: put %s: %w" e)).
Proof.
  intros Hctx. revert seen st. induction l as [|[k d] l IH]; intros seen [s r0] Hr Hy Hnd Hsn Hg Hs; cbn [importLoop length fst snd] in *.
  { munfold. do 3 eexists. split; [done|]. by left. }
  rewrite fmap_cons, list.NoDup_cons in Hnd. destruct Hnd as [Hk Hnd]. cbn [fst] in Hk.
  apply list.Forall_cons in Hg as [[Hne Hlen] Hg]. cbn [fst] in Hne, Hlen.
  change (payloadSum ((k, d) :: l)) with (blen d + payloadSum l) in Hs. pose proof (payloadSum_nonneg l).
  rewrite records_cons in Hr. unfold record in Hr. rewrite <- !app_assoc in Hr.
  unfold maxSnapshotDigestSize in Hlen. change (Z.shiftl 1 20) with (2^20) in *.
  erewrite bind_ok by apply ctxErr_nil.
  destruct (readN_total (Errorf "snapshot: read record lengths: %w") 16 r0
    (be_put 8 (blen k) ++ be_put 8 (blen d)) (k ++ d ++ records l ++ rest)) as (r1 & E1 & Hd1 & Ht1 & Hy1);
    [by rewrite Hr, <- app_assoc|by rewrite length_app, !length_be_put|].
  erewrite bind_ok by (unfold onSnd; cbn [fst snd]; rewrite E1; reflexivity).
  rewrite take_app_exact, drop_app_exact by by rewrite length_be_put.
  rewrite !be_get_put by (simpl; lia). cbv zeta. unfold maxDigestSize, MaxInt64. change (Z.shiftl 1 20) with (2^20).
  destruct (Z.ltb_spec (2^20) (blen k)); [lia|]. destruct (Z.ltb_spec (2^63 - 1) (blen k)); [lia|].
  destruct (Z.ltb_spec (2^63 - 1) (blen d)); [lia|]. cbn [orb].
  destruct (readN_total (Errorf "snapshot: read digest: %w") (Z.to_nat (blen k)) r1 k (d ++ records l ++ rest))
    as (r2 & E2 & Hd2 & Ht2 & Hy2); [done|lia|].
  erewrite bind_ok by (unfold onSnd; cbn [fst snd]; rewrite E2; reflexivity). rewrite NewDigest_id.
  erewrite bind_ok by (unfold lift; by rewrite CheckDigest_ok).
  rewrite decide_False by (apply Hsn; rewrite fmap_cons; left).
  destruct (readPayload_total (Errorf "snapshot: read payload for %s: %w") (blen d) r2 d (records l ++ rest))
    as (r3 & E3 & Hd3 & Ht3 & Hy3); [done|done|lia|].
  erewrite bind_ok by (unfold onSnd; cbn [fst snd]; rewrite E3; reflexivity). cbn [fst snd].
  destruct (bk_Put B k (bytesReader d) [] s) as [[rp cp] sp] eqn:EP. pose proof (Hctx _ _ _ _ _ _ EP) as ->.
  destruct rp as [[]|ep].
  - destruct (IH ({[k]} ∪ seen) (sp, r3)) as (r & c' & st' & E & Hcase); try done; cbn [fst snd].
    + auto.
    + intros k0 Hk0. rewrite not_elem_of_union, not_elem_of_singleton. split; [by intros ->|]. apply Hsn. rewrite fmap_cons. by right.
    + lia.
    + exists r, c', st'. split; [erewrite bind_ok by (unfold onFst, mapErr; cbn [fst snd]; rewrite EP; reflexivity); exact E|].
      destruct Hcase as [(?&?&?&Htl&?)|?]; [left|by right]. split_and!; try done. cbn [fst snd] in Htl. congruence.
  - do 3 eexists. split; [erewrite bind_err by (unfold onFst, mapErr; cbn [fst snd]; rewrite EP; reflexivity); done|].
    right. eauto.
Qed.

(** Importing the stream of the records [l]. *)
Definition importable (l : list (Digest * bytes)) (r : Reader) : Prop :=
  rd_data r = snapshotBytes l /\ NoDup l.*1 /\ Forall MemSnapshot.goodKey l /\
  blen l < 2^63 /\ payloadSum l < 2^63.

Lemma Import_known l c t r res c' st' :
  inv t -> importable l r -> Import B c (t, r) = (res, c', st') ->
  inv st'.1 /\ touched l (abs t) (abs st'.1) /\ (is_ok res = true -> copied l (abs t) (abs st'.1)).
Proof.
  intros Hi (Hr & Hnd & Hg & Hn & Hs) H. unfold Import in H.
  assert (Hstop : touched l (abs t) (abs t)) by (intros ?; by left).
  mstep H as E; apply ctxErr_inv in E; subst; [|done].
  mstep H as E with h c1 s1; apply onSnd_inv in E as [E Hs1]; cbn [fst snd] in *; [|by rewrite Hs1].
  apply readN_sound in E as (Hd & Hl & _). destruct (bheader_fields (blen l)) as (Hlen & Hm & Hv & Hc).
  rewrite Hd in Hr. unfold snapshotBytes in Hr. apply app_inj_1 in Hr as [-> Hr]; [|by rewrite Hl].
  rewrite Hm, Hv, Hc, !be_get_put in H by (unfold version; simpl; lia). rewrite <- Hs1 in *.
  repeat (destruct (negb _); [munfold; by simplify_eq|]).
  destruct (_ <? _); [munfold; by simplify_eq|]. rewrite Nat2Z.id in H.
  assert (Hloop : forall r0 c0 st0, importLoop B (length l) ∅ c1 s1 = (r0, c0, st0) ->
    inv st0.1 /\ touched l (abs s1.1) (abs st0.1) /\ (is_ok r0 = true -> copied l (abs s1.1) (abs st0.1))).
  { intros. eapply (importLoop_known l ∅ []); try done. by rewrite app_nil_r. }
  mstep H as E2 with u c2 s2; apply Hloop in E2 as (? & ? & Hcp); [|done].
  apply onSnd_inv in H as [_ ->]. split_and!; try done. intros _. by apply Hcp.
Qed.

Lemma Import_total l t r :
  (forall d rd t res c t', bk_Put B d rd [] t = (res, c, t') -> c = []) ->
  importable l r -> tidy r -> rd_tail r = Sentinel EOF ->
  exists res c2' st', Import B [] (t, r) = (res, c2', st') /\
    (res = Ok tt \/ exists e, res = Err (Errorf "snapshot: put %s: %w" e)).
Proof.
  intros Hctx (Hr & Hnd & Hg & Hn & Hs) Hy Ht. destruct (bheader_fields (blen l)) as (Hlen & Hm & Hv & Hc).
  unfold Import. erewrite bind_ok by apply ctxErr_nil.
  destruct (readN_total (Errorf "snapshot: read header: %w") headerSize r _ (records l) Hr Hlen) as (r1 & E1 & Hd1 & Ht1 & Hy1).
  erewrite bind_ok by (unfold onSnd; cbn [fst snd]; rewrite E1; reflexivity).
  rewrite Hm, Hv, Hc, bool_decide_eq_true_2 by done. unfold MaxInt64, version. rewrite !be_get_put by (simpl; lia).
  cbn [negb Z.eqb Pos.eqb]. destruct (Z.ltb_spec (2^63 - 1) (blen l)); [lia|]. rewrite Nat2Z.id. cbn [fst snd].
  destruct (importLoop_total l ∅ [] (t, r1)) as (rl & cl & stl & E & Hcase); try done; cbn [fst snd]; auto.
  - by rewrite app_nil_r.
  - destruct Hcase as [(-> & -> & Hend & Htl & Hyl)|[e ->]].
    + do 3 eexists. split; [erewrite bind_ok by exact E; unfold onSnd, trailing, readOnce;
        rewrite (tidy_nil _ Hyl Hend), Htl; cbn [fst snd]; rewrite Ht1, Ht; reflexivity|by left].
    + do 3 eexists. split; [erewrite bind_err by exact E; reflexivity|]. right. eauto.
Qed.
End ImportFacts.

(** C38. Backing up one backend and restoring into another copies every object.
    Whatever the two backends are, and under any contexts: the stream a
    successful Export wrote, read by Import through any reader that delivers
    it, changes nothing in the destination but the source's digests, and those
    only to the source's bytes; when Import succeeds every object of the source
    is there with its bytes (a digest the destination already held may keep its
    own).  Under the background context Import can only fail because the
    destination refused a Put. *)
Theorem Export_Import_copies {S1 S2} (B1 : Backend S1) (B2 : Backend S2)
    (inv1 quiet1 : S1 -> Prop) (key1 : Digest -> Prop) (abs1 : S1 -> gmap Digest bytes)
    (inv2 quiet2 : S2 -> Prop) (key2 : Digest -> Prop) (abs2 : S2 -> gmap Digest bytes)
    `{H1 : !BackendSpec B1 inv1 quiet1 key1 abs1} `{H2 : !BackendSpec B2 inv2 quiet2 key2 abs2}
    (grow : nat -> nat) (hinted : ReadCloser -> option Z)
    (s : S1) (t : S2) (c1 c1' c2 : ctx) (st : S1 * Writer) (r : Reader) :
  (forall size modTime, bk_Statter B1 = Some (size, modTime) -> forall d c s r c' s', inv1 s -> size d c s = (r, c', s') ->
    inv1 s' /\ (quiet1 s -> quiet1 s') /\ abs1 s' = abs1 s /\ (c = [] -> c' = [])) ->
  inv1 s -> inv2 t ->
  (forall k, is_Some (abs1 s !! k) -> blen k <= maxDigestSize) ->
  sumLen (abs1 s) < 2^63 -> Z.of_nat (size (abs1 s)) < 2^63 ->
  Export B1 grow hinted c1 (s, mkWriter [] []) = (Ok tt, c1', st) ->
  rd_data r = w_out st.2 -> tidy r -> rd_tail r = Sentinel EOF ->
  abs1 st.1 = abs1 s /\
  (forall res c2' t' r', Import B2 c2 (t, r) = (res, c2', (t', r')) -> inv2 t' /\
    (forall d, abs2 t' !! d = abs2 t !! d \/ (is_Some (abs1 s !! d) /\ abs2 t' !! d = abs1 s !! d)) /\
    (is_ok res = true -> forall d, is_Some (abs1 s !! d) ->
       abs2 t' !! d = abs1 s !! d \/ (is_Some (abs2 t !! d) /\ abs2 t' !! d = abs2 t !! d))) /\
  ((forall d rd t res c t', bk_Put B2 d rd [] t = (res, c, t') -> c = []) ->
   exists res c2' st', Import B2 [] (t, r) = (res, c2', st') /\
     (res = Ok tt \/ exists e, res = Err (Errorf "snapshot: put %s: %w" e))).
Proof.
  intros Hpure Hi Hi2 Hk Hsum Hsz HE Hr Hy Ht.
  destruct (Export_ok B1 inv1 quiet1 key1 abs1 grow hinted Hpure _ _ _ _ _ _ Hi HE) as (_ & _ & Ha & l & Hp & _ & Hw).
  assert (Hin : forall d data, (d, data) ∈ l <-> abs1 s !! d = Some data).
  { intros d data. by rewrite Hp, elem_of_map_to_list. }
  assert (Himp : importable l r).
  { split_and!.
    - by rewrite Hr, Hw.
    - rewrite Hp. apply NoDup_fst_map_to_list.
    - apply list.Forall_forall. intros [k v] Hkv%Hin. split; simpl.
      + apply (@bs_key_nonzero _ _ _ _ _ _ H1), (@bs_abs_key _ _ _ _ _ _ H1 s); [done|by eexists].
      + apply Hk. by eexists.
    - by rewrite Hp, length_map_to_list.
    - by rewrite (MemSnapshot.payloadSum_perm _ _ Hp), MemSnapshot.payloadSum_map. }
  split_and!; [done| |intros Hctx; by eapply Import_total].
  intros res c2' t' r' HI. apply Import_known with (HB := H2) (l := l) in HI as (Hi' & Htch & Hcp); try done.
  cbn [fst snd] in *. split_and!; [done| |].
  - intros d. destruct (Htch d) as [?|(data & Hd%Hin & ?)]; [by left|right]. rewrite Hd. split; [by eexists|done].
  - intros Hok d [data Hd]. rewrite Hd. apply (Hcp Hok d data). by apply Hin.
Qed.

Definition sourceObjects : Mem.Mem := Mem.mkMem {[str "k" := str "abc"; str "j" := []]} 0 3.
Definition exported : bytes := snapshotBytes [(str "j", []); (str "k", str "abc")].
Lemma sample_Export :
  Export Mem.Backend id (fun _ => None) [] (sourceObjects, mkWriter [] []) =
    (Ok tt, [], (sourceObjects, mkWriter exported [])).
Proof. vm_compute. reflexivity. Qed.
Lemma mem_store_ctx k data c m res c' m' : Mem.store k data c m = (res, c', m') -> c' = c.
Proof. unfold Mem.store. munfold. destruct (_ && _); intros; by simplify_eq. Qed.
Lemma mem_readers_ctx limit rd (r : res bytes) c :
  match readLimited true limit [] rd with (res, c', _) => (res, c') end = (r, c) \/ Mem.readWhole rd [] = (r, c) -> c = [].
Proof.
  unfold Mem.readWhole, readLimited, ioReadAll. rewrite chk_nil.
  destruct (readLimited_go _ _ _ _ _ _) as [[r1 k1] s1] eqn:E1. apply readLimited_ctx in E1.
  destruct (readAll_go _ _ _ _ _) as [[r2 k2] s2] eqn:E2. apply readAll_ctx in E2. intros [?|?]; by simplify_eq.
Qed.
Lemma mem_Put_ctx d rd m res c m' : bk_Put Mem.Backend d rd [] m = (res, c, m') -> c = [].
Proof.
  simpl. intros H. unfold Mem.Put in H. mstep H as E; [injection E as <- <- <-|discriminate E].
  mstep H as E; apply lift_inv in E as (_ & -> & ->); [|done].
  mstep H as E with bc c2 m2; [|discriminate E]. destruct bc as [b cap]. injection E as _ <- <-.
  assert (Hr : forall f (rd : ctx -> Prelude.res bytes * ctx) (r0 : Prelude.res bytes) (c0 : ctx) (m0 : Mem.Mem),
    (forall r1 c1, rd [] = (r1, c1) -> c1 = []) -> mapErr f (Mem.lift_ctx rd) [] m = (r0, c0, m0) -> c0 = []).
  { intros f rd0 r0 c0 m0 Hrd (r1 & E & _)%mapErr_inv. unfold Mem.lift_ctx in E.
    destruct (rd0 []) as [r2 c3] eqn:E2. simplify_eq. by eapply Hrd. }
  destruct (cap && (b <? MaxInt64));
    (mstep H as E with data c3 m3; (apply Hr in E; [|intros r1 c1 E1; eapply (mem_readers_ctx (b + 1)); eauto]);
     subst; try done; by eapply mem_store_ctx).
Qed.
Lemma sourceObjects_inv : Mem.inv sourceObjects.
Proof. split; vm_compute; try reflexivity; intros; discriminate. Qed.
Lemma sourceObjects_keys k : is_Some (Mem.objects sourceObjects !! k) -> blen k <= maxDigestSize.
Proof.
  simpl. intros [v Hv]. destruct (decide (k = str "k")) as [->|]; [done|].
  destruct (decide (k = str "j")) as [->|]; [done|].
  rewrite lookup_insert_ne, lookup_singleton_ne in Hv by congruence. done.
Qed.

Example Export_Import_copies_witness :
  exists res c2 st, Import Mem.Backend [] (Mem.New 0, bytesReader exported) = (res, c2, st) /\
    (res = Ok tt \/ exists e, res = Err (Errorf "snapshot: put %s: %w" e)).
Proof.
  refine (proj2 (proj2 (Export_Import_copies Mem.Backend Mem.Backend Mem.inv (fun _ => True) Mem.key Mem.objects
    Mem.inv (fun _ => True) Mem.key Mem.objects (H1 := Mem.mem_BackendSpec) (H2 := Mem.mem_BackendSpec)
    id (fun _ => None) sourceObjects (Mem.New 0) [] [] [] (sourceObjects, mkWriter exported []) (bytesReader exported)
    _ sourceObjects_inv (Mem.mem_New_inv 0 eq_refl) sourceObjects_keys _ _ sample_Export
    (rd_data_bytesReader exported) (tidy_bytesReader exported) eq_refl)) mem_Put_ctx).
  - intros size modTime H. discriminate H.
  - vm_compute. reflexivity.
  - vm_compute. reflexivity.
Defined.
End BackendSnapshot.
