(* ===== verification/FsContract.v ===== *)
(** The filesystem backend keeps the backend contract: its invariant on the
    tree, the map of objects the tree stands for, and the theorems over every
    fault of the file system. *)

From S2P Require Import Prelude Digest Stream Backend FileSystem AtomicFile FsBackend Store Sweep.

(** ** Layout *)
Section Layout.
Variables fanOut fanLevels : nat.
Abbreviation digestPath := (Fs.digestPath fanOut fanLevels).
Abbreviation addressable := (Fs.sliceable fanOut fanLevels).

Definition dirOf (d : Digest) : path :=
  if (0 <? fanOut)%nat && (0 <? fanLevels)%nat then Fs.shard fanOut (hexEncode d) <$> seq 0 fanLevels else [].
Lemma digestPath_eq d : digestPath d = dirOf d ++ [hexEncode d].
Proof. done. Qed.

Lemma dirOf_length d d' : length (dirOf d) = length (dirOf d').
Proof. unfold dirOf. destruct (_ && _); [|done]. by rewrite !length_fmap. Qed.
Lemma digestPath_last d : list.last (digestPath d) = Some (hexEncode d).
Proof. rewrite digestPath_eq. apply last_snoc. Qed.
#[export] Instance digestPath_inj : Inj (=) (=) digestPath.
Proof. intros d d' E. apply (f_equal list.last) in E. rewrite !digestPath_last in E. injection E. apply (inj hexEncode). Qed.
Lemma pathToDigest_path d : d <> [] -> Fs.pathToDigest (digestPath d) = Ok d.
Proof. intros. unfold Fs.pathToDigest. rewrite digestPath_last. by apply ParseDigest_iff. Qed.

(** No digest path is inside another. *)
Lemma digestPath_prefix d d' k : digestPath d = digestPath d' ++ k -> k = [] /\ d = d'.
Proof.
  intros E. assert (k = []) as ->.
  { apply (f_equal length) in E. rewrite !digestPath_eq, !length_app, (dirOf_length d d') in E. simpl in E.
    destruct k; [done|simpl in E; lia]. }
  rewrite app_nil_r in E. by apply (inj digestPath) in E.
Qed.
Lemma dirOf_not_path d d' k : dirOf d <> digestPath d' ++ k.
Proof.
  intros E. apply (f_equal length) in E. rewrite digestPath_eq, !length_app, (dirOf_length d d') in E. simpl in E. lia.
Qed.

(** Every component is made of hex digits, so none contains a dot. *)
Lemma hex_no_dot l : forallb isLowerHexChar l = true -> x2e ∉ l.
Proof. intros H Hin. rewrite forallb_forall in H. apply list_elem_of_In in Hin. by apply H in Hin. Qed.
Lemma digestPath_no_dot d n : n ∈ digestPath d -> x2e ∉ n.
Proof.
  assert (Hh : x2e ∉ hexEncode d) by apply hex_no_dot, hexEncode_lower.
  rewrite digestPath_eq. intros [Hn|Hn%list_elem_of_singleton]%elem_of_app; [|by subst].
  unfold dirOf in Hn. destruct (_ && _); [|by apply not_elem_of_nil in Hn].
  apply list_elem_of_fmap in Hn as (i & -> & _). intros Hin. apply Hh.
  unfold Fs.shard in Hin. apply elem_of_take in Hin as (j & Hj & _). rewrite lookup_drop in Hj. by eapply list_elem_of_lookup_2.
Qed.

(** ** The objects a tree holds *)
Definition key (d : Digest) : Prop := d <> [] /\ addressable d = true.

Definition objectAt (kv : path * entry) : option (Digest * bytes) :=
  match kv.2, Fs.pathToDigest kv.1 with
  | File data _, Ok d => if addressable d && bool_decide (kv.1 = digestPath d) then Some (d, data) else None
  | _, _ => None
  end.
Definition objectsOf (t : gmap path entry) : gmap Digest bytes := list_to_map (omap objectAt (map_to_list t)).

Lemma objectAt_Some p e d data :
  objectAt (p, e) = Some (d, data) <-> key d /\ p = digestPath d /\ exists m, e = File data m.
Proof.
  unfold objectAt, key. cbn [fst snd]. split.
  - destruct e as [data0 m| | |]; [|done..]. destruct (Fs.pathToDigest p) as [d0|] eqn:E; [|done].
    destruct (addressable d0) eqn:Ea; [|done]. case_bool_decide; [|done]. intros [= -> ->].
    unfold Fs.pathToDigest in E. apply ParseDigest_iff in E as [? _]. split_and!; try done. by exists m.
  - intros ([Hd Ha] & -> & m & ->). by rewrite pathToDigest_path, Ha, bool_decide_eq_true_2.
Qed.

Lemma objectsOf_lookup t d data :
  objectsOf t !! d = Some data <-> key d /\ exists m, t !! digestPath d = Some (File data m).
Proof.
  assert (Hnd : NoDup (omap objectAt (map_to_list t)).*1).
  { rewrite list_fmap_omap. apply NoDup_omap; [apply NoDup_map_to_list|].
    intros [p e] [p' e'] d0 Hin Hin' E E'.
    destruct (objectAt (p, e)) as [[d1 b1]|] eqn:E1; [|done]. destruct (objectAt (p', e')) as [[d2 b2]|] eqn:E2; [|done].
    simpl in E, E'. simplify_eq. apply objectAt_Some in E1 as (_ & -> & _), E2 as (_ & -> & _).
    apply elem_of_map_to_list in Hin, Hin'. congruence. }
  unfold objectsOf. rewrite <- elem_of_list_to_map by done. rewrite list_elem_of_omap. split.
  - intros ([p e] & Hin & (? & -> & m & ->)%objectAt_Some). apply elem_of_map_to_list in Hin. eauto.
  - intros (Hk & m & Hm). exists (digestPath d, File data m). rewrite elem_of_map_to_list. split; [done|].
    apply objectAt_Some. eauto.
Qed.
Lemma objectsOf_key t d : is_Some (objectsOf t !! d) -> key d.
Proof. intros [data Hd]. by apply objectsOf_lookup in Hd as [? _]. Qed.

(** Same files at the digest paths, same objects. *)
Lemma objectsOf_ext t t' :
  (forall d data, key d -> (exists m, t' !! digestPath d = Some (File data m)) <-> (exists m, t !! digestPath d = Some (File data m))) ->
  objectsOf t' = objectsOf t.
Proof.
  intros H. apply map_eq. intros d. apply option_eq. intros data. rewrite !objectsOf_lookup. naive_solver.
Qed.
Lemma objectsOf_insert t t' d data m :
  key d -> t' !! digestPath d = Some (File data m) ->
  (forall d' data', key d' -> d' <> d -> (exists m, t' !! digestPath d' = Some (File data' m)) <-> (exists m, t !! digestPath d' = Some (File data' m))) ->
  objectsOf t' = <[d := data]> (objectsOf t).
Proof.
  intros Hk Ht H. apply map_eq. intros d'. apply option_eq. intros data'. rewrite objectsOf_lookup.
  destruct (decide (d' = d)) as [->|Hne].
  - rewrite lookup_insert_eq. rewrite Ht. naive_solver.
  - rewrite lookup_insert_ne, objectsOf_lookup by done. naive_solver.
Qed.

(** ** The invariant *)
Record inv (s : FS) : Prop := {
  inv_root : tree s !! [] = Some Directory;
  inv_parents : parents (tree s);
  inv_clear : forall d, key d -> clear (tree s) (digestPath d);
  inv_object : forall d, key d -> tree s !! digestPath d = None \/ exists data m, tree s !! digestPath d = Some (File data m);
  (** A file named like an addressable digest is where that digest belongs... *)
  inv_named : forall p e d, tree s !! p = Some e -> isDir e = false -> Fs.pathToDigest p = Ok d -> addressable d = true ->
    p = digestPath d;
  (** ... and no two files have the same digest for a name. *)
  inv_unique : forall p p' e e' d, tree s !! p = Some e -> tree s !! p' = Some e' -> isDir e = false -> isDir e' = false ->
    Fs.pathToDigest p = Ok d -> Fs.pathToDigest p' = Ok d -> p = p';
}.

Definition quiet (s : FS) : Prop := faults s = [].
Definition abs (s : FS) : gmap Digest bytes := objectsOf (tree s).

Lemma inv_evolves s s' : inv s -> evolves s (tree s) s' -> inv s' /\ (quiet s -> quiet s') /\ abs s' = abs s.
Proof. intros [] (Ht & _ & Hq). unfold abs. rewrite Ht. split_and!; try done. split; rewrite ?Ht; done. Qed.

Lemma inv_destination s d : inv s -> key d -> destination (dirOf d) (hexEncode d) (tree s).
Proof. intros Hi Hk. apply (inv_object s Hi d Hk). Qed.

(** What a lookup of an addressable digest's path finds. *)
Lemma resolve_key outside s d follow :
  inv s -> key d ->
  (exists data m, resolve outside (tree s) follow (digestPath d) = Found (File data m) /\ abs s !! d = Some data) \/
  ((resolve outside (tree s) follow (digestPath d) = Absent \/ resolve outside (tree s) follow (digestPath d) = NoParent) /\
   abs s !! d = None).
Proof.
  intros Hi Hk. destruct (inv_object s Hi d Hk) as [HN|(data & m & HF)].
  - right. split; [apply resolve_absent; [by apply inv_clear|done]|]. apply eq_None_not_Some. intros [data Hd].
    apply objectsOf_lookup in Hd as (_ & m & Hm). congruence.
  - left. exists data, m. split; [by apply resolve_present; [apply inv_parents| |]|]. apply objectsOf_lookup. eauto.
Qed.

(** A temp file is on no digest's path and is named like none. *)
Lemma temp_scratch d i :
  let x := tempPath (dirOf d ++ [hexEncode d]) i in
  (forall d' k, digestPath d' <> x ++ k) /\ is_ok (Fs.pathToDigest x) = false.
Proof.
  cbv zeta. rewrite tempPath_eq.
  assert (Hdot : x2e ∈ hexEncode d ++ tempSuffix i) by (apply elem_of_app; right; left).
  split.
  - intros d' k E. apply (digestPath_no_dot d') in Hdot; [done|]. rewrite E, <- app_assoc. apply elem_of_app. right. left.
  - unfold Fs.pathToDigest. rewrite last_snoc. cbv [from_option id]. destruct (ParseDigest _) as [d0|] eqn:E; [|done].
    apply ParseDigest_iff in E as [_ E]. rewrite <- E in Hdot. by apply hex_no_dot in Hdot; [|apply hexEncode_lower].
Qed.

(** ** A publish keeps the invariant *)
Section Settled.
Context (s s' : FS) (d : Digest) (i : nat).
Hypotheses (Hi : inv s) (Hk : key d) (Hs : settled (dirOf d) (hexEncode d) s s' i).
Hypothesis Hpath : tree s' !! digestPath d = tree s !! digestPath d \/
  exists data m, tree s' !! digestPath d = Some (File data m).

Lemma settled_other d' : key d' -> d' <> d -> tree s' !! digestPath d' = tree s !! digestPath d'.
Proof.
  intros Hk' Hne. destruct (sd_other _ _ _ _ _ Hs (digestPath d')) as [?|(_ & _ & k & E)]; [| |done|].
  - intros E%(inj digestPath). done.
  - intros E. destruct (temp_scratch d i) as [Hsc _]. apply (Hsc d' []). by rewrite app_nil_r.
  - by apply dirOf_not_path in E.
Qed.

(** An entry that is no directory was there before, or is the object or the temp file. *)
Lemma settled_file p e : tree s' !! p = Some e -> isDir e = false ->
  tree s !! p = Some e \/ p = digestPath d \/ is_ok (Fs.pathToDigest p) = false.
Proof.
  intros He Hd. destruct (decide (p = digestPath d)); [auto|].
  destruct (decide (p = tempPath (digestPath d) i)) as [->|Hne]; [right; right; apply temp_scratch|].
  left. destruct (sd_other _ _ _ _ _ Hs p) as [<-|(_ & HD & _)]; [done..|]. rewrite HD in He. by simplify_eq.
Qed.

Lemma settled_inv : inv s'.
Proof.
  destruct Hi as [Hroot Hpar Hcl Hob Hnm Hun].
  assert (Hnm' : forall p e d0, tree s' !! p = Some e -> isDir e = false -> Fs.pathToDigest p = Ok d0 -> addressable d0 = true ->
    p = digestPath d0).
  { intros p e d0 He Hd Hp Ha. destruct (settled_file p e He Hd) as [?|[-> |Hp']]; [by eapply Hnm| |by rewrite Hp in Hp'].
    rewrite pathToDigest_path in Hp by apply Hk. by simplify_eq. }
  split.
  - destruct (sd_other _ _ _ _ _ Hs []) as [->|(_ & ? & _)]; try done; [by destruct (dirOf d)|].
    rewrite tempPath_eq. by destruct (dirOf d).
  - apply Hs.
  - intros d' Hk' q k E Hne. destruct (sd_other _ _ _ _ _ Hs q) as [->|(_ & ? & _)]; [| |by eapply Hcl|by right].
    + intros ->. apply digestPath_prefix in E as [? _]. done.
    + intros ->. by apply temp_scratch in E.
  - intros d' Hk'. destruct (decide (d' = d)) as [->|Hne]; [|rewrite settled_other by done; by apply Hob].
    destruct Hpath as [->|?]; [by apply Hob|by right].
  - done.
  - intros p p' e e' d0 He He' Hd Hd' Hp Hp'. destruct (addressable d0) eqn:Ha.
    { by rewrite (Hnm' p e d0), (Hnm' p' e' d0). }
    destruct (settled_file p e He Hd) as [Ho|[-> |Hx]]; [| |by rewrite Hp in Hx].
    2:{ rewrite pathToDigest_path in Hp by apply Hk. simplify_eq. destruct Hk. congruence. }
    destruct (settled_file p' e' He' Hd') as [Ho'|[-> |Hx]]; [| |by rewrite Hp' in Hx].
    2:{ rewrite pathToDigest_path in Hp' by apply Hk. simplify_eq. destruct Hk. congruence. }
    by eapply (Hun p p').
Qed.

Lemma settled_same : tree s' !! digestPath d = tree s !! digestPath d -> abs s' = abs s.
Proof.
  intros E. apply objectsOf_ext. intros d' data Hk'. destruct (decide (d' = d)) as [->|]; [by rewrite E|].
  by rewrite settled_other.
Qed.
Lemma settled_new data m : tree s' !! digestPath d = Some (File data m) -> abs s' = <[d := data]> (abs s).
Proof. intros E. eapply objectsOf_insert; [done|done|]. intros d' data' Hk' Hne. by rewrite settled_other. Qed.
End Settled.

(** ** The operations *)
Section Ops.
Variable outside : path -> option entry.
Variable dirSync : bool.
Abbreviation B := (Fs.Backend outside fanOut fanLevels dirSync).

(** The product of ints is never above the true one. *)
Lemma sliceable_addressable d : addressable d = true -> Fs.addressable fanOut fanLevels d = true.
Proof.
  unfold Fs.sliceable, Fs.addressable, Fs.fanDepth. rewrite Nat.leb_le, Z.leb_le. intros H.
  assert (Hw : forall z, 0 <= z -> int64 z <= z) by (intros z Hz; unfold int64; zlia). specialize (Hw (Z.of_nat fanOut * Z.of_nat fanLevels)). lia.
Qed.
Lemma keyed_inv d what u : Fs.keyed fanOut fanLevels d what = Ok u -> key d.
Proof.
  unfold Fs.keyed, Fs.checkKey, key. munfold. destruct (CheckDigest d what) eqn:E; [|done]. apply CheckDigest_ok_inv in E.
  destruct (Fs.addressable fanOut fanLevels d); [|done]. by destruct (addressable d).
Qed.
Lemma keyed_ok d what : key d -> Fs.keyed fanOut fanLevels d what = Ok tt.
Proof. intros [Hd Ha]. unfold Fs.keyed, Fs.checkKey. munfold. by rewrite CheckDigest_ok, (sliceable_addressable d Ha), Ha. Qed.
Lemma keyed_err d what e : Fs.keyed fanOut fanLevels d what = Err e ->
  ~ key d /\ forall x, errIs e x = true -> x = ErrInvalidDigest.
Proof.
  intros H. split; [intros Hk; by rewrite keyed_ok in H|]. revert H.
  unfold Fs.keyed, Fs.checkKey, CheckDigest. munfold. destruct (IsZero d); [|destruct (Fs.addressable fanOut fanLevels d); [destruct (addressable d); [done|]|]];
    intros [= <-] x; simpl; try done; by intros Hx%bool_decide_eq_true.
Qed.

(** The guards every operation starts with. *)
Lemma fs_guards_inv {A} d what (k : M FS A) c s res c' s' :
  (ctxErr;; lift (Fs.keyed fanOut fanLevels d what);; k) c s = (res, c', s') ->
  (exists c1, key d /\ k c1 s = (res, c', s')) \/
  (s' = s /\ exists e, res = Err e /\ (errIs e ErrNotFound = false /\ errIs e ErrUnknownType = false) /\ (errIs e ErrInvalidDigest = true -> ~ key d)).
Proof.
  intros H. mstep H as E1.
  2:{ pose proof E1 as ->%ctxErr_inv. apply ctxErr_err in E1. right. split; [done|].
      eexists. split; [done|]. by destruct E1 as [-> | ->]. }
  apply ctxErr_inv in E1 as ->. mstep H as E2; apply lift_inv in E2 as (Hd & -> & ->); symmetry in Hd.
  - left. eexists. split; [|done]. by eapply keyed_inv.
  - right. split; [done|]. eexists. split; [done|]. apply keyed_err in Hd as [Hnk Hd]. split; [|done].
    by split; match goal with |- errIs ?e ?x = false => destruct (errIs e x) eqn:Ee; [apply Hd in Ee|] end.
Qed.
Lemma fs_guards_ok {A} d what (k : M FS A) s :
  key d -> (ctxErr;; lift (Fs.keyed fanOut fanLevels d what);; k) [] s = k [] s.
Proof.
  intros. erewrite bind_ok by apply ctxErr_nil.
  erewrite bind_ok by (unfold lift; by rewrite keyed_ok). done.
Qed.

(** The shape rule looks and touches nothing. *)
Lemma validateFrom_inv wantDir q rest c s r c' s' :
  Fs.validateFrom outside wantDir q rest c s = (r, c', s') -> c' = c /\ evolves s (tree s) s'.
Proof.
  revert q c s. induction rest as [|n rest IH]; intros q c s H; cbn [Fs.validateFrom] in H.
  - munfold. simplify_eq. split; [done|apply evolves_refl].
  - apply bind_attempt in H as (r0 & c1 & s1 & E & H). apply statWith_inv in E as (-> & He & _).
    assert (Hrec : Fs.validateFrom outside wantDir (q ++ [n]) rest c s1 = (r, c', s') -> c' = c /\ evolves s (tree s) s').
    { intros [-> He']%IH. split; [done|]. pose proof He as (Ht & _). rewrite Ht in He'. by eapply evolves_trans. }
    assert (Hret : forall r0, (r0, c, s1) = (r, c', s') -> c' = c /\ evolves s (tree s) s') by (intros; by simplify_eq).
    munfold. repeat case_match; eauto.
Qed.

Lemma ValidateFile_inv p c s r c' s' : Fs.ValidateFile outside p c s = (r, c', s') -> c' = c /\ evolves s (tree s) s'.
Proof.
  unfold Fs.ValidateFile, Fs.validateChain. destruct p; [|apply validateFrom_inv].
  unfold throw. intros. simplify_eq. split; [done|apply evolves_refl].
Qed.

Lemma fs_Put_sound d r c s res c' s' :
  inv s -> Fs.Put outside fanOut fanLevels dirSync d r c s = (res, c', s') ->
  inv s' /\ (quiet s -> quiet s') /\
  match res with
  | Ok _ => key d /\ rd_tail r = Sentinel EOF /\
      (abs s' = <[d := rd_data r]> (abs s) \/ (~ quiet s /\ is_Some (abs s !! d) /\ abs s' = abs s))
  | Err _ => abs s' = abs s \/ (rd_tail r = Sentinel EOF /\ ~ quiet s /\ abs s' = <[d := rd_data r]> (abs s))
  end.
Proof.
  intros Hi H. unfold Fs.Put in H.
  apply fs_guards_inv in H as [(c1 & Hk & H)|(-> & e & -> & _)]; [|by split_and!; auto].
  mstep H as E; apply ValidateFile_inv in E as [-> He];
    pose proof (inv_evolves _ _ Hi He) as (Hi1 & Hq1 & Ha1); [|split_and!; [done..|by left]].
  match type of H with _ _ ?s0 = _ => rename s0 into s1 end.
  apply mapErr_inv in H as (r0 & H & ->). rewrite digestPath_eq in H.
  apply Publish_inv in H as (i & Hset & Hp); [|apply Hi1|rewrite <- digestPath_eq; by apply Hi1|by apply inv_destination].
  rewrite <- digestPath_eq in *. pose proof (sd_quiet _ _ _ _ _ Hset) as Hq2.
  assert (Hpath : tree s' !! digestPath d = tree s1 !! digestPath d \/ exists data m, tree s' !! digestPath d = Some (File data m)).
  { destruct r0; naive_solver. }
  pose proof (settled_inv _ _ _ _ Hi1 Hk Hset Hpath) as Hi'. rewrite <- Ha1. split_and!; [done|intros Hq; by apply Hq2, Hq1|].
  pose proof (settled_same _ _ _ _ Hset) as Hsame. pose proof (settled_new _ _ _ _ Hk Hset) as Hnew.
  destruct r0 as [[]|e]; simpl.
  - destruct Hp as (Ht & [[m Hm]|(_ & Hf & Hm & Hd)]); (split; [done|]); (split; [done|]).
    + left. by eapply Hnew.
    + right. split_and!; [by intros ?%Hq1| |by apply Hsame].
      destruct (inv_object _ Hi1 d Hk) as [HN|(data & m & HF)]; [rewrite HN in Hd; by destruct Hd|].
      exists data. apply objectsOf_lookup. eauto.
  - destruct Hp as [Hm|(Ht & Hf & m & Hm)]; [left; by apply Hsame|right]. split_and!; [done|by intros ?%Hq1|by eapply Hnew].
Qed.

(** Opening an object: retries change nothing. *)
Lemma openWithRetry_inv n le p c s r c' s' :
  plain le ->
  Fs.openWithRetry outside n le p c s = (r, c', s') ->
  c' = c /\ evolves s (tree s) s' /\
  match r with
  | Ok rc => exists e, resolve outside (tree s) true p = Found e /\
      forall data m, e = File data m ->
        serves rc data /\
        (faults s = [] -> rd_tail (rc_reader rc) = Sentinel EOF /\ rc_close rc = None)
  | Err e => (forall x, errIs e x = true -> x = ErrNotExist /\
        (resolve outside (tree s) true p = Absent \/ resolve outside (tree s) true p = NoParent)) /\
      (faults s = [] -> (0 < n)%nat -> forall f, resolve outside (tree s) true p <> Found f)
  end.
Proof.
  revert le c s. induction n as [|n IH]; intros le c s Hn H; cbn [Fs.openWithRetry] in H.
  { munfold. simplify_eq. split; [done|]. split; [apply evolves_refl|]. split; [|lia]. intros x Hx. by rewrite Hn in Hx. }
  apply bind_attempt in H as (r0 & c1 & s1 & E & H). apply os_Open_inv in E as (-> & He & Hr0).
  destruct r0 as [rc|e]; [munfold; by simplify_eq|].
  assert (Herr : (forall x, errIs e x = true -> x = ErrNotExist /\
      (resolve outside (tree s) true p = Absent \/ resolve outside (tree s) true p = NoParent)) /\
    (faults s = [] -> forall f, resolve outside (tree s) true p <> Found f) /\ (errIs e ErrNotExist = false -> plain e)).
  { destruct Hr0 as [[Hf Hpl]|[[-> HR]|[-> HR]]]; split_and!; try done.
    - intros x Hx. by rewrite Hpl in Hx.
    - intros Hq f HF. by rewrite HF in HR.
    - intros x Hx. simpl in Hx. apply bool_decide_eq_true in Hx. by split.
    - intros Hq f HF. rewrite HF in HR. by destruct HR. }
  destruct Herr as (Hne & Hnf & Hpl). destruct (errIs e ErrNotExist) eqn:Ene.
  { munfold. simplify_eq. split_and!; auto. }
  apply bind_attempt in H as (r1 & c2 & s2 & E & H). apply statWith_inv in E as (-> & He2 & _).
  pose proof He as (Ht1 & _). rewrite Ht1 in He2.
  assert (He3 : evolves s (tree s) s2) by by eapply evolves_trans. pose proof He3 as (Ht3 & _ & Hq3).
  destruct r1 as [fi|e2]; [|munfold; simplify_eq; by split_and!; auto].
  apply IH in H as (-> & He4 & Hr); [|auto]. rewrite Ht3 in *. split; [done|]. split; [by eapply evolves_trans|].
  destruct r as [rc|e3].
  - destruct Hr as (f & HF & Hr). exists f. split; [done|]. intros data m ->. destruct (Hr data m eq_refl). auto.
  - destruct Hr as [Hr1 Hr2]. split; [done|]. intros Hf _. by apply Hnf.
Qed.

Lemma fs_Get_sound d c s res c' s' :
  inv s -> Fs.Get outside fanOut fanLevels d c s = (res, c', s') ->
  inv s' /\ (quiet s -> quiet s') /\ abs s' = abs s /\
  match res with
  | Ok rc => exists data, abs s !! d = Some data /\
      serves rc data /\
      (quiet s -> rd_tail (rc_reader rc) = Sentinel EOF /\ rc_close rc = None)
  | Err e => (errIs e ErrNotFound = true -> abs s !! d = None) /\ errIs e ErrUnknownType = false
  end.
Proof.
  intros Hi H. unfold Fs.Get in H.
  apply fs_guards_inv in H as [(c1 & Hk & H)|(-> & e & -> & [He ?] & _)]; [|split_and!; congruence].
  apply bind_attempt in H as (r0 & c2 & s2 & E & H). apply openWithRetry_inv in E as (-> & He & Hr); [|done].
  destruct (inv_evolves _ _ Hi He) as (Hi2 & Hq2 & Ha2).
  destruct (resolve_key outside s d true Hi Hk) as [(data & m & HR & Hd)|[HR Hd]]; destruct r0 as [rc|e].
  - munfold. simplify_eq. split_and!; try done. destruct Hr as (f & HF & Hr). rewrite HR in HF. simplify_eq.
    exists data. split; [done|]. by eapply Hr.
  - destruct Hr as [Hr _]. destruct (errIs e ErrNotExist) eqn:Ee.
    { destruct (Hr _ Ee) as [_ Hx]. rewrite HR in Hx. by destruct Hx. }
    munfold. simplify_eq. split_and!; try done; simpl; [intros He'; by destruct (Hr _ He') as [? _]|].
    destruct (errIs e ErrUnknownType) eqn:Eu; [|done]. by destruct (Hr _ Eu) as [? _].
  - destruct Hr as (f & HF & _). rewrite HF in HR. by destruct HR.
  - assert (Eu : errIs e ErrUnknownType = false).
    { destruct Hr as [Hr _]. destruct (errIs e ErrUnknownType) eqn:Eu; [|done]. by destruct (Hr _ Eu) as [? _]. }
    destruct (errIs e ErrNotExist); munfold; simplify_eq; by split_and!.
Qed.

Lemma fs_Get_found d s data :
  inv s -> quiet s -> abs s !! d = Some data -> exists rc s', Fs.Get outside fanOut fanLevels d [] s = (Ok rc, [], s').
Proof.
  intros Hi Hq Hd. assert (Hk : key d) by (by eapply objectsOf_key; eexists). unfold Fs.Get. rewrite fs_guards_ok by done.
  destruct (Fs.openWithRetry outside 20 (New "") (Fs.digestPath fanOut fanLevels d) [] s) as [[r c] s'] eqn:E. apply openWithRetry_inv in E as E'; [|done].
  destruct E' as (-> & _ & Hr). destruct r as [rc|e].
  - exists rc, s'. erewrite bind_ok by (unfold attempt; rewrite E; reflexivity). done.
  - destruct Hr as [_ Hr]. destruct (resolve_key outside s d true Hi Hk) as [(data' & m & HR & _)|[_ HN]]; [|congruence].
    by destruct (Hr Hq ltac:(lia) (File data' m)).
Qed.
Lemma fs_Get_missing d s :
  inv s -> quiet s -> key d -> abs s !! d = None ->
  exists e s', Fs.Get outside fanOut fanLevels d [] s = (Err e, [], s') /\ errIs e ErrNotFound = true.
Proof.
  intros Hi Hq Hk Hd. unfold Fs.Get. rewrite fs_guards_ok by done.
  destruct (resolve_key outside s d true Hi Hk) as [(data' & m & _ & HN)|[HR _]]; [congruence|].
  assert (E : exists s', os_Open outside (Fs.digestPath fanOut fanLevels d) [] s = (Err ENOENT, [], s')).
  { unfold os_Open. destruct (syscall [] s) as [[r c] s1] eqn:E. apply syscall_inv in E as E'. destruct E' as (-> & (Ht & _) & Hok & _).
    rewrite (Hok Hq) in E. erewrite bind_ok by exact E. unfold get. erewrite bind_ok by reflexivity. rewrite Ht.
    exists s1. destruct HR as [-> | ->]; done. }
  destruct E as [s' E]. exists (Errorf "%w: %s" ErrNotFound), s'. split; [|done].
  assert (E2 : Fs.openWithRetry outside 20 (New "") (Fs.digestPath fanOut fanLevels d) [] s = (Err ENOENT, [], s')).
  { cbn [Fs.openWithRetry]. erewrite bind_ok by (unfold attempt; rewrite E; reflexivity). done. }
  erewrite bind_ok by (unfold attempt; rewrite E2; reflexivity). done.
Qed.

(** A stat of an addressable digest's path. *)
Lemma stat_key d s c r c' s' :
  inv s -> key d -> os_Stat outside (Fs.digestPath fanOut fanLevels d) c s = (r, c', s') ->
  c' = c /\ evolves s (tree s) s' /\
  match r with
  | Ok e => exists data m, e = File data m /\ abs s !! d = Some data
  | Err e => (faults s <> [] /\ plain e) \/ (e = ENOENT /\ abs s !! d = None)
  end.
Proof.
  intros Hi Hk (-> & He & Hr)%statWith_inv. split; [done|]. split; [done|].
  destruct (resolve_key outside s d true Hi Hk) as [(data & m & HR & Hd)|[HR Hd]]; destruct r as [e|e].
  - rewrite HR in Hr. simplify_eq. eauto.
  - destruct Hr as [?|[[_ Hx]|[_ Hx]]]; [by left| |]; rewrite HR in Hx; [done|by destruct Hx].
  - rewrite Hr in HR. by destruct HR.
  - destruct Hr as [?|[[_ Hx]|[-> Hx]]]; [by left| |by right]. rewrite Hx in HR. by destruct HR.
Qed.

Lemma fs_Exists_sound d c s res c' s' :
  inv s -> Fs.Exists outside fanOut fanLevels d c s = (res, c', s') ->
  inv s' /\ (quiet s -> quiet s') /\ abs s' = abs s /\
  match res with
  | Ok b => key d /\ b = bool_decide (is_Some (abs s !! d))
  | Err e => errIs e ErrInvalidDigest = true -> ~ key d
  end.
Proof.
  intros Hi H. unfold Fs.Exists in H.
  apply fs_guards_inv in H as [(c1 & Hk & H)|(-> & e & -> & _ & He)]; [|by split_and!].
  apply bind_attempt in H as (r0 & c2 & s2 & E & H). apply stat_key in E as (-> & He & Hr); [|done|done].
  destruct (inv_evolves _ _ Hi He) as (Hi2 & Hq2 & Ha2). destruct r0 as [fi|e].
  - destruct Hr as (data & m & -> & Hd). munfold. simplify_eq. split_and!; try done.
    symmetry. apply bool_decide_eq_true. by eexists.
  - destruct Hr as [[_ Hpl]|[-> Hd]].
    + rewrite Hpl in H. munfold. simplify_eq. split_and!; try done. simpl. by rewrite Hpl.
    + simpl in H. munfold. simplify_eq. split_and!; try done. symmetry. apply bool_decide_eq_false. rewrite Hd. by intros [? ?].
Qed.
Lemma fs_Exists_total d s :
  inv s -> quiet s -> key d -> exists b s', Fs.Exists outside fanOut fanLevels d [] s = (Ok b, [], s').
Proof.
  intros Hi Hq Hk. unfold Fs.Exists. rewrite fs_guards_ok by done.
  destruct (os_Stat outside (Fs.digestPath fanOut fanLevels d) [] s) as [[r c] s'] eqn:E.
  apply stat_key in E as E'; [|done|done]. destruct E' as (-> & _ & Hr).
  erewrite bind_ok by (unfold attempt; rewrite E; reflexivity). destruct r as [fi|e]; [munfold; eauto|].
  destruct Hr as [[Hn _]|[-> _]]; [by destruct (Hn Hq)|]. munfold. simpl. eauto.
Qed.

(** ** Delete *)
Lemma inv_delete s s' d : inv s -> key d -> evolves s (delete (Fs.digestPath fanOut fanLevels d) (tree s)) s' ->
  inv s' /\ abs s' = delete d (abs s).
Proof.
  intros [Hroot Hpar Hcl Hob Hnm Hun] Hk (Ht & _).
  assert (Hnd : tree s !! digestPath d <> Some Directory) by (destruct (Hob d Hk) as [-> |(? & ? & ->)]; done).
  split.
  - split; rewrite ?Ht.
    + rewrite lookup_delete_ne; [done|]. rewrite digestPath_eq. by destruct (dirOf d).
    + by apply parents_delete.
    + intros d' Hk' q k E Hne. rewrite lookup_delete. case_decide; [by left|]. by eapply Hcl.
    + intros d' Hk'. rewrite lookup_delete. case_decide; [by left|]. by apply Hob.
    + intros p e d0. rewrite lookup_delete. case_decide; [done|]. apply Hnm.
    + intros p p' e e' d0. rewrite !lookup_delete. repeat case_decide; try done. apply Hun.
  - unfold abs. rewrite Ht. apply map_eq. intros d'. apply option_eq. intros data. rewrite objectsOf_lookup, !lookup_delete.
    destruct (decide (d = d')) as [->|Hne].
    + rewrite decide_True by done. naive_solver.
    + rewrite decide_False by (intros E; by apply (inj digestPath) in E). by rewrite objectsOf_lookup.
Qed.

(** Removing an addressable digest's file: it is gone, or nothing changed. *)
Lemma remove_key d c s r c' s' :
  inv s -> key d -> os_Remove outside (Fs.digestPath fanOut fanLevels d) c s = (r, c', s') ->
  c' = c /\ inv s' /\ (quiet s -> quiet s') /\
  match r with
  | Ok _ => abs s' = delete d (abs s)
  | Err e => abs s' = abs s /\ ((~ quiet s /\ plain e) \/ (e = ENOENT /\ abs s !! d = None))
  end.
Proof.
  intros Hi Hk (-> & Hr)%os_Remove_inv. split; [done|]. destruct r as [u|e].
  - destruct Hr as [He _]. destruct (inv_delete s s' d Hi Hk He). destruct He as (_ & _ & ?). by split_and!.
  - destruct Hr as [He Hr]. destruct (inv_evolves _ _ Hi He) as (? & ? & ?). split_and!; try done.
    destruct (resolve_key outside s d false Hi Hk) as [(data & m & HR & Hd)|[HR Hd]]; rewrite ?HR in Hr.
    + destruct Hr as [?|[[_ ?]|[[_ ?]|[_ [?|?]]]]]; try done. by left.
    + destruct Hr as [?|[[_ Hx]|[[_ Hx]|[-> Hx]]]]; [by left| | |by right]; rewrite Hx in HR; by destruct HR.
Qed.

Lemma fs_Delete_sound d c s res c' s' :
  inv s -> Fs.Delete outside fanOut fanLevels d c s = (res, c', s') ->
  inv s' /\ (quiet s -> quiet s') /\
  match res with
  | Ok _ => key d /\ abs s' = delete d (abs s)
  | Err _ => abs s' = abs s
  end.
Proof.
  intros Hi H. unfold Fs.Delete in H.
  apply fs_guards_inv in H as [(c1 & Hk & H)|(-> & e & -> & _)]; [|by split_and!].
  apply bind_attempt in H as (r0 & c2 & s2 & E & H). apply remove_key in E as (-> & Hi2 & Hq2 & Hr); [|done|done].
  destruct r0 as [u|e]; [munfold; by simplify_eq|]. destruct Hr as [Ha Hr].
  destruct (errIs e ErrNotExist) eqn:Ee; munfold; simplify_eq; [|by split_and!].
  destruct Hr as [[_ Hpl]|[-> Hd]]; [by rewrite Hpl in Ee|]. split_and!; try done. by rewrite Ha, delete_id.
Qed.
Lemma fs_Delete_total d s :
  inv s -> quiet s -> key d -> exists s', Fs.Delete outside fanOut fanLevels d [] s = (Ok tt, [], s').
Proof.
  intros Hi Hq Hk. unfold Fs.Delete. rewrite fs_guards_ok by done.
  destruct (os_Remove outside (Fs.digestPath fanOut fanLevels d) [] s) as [[r c] s'] eqn:E.
  apply remove_key in E as E'; [|done|done]. destruct E' as (-> & _ & _ & Hr).
  erewrite bind_ok by (unfold attempt; rewrite E; reflexivity). destruct r as [u|e]; [munfold; eauto|].
  destruct Hr as [_ [[Hn _]|[-> _]]]; [by destruct (Hn Hq)|]. munfold. simpl. eauto.
Qed.

(** ** List *)
Definition named (kv : path * entry) : option Digest :=
  if isDir kv.2 then None else match Fs.pathToDigest kv.1 with Ok d => Some d | Err _ => None end.

Lemma listEntry_inv p e err c (st : FS * list Digest) r c' st' :
  Fs.listEntry p e err c st = (r, c', st') ->
  st'.1 = st.1 /\
  match r with
  | Ok _ => st'.2 = st.2 ++ (match err with None => option_list (named (p, e)) | Some _ => [] end) /\
      (forall e, err = Some e -> errIs e ErrNotExist = true)
  | Err x => is_ctx_err x \/ (exists e, err = Some e /\ x = e /\ errIs e ErrNotExist = false)
  end /\
  (c = [] -> err = None -> r = Ok tt /\ c' = []).
Proof.
  intros H. unfold Fs.listEntry, Fs.walkGuard in H. mstep H as E1.
  2:{ pose proof E1 as ->%ctxErr_inv. split; [done|]. split; [left; by eapply ctxErr_err|]. intros ->. discriminate E1. }
  assert (Hc : c = [] -> x0 = []) by (intros ->; injection E1 as _ <-; done).
  apply ctxErr_inv in E1 as ->. destruct err as [e0|].
  - destruct (errIs e0 ErrNotExist) eqn:Ee; munfold; simplify_eq; (split; [done|]).
    + split; [|done]. rewrite app_nil_r. split; [done|]. by intros ? [= <-].
    + split; [|done]. right. eauto.
  - unfold named. cbn [fst snd]. destruct (isDir e); [|destruct (Fs.pathToDigest p)]; munfold; simplify_eq; cbn [option_list];
      rewrite ?app_nil_r; split_and!; try done; intros; auto.
Qed.


Lemma visitEntry_list kv c (st : FS * list Digest) r c' st' :
  visitEntry Fs.listEntry kv c st = (r, c', st') ->
  evolves st.1 (tree st.1) st'.1 /\
  match r with
  | Ok _ => st'.2 = st.2 ++ option_list (named kv)
  | Err e => errIs e ErrNotExist = false
  end /\
  (c = [] -> faults st.1 = [] -> r = Ok tt /\ c' = []).
Proof.
  destruct kv as [p e]. intros H. unfold visitEntry in H. mstep H as E1 with u c1 s1.
  - apply listEntry_inv in E1 as (Hs1 & [Hl _] & Hq). destruct (isDir e) eqn:Ed.
    + destruct e; try done. apply bind_attempt in H as (r0 & c2 & s2 & E2 & H).
      apply onFS_syscall in E2 as (-> & Hs2 & He & Hok & Hpl). rewrite Hs1 in *. destruct r0 as [[]|err].
      * munfold. simplify_eq. split_and!; [done|congruence|]. intros Hc _. by destruct (Hq Hc eq_refl).
      * apply listEntry_inv in H as (Hs3 & Hr & _). rewrite Hs3. split; [done|]. split.
        -- destruct r as [[]|x]; [destruct Hr as [_ Hne]; specialize (Hne _ eq_refl); by rewrite (Hpl _ eq_refl) in Hne|].
           destruct Hr as [[-> | ->]|(? & [= <-] & -> & ?)]; done.
        -- intros _ Hf. by apply Hok in Hf.
    + assert (Hret : (Ok tt, c1, s1) = (r, c', st')) by (by destruct e). simplify_eq. rewrite Hs1.
      split_and!; try done. intros Hc _. by destruct (Hq Hc eq_refl).
  - apply listEntry_inv in E1 as (Hs1 & Hr & Hq). rewrite Hs1. split; [apply evolves_refl|]. split.
    + destruct Hr as [[-> | ->]|(? & [=] & _)]; done.
    + intros Hc _. by destruct (Hq Hc eq_refl).
Qed.

Lemma listLoop_inv l c (st : FS * list Digest) r c' st' :
  forM_ l (visitEntry Fs.listEntry) c st = (r, c', st') ->
  evolves st.1 (tree st.1) st'.1 /\
  match r with
  | Ok _ => st'.2 = st.2 ++ omap named l
  | Err e => errIs e ErrNotExist = false
  end /\
  (c = [] -> faults st.1 = [] -> r = Ok tt /\ c' = []).
Proof.
  revert c st. induction l as [|kv l IH]; intros c st H; cbn [forM_] in H.
  { munfold. simplify_eq. split_and!; [apply evolves_refl|by rewrite app_nil_r|done]. }
  mstep H as E with u c1 s1; apply visitEntry_list in E as (He & Hl & Hq); pose proof He as (Ht & _ & Hqq).
  - apply IH in H as (He2 & Hl2 & Hq2). rewrite Ht in He2. split; [by eapply evolves_trans|]. split.
    + destruct r; [|done]. rewrite Hl2, Hl. cbn. destruct (named kv); cbn [option_list]; by rewrite <- app_assoc.
    + intros Hc Hf. destruct (Hq Hc Hf) as [_ ->]. by apply Hq2, Hqq.
  - by split_and!.
Qed.

Lemma root_stat s f c r c' s' :
  tree s !! ([] : path) = Some Directory -> statWith outside f [] c s = (r, c', s') ->
  c' = c /\ evolves s (tree s) s' /\ (quiet s -> r = Ok Directory) /\ (forall e, r = Err e -> plain e).
Proof.
  intros Hi (-> & He & Hr)%statWith_inv. split; [done|]. split; [done|].
  assert (HR : resolve outside (tree s) f [] = Found Directory) by (unfold resolve; simpl; by rewrite Hi).
  rewrite HR in Hr. destruct r as [e|e]; [by simplify_eq|].
  destruct Hr as [[Hf Hpl]|[[_ ?]|[_ [?|?]]]]; try done. split; [|by intros ? [= <-]]. intros Hq. by destruct (Hf Hq).
Qed.

Lemma listWalk_inv c s r c' s' :
  inv s -> withVar [] (WalkDir outside Fs.listEntry) c s = (r, c', s') ->
  evolves s (tree s) s' /\ exists err l, r = Ok (err, l) /\
    (err = None -> l = omap named (walkOrder (tree s))) /\
    (forall e, err = Some e -> errIs e ErrNotExist = false) /\
    (c = [] -> quiet s -> err = None /\ c' = []).
Proof.
  intros Hi H. unfold withVar in H. destruct (WalkDir outside Fs.listEntry c (s, [])) as [[r1 c1] [s1 l1]] eqn:EW.
  enough (Hw : evolves s (tree s) s1 /\ match r1 with Ok _ => l1 = omap named (walkOrder (tree s)) | Err e => errIs e ErrNotExist = false end /\
    (c = [] -> faults s = [] -> r1 = Ok tt /\ c1 = [])).
  { destruct Hw as (He & Hl & Hq). destruct r1 as [u|e]; simplify_eq; (split; [done|]); do 2 eexists; (split; [done|]).
    - split_and!; try done. intros Hc Hf. by destruct (Hq Hc Hf).
    - split_and!; try done; [by intros ? [= <-]|]. intros Hc Hf. by destruct (Hq Hc Hf). }
  clear H. unfold WalkDir in EW. apply bind_attempt in EW as (r0 & c0 & [s0 l0] & E & H).
  unfold onFS in E. cbn [fst snd] in E. destruct (os_Lstat outside [] c s) as [[r2 c2] s2] eqn:E2. simplify_eq.
  apply root_stat in E2 as (-> & He & Hok & Hpl); [|apply Hi]. pose proof He as (Ht & _ & Hq). destruct r0 as [e|err].
  - mstep H as E3 with s3 c3 st3; unfold onFS, get in E3; cbn [fst snd] in E3; simplify_eq.
    apply listLoop_inv in H as (He2 & Hl & Hq2). cbn [fst snd] in *. rewrite Ht in *. split; [by eapply evolves_trans|].
    split; [done|]. intros Hc Hf. apply Hq2; [done|by apply Hq].
  - apply listEntry_inv in H as (Hs & Hr & _). cbn [fst snd] in *. subst. split; [done|]. split.
    + destruct r1 as [u|x]; [destruct Hr as [_ Hne]; specialize (Hne _ eq_refl); by rewrite (Hpl _ eq_refl) in Hne|].
      destruct Hr as [[-> | ->]|(? & [= <-] & -> & ?)]; done.
    + intros _ Hf. by apply Hok in Hf.
Qed.

Lemma fs_List_inv c s res c' s' :
  inv s -> Fs.List outside c s = (res, c', s') ->
  evolves s (tree s) s' /\
  (forall l, res = Ok l -> l = sortBytes (omap named (walkOrder (tree s)))) /\
  (c = [] -> quiet s -> is_ok res = true /\ c' = []).
Proof.
  intros Hi H. unfold Fs.List in H. mstep H as E1 with u c1 s1; pose proof E1 as ->%ctxErr_inv.
  2:{ split_and!; try done. intros ->. discriminate E1. }
  assert (Hc1 : c = [] -> c1 = []) by (intros ->; injection E1 as _ <-; done).
  mstep H as E2 with fi c2 s2; apply mapErr_inv in E2 as (r0 & E2 & Hr0); apply root_stat in E2 as (-> & He2 & Hok & _); try apply Hi;
    destruct (inv_evolves _ _ Hi He2) as (Hi2 & Hq2 & Ha2).
  2:{ split_and!; try done. intros _ Hq. by rewrite (Hok Hq) in Hr0. }
  pose proof He2 as (Ht2 & _ & _). rewrite <- Ht2.
  mstep H as E3 with p c3 s3; apply listWalk_inv in E3 as (He3 & err & l & Hp & Hl & Hne & Hq3); try done.
  assert (He : evolves s (tree s2) s3) by (rewrite Ht2 in *; by eapply evolves_trans). injection Hp as ->. destruct err as [e|].
  - rewrite (Hne e eq_refl) in H. munfold. simplify_eq. split_and!; try done.
    intros Hc Hq. by destruct (Hq3 (Hc1 Hc) (Hq2 Hq)).
  - munfold. simplify_eq. split_and!; try done; [by intros ? [= <-]; rewrite Hl|]. intros Hc Hq. by destruct (Hq3 (Hc1 Hc) (Hq2 Hq)).
Qed.

Lemma elem_of_named s d : d ∈ omap named (walkOrder (tree s)) <->
  exists p e, tree s !! p = Some e /\ isDir e = false /\ Fs.pathToDigest p = Ok d.
Proof.
  rewrite walkOrder_perm, list_elem_of_omap. unfold named. split.
  - intros ([p e] & Hin & E). apply elem_of_map_to_list in Hin. cbn [fst snd] in E. exists p, e.
    destruct (isDir e); [done|]. destruct (Fs.pathToDigest p); by simplify_eq.
  - intros (p & e & Hp & Hd & E). exists (p, e). rewrite elem_of_map_to_list. cbn [fst snd]. by rewrite Hd, E.
Qed.
Lemma NoDup_named s : inv s -> NoDup (omap named (walkOrder (tree s))).
Proof.
  intros Hi. rewrite walkOrder_perm. apply NoDup_omap; [apply NoDup_map_to_list|].
  intros [p e] [p' e'] d Hp Hp' E E'. apply elem_of_map_to_list in Hp, Hp'. unfold named in E, E'. cbn [fst snd] in E, E'.
  destruct (isDir e) eqn:Hd; [done|]. destruct (isDir e') eqn:Hd'; [done|].
  destruct (Fs.pathToDigest p) as [d1|] eqn:E1; [|done]. destruct (Fs.pathToDigest p') as [d2|] eqn:E2; [|done]. simplify_eq.
  assert (p = p') as -> by by eapply (inv_unique s Hi p p'). congruence.
Qed.

(** ** The contract *)
#[export] Instance fs_BackendSpec : BackendSpec B inv quiet key abs.
Proof.
  split; cbn [Fs.Backend bk_Put bk_Get bk_Exists bk_Delete bk_List].
  - by intros d [? _].
  - intros s d _ Hd. by eapply objectsOf_key.
  - intros d r c s res c' s' Hi H. apply fs_Put_sound in H as (? & ? & Hr); [|done]. split_and!; [done..|].
    unfold put_post. destruct res; [|naive_solver]. destruct Hr as (? & ? & [?|(_ & ? & ?)]); auto.
  - intros d c s res c' s' Hi H. by apply fs_Get_sound in H.
  - intros d s data. apply fs_Get_found.
  - intros d s. apply fs_Get_missing.
  - intros d c s res c' s' Hi H. by apply fs_Exists_sound in H.
  - intros d s. apply fs_Exists_total.
  - intros d c s res c' s' Hi H. apply fs_Delete_sound in H as (? & ? & Hr); [|done]. destruct res; auto.
  - intros d s. apply fs_Delete_total.
  - intros c s res c' s' Hi H. apply fs_List_inv in H as (He & Hl & _); [|done]. destruct (inv_evolves _ _ Hi He) as (? & ? & ?). split_and!; try done.
    destruct res as [l|]; [|done]. rewrite (Hl l eq_refl). split_and!.
    + apply sortBytes_sorted.
    + apply NoDup_sortBytes. by apply NoDup_named.
    + intros d Hk. rewrite elem_of_sortBytes, elem_of_named. split.
      * intros (p & e & Hp & Hd & E). assert (p = Fs.digestPath fanOut fanLevels d) as ->.
        { eapply (inv_named s Hi); try done. apply Hk. }
        destruct (inv_object s Hi d Hk) as [HN|(data & m & HF)]; [congruence|]. exists data. apply objectsOf_lookup. eauto.
      * intros [data Hd]. apply objectsOf_lookup in Hd as (_ & m & Hm). exists (Fs.digestPath fanOut fanLevels d), (File data m).
        split_and!; try done. apply pathToDigest_path, Hk.
  - intros s Hi Hq. destruct (Fs.List outside [] s) as [[r c] s'] eqn:E. apply fs_List_inv in E as E'; [|done].
    destruct E' as (_ & _ & Hok). destruct (Hok eq_refl Hq) as [Hr ->]. destruct r; [eauto|done].
Qed.

(** ** The shape rule *)
Lemma validateFrom_quiet d s rest q :
  inv s -> quiet s -> key d -> Fs.digestPath fanOut fanLevels d = q ++ rest ->
  exists s', Fs.validateFrom outside false q rest [] s = (Ok tt, [], s').
Proof.
  intros Hi Hq Hk. revert s q Hi Hq. induction rest as [|n rest IH]; intros s q Hi Hq E; cbn [Fs.validateFrom]; [munfold; eauto|].
  rewrite cons_middle, app_assoc in E.
  destruct (os_Lstat outside (q ++ [n]) [] s) as [[r c] s1] eqn:EL. apply statWith_inv in EL as EL'. destruct EL' as (-> & He & Hr).
  erewrite bind_ok by (unfold attempt; rewrite EL; reflexivity). destruct (inv_evolves _ _ Hi He) as (Hi1 & Hq1 & _).
  assert (Hcl : clear (tree s) (q ++ [n])).
  { eapply clear_prefix. rewrite <- E. by apply Hi. }
  destruct (decide (rest = [])) as [->|Hne].
  - rewrite app_nil_r in E. rewrite <- E in Hr. destruct (resolve_key outside s d false Hi Hk) as [(data & m & HR & _)|[HR _]].
    + rewrite HR in Hr. destruct r as [e|e]; [simplify_eq; cbn; munfold; eauto|].
      destruct Hr as [[Hn _]|[[_ ?]|[_ [?|?]]]]; try done.
    + destruct r as [e|e]; [rewrite Hr in HR; by destruct HR|].
      destruct Hr as [[Hn _]|[[_ Hx]|[-> _]]]; [by destruct (Hn Hq)|rewrite Hx in HR; by destruct HR|]. cbn. munfold. eauto.
  - destruct (inv_clear s Hi d Hk (q ++ [n]) rest E Hne) as [HN|HD].
    + destruct (resolve_absent outside (tree s) false _ Hcl HN) as [HR|HR]; rewrite HR in Hr;
        (destruct r as [e|e]; [done|]; destruct Hr as [[Hn _]|[[_ ?]|[-> _]]]; [by destruct (Hn Hq)|done|cbn; munfold; eauto]).
    + rewrite (resolve_present outside _ false _ Directory) in Hr by (try done; by apply Hi).
      destruct r as [e|e]; [simplify_eq|destruct Hr as [[Hn _]|[[_ ?]|[_ [?|?]]]]; try done; by destruct (Hn Hq)].
      destruct rest as [|n' rest']; [done|]. cbn [negb andb orb isDir]. apply IH; auto.
Qed.

(** C2. A Put to the filesystem is atomic.  Under any context and whatever call
    of the file system fails, no reader ever finds part of an object: after the
    call the store's objects are those from before, or those with the whole new
    content under the digest, and nothing else; a success means the content is
    there (or, when a fault hit the rename, that an object already was); without
    faults a failure changes nothing, and a Put of a stream that ends, with the
    background context and the temp name free, succeeds. *)
Theorem fs_Put_atomic (d : Digest) (r : Reader) (s : FS) :
  inv s ->
  (forall c res c' s', Fs.Put outside fanOut fanLevels dirSync d r c s = (res, c', s') -> inv s' /\
     (abs s' = abs s \/ abs s' = <[d := rd_data r]> (abs s)) /\
     (is_ok res = true -> rd_tail r = Sentinel EOF /\
        (abs s' = <[d := rd_data r]> (abs s) \/ (~ quiet s /\ is_Some (abs s !! d)))) /\
     (is_ok res = false -> quiet s -> abs s' = abs s)) /\
  (quiet s -> key d -> rd_tail r = Sentinel EOF -> tree s !! tempPath (Fs.digestPath fanOut fanLevels d) 0 = None ->
   exists s', Fs.Put outside fanOut fanLevels dirSync d r [] s = (Ok tt, [], s')).
Proof.
  intros Hi. split.
  - intros c res c' s' H. apply fs_Put_sound in H as (Hi' & _ & Hr); [|done]. split; [done|].
    destruct res as [u|e].
    + destruct Hr as (_ & Ht & Hr). split_and!; [|intros _; split; [done|]|done]; naive_solver.
    + split_and!; [naive_solver|done|]. intros _ Hq. naive_solver.
  - intros Hq Hk Ht Hfree. unfold Fs.Put. rewrite fs_guards_ok by done.
    destruct (validateFrom_quiet d s (Fs.digestPath fanOut fanLevels d) [] Hi Hq Hk eq_refl) as [s1 EV].
    assert (EV' : Fs.ValidateFile outside (Fs.digestPath fanOut fanLevels d) [] s = (Ok tt, [], s1)).
    { unfold Fs.ValidateFile, Fs.validateChain. destruct (Fs.digestPath fanOut fanLevels d) eqn:Ed; [|exact EV]. rewrite digestPath_eq in Ed. by destruct (dirOf d). }
    erewrite bind_ok by exact EV'. apply ValidateFile_inv in EV' as [_ He].
    destruct (inv_evolves _ _ Hi He) as (Hi1 & Hq1 & _). pose proof He as (Ht1 & _). rewrite digestPath_eq in *.
    destruct (Publish_total outside (dirOf d) (hexEncode d) s1) with (r := r) (opts := mkOptions dirSync true) as [s' E];
      try done; [apply Hi1|rewrite <- digestPath_eq; by apply Hi1|by apply inv_destination|by apply Hq1|by rewrite Ht1|].
    exists s'. unfold mapErr. by rewrite E.
Qed.

Lemma lstat_present c s p e r c' s' :
  parents (tree s) -> tree s !! p = Some e -> os_Lstat outside p c s = (r, c', s') ->
  c' = c /\ evolves s (tree s) s' /\ (r = Ok e \/ (faults s <> [] /\ exists x, r = Err x /\ plain x)).
Proof.
  intros Hp He H. apply statWith_inv in H as (-> & Hs & Hr). split_and!; try done.
  rewrite (resolve_present outside _ false _ e) in Hr by done.
  destruct r as [x|x]; [left; congruence|]. destruct Hr as [[? ?]|[[_ ?]|[_ [?|?]]]]; try done. right. eauto.
Qed.
Lemma validateFrom_bad l n k q e c s r c' s' :
  parents (tree s) -> tree s !! (q ++ l ++ [n]) = Some e -> (exists m, e = Symlink m) \/ (k <> [] /\ isDir e = false) ->
  Fs.validateFrom outside false q (l ++ n :: k) c s = (r, c', s') ->
  is_ok r = false /\ (faults s = [] -> res_errIs r ErrUnsafeTarget = true).
Proof.
  revert q s. induction l as [|m l IH]; intros q s Hp He Hbad H; cbn [app Fs.validateFrom] in H;
    apply bind_attempt in H as (r0 & c1 & s1 & E & H).
  - cbn [app] in He. apply (lstat_present _ _ _ _ _ _ _ Hp He) in E as (-> & _ & [->|(Hf & x & -> & Hx)]).
    + destruct Hbad as [[t ->]|[Hk Hd]]; [munfold; by simplify_eq|]. destruct k as [|n' k]; [done|].
      destruct e; try done; cbn in H; munfold; by simplify_eq.
    + rewrite Hx in H. munfold. by simplify_eq.
  - assert (HD : tree s !! (q ++ [m]) = Some Directory).
    { eapply (parents_prefix _ _ (l ++ [n])); [done| |by destruct l]. by rewrite <- app_assoc. }
    apply (lstat_present _ _ _ _ _ _ _ Hp HD) in E as (-> & (Ht & _ & Hq) & [->|(Hf & x & -> & Hx)]).
    + assert (Hl : exists a b, l ++ n :: k = a :: b) by (destruct l; cbn; eauto). destruct Hl as (a & b & Hl).
      rewrite Hl in H. cbn [negb andb orb isDir] in H. rewrite <- Hl in H. apply IH in H as [? Hu]; [| |by rewrite Ht, <- app_assoc|done].
      * split; [done|]. auto.
      * by rewrite Ht.
    + rewrite Hx in H. munfold. by simplify_eq.
Qed.

(** Nothing planted inside the store redirects a write: when any component
    of the object's path is a symbolic link, or a component on the way to it is
    any other non-directory, Put fails and leaves the tree exactly as it was,
    whatever else happens; and when no call fails it says so with
    [ErrUnsafeTarget]. *)
Theorem fs_Put_refuses_links (d : Digest) (r : Reader) (c c' : ctx) (s s' : FS) (res : res unit)
    (q : path) (n : bytes) (k : path) (e : entry) :
  parents (tree s) -> Fs.digestPath fanOut fanLevels d = q ++ n :: k -> tree s !! (q ++ [n]) = Some e ->
  (exists m, e = Symlink m) \/ (k <> [] /\ isDir e = false) ->
  Fs.Put outside fanOut fanLevels dirSync d r c s = (res, c', s') ->
  is_ok res = false /\ tree s' = tree s /\ (c = [] -> quiet s -> key d -> res_errIs res ErrUnsafeTarget = true).
Proof.
  intros Hp E He Hbad H. unfold Fs.Put in H.
  assert (Hk : forall (k : M FS unit) c1, (Fs.ValidateFile outside (Fs.digestPath fanOut fanLevels d);; k) c1 s = (res, c', s') ->
    is_ok res = false /\ tree s' = tree s /\ (faults s = [] -> res_errIs res ErrUnsafeTarget = true)).
  { clear H. intros kk c1 H.
    assert (Hbad' : forall r c2 s2, Fs.ValidateFile outside (Fs.digestPath fanOut fanLevels d) c1 s = (r, c2, s2) ->
      is_ok r = false /\ (faults s = [] -> res_errIs r ErrUnsafeTarget = true)).
    { intros r0 c2 s2 EV. unfold Fs.ValidateFile, Fs.validateChain in EV. rewrite E in EV.
      destruct (q ++ n :: k) eqn:Eq; [by destruct q|]. rewrite <- Eq in EV. by eapply (validateFrom_bad q n k []). }
    mstep H as EV; pose proof EV as [? Hu]%Hbad'; [done|]. apply ValidateFile_inv in EV as [_ (Ht & _)]. by split_and!. }
  apply fs_guards_inv in H as H'. destruct H' as [(c1 & Hd & H')|(-> & e' & -> & _)].
  - apply Hk in H' as (? & ? & ?). auto.
  - split_and!; try done. intros -> Hq Hd. rewrite fs_guards_ok in H by done. by eapply Hk.
Qed.

(** C3. The filesystem backend refines the map.  On every tree that satisfies
    the invariant, under every context and whatever call of the operating system
    fails, each of Put, Get, Exists, Delete and List does what the contract of a
    backend promises over the map of objects the tree stands for. *)
Theorem fs_refines : BackendSpec (Fs.Backend outside fanOut fanLevels dirSync) inv quiet key abs.
Proof. exact fs_BackendSpec. Qed.
End Ops.
End Layout.
