(* ===== verification/FsMaintenance.v ===== *)
(** The filesystem backend's maintenance: the sweep of stray temp files
    ([Clean]), the two garbage collections and the layout check. *)

From S2P Require Import Prelude Digest Stream Backend FileSystem AtomicFile FsBackend FsContract Store Sweep.

(** ** What a sweep of temp files may remove *)
Definition doomed (olderThan cutoff : Z) (kv : path * entry) : bool :=
  negb (isDir kv.2) && IsTempFile (default [] (list.last kv.1)) &&
  negb ((0 <? olderThan) && (cutoff <? modTime kv.2)).

(** Fewer files, the same directories. *)
Definition shrunk (t t' : gmap path entry) : Prop :=
  t' ⊆ t /\ (forall p, t !! p = Some Directory -> t' !! p = Some Directory).

Lemma shrunk_refl t : shrunk t t.
Proof. done. Qed.
Lemma shrunk_trans t t' t'' : shrunk t t' -> shrunk t' t'' -> shrunk t t''.
Proof. intros [H D] [H' D']. split; [by etrans|auto]. Qed.
Lemma shrunk_delete (t : gmap path entry) p e : t !! p = Some e -> isDir e = false -> shrunk t (delete p t).
Proof.
  intros He Hd. split; [apply delete_subseteq|]. intros q Hq. rewrite lookup_delete_ne; [done|]. intros <-. rewrite He in Hq. by simplify_eq.
Qed.
Lemma shrunk_parents t t' : shrunk t t' -> parents t -> parents t'.
Proof. intros [Hs Hd] Hp p n e He. apply Hd. eapply Hp. by eapply lookup_weaken. Qed.

(** ** Clean *)
Section Clean.
Variable outside : path -> option entry.
Variables olderThan cutoff : Z.
Abbreviation isDoomed := (doomed olderThan cutoff).

Lemma cleanEntry_err p e err c (st : FS * Z) r c' st' :
  Fs.cleanEntry outside olderThan cutoff p e (Some err) c st = (r, c', st') -> errIs err ErrNotExist = false ->
  st' = st /\ exists x, r = Err x /\ errIs x ErrNotExist = false.
Proof.
  intros H He. unfold Fs.cleanEntry, Fs.walkGuard in H. mstep H as E; pose proof E as ->%ctxErr_inv.
  - rewrite He in H. munfold. simplify_eq. eauto.
  - apply ctxErr_err in E. split; [done|]. eexists. split; [done|]. by destruct E as [-> | ->].
Qed.

(** One file: removed when it is doomed, or nothing happens. *)
Lemma cleanEntry_inv p e c (st : FS * Z) r c' st' :
  parents (tree st.1) -> tree st.1 !! p = Some e ->
  Fs.cleanEntry outside olderThan cutoff p e None c st = (r, c', st') ->
  ((evolves st.1 (tree st.1) st'.1 /\ st'.2 = st.2 /\ (c = [] -> faults st.1 = [] -> isDoomed (p, e) = false)) \/
   (evolves st.1 (delete p (tree st.1)) st'.1 /\ st'.2 = st.2 + 1 /\ isDoomed (p, e) = true /\ r = Ok tt)) /\
  (forall x, r = Err x -> errIs x ErrNotExist = false) /\
  (c = [] -> faults st.1 = [] -> r = Ok tt /\ c' = []).
Proof.
  intros Hp He H. unfold Fs.cleanEntry, Fs.walkGuard in H. mstep H as E with u c1 s1; pose proof E as ->%ctxErr_inv.
  2:{ apply ctxErr_err in E as Hx. split; [|split].
      - left. split_and!; try done. by intros ->.
      - intros ? [= <-]. by destruct Hx as [-> | ->].
      - by intros ->. }
  assert (Hc1 : c = [] -> c1 = []) by (intros ->; injection E as _ <-; done). clear E.
  assert (Hstay : forall c2 s2, evolves st.1 (tree st.1) s2.1 -> s2.2 = st.2 -> isDoomed (p, e) = false -> (c1 = [] -> c2 = []) ->
    (r, c', st') = (Ok tt, c2, s2) -> 
    ((evolves st.1 (tree st.1) st'.1 /\ st'.2 = st.2 /\ (c = [] -> faults st.1 = [] -> isDoomed (p, e) = false)) \/
     (evolves st.1 (delete p (tree st.1)) st'.1 /\ st'.2 = st.2 + 1 /\ isDoomed (p, e) = true /\ r = Ok tt)) /\
    (forall x, r = Err x -> errIs x ErrNotExist = false) /\ (c = [] -> faults st.1 = [] -> r = Ok tt /\ c' = [])).
  { intros. simplify_eq. split; [|split]; [by left|done|auto]. }
  destruct (isDir e || negb (IsTempFile (default [] (list.last p)))) eqn:Ed.
  { unfold mret, M_ret in H. apply (Hstay c1 st); [apply evolves_refl|done| |done|by rewrite <- H].
    unfold doomed. cbn [fst snd]. by destruct (isDir e), (IsTempFile _). }
  apply orb_false_iff in Ed as [Ed Et]. apply negb_false_iff in Et.
  mstep H as E with keep c2 s2.
  - assert (HK : c2 = c1 /\ evolves st.1 (tree st.1) s2.1 /\ s2.2 = st.2 /\ keep = (0 <? olderThan) && (cutoff <? modTime e)).
    { destruct (0 <? olderThan); [|munfold; by simplify_eq]. mstep E as E' with fi c3 s3; munfold; simplify_eq.
      unfold onFS in E'. destruct (os_Lstat outside p c1 st.1) as [[r1 c4] s4] eqn:EL. simplify_eq.
      apply (lstat_present outside _ _ _ _ _ _ _ Hp He) in EL as (-> & Hs & [[= ->]|(_ & y & [=] & _)]). by split_and!. }
    destruct HK as (-> & Hs2 & Hn2 & ->). destruct ((0 <? olderThan) && (cutoff <? modTime e)) eqn:EK.
    { unfold mret, M_ret in H. apply (Hstay c1 s2); [done..| |done|by rewrite <- H]. unfold doomed. cbn [fst snd]. by rewrite EK, andb_false_r. }
    assert (HD : isDoomed (p, e) = true) by (unfold doomed; cbn [fst snd]; by rewrite Ed, Et, EK).
    apply bind_attempt in H as (rm & c2 & s3 & E3 & H). unfold onFS in E3.
    destruct (os_Remove outside p c1 s2.1) as [[r3 c4] s4] eqn:ER. simplify_eq. apply os_Remove_inv in ER as [-> ER].
    pose proof Hs2 as (Ht2 & _ & Hq2). rewrite Ht2 in ER.
    rewrite (resolve_present outside _ false p e) in ER by done. destruct rm as [[]|x].
    + destruct ER as [He3 _]. munfold. unfold modify in H. simplify_eq. cbn [fst snd].
      split; [right; split_and!; [by eapply evolves_trans|congruence|done|done]|]. split; [done|auto].
    + destruct ER as [He3 [[Hf Hpl]|[[_ ?]|[[_ ?]|[_ [?|?]]]]]]; try done; [|by simplify_eq].
      rewrite Hpl in H. munfold. simplify_eq. cbn [fst snd]. split; [left|split].
      * split_and!; [by eapply evolves_trans|done|]. intros _ Hf0. by destruct (Hf (Hq2 Hf0)).
      * by intros ? [= <-].
      * intros _ Hf0. by destruct (Hf (Hq2 Hf0)).
  - destruct (0 <? olderThan); [|munfold; by simplify_eq]. mstep E as E' with fi c3 s3; [munfold; by simplify_eq|]. unfold onFS in E'.
    destruct (os_Lstat outside p c1 st.1) as [[r1 c4] s4] eqn:EL. simplify_eq.
    apply (lstat_present outside _ _ _ _ _ _ _ Hp He) in EL as (-> & Hs & [[=]|(Hf & y & [= <-] & Hx)]). cbn [fst snd].
    split; [left; split_and!; try done; intros _ Hf0; by destruct (Hf Hf0)|]. split; [by intros ? [= <-]|]. intros _ Hf0. by destruct (Hf Hf0).
Qed.

Lemma visitEntry_clean p e c (st : FS * Z) r c' st' :
  parents (tree st.1) -> tree st.1 !! p = Some e ->
  visitEntry (Fs.cleanEntry outside olderThan cutoff) (p, e) c st = (r, c', st') ->
  ((evolves st.1 (tree st.1) st'.1 /\ st'.2 = st.2 /\ (c = [] -> faults st.1 = [] -> isDoomed (p, e) = false)) \/
   (evolves st.1 (delete p (tree st.1)) st'.1 /\ st'.2 = st.2 + 1 /\ isDoomed (p, e) = true /\ r = Ok tt)) /\
  (forall x, r = Err x -> errIs x ErrNotExist = false) /\
  (c = [] -> faults st.1 = [] -> r = Ok tt /\ c' = []).
Proof.
  intros Hp He H. unfold visitEntry in H. mstep H as E with u c1 s1; apply (cleanEntry_inv _ _ _ _ _ _ _ Hp He) in E as (Hs & Hn & Hq);
    [|by split_and!].
  destruct u. destruct e; try by (munfold; simplify_eq; split_and!; try done; intros Hc Hf; by destruct (Hq Hc Hf)).
  destruct Hs as [(Hs & Hn1 & Hd)|(_ & _ & Hd & _)]; [|done]. pose proof Hs as (Ht & _ & Hqs).
  apply bind_attempt in H as (r0 & c2 & s2 & E2 & H). apply onFS_syscall in E2 as (-> & Hs2 & He2 & Hok & Hpl).
  assert (Hev : evolves st.1 (tree st.1) s2.1) by (rewrite Ht in He2; by eapply evolves_trans).
  destruct r0 as [[]|err].
  - munfold. simplify_eq. split; [left; split_and!; [done|congruence|done]|]. split; [done|]. intros Hc Hf. by destruct (Hq Hc Hf).
  - apply cleanEntry_err in H as [-> (x & -> & Hx)]; [|by apply Hpl].
    split; [left; split_and!; [done|congruence|done]|]. split; [by intros ? [= <-]|]. intros _ Hf. by apply Hqs, Hok in Hf.
Qed.

(** The walk over what is left of it. *)
Lemma cleanLoop_inv l c (st : FS * Z) r c' st' :
  parents (tree st.1) -> NoDup l.*1 -> (forall kv, kv ∈ l -> tree st.1 !! kv.1 = Some kv.2) ->
  forM_ l (visitEntry (Fs.cleanEntry outside olderThan cutoff)) c st = (r, c', st') ->
  exists t', evolves st.1 t' st'.1 /\ shrunk (tree st.1) t' /\
    (forall p e, tree st.1 !! p = Some e -> t' !! p = Some e \/ (t' !! p = None /\ isDoomed (p, e) = true)) /\
    st'.2 = st.2 + (Z.of_nat (size (tree st.1)) - Z.of_nat (size t')) /\
    (forall x, r = Err x -> errIs x ErrNotExist = false) /\
    (c = [] -> faults st.1 = [] -> r = Ok tt /\ c' = [] /\ forall kv, kv ∈ l -> isDoomed kv = true -> t' !! kv.1 = None).
Proof.
  revert c st. induction l as [|[p e] l IH]; intros c st Hp Hnd Hl H; cbn [forM_] in H.
  { munfold. simplify_eq. exists (tree st'.1). split_and!; [apply evolves_refl|apply shrunk_refl|auto|lia|done|].
    intros -> _. split_and!; [done..|]. by intros kv ?%elem_of_nil. }
  apply list.NoDup_cons in Hnd as [Hnp Hnd].
  assert (He : tree st.1 !! p = Some e) by (apply (Hl (p, e)), list_elem_of_here).
  assert (Hin : forall kv, kv ∈ l -> kv.1 <> p) by (intros kv Hkv E; apply Hnp; rewrite <- E; apply list_elem_of_fmap; by exists kv).
  mstep H as E with u c1 s1; apply (visitEntry_clean _ _ _ _ _ _ _ Hp He) in E as ([(Hs & Hn & Hd)|(Hs & Hn & Hd & Hr)] & Hx & Hq).
  - pose proof Hs as (Ht & _ & Hqs). rewrite <- Ht in *.
    apply IH in H as (t' & Hs' & Hsh & Hk & Hn' & Hx' & Hq'); [|done..|intros; apply Hl; by right].
    exists t'. split_and!; [by eapply evolves_trans|done..|lia|done|]. intros Hc Hf. destruct (Hq Hc Hf) as [_ ->].
    destruct (Hq' eq_refl (Hqs Hf)) as (? & ? & Hg). split_and!; [done..|].
    intros kv [->|Hkv]%elem_of_cons Hdm; [|by apply Hg]. by rewrite Hd in Hdm.
  - pose proof Hs as (Ht & _ & Hqs). assert (Hde : isDir e = false) by (unfold doomed in Hd; cbn in Hd; by destruct (isDir e)).
    pose proof (shrunk_delete _ _ _ He Hde) as Hsh0. rewrite <- Ht in Hsh0.
    apply IH in H as (t' & Hs' & Hsh & Hk & Hn' & Hx' & Hq'); [|by eapply shrunk_parents|done|].
    2:{ intros kv Hkv. rewrite Ht, lookup_delete_ne; [apply Hl; by right|]. intros E. by eapply Hin. }
    rewrite Ht in *. assert (Hsz : Z.of_nat (size (tree st.1)) = Z.of_nat (size (delete p (tree st.1))) + 1).
    { rewrite map_size_delete_Some by eauto. assert (size (tree st.1) <> 0%nat); [|lia].
      intros Hz%map_size_empty_iff. by rewrite Hz in He. }
    exists t'. split_and!; [by eapply evolves_trans|by eapply shrunk_trans| |lia|done|].
    + intros q e' Hq0. destruct (decide (q = p)) as [->|Hne].
      * right. rewrite He in Hq0. simplify_eq. split; [|done]. destruct (t' !! p) eqn:Et'; [|done].
        destruct Hsh as [Hsub _]. eapply lookup_weaken in Et'; [|done]. by rewrite lookup_delete_eq in Et'.
      * apply Hk. by rewrite lookup_delete_ne.
    + intros Hc Hf. destruct (Hq Hc Hf) as [_ ->]. destruct (Hq' eq_refl (Hqs Hf)) as (? & ? & Hg). split_and!; [done..|].
      intros kv [->|Hkv]%elem_of_cons Hdm; [|by apply Hg]. cbn [fst]. destruct (t' !! p) eqn:Et'; [|done].
      destruct Hsh as [Hsub _]. eapply lookup_weaken in Et'; [|done]. by rewrite lookup_delete_eq in Et'.
  - exists (tree st.1). split_and!; [done|apply shrunk_refl|auto|lia|auto|]. intros Hc Hf. by destruct (Hq Hc Hf).
  - by simplify_eq.
Qed.

Lemma cleanWalk_inv c s r c' s' :
  parents (tree s) -> tree s !! ([] : path) = Some Directory -> withVar 0 (WalkDir outside (Fs.cleanEntry outside olderThan cutoff)) c s = (r, c', s') ->
  exists t', evolves s t' s' /\ shrunk (tree s) t' /\
    (forall p e, tree s !! p = Some e -> t' !! p = Some e \/ (t' !! p = None /\ isDoomed (p, e) = true)) /\
    (exists err, r = Ok (err, Z.of_nat (size (tree s)) - Z.of_nat (size t')) /\ (forall e, err = Some e -> errIs e ErrNotExist = false) /\
    (c = [] -> faults s = [] -> err = None /\ c' = [] /\ forall p e, tree s !! p = Some e -> isDoomed (p, e) = true -> t' !! p = None)).
Proof.
  intros Hpar Hi H. unfold withVar in H.
  destruct (WalkDir outside (Fs.cleanEntry outside olderThan cutoff) c (s, 0)) as [[r1 c1] [s1 n1]] eqn:EW.
  unfold WalkDir in EW. apply bind_attempt in EW as (r0 & c0 & [s0 l0] & E & HW).
  unfold onFS in E. cbn [fst snd] in E. destruct (os_Lstat outside [] c s) as [[r2 c2] s2] eqn:E2. simplify_eq.
  apply root_stat in E2 as (-> & He & Hok & Hpl); [|done]. pose proof He as (Ht & _ & Hq). destruct r0 as [e|err].
  - mstep HW as E3 with s3 c3 st3; unfold onFS, get in E3; cbn [fst snd] in E3; simplify_eq.
    apply cleanLoop_inv in HW as (t' & Hs & Hsh & Hk & Hn & Hx & Hg); cbn [fst snd] in *.
    + rewrite Ht in *. rewrite Z.add_0_l in Hn. exists t'.
      destruct r1 as [u|x]; simplify_eq; (split_and!; [by eapply evolves_trans|done|done|]); eexists; (split; [done|]).
      * split; [done|]. intros Hc Hf. destruct (Hg Hc (Hq Hf)) as (_ & ? & Hg'). split_and!; try done.
        intros p e' Hp Hd. apply (Hg' (p, e')); [|done]. by rewrite walkOrder_perm, elem_of_map_to_list.
      * split; [intros ? [= <-]; by apply Hx|]. intros Hc Hf. by destruct (Hg Hc (Hq Hf)).
    + by rewrite Ht.
    + rewrite walkOrder_perm. apply NoDup_fst_map_to_list.
    + intros [p e']. rewrite walkOrder_perm. apply elem_of_map_to_list.
  - apply cleanEntry_err in HW as [[= -> ->] (x & -> & Hx)]; [|by apply Hpl]. simplify_eq.
    exists (tree s). split_and!; [done|apply shrunk_refl|auto|]. eexists. split; [f_equal; f_equal; lia|].
    split; [by intros ? [= <-]|]. intros _ Hf. by apply Hok in Hf.
Qed.
End Clean.

Lemma cleanTemp_inv (outside : path -> option entry) (olderThan : Z) c s r c' s' :
  parents (tree s) -> tree s !! ([] : path) = Some Directory -> Fs.cleanTemp outside olderThan c s = (r, c', s') ->
  exists t' n err, r = Ok (n, err) /\ evolves s t' s' /\ shrunk (tree s) t' /\
    (forall p e, tree s !! p = Some e ->
       t' !! p = Some e \/ (t' !! p = None /\ doomed olderThan (clock s - olderThan) (p, e) = true)) /\
    (err = None -> n = Z.of_nat (size (tree s)) - Z.of_nat (size t')) /\
    (c = [] -> faults s = [] -> err = None /\
       forall p e, tree s !! p = Some e -> doomed olderThan (clock s - olderThan) (p, e) = true -> t' !! p = None).
Proof.
  intros Hp Hi H. unfold Fs.cleanTemp in H. apply bind_attempt in H as (r0 & c2 & s2 & E & H). pose proof E as ->%ctxErr_inv.
  destruct r0 as [u|e].
  - assert (Hc2 : c = [] -> c2 = []) by (intros ->; injection E as _ <-; done).
    mstep H as E1 with a c3 s3; unfold get in E1; simplify_eq.
    mstep H as E4 with b c4 s4; apply cleanWalk_inv in E4 as (t' & Hs & Hsh & Hk & err & Hb & Hx & Hg); try done.
    injection Hb as ->. exists t'. destruct err as [e|].
    + rewrite (Hx e eq_refl) in H. munfold. simplify_eq. do 2 eexists. split; [done|]. split_and!; try done.
      intros Hc Hf. by destruct (Hg (Hc2 Hc) Hf).
    + munfold. simplify_eq. do 2 eexists. split; [done|]. split_and!; try done.
      intros Hc Hf. by destruct (Hg (Hc2 Hc) Hf) as (_ & _ & ?).
  - munfold. simplify_eq. exists (tree s'). do 2 eexists. split; [done|].
    split_and!; [apply evolves_refl|apply shrunk_refl|auto|done|]. by intros ->.
Qed.

Section Layout.
Variables fanOut fanLevels : nat.
Abbreviation inv := (inv fanOut fanLevels).
Abbreviation abs := (abs fanOut fanLevels).
Abbreviation key := (key fanOut fanLevels).

Lemma inv_shrunk s s' : inv s -> shrunk (tree s) (tree s') -> inv s'.
Proof.
  intros [Hroot Hpar Hcl Hob Hnm Hun] [Hs Hd].
  assert (Hw : forall p e, tree s' !! p = Some e -> tree s !! p = Some e) by (intros; by eapply lookup_weaken).
  split.
  - auto.
  - by eapply shrunk_parents.
  - intros d Hk q k E Hne. destruct (tree s' !! q) as [e|] eqn:E'; [|by left]. apply Hw in E'.
    destruct (Hcl d Hk q k E Hne); [congruence|]. right. congruence.
  - intros d Hk. destruct (tree s' !! Fs.digestPath fanOut fanLevels d) as [e|] eqn:E'; [|by left]. apply Hw in E'.
    destruct (Hob d Hk) as [?|(data & m & ?)]; [congruence|]. right. exists data, m. congruence.
  - eauto.
  - eauto.
Qed.

Lemma digestPath_kept (olderThan cutoff : Z) d e : doomed olderThan cutoff (Fs.digestPath fanOut fanLevels d, e) = false.
Proof.
  unfold doomed. cbn [fst snd]. rewrite digestPath_last. cbv [from_option id].
  destruct (IsTempFile (hexEncode d)) eqn:E; [|by rewrite andb_false_r].
  apply IsTempFile_dot, hex_no_dot in E; [done|apply hexEncode_lower].
Qed.


Lemma cleaned_abs olderThan cutoff s s' :
  shrunk (tree s) (tree s') ->
  (forall p e, tree s !! p = Some e -> tree s' !! p = Some e \/ (tree s' !! p = None /\ doomed olderThan cutoff (p, e) = true)) ->
  abs s' = abs s.
Proof.
  intros [Hs _] Hk. apply objectsOf_ext. intros d data _. split; intros [m Hm]; exists m; [by eapply lookup_weaken|].
  destruct (Hk _ _ Hm) as [?|[_ Hd]]; [done|]. by rewrite digestPath_kept in Hd.
Qed.

(** Clean removes stray temp files and nothing else, under any context and
    whatever call fails: the objects are the same, every entry that is a
    directory, is not named like a temp file or (with a positive age) was
    written within that age stays as it is, nothing appears, and the count it
    returns is the number of files it removed.  When no call fails it succeeds
    and what is left is exactly the entries it must keep. *)
Theorem fs_Clean_spec (outside : path -> option entry) (olderThan : Z) (c c' : ctx) (s s' : FS) (res : res Z) :
  inv s -> Fs.Clean outside olderThan c s = (res, c', s') ->
  inv s' /\ abs s' = abs s /\ tree s' ⊆ tree s /\
  (forall p e, tree s !! p = Some e -> doomed olderThan (clock s - olderThan) (p, e) = false -> tree s' !! p = Some e) /\
  (forall n, res = Ok n -> n = Z.of_nat (size (tree s)) - Z.of_nat (size (tree s'))) /\
  (c = [] -> quiet s -> is_ok res = true /\
     tree s' = filter (fun kv => doomed olderThan (clock s - olderThan) kv = false) (tree s)).
Proof.
  intros Hi H. unfold Fs.Clean in H.
  mstep H as E with p c1 s1; apply cleanTemp_inv in E as (t' & n & err & Hr & Hs & Hsh & Hk & Hn & Hg); try apply Hi; try done.
  injection Hr as ->. pose proof Hs as (Ht & _).
  assert (s' = s1 /\ res = match err with Some e => Err e | None => Ok n end) as [-> ->] by (destruct err; munfold; by simplify_eq).
  rewrite <- Ht in *. split_and!.
  - by eapply inv_shrunk.
  - by eapply cleaned_abs.
  - apply Hsh.
  - intros p e He Hd. destruct (Hk p e He) as [?|[_ Hd']]; [done|congruence].
  - intros m. destruct err; intros [= <-]. by apply Hn.
  - intros Hc Hq. destruct (Hg Hc Hq) as [-> Hall]. split; [done|]. apply map_eq. intros p. apply option_eq. intros e.
    rewrite map_lookup_filter_Some. split.
    + intros He. destruct Hsh as [Hsub _]. assert (He0 : tree s !! p = Some e) by by eapply lookup_weaken. split; [done|].
      destruct (doomed _ _ (p, e)) eqn:Hd; [|done]. by rewrite (Hall p e He0 Hd) in He.
    + intros [He Hd]. destruct (Hk p e He) as [?|[_ Hd']]; [done|congruence].
Qed.

(** ** GC and Prune *)
Section Collect.
Variable outside : path -> option entry.

Lemma fs_List_named c s res c' s' l :
  inv s -> Fs.List outside c s = (res, c', s') -> res = Ok l ->
  forall d, d ∈ l -> d <> [] /\ (Fs.sliceable fanOut fanLevels d = true -> is_Some (tree s !! Fs.digestPath fanOut fanLevels d)).
Proof.
  intros Hi H -> d Hd. apply (fs_List_inv fanOut fanLevels) in H as (_ & Hl & _); [|done]. rewrite (Hl l eq_refl), elem_of_sortBytes, elem_of_named in Hd.
  destruct Hd as (p & e & Hp & He & Ed). split; [unfold Fs.pathToDigest in Ed; by apply ParseDigest_iff in Ed as [? _]|].
  intros Ha. erewrite <- (inv_named fanOut fanLevels s Hi) by done. by exists e.
Qed.
Lemma fs_List_objects c s l c' s' d :
  inv s -> Fs.List outside c s = (Ok l, c', s') -> is_Some (abs s !! d) -> d ∈ l.
Proof.
  intros Hi H Hd. pose proof (fs_BackendSpec fanOut fanLevels outside false) as HB.
  apply (bs_List (BackendSpec := HB)) in H as (_ & _ & _ & _ & _ & Hl); [|done]. apply Hl; [|done]. by eapply objectsOf_key.
Qed.

(** A loop that deletes some of the digests it is given. *)
Section Loop.
Variable body : Digest -> M FS unit.
Variable del : Digest -> bool.
Hypothesis body_inv : forall d c s r c' s', inv s -> body d c s = (r, c', s') ->
  inv s' /\ (quiet s -> quiet s') /\ (abs s' = abs s \/ (del d = true /\ abs s' = delete d (abs s))) /\
  (is_ok r = true -> del d = true -> abs s' !! d = None).

Lemma deleteLoop_inv l c s r c' s' :
  inv s -> forM_ l body c s = (r, c', s') ->
  inv s' /\ (quiet s -> quiet s') /\ abs s' ⊆ abs s /\
  (forall d, d ∉ l \/ del d = false -> abs s' !! d = abs s !! d) /\
  (is_ok r = true -> forall d, d ∈ l -> del d = true -> abs s' !! d = None).
Proof.
  revert c s. induction l as [|x l IH]; intros c s Hi H; cbn [forM_] in H.
  { munfold. simplify_eq. split_and!; try done. by intros _ d ?%elem_of_nil. }
  mstep H as E with u c1 s1; apply body_inv in E as (Hi1 & Hq1 & Hs1 & Hd1); [|done| |done].
  - assert (Hsub1 : abs s1 ⊆ abs s) by (destruct Hs1 as [-> |[_ ->]]; [done|apply delete_subseteq]).
    assert (Hk1 : forall d, d <> x \/ del d = false -> abs s1 !! d = abs s !! d).
    { intros d Hd. destruct Hs1 as [-> |[Hx ->]]; [done|]. apply lookup_delete_ne. intros ->. destruct Hd; congruence. }
    apply IH in H as (Hi' & Hq' & Hsub & Hk & Hg); [|done]. split_and!; [done|auto|by etrans| |].
    + intros d Hd. rewrite Hk, Hk1; [done|..]; destruct Hd as [[? ?]%not_elem_of_cons|?]; auto.
    + intros Hr d [->|Hd]%elem_of_cons Hdel; [|by apply Hg]. specialize (Hd1 eq_refl Hdel).
      apply eq_None_not_Some. intros [data Hdata]. eapply lookup_weaken in Hdata; [|done]. congruence.
  - split_and!; [done..|by destruct Hs1 as [-> |[_ ->]]; [|apply delete_subseteq]| |done].
    intros d Hd. destruct Hs1 as [-> |[Hx ->]]; [done|]. apply lookup_delete_ne. intros ->.
    destruct Hd as [[? _]%not_elem_of_cons|?]; congruence.
Qed.

Lemma deleteLoop_total l s :
  (forall d s, d ∈ l -> inv s -> quiet s -> exists s', body d [] s = (Ok tt, [], s')) ->
  inv s -> quiet s -> exists s', forM_ l body [] s = (Ok tt, [], s').
Proof.
  revert s. induction l as [|x l IH]; intros s Hb Hi Hq; cbn [forM_]; [munfold; eauto|].
  destruct (Hb x s) as [s1 E]; [by left|done..|]. erewrite bind_ok by exact E.
  apply body_inv in E as (? & ? & _); [|done]. apply IH; auto. intros d s0 Hd. apply Hb. by right.
Qed.
End Loop.

Definition marked (reachable : gmap bytes bool) (d : Digest) : bool := default false (reachable !! DString d).

Lemma ctxErr_total {A} (k : M FS A) s : (ctxErr;; k) [] s = k [] s.
Proof. by erewrite bind_ok by apply ctxErr_nil. Qed.

(** A guarded delete, as both collections run it. *)
Lemma guardedDelete_inv (guard : bool) d c s r c' s' :
  inv s -> (ctxErr;; if guard then Fs.Delete outside fanOut fanLevels d else mret tt) c s = (r, c', s') ->
  inv s' /\ (quiet s -> quiet s') /\ (abs s' = abs s \/ (guard = true /\ abs s' = delete d (abs s))) /\
  (is_ok r = true -> guard = true -> abs s' !! d = None).
Proof.
  intros Hi H. mstep H as E with u c1 s1; pose proof E as ->%ctxErr_inv; [|by split_and!; auto].
  destruct guard; [|munfold; simplify_eq; by split_and!; auto].
  apply fs_Delete_sound in H as (? & ? & Hr); [|done]. split_and!; try done.
  - destruct r; [right; by destruct Hr|by left].
  - destruct r as [u'|]; [|done]. destruct Hr as [_ ->]. intros _ _. apply lookup_delete_eq.
Qed.
Lemma guardedDelete_total (guard : bool) d s :
  inv s -> quiet s -> (guard = true -> key d) ->
  exists s', (ctxErr;; if guard then Fs.Delete outside fanOut fanLevels d else mret tt) [] s = (Ok tt, [], s').
Proof.
  intros Hi Hq Hk. rewrite ctxErr_total. destruct guard; [|munfold; eauto]. apply fs_Delete_total; auto.
Qed.

(** The unmarked digests that have a path. *)
Definition gcDel (reachable : gmap bytes bool) (d : Digest) : bool := Fs.sliceable fanOut fanLevels d && negb (marked reachable d).
(** The layout's product does not wrap around. *)
Definition exactLayout : Prop := Fs.fanDepth fanOut fanLevels = Z.of_nat fanOut * Z.of_nat fanLevels.
Lemma exact_addressable d : exactLayout -> Fs.addressable fanOut fanLevels d = Fs.sliceable fanOut fanLevels d.
Proof. intros E. unfold Fs.addressable, Fs.sliceable. rewrite E. apply eq_bool_prop_intro. rewrite !Is_true_true, Nat.leb_le, Z.leb_le. lia. Qed.
Lemma unsliceable_Delete d c s r c' s' : Fs.sliceable fanOut fanLevels d = false ->
  Fs.Delete outside fanOut fanLevels d c s = (r, c', s') -> s' = s /\ is_ok r = false.
Proof.
  intros Hd H. apply fs_guards_inv in H as [(c1 & [_ Hk] & _)|[-> (e & -> & _)]]; [congruence|done].
Qed.

Definition gcBody (reachable : gmap bytes bool) (d : Digest) : M FS unit :=
  ctxErr;;
  if negb (Fs.addressable fanOut fanLevels d) then mret tt
  else if negb (default false (reachable !! DString d)) then Fs.Delete outside fanOut fanLevels d else mret tt.
Lemma gcBody_inv reachable d c s r c' s' : inv s -> gcBody reachable d c s = (r, c', s') ->
  inv s' /\ (quiet s -> quiet s') /\ (abs s' = abs s \/ (gcDel reachable d = true /\ abs s' = delete d (abs s))) /\
  (is_ok r = true -> gcDel reachable d = true -> abs s' !! d = None).
Proof.
  intros Hi H.
  assert (E : gcBody reachable d c s = (ctxErr;; if Fs.addressable fanOut fanLevels d && negb (marked reachable d) then Fs.Delete outside fanOut fanLevels d else mret tt) c s)
    by (unfold gcBody, marked; by destruct (Fs.addressable fanOut fanLevels d)).
  rewrite E in H. clear E. unfold gcDel. destruct (Fs.sliceable fanOut fanLevels d) eqn:Es; cbn [andb].
  - rewrite (sliceable_addressable fanOut fanLevels d Es) in H. by eapply guardedDelete_inv.
  - mstep H as E with u c1 s1; pose proof E as ->%ctxErr_inv; [|by split_and!; auto].
    destruct (_ && _); [apply unsliceable_Delete in H as [-> ?]; [|done]|munfold; simplify_eq]; by split_and!; auto.
Qed.
Lemma gcBody_total reachable d s : exactLayout -> inv s -> quiet s -> (gcDel reachable d = true -> key d) ->
  exists s', gcBody reachable d [] s = (Ok tt, [], s').
Proof.
  intros Hx Hi Hq Hk. destruct (guardedDelete_total (gcDel reachable d) d s Hi Hq Hk) as [s' E]. exists s'. rewrite <- E.
  unfold gcBody, gcDel, marked. rewrite exact_addressable by done. by destruct (Fs.sliceable fanOut fanLevels d).
Qed.

(** GC removes exactly the unmarked objects.  Whatever call fails and at
    whatever point the context ends, a marked object is never touched and
    nothing but whole objects goes; when GC returns no error the store holds the
    marked objects and no others; and without faults, in a layout whose product
    does not wrap around, it returns none. *)
Theorem fs_GC_spec (reachable : gmap bytes bool) (c c' : ctx) (s s' : FS) (res : res unit) :
  inv s -> Fs.GC outside fanOut fanLevels reachable c s = (res, c', s') ->
  inv s' /\ abs s' ⊆ abs s /\
  (forall d, marked reachable d = true -> abs s' !! d = abs s !! d) /\
  (is_ok res = true -> abs s' = filter (fun kv => marked reachable kv.1 = true) (abs s)) /\
  (exactLayout -> c = [] -> quiet s -> is_ok res = true).
Proof.
  intros Hi H. unfold Fs.GC in H. mstep H as EL with l c1 s1;
    pose proof EL as (He & _ & Hq)%(fs_List_inv fanOut fanLevels); try done;
    destruct (inv_evolves _ _ _ _ Hi He) as (Hi1 & Hq1 & Ha1).
  2:{ rewrite Ha1. split_and!; try done. intros _ Hc Hqs. by destruct (Hq Hc Hqs). }
  change (forM_ l (gcBody reachable) c1 s1 = (res, c', s')) in H.
  pose proof (gcBody_inv reachable) as Hbody.
  pose proof (deleteLoop_inv _ _ Hbody l c1 s1 res c' s' Hi1 H) as (Hi' & _ & Hsub & Hk & Hg). rewrite <- Ha1 in *.
  assert (Hmk : forall d, marked reachable d = true -> abs s' !! d = abs s1 !! d).
  { intros d Hd. apply Hk. right. unfold gcDel. by rewrite Hd, andb_false_r. }
  split_and!; [done..| |].
  - intros Hr. apply map_eq. intros d. apply option_eq. intros data. rewrite map_lookup_filter_Some. cbn [fst]. split.
    + intros Hd. assert (Hd1 : abs s1 !! d = Some data) by by eapply lookup_weaken. split; [done|].
      destruct (marked reachable d) eqn:Em; [done|]. assert (key d) as [_ Had] by (eapply objectsOf_key; eexists; exact Hd1).
      rewrite (Hg Hr d) in Hd; [done| |unfold gcDel; by rewrite Had, Em]. eapply (fs_List_objects c s l); [done..|].
      rewrite <- Ha1. by eexists.
    + intros [Hd Hm]. by rewrite Hmk.
  - intros Hx -> Hqs. destruct (Hq eq_refl Hqs) as [_ ->].
    destruct (deleteLoop_total _ _ Hbody l s1) as [s2 E2]; [|done|auto|by rewrite E2 in H; simplify_eq].
    intros d s0 Hd Hi0 Hq0. apply gcBody_total; [done..|].
    intros [Had _]%andb_prop. split; [|done]. by eapply (fs_List_named [] s (Ok l)).
Qed.

(** What Prune may take: an unmarked object at least [minAge] old. *)
Definition expendable (reachable : gmap bytes bool) (minAge : Z) (s : FS) (d : Digest) : bool :=
  gcDel reachable d &&
  match tree s !! Fs.digestPath fanOut fanLevels d with
  | Some (File _ m) => negb (timeSub (clock s) m <? minAge)
  | _ => false
  end.
Lemma expendable_evolves reachable minAge s s' d :
  evolves s (tree s) s' -> expendable reachable minAge s' d = expendable reachable minAge s d.
Proof. intros (Ht & Hc & _). unfold expendable. by rewrite Ht, Hc. Qed.

Lemma pruneOne_inv reachable minAge acc d c s r c' s' :
  inv s -> d <> [] ->
  Fs.pruneOne outside fanOut fanLevels reachable (clock s) minAge acc d c s = (r, c', s') ->
  evolves s (tree s) s' /\
  (forall l, r = Ok l -> l = acc \/ (l = acc ++ [d] /\ expendable reachable minAge s d = true)) /\
  (quiet s -> forall l, r = Ok l -> expendable reachable minAge s d = true -> l = acc ++ [d]) /\
  (exactLayout -> c = [] -> is_ok r = true /\ c' = []).
Proof.
  intros Hi Hd H. unfold Fs.pruneOne in H. mstep H as E with u c1 s1; pose proof E as ->%ctxErr_inv.
  2:{ split_and!; try done. by intros _ ->. }
  assert (Hc1 : c = [] -> c1 = []) by (intros ->; injection E as _ <-; done). clear E u.
  unfold expendable, gcDel, marked. destruct (Fs.sliceable fanOut fanLevels d) eqn:Ha; cbn [negb andb] in *.
  2:{ assert (Hx : exactLayout -> Fs.addressable fanOut fanLevels d = false) by (intros; by rewrite exact_addressable).
      destruct (Fs.addressable fanOut fanLevels d); cbn [negb] in H.
      { destruct (default false (reachable !! DString d)); munfold; simplify_eq; (split_and!; [done|intros ? [= <-]; by left|done|by intros ?%Hx])
        || (split_and!; [done|done|done|by intros ?%Hx]). }
      munfold. simplify_eq. split_and!; try done; [intros ? [= <-]; by left|auto]. }
  rewrite (sliceable_addressable fanOut fanLevels d Ha) in H. cbn [negb] in H.
  destruct (default false (reachable !! DString d)) eqn:Em; cbn [negb andb] in *.
  { munfold. simplify_eq. split_and!; try done; [intros ? [= <-]; by left|auto]. }
  apply bind_attempt in H as (r0 & c2 & s2 & E & H). apply statWith_inv in E as (-> & He & Hr).
  assert (Hstay : (r, c', s') = (Ok acc, c1, s2) -> r = Ok acc /\ c' = c1 /\ s' = s2) by (intros; by simplify_eq).
  destruct (inv_object fanOut fanLevels s Hi d) as [HN|(data & m & HF)]; [done| |].
  - rewrite HN. assert (r = Ok acc /\ c' = c1 /\ s' = s2) as (-> & -> & ->).
    { destruct r0 as [e|e]; [|munfold; auto].
      destruct (resolve_key fanOut fanLevels outside s d true Hi (conj Hd Ha)) as [(data & m & HR & Hab)|[HR _]].
      - apply objectsOf_lookup in Hab as (_ & m' & Hm'). congruence.
      - rewrite Hr in HR. by destruct HR. }
    split_and!; try done; [intros ? [= <-]; by left|auto].
  - rewrite HF. rewrite (resolve_present outside _ true _ (File data m)) in Hr by (try done; by apply Hi).
    destruct r0 as [e|e].
    + simplify_eq. cbn [modTime] in H. destruct (timeSub (clock s) m <? minAge); munfold; simplify_eq;
        (split_and!; [done|intros ? [= <-]; auto|by intros _ ? [= <-]|auto]).
    + munfold. simplify_eq. split_and!; try done; [intros ? [= <-]; by left| |auto].
      intros Hq. by destruct Hr as [[Hn _]|[[_ ?]|[_ [?|?]]]].
Qed.

Lemma pruneFold_inv reachable minAge l now acc c s r c' s' :
  inv s -> now = clock s -> (forall d, d ∈ l -> d <> []) ->
  foldM l acc (Fs.pruneOne outside fanOut fanLevels reachable now minAge) c s = (r, c', s') ->
  evolves s (tree s) s' /\
  (forall l', r = Ok l' -> forall d, d ∈ l' -> d ∈ acc \/ (d ∈ l /\ expendable reachable minAge s d = true)) /\
  (quiet s -> forall l', r = Ok l' -> forall d, d ∈ acc \/ (d ∈ l /\ expendable reachable minAge s d = true) -> d ∈ l') /\
  (exactLayout -> c = [] -> is_ok r = true /\ c' = []).
Proof.
  revert acc c s. induction l as [|x l IH]; intros acc c s Hi Hnow Hl H; cbn [foldM] in H.
  { munfold. simplify_eq. split_and!; try done; [intros ? [= <-]; by left|].
    intros _ ? [= <-] d [?|[?%elem_of_nil _]]; done. }
  subst now. mstep H as E with acc1 c1 s1; apply pruneOne_inv in E as (He & Ha & Hqa & Hc); try done; try (apply Hl; by left).
  destruct (inv_evolves _ _ _ _ Hi He) as (Hi1 & Hq1 & _). pose proof He as (Ht & Hck & _).
  apply IH in H as (He' & Ha' & Hqa' & Hc'); [|done|done|intros; apply Hl; by right]. rewrite Ht in He'.
  setoid_rewrite (expendable_evolves reachable minAge s s1 _ He) in Ha'.
  setoid_rewrite (expendable_evolves reachable minAge s s1 _ He) in Hqa'. split_and!.
  - by eapply evolves_trans.
  - intros l' Hl' d Hd. destruct (Ha' l' Hl' d Hd) as [Hd1|[? ?]]; [|right; split; [by right|done]].
    destruct (Ha acc1 eq_refl) as [->|[-> Hx]]; [by left|]. apply elem_of_app in Hd1 as [?|?%list_elem_of_singleton]; [by left|].
    right. subst. split; [by left|done].
  - intros Hq l' Hl' d [Hd|[[->|Hd]%elem_of_cons Hx]]; apply (Hqa' (Hq1 Hq) l' Hl').
    + left. destruct (Ha acc1 eq_refl) as [->|[-> _]]; [done|]. apply elem_of_app. by left.
    + left. rewrite (Hqa Hq acc1 eq_refl Hx). apply elem_of_app. right. by left.
    + by right.
  - intros Hx Hcn. destruct (Hc Hx Hcn) as [_ ->]. by apply Hc'.
Qed.

(** Prune takes only old unmarked objects.  Whatever call fails, an object
    that is marked, or was written less than [minAge] before the call, keeps its
    content; a dry run changes nothing; without an error the digests returned
    are expendable, exactly those are gone (unless it was a dry run), and when
    no call failed they are all the expendable ones. *)
Theorem fs_Prune_spec (reachable : gmap bytes bool) (minAge : Z) (dryRun : bool) (c c' : ctx) (s s' : FS) (res : res (list Digest)) :
  inv s -> Fs.Prune outside fanOut fanLevels reachable minAge dryRun c s = (res, c', s') ->
  inv s' /\ abs s' ⊆ abs s /\ (dryRun = true -> tree s' = tree s) /\
  (forall d, expendable reachable minAge s d = false -> abs s' !! d = abs s !! d) /\
  (forall l, res = Ok l ->
     (forall d, d ∈ l -> expendable reachable minAge s d = true) /\
     (dryRun = false -> forall d, d ∈ l -> abs s' !! d = None) /\
     (quiet s -> forall d, is_Some (abs s !! d) -> expendable reachable minAge s d = true -> d ∈ l)) /\
  (exactLayout -> c = [] -> quiet s -> is_ok res = true).
Proof.
  intros Hi H. unfold Fs.Prune in H. mstep H as EL with l c1 s1;
    pose proof EL as (He & _ & Hq)%(fs_List_inv fanOut fanLevels); try done;
    destruct (inv_evolves _ _ _ _ Hi He) as (Hi1 & Hq1 & Ha1); pose proof He as (Ht1 & Hck & _).
  2:{ rewrite Ha1. split_and!; try done. intros _ Hc Hqs. by destruct (Hq Hc Hqs). }
  mstep H as EG with g c2 s2; unfold get in EG; simplify_eq.
  assert (Hnn : forall d, d ∈ l -> d <> []) by (intros d Hd; by apply (fs_List_named _ _ _ _ _ l Hi EL eq_refl)).
  mstep H as EF with dm c3 s3; pose proof EF as (He3 & Hdm & Hqdm & Hc3)%pruneFold_inv; try done;
    destruct (inv_evolves _ _ _ _ Hi1 He3) as (Hi3 & Hq3 & Ha3); pose proof He3 as (Ht3 & _).
  2:{ rewrite Ha3, Ha1, Ht3, Ht1. split_and!; try done. intros Hx Hc Hqs. destruct (Hq Hc Hqs) as [_ ->]. by destruct (Hc3 Hx eq_refl). }
  assert (Hex : forall d, d ∈ dm -> d ∈ l /\ expendable reachable minAge s d = true).
  { intros d Hd. destruct (Hdm dm eq_refl d Hd) as [?%elem_of_nil|[? Hx]]; [done|]. by rewrite <- (expendable_evolves _ _ s g). }
  assert (Hall : quiet s -> forall d, is_Some (abs s !! d) -> expendable reachable minAge s d = true -> d ∈ dm).
  { intros Hqs d Hd Hx. apply (Hqdm (Hq1 Hqs) dm eq_refl). right. split; [by eapply (fs_List_objects c s l)|].
    by rewrite (expendable_evolves _ _ s g). }
  destruct dryRun.
  { munfold. simplify_eq. rewrite Ha3, Ha1, Ht3, Ht1. split_and!; try done.
    intros ? [= <-]. split_and!; [|done|done]. intros d Hd. by apply Hex. }
  set (body := fun d : Digest => ctxErr;; Fs.Delete outside fanOut fanLevels d) in *.
  assert (Hbody : forall d c s r c' s', inv s -> body d c s = (r, c', s') ->
    inv s' /\ (quiet s -> quiet s') /\ (abs s' = abs s \/ (true = true /\ abs s' = delete d (abs s))) /\
    (is_ok r = true -> true = true -> abs s' !! d = None)) by exact (guardedDelete_inv true).
  assert (Hfin : forall r4 c4 s4, forM_ dm body c3 s3 = (r4, c4, s4) ->
    inv s4 /\ abs s4 ⊆ abs s /\ (forall d, expendable reachable minAge s d = false -> abs s4 !! d = abs s !! d) /\
    (is_ok r4 = true -> forall d, d ∈ dm -> abs s4 !! d = None) /\ (exactLayout -> c = [] -> quiet s -> is_ok r4 = true)).
  { intros r4 c4 s4 EV. pose proof (deleteLoop_inv body (fun _ => true) Hbody dm c3 s3 r4 c4 s4 Hi3 EV) as (Hi4 & _ & Hsub & Hk & Hg).
    rewrite <- Ha1, <- Ha3. split_and!; [done..| |intros Hr d Hd; by apply Hg|].
    - intros d Hx. apply Hk. left. intros Hd%Hex. destruct Hd. congruence.
    - intros Hx Hc Hqs. destruct (Hq Hc Hqs) as [_ ->]. destruct (Hc3 Hx eq_refl) as [_ ->].
      destruct (deleteLoop_total body (fun _ => true) Hbody dm s3) as [s5 E5]; [|done|auto|by rewrite E5 in EV; simplify_eq].
      intros d s0 Hd Hi0 Hq0. apply (guardedDelete_total true); [done..|]. intros _.
      destruct (Hex d Hd) as [Hdl [[Ha _]%andb_prop _]%andb_prop]. split; [by apply Hnn|done]. }
  mstep H as EV with u c4 s4; apply Hfin in EV as (? & ? & ? & Hg & Hok); [|by split_and!].
  munfold. simplify_eq. split_and!; try done. intros ? [= <-]. split_and!; [|by auto|done]. intros d Hd. by apply Hex.
Qed.
End Collect.

(** A stray file in the base, under a name with a dot. *)
Lemma inv_stray s n e : inv s -> x2e ∈ n -> tree s !! [n] = None -> isDir e = false ->
  inv (mkFS (<[[n] := e]> (tree s)) (faults s) (clock s)).
Proof.
  intros [Hroot Hpar Hcl Hob Hnm Hun] Hn HN He.
  assert (Hpath : forall d k, Fs.digestPath fanOut fanLevels d <> [n] ++ k).
  { intros d k E. apply (digestPath_no_dot fanOut fanLevels d n); [|done]. rewrite E. left. }
  assert (Hno : forall d, Fs.pathToDigest [n] <> Ok d).
  { intros d E. apply ParseDigest_iff in E as [_ E]. cbn in E. rewrite <- E in Hn. by apply hex_no_dot in Hn; [|apply hexEncode_lower]. }
  split; cbn [tree].
  - by rewrite lookup_insert_ne.
  - intros p m e' H. rewrite lookup_insert in H. case_decide as Hp.
    + destruct p as [|? p]; [by rewrite lookup_insert_ne|by destruct p].
    + apply Hpar in H. rewrite lookup_insert_ne; [done|]. intros <-. congruence.
  - intros d Hk q k E Hne. rewrite lookup_insert_ne; [by eapply Hcl|]. intros <-. by apply Hpath in E.
  - intros d Hk. rewrite lookup_insert_ne; [by apply Hob|]. intros E. apply (Hpath d []). by rewrite app_nil_r.
  - intros p e' d H. rewrite lookup_insert in H. case_decide as Hp; [|by eapply Hnm]. subst p. by intros _ ?%Hno.
  - intros p p' e1 e2 d H H'. rewrite lookup_insert in H. rewrite lookup_insert in H'.
    repeat case_decide; subst; try (by intros _ _ ?%Hno); try (by intros _ _ _ ?%Hno). by eapply Hun.
Qed.

Lemma inv_fresh f k : inv (mkFS {[ [] := Directory ]} f k).
Proof.
  assert (Hd : forall p e, ({[ [] := Directory ]} : gmap path entry) !! p = Some e -> p = [] /\ e = Directory)
    by (intros p e [<- <-]%lookup_singleton_Some; done).
  assert (Hne : forall (p : path), p <> [] -> ({[ [] := Directory ]} : gmap path entry) !! p = None)
    by (intros; by apply lookup_singleton_ne).
  split; cbn [tree].
  - apply lookup_singleton_eq.
  - intros p n e [E _]%Hd. by destruct p.
  - intros d Hk q k' E Hk'. destruct (decide (q = [])) as [->|?]; [right; apply lookup_singleton_eq|left; by apply Hne].
  - intros d Hk. left. apply Hne. rewrite digestPath_eq. by destruct (dirOf _ _ d).
  - by intros p e d [_ ->]%Hd.
  - by intros p p' e e' d [_ ->]%Hd.
Qed.
End Layout.

(** ** The layout check *)

(** The layout check multiplies in machine integers: some layouts far deeper
    than the limit pass it. *)
Theorem checkLayout_wraps : exists fanOut fanLevels : Z,
  0 < fanOut < 2 ^ 63 /\ 0 < fanLevels < 2 ^ 63 /\ Fs.MaxFanDepth < fanOut * fanLevels /\ Fs.checkLayout fanOut fanLevels = Ok tt.
Proof. exists (2 ^ 32), (2 ^ 32). by vm_compute. Qed.

(** In such a layout every key passes the check, and is then sliced out of range. *)
Lemma wrapped_layout_panics (fanOut fanLevels : nat) (d : Digest) what :
  int64 (Z.of_nat fanOut * Z.of_nat fanLevels) <= 0 -> (length d * 2 < fanOut * fanLevels)%nat -> d <> [] ->
  Fs.checkKey fanOut fanLevels d what = Ok tt /\
  Fs.keyed fanOut fanLevels d what = Err (Prelude.New "runtime error: slice bounds out of range").
Proof.
  intros Hw Hl Hd.
  assert (Hk : Fs.checkKey fanOut fanLevels d what = Ok tt).
  { unfold Fs.checkKey, Fs.addressable, Fs.fanDepth. rewrite (CheckDigest_ok d what Hd). cbn.
    rewrite (proj2 (Z.leb_le _ _)); [done|]. lia. }
  split; [done|]. unfold Fs.keyed. rewrite Hk. cbn. unfold Fs.sliceable. by rewrite (proj2 (Nat.leb_gt _ _)).
Qed.

(** ** A store in use *)
Definition nowhere : path -> option entry := fun _ => None.
Definition fs0 : FS := mkFS {[ [] := Directory ]} [] 1000.
Definition fs1 : FS := (Fs.Put nowhere 2 1 true [x12; x34] (bytesReader [x61; x62]) [] fs0).2.
Definition fs2 : FS := mkFS (<[[str "x.tmp"] := File [x61] 10]> (tree fs1)) [] 1000.

Lemma fs1_inv : inv 2 1 fs1.
Proof.
  eapply (fs_Put_sound 2 1 nowhere true [x12; x34] (bytesReader [x61; x62]) [] fs0 (Ok tt) []); [apply inv_fresh|].
  vm_compute. reflexivity.
Qed.
Lemma fs2_inv : inv 2 1 fs2.
Proof. apply (inv_stray 2 1 fs1); [apply fs1_inv|by vm_compute; repeat constructor|by vm_compute|done]. Qed.

Example fs_Clean_spec_witness : exists s', Fs.Clean nowhere 500 [] fs2 = (Ok 1, [], s') /\ abs 2 1 s' = abs 2 1 fs2.
Proof.
  eexists. split; [vm_compute; reflexivity|].
  eapply (fs_Clean_spec 2 1 nowhere 500 [] [] fs2 _ (Ok 1)); [apply fs2_inv|vm_compute; reflexivity].
Defined.

Example fs_Put_atomic_witness : exists s', Fs.Put nowhere 2 1 true [x12; x34] (bytesReader [x61; x62]) [] fs2 = (Ok tt, [], s') /\
  (abs 2 1 s' = abs 2 1 fs2 \/ abs 2 1 s' = <[[x12; x34] := [x61; x62]]> (abs 2 1 fs2)).
Proof.
  destruct (fs_Put_atomic 2 1 nowhere true [x12; x34] (bytesReader [x61; x62]) fs2 fs2_inv) as [Hall Hok].
  destruct Hok as [s' E]; [done|by vm_compute|done|by vm_compute|].
  exists s'. split; [exact E|]. by apply Hall in E as (_ & ? & _).
Defined.

Definition fsLink : FS := mkFS {[ [] := Directory; [str "12"] := Symlink 5 ]} [] 1000.
Example fs_Put_refuses_links_witness : exists e,
  Fs.Put nowhere 2 1 true [x12; x34] (bytesReader [x61]) [] fsLink = (Err e, [], fsLink) /\ errIs e ErrUnsafeTarget = true.
Proof.
  eexists. split; [vm_compute; reflexivity|].
  eapply (fun Hp Hc => proj2 (proj2 (fs_Put_refuses_links 2 1 nowhere true [x12; x34] (bytesReader [x61]) [] [] fsLink fsLink (Err _)
    [] (str "12") [str "1234"] (Symlink 5) Hp eq_refl Hc (or_introl (ex_intro _ 5 eq_refl)) eq_refl)) eq_refl eq_refl);
    [|by vm_compute|split; [done|by vm_compute]].
  intros p n e H. cbn [tree fsLink] in *. apply lookup_insert_Some in H as [[E _]|[_ [E _]%lookup_singleton_Some]]; [by destruct p|].
  apply (app_inj_tail []) in E as [<- _]. by vm_compute.
Defined.

Example fs_GC_spec_witness :
  is_Some (abs 2 1 fs1 !! [x12; x34]) /\ marked {[ DString [x12; x34] := true ]} [x12; x34] = true /\
  exists s', Fs.GC nowhere 2 1 {[ DString [x12; x34] := true ]} [] fs1 = (Ok tt, [], s') /\
    abs 2 1 s' !! [x12; x34] = abs 2 1 fs1 !! [x12; x34].
Proof.
  split; [by vm_compute; eexists|]. split; [by vm_compute|]. eexists. split; [vm_compute; reflexivity|].
  eapply (fs_GC_spec 2 1 nowhere {[ DString [x12; x34] := true ]} [] [] fs1 _ (Ok tt)); [apply fs1_inv|vm_compute; reflexivity|by vm_compute].
Defined.

Example fs_Prune_spec_witness :
  exists s', Fs.Prune nowhere 2 1 ∅ 0 false [] fs1 = (Ok [[x12; x34]], [], s') /\ abs 2 1 s' !! [x12; x34] = None.
Proof.
  eexists. split; [vm_compute; reflexivity|].
  eapply (fs_Prune_spec 2 1 nowhere ∅ 0 false [] [] fs1 _ (Ok [[x12; x34]])); [apply fs1_inv|vm_compute; reflexivity|done|done|left].
Defined.
