(* ===== verification/Float64.v ===== *)
(** IEEE doubles as Go computes with them: the Standard Library's executable
    binary64, its conversions to integers, and the bound on a quotient's
    mantissa. *)

From Stdlib Require Import SpecFloat.
From S2P Require Import Prelude.

(** ** Doubles

    [float64] is the Standard Library's executable binary64; [math.Log] is an
    argument of what uses it. *)
Abbreviation float64 := spec_float.
Definition f64 (z : Z) : float64 := binary_normalize 53 1024 z 0 false.
Definition f64_mul : float64 -> float64 -> float64 := SFmul 53 1024.
Definition f64_div : float64 -> float64 -> float64 := SFdiv 53 1024.
Definition f64_zero : float64 := S754_zero false.
Definition f64_one : float64 := f64 1.
Definition IsNaN (f : float64) : bool := negb (SFeqb f f).
Definition IsInf (f : float64) : bool := match f with S754_infinity _ => true | _ => false end.

(** The conversion to an integer: truncation towards zero. *)
Definition f64_trunc (f : float64) : option Z :=
  match f with
  | S754_zero _ => Some 0
  | S754_finite s m e =>
    let v := if 0 <=? e then Z.pos m * 2 ^ e else Z.pos m / 2 ^ (- e) in
    Some (if s then - v else v)
  | _ => None
  end.
(** [math.Round] as an integer: half away from zero. *)
Definition f64_round (f : float64) : option Z :=
  match f with
  | S754_zero _ => Some 0
  | S754_finite s m e =>
    let v := if 0 <=? e then Z.pos m * 2 ^ e else (2 * Z.pos m + 2 ^ (- e)) / (2 * 2 ^ (- e)) in
    Some (if s then - v else v)
  | _ => None
  end.
Definition f64_half : float64 := f64_div f64_one (f64 2).

(** ** Rounding keeps the mantissa below 2^53 *)
Lemma Zdigits2_bound m : 0 <= m -> m < 2 ^ Zdigits2 m.
Proof.
  intros Hm. destruct m as [|p|]; [done| |lia]. cbn [Zdigits2].
  induction p as [p IH|p IH|]; cbn [digits2_pos]; [| |done]; rewrite Pos2Z.inj_succ, Z.pow_succ_r by done;
    [rewrite (Pos2Z.inj_xI p)|rewrite (Pos2Z.inj_xO p)]; lia.
Qed.
Lemma iter_pos_nat {A} (f : A -> A) n x : SpecFloat.iter_pos f n x = Nat.iter (Pos.to_nat n) f x.
Proof.
  revert x. induction n as [n IH|n IH|]; intros x; cbn [SpecFloat.iter_pos]; [| |done]; rewrite !IH, <- Nat.iter_add.
  - rewrite Pos2Nat.inj_xI. rewrite <- Nat.iter_succ_r. f_equal. lia.
  - rewrite Pos2Nat.inj_xO. f_equal. lia.
Qed.
Lemma shr_1_half r : 0 <= shr_m r -> shr_m (shr_1 r) = shr_m r / 2.
Proof.
  destruct r as [[|[p|p|]|p] r s]; cbn [shr_m shr_1]; intros H; try done; try lia.
  - cbn [shr_m]. rewrite Pos2Z.inj_xI. zlia.
  - cbn [shr_m]. rewrite Pos2Z.inj_xO. zlia.
Qed.
Lemma shr_iter n r : 0 <= shr_m r -> shr_m (Nat.iter n shr_1 r) = shr_m r / 2 ^ Z.of_nat n.
Proof.
  intros H. induction n as [|n IH]; [by rewrite Z.div_1_r|]. rewrite Nat.iter_succ, shr_1_half.
  - rewrite IH, Nat2Z.inj_succ, Z.pow_succ_r, Z.div_div, Z.mul_comm by lia. done.
  - rewrite IH. apply Z.div_pos; lia.
Qed.

Lemma shr_mantissa r e n : 0 <= shr_m r -> 0 <= shr_m (shr r e n).1 /\
  (0 <= n -> shr_m (shr r e n).1 = shr_m r / 2 ^ n) /\ (n <= 0 -> shr_m (shr r e n).1 = shr_m r).
Proof.
  intros H. destruct n as [|p|p]; cbn [shr fst]; [split_and!; [done|by rewrite Z.div_1_r|done]| |split_and!; [done|lia|done]].
  rewrite iter_pos_nat, shr_iter, positive_nat_Z by done. split_and!; [apply Z.div_pos; lia|done|lia].
Qed.
Lemma shr_record_m m l : shr_m (shr_record_of_loc m l) = m.
Proof. by destruct l as [|[| |]]. Qed.
Lemma shr_fexp_bound prec emax m e l : 0 < prec -> 0 <= m ->
  0 <= shr_m (shr_fexp prec emax m e l).1 < 2 ^ prec.
Proof.
  intros Hp Hm. unfold shr_fexp. set (n := fexp prec emax (Zdigits2 m + e) - e).
  assert (Hn : Zdigits2 m - prec <= n) by (unfold n, fexp; lia).
  pose proof (Zdigits2_bound m Hm) as Hd.
  destruct (shr_mantissa (shr_record_of_loc m l) e n) as (H0 & H1 & H2); [by rewrite shr_record_m|].
  split; [done|]. rewrite shr_record_m in H1, H2. destruct (decide (0 <= n)).
  - rewrite H1 by done. apply Z.div_lt_upper_bound; [lia|]. rewrite <- Z.pow_add_r by lia.
    eapply Z.lt_le_trans; [done|]. apply Z.pow_le_mono_r; lia.
  - rewrite H2 by lia. eapply Z.lt_le_trans; [done|]. apply Z.pow_le_mono_r; lia.
Qed.
Lemma round_aux_mantissa prec emax sx mx ex lx s m e : 0 < prec -> 0 <= mx ->
  binary_round_aux prec emax sx mx ex lx = S754_finite s m e -> Z.pos m < 2 ^ prec.
Proof.
  intros Hp Hm. unfold binary_round_aux. pose proof (shr_fexp_bound prec emax mx ex lx Hp Hm) as Hb.
  destruct (shr_fexp prec emax mx ex lx) as [r1 e1]. cbn [fst] in Hb.
  set (m1 := round_nearest_even _ _). assert (Hm1 : 0 <= m1).
  { unfold m1, round_nearest_even. repeat case_match; lia. }
  pose proof (shr_fexp_bound prec emax m1 e1 loc_Exact Hp Hm1) as Hb2.
  destruct (shr_fexp prec emax m1 e1 loc_Exact) as [r2 e2]. cbn [fst] in Hb2.
  destruct (shr_m r2) as [|p|p]; [done| |done]. destruct (e2 <=? emax - prec); [|done]. intros [= _ <- _]. lia.
Qed.
Lemma f64_div_mantissa x y s m e : f64_div x y = S754_finite s m e -> Z.pos m < 2 ^ 53.
Proof.
  unfold f64_div, SFdiv. destruct x as [| | |sx mx ex]; destruct y as [| | |sy my ey]; try done.
  destruct (SFdiv_core_binary 53 1024 (Z.pos mx) ex (Z.pos my) ey) as [[mz ez] lz] eqn:E.
  intros H. eapply (round_aux_mantissa 53 1024); [lia| |exact H]. unfold SFdiv_core_binary in E.
  match type of E with (let '(_, _) := Z.div_eucl ?a ?b in _) = _ => assert (Ha : 0 <= a); [|pose proof (Z_div_mod a b eq_refl) as Hq;
    destruct (Z.div_eucl a b) as [q r]; simplify_eq; nia] end.
  repeat case_match; try lia. apply Z.shiftl_nonneg. lia.
Qed.

(** ** Bit layouts

    [math.Float64bits], [math.Float64frombits], [math.Float32frombits] and the
    exact conversion of a narrower float, by the widths of the mantissa and of
    the exponent; [math.Ldexp]. *)
#[export] Instance spec_float_eq_dec : EqDecision spec_float.
Proof. solve_decision. Defined.
Definition f64_add : float64 -> float64 -> float64 := SFadd 53 1024.
Definition f64_opp : float64 -> float64 := SFopp.
Definition f64_valid (f : float64) : bool := valid_binary 53 1024 f.

Definition frombits (mw ew bits : Z) : spec_float :=
  let s := 1 <=? bits / 2 ^ (mw + ew) in
  let ex := (bits / 2 ^ mw) `mod` 2 ^ ew in
  let m := bits `mod` 2 ^ mw in
  let emin := 2 - 2 ^ (ew - 1) - mw in
  if ex =? 0 then match m with Z.pos p => S754_finite s p emin | _ => S754_zero s end
  else if ex =? 2 ^ ew - 1 then (if m =? 0 then S754_infinity s else S754_nan)
  else match m + 2 ^ mw with Z.pos p => S754_finite s p (ex + emin - 1) | _ => S754_nan end.
Definition Float64frombits : Z -> float64 := frombits 52 11.

Definition signBit (s : bool) : Z := if s then 2 ^ 63 else 0.
Definition Float64bits (f : float64) : Z :=
  match f with
  | S754_zero s => signBit s
  | S754_infinity s => signBit s + 2047 * 2 ^ 52
  | S754_nan => 2047 * 2 ^ 52 + 2 ^ 51 + 1
  | S754_finite s m e =>
    signBit s + (if Z.pos m <? 2 ^ 52 then Z.pos m else (e + 1075) * 2 ^ 52 + (Z.pos m - 2 ^ 52))
  end.

(** The same number with a mantissa of 53 bits. *)
Definition widen (f : spec_float) : float64 :=
  match f with
  | S754_finite s m e =>
    let k := 53 - Z.pos (digits2_pos m) in
    match Z.pos m * 2 ^ k with Z.pos p => S754_finite s p (e - k) | _ => S754_nan end
  | f => f
  end.
Definition Ldexp (frac : float64) (exp : Z) : float64 :=
  match frac with
  | S754_finite s m e => binary_normalize 53 1024 (if s then Z.neg m else Z.pos m) (e + exp) s
  | f => f
  end.

Lemma digits2_pos_bounds p : 2 ^ (Z.pos (digits2_pos p) - 1) <= Z.pos p < 2 ^ Z.pos (digits2_pos p).
Proof.
  split; [|apply (Zdigits2_bound (Z.pos p)); lia].
  induction p as [p IH|p IH|]; cbn [digits2_pos]; [| |done]; rewrite Pos2Z.inj_succ;
    replace (Z.succ (Z.pos (digits2_pos p)) - 1) with (Z.succ (Z.pos (digits2_pos p) - 1)) by lia;
    rewrite Z.pow_succ_r by lia; [rewrite (Pos2Z.inj_xI p)|rewrite (Pos2Z.inj_xO p)]; lia.
Qed.
Lemma digits2_pos_eq p d : 2 ^ (d - 1) <= Z.pos p < 2 ^ d -> Z.pos (digits2_pos p) = d.
Proof.
  intros [H1 H2]. pose proof (digits2_pos_bounds p) as [H3 H4].
  assert (0 < d). { destruct (decide (0 < d)); [done|]. destruct (decide (d = 0)) as [->|]; [change (2 ^ 0) with 1 in H2; lia|]. rewrite (Z.pow_neg_r 2 d) in H2 by lia. lia. }
  assert (Hle : forall a b, 0 <= a -> 2 ^ a < 2 ^ b -> a < b).
  { intros a b Ha H'. destruct (decide (a < b)); [done|]. assert (2 ^ b <= 2 ^ a) by (apply Z.pow_le_mono_r; lia). lia. }
  assert (d - 1 < Z.pos (digits2_pos p)) by (apply Hle; lia).
  assert (Z.pos (digits2_pos p) - 1 < d) by (apply Hle; lia). lia.
Qed.

(** A finite double is valid when its mantissa has 53 bits, or fewer at the
    least exponent. *)
Lemma f64_valid_finite s m e : f64_valid (S754_finite s m e) = true <->
  e <= 971 /\ ((2 ^ 52 <= Z.pos m < 2 ^ 53 /\ -1074 <= e) \/ (Z.pos m < 2 ^ 52 /\ e = -1074)).
Proof.
  unfold f64_valid, valid_binary, bounded, canonical_mantissa, fexp, SpecFloat.emin.
  rewrite andb_true_iff, Z.leb_le, Z.eqb_eq. pose proof (digits2_pos_bounds m) as [H1 H2].
  assert (Hm : forall a b, a <= b -> 2 ^ a <= 2 ^ b) by (intros; apply Z.pow_le_mono_r; lia).
  split.
  - intros [He H]. split; [lia|]. destruct (decide (Z.pos (digits2_pos m) = 53)) as [E|].
    + left. rewrite E in *. lia.
    + right. assert (Hd : Z.pos (digits2_pos m) <= 52) by lia. apply Hm in Hd. lia.
  - intros [He [[Hb Hl]|[Hb ->]]].
    + rewrite (digits2_pos_eq m 53) by lia. lia.
    + split; [|lia]. destruct (decide (Z.pos (digits2_pos m) <= 53)); [lia|].
      assert (Hd : 52 <= Z.pos (digits2_pos m) - 1) by lia. apply Hm in Hd. lia.
Qed.

Lemma Float64bits_range f : f64_valid f = true -> 0 <= Float64bits f < 2 ^ 64.
Proof.
  destruct f as [s|s| |s m e]; intros H.
  - by destruct s.
  - by destruct s.
  - done.
  - apply f64_valid_finite in H. cbn [Float64bits]. unfold signBit. destruct s; case_match; lia.
Qed.
Lemma Float64frombits_bits f : f64_valid f = true -> IsNaN f = false -> Float64frombits (Float64bits f) = f.
Proof.
  destruct f as [s|s| |s m e]; intros H Hn; [destruct s; vm_compute; reflexivity|destruct s; vm_compute; reflexivity|done|].
  apply f64_valid_finite in H. cbn [Float64bits]. unfold Float64frombits, frombits.
  set (low := if Z.pos m <? 2 ^ 52 then _ else _).
  assert (Hlow : 0 < low < 2047 * 2 ^ 52) by (unfold low; destruct (Z.ltb_spec (Z.pos m) (2 ^ 52)); lia).
  assert (Hs : (1 <=? (signBit s + low) / 2 ^ (52 + 11)) = s).
  { destruct s; cbn [signBit]; [apply Z.leb_le|apply Z.leb_gt]; change (2 ^ (52 + 11)) with (2 ^ 63); zlia. }
  rewrite Hs. assert (Hmod : (signBit s + low) `mod` 2 ^ 52 = low `mod` 2 ^ 52).
  { destruct s; cbn [signBit]; [|done]. replace (2 ^ 63 + low) with (low + 2048 * 2 ^ 52) by lia. apply Z.mod_add. lia. }
  assert (Hdiv : ((signBit s + low) / 2 ^ 52) `mod` 2 ^ 11 = low / 2 ^ 52).
  { destruct s; cbn [signBit]; [replace (2 ^ 63 + low) with (low + 2048 * 2 ^ 52) by lia; rewrite Z.div_add by lia|]; zlia. }
  rewrite Hmod, Hdiv. unfold low. destruct (Z.ltb_spec (Z.pos m) (2 ^ 52)) as [Hlt|Hge].
  - rewrite Z.div_small, Z.mod_small by lia. cbn. f_equal. lia.
  - assert (E1 : ((e + 1075) * 2 ^ 52 + (Z.pos m - 2 ^ 52)) / 2 ^ 52 = e + 1075) by zlia.
    assert (E2 : ((e + 1075) * 2 ^ 52 + (Z.pos m - 2 ^ 52)) `mod` 2 ^ 52 = Z.pos m - 2 ^ 52) by zlia.
    rewrite E1, E2. rewrite (proj2 (Z.eqb_neq (e + 1075) 0)), (proj2 (Z.eqb_neq (e + 1075) (2 ^ 11 - 1))) by lia.
    replace (Z.pos m - 2 ^ 52 + 2 ^ 52) with (Z.pos m) by lia. f_equal. lia.
Qed.
Lemma Float64frombits_valid bits : 0 <= bits < 2 ^ 64 -> f64_valid (Float64frombits bits) = true.
Proof.
  intros Hb. unfold Float64frombits, frombits. set (ex := _ `mod` 2 ^ 11). set (m := bits `mod` _). cbn zeta.
  assert (0 <= ex < 2 ^ 11) by (apply Z.mod_pos_bound; lia). assert (0 <= m < 2 ^ 52) by (apply Z.mod_pos_bound; lia).
  clearbody ex m. destruct (Z.eqb_spec ex 0); [destruct m; try done; apply f64_valid_finite; lia|].
  destruct (Z.eqb_spec ex (2 ^ 11 - 1)); [by destruct (m =? 0)|].
  destruct (m + 2 ^ 52) eqn:E; try lia. apply f64_valid_finite. lia.
Qed.
Lemma frombits32_valid bits : 0 <= bits < 2 ^ 32 -> f64_valid (widen (frombits 23 8 bits)) = true.
Proof.
  intros Hb. unfold frombits. set (ex := _ `mod` 2 ^ 8). set (m := bits `mod` _). cbn zeta.
  assert (0 <= ex < 2 ^ 8) by (apply Z.mod_pos_bound; lia). assert (0 <= m < 2 ^ 23) by (apply Z.mod_pos_bound; lia).
  assert (Hw : forall s p e, Z.pos p < 2 ^ 24 -> -149 <= e <= 105 -> f64_valid (widen (S754_finite s p e)) = true).
  { intros s p e Hp He. unfold widen. pose proof (digits2_pos_bounds p) as [H1 H2].
    assert (Hd : Z.pos (digits2_pos p) <= 24).
    { destruct (decide (Z.pos (digits2_pos p) <= 24)); [done|]. assert (2 ^ 24 <= 2 ^ (Z.pos (digits2_pos p) - 1)) by (apply Z.pow_le_mono_r; lia). lia. }
    remember (Z.pos (digits2_pos p)) as d. assert (Hm : 2 ^ 52 <= Z.pos p * 2 ^ (53 - d) < 2 ^ 53).
    { replace (2 ^ 52) with (2 ^ (d - 1) * 2 ^ (53 - d)) by (rewrite <- Z.pow_add_r by lia; f_equal; lia).
      replace (2 ^ 53) with (2 ^ d * 2 ^ (53 - d)) by (rewrite <- Z.pow_add_r by lia; f_equal; lia).
      assert (0 < 2 ^ (53 - d)) by (apply Z.pow_pos_nonneg; lia). nia. }
    destruct (Z.pos p * 2 ^ (53 - d)) eqn:E; try lia. apply f64_valid_finite. lia. }
  clearbody ex m. destruct (Z.eqb_spec ex 0); [destruct m; try done; apply Hw; lia|].
  destruct (Z.eqb_spec ex (2 ^ 8 - 1)); [by destruct (m =? 0)|].
  destruct (m + 2 ^ 23) eqn:E; try lia. apply Hw; lia.
Qed.

(** ** Exact scaling: no bit is lost when the result is a normal double *)
Lemma pos_iter_xO p k : Z.pos (Pos.iter xO p k) = Z.pos p * 2 ^ Z.pos k.
Proof.
  induction k as [|k IH] using Pos.peano_ind; [cbn; lia|]. rewrite Pos.iter_succ, Pos2Z.inj_succ, Z.pow_succ_r by lia.
  rewrite (Pos2Z.inj_xO (Pos.iter xO p k)), IH. lia.
Qed.
Lemma widen_finite s p e : Z.pos (digits2_pos p) <= 53 -> exists p',
  widen (S754_finite s p e) = S754_finite s p' (e - (53 - Z.pos (digits2_pos p))) /\
  Z.pos p' = Z.pos p * 2 ^ (53 - Z.pos (digits2_pos p)) /\ Z.pos (digits2_pos p') = 53.
Proof.
  intros Hd. unfold widen. pose proof (digits2_pos_bounds p) as [H1 H2]. set (d := Z.pos (digits2_pos p)) in *.
  assert (0 < d) by lia. assert (Hp : 0 < 2 ^ (53 - d)) by (apply Z.pow_pos_nonneg; lia).
  destruct (Z.pos p * 2 ^ (53 - d)) as [|q|q] eqn:E; [lia| |lia]. exists q. split_and!; [done|done|]. apply digits2_pos_eq. rewrite <- E. split.
  - replace (2 ^ (53 - 1)) with (2 ^ (d - 1) * 2 ^ (53 - d)) by (rewrite <- Z.pow_add_r by lia; f_equal; lia). nia.
  - replace (2 ^ 53) with (2 ^ d * 2 ^ (53 - d)) by (rewrite <- Z.pow_add_r by lia; f_equal; lia). nia.
Qed.
Lemma round_aux_exact s p e : Z.pos (digits2_pos p) = 53 -> -1074 <= e <= 971 ->
  binary_round_aux 53 1024 s (Z.pos p) e loc_Exact = S754_finite s p e.
Proof.
  intros Hd He. unfold binary_round_aux, shr_fexp. cbn [Zdigits2]. rewrite Hd.
  assert (Hf : fexp 53 1024 (53 + e) - e = 0) by (unfold fexp, SpecFloat.emin; lia). rewrite Hf.
  cbn [shr shr_record_of_loc shr_m loc_of_shr_record round_nearest_even Zdigits2]. rewrite Hd, Hf. cbn [shr shr_record_of_loc shr_m].
  by rewrite (proj2 (Z.leb_le e (1024 - 53))) by lia.
Qed.
Lemma round_exact s p e : Z.pos (digits2_pos p) <= 53 -> -1074 <= e - (53 - Z.pos (digits2_pos p)) <= 971 ->
  binary_round 53 1024 s p e = widen (S754_finite s p e).
Proof.
  intros Hd He. destruct (widen_finite s p e Hd) as (p' & -> & Ep & Ed). unfold binary_round.
  assert (Hf : fexp 53 1024 (Z.pos (digits2_pos p) + e) = e - (53 - Z.pos (digits2_pos p))) by (unfold fexp, SpecFloat.emin; lia).
  rewrite Hf. unfold shl_align. set (k := 53 - Z.pos (digits2_pos p)) in *. replace (e - k - e) with (- k) by lia.
  assert (0 <= k) by lia. clearbody k. destruct k as [|k|k]; [| |lia].
  - cbn [Z.opp]. assert (p' = p) as -> by lia. rewrite Z.sub_0_r. apply round_aux_exact; lia.
  - change (- Z.pos k) with (Z.neg k). cbv iota beta. change (@PosDef.Pos.iter positive) with (@Pos.iter positive).
    assert (Pos.iter xO p k = p') as -> by (apply Pos2Z.inj; rewrite pos_iter_xO; lia). apply round_aux_exact; lia.
Qed.
Lemma Ldexp_widen s p e k : Z.pos (digits2_pos p) <= 53 -> -1074 <= e + k - (53 - Z.pos (digits2_pos p)) <= 971 ->
  Ldexp (widen (S754_finite s p e)) k = widen (S754_finite s p (e + k)).
Proof.
  intros Hd He. destruct (widen_finite s p e Hd) as (p1 & -> & Ep1 & Ed1). destruct (widen_finite s p (e + k) Hd) as (p2 & -> & Ep2 & _).
  assert (p2 = p1) as -> by (apply Pos2Z.inj; congruence). set (d := Z.pos (digits2_pos p)) in *.
  assert (E : binary_normalize 53 1024 (if s then Z.neg p1 else Z.pos p1) (e - (53 - d) + k) s = binary_round 53 1024 s p1 (e - (53 - d) + k)) by by destruct s.
  cbn [Ldexp]. rewrite E, round_exact by lia. destruct (widen_finite s p1 (e - (53 - d) + k)) as (p3 & -> & Ep3 & _); [lia|].
  rewrite Ed1 in *. rewrite Z.sub_diag, Z.mul_1_r in Ep3. assert (p3 = p1) as -> by lia. f_equal. lia.
Qed.
Lemma f64_widen p : Z.pos (digits2_pos p) <= 53 -> f64 (Z.pos p) = widen (S754_finite false p 0).
Proof. intros Hd. unfold f64. apply round_exact; lia. Qed.
Lemma f64_opp_widen x : f64_opp (widen x) = widen (SFopp x).
Proof. destruct x as [| | |s m e]; try done. cbn [widen SFopp]. by destruct (_ * _). Qed.
