(* ===== verification/Bloom.v ===== *)
(** What the Bloom filters share (src/cas/bloom/common.go, index.go): the sizing
    formula over IEEE doubles, the default index function and the probe
    positions. *)

From Stdlib Require Import SpecFloat.
From S2P Require Import Prelude Digest Binary Float64.

(** ** Parameters (common.go) *)
Definition MaxBits : Z := 2 ^ 32.

Definition badRate (rate : float64) : bool :=
  IsNaN rate || SFleb rate f64_zero || SFleb f64_one rate.
Definition ValidateFalsePositiveRate (rate : float64) : res unit :=
  if badRate rate then Err (Prelude.New "%s: false positive rate must be in (0, 1)") else Ok tt.

Section Parameters.
Variable Log : float64 -> float64.
(** What the conversion of a double no int represents gives: Go leaves it to the
    implementation. *)
Variable unrepresentable : Z.

Definition toInt (f : float64) : Z :=
  match f64_round f with
  | Some v => if (- 2 ^ 63 <=? v) && (v <? 2 ^ 63) then v else unrepresentable
  | None => unrepresentable
  end.

Definition Parameters (expectedItems : Z) (falsePositiveRate : float64) : res (Z * Z) :=
  if badRate falsePositiveRate then Err (Prelude.New "false positive rate %v must be in (0, 1)")
  else if expectedItems =? 0 then Ok (1, 1)
  else
    let bits := f64_div (f64_mul (SFopp (f64 expectedItems)) (Log falsePositiveRate)) (f64_mul (Log (f64 2)) (Log (f64 2))) in
    if IsNaN bits || IsInf bits || SFleb bits f64_zero
    then Err (Prelude.New "expected items %d at false positive rate %v yields an invalid bit count")
    else if SFltb (f64 MaxBits) bits
    then Err (Prelude.New "expected items %d at false positive rate %v needs %.0f bits, above the %d-bit limit; shard the key space or use a coarser rate")
    else
      let m := default 0 (f64_trunc bits) in
      let m := if m =? 0 then 1 else m in
      let k := toInt (f64_mul (f64_div (f64 m) (f64 expectedItems)) (Log (f64 2))) in
      let k := if k <=? 0 then 1 else k in
      Ok (m, k).
End Parameters.

(** ** Index functions (index.go) *)
Definition IndexHash : Type := bytes -> Z -> Z.

Section Index.
(** [hash/maphash] under the process's seed. *)
Variable maphash : bytes -> Z.
Definition DefaultIndexHash : IndexHash := fun data i => maphash (data ++ rev (be_put 8 i)).
Definition ResolveIndexHash (hash : option IndexHash) : IndexHash :=
  match hash with None => DefaultIndexHash | Some hash => hash end.
End Index.

Lemma pos_not_lt (a b : positive) :
  match Some (Pos.compare_cont Eq a b) with Some Lt => true | _ => false end = false -> Z.pos b <= Z.pos a.
Proof. change (Pos.compare_cont Eq a b) with (a ?= b)%positive. destruct (Pos.compare_spec a b); [lia|done|lia]. Qed.

(** A double that is not above [MaxBits] truncates to at most it. *)
Lemma trunc_bound f v : SFltb (f64 MaxBits) f = false -> (forall s m e, f = S754_finite s m e -> Z.pos m < 2 ^ 53) ->
  SFleb f f64_zero = false -> IsNaN f = false -> f64_trunc f = Some v -> 0 <= v <= MaxBits.
Proof.
  intros Hle Hm Hpos Hnan Hv. destruct f as [s|s| |[] m e]; try done.
  assert (Hb : Z.pos m < 2 ^ 53) by (by eapply Hm). unfold f64_trunc in Hv. simplify_eq.
  unfold SFltb in Hle. change (f64 MaxBits) with (S754_finite false 4503599627370496 (-20)) in Hle. cbn [SFcompare] in Hle.
  assert (MaxBits = 4294967296) as -> by done.
  destruct (Z.compare_spec (-20) e) as [He|He|He]; [|discriminate|].
  - subst e.
    pose proof (pos_not_lt _ _ Hle) as Hm'.
    change (0 <=? -20) with false. change (2 ^ (- -20)) with 1048576.
    split; [apply Z.div_pos; lia|]. apply Z.div_le_upper_bound; lia.
  - destruct (0 <=? e) eqn:He0; [lia|]. split; [apply Z.div_pos; lia|].
    assert (2 ^ 21 <= 2 ^ (- e)) by (apply Z.pow_le_mono_r; lia).
    apply Z.div_le_upper_bound; [lia|]. nia.
Qed.

(** The sizing every constructor relies on. *)
Lemma Parameters_range Log unrep n rate m k :
  Parameters Log unrep n rate = Ok (m, k) -> 1 <= m <= MaxBits /\ 1 <= k.
Proof.
  unfold Parameters. destruct (badRate rate); [done|]. destruct (n =? 0); [intros [= <- <-]; by vm_compute|].
  cbv zeta. set (bits := f64_div _ _). destruct (IsNaN bits || IsInf bits || SFleb bits f64_zero) eqn:Eb; [done|].
  apply orb_false_iff in Eb as [[Hn Hi]%orb_false_iff Hp]. destruct (SFltb (f64 MaxBits) bits) eqn:El; [done|].
  intros [= <- <-]. split; [|destruct (_ <=? 0) eqn:?; lia].
  destruct (f64_trunc bits) as [v|] eqn:Ev; [|by destruct bits].
  eapply trunc_bound in Ev; try done; [|intros s m e; apply f64_div_mantissa].
  cbn [default]. cbv [from_option id]. destruct (v =? 0) eqn:?; [by vm_compute|lia].
Qed.

(** Sizing a filter never goes wrong silently.  Whatever the logarithm
    computes: a success is a bit count from 1 to [MaxBits] and a positive probe
    count; a rate that is NaN or outside (0, 1) is always refused; no expected
    item gives the minimal filter; and a request that needs more than [MaxBits]
    bits, or an undefined number of them, is an error. *)
Theorem Parameters_bounds (Log : float64 -> float64) (unrepresentable expectedItems : Z) (rate : float64) :
  (forall m k, Parameters Log unrepresentable expectedItems rate = Ok (m, k) -> 1 <= m <= MaxBits /\ 1 <= k) /\
  (badRate rate = true -> is_ok (Parameters Log unrepresentable expectedItems rate) = false) /\
  (badRate rate = false -> expectedItems = 0 -> Parameters Log unrepresentable expectedItems rate = Ok (1, 1)) /\
  (let bits := f64_div (f64_mul (SFopp (f64 expectedItems)) (Log rate)) (f64_mul (Log (f64 2)) (Log (f64 2))) in
   expectedItems <> 0 -> IsNaN bits = true \/ SFltb (f64 MaxBits) bits = true ->
   is_ok (Parameters Log unrepresentable expectedItems rate) = false).
Proof.
  split_and!.
  - apply Parameters_range.
  - unfold Parameters. by intros ->.
  - unfold Parameters. by intros -> ->.
  - intros bits Hn Hb. unfold Parameters. destruct (badRate rate); [done|]. apply Z.eqb_neq in Hn as ->.
    fold bits. destruct (IsNaN bits); [done|]. destruct Hb as [|Hb]; [done|]. rewrite Hb. by destruct (_ || _).
Qed.
(** A rate of one half, with a logarithm of minus one half for it and of one for
    two: twenty items ask for ten bits, a million million for too many. *)
Example Parameters_bounds_witness :
  let Log := fun f => if SFltb f f64_one then SFopp f64_half else f64_one in
  Parameters Log (- 2 ^ 63) 20 f64_half = Ok (10, 1) /\ (1 <= 10 <= MaxBits /\ 1 <= 1) /\
  is_ok (Parameters Log (- 2 ^ 63) (2 ^ 40) f64_half) = false.
Proof.
  intros Log. split; [by vm_compute|].
  destruct (Parameters_bounds Log (- 2 ^ 63) 20 f64_half) as (H & _).
  split; [apply H; by vm_compute|].
  apply (Parameters_bounds Log (- 2 ^ 63) (2 ^ 40) f64_half); [done|right; by vm_compute].
Defined.

(** ** Probe loops *)
(** [for i := range k]. *)
Definition probes (k : Z) : list Z := Z.of_nat <$> seq 0 (Z.to_nat k).
Lemma elem_of_probes k i : i ∈ probes k <-> 0 <= i < k.
Proof.
  unfold probes. rewrite list_elem_of_fmap. split.
  - intros (n & -> & Hn%elem_of_seq). lia.
  - intros Hi. exists (Z.to_nat i). rewrite elem_of_seq. lia.
Qed.

(** A loop over [l] that panics when its body does. *)
Fixpoint loop {A S} (l : list A) (f : A -> S -> option S) (s : S) : option S :=
  match l with
  | [] => Some s
  | x :: l => s' ← f x s; loop l f s'
  end.
Lemma loop_inv {A S} (P : list A -> S -> Prop) (l done : list A) (f : A -> S -> option S) s :
  (forall done x s, x ∈ l -> P done s -> exists s', f x s = Some s' /\ P (done ++ [x]) s') ->
  P done s -> exists s', loop l f s = Some s' /\ P (done ++ l) s'.
Proof.
  revert done s. induction l as [|x l IH]; intros dn s Hf HP; [exists s; by rewrite app_nil_r|]. cbn [loop].
  destruct (Hf dn x s) as (s1 & E & HP1); [left|done|]. rewrite E. cbn.
  destruct (IH (dn ++ [x]) s1) as (s2 & E2 & HP2); [|done|exists s2; by rewrite <- app_assoc in HP2].
  intros. apply Hf; [by right|done].
Qed.

(** ** Bits packed into words *)
(** Bit [idx] of words of [w] bits. *)
Definition bitAt (w : Z) (ws : list Z) (idx : Z) : bool := Z.testbit (default 0 (ws !! Z.to_nat (idx / w))) (idx `mod` w).

Lemma land_pow2_testbit x n : 0 <= n -> negb (Z.land x (2 ^ n) =? 0) = Z.testbit x n.
Proof.
  intros Hn. apply eq_bool_prop_intro. rewrite negb_True, !Is_true_true. split.
  - intros H0. destruct (Z.testbit x n) eqn:E; [done|]. exfalso. apply H0, Z.eqb_eq.
    apply Z.bits_inj'. intros i Hi. rewrite Z.bits_0, Z.land_spec, Z.pow2_bits_eqb by lia.
    destruct (Z.eqb_spec n i); [subst; by rewrite E|by rewrite andb_false_r].
  - intros Hb H0%Z.eqb_eq. apply (f_equal (fun z => Z.testbit z n)) in H0.
    rewrite Z.land_spec, Z.bits_0, Z.pow2_bits_true, Hb in H0 by lia. done.
Qed.
Lemma bitAt_insert w ws idx x idx' : 0 < w -> 0 <= idx -> 0 <= idx' -> ws !! Z.to_nat (idx / w) = Some x ->
  bitAt w (<[Z.to_nat (idx / w) := Z.lor x (2 ^ (idx `mod` w))]> ws) idx' = bitAt w ws idx' || (idx' =? idx).
Proof.
  intros Hw Hi Hi' Hx. unfold bitAt. pose proof (Z.mod_pos_bound idx w Hw). pose proof (Z.mod_pos_bound idx' w Hw).
  pose proof (Z.div_mod idx w ltac:(lia)) as E1. pose proof (Z.div_mod idx' w ltac:(lia)) as E2.
  destruct (decide (idx' / w = idx / w)) as [E|E].
  - rewrite E, list_lookup_insert_eq, Hx by (apply lookup_lt_Some in Hx; done). cbn.
    rewrite Z.lor_spec, Z.pow2_bits_eqb by lia. f_equal. apply eq_bool_prop_intro. rewrite !Is_true_true, !Z.eqb_eq.
    split; [intros Em; congruence|by intros ->].
  - rewrite list_lookup_insert_ne by (pose proof (Z.div_pos idx w); pose proof (Z.div_pos idx' w); lia).
    destruct (Z.eqb_spec idx' idx); [subst; done|]. by rewrite orb_false_r.
Qed.

(** A loop over [l] that ends with [false] at the first element its body
    refuses. *)
Fixpoint allOf {A} (l : list A) (f : A -> option bool) : option bool :=
  match l with
  | [] => Some true
  | x :: l => b ← f x; if (b : bool) then allOf l f else Some false
  end.

(** ** The probes of one digest over a packed bit set *)
Section Probes.
Context {W : Type} (bitOf : W -> Z -> bool) (room : W -> Prop) (size : Z).
Context (setBit : Z -> W -> option W) (getBit : Z -> W -> option bool) (probe : Z -> option Z) (pos : Z -> Z).
Hypothesis probe_pos : forall i, probe i = Some (pos i).
Hypothesis pos_size : forall i, 0 <= pos i < size.
Hypothesis setBit_ok : forall idx ws, room ws -> 0 <= idx < size -> exists ws', setBit idx ws = Some ws' /\ room ws' /\
  forall idx', 0 <= idx' < size -> bitOf ws' idx' = bitOf ws idx' || (idx' =? idx).
Hypothesis getBit_ok : forall idx ws, room ws -> 0 <= idx < size -> getBit idx ws = Some (bitOf ws idx).

Lemma setProbes_ok ps ws : room ws -> exists ws', loop ps (fun i ws => idx ← probe i; setBit idx ws) ws = Some ws' /\ room ws' /\
  forall idx, 0 <= idx < size -> bitOf ws' idx = true <-> bitOf ws idx = true \/ exists i, i ∈ ps /\ pos i = idx.
Proof.
  intros Hr. apply (loop_inv (fun dn ws' => room ws' /\
    forall idx, 0 <= idx < size -> bitOf ws' idx = true <-> bitOf ws idx = true \/ exists i, i ∈ dn /\ pos i = idx) ps []).
  - intros dn i ws1 _ [Hr1 Hb]. rewrite probe_pos. cbn. destruct (setBit_ok (pos i) ws1 Hr1 (pos_size i)) as (ws' & E & Hr' & Hb').
    exists ws'. split; [done|]. split; [done|]. intros idx Hidx. rewrite Hb', orb_true_iff, Z.eqb_eq, Hb by done.
    setoid_rewrite elem_of_app. setoid_rewrite list_elem_of_singleton. naive_solver.
  - split; [done|]. intros idx _. split; [by left|]. intros [?|(i & ?%elem_of_nil & _)]; done.
Qed.
Lemma getProbes_ok ps ws : room ws -> exists b, allOf ps (fun i => idx ← probe i; getBit idx ws) = Some b /\
  (b = true <-> forall i, i ∈ ps -> bitOf ws (pos i) = true).
Proof.
  intros Hr. induction ps as [|i ps IH]; cbn [allOf]; [exists true; split; [done|]; split; [by intros _ i ?%elem_of_nil|done]|].
  rewrite probe_pos. cbn. rewrite getBit_ok by done. cbn. setoid_rewrite elem_of_cons. destruct (bitOf ws (pos i)) eqn:Eb.
  - destruct IH as (b & E & Hb). exists b. split; [done|]. rewrite Hb. naive_solver.
  - exists false. split; [done|]. split; [done|]. intros Hall. rewrite Hall in Eb; [done|by left].
Qed.
End Probes.
