(* ===== verification/BloomStandard.v ===== *)
(** The standard Bloom filter (src/cas/bloom/standard/filter.go): a bit set
    packed into 64-bit words.  An operation that would index out of range, or
    divide by zero, panics: it returns [None]. *)

From Stdlib Require Import SpecFloat.
From S2P Require Import Prelude Digest Binary Float64 Bloom.

Module Standard.
Record Filter := mkFilter { bits : list Z; k : Z; m : Z; hash : IndexHash }.
Record Config := mkConfig { ExpectedItems : Z; FalsePositiveRate : float64; Hash : option IndexHash }.

Section New.
Variable Log : float64 -> float64.
Variable unrepresentable : Z.
Variable maphash : bytes -> Z.

Definition NewFilter (cfg : Config) : res Filter :=
  if ExpectedItems cfg =? 0 then Err (Prelude.New "bloom/standard: expected items must be > 0")
  else
    ValidateFalsePositiveRate (FalsePositiveRate cfg);;
    '(m, k) ← wrapErr (Errorf "bloom/standard: %w") (Parameters Log unrepresentable (ExpectedItems cfg) (FalsePositiveRate cfg));
    Ok (mkFilter (replicate (Z.to_nat ((m + 63) / 64)) 0) k m (ResolveIndexHash maphash (Hash cfg))).

Definition New (expectedItems : Z) (falsePositiveRate : float64) : res Filter :=
  NewFilter (mkConfig expectedItems falsePositiveRate None).
End New.

(** [hash(data, i) % m]. *)
Definition probe (f : Filter) (d : Digest) (i : Z) : option Z := if m f =? 0 then None else Some (hash f d i `mod` m f).

Definition setBit (idx : Z) (ws : list Z) : option (list Z) :=
  let j := Z.to_nat (Z.shiftr idx 6) in
  w ← ws !! j;
  Some (<[j := Z.lor w (wrap64 (Z.shiftl 1 (Z.land idx 63)))]> ws).
Definition getBit (idx : Z) (ws : list Z) : option bool :=
  w ← ws !! Z.to_nat (Z.shiftr idx 6);
  Some (negb (Z.land w (wrap64 (Z.shiftl 1 (Z.land idx 63))) =? 0)).

Definition Add (f : Filter) (d : Digest) : option Filter :=
  if IsZero d then Some f
  else
    ws ← loop (probes (k f)) (fun i ws => idx ← probe f d i; setBit idx ws) (bits f);
    Some (mkFilter ws (k f) (m f) (hash f)).

Definition contains_go (f : Filter) (d : Digest) (ps : list Z) : option bool :=
  allOf ps (fun i => idx ← probe f d i; getBit idx (bits f)).
Definition Contains (f : Filter) (d : Digest) : option bool :=
  if IsZero d then Some false else contains_go f d (probes (k f)).

Definition Reset (f : Filter) : Filter := mkFilter ((fun _ => 0) <$> bits f) (k f) (m f) (hash f).

(** ** Well-formedness and the set of bits *)
Record wf (f : Filter) : Prop := {
  wf_m : 1 <= m f <= MaxBits;
  wf_k : 1 <= k f;
  wf_len : blen (bits f) = (m f + 63) / 64;
}.

Definition bitOf : list Z -> Z -> bool := bitAt 64.
Definition pos (f : Filter) (d : Digest) (i : Z) : Z := hash f d i `mod` m f.

Lemma word_index idx : Z.shiftr idx 6 = idx / 64.
Proof. by rewrite Z.shiftr_div_pow2. Qed.
Lemma bit_index idx : Z.land idx 63 = idx `mod` 64.
Proof. change 63 with (Z.ones 6). by rewrite Z.land_ones. Qed.
Lemma bit_mask idx : wrap64 (Z.shiftl 1 (Z.land idx 63)) = 2 ^ (idx `mod` 64).
Proof.
  rewrite bit_index, Z.shiftl_mul_pow2, Z.mul_1_l by (apply Z.mod_pos_bound; lia). apply wrap64_id.
  pose proof (Z.mod_pos_bound idx 64 eq_refl). split; [lia|]. apply Z.pow_lt_mono_r; lia.
Qed.

Lemma getBit_eq idx ws : 0 <= idx < 64 * blen ws -> getBit idx ws = Some (bitOf ws idx).
Proof.
  intros Hi. unfold getBit, bitOf, bitAt. rewrite word_index, bit_mask.
  destruct (lookup_lt_is_Some_2 ws (Z.to_nat (idx / 64))) as [w Hw]; [zlia|]. rewrite Hw. cbn. f_equal.
  apply land_pow2_testbit, Z.mod_pos_bound. lia.
Qed.

Lemma setBit_spec idx ws : 0 <= idx < 64 * blen ws ->
  exists ws', setBit idx ws = Some ws' /\ length ws' = length ws /\
    forall idx', 0 <= idx' < 64 * blen ws -> bitOf ws' idx' = bitOf ws idx' || (idx' =? idx).
Proof.
  intros Hi. unfold setBit. rewrite word_index, bit_mask.
  destruct (lookup_lt_is_Some_2 ws (Z.to_nat (idx / 64))) as [w Hw]; [zlia|]. rewrite Hw. cbn. eexists. split; [done|].
  split; [by rewrite length_insert|]. intros idx' Hi'. apply bitAt_insert; [lia..|done].
Qed.

Section WF.
Context (f : Filter) (Hf : wf f).

Lemma probe_ok d i : probe f d i = Some (pos f d i).
Proof. unfold probe, pos. destruct Hf. destruct (Z.eqb_spec (m f) 0); [lia|done]. Qed.
Lemma pos_range d i : 0 <= pos f d i < m f.
Proof. apply Z.mod_pos_bound. destruct Hf. lia. Qed.
Lemma pos_room d i : 0 <= pos f d i < 64 * blen (bits f).
Proof. pose proof (pos_range d i). destruct Hf as [_ _ ->]. zlia. Qed.

Lemma words_set idx ws : length ws = length (bits f) -> 0 <= idx < m f -> exists ws', setBit idx ws = Some ws' /\ length ws' = length (bits f) /\
  forall idx', 0 <= idx' < m f -> bitOf ws' idx' = bitOf ws idx' || (idx' =? idx).
Proof.
  destruct Hf as [Hm _ Hl]. intros El Hi. destruct (setBit_spec idx ws) as (ws' & E & El' & Hb); [rewrite El, Hl; zlia|].
  exists ws'. split; [done|]. split; [congruence|]. intros idx' Hi'. apply Hb. rewrite El, Hl. zlia.
Qed.
Lemma words_get idx ws : length ws = length (bits f) -> 0 <= idx < m f -> getBit idx ws = Some (bitOf ws idx).
Proof. destruct Hf as [Hm _ Hl]. intros El Hi. apply getBit_eq. rewrite El, Hl. zlia. Qed.

(** The positions one digest sets. *)
Definition touches (d : Digest) (idx : Z) : Prop := d <> [] /\ exists i, 0 <= i < k f /\ pos f d i = idx.

Lemma Add_ok d : exists ws, Add f d = Some (mkFilter ws (k f) (m f) (hash f)) /\ wf (mkFilter ws (k f) (m f) (hash f)) /\
  forall idx, 0 <= idx < m f -> bitOf ws idx = true <-> bitOf (bits f) idx = true \/ touches d idx.
Proof.
  unfold Add, IsZero. destruct d as [|b d0]; cbn [length Nat.eqb].
  { exists (bits f). split; [by destruct f|]. split; [by destruct f|]. intros idx Hi. unfold touches. naive_solver. }
  set (d := b :: d0).
  destruct (setProbes_ok bitOf (fun ws => length ws = length (bits f)) (m f) setBit (probe f d) (pos f d) (probe_ok d) (pos_range d)
    words_set (probes (k f)) (bits f) eq_refl) as (ws & E & Hl & Hb).
  rewrite E. exists ws. split; [done|]. split; [destruct Hf; split; cbn; congruence|].
  intros idx Hidx. rewrite Hb by done. unfold touches. setoid_rewrite elem_of_probes. naive_solver.
Qed.

Lemma Contains_ok d : exists b, Contains f d = Some b /\
  (b = true <-> d <> [] /\ forall i, 0 <= i < k f -> bitOf (bits f) (pos f d i) = true).
Proof.
  unfold Contains, IsZero. destruct d as [|b0 d0]; cbn [length Nat.eqb]; [exists false; naive_solver|]. set (d := b0 :: d0).
  destruct (getProbes_ok bitOf (fun ws => length ws = length (bits f)) (m f) getBit (probe f d) (pos f d) (probe_ok d) (pos_range d)
    words_get (probes (k f)) (bits f) eq_refl) as (b & E & Hb). exists b. split; [exact E|]. rewrite Hb.
  setoid_rewrite elem_of_probes. naive_solver.
Qed.
End WF.

Lemma NewFilter_wf Log unrep maphash cfg f :
  NewFilter Log unrep maphash cfg = Ok f -> wf f /\ forall idx, bitOf (bits f) idx = false.
Proof.
  unfold NewFilter. destruct (ExpectedItems cfg =? 0); [done|]. unfold mbind, res_bind. destruct (ValidateFalsePositiveRate _); [|done].
  destruct (Parameters Log unrep _ _) as [[m0 k0]|] eqn:EP; [|done]. cbn. intros [= <-].
  apply Parameters_range in EP as [Hm Hk]. split.
  - split; cbn; [done|done|]. rewrite length_replicate. zlia.
  - intros idx. cbn. unfold bitOf, bitAt. destruct (_ !! _) as [w|] eqn:Ew; [|apply Z.testbit_0_l].
    apply lookup_replicate in Ew as [-> _]. apply Z.testbit_0_l.
Qed.

Definition addAll (f : Filter) (ds : list Digest) : option Filter := loop ds (fun d f => Add f d) f.

(** The filter holds the union of what its digests touch. *)
Definition holds (f0 : Filter) (ds : list Digest) (f : Filter) : Prop :=
  wf f /\ k f = k f0 /\ m f = m f0 /\ hash f = hash f0 /\
  forall idx, 0 <= idx < m f0 -> bitOf (bits f) idx = true <-> bitOf (bits f0) idx = true \/ exists d, d ∈ ds /\ touches f0 d idx.
Lemma addAll_holds f ds : wf f -> exists f', addAll f ds = Some f' /\ holds f ds f'.
Proof.
  intros Hf. apply (loop_inv (holds f) ds []).
  - intros dn d s _ (Hw & Hk & Hm & Hh & Hb). destruct (Add_ok s Hw d) as (ws & E & Hw' & Hb').
    eexists. split; [exact E|]. split_and!; try done. intros idx Hidx. cbn [bits]. rewrite Hb', Hb by congruence.
    assert (Ht : touches s d idx <-> touches f d idx) by (unfold touches, pos; by rewrite Hk, Hm, Hh).
    rewrite Ht. setoid_rewrite elem_of_app. setoid_rewrite list_elem_of_singleton. naive_solver.
  - split_and!; try done. intros idx _. split; [by left|]. intros [?|(d & ?%elem_of_nil & _)]; done.
Qed.

(** C30. The standard filter is exactly a set of bits, and never panics.  A filter
    the constructor returned takes any sequence of digests without an index out
    of range; it then reports a digest as possibly present exactly when every
    position the digest is probed at was set by one of the digests added, so no
    added digest is ever reported absent and the absent digest never present; and
    a reset filter reports every digest absent. *)
Theorem standard_filter_spec (Log : float64 -> float64) (unrepresentable : Z) (maphash : bytes -> Z) (cfg : Config) (f : Filter)
    (ds : list Digest) :
  NewFilter Log unrepresentable maphash cfg = Ok f ->
  exists f', addAll f ds = Some f' /\
    (forall d, exists b, Contains f' d = Some b /\
       (b = true <-> d <> [] /\ forall i, 0 <= i < k f -> exists d', d' ∈ ds /\ touches f d' (pos f d i))) /\
    (forall d, d ∈ ds -> d <> [] -> Contains f' d = Some true) /\
    (forall d, Contains (Reset f') d = Some false).
Proof.
  intros [Hw Hz]%NewFilter_wf. destruct (addAll_holds f ds Hw) as (f' & E & Hw' & Hk & Hm & Hh & Hb).
  assert (Hpos : forall d i, pos f' d i = pos f d i) by (intros; unfold pos; by rewrite Hm, Hh).
  assert (HC : forall d, exists b, Contains f' d = Some b /\
    (b = true <-> d <> [] /\ forall i, 0 <= i < k f -> exists d', d' ∈ ds /\ touches f d' (pos f d i))).
  { intros d. destruct (Contains_ok f' Hw' d) as (b & Eb & Hbt). exists b. split; [done|]. rewrite Hbt, Hk.
    apply and_iff_compat_l. split; intros H i Hi; specialize (H i Hi); rewrite Hpos in *.
    - rewrite Hb, Hz in H by (by apply pos_range). naive_solver.
    - rewrite Hb by (by apply pos_range). by right. }
  exists f'. split_and!; [done|done| |].
  - intros d Hd Hne. destruct (HC d) as (b & Eb & Hbt). rewrite Eb. f_equal. apply Hbt. split; [done|].
    intros i Hi. exists d. split; [done|]. split; [done|]. by exists i.
  - intros d. assert (Hwr : wf (Reset f')) by (destruct Hw'; split; cbn; rewrite ?length_fmap; done).
    destruct (Contains_ok _ Hwr d) as (b & -> & Hbt). destruct b; [|done]. destruct Hbt as [[_ H0] _]; [done|].
    exfalso. specialize (H0 0). cbn [k Reset bits] in H0. unfold bitOf, bitAt in H0. rewrite list_lookup_fmap in H0.
    destruct Hw' as [_ ? _]. specialize (H0 ltac:(lia)). destruct (bits f' !! _); cbn in H0; by rewrite Z.testbit_0_l in H0.
Qed.

(** Twenty items in ten bits, indexed by the digest's first byte. *)
Definition sampleLog : float64 -> float64 := fun f => if SFltb f f64_one then SFopp f64_half else f64_one.
Definition sampleHash : IndexHash := fun d i => be_get (take 1 d) + i.
Definition sampleConfig : Config := mkConfig 20 f64_half (Some sampleHash).
Definition sampleFilter : Filter := mkFilter [0] 1 10 sampleHash.
Lemma sample_New : NewFilter sampleLog 0 (fun _ => 0) sampleConfig = Ok sampleFilter.
Proof. vm_compute. reflexivity. Qed.
Example standard_filter_spec_witness : exists f',
  addAll sampleFilter [[x05]; [x63; x01]] = Some f' /\ Contains f' [x05] = Some true /\ Contains f' [x02] = Some false.
Proof.
  destruct (standard_filter_spec sampleLog 0 (fun _ => 0) sampleConfig sampleFilter [[x05]; [x63; x01]] sample_New)
    as (f' & E & _ & H & _).
  exists f'. split; [exact E|]. split; [apply H; [left|done]|].
  vm_compute in E. injection E as <-. vm_compute. reflexivity.
Defined.
End Standard.
