(* ===== verification/BloomCounting.v ===== *)
(** The counting Bloom filter (src/cas/bloom/counting/filter.go): saturating
    counters of 4, 8 or 16 bits packed into bytes.  [None] is a panic. *)

From Stdlib Require Import SpecFloat.
From S2P Require Import Prelude Digest Binary Float64 Bloom.

Module Counting.
Definition MaxCounterBytes : Z := MaxBits / 2.

Record Filter := mkFilter { counts : list Z; k : Z; m : Z; bits : Z; mask : Z; hash : IndexHash }.
Record Config := mkConfig { ExpectedItems : Z; FalsePositiveRate : float64; CounterBits : Z; Hash : option IndexHash }.

Definition packedCounterBytes (m counterBits : Z) : Z := wrap64 (wrap64 (m * counterBits) + 7) / 8.

Section New.
Variable Log : float64 -> float64.
Variable unrepresentable : Z.
Variable maphash : bytes -> Z.

Definition NewFilter (cfg : Config) : res Filter :=
  if ExpectedItems cfg =? 0 then Err (Prelude.New "bloom/counting: expected items must be > 0")
  else
    ValidateFalsePositiveRate (FalsePositiveRate cfg);;
    if negb (CounterBits cfg =? 4) && negb (CounterBits cfg =? 8) && negb (CounterBits cfg =? 16)
    then Err (Prelude.New "bloom/counting: counter bits must be one of 4, 8, 16")
    else
      '(m, k) ← wrapErr (Errorf "bloom/counting: %w") (Parameters Log unrepresentable (ExpectedItems cfg) (FalsePositiveRate cfg));
      let size := packedCounterBytes m (CounterBits cfg) in
      if MaxCounterBytes <? size then Err (Errorf "bloom/counting: %d bytes above the %d-byte counter budget: %w" ErrFilterTooLarge)
      else Ok (mkFilter (replicate (Z.to_nat size) 0) k m (CounterBits cfg) (Z.shiftl 1 (CounterBits cfg) - 1)
                 (ResolveIndexHash maphash (Hash cfg))).

Definition New (expectedItems : Z) (falsePositiveRate : float64) (counterBits : Z) : res Filter :=
  NewFilter (mkConfig expectedItems falsePositiveRate counterBits None).
End New.

Definition uint8 (v : Z) : Z := v `mod` 256.
Definition setAt (i : Z) (v : Z) (l : list Z) : option (list Z) :=
  l !! Z.to_nat i;; Some (<[Z.to_nat i := v]> l).

(** A counter in its slot ([idx] is a slot, not a byte). *)
Definition counter (bits : Z) (counts : list Z) (idx : Z) : option Z :=
  if bits =? 4 then
    b ← counts !! Z.to_nat (Z.shiftr idx 1);
    Some (if Z.land idx 1 =? 0 then Z.land b 15 else Z.shiftr b 4)
  else if bits =? 8 then counts !! Z.to_nat idx
  else
    let pos := Z.shiftl idx 1 in
    lo ← counts !! Z.to_nat pos;
    hi ← counts !! Z.to_nat (pos + 1);
    Some (Z.lor lo (Z.shiftl hi 8)).

Definition setCounter (bits : Z) (counts : list Z) (idx v : Z) : option (list Z) :=
  if bits =? 4 then
    let pos := Z.shiftr idx 1 in
    b ← counts !! Z.to_nat pos;
    if Z.land idx 1 =? 0 then setAt pos (Z.lor (Z.land b 240) (uint8 v)) counts
    else setAt pos (Z.lor (Z.land b 15) (uint8 (Z.shiftl (uint8 v) 4))) counts
  else if bits =? 8 then setAt idx (uint8 v) counts
  else
    let pos := Z.shiftl idx 1 in
    counts ← setAt pos (uint8 v) counts;
    setAt (pos + 1) (uint8 (Z.shiftr v 8)) counts.

(** [hash(data, i) % m]. *)
Definition probe (f : Filter) (d : Digest) (i : Z) : option Z := if m f =? 0 then None else Some (hash f d i `mod` m f).
Definition withCounts (f : Filter) (c : list Z) : Filter := mkFilter c (k f) (m f) (bits f) (mask f) (hash f).

Definition Add (f : Filter) (d : Digest) : option Filter :=
  if IsZero d then Some f
  else
    c ← loop (probes (k f)) (fun i c =>
      idx ← probe f d i;
      v ← counter (bits f) c idx;
      if v <? mask f then setCounter (bits f) c idx (v + 1) else Some c) (counts f);
    Some (withCounts f c).

Definition Remove (f : Filter) (d : Digest) : option Filter :=
  if IsZero d then Some f
  else
    c ← loop (probes (k f)) (fun i c =>
      idx ← probe f d i;
      v ← counter (bits f) c idx;
      if 0 <? v then setCounter (bits f) c idx (v - 1) else Some c) (counts f);
    Some (withCounts f c).

Fixpoint contains_go (f : Filter) (d : Digest) (ps : list Z) : option bool :=
  match ps with
  | [] => Some true
  | i :: ps =>
    idx ← probe f d i;
    v ← counter (bits f) (counts f) idx;
    if v =? 0 then Some false else contains_go f d ps
  end.
Definition Contains (f : Filter) (d : Digest) : option bool :=
  if IsZero d then Some false else contains_go f d (probes (k f)).

Definition Reset (f : Filter) : Filter := withCounts f ((fun _ => 0) <$> counts f).

(** ** The packing *)
Record packed (m bits mask : Z) (c : list Z) : Prop := {
  pk_bits : bits = 4 \/ bits = 8 \/ bits = 16;
  pk_mask : mask = 2 ^ bits - 1;
  pk_len : blen c = (m * bits + 7) / 8;
  pk_byte : forall i b, c !! i = Some b -> 0 <= b < 256;
}.

(** The bit operations on one byte, by cases on its 256 values. *)
Definition nibbleOps (b v : Z) : bool :=
  (Z.land b 15 =? b `mod` 16) && (Z.shiftr b 4 =? b / 16) &&
  (Z.lor (Z.land b 240) (uint8 v) =? 16 * (b / 16) + v) &&
  (Z.lor (Z.land b 15) (uint8 (Z.shiftl (uint8 v) 4)) =? b `mod` 16 + 16 * v).
Lemma nibble_table : forallb (fun b => forallb (fun v => nibbleOps (Z.of_nat b) (Z.of_nat v)) (seq 0 16)) (seq 0 256) = true.
Proof. vm_compute. reflexivity. Qed.
Lemma nibble_ops b v : 0 <= b < 256 -> 0 <= v < 16 -> nibbleOps b v = true.
Proof.
  intros Hb Hv. pose proof nibble_table as H. rewrite forallb_forall in H.
  specialize (H (Z.to_nat b) ltac:(apply in_seq; lia)). rewrite forallb_forall in H.
  specialize (H (Z.to_nat v) ltac:(apply in_seq; lia)). by rewrite !Z2Nat.id in H by lia.
Qed.
Lemma nibbles b v : 0 <= b < 256 -> 0 <= v < 16 ->
  Z.land b 15 = b `mod` 16 /\ Z.shiftr b 4 = b / 16 /\
  Z.lor (Z.land b 240) (uint8 v) = 16 * (b / 16) + v /\
  Z.lor (Z.land b 15) (uint8 (Z.shiftl (uint8 v) 4)) = b `mod` 16 + 16 * v.
Proof.
  intros Hb Hv. pose proof (nibble_ops b v Hb Hv) as H. unfold nibbleOps in H.
  rewrite !andb_true_iff, !Z.eqb_eq in H. tauto.
Qed.
Lemma le16 lo hi : 0 <= lo < 256 -> 0 <= hi -> Z.lor lo (Z.shiftl hi 8) = lo + 256 * hi.
Proof. intros Hl Hh. rewrite lor_add_shiftl by lia. lia. Qed.
Lemma slot_parity idx : Z.land idx 1 = idx `mod` 2.
Proof. change 1 with (Z.ones 1). by rewrite Z.land_ones. Qed.


Lemma slot_byte m bits mask c idx i : packed m bits mask c -> 0 <= idx < m -> i = idx * bits / 8 \/ (bits = 16 /\ i = idx * 2 + 1) ->
  exists b, c !! Z.to_nat i = Some b /\ 0 <= b < 256.
Proof.
  intros [Hb _ Hl Hr] Hi Hii. destruct (lookup_lt_is_Some_2 c (Z.to_nat i)) as [b E]; [|eauto].
  assert (0 <= i < (m * bits + 7) / 8) by (destruct Hb as [-> |[-> | ->]], Hii as [-> |[? ->]]; zlia). lia.
Qed.

Lemma counter_ok m bits mask c idx : packed m bits mask c -> 0 <= idx < m -> exists v, counter bits c idx = Some v /\ 0 <= v <= mask.
Proof.
  intros Hp Hi. pose proof Hp as [Hb Hm _ _]. unfold counter. destruct Hb as [-> |[-> | ->]]; cbn [Z.eqb Pos.eqb].
  - destruct (slot_byte m 4 mask c idx (idx / 2)) as (b & E & Hr); [done..|left; zlia|]. rewrite Z.shiftr_div_pow2 by done.
    change (2 ^ 1) with 2. rewrite E. cbn. eexists. split; [done|]. destruct (nibbles b 0) as (-> & -> & _); [lia..|].
    rewrite Hm. change (2 ^ 4 - 1) with 15. case_match; zlia.
  - destruct (slot_byte m 8 mask c idx idx) as (b & E & Hr); [done..|left; zlia|]. rewrite E. eexists. split; [done|]. rewrite Hm. lia.
  - rewrite Z.shiftl_mul_pow2 by done. change (2 ^ 1) with 2.
    destruct (slot_byte m 16 mask c idx (idx * 2)) as (lo & -> & Hlo); [done..|left; zlia|].
    destruct (slot_byte m 16 mask c idx (idx * 2 + 1)) as (hi & -> & Hhi); [done..|by right|]. cbn. eexists. split; [done|].
    rewrite le16 by lia. rewrite Hm. change (2 ^ 16 - 1) with 65535. lia.
Qed.

Lemma packed_set m bits mask c i v : packed m bits mask c -> 0 <= v < 256 -> packed m bits mask (<[i := v]> c).
Proof.
  intros [Hb Hm Hl Hr] Hv. split; [done|done|by rewrite length_insert|].
  intros j b. rewrite list_lookup_insert. case_decide; [|apply Hr]. by intros [= <-].
Qed.
Lemma setAt_ok c i v b : c !! Z.to_nat i = Some b -> setAt i v c = Some (<[Z.to_nat i := v]> c).
Proof. unfold setAt. by intros ->. Qed.
Lemma uint8_small v : 0 <= v < 256 -> uint8 v = v.
Proof. apply Z.mod_small. Qed.

(** Writing a slot reads back, and disturbs no other slot. *)
Lemma setCounter_ok m bits mask c idx v : packed m bits mask c -> 0 <= idx < m -> 0 <= v <= mask ->
  exists c', setCounter bits c idx v = Some c' /\ packed m bits mask c' /\
    forall idx', 0 <= idx' < m -> counter bits c' idx' = if decide (idx' = idx) then Some v else counter bits c idx'.
Proof.
  intros Hp Hi Hv. pose proof Hp as [Hb Hm _ _]. rewrite Hm in Hv. unfold setCounter, counter.
  destruct Hb as [-> |[-> | ->]]; cbn [Z.eqb Pos.eqb].
  - change (2 ^ 4 - 1) with 15 in Hv. rewrite Z.shiftr_div_pow2 by done. change (2 ^ 1) with 2.
    destruct (slot_byte m 4 mask c idx (idx / 2)) as (b & E & Hr); [done..|left; zlia|]. rewrite E. cbn [mbind option_bind].
    destruct (nibbles b v) as (_ & _ & -> & ->); [lia..|].
    set (b' := if Z.land idx 1 =? 0 then 16 * (b / 16) + v else b `mod` 16 + 16 * v).
    assert (Hb' : 0 <= b' < 256) by (unfold b'; case_match; zlia).
    exists (<[Z.to_nat (idx / 2) := b']> c). split; [|split].
    + unfold b'. case_match; by rewrite (setAt_ok _ _ _ b).
    + by apply packed_set.
    + intros idx' Hi'. rewrite Z.shiftr_div_pow2 by done. change (2 ^ 1) with 2. rewrite !slot_parity in *.
      destruct (decide (idx' / 2 = idx / 2)) as [Ej|Ej].
      * rewrite Ej, list_lookup_insert_eq, E by (by eapply lookup_lt_Some). cbn [mbind option_bind].
        destruct (nibbles b' 0) as (E1 & E2 & _); [done..|]. destruct (nibbles b 0) as (E3 & E4 & _); [done..|].
        rewrite E1, E2, E3, E4. unfold b'. rewrite slot_parity.
        destruct (Z.eqb_spec (idx `mod` 2) 0), (Z.eqb_spec (idx' `mod` 2) 0), (decide (idx' = idx)); try (exfalso; zlia); f_equal; zlia.
      * rewrite list_lookup_insert_ne by zlia. rewrite decide_False by congruence. done.
  - change (2 ^ 8 - 1) with 255 in Hv. destruct (slot_byte m 8 mask c idx idx) as (b & E & Hr); [done..|left; zlia|].
    rewrite (setAt_ok _ _ _ b), uint8_small by (done || lia). eexists. split; [done|]. split; [apply packed_set; [done|lia]|].
    intros idx' Hi'. destruct (decide (idx' = idx)) as [->|Hne].
    + by rewrite list_lookup_insert_eq by (by eapply lookup_lt_Some).
    + by rewrite list_lookup_insert_ne by lia.
  - change (2 ^ 16 - 1) with 65535 in Hv. rewrite Z.shiftl_mul_pow2 by done. change (2 ^ 1) with 2.
    destruct (slot_byte m 16 mask c idx (idx * 2)) as (lo & E & Hlo); [done..|left; zlia|].
    destruct (slot_byte m 16 mask c idx (idx * 2 + 1)) as (hi & E' & Hhi); [done..|by right|].
    assert (Hlen : (Z.to_nat (idx * 2) < length c)%nat) by (by eapply lookup_lt_Some).
    assert (Hlen' : (Z.to_nat (idx * 2 + 1) < length c)%nat) by (by eapply lookup_lt_Some).
    rewrite (setAt_ok _ _ _ lo) by done. cbn [mbind option_bind].
    rewrite (setAt_ok _ _ _ hi) by (by rewrite list_lookup_insert_ne by lia).
    rewrite Z.shiftr_div_pow2 by done. change (2 ^ 8) with 256. rewrite (uint8_small (v / 256)) by zlia. eexists. split; [done|].
    split; [apply packed_set; [apply packed_set|]; [done|unfold uint8; zlia|zlia]|].
    intros idx' Hi'. rewrite Z.shiftl_mul_pow2 by done. change (2 ^ 1) with 2. destruct (decide (idx' = idx)) as [->|Hne].
    + rewrite (list_lookup_insert_eq (<[_ := _]> c)) by (rewrite length_insert; done).
      rewrite list_lookup_insert_ne, list_lookup_insert_eq by lia. cbn [mbind option_bind].
      rewrite le16 by (unfold uint8; zlia). unfold uint8. f_equal. zlia.
    + by rewrite !list_lookup_insert_ne by lia.
Qed.

(** ** What the operations do to the counters *)
Record wf (f : Filter) : Prop := {
  wf_m : 1 <= m f <= MaxBits;
  wf_k : 1 <= k f;
  wf_counts : packed (m f) (bits f) (mask f) (counts f);
}.

Definition slot (bits : Z) (c : list Z) (idx : Z) : Z := default 0 (counter bits c idx).
Definition pos (f : Filter) (d : Digest) (i : Z) : Z := hash f d i `mod` m f.
(** How often the probes [ps] of a digest hit a slot. *)
Definition hits (f : Filter) (d : Digest) (ps : list Z) (idx : Z) : Z := blen (filter (fun i => pos f d i = idx) ps).
Definition occ (f : Filter) (d : Digest) (idx : Z) : Z := if IsZero d then 0 else hits f d (probes (k f)) idx.
(** The count a slot would have without a limit, after adding each of [l]. *)
Definition load (f : Filter) (l : list Digest) (idx : Z) : Z := foldr (fun d acc => occ f d idx + acc) 0 l.

Lemma slot_ok m bits mask c idx : packed m bits mask c -> 0 <= idx < m ->
  counter bits c idx = Some (slot bits c idx) /\ 0 <= slot bits c idx <= mask.
Proof. intros Hp Hi. destruct (counter_ok m bits mask c idx Hp Hi) as (v & E & Hv). unfold slot. by rewrite E. Qed.
Lemma set_slot m bits mask c idx v : packed m bits mask c -> 0 <= idx < m -> 0 <= v <= mask ->
  exists c', setCounter bits c idx v = Some c' /\ packed m bits mask c' /\
    forall idx', 0 <= idx' < m -> slot bits c' idx' = if decide (idx' = idx) then v else slot bits c idx'.
Proof.
  intros Hp Hi Hv. destruct (setCounter_ok m bits mask c idx v Hp Hi Hv) as (c' & E & Hp' & Hs).
  exists c'. split_and!; [done..|]. intros idx' Hi'. unfold slot. rewrite Hs by done. by destruct (decide _).
Qed.
Lemma hits_snoc f d ps i idx : hits f d (ps ++ [i]) idx = hits f d ps idx + (if decide (pos f d i = idx) then 1 else 0).
Proof. unfold hits. rewrite list.filter_app, length_app, list.filter_cons. destruct (decide _); cbn [length]; cbn; lia. Qed.
Lemma hits_nonneg f d ps idx : 0 <= hits f d ps idx.
Proof. unfold hits. lia. Qed.
Lemma occ_nonneg f d idx : 0 <= occ f d idx.
Proof. unfold occ. destruct (IsZero d); [done|apply hits_nonneg]. Qed.

Section WF.
Context (f : Filter) (Hf : wf f).

Lemma slotProbe_ok d i : probe f d i = Some (pos f d i).
Proof. unfold probe, pos. destruct Hf. destruct (Z.eqb_spec (m f) 0); [lia|done]. Qed.
Lemma slotPos_range d i : 0 <= pos f d i < m f.
Proof. apply Z.mod_pos_bound. destruct Hf. lia. Qed.
Lemma occ_pos d idx : 0 < occ f d idx <-> d <> [] /\ exists i, 0 <= i < k f /\ pos f d i = idx.
Proof.
  unfold occ, IsZero. destruct d as [|b d0]; cbn [length Nat.eqb]; [naive_solver lia|]. set (d := b :: d0). unfold hits. split.
  - intros H. split; [done|]. destruct (filter _ (probes (k f))) as [|i l] eqn:E; [done|].
    assert (Hin : i ∈ filter (fun i => pos f d i = idx) (probes (k f))) by (rewrite E; left).
    apply list_elem_of_filter in Hin as [? ?%elem_of_probes]. eauto.
  - intros (_ & i & Hi & Hp). destruct (filter _ (probes (k f))) as [|j l] eqn:E; [|cbn; lia]. exfalso.
    assert (Hin : i ∈ filter (fun i => pos f d i = idx) (probes (k f))) by (apply list_elem_of_filter; split; [done|by apply elem_of_probes]).
    rewrite E in Hin. by apply elem_of_nil in Hin.
Qed.

(** One pass over the probes, with the counters moved by [step]. *)
Lemma pass_ok (body : Z -> list Z -> option (list Z)) (step : Z -> Z -> Z) (ps : list Z) d :
  (forall v, 0 <= v <= mask f -> step v 0 = v) ->
  (forall v n, 0 <= v <= mask f -> 0 <= n -> 0 <= step v n <= mask f) ->
  (forall i c, packed (m f) (bits f) (mask f) c -> exists c', body i c = Some c' /\ packed (m f) (bits f) (mask f) c' /\
     forall idx, 0 <= idx < m f -> slot (bits f) c' idx = if decide (idx = pos f d i) then step (slot (bits f) c idx) 1 else slot (bits f) c idx) ->
  (forall v n, 0 <= v <= mask f -> 0 <= n -> step (step v n) 1 = step v (n + 1)) ->
  exists c', loop ps body (counts f) = Some c' /\ packed (m f) (bits f) (mask f) c' /\
    forall idx, 0 <= idx < m f -> slot (bits f) c' idx = step (slot (bits f) (counts f) idx) (hits f d ps idx).
Proof.
  intros H0 Hr Hb Hs. pose proof (wf_counts f Hf) as Hp0.
  apply (loop_inv (fun dn c => packed (m f) (bits f) (mask f) c /\
    forall idx, 0 <= idx < m f -> slot (bits f) c idx = step (slot (bits f) (counts f) idx) (hits f d dn idx)) ps []).
  - intros dn i c _ [Hp Hc]. destruct (Hb i c Hp) as (c' & E & Hp' & Hc'). exists c'. split_and!; [done..|].
    intros idx Hi. destruct (slot_ok _ _ _ _ _ Hp0 Hi) as [_ Hv]. rewrite Hc', Hc, hits_snoc by done.
    pose proof (hits_nonneg f d dn idx). destruct (decide (idx = pos f d i)) as [E'|E'].
    + rewrite decide_True by done. by apply Hs.
    + rewrite decide_False by done. by rewrite Z.add_0_r.
  - split; [done|]. intros idx Hi. destruct (slot_ok _ _ _ _ _ Hp0 Hi) as [_ Hv]. unfold hits. by rewrite H0.
Qed.

Lemma counting_Add_ok d : exists c, Add f d = Some (withCounts f c) /\ wf (withCounts f c) /\
  forall idx, 0 <= idx < m f -> slot (bits f) c idx = Z.min (mask f) (slot (bits f) (counts f) idx + occ f d idx).
Proof.
  unfold Add, occ. destruct (IsZero d).
  { exists (counts f). split; [by destruct f|]. split; [by destruct f, Hf|]. intros idx Hi.
    destruct (slot_ok _ _ _ _ _ (wf_counts f Hf) Hi). lia. }
  destruct (pass_ok (fun i c => idx ← probe f d i; v ← counter (bits f) c idx;
    if v <? mask f then setCounter (bits f) c idx (v + 1) else Some c) (fun v n => Z.min (mask f) (v + n)) (probes (k f)) d) as (c' & E & Hp & Hc).
  - lia.
  - lia.
  - intros i c Hp. rewrite slotProbe_ok. cbn [mbind option_bind]. destruct (slot_ok _ _ _ _ _ Hp (slotPos_range d i)) as [-> Hv].
    cbn [mbind option_bind]. destruct (Z.ltb_spec (slot (bits f) c (pos f d i)) (mask f)).
    + destruct (set_slot _ _ _ c (pos f d i) (slot (bits f) c (pos f d i) + 1) Hp (slotPos_range d i)) as (c' & E & Hp' & Hc); [lia|].
      exists c'. split_and!; [done..|]. intros idx Hi. rewrite Hc by done. destruct (decide _) as [->|]; lia.
    + exists c. split_and!; [done..|]. intros idx Hi. destruct (decide _) as [->|]; lia.
  - lia.
  - rewrite E. exists c'. split; [done|]. split; [destruct Hf; by split|]. done.
Qed.

Lemma counting_Remove_ok d : exists c, Remove f d = Some (withCounts f c) /\ wf (withCounts f c) /\
  forall idx, 0 <= idx < m f -> slot (bits f) c idx = Z.max 0 (slot (bits f) (counts f) idx - occ f d idx).
Proof.
  unfold Remove, occ. destruct (IsZero d).
  { exists (counts f). split; [by destruct f|]. split; [by destruct f, Hf|]. intros idx Hi.
    destruct (slot_ok _ _ _ _ _ (wf_counts f Hf) Hi). lia. }
  destruct (pass_ok (fun i c => idx ← probe f d i; v ← counter (bits f) c idx;
    if 0 <? v then setCounter (bits f) c idx (v - 1) else Some c) (fun v n => Z.max 0 (v - n)) (probes (k f)) d) as (c' & E & Hp & Hc).
  - lia.
  - lia.
  - intros i c Hp. rewrite slotProbe_ok. cbn [mbind option_bind]. destruct (slot_ok _ _ _ _ _ Hp (slotPos_range d i)) as [-> Hv].
    cbn [mbind option_bind]. destruct (Z.ltb_spec 0 (slot (bits f) c (pos f d i))).
    + destruct (set_slot _ _ _ c (pos f d i) (slot (bits f) c (pos f d i) - 1) Hp (slotPos_range d i)) as (c' & E & Hp' & Hc); [lia|].
      exists c'. split_and!; [done..|]. intros idx Hi. rewrite Hc by done. destruct (decide _) as [->|]; lia.
    + exists c. split_and!; [done..|]. intros idx Hi. destruct (decide _) as [->|]; lia.
  - lia.
  - rewrite E. exists c'. split; [done|]. split; [destruct Hf; by split|]. done.
Qed.

Lemma counting_Contains_ok d : exists b, Contains f d = Some b /\
  (b = true <-> d <> [] /\ forall i, 0 <= i < k f -> 0 < slot (bits f) (counts f) (pos f d i)).
Proof.
  unfold Contains, IsZero. destruct d as [|b0 d0]; cbn [length Nat.eqb]; [exists false; naive_solver|]. set (d := b0 :: d0).
  assert (H : forall ps, exists b, contains_go f d ps = Some b /\
    (b = true <-> forall i, i ∈ ps -> 0 < slot (bits f) (counts f) (pos f d i))).
  { induction ps as [|i ps IH]; cbn [contains_go]; [exists true; split; [done|]; split; [by intros _ i ?%elem_of_nil|done]|].
    rewrite slotProbe_ok. cbn [mbind option_bind]. destruct (slot_ok _ _ _ _ _ (wf_counts f Hf) (slotPos_range d i)) as [-> Hv].
    cbn [mbind option_bind]. setoid_rewrite elem_of_cons. destruct (Z.eqb_spec (slot (bits f) (counts f) (pos f d i)) 0) as [E0|E0].
    - exists false. split; [done|]. split; [done|]. intros Hall. specialize (Hall i (or_introl eq_refl)). lia.
    - destruct IH as (b & E & Hb). exists b. split; [done|]. rewrite Hb. split; [|naive_solver].
      intros Hall j [->|Hj]; [lia|by apply Hall]. }
  destruct (H (probes (k f))) as (b & E & Hb). exists b. split; [done|]. rewrite Hb. setoid_rewrite elem_of_probes. naive_solver.
Qed.
End WF.

Lemma counting_New_wf Log unrep maphash cfg f :
  NewFilter Log unrep maphash cfg = Ok f ->
  wf f /\ blen (counts f) <= MaxCounterBytes /\ forall idx, 0 <= idx < m f -> slot (bits f) (counts f) idx = 0.
Proof.
  unfold NewFilter. destruct (ExpectedItems cfg =? 0); [done|]. unfold mbind, res_bind. destruct (ValidateFalsePositiveRate _); [|done].
  destruct (negb _ && negb _ && negb _) eqn:Eb; [done|].
  assert (Hb : CounterBits cfg = 4 \/ CounterBits cfg = 8 \/ CounterBits cfg = 16).
  { rewrite !andb_false_iff, !negb_false_iff, !Z.eqb_eq in Eb. tauto. }
  destruct (Parameters Log unrep _ _) as [[m0 k0]|] eqn:EP; [|done]. cbn [wrapErr].
  destruct (MaxCounterBytes <? _) eqn:Esz; [done|]. intros [= <-]. apply Parameters_range in EP as [Hm Hk].
  assert (Hsz : packedCounterBytes m0 (CounterBits cfg) = (m0 * CounterBits cfg + 7) / 8).
  { unfold packedCounterBytes. unfold MaxBits in Hm. rewrite (wrap64_id (m0 * _)), wrap64_id by lia. done. }
  assert (Hpos : 0 <= (m0 * CounterBits cfg + 7) / 8) by (apply Z.div_pos; lia).
  assert (Hz : forall n (j : nat) b, (replicate n 0 : list Z) !! j = Some b -> b = 0) by (intros n j b [-> _]%lookup_replicate; done).
  assert (Hw : packed m0 (CounterBits cfg) (Z.shiftl 1 (CounterBits cfg) - 1) (replicate (Z.to_nat (packedCounterBytes m0 (CounterBits cfg))) 0)).
  { split; [done|by destruct Hb as [-> |[-> | ->]]|rewrite length_replicate, Hsz; lia|]. by intros i b ->%Hz. }
  split; [by split|]. cbn [counts bits m]. split; [rewrite length_replicate, Hsz in *; lia|].
  intros idx Hi. pose proof (slot_ok _ _ _ _ _ Hw Hi) as [Hc _]. unfold counter in Hc. revert Hc.
  destruct (CounterBits cfg =? 4); [|destruct (CounterBits cfg =? 8)].
  - destruct (_ !! _) as [w|] eqn:Ew; [|done]. apply Hz in Ew as ->. cbn. intros [= <-]. by case_match.
  - destruct (_ !! _) as [w|] eqn:Ew; [|done]. apply Hz in Ew as ->. by intros [= <-].
  - cbv zeta. destruct (_ !! Z.to_nat (Z.shiftl idx 1)) as [w|] eqn:Ew; [|done]. apply Hz in Ew as ->. cbn [mbind option_bind].
    destruct (_ !! Z.to_nat (_ + 1)) as [w|] eqn:Ew; [|done]. apply Hz in Ew as ->. cbn. by intros [= <-].
Qed.

(** What the filter went through: digests added, and each removal of one that was
    in; no slot was ever asked to count beyond its width. *)
Inductive history (f0 : Filter) : list Digest -> Filter -> Prop :=
  | history_new : history f0 [] f0
  | history_add l f d f' :
      history f0 l f -> (forall idx, 0 <= idx < m f0 -> load f0 (d :: l) idx <= mask f0) ->
      Add f d = Some f' -> history f0 (d :: l) f'
  | history_remove l1 d l2 f f' :
      history f0 (l1 ++ d :: l2) f -> Remove f d = Some f' -> history f0 (l1 ++ l2) f'.

Lemma load_app f l1 l2 idx : load f (l1 ++ l2) idx = load f l1 idx + load f l2 idx.
Proof. unfold load. induction l1 as [|d l1 IH]; cbn [foldr app]; lia. Qed.
Lemma load_Permutation f l l' idx : Permutation l l' -> load f l idx = load f l' idx.
Proof. unfold load. induction 1; cbn [foldr]; lia. Qed.
Lemma load_nonneg f l idx : 0 <= load f l idx.
Proof. unfold load. induction l as [|d l IH]; cbn [foldr]; [done|]. pose proof (occ_nonneg f d idx). lia. Qed.
Lemma load_pos f l idx : 0 < load f l idx <-> exists d, d ∈ l /\ 0 < occ f d idx.
Proof.
  unfold load. induction l as [|d l IH]; cbn [foldr]; [split; [done|by intros (d & ?%elem_of_nil & _)]|].
  pose proof (occ_nonneg f d idx). pose proof (load_nonneg f l idx) as Hl. unfold load in Hl. setoid_rewrite elem_of_cons. split.
  - intros Hs. destruct (decide (0 < occ f d idx)); [eauto|].
    assert (H1 : 0 < foldr (fun d acc => occ f d idx + acc) 0 l) by lia. apply IH in H1 as (d' & ? & ?). eauto.
  - intros (d' & [->|Hd] & Ho); [lia|]. assert (0 < foldr (fun d acc => occ f d idx + acc) 0 l); [apply IH; eauto|lia].
Qed.

(** Without saturation the counters count. *)
Lemma history_exact f0 l f : wf f0 -> (forall idx, 0 <= idx < m f0 -> slot (bits f0) (counts f0) idx = 0) -> history f0 l f ->
  wf f /\ f = withCounts f0 (counts f) /\ forall idx, 0 <= idx < m f0 -> slot (bits f0) (counts f) idx = load f0 l idx.
Proof.
  intros Hw0 Hz. induction 1 as [|l f d f' Hh (Hw & Ef & Hs) Hl Ha|l1 d l2 f f' Hh (Hw & Ef & Hs) Hr].
  - split_and!; [done|by destruct f0|done].
  - destruct (counting_Add_ok f Hw d) as (c & E & Hw' & Hc). rewrite E in Ha. injection Ha as <-.
    split; [done|]. rewrite Ef in *. split; [done|]. intros idx Hi. cbn [withCounts bits counts mask m] in *.
    rewrite Hc, Hs by done. specialize (Hl idx Hi). cbn [load foldr] in *. fold (load f0 l idx) in *.
    change (occ (withCounts f0 (counts f)) d idx) with (occ f0 d idx). lia.
  - destruct (counting_Remove_ok f Hw d) as (c & E & Hw' & Hc). rewrite E in Hr. injection Hr as <-.
    split; [done|]. rewrite Ef in *. split; [done|]. intros idx Hi. cbn [withCounts bits counts mask m] in *.
    rewrite Hc, Hs, !load_app by done. change (occ (withCounts f0 (counts f)) d idx) with (occ f0 d idx).
    cbn [load foldr]. fold (load f0 l2 idx). pose proof (load_nonneg f0 l1 idx). pose proof (load_nonneg f0 l2 idx). lia.
Qed.

(** C31. The counting filter counts.  From a filter the constructor returned, in
    any history that removes only digests that are in and never asks a counter
    beyond its width, the packed counters are exactly how often the digests
    present hit each slot: so membership is answered exactly up to collisions,
    no digest that is in is ever reported absent, and adding or removing never
    panics. *)
Theorem counting_filter_spec (Log : float64 -> float64) (unrepresentable : Z) (maphash : bytes -> Z) (cfg : Config) (f0 f : Filter)
    (l : list Digest) :
  NewFilter Log unrepresentable maphash cfg = Ok f0 -> history f0 l f ->
  (forall idx, 0 <= idx < m f0 -> counter (bits f0) (counts f) idx = Some (load f0 l idx)) /\
  (forall d, exists b, Contains f d = Some b /\
     (b = true <-> d <> [] /\ forall i, 0 <= i < k f0 -> exists d', d' ∈ l /\ d' <> [] /\ exists j, 0 <= j < k f0 /\ pos f0 d' j = pos f0 d i)) /\
  (forall d, d ∈ l -> d <> [] -> Contains f d = Some true) /\
  (forall d, is_Some (Add f d) /\ is_Some (Remove f d)) /\ blen (counts f) <= MaxCounterBytes.
Proof.
  intros HN Hh. apply counting_New_wf in HN as (Hw0 & Hlen & Hz). destruct (history_exact f0 l f Hw0 Hz Hh) as (Hw & Ef & Hs).
  assert (Hcounts : packed (m f0) (bits f0) (mask f0) (counts f)) by (pose proof (wf_counts f Hw) as H; by rewrite Ef in H).
  assert (HC : forall d, exists b, Contains f d = Some b /\
     (b = true <-> d <> [] /\ forall i, 0 <= i < k f0 -> exists d', d' ∈ l /\ d' <> [] /\ exists j, 0 <= j < k f0 /\ pos f0 d' j = pos f0 d i)).
  { intros d. destruct (counting_Contains_ok f Hw d) as (b & E & Hb). exists b. split; [done|]. rewrite Hb, Ef. cbn [withCounts k bits counts].
    change (pos (withCounts f0 (counts f))) with (pos f0). apply and_iff_compat_l. apply forall_proper. intros i.
    apply forall_proper. intros Hi. rewrite Hs, load_pos by (by apply slotPos_range). setoid_rewrite (occ_pos f0). done. }
  split_and!.
  - intros idx Hi. destruct (slot_ok _ _ _ _ _ Hcounts Hi) as [-> _]. by rewrite Hs.
  - done.
  - intros d Hd Hne. destruct (HC d) as (b & -> & Hb). f_equal. apply Hb. split; [done|]. intros i Hi. exists d. eauto.
  - intros d. destruct (counting_Add_ok f Hw d) as (? & -> & _), (counting_Remove_ok f Hw d) as (? & -> & _). eauto.
  - destruct Hcounts as [_ _ -> _]. by destruct (wf_counts f0 Hw0) as [_ _ <- _].
Qed.

(** Every digest in slot 0. *)
Definition oneSlot : IndexHash := fun _ _ => 0.
Definition sampleLog : float64 -> float64 := fun f => if SFltb f f64_one then SFopp f64_half else f64_one.
Definition sampleConfig : Config := mkConfig 20 f64_half 4 (Some oneSlot).
Definition sampleFilter : Filter := mkFilter [0; 0; 0; 0; 0] 1 10 4 15 oneSlot.
Lemma counting_sample_New : NewFilter sampleLog 0 (fun _ => 0) sampleConfig = Ok sampleFilter.
Proof. vm_compute. reflexivity. Qed.
Lemma sample_load l idx : load sampleFilter l idx <= blen l.
Proof.
  unfold load. induction l as [|d l IH]; [done|]. cbn [foldr length]. unfold occ at 1, hits.
  pose proof (list.length_filter (fun i => pos sampleFilter d i = idx) (probes (k sampleFilter))) as Hf.
  change (length (probes (k sampleFilter))) with 1%nat in Hf. destruct (IsZero d); lia.
Qed.
Lemma sample_history : history sampleFilter [[x07]] (withCounts sampleFilter [1; 0; 0; 0; 0]).
Proof.
  eapply (history_remove _ [[x07]] [x05] [] (withCounts sampleFilter [2; 0; 0; 0; 0])); [|vm_compute; reflexivity].
  eapply (history_add _ [[x05]] (withCounts sampleFilter [1; 0; 0; 0; 0])); [|intros idx _; pose proof (sample_load [[x07]; [x05]] idx); cbn in *; lia|vm_compute; reflexivity].
  eapply (history_add _ [] sampleFilter); [constructor|intros idx _; pose proof (sample_load [[x05]] idx); cbn in *; lia|vm_compute; reflexivity].
Qed.
Example counting_filter_spec_witness :
  NewFilter sampleLog 0 (fun _ => 0) sampleConfig = Ok sampleFilter /\
  Contains (withCounts sampleFilter [1; 0; 0; 0; 0]) [x07] = Some true.
Proof.
  split; [exact counting_sample_New|].
  destruct (counting_filter_spec sampleLog 0 (fun _ => 0) sampleConfig sampleFilter _ _ counting_sample_New sample_history) as (_ & _ & H & _).
  apply H; [left|done].
Defined.
End Counting.
