(* ===== verification/BloomGuard.v ===== *)
(** The Bloom guard (src/cas/bloom/guard.go): a backend behind an advisory
    membership filter, over the interface the filters offer. *)

From Stdlib Require Import SpecFloat.
From stdpp Require Import gmultiset.
From S2P Require Import Prelude Digest Binary Stream Backend MemBackend FileSystem AtomicFile FsBackend FsContract FsMaintenance.
From S2P Require Import Float64 Bloom BloomStandard BloomCounting.

(** [bloom.Filter], with the optional [removerFilter]. *)
Record FilterOps (F : Type) := mkFilterOps {
  fl_Add : F -> Digest -> F;
  fl_Contains : F -> Digest -> bool;
  fl_Remove : option (F -> Digest -> F);
}.
Arguments mkFilterOps {F}. Arguments fl_Add {F}. Arguments fl_Contains {F}. Arguments fl_Remove {F}.

(** What a filter promises.  [holds m f] says that [f] accounts for the digests
    of [m], each as often as it is in there; a digest may be added where the
    filter has [room] for it, and removed once per time it was added.  Nothing it
    accounts for is reported absent. *)
Class FilterSpec {F} (ops : FilterOps F) (holds : gmultiset Digest -> F -> Prop) (room : gmultiset Digest -> Digest -> Prop) : Prop := {
  fs_Add : forall m f d, holds m f -> room m d -> holds (m ⊎ {[+ d +]}) (fl_Add ops f d);
  fs_Remove : forall m f d remove, fl_Remove ops = Some remove -> holds m f -> d ∈ m -> holds (m ∖ {[+ d +]}) (remove f d);
  fs_Contains : forall m f d, holds m f -> d ∈ m -> d <> [] -> fl_Contains ops f d = true;
}.

Module Guard.
Section Guard.
Context {S F : Type}.
Variable backend : Backend S.
Variable filter : FilterOps F.

Definition Put (d : Digest) (r : Reader) : M (S * F) unit :=
  onFst (bk_Put backend d r);;
  onSnd (modify (fun f => fl_Add filter f d)).
Definition Get (d : Digest) : M (S * F) ReadCloser := onFst (bk_Get backend d).
Definition Exists (d : Digest) : M (S * F) bool :=
  lift (CheckDigest d "bloom: exists");;
  contained ← onSnd (gets (fun f => fl_Contains filter f d));
  if negb contained then mret false else onFst (bk_Exists backend d).
Definition Delete (d : Digest) : M (S * F) unit :=
  onFst (bk_Delete backend d);;
  match fl_Remove filter with
  | Some remove => onSnd (modify (fun f => remove f d))
  | None => mret tt
  end.
Definition List : M (S * F) (list Digest) := onFst (bk_List backend).
Definition Stats : M (S * F) Stats := onFst (bk_Stats backend).

Definition guard : Backend (S * F) := mkBackend Put Get Exists Delete List Stats None None None.
End Guard.

Definition NewGuard {S F} (backend : option (Backend S)) (filter : option (FilterOps F)) : res (Backend (S * F)) :=
  match backend, filter with
  | None, _ => Err (Prelude.New "bloom: backend is nil")
  | _, None => Err (Prelude.New "bloom: filter is nil")
  | Some backend, Some filter => Ok (guard backend filter)
  end.

(** ** Histories of a guarded backend

    What the calls made so far tell of the store: the digests the filter accounts
    for, and those it may not know of because the store had them before or a Put
    of them failed, which may have published. *)
Record ledger := mkLedger { recorded : gmultiset Digest; doubted : gset Digest }.

Section History.
Context {S F : Type} (B : Backend S) (inv quiet : S -> Prop) (key : Digest -> Prop) (abs : S -> gmap Digest bytes).
Context (HB : BackendSpec B inv quiet key abs).
Context (filter : FilterOps F) (holds : gmultiset Digest -> F -> Prop) (room : gmultiset Digest -> Digest -> Prop).
Context (HF : FilterSpec filter holds room).
Abbreviation G := (guard B filter).
Implicit Types (l : ledger) (st : S * F).

Definition afterPut l (d : Digest) (res : res unit) : ledger :=
  match res with
  | Ok _ => mkLedger (recorded l ⊎ {[+ d +]}) (doubted l ∖ {[ d ]})
  | Err _ => mkLedger (recorded l) ({[ d ]} ∪ doubted l)
  end.
Definition afterDelete l (d : Digest) (res : res unit) : ledger :=
  match res with
  | Ok _ => mkLedger (match fl_Remove filter with Some _ => recorded l ∖ {[+ d +]} | None => recorded l end) (doubted l ∖ {[ d ]})
  | Err _ => l
  end.

(** The calls through the guard, under any context and with any outcome, and
    what others do to the backend meanwhile, as long as they add no object.  A
    filter is not asked for more than it has room for, and one that removes only
    forgets digests it was told of. *)
Inductive history : ledger -> S * F -> Prop :=
  | history_new s f known :
      inv s -> holds ∅ f -> (forall d, is_Some (abs s !! d) -> d ∈ known) -> history (mkLedger ∅ known) (s, f)
  | history_Put l st d r c res c' st' :
      history l st -> room (recorded l) d -> bk_Put G d r c st = (res, c', st') -> history (afterPut l d res) st'
  | history_Delete l st d c res c' st' :
      history l st -> (res = Ok tt -> is_Some (fl_Remove filter) -> d ∈ recorded l) ->
      bk_Delete G d c st = (res, c', st') -> history (afterDelete l d res) st'
  | history_Get l st d c res c' st' : history l st -> bk_Get G d c st = (res, c', st') -> history l st'
  | history_Exists l st d c res c' st' : history l st -> bk_Exists G d c st = (res, c', st') -> history l st'
  | history_List l st c res c' st' : history l st -> bk_List G c st = (res, c', st') -> history l st'
  | history_elsewhere l s f s' :
      history l (s, f) -> inv s' -> (forall d, is_Some (abs s' !! d) -> is_Some (abs s !! d)) -> history l (s', f).

(** The filter accounts for every stored digest that is not in doubt. *)
Record sound l st : Prop := {
  so_inv : inv st.1;
  so_filter : holds (recorded l) st.2;
  so_stored : forall d, is_Some (abs st.1 !! d) -> d ∈ recorded l \/ d ∈ doubted l;
}.

Lemma sound_fewer l st st' : sound l st -> inv st'.1 -> (forall d, is_Some (abs st'.1 !! d) -> is_Some (abs st.1 !! d)) ->
  st'.2 = st.2 -> sound l st'.
Proof. intros [Hi Hh Hs] Hi' Ha Hf. split; [done|by rewrite Hf|auto]. Qed.
Lemma sound_same l st st' : sound l st -> inv st'.1 -> abs st'.1 = abs st.1 -> st'.2 = st.2 -> sound l st'.
Proof. intros Hs Hi Ha Hf. eapply sound_fewer; [done..| |done]. by rewrite Ha. Qed.

(** A Put or Delete is the backend's, and then the filter's when it succeeded. *)
Lemma guardPut_inv d r c st res c' st' : bk_Put G d r c st = (res, c', st') ->
  bk_Put B d r c st.1 = (res, c', st'.1) /\ st'.2 = match res with Ok _ => fl_Add filter st.2 d | Err _ => st.2 end.
Proof.
  intros H. cbn in H. unfold Put in H. mstep H as E with u c1 s1; apply onFst_inv in E as [E Ef]; [|done].
  unfold onSnd, modify in H. simplify_eq. cbn [fst snd]. rewrite Ef. by destruct u.
Qed.
Lemma guardDelete_inv d c st res c' st' : bk_Delete G d c st = (res, c', st') ->
  bk_Delete B d c st.1 = (res, c', st'.1) /\
  st'.2 = match res, fl_Remove filter with Ok _, Some remove => remove st.2 d | _, _ => st.2 end.
Proof.
  intros H. cbn in H. unfold Delete in H. mstep H as E with u c1 s1; apply onFst_inv in E as [E Ef]; [|done].
  destruct u. destruct (fl_Remove filter) as [remove|]; [unfold onSnd, modify in H|munfold]; simplify_eq; cbn [fst snd]; by rewrite Ef.
Qed.
Lemma guardExists_inv d c st res c' st' : bk_Exists G d c st = (res, c', st') ->
  st'.2 = st.2 /\
  ((d = [] /\ st' = st /\ exists e, res = Err e) \/
   (d <> [] /\ fl_Contains filter st.2 d = false /\ st' = st /\ res = Ok false) \/
   (d <> [] /\ fl_Contains filter st.2 d = true /\ bk_Exists B d c st.1 = (res, c', st'.1))).
Proof.
  intros H. cbn in H. unfold Exists in H. mstep H as E with u c1 s1; apply lift_inv in E as (Hd & -> & ->); symmetry in Hd.
  2:{ split; [done|]. left. split_and!; [|done|eauto]. destruct d; [done|]. by rewrite CheckDigest_ok in Hd. }
  apply CheckDigest_ok_inv in Hd. mstep H as E with b c2 s2; unfold onSnd, gets in E; simplify_eq.
  assert (Es : (st.1, st.2) = st) by (by destruct st). rewrite Es in *. destruct (fl_Contains filter st.2 d) eqn:Ec; cbn [negb] in H.
  - apply onFst_inv in H as [E Ef]. split; [done|]. by right; right.
  - munfold. simplify_eq. split; [done|]. by right; left.
Qed.

Lemma sound_Put l d r c st res c' st' : sound l st -> room (recorded l) d -> bk_Put G d r c st = (res, c', st') -> sound (afterPut l d res) st'.
Proof.
  intros [Hi Hh Hs] Hr H. apply guardPut_inv in H as [E Ef]. pose proof (bs_Put _ _ _ _ _ _ _ Hi E) as (Hi' & _ & Hp).
  destruct res as [u|e]; (split; cbn; [done|rewrite Ef|]).
  - by apply fs_Add.
  - destruct Hp as (_ & _ & Hp). intros d' Hd'. destruct (decide (d' = d)) as [->|Hne]; [left; multiset_solver|].
    assert (Hd : is_Some (abs st.1 !! d')).
    { destruct Hp as [Hp|[_ Hp]]; rewrite Hp in Hd'; [by rewrite lookup_insert_ne in Hd'|done]. }
    destruct (Hs d' Hd); [left; multiset_solver|right; set_solver].
  - done.
  - intros d' Hd'. destruct (decide (d' = d)) as [->|Hne]; [right; set_solver|].
    assert (Hd : is_Some (abs st.1 !! d')).
    { destruct Hp as [Hp|(_ & [Hp|[_ Hp]])]; rewrite Hp in Hd'; [done|by rewrite lookup_insert_ne in Hd'|done]. }
    destruct (Hs d' Hd); [by left|right; set_solver].
Qed.
Lemma sound_Delete l d c st res c' st' : sound l st -> (res = Ok tt -> is_Some (fl_Remove filter) -> d ∈ recorded l) ->
  bk_Delete G d c st = (res, c', st') -> sound (afterDelete l d res) st'.
Proof.
  intros [Hi Hh Hs] Hin H. apply guardDelete_inv in H as [E Ef]. pose proof (bs_Delete _ _ _ _ _ _ Hi E) as (Hi' & _ & Hp).
  destruct res as [[]|e]; (split; cbn; [done|rewrite Ef|]).
  - destruct (fl_Remove filter) as [remove|] eqn:Er; [|done]. by eapply fs_Remove; eauto.
  - destruct Hp as [_ Hp]. intros d' Hd'. rewrite Hp in Hd'. apply lookup_delete_is_Some in Hd' as [Hne Hd'].
    destruct (Hs d' Hd'); [left|right; set_solver]. destruct (fl_Remove filter); [multiset_solver|done].
  - done.
  - intros d' Hd'. apply Hs. destruct Hp as [Hp|Hp]; rewrite Hp in Hd'; [done|]. by apply lookup_delete_is_Some in Hd' as [_ ?].
Qed.
Lemma sound_Exists l d c st res c' st' : sound l st -> bk_Exists G d c st = (res, c', st') ->
  sound l st' /\ abs st'.1 = abs st.1 /\
  match res with
  | Ok true => is_Some (abs st.1 !! d)
  | Ok false => abs st.1 !! d = None \/ (d ∈ doubted l /\ d ∉ recorded l)
  | Err e => errIs e ErrInvalidDigest = true -> ~ key d
  end.
Proof.
  intros Hso H. pose proof Hso as [Hi Hh Hs].
  apply guardExists_inv in H as (Ef & [(-> & -> & e & ->)|[(Hd & Hc & -> & ->)|(Hd & Hc & E)]]).
  - split_and!; [done..|]. intros _ Hk. by apply (bs_key_nonzero (BackendSpec := HB)) in Hk.
  - split_and!; [done..|]. assert (Hn : d ∉ recorded l) by (intros Hm; by rewrite (fs_Contains (FilterSpec := HF) _ _ _ Hh Hm Hd) in Hc).
    destruct (abs st.1 !! d) as [x|] eqn:Ex; [right|by left]. destruct (Hs d); [by eexists|done|done].
  - pose proof (bs_Exists _ _ _ _ _ _ Hi E) as (Hi' & _ & Ha & Hr). split_and!; [by eapply sound_same|done|].
    destruct res as [b|e]; [|done]. destruct Hr as [_ ->]. case_bool_decide as Hb; [done|]. left. by apply eq_None_not_Some.
Qed.

Lemma history_sound l st : history l st -> sound l st.
Proof.
  induction 1 as [s f known Hi Hh Hk|l st d r c res c' st' _ IH Hr E|l st d c res c' st' _ IH Hr E|l st d c res c' st' _ IH E
    |l st d c res c' st' _ IH E|l st c res c' st' _ IH E|l s f s' _ IH Hi' Hd].
  - split; [done..|]. intros d Hd. right. by apply Hk.
  - by eapply sound_Put.
  - by eapply sound_Delete.
  - apply onFst_inv in E as [E Ef]. pose proof (bs_Get _ _ _ _ _ _ (so_inv _ _ IH) E) as (? & _ & ? & _). by eapply sound_same.
  - by apply (sound_Exists _ _ _ _ _ _ _ IH) in E as [? _].
  - apply onFst_inv in E as [E Ef]. pose proof (bs_List _ _ _ _ _ (so_inv _ _ IH) E) as (? & _ & ? & _). by eapply sound_same.
  - by eapply (sound_fewer _ (s, f)).
Qed.

Lemma guardExists_total l d st : sound l st -> quiet st.1 -> key d -> exists b st', bk_Exists G d [] st = (Ok b, [], st').
Proof.
  intros [Hi Hh Hs] Hq Hk. cbn. unfold Exists. erewrite bind_ok by (unfold lift; rewrite CheckDigest_ok; [done|by apply HB]).
  unfold onSnd, gets. unfold mbind at 1, M_bind. destruct (fl_Contains filter st.2 d); cbn [negb]; [|munfold; eauto].
  destruct (bs_Exists_total d st.1 Hi Hq Hk) as (b & s' & E). exists b, (s', st.2). unfold onFst. cbn [fst snd]. by rewrite E.
Qed.

End History.

(** ** The filters behind the interface *)
Definition standardOps : FilterOps Standard.Filter := mkFilterOps
  (fun f d => default f (Standard.Add f d)) (fun f d => default false (Standard.Contains f d)) None.
Definition countingOps : FilterOps Counting.Filter := mkFilterOps
  (fun f d => default f (Counting.Add f d)) (fun f d => default false (Counting.Contains f d))
  (Some (fun f d => default f (Counting.Remove f d))).

Definition standardCovers (f : Standard.Filter) (d : Digest) : Prop :=
  d <> [] /\ forall i, 0 <= i < Standard.k f -> Standard.bitOf (Standard.bits f) (Standard.pos f d i) = true.
Definition standardHolds (l : gmultiset Digest) (f : Standard.Filter) : Prop :=
  Standard.wf f /\ forall d, d ∈ l -> d <> [] -> standardCovers f d.
#[export] Instance standard_FilterSpec : FilterSpec standardOps standardHolds (fun _ _ => True).
Proof.
  split; [|done|].
  - intros l f d [Hf Hc] _. destruct (Standard.Add_ok f Hf d) as (ws & E & Hw & Hb). cbn [standardOps fl_Add]. rewrite E. cbn [default from_option id].
    split; [done|]. unfold standardCovers. cbn [Standard.k Standard.bits]. change (Standard.pos (Standard.mkFilter ws _ _ _)) with (Standard.pos f).
    intros d' Hd' Hne. split; [done|]. intros i Hi. apply Hb; [by apply Standard.pos_range|].
    destruct (decide (d' = d)) as [->|]; [right; split; [done|]; eauto|left]. apply (Hc d'); [multiset_solver|done..].
  - intros l f d [Hf Hc] Hd Hne. destruct (Standard.Contains_ok f Hf d) as (b & E & Hb). cbn [standardOps fl_Contains]. rewrite E. by apply Hb, Hc.
Qed.

(** The counting filter, from the empty one [f0] on, has exact counters; it has
    room for what no counter would saturate at. *)
Section CountingSpec.
Variable f0 : Counting.Filter.
Definition countingHolds (l : gmultiset Digest) (f : Counting.Filter) : Prop :=
  Counting.wf f /\ f = Counting.withCounts f0 (Counting.counts f) /\
  forall idx, 0 <= idx < Counting.m f0 -> Counting.slot (Counting.bits f0) (Counting.counts f) idx = Counting.load f0 (elements l) idx.
Definition countingRoom (l : gmultiset Digest) (d : Digest) : Prop :=
  forall idx, 0 <= idx < Counting.m f0 -> Counting.load f0 (d :: elements l) idx <= Counting.mask f0.

Lemma load_add (l : gmultiset Digest) d idx : Counting.load f0 (elements (l ⊎ {[+ d +]})) idx = Counting.occ f0 d idx + Counting.load f0 (elements l) idx.
Proof.
  rewrite (Counting.load_Permutation _ _ (elements l ++ [d])), Counting.load_app; [cbn; lia|].
  by rewrite gmultiset_elements_disj_union, gmultiset_elements_singleton.
Qed.
#[export] Instance counting_FilterSpec : FilterSpec countingOps countingHolds countingRoom.
Proof.
  split.
  - intros l f d (Hf & Ef & Hs) Hr. destruct (Counting.counting_Add_ok f Hf d) as (c & E & Hw & Hc). cbn [countingOps fl_Add]. rewrite E. cbn [default from_option id].
    split; [done|]. rewrite Ef in Hc |- *. split; [done|]. intros idx Hi. specialize (Hr idx Hi). cbn [Counting.withCounts Counting.bits Counting.counts Counting.mask Counting.m] in *.
    rewrite Hc, Hs, load_add by done. cbn [Counting.load foldr] in Hr. fold (Counting.load f0 (elements l) idx) in Hr.
    change (Counting.occ (Counting.withCounts f0 (Counting.counts f)) d idx) with (Counting.occ f0 d idx). lia.
  - intros l f d remove [= <-] (Hf & Ef & Hs) Hd. destruct (Counting.counting_Remove_ok f Hf d) as (c & E & Hw & Hc). rewrite E. cbn [default from_option id].
    split; [done|]. rewrite Ef in Hc |- *. split; [done|]. intros idx Hi. cbn [Counting.withCounts Counting.bits Counting.counts Counting.mask Counting.m] in *.
    assert (El : l = (l ∖ {[+ d +]}) ⊎ {[+ d +]}) by multiset_solver.
    rewrite Hc, Hs by done. rewrite El at 1. rewrite load_add.
    change (Counting.occ (Counting.withCounts f0 (Counting.counts f)) d idx) with (Counting.occ f0 d idx).
    pose proof (Counting.load_nonneg f0 (elements (l ∖ {[+ d +]})) idx). lia.
  - intros l f d (Hf & Ef & Hs) Hd Hne. destruct (Counting.counting_Contains_ok f Hf d) as (b & E & Hb). cbn [countingOps fl_Contains]. rewrite E.
    apply Hb. split; [done|]. intros i Hi. rewrite Ef in Hi |- *. cbn [Counting.withCounts Counting.k Counting.bits Counting.counts] in *.
    change (Counting.pos (Counting.withCounts f0 (Counting.counts f)) d i) with (Counting.pos f0 d i).
    assert (Hw0 : 0 <= Counting.pos f0 d i < Counting.m f0).
    { pose proof (Counting.slotPos_range f Hf d i) as Hr. rewrite Ef in Hr. exact Hr. }
    rewrite Hs, Counting.load_pos by done. exists d. split; [by apply gmultiset_elem_of_elements|]. apply (Counting.occ_pos f0). eauto.
Qed.
End CountingSpec.

(** A history over the filesystem with the counting filter: two objects put,
    one of them deleted again and its counts with it. *)
Definition countedFs : Backend (FS * Counting.Filter) := guard (Fs.Backend nowhere 2 1 true) countingOps.
Definition guardDisk : FS := mkFS {[ [] := Directory ]} [] 7.
Definition kept : Digest := [x12; x34].
Definition gone : Digest := [x56; x78].
Definition gs1 := Eval vm_compute in bk_Put countedFs kept (bytesReader [x61]) [] (guardDisk, Counting.sampleFilter).
Definition gs2 := Eval vm_compute in bk_Put countedFs gone (bytesReader [x62]) [] gs1.2.
Definition gs3 := Eval vm_compute in bk_Delete countedFs gone [] gs2.2.
Abbreviation fsHistory := (history (Fs.Backend nowhere 2 1 true) (FsContract.inv 2 1) (FsContract.abs 2 1) countingOps
  (countingHolds Counting.sampleFilter) (countingRoom Counting.sampleFilter)).
Definition ledger3 : ledger :=
  afterDelete countingOps (afterPut (afterPut (mkLedger ∅ ∅) kept (Ok tt)) gone (Ok tt)) gone (Ok tt).
Lemma sample_room (l : gmultiset Digest) d : (length (elements l) < 15)%nat -> countingRoom Counting.sampleFilter l d.
Proof. intros Hl idx _. pose proof (Counting.sample_load (d :: elements l) idx) as H. cbn [length] in H. change (Counting.mask Counting.sampleFilter) with 15. lia. Qed.
Lemma sample_holds : countingHolds Counting.sampleFilter ∅ Counting.sampleFilter.
Proof.
  destruct (Counting.counting_New_wf _ _ _ _ _ Counting.counting_sample_New) as (Hw & _ & Hz). split_and!; [done..|].
  intros idx Hi. by rewrite Hz, gmultiset_elements_empty.
Qed.
Lemma fs_history : fsHistory ledger3 (run_st gs3).
Proof.
  eapply (history_Delete _ _ _ _ _ _ _ (run_st gs2) gone [] (Ok tt) []); [|intros _ _; cbn; multiset_solver|vm_compute; reflexivity].
  eapply (history_Put _ _ _ _ _ _ _ (run_st gs1) gone (bytesReader [x62]) [] (Ok tt) []); [|apply sample_room; vm_compute; lia|vm_compute; reflexivity].
  eapply (history_Put _ _ _ _ _ _ _ (guardDisk, Counting.sampleFilter) kept (bytesReader [x61]) [] (Ok tt) []); [|apply sample_room; vm_compute; lia|vm_compute; reflexivity].
  apply history_new; [apply inv_fresh|exact sample_holds|]. intros d [x Hd]. vm_compute in Hd. done.
Qed.
Lemma kept_stored : is_Some (FsContract.abs 2 1 (run_st gs3).1 !! kept).
Proof. exists [x61]. vm_compute. reflexivity. Qed.
Lemma kept_recorded : kept ∈ recorded ledger3.
Proof. apply elem_of_multiplicity. vm_compute. lia. Qed.

(** ** Where the shortcut is wrong *)
Definition memGuard : Backend (Mem.Mem * Counting.Filter) := guard Mem.Backend countingOps.
Definition fsGuard : Backend (FS * Standard.Filter) := guard (Fs.Backend nowhere 2 1 true) standardOps.
Definition failingSync : FS := mkFS {[ [] := Directory ]} (replicate 7 None ++ [Some (mkFault "sync" 0)]) 1000.

(** The guard can report a stored object absent.  Over a counting filter,
    deleting an object that was never stored takes the counts of one that was;
    and over the filesystem, a Put that fails after it has published (the
    directory's sync) leaves an object the filter was never told of.  Every other
    call succeeds, the object is in the store, and Exists answers false. *)
Theorem guard_false_absent :
  (exists st1 st2, let d := [x05] in
     bk_Put memGuard d (bytesReader [x61]) [] (Mem.mkMem ∅ 0 0, Counting.sampleFilter) = (Ok tt, [], st1) /\
     bk_Delete memGuard [x07] [] st1 = (Ok tt, [], st2) /\
     Mem.objects st2.1 !! d = Some [x61] /\ bk_Exists memGuard d [] st2 = (Ok false, [], st2)) /\
  (exists st1 e, let d := [x12; x34] in
     bk_Put fsGuard d (bytesReader [x61]) [] (failingSync, Standard.sampleFilter) = (Err e, [], st1) /\
     abs 2 1 st1.1 !! d = Some [x61] /\ bk_Exists fsGuard d [] st1 = (Ok false, [], st1)).
Proof. split; do 2 eexists; cbv zeta; repeat (split; [vm_compute; reflexivity|]); vm_compute; reflexivity. Qed.
End Guard.
