(* ===== verification/CacheMem.v ===== *)
(** The lazy in-memory cache over a typed store (src/cas/cache/mem/cached.go).
    A [CachedObject] is shared by pointer: the cache's map, a policy's list and
    the callers hold references to the same object, so the model keeps them on a
    heap.  The calls are those of one goroutine. *)

From S2P Require Import Prelude Digest Binary Stream Envelope Backend MemBackend Store Float64.

Section CachedStore.
Context {S T L : Type}.
Variable backend : Backend S.
Variable codec : Codec T.
Variable obj : Object T.
Variable hasher : Hasher.

(** [obj], [err] and [loaded] of a CachedObject are one memo: what the first
    load returned. *)
Record CachedObject := mkCachedObject { co_digest : Digest; co_memo : option (res T) }.

Record CachedStore := mkCachedStore {
  heap : gmap nat CachedObject;
  next : nat;
  cache : gmap bytes nat;
  Hits : Z; Misses : Z; Loads : Z; Evicts : Z;
}.
Record CacheStats := mkCacheStats { st_Hits : Z; st_Misses : Z; st_Loads : Z; st_Evicts : Z; st_HitRate : float64; st_Size : Z }.

(** The store below, the cache, and what the installed callback owns. *)
Record St := mkSt { store : S; cs : CachedStore; client : L }.
Variable onNew : option (bytes -> CachedStore * L -> CachedStore * L).

Definition New : CachedStore := mkCachedStore ∅ 0 ∅ 0 0 0 0.

Definition onStore {A} (m : M S A) : M St A := fun c st =>
  match m c (store st) with (r, c', s') => (r, c', mkSt s' (cs st) (client st)) end.
Definition setCs (f : CachedStore -> CachedStore) : M St unit := modify (fun st => mkSt (store st) (f (cs st)) (client st)).

Definition incrHits (c : CachedStore) := mkCachedStore (heap c) (next c) (cache c) (wrap64 (Hits c + 1)) (Misses c) (Loads c) (Evicts c).
Definition incrMisses (c : CachedStore) := mkCachedStore (heap c) (next c) (cache c) (Hits c) (wrap64 (Misses c + 1)) (Loads c) (Evicts c).
Definition incrLoads (c : CachedStore) := mkCachedStore (heap c) (next c) (cache c) (Hits c) (Misses c) (wrap64 (Loads c + 1)) (Evicts c).
Definition IncrEvicts (c : CachedStore) := mkCachedStore (heap c) (next c) (cache c) (Hits c) (Misses c) (Loads c) (wrap64 (Evicts c + 1)).
Definition setHeap (h : gmap nat CachedObject) (c : CachedStore) :=
  mkCachedStore h (next c) (cache c) (Hits c) (Misses c) (Loads c) (Evicts c).
Definition setCache (m : gmap bytes nat) (c : CachedStore) :=
  mkCachedStore (heap c) (next c) m (Hits c) (Misses c) (Loads c) (Evicts c).

(** ** CachedObject *)
Definition nilDereference : error := Prelude.New "runtime error: invalid memory address or nil pointer dereference".

Definition Load (ref : nat) : M St T :=
  st ← get;
  match heap (cs st) !! ref with
  | None => throw nilDereference
  | Some co =>
    match co_memo co with
    | Some r => lift r
    | None =>
      r ← attempt (onStore (Store.Get backend codec obj hasher (co_digest co)));
      setCs (fun c => setHeap (<[ref := mkCachedObject (co_digest co) (Some r)]> (heap c)) c);;
      setCs incrLoads;;
      lift r
    end
  end.
Definition IsLoaded (c : CachedStore) (ref : nat) : bool :=
  match heap c !! ref with Some co => bool_decide (is_Some (co_memo co)) | None => false end.

(** ** CachedStore *)
Definition Lookup (key : bytes) (c : CachedStore) : option nat := cache c !! key.
Definition EvictKey (key : bytes) (c : CachedStore) : CachedStore := setCache (delete key (cache c)) c.
Definition Evict (d : Digest) (c : CachedStore) : CachedStore :=
  match cache c !! DString d with
  | Some _ => IncrEvicts (EvictKey (DString d) c)
  | None => c
  end.
Definition Clear (c : CachedStore) : CachedStore := setCache ∅ c.
Definition CacheStats_ (c : CachedStore) : CacheStats :=
  let total := wrap64 (Hits c + Misses c) in
  mkCacheStats (Hits c) (Misses c) (Loads c) (Evicts c)
    (if 0 <? total then f64_div (f64 (Hits c)) (f64 total) else f64_zero)
    (Z.of_nat (size (cache c))).

Definition Proxy (d : Digest) : M St nat :=
  let key := DString d in
  st ← get;
  match cache (cs st) !! key with
  | Some ref => setCs incrHits;; mret ref
  | None =>
    setCs incrMisses;;
    exists_ ← onStore (Store.Exists backend hasher d);
    if negb exists_ then throw (Errorf "cache: %w: %s" ErrNotFound)
    else
      st ← get;
      let c := cs st in
      let ref := next c in
      let c := mkCachedStore (<[ref := mkCachedObject d None]> (heap c)) (Datatypes.S ref) (cache c) (Hits c) (Misses c) (Loads c) (Evicts c) in
      match cache c !! key with
      | Some actual => Prelude.put (mkSt (store st) c (client st));; mret actual
      | None =>
        let c := setCache (<[key := ref]> (cache c)) c in
        let '(c, l) := match onNew with Some fn => fn key (c, client st) | None => (c, client st) end in
        Prelude.put (mkSt (store st) c l);;
        mret ref
      end
  end.

Definition Get (d : Digest) : M St T :=
  ref ← Proxy d;
  Load ref.

(** ** PreloadRecursive: [seen] is the map the call makes and shares with its
    recursive calls; [depth] counts the levels still to follow. *)
Fixpoint preloadRecursive (depth : nat) (d : Digest) : M (St * gset bytes) unit :=
  if IsZero d then mret tt
  else
    st ← get;
    if decide (DString d ∈ st.2) then mret tt
    else
      onSnd (modify (fun seen => {[DString d]} ∪ seen));;
      o ← onFst (Get d);
      match depth with
      | O => mret tt
      | Datatypes.S depth =>
        forM_ (default [] (ob_References obj o)) (fun ref =>
          r ← attempt (preloadRecursive depth ref);
          match r with
          | Err err => if negb (errIs err ErrUnknownType) && negb (errIs err ErrNotFound) then throw err else mret tt
          | Ok _ => mret tt
          end)
      end.
Definition PreloadRecursive (d : Digest) (depth : Z) : M St unit := fun c st =>
  match preloadRecursive (Z.to_nat depth) d c (st, ∅) with (r, c', (st', _)) => (r, c', st') end.

(** ** loadAll

    The digests are handed to the workers in order until the context ends; the
    workers' loads then take effect in some order, [schedule]. *)
Variable schedule : list Digest -> list Digest.

Definition recordErr (tolerateMissing : bool) (errs : list error) (err : error) : list error :=
  if errIs err Canceled || errIs err DeadlineExceeded then errs
  else if tolerateMissing && errIs err ErrNotFound then errs
  else errs ++ [err].
(** [errors.Join]. *)
Fixpoint Join (errs : list error) : option error :=
  match errs with
  | [] => None
  | e :: errs => Some (match Join errs with Some e' => Errorf2 "%w\n%w" e e' | None => e end)
  end.
(** One check before the send and one while it waits. *)
Fixpoint feed (digests : list Digest) : M St (list Digest) :=
  match digests with
  | [] => mret []
  | d :: digests =>
    r ← attempt ctxErr;
    match r with
    | Err _ => mret []
    | Ok _ =>
      r ← attempt ctxErr;
      match r with
      | Err _ => mret []
      | Ok _ => fed ← feed digests; mret (d :: fed)
      end
    end
  end.
Definition loadAll (digests : list Digest) (tolerateMissing : bool) : M St unit :=
  match digests with
  | [] => mret tt
  | _ =>
    fed ← feed digests;
    errs ← foldM (schedule fed) [] (fun errs d =>
      r ← attempt (Get d);
      mret (match r with Ok _ => errs | Err err => recordErr tolerateMissing errs err end));
    r ← attempt ctxErr;
    match Join (match r with Ok _ => errs | Err e => errs ++ [e] end) with
    | None => mret tt
    | Some e => throw e
    end
  end.
Definition Preload (digests : list Digest) : M St unit := loadAll digests false.
Definition Warmup (digests : list Digest) : M St unit := loadAll digests true.
End CachedStore.

Arguments CachedObject : clear implicits. Arguments CachedStore : clear implicits.
Arguments St : clear implicits.
