(* ===== verification/CacheLru.v ===== *)
(** The size-bounded cache with least-recently-used eviction
    (src/cas/cache/lru/lru.go, src/cas/cache/validate.go) over the lazy cache. *)

From S2P Require Import Prelude Digest Binary Stream Envelope Backend MemBackend Store Float64 CacheMem.

(** ** The policy

    An element of the recency list is identified by the CachedObject it holds;
    the front of the list is its head. *)
Record LRU := mkLRU { maxSize : Z; recency : list nat; index : gmap bytes nat }.

Definition ValidateMaxSize (maxSize : Z) : res unit :=
  if maxSize <=? 0 then Err (Prelude.New "%s: maxSize must be > 0, got %d") else Ok tt.

Definition MoveToFront (el : nat) (l : list nat) : list nat :=
  if decide (el ∈ l) then el :: filter (fun x => x <> el) l else l.
Definition ListRemove (el : nat) (l : list nat) : list nat := filter (fun x => x <> el) l.

Section Lru.
Context {S T : Type}.
Variable backend : Backend S.
Variable codec : Codec T.
Variable obj : Object T.
Variable hasher : Hasher.
Abbreviation Cached := (CachedStore T).
Abbreviation State := (St S T LRU).

Definition touchLocked (key : bytes) (co : option nat) (c : Cached) (l : LRU) : LRU :=
  match index l !! key with
  | Some el => mkLRU (maxSize l) (MoveToFront el (recency l)) (index l)
  | None =>
    match (match co with Some co => Some co | None => Lookup key c end) with
    | None => l
    | Some co => mkLRU (maxSize l) (co :: recency l) (<[key := co]> (index l))
    end
  end.

Fixpoint evictLoop (fuel : nat) (c : Cached) (l : LRU) : Cached * LRU :=
  match fuel with
  | O => (c, l)
  | Datatypes.S fuel =>
    if maxSize l <? blen (recency l) then
      match list.last (recency l) with
      | None => (c, l)
      | Some el =>
        match heap c !! el with
        | None => (c, l)
        | Some evicted =>
          let evictedKey := DString (co_digest evicted) in
          evictLoop fuel (IncrEvicts (EvictKey evictedKey c))
            (mkLRU (maxSize l) (ListRemove el (recency l)) (delete evictedKey (index l)))
        end
      end
    else (c, l)
  end.
Definition note (key : bytes) (cl : Cached * LRU) : Cached * LRU :=
  let '(c, l) := cl in
  let l := touchLocked key None c l in
  evictLoop (length (recency l)) c l.

Definition forget (key : bytes) (l : LRU) : LRU :=
  match index l !! key with
  | Some el => mkLRU (maxSize l) (ListRemove el (recency l)) (delete key (index l))
  | None => l
  end.

(** ** The cache *)
Definition NewCache (maxSize : Z) : res (Cached * LRU) :=
  ValidateMaxSize maxSize;;
  Ok (CacheMem.New, mkLRU maxSize [] ∅).

Definition onCache (f : Cached -> Cached) (g : LRU -> LRU) : M State unit :=
  modify (fun st => mkSt (store st) (f (cs st)) (g (client st))).
Definition LruEvict (d : Digest) : M State unit := onCache (CacheMem.Evict d) (forget (DString d)).
Definition LruEvictKey (key : bytes) : M State unit := onCache (CacheMem.EvictKey key) (forget key).
Definition LruClear : M State unit := onCache CacheMem.Clear (fun l => mkLRU (maxSize l) [] ∅).
Definition LruLookup (key : bytes) (st : State) : option nat := CacheMem.Lookup key (cs st).
Definition LruCacheStats (st : State) : CacheStats := CacheStats_ (cs st).

Definition LruProxy (d : Digest) : M State nat :=
  co ← CacheMem.Proxy backend hasher (Some note) d;
  modify (fun st => mkSt (store st) (cs st) (touchLocked (DString d) (Some co) (cs st) (client st)));;
  mret co.
Definition LruGet (d : Digest) : M State T :=
  co ← LruProxy d;
  Load backend codec obj hasher co.
Definition LruPreload (schedule : list Digest -> list Digest) : list Digest -> M State unit :=
  Preload backend codec obj hasher (Some note) schedule.
Definition LruWarmup (schedule : list Digest -> list Digest) : list Digest -> M State unit :=
  Warmup backend codec obj hasher (Some note) schedule.
Definition LruPreloadRecursive : Digest -> Z -> M State unit := PreloadRecursive backend codec obj hasher (Some note).
End Lru.

(** ** The list and the map agree *)
Section Linked.
Context {T : Type}.
Abbreviation Cached := (CachedStore T).

Record linked (c : Cached) (l : LRU) : Prop := {
  lk_index : index l = cache c;
  lk_nodup : NoDup (recency l);
  lk_mem : forall ref, ref ∈ recency l <-> exists key, cache c !! key = Some ref;
  lk_co : forall key ref, cache c !! key = Some ref -> exists co, heap c !! ref = Some co /\ DString (co_digest co) = key;
  lk_next : forall ref co, heap c !! ref = Some co -> (ref < next c)%nat;
}.
(** The digests by recency, the most recent first. *)
Definition recent (c : Cached) (refs : list nat) : list Digest := omap (fun ref => co_digest <$> heap c !! ref) refs.

Lemma linked_inj c l key key' ref : linked c l -> cache c !! key = Some ref -> cache c !! key' = Some ref -> key = key'.
Proof. intros Hl H H'. destruct (lk_co _ _ Hl _ _ H) as (co & E & <-), (lk_co _ _ Hl _ _ H') as (co' & E' & <-). congruence. Qed.
Lemma linked_digest c l ref : linked c l -> ref ∈ recency l -> exists co, heap c !! ref = Some co /\ cache c !! DString (co_digest co) = Some ref.
Proof.
  intros Hl (key & Hk)%(lk_mem _ _ Hl). destruct (lk_co _ _ Hl _ _ Hk) as (co & E & <-). eauto.
Qed.

Lemma linked_size c l : linked c l -> (size (cache c) <= length (recency l))%nat.
Proof.
  intros Hl. rewrite <- length_map_to_list, <- (length_fmap snd (map_to_list (cache c))). apply submseteq_length, NoDup_submseteq.
  - apply NoDup_fmap_2_strong; [|apply NoDup_map_to_list]. intros [k r] [k' r'] H H' E. apply elem_of_map_to_list in H, H'.
    cbn in E. subst. f_equal. by eapply linked_inj.
  - intros r ([k r'] & -> & Hr)%list_elem_of_fmap. apply elem_of_map_to_list in Hr. apply (lk_mem _ _ Hl). eauto.
Qed.

Lemma recent_filter c l refs d ref : linked c l -> (forall x, x ∈ refs -> x ∈ recency l) ->
  cache c !! DString d = Some ref -> recent c (filter (fun x => x <> ref) refs) = filter (fun x => x <> d) (recent c refs).
Proof.
  intros Hl Hin Hd. unfold recent. induction refs as [|x refs IH]; [done|].
  destruct (linked_digest c l x Hl) as (co & E & Hx); [apply Hin; by left|].
  rewrite list.filter_cons. cbn [omap list_omap]. rewrite E. cbn [fmap option_fmap option_map]. rewrite list.filter_cons.
  assert (Hiff : x = ref <-> co_digest co = d).
  { split; [intros ->|intros E'; rewrite E' in Hx; congruence]. apply (inj DString). by eapply linked_inj. }
  rewrite <- IH by (intros; apply Hin; by right).
  destruct (decide (x <> ref)) as [Hne|He]; destruct (decide (co_digest co <> d)) as [Hne'|He']; try tauto.
  cbn [omap list_omap]. by rewrite E.
Qed.

(** Moving an element to the front. *)
Lemma linked_touch c l key ref : linked c l -> cache c !! key = Some ref ->
  linked c (mkLRU (maxSize l) (MoveToFront ref (recency l)) (index l)) /\
  MoveToFront ref (recency l) = ref :: filter (fun x => x <> ref) (recency l).
Proof.
  intros Hl Hk. assert (Hin : ref ∈ recency l) by (apply (lk_mem _ _ Hl); eauto).
  unfold MoveToFront. rewrite decide_True by done. split; [|done]. destruct Hl as [Hi Hn Hm Hc Hx].
  split; cbn [index recency]; try done.
  - constructor; [rewrite list_elem_of_filter; tauto|by apply list.NoDup_filter].
  - intros r. rewrite elem_of_cons, list_elem_of_filter, Hm. destruct (decide (r = ref)) as [->|]; naive_solver.
Qed.

(** Taking an element out of both. *)
Lemma linked_remove c l key ref co : linked c l -> cache c !! key = Some ref -> heap c !! ref = Some co ->
  linked (EvictKey key c) (mkLRU (maxSize l) (ListRemove ref (recency l)) (delete key (index l))).
Proof.
  intros Hl Hk Hco. pose proof Hl as [Hi Hn Hm Hc Hx]. split; cbn [index recency EvictKey setCache cache heap next].
  - by rewrite Hi.
  - by apply list.NoDup_filter.
  - intros r. unfold ListRemove. rewrite list_elem_of_filter, Hm. split.
    + intros (Hne & key' & Hk'). exists key'. rewrite lookup_delete_ne; [done|]. intros ->. congruence.
    + intros (key' & Hk'). apply lookup_delete_Some in Hk' as [Hne Hk']. split; [|eauto]. intros ->. apply Hne. by eapply linked_inj.
  - intros k r Hr. apply lookup_delete_Some in Hr as [_ Hr]. eauto.
  - done.
Qed.

Lemma recent_app c l1 l2 : recent c (l1 ++ l2) = recent c l1 ++ recent c l2.
Proof. apply omap_app. Qed.
Lemma recent_length c refs : (forall x, x ∈ refs -> is_Some (heap c !! x)) -> length (recent c refs) = length refs.
Proof.
  unfold recent. induction refs as [|x refs IH]; intros H; [done|]. cbn [omap list_omap].
  destruct (H x) as [co ->]; [left|]. cbn. f_equal. apply IH. intros. apply H. by right.
Qed.
Lemma recent_ext c c' refs : (forall x, x ∈ refs -> heap c' !! x = heap c !! x) -> recent c' refs = recent c refs.
Proof.
  unfold recent. induction refs as [|x refs IH]; intros H; [done|]. cbn [omap list_omap]. rewrite H by left.
  rewrite IH by (intros; apply H; by right). done.
Qed.
(** A memo does not change which digest an entry is for. *)
Lemma recent_memo c c' ref co m refs : heap c !! ref = Some co -> heap c' = <[ref := mkCachedObject (co_digest co) m]> (heap c) ->
  recent c' refs = recent c refs.
Proof.
  intros Hco Hh. unfold recent. induction refs as [|x refs IH]; [done|]. cbn [omap list_omap]. rewrite IH, Hh, lookup_insert.
  case_decide; [|done]. subst. by rewrite Hco.
Qed.
Lemma linked_memo c c' l ref co m : heap c !! ref = Some co -> heap c' = <[ref := mkCachedObject (co_digest co) m]> (heap c) ->
  cache c' = cache c -> next c' = next c -> linked c l -> linked c' l.
Proof.
  intros Hco Hh Hc Hn [Hi Hnd Hm Hk Hx]. split; rewrite ?Hc, ?Hn; try done.
  - intros key r Hr. rewrite Hh, lookup_insert. destruct (Hk _ _ Hr) as (co' & E & Ek). case_decide; subst; [|eauto].
    rewrite Hco in E. simplify_eq. by eexists.
  - intros r co'. rewrite Hh, lookup_insert. case_decide; subst; eauto.
Qed.
Lemma elem_of_recent c l d : linked c l -> d ∈ recent c (recency l) <-> is_Some (cache c !! DString d).
Proof.
  intros Hl. unfold recent. rewrite list_elem_of_omap. split.
  - intros (ref & Hr & E). destruct (linked_digest c l ref Hl Hr) as (co & Eh & Hc). rewrite Eh in E. cbn in E. simplify_eq. by eexists.
  - intros [ref Hr]. exists ref. split; [apply (lk_mem _ _ Hl); eauto|].
    destruct (lk_co _ _ Hl _ _ Hr) as (co & -> & E). apply (inj DString) in E. cbn. by rewrite E.
Qed.

(** A new entry, in the map and at the front of the list. *)
Definition added (d : Digest) (c : Cached) : Cached :=
  mkCachedStore (<[next c := mkCachedObject d None]> (heap c)) (Datatypes.S (next c)) (<[DString d := next c]> (cache c))
    (Hits c) (Misses c) (Loads c) (Evicts c).
Lemma linked_added c l d : linked c l -> cache c !! DString d = None ->
  linked (added d c) (mkLRU (maxSize l) (next c :: recency l) (<[DString d := next c]> (index l))).
Proof.
  intros Hl Hd. pose proof Hl as [Hi Hn Hm Hc Hx].
  assert (Hfresh : forall ref, ref ∈ recency l -> ref <> next c).
  { intros ref Hr ->. destruct (linked_digest c l _ Hl Hr) as (co & E & _). apply Hx in E. lia. }
  split; cbn [index recency added cache heap next].
  - by rewrite Hi.
  - constructor; [|done]. intros H. by apply (Hfresh (next c)).
  - intros ref. rewrite elem_of_cons, Hm. split.
    + intros [->|(key & Hk)]; [exists (DString d); apply lookup_insert_eq|]. exists key. rewrite lookup_insert_ne; [done|]. congruence.
    + intros (key & Hk). apply lookup_insert_Some in Hk as [[_ <-]|[_ Hk]]; [by left|]. right. eauto.
  - intros key ref Hk. apply lookup_insert_Some in Hk as [[<- <-]|[_ Hk]]; [rewrite lookup_insert_eq; eauto|].
    rewrite lookup_insert_ne; [eauto|]. intros <-. apply (Hfresh (next c)); [apply Hm; eauto|done].
  - intros ref co E. apply lookup_insert_Some in E as [[<- _]|[_ E]]; [lia|]. apply Hx in E. lia.
Qed.

Definition bounded (l : LRU) : Prop := 1 <= maxSize l /\ blen (recency l) <= maxSize l.

Lemma ListRemove_last (refs : list nat) el : NoDup (refs ++ [el]) -> ListRemove el (refs ++ [el]) = refs.
Proof.
  intros (Hn & Hd & _)%list.NoDup_app. unfold ListRemove. rewrite list.filter_app. cbn. rewrite decide_False by tauto. rewrite app_nil_r.
  apply filter_all. intros x Hx ->. apply (Hd el); [done|left].
Qed.

Lemma MoveToFront_head (l : list nat) x : NoDup l -> head l = Some x -> MoveToFront x l = l.
Proof.
  intros Hn Hh. destruct l as [|y l]; [done|]. injection Hh as ->. apply list.NoDup_cons in Hn as [Hx _].
  unfold MoveToFront. rewrite decide_True by left. f_equal. rewrite list.filter_cons, decide_False by tauto.
  apply filter_all. by intros y Hy ->.
Qed.
Lemma evictLoop_done fuel (c : Cached) l : blen (recency l) <= maxSize l -> evictLoop fuel c l = (c, l).
Proof. intros H. destruct fuel; [done|]. cbn [evictLoop]. destruct (Z.ltb_spec (maxSize l) (blen (recency l))); [lia|done]. Qed.

Lemma note_added c l d c' l' : linked c l -> bounded l -> cache c !! DString d = None ->
  note (DString d) (added d c, l) = (c', l') ->
  linked c' l' /\ bounded l' /\ maxSize l' = maxSize l /\ heap c' = heap (added d c) /\ next c' = Datatypes.S (next c) /\
  cache c' !! DString d = Some (next c) /\ head (recency l') = Some (next c) /\
  recent c' (recency l') = take (Z.to_nat (maxSize l)) (d :: recent c (recency l)).
Proof.
  intros Hl [Hb1 Hb2] Hd H. pose proof (linked_added c l d Hl Hd) as Hl1. unfold note, touchLocked in H.
  rewrite (lk_index _ _ Hl), Hd in H. unfold Lookup in H. cbn [added cache] in H. rewrite lookup_insert_eq in H. fold (added d c) in H.
  cbn [recency maxSize] in H. rewrite <- (lk_index _ _ Hl) in H.
  assert (Hin : forall x, x ∈ recency l -> is_Some (heap c !! x)).
  { intros x Hx. destruct (linked_digest c l x Hl Hx) as (co & E & _). by eexists. }
  assert (Hrec : recent (added d c) (next c :: recency l) = d :: recent c (recency l)).
  { assert (E : recent (added d c) (next c :: recency l) = d :: recent (added d c) (recency l))
      by (unfold recent; cbn [omap list_omap added heap]; by rewrite lookup_insert_eq).
    rewrite E. f_equal. apply recent_ext.
    intros x Hx. cbn. rewrite lookup_insert_ne; [done|]. intros <-. destruct (Hin _ Hx) as [co E']. apply (lk_next _ _ Hl) in E'. lia. }
  destruct (Z.ltb_spec (maxSize l) (blen (next c :: recency l))) as [Hfull|Hroom].
  2:{ rewrite evictLoop_done in H by done. simplify_eq. split_and!; try done; [apply lookup_insert_eq|].
      cbn [recency]. rewrite Hrec, take_ge; [done|]. cbn [length]. rewrite recent_length by done. cbn [length] in Hroom. lia. }
  destruct (decide (recency l = [])) as [En|Hne]; [rewrite En in *; cbn in *; lia|].
  destruct (exists_last Hne) as (refs & el & Erefs).
  assert (Hel : el ∈ recency l) by (rewrite Erefs; apply elem_of_app; right; left).
  destruct (linked_digest _ _ el Hl1) as (co & Eco & Hco); [by right|].
  cbn [length evictLoop recency maxSize] in H. rewrite (proj2 (Z.ltb_lt (maxSize l) _)) in H by (cbn [length] in *; lia).
  assert (Elast : list.last (next c :: recency l) = Some el) by (rewrite Erefs, app_comm_cons; apply last_snoc).
  rewrite Elast, Eco in H. cbn [index] in H.
  pose proof (linked_remove _ _ _ _ _ Hl1 Hco Eco) as Hl2. cbn [maxSize recency index] in Hl2.
  assert (Erem : ListRemove el (next c :: recency l) = next c :: refs).
  { rewrite Erefs, app_comm_cons. apply ListRemove_last. rewrite <- app_comm_cons, <- Erefs. apply Hl1. }
  rewrite Erem in *. rewrite evictLoop_done in H by (cbn [recency maxSize length] in *; rewrite Erefs, length_app in *; cbn in *; lia).
  assert (Hdk : DString (co_digest co) <> DString d).
  { intros E. rewrite E in Hco. cbn [added cache] in Hco. rewrite lookup_insert_eq in Hco. injection Hco as Hx.
    destruct (Hin el Hel) as [co' E']. apply (lk_next _ _ Hl) in E'. lia. }
  simplify_eq. split_and!; try done.
  - split; [apply (lk_index _ _ Hl2)|apply (lk_nodup _ _ Hl2)|apply (lk_mem _ _ Hl2)|apply (lk_co _ _ Hl2)|apply (lk_next _ _ Hl2)].
  - apply (f_equal length) in Erefs. rewrite length_app in Erefs. unfold bounded. cbn in *. lia.
  - cbn [IncrEvicts EvictKey setCache cache]. rewrite lookup_delete_ne by done. apply lookup_insert_eq.
  - cbn [recency]. change (recent (IncrEvicts _)) with (recent (added d c)).
    assert (E : recent (added d c) (next c :: recency l) = recent (added d c) (next c :: refs) ++ recent (added d c) [el])
      by (rewrite <- recent_app, <- app_comm_cons, <- Erefs; done).
    rewrite <- Hrec, E, take_app_exact; [done|]. rewrite recent_length.
    + apply (f_equal length) in Erefs. rewrite length_app in Erefs. cbn [length] in *. lia.
    + intros x [->|Hx]%elem_of_cons; [cbn; rewrite lookup_insert_eq; by eexists|].
      assert (Hxl : x ∈ recency l) by (rewrite Erefs; apply elem_of_app; by left).
      destruct (linked_digest _ _ x Hl1) as (cx & ? & _); [by right|]. by eexists.
Qed.
End Linked.

(** ** What the cache answers *)
Section Spec.
Context {S T : Type} (B : Backend S) (codec : Codec T) (obj : Object T) (hasher : Hasher).
Context (inv quiet : S -> Prop) (key : Digest -> Prop) (abs : S -> gmap Digest bytes).
Context `{HB : !BackendSpec B inv quiet key abs}.
Abbreviation State := (St S T LRU).

(** A value the cache holds is what the store decodes for its digest. *)
Definition coherent (st : State) : Prop := forall ref co v, heap (cs st) !! ref = Some co -> co_memo co = Some (Ok v) ->
  exists data, abs (store st) !! co_digest co = Some data /\ decodeObject codec obj data = Ok v.
Record lru_inv (st : State) : Prop := {
  li_store : inv (store st);
  li_linked : linked (cs st) (client st);
  li_bounded : bounded (client st);
  li_coherent : coherent st;
}.
Definition recents (st : State) : list Digest := recent (cs st) (recency (client st)).

(** What a call leaves, whatever it answers. *)
Definition kept (st st' : State) : Prop :=
  lru_inv st' /\ (quiet (store st) -> quiet (store st')) /\ abs (store st') = abs (store st) /\
  maxSize (client st') = maxSize (client st).
Lemma kept_trans st st1 st2 : kept st st1 -> kept st1 st2 -> kept st st2.
Proof. intros (_ & Hq & Ha & Hm) (Hi' & Hq' & Ha' & Hm'). split_and!; [done|auto|congruence|congruence]. Qed.

Lemma Exists_store d c s r c' s' : inv s -> Store.Exists B hasher d c s = (r, c', s') ->
  inv s' /\ (quiet s -> quiet s') /\ abs s' = abs s /\ (r = Ok true -> is_Some (abs s !! d)) /\
  (c = [] -> quiet s -> is_Some (abs s !! d) -> hs_Validate hasher d = None -> r = Ok true /\ c' = []).
Proof.
  intros Hi H. unfold Store.Exists in H. mstep H as E with u c1 s1; apply lift_inv in E as (Hd & -> & ->).
  - pose proof (bs_Exists _ _ _ _ _ _ Hi H) as (Hi' & Hq & Ha & Hr). split_and!; try done.
    + intros ->. destruct Hr as [_ Hr]. symmetry in Hr. by apply bool_decide_eq_true in Hr.
    + intros -> Hqs Hds _. assert (Hk : key d) by (by apply (bs_abs_key s d)).
      destruct (bs_Exists_total d s Hi Hqs Hk) as (b & s2 & E). rewrite E in H. simplify_eq. destruct Hr as [_ ->].
      by rewrite bool_decide_eq_true_2.
  - split_and!; try done. intros _ Hqs Hds Hv. rewrite check_ok in Hd; [done| |done].
    eapply bs_key_nonzero, bs_abs_key; eauto.
Qed.

(** The counters do not matter to the invariant. *)
Lemma linked_counters (c c' : CachedStore T) l : heap c' = heap c -> next c' = next c -> cache c' = cache c -> linked c l -> linked c' l.
Proof. intros Hh Hn Hc []. split; rewrite ?Hh, ?Hn, ?Hc; done. Qed.

Lemma take_recent (st : State) d : lru_inv st -> d ∈ recents st ->
  take (Z.to_nat (maxSize (client st))) (d :: filter (fun x => x <> d) (recents st)) = d :: filter (fun x => x <> d) (recents st).
Proof.
  intros Hi Hd. apply take_ge. destruct (li_bounded _ Hi) as [_ Hb].
  assert (Hl : length (recents st) = length (recency (client st))).
  { apply recent_length. intros x Hx. destruct (linked_digest _ _ x (li_linked _ Hi) Hx) as (co & ? & _). by eexists. }
  pose proof (list.length_filter_lt (fun x => x <> d) (recents st) d Hd ltac:(tauto)). cbn [length]. lia.
Qed.
Lemma recents_absent (st : State) d : lru_inv st -> cache (cs st) !! DString d = None ->
  filter (fun x => x <> d) (recents st) = recents st.
Proof.
  intros Hi Hd. apply filter_all. intros x Hx ->. apply (elem_of_recent _ _ d (li_linked _ Hi)) in Hx. rewrite Hd in Hx. by destruct Hx.
Qed.

Lemma Proxy_miss d c (st : State) : cache (cs st) !! DString d = None ->
  forall rp cp stp, CacheMem.Proxy B hasher (Some note) d c st = (rp, cp, stp) ->
  exists s1 m, Store.Exists B hasher d c (store st) = (m, cp, s1) /\
    match rp with
    | Ok ref => m = Ok true /\ exists cx lx, note (DString d) (added d (incrMisses (cs st)), client st) = (cx, lx) /\
        ref = next (cs st) /\ stp = mkSt s1 cx lx
    | Err _ => m <> Ok true /\ stp = mkSt s1 (incrMisses (cs st)) (client st)
    end.
Proof.
  intros Ed rp cp stp HP. unfold CacheMem.Proxy in HP. erewrite bind_ok in HP by reflexivity. rewrite Ed in HP.
  erewrite bind_ok in HP by reflexivity. mstep HP as E with b c1 st1; unfold onStore in E; cbn [store cs client] in E;
    destruct (Store.Exists B hasher d c (store st)) as [[m c2] s1] eqn:EE; simplify_eq.
  2:{ eexists _, _. split; [reflexivity|]. by split. }
  destruct b; cbn [negb] in HP; [|munfold; simplify_eq; eexists _, _; split; [reflexivity|by split]].
  erewrite bind_ok in HP by reflexivity. cbn [store cs client incrMisses heap next cache Hits Misses Loads Evicts] in HP.
  rewrite Ed in HP. change (setCache _ _) with (added d (incrMisses (cs st))) in HP.
  destruct (note (DString d) (added d (incrMisses (cs st)), client st)) as [cx lx] eqn:En.
  munfold. simplify_eq. eexists _, _. split; [reflexivity|]. split; [done|]. exists cx, lx. by split_and!.
Qed.

(** The lazy cache's own Proxy, which promotes nothing on a hit. *)
Lemma Proxy_kept d c (st : State) r c' st' : lru_inv st -> CacheMem.Proxy B hasher (Some note) d c st = (r, c', st') ->
  kept st st' /\ forall ref, r = Ok ref -> exists co, heap (cs st') !! ref = Some co /\ co_digest co = d.
Proof.
  intros Hi H. pose proof Hi as [His Hl Hb Hc]. destruct (cache (cs st) !! DString d) as [ref|] eqn:Ed.
  - unfold CacheMem.Proxy, get, setCs in H. unfold mbind at 1, M_bind in H. rewrite Ed in H. munfold. simplify_eq.
    destruct (lk_co _ _ Hl _ _ Ed) as (co & Eco & Ek). apply (inj DString) in Ek. split.
    + split_and!; try done. split; cbn [store cs client]; [done|by apply (linked_counters (cs st))|done|done].
    + intros ? [= <-]. exists co. done.
  - apply (Proxy_miss _ _ _ Ed) in H as (s1 & m & EE & Hm). apply Exists_store in EE as (His' & Hq & Ha & _); [|done].
    assert (Hlm : linked (incrMisses (cs st)) (client st)) by (by apply (linked_counters (cs st))). destruct r as [ref|e].
    + destruct Hm as (_ & cx & lx & En & -> & ->).
      pose proof (note_added _ _ _ _ _ Hlm Hb Ed En) as (Hl' & Hb' & Hms & Hh & Hn & Hck & Hhd & Hrec). split.
      * split_and!; try done. split; cbn [store cs client]; try done. intros r co v Hco Hv. cbn [store cs] in *.
        rewrite Hh in Hco. cbn [added heap incrMisses] in Hco. apply lookup_insert_Some in Hco as [[_ <-]|[_ Hco]]; [done|].
        rewrite Ha. by eapply Hc.
      * intros ? [= <-]. exists (mkCachedObject d None). cbn [cs]. rewrite Hh. split; [apply lookup_insert_eq|done].
    + destruct Hm as (_ & ->). split; [|done]. split_and!; try done. split; cbn [store cs client]; [done|done|done|].
      intros r co v Hco Hv. cbn [store cs] in *. rewrite Ha. by eapply Hc.
Qed.

Lemma LruProxy_hit d c (st : State) ref : cache (cs st) !! DString d = Some ref ->
  exists st', LruProxy B hasher d c st = (Ok ref, c, st') /\ store st' = store st /\ heap (cs st') = heap (cs st).
Proof.
  intros Ed. unfold LruProxy.
  erewrite bind_ok by (unfold CacheMem.Proxy, get, setCs; unfold mbind at 1, M_bind; rewrite Ed; reflexivity).
  eexists. split; [reflexivity|done].
Qed.
Lemma LruProxy_inv d c (st : State) r c' st' :
  lru_inv st -> LruProxy B hasher d c st = (r, c', st') ->
  kept st st' /\
  match r with
  | Ok ref => (exists co, heap (cs st') !! ref = Some co /\ co_digest co = d /\
        (cache (cs st) !! DString d = None -> co_memo co = None)) /\
      recents st' = take (Z.to_nat (maxSize (client st))) (d :: filter (fun x => x <> d) (recents st))
  | Err _ => recents st' = recents st /\ cache (cs st') = cache (cs st) /\ heap (cs st') = heap (cs st)
  end /\
  (c = [] -> quiet (store st) -> is_Some (abs (store st) !! d) -> hs_Validate hasher d = None -> is_ok r = true /\ c' = []).
Proof.
  intros Hi H. pose proof Hi as [His Hl Hb Hc]. unfold LruProxy in H. destruct (cache (cs st) !! DString d) as [ref|] eqn:Ed.
  - erewrite bind_ok in H by (unfold CacheMem.Proxy, get, setCs; unfold mbind at 1, M_bind; rewrite Ed; reflexivity).
    munfold. simplify_eq. destruct (linked_touch _ _ _ _ Hl Ed) as [Hl' Em].
    assert (Et : touchLocked (DString d) (Some ref) (incrHits (cs st)) (client st) =
      mkLRU (maxSize (client st)) (MoveToFront ref (recency (client st))) (index (client st))).
    { unfold touchLocked. by rewrite (lk_index _ _ Hl), Ed. }
    cbn [store cs client]. rewrite Et. destruct (lk_co _ _ Hl _ _ Ed) as (co & Eco & Ek). apply (inj DString) in Ek.
    split; [|split; [split|done]].
    + split_and!; try done. split; cbn [store cs client]; [done|by apply (linked_counters (cs st))|split; [apply Hb|]|done].
      cbn [recency maxSize]. rewrite Em. cbn [length]. destruct Hb as [_ Hb].
      assert (Hr : ref ∈ recency (client st)) by (apply (lk_mem _ _ Hl); eauto).
      pose proof (list.length_filter_lt (fun x => x <> ref) (recency (client st)) ref Hr ltac:(tauto)). lia.
    + exists co. split_and!; try done.
    + rewrite take_recent; [|done|by apply (elem_of_recent _ _ d Hl); eexists].
      unfold recents. cbn [cs client recency]. rewrite Em. change (recent (incrHits (cs st))) with (recent (cs st)).
      assert (E : recent (cs st) (ref :: filter (fun x => x <> ref) (recency (client st))) =
        d :: recent (cs st) (filter (fun x => x <> ref) (recency (client st)))).
      { unfold recent. cbn [omap list_omap]. rewrite Eco. cbn. by rewrite Ek. }
      rewrite E. f_equal. by apply (recent_filter (cs st) (client st) (recency (client st)) d ref Hl).
  - assert (HP := Proxy_miss d c st Ed).
    mstep H as E with ref c1 st1.
    + apply HP in E as (s1 & m & EE & Hm & cx & lx & En & Href & Hst). subst st1 ref.
      apply Exists_store in EE as (His' & Hq & Ha & Hx & Ht); [|done].
      assert (Hlm : linked (incrMisses (cs st)) (client st)) by (by apply (linked_counters (cs st))).
      pose proof (note_added _ _ _ _ _ Hlm Hb Ed En) as (Hl' & Hb' & Hms & Hh & Hn & Hck & Hhd & Hrec).
      erewrite bind_ok in H by reflexivity. unfold mret, M_ret in H. simplify_eq. cbn [store cs client].
      assert (Et : touchLocked (DString d) (Some (next (cs st))) cx lx = lx).
      { unfold touchLocked. change (next (incrMisses (cs st))) with (next (cs st)) in Hck, Hhd. 
        assert (Ei : index lx !! DString d = Some (next (cs st))) by (by rewrite (lk_index _ _ Hl')). rewrite Ei.
        rewrite (MoveToFront_head (recency lx)); [by destruct lx|apply (lk_nodup _ _ Hl')|done]. }
      rewrite Et. split; [|split; [split|]].
      * split_and!; try done. split; cbn [store cs client]; try done. intros ref co v Hco Hv. cbn [store cs] in *.
        rewrite Hh in Hco. cbn [added heap incrMisses] in Hco. apply lookup_insert_Some in Hco as [[_ <-]|[_ Hco]]; [done|]. rewrite Ha. by eapply Hc.
      * exists (mkCachedObject d None). rewrite Hh. split; [apply lookup_insert_eq|done].
      * rewrite recents_absent by done. exact Hrec.
      * intros Hcn Hq0 Hd0 Hv0. by destruct (Ht Hcn Hq0 Hd0 Hv0).
    + apply HP in E as (s1 & m & EE & Hm & Hst). subst st'.
      apply Exists_store in EE as (His' & Hq & Ha & Hx & Ht); [|done]. cbn [store cs client].
      split; [|split; [done|]].
      * split_and!; try done. split; cbn [store cs client]; [done|by apply (linked_counters (cs st))|done|].
        intros ref co v Hco Hv. cbn [store cs] in *. rewrite Ha. by eapply Hc.
      * intros Hcn Hq0 Hd0 Hv0. destruct (Ht Hcn Hq0 Hd0 Hv0). congruence.
Qed.

Lemma GetReader_kept d c s r c' s' : inv s -> GetReader B hasher d c s = (r, c', s') ->
  inv s' /\ (quiet s -> quiet s') /\ abs s' = abs s.
Proof.
  intros Hi H. unfold GetReader in H. mstep H as E; apply ctxErr_inv in E as ->; [|done].
  mstep H as E; apply lift_inv in E as (_ & -> & ->); [|done].
  pose proof (bs_Get _ _ _ _ _ _ Hi H) as (? & ? & ? & _). done.
Qed.
Lemma readThenClose_state {X A} rc (read : M Reader A) order e1 e2 c (x : X) r c' x' :
  readThenClose rc (onReader read) order e1 e2 c x = (r, c', x') -> x' = x.
Proof. unfold readThenClose, onReader. destruct (read c (rc_reader rc)) as [[? ?] ?]. intros. by simplify_eq. Qed.
Lemma Get_kept d c s r c' s' : inv s -> Store.Get B codec obj hasher d c s = (r, c', s') ->
  inv s' /\ (quiet s -> quiet s') /\ abs s' = abs s.
Proof.
  intros Hi H. unfold Store.Get, GetRaw in H.
  assert (E : exists r0 c0, GetRaw B hasher d c s = (r0, c0, s')).
  { mstep H as E; [apply lift_inv in H as (_ & _ & ->)|]; by eexists _, _. }
  destruct E as (r0 & c0 & E). unfold GetRaw in E. mstep E as E1; [apply readThenClose_state in E as ->|]; by eapply GetReader_kept.
Qed.

Lemma Load_inv ref co c (st : State) r c' st' :
  lru_inv st -> heap (cs st) !! ref = Some co -> Load B codec obj hasher ref c st = (r, c', st') ->
  kept st st' /\ recents st' = recents st /\ cache (cs st') = cache (cs st) /\
  (forall v, r = Ok v -> exists data, abs (store st) !! co_digest co = Some data /\ decodeObject codec obj data = Ok v) /\
  (forall r0, co_memo co = Some r0 -> r = r0 /\ st' = st) /\
  (co_memo co = None -> heap (cs st') !! ref = Some (mkCachedObject (co_digest co) (Some r)) /\ Loads (cs st') = wrap64 (Loads (cs st) + 1)) /\
  (forall data, co_memo co = None -> c = [] -> quiet (store st) -> hs_Validate hasher (co_digest co) = None ->
     abs (store st) !! co_digest co = Some data -> r = decodeObject codec obj data).
Proof.
  intros Hi Hco H. pose proof Hi as [His Hl Hb Hc]. unfold Load in H. erewrite bind_ok in H by reflexivity. rewrite Hco in H.
  destruct (co_memo co) as [r0|] eqn:Em.
  { apply lift_inv in H as (-> & -> & ->). split_and!; try done; [|by intros ? [= <-]]. intros v ->. by eapply Hc. }
  apply bind_attempt in H as (r1 & c1 & st1 & E & H). unfold onStore in E.
  destruct (Store.Get B codec obj hasher (co_digest co) c (store st)) as [[r2 c2] s2] eqn:EG. simplify_eq.
  munfold. unfold setCs in H. cbn in H. simplify_eq. cbn [store cs client].
  pose proof (Get_kept _ _ _ _ _ _ His EG) as (His' & Hq & Ha).
  assert (Hv : forall v, r = Ok v -> exists data, abs (store st) !! co_digest co = Some data /\ decodeObject codec obj data = Ok v).
  { intros v ->. by pose proof (Get_inv B codec obj hasher inv quiet key abs (co_digest co) c (store st) v c' s2 His EG) as (_ & _ & _ & ?). }
  assert (Hrec : recents (mkSt s2 (incrLoads (setHeap (<[ref := mkCachedObject (co_digest co) (Some r)]> (heap (cs st))) (cs st))) (client st)) = recents st).
  { unfold recents. by eapply (recent_memo _ _ _ _ _ _ Hco). }
  split_and!; try done.
  - split_and!; try done. split; cbn [store cs client]; [done|by eapply (linked_memo (cs st) _ _ ref co)|done|].
    intros ref' co' v Hco' Hm'. cbn [store cs incrLoads setHeap heap] in *. rewrite Ha.
    apply lookup_insert_Some in Hco' as [[_ <-]|[_ Hco']]; [|by eapply Hc]. cbn in Hm'. simplify_eq. by apply Hv.
  - intros _. split; [apply lookup_insert_eq|done].
  - intros data _ -> Hqs Hval Hd. destruct (Get_found B codec obj hasher inv quiet key abs (co_digest co) (store st) data His Hqs Hval Hd)
      as (s3 & E3 & _). rewrite E3 in EG. by simplify_eq.
Qed.

(** ** Every operation keeps the cache *)
Abbreviation Note := (Some (@note T)).

Lemma Load_kept ref c (st : State) r c' st' : lru_inv st -> Load B codec obj hasher ref c st = (r, c', st') -> kept st st'.
Proof.
  intros Hi H. destruct (heap (cs st) !! ref) as [co|] eqn:E; [by eapply Load_inv|].
  unfold Load in H. erewrite bind_ok in H by reflexivity. rewrite E in H. unfold throw in H. simplify_eq. by split_and!.
Qed.
Lemma MemGet_kept d c (st : State) r c' st' : lru_inv st -> CacheMem.Get B codec obj hasher Note d c st = (r, c', st') -> kept st st'.
Proof.
  intros Hi H. unfold CacheMem.Get in H. mstep H as E with ref c1 st1; apply Proxy_kept in E as [Hk _]; try done.
  apply Load_kept in H; [|apply Hk]. by eapply kept_trans.
Qed.
Lemma LruGet_kept d c (st : State) r c' st' : lru_inv st -> LruGet B codec obj hasher d c st = (r, c', st') -> kept st st'.
Proof.
  intros Hi H. unfold LruGet in H. mstep H as E with ref c1 st1; apply LruProxy_inv in E as (Hk & _); try done.
  apply Load_kept in H; [|apply Hk]. by eapply kept_trans.
Qed.
Lemma kept_refl st : lru_inv st -> kept st st.
Proof. done. Qed.

Lemma preloadRecursive_kept depth d c st seen r c' st' seen' : lru_inv st ->
  preloadRecursive B codec obj hasher Note depth d c (st, seen) = (r, c', (st', seen')) -> kept st st'.
Proof.
  revert d c st seen r c' st' seen'. induction depth as [|depth IH]; intros d c st seen r c' st' seen' Hi H; cbn [preloadRecursive] in H;
    (destruct (IsZero d); [munfold; simplify_eq; by apply kept_refl|]); erewrite bind_ok in H by reflexivity; cbn [snd] in H;
    (destruct (decide (DString d ∈ seen)); [munfold; simplify_eq; by apply kept_refl|]); erewrite bind_ok in H by reflexivity;
    (mstep H as E with o c1 st1; apply onFst_inv in E as [E _]; apply MemGet_kept in E; [|done| |done]; [|done]).
  - munfold. by simplify_eq.
  - assert (Hloop : forall l c1 st1 r c' st', kept st st1.1 ->
      forM_ l (fun ref => r ← attempt (preloadRecursive B codec obj hasher Note depth ref);
        match r with
        | Err err => if negb (errIs err ErrUnknownType) && negb (errIs err ErrNotFound) then throw err else mret tt
        | Ok _ => mret tt
        end) c1 st1 = (r, c', st') -> kept st st'.1).
    { clear H. intros l c2 st2 r2 c2' st2' Hk2 H. eapply (forM_inv (fun x => kept st x.1)); [|exact Hk2|exact H].
      intros x c3 s3 r3 c3' s3' _ Hk3 H3. apply bind_attempt in H3 as (r4 & c4 & [s4 seen4] & E4 & H4). destruct s3 as [s3 seen3].
      apply IH in E4; [|apply Hk3]. assert (Es : s3' = (s4, seen4)) by (munfold; repeat case_match; by simplify_eq). subst s3'.
      by eapply kept_trans. }
    by apply Hloop in H.
Qed.

Lemma feed_state ds c (st : State) r c' st' : feed ds c st = (r, c', st') -> st' = st.
Proof.
  revert c r c' st'. induction ds as [|d ds IH]; intros c r c' st' H; cbn [feed] in H; [munfold; by simplify_eq|].
  apply bind_attempt in H as (r0 & c0 & st0 & E & H). apply ctxErr_inv in E as ->. destruct r0; [|munfold; by simplify_eq].
  apply bind_attempt in H as (r1 & c1 & st1 & E & H). apply ctxErr_inv in E as ->. destruct r1; [|munfold; by simplify_eq].
  mstep H as E; [|by eapply IH]. apply IH in E as ->. munfold. by simplify_eq.
Qed.
Lemma loadAll_kept schedule ds tolerate c (st : State) r c' st' : lru_inv st ->
  loadAll B codec obj hasher Note schedule ds tolerate c st = (r, c', st') -> kept st st'.
Proof.
  intros Hi H. unfold loadAll in H. destruct ds as [|d ds]; [munfold; simplify_eq; by apply kept_refl|].
  mstep H as E with fed c1 st1; apply feed_state in E as ->; [|by apply kept_refl].
  mstep H as E with errs c2 st2.
  - apply (foldM_state (kept st)) in E; [|intros|by apply kept_refl].
    + apply bind_attempt in H as (r3 & c3 & st3 & E3 & H). apply ctxErr_inv in E3 as ->.
      assert (st' = st2) as -> by (munfold; repeat case_match; by simplify_eq). done.
    + match goal with H : (attempt _ ≫= _) _ _ = _ |- _ => apply bind_attempt in H as (r3 & c3 & st3 & E3 & H3) end.
      apply MemGet_kept in E3; [|by match goal with H : kept st _ |- _ => apply H end]. munfold. simplify_eq. by eapply kept_trans.
  - apply (foldM_state (kept st)) in E; [done|intros|by apply kept_refl].
    match goal with H : (attempt _ ≫= _) _ _ = _ |- _ => apply bind_attempt in H as (r3 & c3 & st3 & E3 & H3) end.
    apply MemGet_kept in E3; [|by match goal with H : kept st _ |- _ => apply H end]. munfold. simplify_eq. by eapply kept_trans.
Qed.

Lemma forget_inv (st : State) (k : bytes) (c : CachedStore T) :
  lru_inv st -> heap c = heap (cs st) -> next c = next (cs st) -> cache c = delete k (cache (cs st)) ->
  lru_inv (mkSt (store st) c (forget k (client st))) /\ maxSize (forget k (client st)) = maxSize (client st) /\
  forall d, k = DString d -> recent c (recency (forget k (client st))) = filter (fun x => x <> d) (recents st).
Proof.
  intros [His Hl Hb Hc] Hh Hn Hca.
  assert (Hco : coherent (mkSt (store st) c (forget k (client st)))).
  { intros ref co v Hco Hv. cbn [store cs] in *. rewrite Hh in Hco. by eapply Hc. }
  unfold forget in *. rewrite (lk_index _ _ Hl) in *. destruct (cache (cs st) !! k) as [el|] eqn:Ek.
  - destruct (lk_co _ _ Hl _ _ Ek) as (co & Eco & Ekey). pose proof (linked_remove _ _ _ _ _ Hl Ek Eco) as Hl'.
    rewrite (lk_index _ _ Hl) in Hl'. split; [|split; [done|]].
    + split; cbn [store cs client]; [done| | |done].
      * apply (linked_counters (EvictKey k (cs st))); done.
      * destruct Hb. split; [done|]. cbn [recency maxSize]. unfold ListRemove.
        pose proof (list.length_filter (fun x => x <> el) (recency (client st))). lia.
    + intros d ->. cbn [recency]. unfold ListRemove, recents. rewrite <- (recent_filter (cs st) (client st) (recency (client st)) d el Hl); [|done|done].
      apply recent_ext. intros x _. by rewrite Hh.
  - rewrite delete_id in Hca by done. split; [|split; [done|]].
    + split; cbn [store cs client]; [done|by apply (linked_counters (cs st))|done|done].
    + intros d ->. rewrite recents_absent by done. apply recent_ext. intros x _. by rewrite Hh.
Qed.
Lemma LruEvict_kept d c (st : State) r c' st' : lru_inv st -> LruEvict d c st = (r, c', st') ->
  kept st st' /\ recents st' = filter (fun x => x <> d) (recents st).
Proof.
  intros Hi H. unfold LruEvict, onCache, modify in H. simplify_eq.
  destruct (forget_inv st (DString d) (Evict d (cs st)) Hi) as (Hi' & Hm & Hr).
  1-3: unfold Evict; destruct (cache (cs st) !! DString d) eqn:E; try done; by rewrite delete_id.
  split; [by split_and!|]. by apply Hr.
Qed.
Lemma LruEvictKey_kept k c (st : State) r c' st' : lru_inv st -> LruEvictKey k c st = (r, c', st') -> kept st st'.
Proof.
  intros Hi H. unfold LruEvictKey, onCache, modify in H. simplify_eq.
  destruct (forget_inv st k (EvictKey k (cs st)) Hi eq_refl eq_refl eq_refl) as (Hi' & Hm & _). by split_and!.
Qed.
Lemma LruClear_kept c (st : State) r c' st' : lru_inv st -> LruClear c st = (r, c', st') -> kept st st' /\ recents st' = [].
Proof.
  intros Hi H. unfold LruClear, onCache, modify in H. simplify_eq. destruct Hi as [His Hl Hb Hc]. split; [|done].
  split_and!; try done. split; cbn [store cs client]; [done| |split; [apply Hb|cbn; destruct Hb; lia]|done].
  split; cbn; [done|constructor| |done|apply Hl]. intros ref. rewrite elem_of_nil. split; [done|by intros (? & ?%lookup_empty_Some)].
Qed.

(** One call of the cache's interface, under any context and with any outcome;
    a caller may load any object it was ever handed. *)
Inductive lru_step : State -> State -> Prop :=
  | step_Get d c st r c' st' : LruGet B codec obj hasher d c st = (r, c', st') -> lru_step st st'
  | step_Proxy d c st r c' st' : LruProxy B hasher d c st = (r, c', st') -> lru_step st st'
  | step_Load ref c st r c' st' : Load B codec obj hasher ref c st = (r, c', st') -> lru_step st st'
  | step_Evict d c st r c' st' : LruEvict d c st = (r, c', st') -> lru_step st st'
  | step_EvictKey k c st r c' st' : LruEvictKey k c st = (r, c', st') -> lru_step st st'
  | step_Clear c st r c' st' : LruClear c st = (r, c', st') -> lru_step st st'
  | step_Preload schedule ds c st r c' st' : LruPreload B codec obj hasher schedule ds c st = (r, c', st') -> lru_step st st'
  | step_Warmup schedule ds c st r c' st' : LruWarmup B codec obj hasher schedule ds c st = (r, c', st') -> lru_step st st'
  | step_PreloadRecursive d n c st r c' st' : LruPreloadRecursive B codec obj hasher d n c st = (r, c', st') -> lru_step st st'.

Lemma lru_step_kept st st' : lru_inv st -> lru_step st st' -> kept st st'.
Proof.
  intros Hi Hs. destruct Hs as [| | | | | | | |d n c st r c' st' H].
  - by eapply LruGet_kept.
  - by eapply LruProxy_inv.
  - by eapply Load_kept.
  - by eapply LruEvict_kept.
  - by eapply LruEvictKey_kept.
  - by eapply LruClear_kept.
  - by eapply loadAll_kept.
  - by eapply loadAll_kept.
  - unfold LruPreloadRecursive, PreloadRecursive in H. destruct (preloadRecursive _ _ _ _ _ _ _ _ _) as [[r1 c1] [st1 seen]] eqn:E.
    simplify_eq. by eapply preloadRecursive_kept.
Qed.

Lemma NewCache_inv maxSize c l s : @NewCache T maxSize = Ok (c, l) -> inv s -> lru_inv (mkSt s c l) /\ CacheLru.maxSize l = maxSize.
Proof.
  unfold NewCache, ValidateMaxSize. munfold. destruct (Z.leb_spec maxSize 0); [done|]. intros [= <- <-] Hs. split; [|done].
  split; cbn [store cs client]; [done| |split; cbn; lia|intros ref co v Hco; cbn in Hco; by rewrite lookup_empty in Hco].
  split; cbn; [done|constructor| |by intros ? ? ?%lookup_empty_Some|by intros ? ? ?%lookup_empty_Some].
  intros ref. rewrite elem_of_nil. split; [done|by intros (? & ?%lookup_empty_Some)].
Qed.

(** C22. The cache never outgrows its bound.  After any sequence of calls of its
    interface, under any contexts and whatever they return, the map and the
    recency list hold the same entries, no more than [maxSize] of them, and every
    value in the cache is what the store decodes for its digest, in a store whose
    objects the cache never changed. *)
Theorem lru_stays_bounded (maxSize : Z) (c : CachedStore T) (l : LRU) (s : S) (st : State) :
  NewCache maxSize = Ok (c, l) -> inv s -> rtc lru_step (mkSt s c l) st ->
  st_Size (LruCacheStats st) <= maxSize /\ abs (store st) = abs s /\
  (forall d, d ∈ recents st <-> is_Some (LruLookup (DString d) st)) /\ NoDup (recents st) /\
  (forall d ref co v, LruLookup (DString d) st = Some ref -> heap (cs st) !! ref = Some co -> co_memo co = Some (Ok v) ->
     exists data, abs s !! d = Some data /\ decodeObject codec obj data = Ok v).
Proof.
  intros HN Hs Hr. destruct (NewCache_inv _ _ _ s HN Hs) as [Hi0 Hm0].
  assert (Hk : kept (mkSt s c l) st).
  { revert Hi0. clear -HB Hr. induction Hr as [|x y z Hxy _ IH]; intros Hi; [done|].
    pose proof (lru_step_kept _ _ Hi Hxy) as Hk. eapply kept_trans; [done|]. apply IH, Hk. }
  destruct Hk as (Hi & _ & Ha & Hm). cbn [store client] in Ha, Hm. pose proof (li_linked _ Hi) as Hl.
  assert (Hnd : NoDup (recents st)).
  { unfold recents, recent. apply NoDup_omap; [apply (lk_nodup _ _ Hl)|]. intros x y d Hx Hy Ex Ey.
    destruct (linked_digest _ _ x Hl Hx) as (cx & Ecx & Hcx), (linked_digest _ _ y Hl Hy) as (cy & Ecy & Hcy).
    rewrite Ecx in Ex. rewrite Ecy in Ey. cbn in Ex, Ey. simplify_eq. congruence. }
  split_and!.
  - cbn [LruCacheStats CacheStats_ st_Size]. destruct (li_bounded _ Hi) as [_ Hb]. rewrite Hm, Hm0 in Hb.
    etrans; [|exact Hb]. apply Nat2Z.inj_le. by apply linked_size.
  - done.
  - intros d. by apply elem_of_recent.
  - done.
  - intros d ref co v Hlk Hco Hv. destruct (lk_co _ _ Hl _ _ Hlk) as (co' & Eco & Ek). rewrite Eco in Hco. simplify_eq.
    rewrite <- Ha. by eapply li_coherent.
Qed.

(** A read through the cache is a read of the store, and the most recent.
    Whatever the context: what Get returns is the stored object of its digest; a
    value already loaded is returned without touching the store; a digest not
    cached gets, with the background context and a quiet medium, exactly the
    store's own answer, errors of decoding included; the digest read becomes the
    most recent and the rest keep their order up to the bound; and a call that
    could not find it leaves the order alone. *)
Theorem lru_Get_spec (d : Digest) (c c' : ctx) (st st' : State) (r : res T) :
  lru_inv st -> LruGet B codec obj hasher d c st = (r, c', st') ->
  lru_inv st' /\ abs (store st') = abs (store st) /\
  (forall v, r = Ok v -> exists data, abs (store st) !! d = Some data /\ decodeObject codec obj data = Ok v) /\
  (forall ref co v, LruLookup (DString d) st = Some ref -> heap (cs st) !! ref = Some co -> co_memo co = Some (Ok v) ->
     r = Ok v /\ store st' = store st) /\
  (forall data, LruLookup (DString d) st = None -> c = [] -> quiet (store st) -> hs_Validate hasher d = None ->
     abs (store st) !! d = Some data -> r = decodeObject codec obj data) /\
  (let fresh := take (Z.to_nat (maxSize (client st))) (d :: filter (fun x => x <> d) (recents st)) in
   (is_ok r = true -> recents st' = fresh) /\ (recents st' = fresh \/ (is_ok r = false /\ recents st' = recents st))).
Proof.
  intros Hi H. unfold LruGet in H. mstep H as E with ref c1 st1; pose proof E as (Hk & Hr & Ht)%LruProxy_inv; try done.
  - destruct Hr as ((co & Eco & Ed & Hmemo) & Hrec). pose proof Hk as (Hi1 & Hq1 & Ha1 & Hm1).
    pose proof (Load_inv _ _ _ _ _ _ _ Hi1 Eco H) as ((Hi' & _ & Ha' & _) & Hrec' & _ & Hv & Hhit & _ & Hlive).
    rewrite Ed in Hv, Hlive. rewrite Ha1 in Hv, Hlive. rewrite Ha', Hrec', Hrec. split_and!; try done; [| |split; [done|by left]].
    + intros ref0 co0 v Hlk Hco0 Hm0. destruct (LruProxy_hit d c st ref0 Hlk) as (st0 & E0 & Es & Eh).
      rewrite E0 in E. simplify_eq. rewrite Eh, Hco0 in Eco. simplify_eq. destruct (Hhit _ Hm0) as [-> ->]. done.
    + intros data Hlk -> Hqs Hval Hd. destruct (Ht eq_refl Hqs) as [_ ->]; [by eexists|done|].
      apply (Hlive data); auto.
  - destruct Hr as (Hrec & Hca & Hh). destruct Hk as (Hi' & _ & Ha' & _). rewrite Ha', Hrec. split_and!; try done.
    + intros ref0 co0 v Hlk _ _. destruct (LruProxy_hit d c st ref0 Hlk) as (st0 & E0 & _). by rewrite E0 in E.
    + intros data Hlk -> Hqs Hval Hd. destruct (Ht eq_refl Hqs) as [? _]; [by eexists|done|done].
    + split; [done|by right].
Qed.
End Spec.

(** ** Two objects and room for one *)
Definition lruObject (v : bytes) : Digest * bytes :=
  match encoded rawCodec rawObject sumHasher v with Ok p => p | Err _ => ([], []) end.
Definition hi := lruObject (str "hi").
Definition ho := lruObject (str "ho").
Definition lruStore : Mem.Mem := Mem.mkMem {[hi.1 := hi.2; ho.1 := ho.2]} 0 (blen hi.2 + blen ho.2).
Lemma lruStore_inv : Mem.inv lruStore.
Proof. split; vm_compute; try reflexivity; intros; discriminate. Qed.
Definition lruEmpty : St Mem.Mem bytes LRU := mkSt lruStore CacheMem.New (mkLRU 1 [] ∅).
Definition lruRead (d : Digest) (st : St Mem.Mem bytes LRU) := LruGet Mem.Backend rawCodec rawObject sumHasher d [] st.

Lemma lruRead_step d st : lru_step Mem.Backend rawCodec rawObject sumHasher st (run_st (lruRead d st)).
Proof. destruct (lruRead d st) as [[r c'] st'] eqn:E. by apply (step_Get _ _ _ _ d [] st r c' st'). Qed.

Example lru_stays_bounded_witness :
  let st := run_st (lruRead ho.1 (run_st (lruRead hi.1 lruEmpty))) in
  st_Size (LruCacheStats st) <= 1 /\ recents st = [ho.1] /\ is_Some (LruLookup (DString ho.1) st).
Proof.
  set (st := run_st _).
  destruct (lru_stays_bounded Mem.Backend rawCodec rawObject sumHasher Mem.inv (fun _ => True) Mem.key Mem.objects
    (HB := Mem.mem_BackendSpec) 1 CacheMem.New (mkLRU 1 [] ∅) lruStore st eq_refl lruStore_inv) as (H & _ & Hl & _).
  - eapply rtc_l; [apply lruRead_step|]. eapply rtc_l; [apply lruRead_step|apply rtc_refl].
  - assert (E : recents st = [ho.1]) by (vm_compute; reflexivity).
    split_and!; [exact H|exact E|]. apply Hl. rewrite E. left.
Defined.

Example lru_Get_spec_witness :
  run_res (lruRead ho.1 lruEmpty) = Ok (str "ho") /\ recents (run_st (lruRead ho.1 lruEmpty)) = [ho.1].
Proof.
  destruct (lruRead ho.1 lruEmpty) as [[r c'] st'] eqn:E.
  destruct (lru_Get_spec Mem.Backend rawCodec rawObject sumHasher Mem.inv (fun _ => True) Mem.key Mem.objects
    (HB := Mem.mem_BackendSpec) ho.1 [] c' lruEmpty st' r) as (_ & _ & _ & _ & Hr & Hrec & _).
  - eapply (NewCache_inv _ _ _ _ 1); [reflexivity|apply lruStore_inv].
  - exact E.
  - assert (Hok : r = Ok (str "ho")).
    { rewrite (Hr ho.2); vm_compute; reflexivity. }
    split; [exact Hok|]. cbn [run_st snd]. rewrite Hrec; [vm_compute; reflexivity|by rewrite Hok].
Defined.
