(* ===== verification/Cbor.v ===== *)
(** The CBOR codec (src/cas/codec/cbor/cbor.go): the value model, the encoder,
    the bounded decoder and the codec over them. *)

From Stdlib Require Import SpecFloat.
From S2P Require Import Prelude Digest Binary Stream Envelope Backend Store Float64.
#[local] Set Warnings "-register-all".

Module Cbor.
(** ** Values

    A value of Go's [any]: the dynamic type and what it holds.  A nil slice and
    an empty one are not told apart; a nil map is [None]; [VOther] is a value
    of any type the encoder's switch does not list. *)
Inductive intType := TInt | TInt8 | TInt16 | TInt32 | TInt64.
Inductive uintType := TUint | TUint8 | TUint16 | TUint32 | TUint64.
Inductive any :=
  | VNil
  | VBool (b : bool)
  | VInt (t : intType) (z : Z)
  | VUint (t : uintType) (z : Z)
  | VFloat32 (f : spec_float)
  | VFloat64 (f : float64)
  | VString (s : bytes)
  | VBytes (b : bytes)
  | VStrings (l : list bytes)
  | VArray (l : list any)
  | VMap (m : option (gmap bytes any))
  | VStringMap (m : gmap bytes bytes)
  | VOther.

Definition intBits (t : intType) : Z := match t with TInt8 => 8 | TInt16 => 16 | TInt32 => 32 | TInt | TInt64 => 64 end.
Definition uintBits (t : uintType) : Z := match t with TUint8 => 8 | TUint16 => 16 | TUint32 => 32 | TUint | TUint64 => 64 end.

(** ** Encoding *)
Definition appendMajor (dst : bytes) (mt length : Z) : bytes :=
  let head (ai : Z) := z2b (Z.lor (Z.shiftl mt 5) ai) in
  if length <? 24 then dst ++ [head length]
  else if length <=? 2 ^ 8 - 1 then dst ++ head 24 :: be_put 1 length
  else if length <=? 2 ^ 16 - 1 then dst ++ head 25 :: be_put 2 length
  else if length <=? 2 ^ 32 - 1 then dst ++ head 26 :: be_put 4 length
  else dst ++ head 27 :: be_put 8 length.

Definition appendBytes (dst data : bytes) : bytes := appendMajor dst 2 (wrap64 (blen data)) ++ data.
Definition appendStringBytes (dst data : bytes) : bytes := appendMajor dst 3 (wrap64 (blen data)) ++ data.
Definition encodeInt64Into (dst : bytes) (v : Z) : res bytes :=
  if 0 <=? v then Ok (appendMajor dst 0 (wrap64 v))
  else Ok (appendMajor dst 1 (wrap64 (int64 (- int64 (v + 1))))).
Definition encodeUint64Into (dst : bytes) (v : Z) : res bytes := Ok (appendMajor dst 0 v).
Definition encodeFloat64Into (dst : bytes) (v : float64) : res bytes :=
  if IsNaN v || IsInf v then Err (New "cbor: unsupported float value %v")
  else Ok ((dst ++ [xfb]) ++ be_put 8 (Float64bits v)).

(** The items are given by what appending each of them does, which is how the
    recursion of [appendEncodedValue] reaches them. *)
Fixpoint appendItems (items : list (bytes -> res bytes)) (dst : bytes) : res bytes :=
  match items with
  | [] => Ok dst
  | item :: items => dst ← item dst; appendItems items dst
  end.
Definition appendArrayValue (dst : bytes) (items : list (bytes -> res bytes)) : res bytes :=
  appendItems items (appendMajor dst 4 (wrap64 (blen items))).

Fixpoint appendPairs (v : gmap bytes (bytes -> res bytes)) (keys : list bytes) (dst : bytes) : res bytes :=
  match keys with
  | [] => Ok dst
  | key :: keys =>
    let dst := appendStringBytes dst key in
    dst ← match v !! key with Some value => value dst | None => Ok (dst ++ [xf6]) end;
    appendPairs v keys dst
  end.
Definition appendMapValue (dst : bytes) (v : option (gmap bytes (bytes -> res bytes))) : res bytes :=
  match v with
  | None => Ok (appendMajor dst 5 0)
  | Some v =>
    let keys := sortBytes (elements (dom v)) in
    appendPairs v keys (appendMajor dst 5 (wrap64 (blen keys)))
  end.

Fixpoint appendEncodedValue (dst : bytes) (v : any) {struct v} : res bytes :=
  match v with
  | VNil => Ok (dst ++ [xf6])
  | VBool true => Ok (dst ++ [xf5])
  | VBool false => Ok (dst ++ [xf4])
  | VInt _ x => encodeInt64Into dst x
  | VUint _ x => encodeUint64Into dst x
  | VFloat32 x => encodeFloat64Into dst (widen x)
  | VFloat64 x => encodeFloat64Into dst x
  | VString x => Ok (appendStringBytes dst x)
  | VBytes x => Ok (appendBytes dst x)
  | VStrings x => appendArrayValue dst (map (fun s dst => Ok (appendStringBytes dst s)) x)
  | VArray x => appendArrayValue dst (map (fun item dst => appendEncodedValue dst item) x)
  | VMap x => appendMapValue dst (match x with Some m => Some ((fun value dst => appendEncodedValue dst value) <$> m) | None => None end)
  | VStringMap x => appendMapValue dst (Some ((fun s dst => Ok (appendStringBytes dst s)) <$> x))
  | VOther => Err (New "cbor: unsupported value type %T")
  end.
Definition encodeAny (v : any) : res bytes := appendEncodedValue [] v.
Definition encodeMapValue (v : option (gmap bytes any)) : res bytes := appendEncodedValue [] (VMap v).

(** ** Decoding *)
Definition MaxDepth : nat := 128.

Definition halfToFloat64 (bits : Z) : float64 :=
  let negative := negb (Z.land bits 32768 =? 0) in
  let exp := Z.land (Z.shiftr bits 10) 31 in
  let frac := f64 (Z.land bits 1023) in
  if exp =? 31 then
    if Z.land bits 1023 =? 0 then (if negative then f64_opp (S754_infinity false) else S754_infinity false) else S754_nan
  else
    let v := if exp =? 0 then Ldexp frac (-24) else Ldexp (f64_add f64_one (f64_div frac (f64 1024))) (exp - 15) in
    if negative then f64_opp v else v.

(** The value of the big-endian argument after the first byte, and where the
    payload starts. *)
Definition readLength (data : bytes) (pos : nat) (ai : Z) : res (Z * nat) :=
  let be (n : nat) := if (length data <? n)%nat then Err (New "cbor: truncated length") else Ok (be_get (take n data), (pos + n)%nat) in
  if ai <? 24 then Ok (ai, pos)
  else if ai =? 24 then be 1%nat
  else if ai =? 25 then be 2%nat
  else if ai =? 26 then be 4%nat
  else if ai =? 27 then be 8%nat
  else Err (New "cbor: unsupported length encoding %d").

(** Major type 7. *)
Definition decodeSimple (data : bytes) (addl : Z) : res (any * bytes) :=
  if addl =? 20 then Ok (VBool false, drop 1 data)
  else if addl =? 21 then Ok (VBool true, drop 1 data)
  else if addl =? 22 then Ok (VNil, drop 1 data)
  else if addl =? 25 then
    if (length data <? 3)%nat then Err (New "cbor: truncated float16")
    else Ok (VFloat64 (halfToFloat64 (be_get (take 2 (drop 1 data)))), drop 3 data)
  else if addl =? 26 then
    if (length data <? 5)%nat then Err (New "cbor: truncated float32")
    else Ok (VFloat64 (widen (frombits 23 8 (be_get (take 4 (drop 1 data))))), drop 5 data)
  else if addl =? 27 then
    if (length data <? 9)%nat then Err (New "cbor: truncated float64")
    else Ok (VFloat64 (Float64frombits (be_get (take 8 (drop 1 data)))), drop 9 data)
  else Err (New "cbor: unsupported simple value %d").

Section Containers.
Variable decode : bytes -> res (any * bytes).
Variable data : bytes.

Fixpoint decodeItems (count : nat) (items : list any) (cursor : nat) : res (list any * nat) :=
  match count with
  | O => Ok (items, cursor)
  | S count =>
    '(item, rest) ← decode (drop cursor data);
    decodeItems count (items ++ [item]) (length data - length rest)
  end.
Fixpoint decodePairs (count : nat) (m : gmap bytes any) (cursor : nat) : res (gmap bytes any * nat) :=
  match count with
  | O => Ok (m, cursor)
  | S count =>
    '(key, rest) ← decode (drop cursor data);
    match key with
    | VString keyStr =>
      '(value, rest2) ← decode rest;
      decodePairs count (<[keyStr := value]> m) (length data - length rest2)
    | _ => Err (New "cbor: map key must be a string")
    end
  end.

(** What follows a head of [headerLen] bytes. *)
Definition decodePayload (major length : Z) (headerLen : nat) : res (any * bytes) :=
  let payloadStart := headerLen in
  let truncated := blen data - Z.of_nat payloadStart <? length in
  if major =? 0 then
    if MaxInt64 <? length then Err (Errorf "%w: unsigned %d exceeds MaxInt64" ErrIntegerRange)
    else Ok (VInt TInt64 (int64 length), drop headerLen data)
  else if major =? 1 then
    if MaxInt64 <? length then Err (Errorf "%w: negated %d is below MinInt64" ErrIntegerRange)
    else Ok (VInt TInt64 (int64 (-1 - int64 length)), drop headerLen data)
  else if truncated then Err (New "cbor: truncated value")
  else if major =? 2 then Ok (VBytes (take (Z.to_nat length) (drop payloadStart data)), drop (payloadStart + Z.to_nat length) data)
  else if major =? 3 then Ok (VString (take (Z.to_nat length) (drop payloadStart data)), drop (payloadStart + Z.to_nat length) data)
  else if major =? 4 then
    '(items, cursor) ← decodeItems (Z.to_nat length) [] payloadStart;
    Ok (VArray items, drop cursor data)
  else if major =? 5 then
    '(m, cursor) ← decodePairs (Z.to_nat length) ∅ payloadStart;
    Ok (VMap (Some m), drop cursor data)
  else Err (New "cbor: unsupported major type %d").
End Containers.

(** [levels] is how many more levels may be entered: MaxDepth + 1 - depth. *)
Fixpoint decodeOne (levels : nat) (data : bytes) : res (any * bytes) :=
  match levels with
  | O => Err ErrTooDeep
  | S levels =>
    match data with
    | [] => Err (New "cbor: unexpected end of input")
    | b :: tail =>
      let major := Z.shiftr (b2z b) 5 in
      let addl := Z.land (b2z b) 31 in
      if major =? 7 then decodeSimple data addl
      else
        '(length, headerLen) ← readLength tail 1 addl;
        decodePayload (decodeOne levels) data major length headerLen
    end
  end.

Definition decodeAny (data : bytes) : res any :=
  '(value, rest) ← decodeOne (S MaxDepth) data;
  match rest with
  | [] => Ok value
  | _ => Err (New "cbor: trailing data")
  end.
Definition decodeMapValue (data : bytes) : res (option (gmap bytes any)) :=
  value ← decodeAny data;
  match value with
  | VMap m => Ok m
  | _ => Err (New "cbor: expected map[string]any, got %T")
  end.

(** ** The codec: an inner codec, or the caller's conversions *)
Section CodecStack.
Context {T : Type}.
Record Codec := mkCodec { next : option (Store.Codec T); encode : option (T -> res bytes); decode : option (bytes -> res T) }.

Definition errCodecStack : error := New "cbor: an inner codec and conversion functions cannot both be set; use NewRaw for the conversion, or cas/codec/binary to transform an inner codec's bytes".
Definition errNilEncode : error := New "cbor: encode func is nil".
Definition errNilDecode : error := New "cbor: decode func is nil".

Definition New_ (next : option (Store.Codec T)) (encode : option (T -> res bytes)) (decode : option (bytes -> res T)) : Codec :=
  mkCodec next encode decode.
Definition NewRaw (encode : T -> res bytes) (decode : bytes -> res T) : Codec := mkCodec None (Some encode) (Some decode).

Definition Encode (c : Codec) (v : T) : res bytes :=
  match encode c, next c with
  | Some _, Some _ => Err errCodecStack
  | Some enc, None => enc v
  | None, Some next => cd_Encode next v
  | None, None => Err errNilEncode
  end.
Definition Decode (c : Codec) (data : bytes) : res T :=
  match decode c, next c with
  | Some _, Some _ => Err errCodecStack
  | Some dec, None => dec data
  | None, Some next => cd_Decode next data
  | None, None => Err errNilDecode
  end.
Definition CodecName (c : Codec) : bytes :=
  match encode c, next c with
  | None, Some next => default [] (cd_Name next)
  | _, _ => str "cbor"
  end.
(** The codec as the store sees it. *)
Definition asCodec (c : Codec) : Store.Codec T := Store.mkCodec (Encode c) (Decode c) (Some (CodecName c)).
End CodecStack.
Arguments Codec : clear implicits.

Definition NewValue : Codec any := NewRaw encodeAny decodeAny.
Definition NewMap : Codec (option (gmap bytes any)) := NewRaw encodeMapValue decodeMapValue.

(** ** What the values are

    The range each Go type imposes, and the shapes a decode can give. *)
Definition lenOk (n : nat) : bool := Z.of_nat n <? 2 ^ 63.
Fixpoint wellTyped (v : any) : bool :=
  match v with
  | VNil | VBool _ | VOther => true
  | VInt t z => (- 2 ^ (intBits t - 1) <=? z) && (z <? 2 ^ (intBits t - 1))
  | VUint t z => (0 <=? z) && (z <? 2 ^ uintBits t)
  | VFloat32 f => f64_valid (widen f)
  | VFloat64 f => f64_valid f
  | VString s | VBytes s => lenOk (length s)
  | VStrings l => lenOk (length l) && forallb (fun s => lenOk (length s)) l
  | VArray l => lenOk (length l) && forallb wellTyped l
  | VMap None => true
  | VMap (Some m) => lenOk (size m) && map_fold (fun k v acc => lenOk (length k) && wellTyped v && acc) true m
  | VStringMap m => lenOk (size m) && map_fold (fun k s acc => lenOk (length k) && lenOk (length s) && acc) true m
  end.

(** The value a decode gives back for an encoded one: integers become int64,
    floats float64, the string containers the generic ones. *)
Fixpoint canon (v : any) : any :=
  match v with
  | VInt _ z | VUint _ z => VInt TInt64 z
  | VFloat32 f => VFloat64 (widen f)
  | VStrings l => VArray (map VString l)
  | VArray l => VArray (map canon l)
  | VMap None => VMap (Some ∅)
  | VMap (Some m) => VMap (Some (canon <$> m))
  | VStringMap m => VMap (Some (VString <$> m))
  | v => v
  end.

Fixpoint supported (v : any) : bool :=
  match v with
  | VFloat32 f => negb (IsNaN (widen f) || IsInf (widen f))
  | VFloat64 f => negb (IsNaN f || IsInf f)
  | VArray l => forallb supported l
  | VMap (Some m) => map_fold (fun _ v acc => supported v && acc) true m
  | VOther => false
  | _ => true
  end.

(** How many containers lie on the way to the innermost value, an empty
    container being no level of its own; and whether every unsigned integer is
    an int64. *)
Fixpoint depthOf (v : any) : nat :=
  match v with
  | VStrings l => match l with [] => 0 | _ => 1 end
  | VArray l => foldr (fun v acc => Nat.max (S (depthOf v)) acc) 0%nat l
  | VMap (Some m) => map_fold (fun _ v acc => Nat.max (S (depthOf v)) acc) 0%nat m
  | VStringMap m => if decide (m = ∅) then 0 else 1
  | _ => 0
  end.
Fixpoint inRange (v : any) : bool :=
  match v with
  | VUint _ z => z <=? MaxInt64
  | VArray l => forallb inRange l
  | VMap (Some m) => map_fold (fun _ v acc => inRange v && acc) true m
  | _ => true
  end.

(** ** Containers of values *)
Lemma map_allb {A} (f : bytes -> A -> bool) m :
  map_fold (fun k v acc => f k v && acc) true m = true <-> map_Forall (fun k v => f k v = true) m.
Proof.
  apply (map_fold_weak_ind (fun r m => r = true <-> map_Forall (fun k v => f k v = true) m)).
  - split; [intros _; apply map_Forall_empty|done].
  - intros i x m' r Hi IH. rewrite andb_true_iff, IH. by rewrite map_Forall_insert.
Qed.
Lemma map_maxb {A} (g : A -> nat) (m : gmap bytes A) n :
  (map_fold (fun _ v acc => Nat.max (S (g v)) acc) 0 m <= n)%nat <-> map_Forall (fun _ v => (g v < n)%nat) m.
Proof.
  apply (map_fold_weak_ind (fun r m => (r <= n)%nat <-> map_Forall (fun _ v => (g v < n)%nat) m)).
  - split; [intros _; apply map_Forall_empty|lia].
  - intros i x m' r Hi IH. rewrite map_Forall_insert by done. rewrite <- IH. lia.
Qed.
Lemma list_maxb {A} (g : A -> nat) (l : list A) n :
  (foldr (fun v acc => Nat.max (S (g v)) acc) 0 l <= n)%nat <-> Forall (fun v => (g v < n)%nat) l.
Proof. induction l as [|x l IH]; simpl; [split; [constructor|lia]|]. rewrite Forall_cons_iff, <- IH. lia. Qed.
Lemma forallb_Forall' {A} (f : A -> bool) l : forallb f l = true <-> Forall (fun x => f x = true) l.
Proof. rewrite forallb_forall, list.Forall_forall. setoid_rewrite <- list_elem_of_In. done. Qed.

Lemma any_ind' (P : any -> Prop) :
  (forall v, match v with VArray _ | VMap (Some _) => True | _ => P v end) ->
  (forall l, Forall P l -> P (VArray l)) ->
  (forall m, map_Forall (fun _ v => P v) m -> P (VMap (Some m))) ->
  forall v, P v.
Proof.
  intros H0 Hl Hm. assert (Hn : forall n v, (depthOf v < n)%nat -> P v); [|intros v; apply (Hn (S (depthOf v))); lia].
  induction n as [|n IH]; [lia|]. intros v Hv. pose proof (H0 v) as Hv0. destruct v as [| | | | | | | | |l|[m|]| |]; try done.
  - apply Hl. assert (Hd : (depthOf (VArray l) <= n)%nat) by lia. apply list_maxb in Hd. eapply list.Forall_impl; [exact Hd|exact IH].
  - apply Hm. assert (Hd : (depthOf (VMap (Some m)) <= n)%nat) by lia. apply (map_maxb depthOf) in Hd.
    by eapply map_Forall_impl.
Qed.

(** ** Heads *)
Definition outOfModel {A} (r : res A) : Prop := exists e, r = Err e /\ (errIs e ErrTooDeep = true \/ errIs e ErrIntegerRange = true).

Lemma head_byte mt ai : 0 <= mt < 8 -> 0 <= ai < 32 ->
  Z.shiftr (b2z (z2b (Z.lor (Z.shiftl mt 5) ai))) 5 = mt /\ Z.land (b2z (z2b (Z.lor (Z.shiftl mt 5) ai))) 31 = ai.
Proof.
  intros Hm Ha. rewrite lor_shiftl_add by lia. rewrite b2z_z2b_small by lia. split.
  - rewrite Z.shiftr_div_pow2 by lia. zlia.
  - change 31 with (Z.ones 5). rewrite Z.land_ones by lia. zlia.
Qed.
Lemma readLength_ext data pos k ai : (k, ai) ∈ [(1%nat, 24); (2%nat, 25); (4%nat, 26); (8%nat, 27)] ->
  readLength data pos ai = if (length data <? k)%nat then Err (New "cbor: truncated length") else Ok (be_get (take k data), (pos + k)%nat).
Proof. intros Hin. repeat (apply elem_of_cons in Hin as [[= -> ->]|Hin]; [reflexivity|]). by apply elem_of_nil in Hin. Qed.
(** What [appendMajor] appends, and how it reads back. *)
Lemma appendMajor_spec dst mt n : 0 <= mt < 8 -> 0 <= n < 2 ^ 64 ->
  exists b ext, appendMajor dst mt n = dst ++ b :: ext /\ Z.shiftr (b2z b) 5 = mt /\
    forall rest, readLength (ext ++ rest) 1 (Z.land (b2z b) 31) = Ok (n, length (b :: ext)).
Proof.
  intros Hm Hn. unfold appendMajor.
  assert (Hext : forall k ai, 0 <= ai < 32 -> 24 <= ai -> n < 2 ^ (8 * Z.of_nat k) ->
    (k, ai) ∈ [(1%nat, 24); (2%nat, 25); (4%nat, 26); (8%nat, 27)] ->
    exists b ext, dst ++ z2b (Z.lor (Z.shiftl mt 5) ai) :: be_put k n = dst ++ b :: ext /\ Z.shiftr (b2z b) 5 = mt /\
      forall rest, readLength (ext ++ rest) 1 (Z.land (b2z b) 31) = Ok (n, length (b :: ext))).
  { intros k ai Ha Ha' Hk Hin. destruct (head_byte mt ai Hm Ha) as [H1 H2]. eexists _, _. split; [reflexivity|]. split; [done|].
    intros rest. rewrite H2. cbn [length]. rewrite length_be_put.
    assert (Hlen : (length (be_put k n ++ rest) <? k)%nat = false) by (apply Nat.ltb_ge; rewrite length_app, length_be_put; lia).
    assert (Hget : be_get (take k (be_put k n ++ rest)) = n)
      by (rewrite take_app_exact by (by rewrite length_be_put); apply be_get_put; lia).
    rewrite (readLength_ext _ _ k ai Hin). by rewrite Hlen, Hget. }
  destruct (Z.ltb_spec n 24).
  { destruct (head_byte mt n Hm) as [H1 H2]; [lia|]. eexists _, []. split; [reflexivity|]. split; [done|].
    intros rest. rewrite H2. unfold readLength. by rewrite (proj2 (Z.ltb_lt n 24)). }
  repeat match goal with |- context [n <=? ?b] => destruct (Z.leb_spec n b); [apply Hext; [lia|lia|cbn; lia|set_solver]|] end.
  apply Hext; [lia|lia|cbn; lia|set_solver].
Qed.

(** ** Appending only appends *)
Definition prefixed (f : bytes -> res bytes) : Prop := forall dst, f dst = app dst <$> f [].

Lemma appendMajor_prefix dst mt n : appendMajor dst mt n = dst ++ appendMajor [] mt n.
Proof. unfold appendMajor. by repeat case_match. Qed.
Lemma prefixed_ok (g : bytes -> bytes) : (forall dst, g dst = dst ++ g []) -> prefixed (fun dst => Ok (g dst)).
Proof. intros H dst. cbn. by rewrite H. Qed.
Lemma prefixed_err e : prefixed (fun _ => Err e).
Proof. done. Qed.
Lemma appendStringBytes_prefix dst s : appendStringBytes dst s = dst ++ appendStringBytes [] s.
Proof. unfold appendStringBytes. rewrite appendMajor_prefix. by rewrite <- app_assoc. Qed.
Lemma appendBytes_prefix dst s : appendBytes dst s = dst ++ appendBytes [] s.
Proof. unfold appendBytes. rewrite appendMajor_prefix. by rewrite <- app_assoc. Qed.
Lemma prefixed_bind (f g : bytes -> res bytes) : prefixed f -> prefixed g -> prefixed (fun dst => f dst ≫= g).
Proof.
  intros Hf Hg dst. cbn beta. rewrite Hf. destruct (f []) as [b|e]; [|done]. cbn.
  rewrite Hg, (Hg b). destruct (g []); [|done]. cbn. by rewrite <- app_assoc.
Qed.
Lemma appendItems_prefixed fs : Forall prefixed fs -> prefixed (appendItems fs).
Proof.
  induction 1 as [|f fs Hf Hfs IH]; [intros dst; cbn; by rewrite app_nil_r|]. cbn [appendItems]. by apply prefixed_bind.
Qed.
Lemma appendPairs_prefixed fs keys : map_Forall (fun _ f => prefixed f) fs -> prefixed (appendPairs fs keys).
Proof.
  intros Hfs. induction keys as [|k keys IH]; [intros dst; cbn; by rewrite app_nil_r|].
  assert (Hk : prefixed (fun dst => match fs !! k with Some value => value dst | None => Ok (dst ++ [xf6]) end)).
  { destruct (fs !! k) as [f|] eqn:E; [by eapply Hfs|by apply prefixed_ok]. }
  pose proof (prefixed_bind _ _ Hk IH) as Hb. intros dst.
  change (appendPairs fs (k :: keys)) with (fun dst => (fun dst => match fs !! k with Some value => value dst | None => Ok (dst ++ [xf6]) end ≫= appendPairs fs keys)
    (appendStringBytes dst k)). cbn beta. cbn beta in Hb.
  rewrite (Hb (appendStringBytes dst k)), (Hb (appendStringBytes [] k)), appendStringBytes_prefix.
  destruct (match fs !! k with Some _ => _ | None => _ end ≫= _); [|done]. cbn. by rewrite <- app_assoc.
Qed.
Lemma appendArrayValue_prefixed fs : Forall prefixed fs -> prefixed (fun dst => appendArrayValue dst fs).
Proof.
  intros Hfs dst. unfold appendArrayValue. rewrite (appendItems_prefixed fs Hfs), (appendItems_prefixed fs Hfs (appendMajor [] _ _)), appendMajor_prefix.
  destruct (appendItems fs []); [|done]. cbn. by rewrite <- app_assoc.
Qed.
Lemma appendMapValue_prefixed fs : (forall m, fs = Some m -> map_Forall (fun _ f => prefixed f) m) -> prefixed (fun dst => appendMapValue dst fs).
Proof.
  intros Hfs dst. unfold appendMapValue. destruct fs as [fs|]; [|exact (prefixed_ok _ (fun dst => appendMajor_prefix dst 5 0) dst)].
  pose proof (fun k => appendPairs_prefixed fs k (Hfs _ eq_refl)) as H.
  rewrite H, (H _ (appendMajor [] _ _)), appendMajor_prefix. destruct (appendPairs _ _ []); [|done]. cbn. by rewrite <- app_assoc.
Qed.
Lemma encode_prefixed v : prefixed (fun dst => appendEncodedValue dst v).
Proof.
  revert v. apply any_ind'.
  - intros v. destruct v as [|[]| | | | | | | | |[m|]| |]; try done; cbn [appendEncodedValue];
      try (unfold encodeInt64Into, encodeFloat64Into; case_match; try apply prefixed_err);
      try (apply prefixed_ok; intros dst; first [apply appendMajor_prefix|apply appendStringBytes_prefix|apply appendBytes_prefix|by rewrite <- app_assoc|done]).
    + apply appendArrayValue_prefixed. rewrite Forall_map. apply list.Forall_true. intros s. apply prefixed_ok. intros. apply appendStringBytes_prefix.
    + apply appendMapValue_prefixed. intros ? [= <-]. intros k f. rewrite lookup_fmap. destruct (m !! k); intros [= <-].
      apply prefixed_ok. intros. apply appendStringBytes_prefix.
  - intros l Hl. cbn [appendEncodedValue]. apply appendArrayValue_prefixed. by rewrite Forall_map.
  - intros m Hm. cbn [appendEncodedValue]. apply appendMapValue_prefixed. intros ? [= <-]. by rewrite map_Forall_fmap.
Qed.

(** ** Decoding what was encoded *)
Lemma decodeOne_head levels mt n payload : 0 <= mt < 7 -> 0 <= n < 2 ^ 64 ->
  decodeOne (S levels) (appendMajor [] mt n ++ payload) =
  decodePayload (decodeOne levels) (appendMajor [] mt n ++ payload) mt n (length (appendMajor [] mt n)).
Proof.
  intros Hm Hn. destruct (appendMajor_spec [] mt n) as (b & ext & E & Hb & Hr); [lia|done|]. rewrite E. cbn [app].
  cbn [decodeOne]. rewrite Hb, (proj2 (Z.eqb_neq mt 7)), Hr by lia. done.
Qed.
Lemma decodePayload_end (hd payload : bytes) : drop (length hd) (hd ++ payload : bytes) = payload /\
  (forall s rest n, payload = s ++ rest -> n = blen s -> 0 <= n /\
    (blen (hd ++ payload) - Z.of_nat (length hd) <? n) = false /\
    take (Z.to_nat n) (drop (length hd) (hd ++ payload)) = s /\ drop (length hd + Z.to_nat n) (hd ++ payload) = rest).
Proof.
  split; [by apply drop_app_exact|]. intros s rest n -> ->. rewrite Nat2Z.id, drop_app_exact by done. split_and!; [lia| | |].
  - apply Z.ltb_ge. rewrite !length_app. lia.
  - by apply take_app_exact.
  - rewrite app_assoc. apply drop_app_exact. by rewrite length_app.
Qed.

(** What a decoder makes of one encoded value, whatever follows it: a value, or
    a refusal for depth or range. *)
Definition reads (decode : bytes -> res (any * bytes)) (b : bytes) (o : option any) : Prop := forall rest,
  match o with
  | Some w => decode (b ++ rest) = Ok (w, rest)
  | None => outOfModel (decode (b ++ rest))
  end.

Lemma appendItems_inv fs b : Forall prefixed fs -> appendItems fs [] = Ok b ->
  exists bs, b = concat bs /\ Forall2 (fun f bi => f [] = Ok bi) fs bs.
Proof.
  intros Hfs. revert b. induction Hfs as [|f fs Hf Hfs IH]; intros b H; cbn [appendItems] in H; [simplify_eq; by exists []|].
  destruct (f []) as [bi|e] eqn:E; [|done]. cbn in H. rewrite (appendItems_prefixed fs Hfs) in H.
  destruct (appendItems fs []) as [b'|e]; [|done]. cbn in H. simplify_eq.
  destruct (IH _ eq_refl) as (bs & -> & Hbs). exists (bi :: bs). split; [done|by constructor].
Qed.
Lemma decodeItems_reads decode data bs os : Forall2 (reads decode) bs os -> forall pre rest items,
  data = pre ++ concat bs ++ rest ->
  match mapM id os with
  | Some ws => decodeItems decode data (length bs) items (length pre) = Ok (items ++ ws, length (pre ++ concat bs))
  | None => outOfModel (decodeItems decode data (length bs) items (length pre))
  end.
Proof.
  induction 1 as [|b o bs os Hb Hbs IH]; intros pre rest items Hd.
  { cbn. by rewrite !app_nil_r. }
  cbn [mapM length decodeItems concat] in *. assert (Hdrop : drop (length pre) data = b ++ concat bs ++ rest).
  { rewrite Hd, drop_app_exact by done. by rewrite <- app_assoc. }
  rewrite Hdrop. specialize (Hb (concat bs ++ rest)). destruct o as [w|]; cbn [id mbind option_bind].
  - rewrite Hb. unfold mbind at 2 3, res_bind.
    assert (Hc : (length data - length (concat bs ++ rest))%nat = length (pre ++ b)) by (rewrite Hd, !length_app; lia).
    rewrite Hc. specialize (IH (pre ++ b) rest (items ++ [w])). rewrite <- !app_assoc in IH. specialize (IH ltac:(by rewrite Hd, <- !app_assoc)).
    destruct (mapM id os) as [ws|]; cbn; [|exact IH]. rewrite IH. by rewrite <- !app_assoc.
  - destruct Hb as (e & -> & He). by exists e.
Qed.
Lemma appendPairs_cons fs k keys f b : map_Forall (fun _ f => prefixed f) fs -> fs !! k = Some f ->
  appendPairs fs (k :: keys) [] = Ok b ->
  exists bv b', f [] = Ok bv /\ appendPairs fs keys [] = Ok b' /\ b = appendStringBytes [] k ++ bv ++ b'.
Proof.
  intros Hfs Hf H. cbn [appendPairs] in H. rewrite Hf, (Hfs _ _ Hf (appendStringBytes [] k)) in H.
  destruct (f []) as [bv|e] eqn:E; [|done]. cbn in H. rewrite (appendPairs_prefixed fs keys Hfs) in H.
  destruct (appendPairs fs keys []) as [b'|e]; [|done]. cbn in H. simplify_eq. exists bv, b'. by rewrite <- app_assoc.
Qed.
Lemma decodePairs_reads decode data fs (outs : bytes -> option any) : map_Forall (fun _ f => prefixed f) fs ->
  (forall k, is_Some (fs !! k) -> reads decode (appendStringBytes [] k) (Some (VString k))) ->
  (forall k f bv, fs !! k = Some f -> f [] = Ok bv -> reads decode bv (outs k)) ->
  forall keys, (forall k, k ∈ keys -> is_Some (fs !! k)) -> forall b pre rest acc,
  appendPairs fs keys [] = Ok b -> data = pre ++ b ++ rest ->
  match mapM outs keys with
  | Some ws => decodePairs decode data (length keys) acc (length pre) =
      Ok (foldl (fun m kw => <[kw.1 := kw.2]> m) acc (zip keys ws), length (pre ++ b))
  | None => outOfModel (decodePairs decode data (length keys) acc (length pre))
  end.
Proof.
  intros Hfs Hkey Hval keys. induction keys as [|k keys IH]; intros Hin b pre rest acc Hb Hd.
  { cbn in *. simplify_eq. by rewrite app_nil_r. }
  destruct (Hin k) as [f Hf]; [by left|]. apply (appendPairs_cons fs k keys f) in Hb as (bv & b' & Ef & Eb' & ->); [|done|done].
  cbn [mapM length decodePairs]. set (ks := appendStringBytes [] k) in *.
  assert (Hdrop : drop (length pre) data = ks ++ bv ++ b' ++ rest) by (rewrite Hd, drop_app_exact by done; by rewrite <- !app_assoc).
  rewrite Hdrop. pose proof (Hkey k (ex_intro _ f Hf) (bv ++ b' ++ rest)) as Hk. cbn beta iota in Hk. fold ks in Hk. rewrite Hk. pose proof (Hval k f bv Hf Ef (b' ++ rest)) as Hv.
  unfold mbind at 3 5, res_bind. destruct (outs k) as [w|]; cbn [mbind option_bind].
  - rewrite Hv. unfold mbind at 2 3, res_bind.
    assert (Hc : (length data - length (b' ++ rest))%nat = length (pre ++ ks ++ bv)) by (rewrite Hd, !length_app; lia).
    rewrite Hc. specialize (IH (fun x Hx => Hin x ltac:(by right)) b' (pre ++ ks ++ bv) rest (<[k := w]> acc) Eb').
    specialize (IH ltac:(by rewrite Hd, <- !app_assoc)). destruct (mapM outs keys) as [ws|]; cbn; [|exact IH].
    rewrite IH. by rewrite <- !app_assoc.
  - destruct Hv as (e & -> & He). by exists e.
Qed.
Lemma foldl_insert_lookup (outs : bytes -> option any) (keys : list bytes) (ws : list any) (acc : gmap bytes any) (i : bytes) : NoDup keys -> mapM outs keys = Some ws ->
  foldl (fun m kw => <[kw.1 := kw.2]> m) acc (zip keys ws) !! i = if decide (i ∈ keys) then outs i else acc !! i.
Proof.
  intros Hn. revert ws acc. induction Hn as [|k keys Hk Hn IH]; intros ws acc H; cbn [mapM] in H.
  { simplify_eq. by rewrite decide_False by set_solver. }
  destruct (outs k) as [w|] eqn:Ew; [|done]. cbn in H. destruct (mapM outs keys) as [ws'|] eqn:E; [|done]. injection H as <-.
  cbn [zip foldl zip_with fst snd]. rewrite (IH ws'), lookup_insert by done.
  destruct (decide (i ∈ keys)) as [Hi|Hi].
  - rewrite decide_True; [done|by right].
  - destruct (decide (k = i)) as [->|]; [rewrite decide_True; [done|by left]|].
    rewrite decide_False; [done|]. intros [->|?]%elem_of_cons; done.
Qed.

(** [b] is an encoding of [v]: decoding it with [levels] left to enter gives
    the canonical value exactly when it fits. *)
Definition fits (levels : nat) (v : any) : bool := inRange v && (depthOf v <? levels)%nat.
Definition decoded (levels : nat) (v : any) : option any := if fits levels v then Some (canon v) else None.
Definition faithful (v : any) : Prop := forall b levels, wellTyped v = true -> encodeAny v = Ok b ->
  reads (decodeOne levels) b (decoded levels v).

Lemma reads_zero b o v : o = decoded 0 v -> reads (decodeOne 0) b o.
Proof. intros -> rest. unfold decoded, fits. rewrite andb_false_r. exists ErrTooDeep. split; [done|by left]. Qed.

Lemma reads_head levels mt n w : 0 <= mt < 7 -> 0 <= n < 2 ^ 64 ->
  (forall payload, decodePayload (decodeOne levels) (appendMajor [] mt n ++ payload) mt n (length (appendMajor [] mt n)) = Ok (w, payload)) ->
  reads (decodeOne (S levels)) (appendMajor [] mt n) (Some w).
Proof. intros Hm Hn H rest. by rewrite decodeOne_head, H by done. Qed.

Lemma faithful_string levels s : lenOk (length s) = true ->
  reads (decodeOne (S levels)) (appendStringBytes [] s) (Some (VString s)).
Proof.
  intros Hs%Z.ltb_lt rest. unfold appendStringBytes. rewrite wrap64_id by lia. rewrite <- app_assoc, decodeOne_head by lia.
  destruct (decodePayload_end (appendMajor [] 3 (blen s)) (s ++ rest)) as [_ H]. destruct (H s rest _ eq_refl eq_refl) as (_ & H1 & H2 & H3).
  unfold decodePayload. cbn [Z.eqb Pos.eqb]. by rewrite H1, H2, H3.
Qed.
Lemma faithful_bytes levels s : lenOk (length s) = true ->
  reads (decodeOne (S levels)) (appendBytes [] s) (Some (VBytes s)).
Proof.
  intros Hs%Z.ltb_lt rest. unfold appendBytes. rewrite wrap64_id by lia. rewrite <- app_assoc, decodeOne_head by lia.
  destruct (decodePayload_end (appendMajor [] 2 (blen s)) (s ++ rest)) as [_ H]. destruct (H s rest _ eq_refl eq_refl) as (_ & H1 & H2 & H3).
  unfold decodePayload. cbn [Z.eqb Pos.eqb]. by rewrite H1, H2, H3.
Qed.
Lemma faithful_uint levels z : 0 <= z < 2 ^ 64 ->
  reads (decodeOne (S levels)) (appendMajor [] 0 z) (if z <=? MaxInt64 then Some (VInt TInt64 z) else None).
Proof.
  intros Hz rest. pose proof (decodeOne_head levels 0 z rest ltac:(lia) Hz) as H. unfold decodePayload in H. cbn [Z.eqb] in H.
  rewrite drop_app_exact in H by done. destruct (Z.leb_spec z MaxInt64) as [Hle|Hgt].
  - rewrite H, (proj2 (Z.ltb_ge MaxInt64 z)) by lia. rewrite int64_id by (unfold MaxInt64 in *; lia). done.
  - rewrite H, (proj2 (Z.ltb_lt MaxInt64 z)) by lia. eexists. split; [reflexivity|by right].
Qed.
Lemma faithful_int levels z b : - 2 ^ 63 <= z < 2 ^ 63 -> encodeInt64Into [] z = Ok b ->
  reads (decodeOne (S levels)) b (Some (VInt TInt64 z)).
Proof.
  intros Hz H. unfold encodeInt64Into in H. destruct (Z.leb_spec 0 z).
  - injection H as <-. rewrite wrap64_id by lia. pose proof (faithful_uint levels z ltac:(lia)) as Hu.
    by rewrite (proj2 (Z.leb_le z MaxInt64)) in Hu by (unfold MaxInt64; lia).
  - injection H as <-. rewrite (int64_id (z + 1)), int64_id, wrap64_id by lia. apply reads_head; [lia..|]. intros payload.
    unfold decodePayload. cbn [Z.eqb Pos.eqb]. rewrite (proj2 (Z.ltb_ge MaxInt64 _)) by (unfold MaxInt64; lia).
    rewrite drop_app_exact by done. rewrite !int64_id by (rewrite ?int64_id by lia; lia). do 3 f_equal. lia.
Qed.
Lemma faithful_float levels f b : f64_valid f = true -> encodeFloat64Into [] f = Ok b ->
  reads (decodeOne (S levels)) b (Some (VFloat64 f)).
Proof.
  intros Hf H rest. unfold encodeFloat64Into in H. destruct (IsNaN f) eqn:En; [done|]. destruct (IsInf f); [done|].
  change (Ok (([] ++ [xfb]) ++ be_put 8 (Float64bits f)) = Ok b) in H. apply (f_equal (fun r => match r with Ok a => a | Err _ => [] end)) in H. rewrite <- H. clear H.
  set (bits := be_put 8 (Float64bits f)).
  change (decodeOne (S levels) ((([] ++ [xfb]) ++ bits) ++ rest)) with (decodeSimple (xfb :: bits ++ rest) 27).
  unfold decodeSimple. cbn [Z.eqb Pos.eqb]. 
  assert (Hlen : (length (xfb :: bits ++ rest) <? 9)%nat = false)
    by (apply Nat.ltb_ge; cbn [length]; rewrite length_app; unfold bits; rewrite length_be_put; lia).
  rewrite Hlen. pose proof (Float64bits_range f Hf). cbn [drop]. rewrite !drop_0. unfold bits.
  rewrite (take_app_exact _ _ 8), (drop_app_exact _ _ 8), be_get_put, Float64frombits_bits by (rewrite ?length_be_put; done). done.
Qed.

(** Containers: the parts decode one level further in. *)
Lemma mapM_decoded levels l : mapM (decoded levels) l = if forallb (fits levels) l then Some (map canon l) else None.
Proof.
  induction l as [|v l IH]; [done|]. cbn [mapM forallb map]. rewrite IH. unfold decoded at 1.
  destruct (fits levels v); [|done]. cbn. by destruct (forallb _ l).
Qed.
Lemma mapM_map {A B C} (f : B -> option C) (g : A -> B) l : mapM f (map g l) = mapM (fun x => f (g x)) l.
Proof. induction l as [|x l IH]; [done|]. cbn [mapM map]. by rewrite IH. Qed.
Lemma fits_array levels l : fits (S levels) (VArray l) = forallb (fits levels) l.
Proof.
  unfold fits. cbn [inRange depthOf]. apply eq_bool_prop_intro. rewrite !andb_True, !Is_true_true, !forallb_Forall', Nat.ltb_lt, Nat.lt_succ_r, list_maxb.
  rewrite <- list.Forall_and. apply list.Forall_iff. intros v. by rewrite andb_true_iff, Nat.ltb_lt.
Qed.
Lemma fits_map levels m : fits (S levels) (VMap (Some m)) = true <-> map_Forall (fun _ v => fits levels v = true) m.
Proof.
  unfold fits. cbn [inRange depthOf]. rewrite andb_true_iff, (map_allb (fun _ => inRange)), Nat.ltb_lt, Nat.lt_succ_r, (map_maxb depthOf).
  unfold map_Forall. setoid_rewrite andb_true_iff. setoid_rewrite Nat.ltb_lt. naive_solver.
Qed.

Lemma concat_length_ge (bs : list bytes) : Forall (fun b => b <> []) bs -> (length bs <= length (concat bs))%nat.
Proof. induction 1 as [|b bs Hb Hbs IH]; [done|]. cbn. rewrite length_app. destruct b; [done|]. cbn. lia. Qed.
Lemma reads_nonempty levels b o : (0 < levels)%nat -> reads (decodeOne levels) b o -> b <> [].
Proof.
  intros Hl H ->. destruct levels as [|levels]; [lia|]. specialize (H []). destruct o; [done|]. destruct H as (e & [= <-] & [|]); done.
Qed.

Lemma array_reads levels (fs : list (bytes -> res bytes)) (os : list (option any)) b : lenOk (length fs) = true ->
  Forall prefixed fs -> Forall2 (fun f o => forall bi, f [] = Ok bi -> bi <> [] /\ reads (decodeOne levels) bi o) fs os ->
  appendArrayValue [] fs = Ok b ->
  reads (decodeOne (S levels)) b (VArray <$> mapM id os).
Proof.
  intros Hlen%Z.ltb_lt Hfs Hos H rest. unfold appendArrayValue in H. rewrite wrap64_id in H by lia.
  rewrite (appendItems_prefixed fs Hfs) in H. destruct (appendItems fs []) as [body|e] eqn:Eb; [|done]. cbn in H. simplify_eq.
  apply appendItems_inv in Eb as (bs & -> & Hbs); [|done]. rewrite <- app_assoc, decodeOne_head by lia.
  assert (Hr : Forall (fun bi => bi <> []) bs /\ Forall2 (reads (decodeOne levels)) bs os).
  { clear -Hos Hbs. revert os Hos. induction Hbs as [|f bi fs bs Hf Hbs IH]; intros os Hos; inversion Hos as [|? o ? os' Ho Hos']; subst; [by split|].
    destruct (IH _ Hos') as [H1 H2]. destruct (Ho _ Hf) as [H3 H4]. split; by constructor. }
  destruct Hr as [Hne Hr]. apply concat_length_ge in Hne. pose proof (list.Forall2_length _ _ _ Hbs) as Hl.
  unfold decodePayload. cbn [Z.eqb Pos.eqb]. rewrite (proj2 (Z.ltb_ge _ _)) by (rewrite !length_app; lia).
  set (hd := appendMajor [] 4 (blen fs)). rewrite Nat2Z.id, Hl. pose proof (decodeItems_reads _ _ _ _ Hr hd rest [] eq_refl) as HD.
  destruct (mapM id os) as [ws|]; cbn [fmap option_fmap option_map].
  - rewrite HD. cbn. by rewrite app_assoc, drop_app_exact.
  - destruct HD as (e & -> & He). by exists e.
Qed.

Lemma map_reads (levels : nat) (fs : gmap bytes (bytes -> res bytes)) (outs : bytes -> option any) (b : bytes) : lenOk (size fs) = true ->
  map_Forall (fun _ f => prefixed f) fs -> map_Forall (fun k _ => lenOk (length k) = true) fs ->
  (forall k f bi, fs !! k = Some f -> f [] = Ok bi -> reads (decodeOne levels) bi (outs k)) ->
  (levels = 0%nat -> forall k, is_Some (fs !! k) -> outs k = None) ->
  appendMapValue [] (Some fs) = Ok b ->
  match mapM outs (sortBytes (elements (dom fs))) with
  | Some ws => exists m, reads (decodeOne (S levels)) b (Some (VMap (Some m))) /\ forall k, m !! k = if decide (is_Some (fs !! k)) then outs k else None
  | None => reads (decodeOne (S levels)) b None
  end.
Proof.
  intros Hlen%Z.ltb_lt Hfs Hks Hvals Hz H. set (keys := sortBytes (elements (dom fs))) in *.
  assert (Hkeys : forall k, k ∈ keys <-> is_Some (fs !! k)).
  { intros k. unfold keys. rewrite elem_of_sortBytes, elem_of_elements. apply elem_of_dom. }
  assert (Hnd : NoDup keys) by apply NoDup_sortBytes, NoDup_elements.
  assert (Hsize : length keys = size fs).
  { unfold keys. rewrite (Permutation_length (sortBytes_perm _)). by rewrite <- size_dom. }
  unfold appendMapValue in H. fold keys in H. rewrite Hsize, wrap64_id in H by lia.
  rewrite (appendPairs_prefixed fs keys Hfs) in H. destruct (appendPairs fs keys []) as [body|e] eqn:Eb; [|done]. cbn in H. simplify_eq.
  set (hd := appendMajor [] 5 (Z.of_nat (size fs))).
  assert (Hlb : (length keys <= length body)%nat).
  { clear -Eb Hfs Hkeys. assert (Hin : forall k, k ∈ keys -> is_Some (fs !! k)) by (intros; by apply Hkeys). clear Hkeys. clearbody keys.
    revert body Eb. induction keys as [|k keys IH]; intros body Eb; [cbn; lia|]. destruct (Hin k) as [f Hf]; [by left|].
    destruct (appendPairs_cons fs k keys f body Hfs Hf Eb) as (bv & b' & _ & Eb' & ->). apply IH in Eb'; [|intros; apply Hin; by right].
    rewrite !length_app. unfold appendStringBytes. rewrite length_app.
    destruct (appendMajor_spec [] 3 (wrap64 (blen k))) as (x & ext & -> & _); [lia|apply wrap64_range|]. cbn. lia. }
  assert (Hhead : forall rest, decodeOne (S levels) ((hd ++ body) ++ rest) =
    ('(m, cursor) ← decodePairs (decodeOne levels) (hd ++ body ++ rest) (length keys) ∅ (length hd);
     Ok (VMap (Some m), drop cursor (hd ++ body ++ rest)))).
  { intros rest. rewrite <- app_assoc. unfold hd. rewrite decodeOne_head by lia. unfold decodePayload. cbn [Z.eqb Pos.eqb].
    rewrite (proj2 (Z.ltb_ge _ _)) by (rewrite !length_app; lia). by rewrite Nat2Z.id, Hsize. }
  destruct levels as [|levels].
  { destruct keys as [|k keys'] eqn:Ek.
    - cbn [mapM]. exists ∅. split; [|intros k; rewrite decide_False; [done|intros Hk; apply Hkeys in Hk; set_solver]].
      intros rest. rewrite Hhead. cbn. cbn in Eb. simplify_eq. by rewrite drop_app_exact.
    - cbn [mapM]. rewrite (Hz eq_refl k) by (apply Hkeys; by left). cbn [mbind option_bind]. intros rest. rewrite Hhead. exists ErrTooDeep. split; [done|by left]. }
  pose proof (fun rest => decodePairs_reads (decodeOne (S levels)) (hd ++ body ++ rest) fs outs Hfs
    ltac:(intros k Hk; destruct Hk as [f Hf]; apply faithful_string; by eapply Hks) Hvals keys ltac:(intros; by apply Hkeys) body hd rest ∅ Eb eq_refl) as HD.
  destruct (mapM outs keys) as [ws|] eqn:Ew.
  - eexists. split; [intros rest; rewrite Hhead, HD; cbn; by rewrite app_assoc, drop_app_exact|].
    intros k. rewrite (foldl_insert_lookup outs) by done. rewrite lookup_empty.
    destruct (decide (k ∈ keys)) as [Hk|Hk]; [rewrite decide_True by by apply Hkeys|rewrite decide_False by by rewrite <- Hkeys]; done.
  - intros rest. rewrite Hhead. destruct (HD rest) as (e & -> & He). by exists e.
Qed.

Lemma faithful_nonempty v b : faithful v -> wellTyped v = true -> encodeAny v = Ok b -> b <> [].
Proof. intros H Hw Hb. eapply (reads_nonempty 1); [lia|]. by apply H. Qed.
Lemma array_faithful l : Forall faithful l -> faithful (VArray l).
Proof.
  intros Hl b levels Hw Hb. destruct levels as [|levels]; [by eapply reads_zero|].
  cbn [wellTyped] in Hw. apply andb_true_iff in Hw as [Hlen Hw]. apply forallb_Forall' in Hw.
  assert (E : decoded (S levels) (VArray l) = VArray <$> mapM id (map (decoded levels) l)).
  { rewrite mapM_map. change (fun x => id (decoded levels x)) with (decoded levels). rewrite mapM_decoded.
    unfold decoded. rewrite fits_array. by destruct (forallb _ l). }
  rewrite E. apply (array_reads levels (map (fun item dst => appendEncodedValue dst item) l)); [by rewrite length_map| | |done].
  - rewrite Forall_map. apply list.Forall_true. apply encode_prefixed.
  - clear -Hl Hw. induction Hl as [|v l Hv Hl IH]; [constructor|]. apply list.Forall_cons in Hw as [Hwv Hw].
    cbn [map]. constructor; [|by apply IH]. intros bi Hbi. split; [by eapply faithful_nonempty|by apply Hv].
Qed.
Lemma map_faithful m : map_Forall (fun _ v => faithful v) m -> faithful (VMap (Some m)).
Proof.
  intros Hm b levels Hw Hb. destruct levels as [|levels]; [by eapply reads_zero|].
  cbn [wellTyped] in Hw. apply andb_true_iff in Hw as [Hlen Hw]. rewrite (map_allb (fun k v => lenOk (length k) && wellTyped v)) in Hw.
  set (outs := fun k => m !! k ≫= decoded levels).
  pose proof (map_reads levels ((fun value dst => appendEncodedValue dst value) <$> m) outs b) as H.
  rewrite map_size_fmap, dom_fmap_L in H.
  assert (Hks : forall k, k ∈ sortBytes (elements (dom m)) <-> is_Some (m !! k)).
  { intros k. rewrite elem_of_sortBytes, elem_of_elements. apply elem_of_dom. }
  assert (Hfit : fits (S levels) (VMap (Some m)) = true <-> is_Some (mapM outs (sortBytes (elements (dom m))))).
  { rewrite fits_map, mapM_is_Some, list.Forall_forall. unfold map_Forall, outs, decoded. setoid_rewrite Hks. split.
    - intros Hf k [v Hv]. cbn. rewrite Hv. cbn. rewrite (Hf _ _ Hv). by eexists.
    - intros Hf k v Hv. specialize (Hf k (ex_intro _ v Hv)). cbn in Hf. rewrite Hv in Hf. cbn in Hf. destruct (fits levels v); [done|by destruct Hf]. }
  assert (H1 : map_Forall (fun _ f => prefixed f) ((fun value dst => appendEncodedValue dst value) <$> m))
    by (apply map_Forall_fmap; intros k v _; apply encode_prefixed).
  assert (H2 : map_Forall (fun k _ => lenOk (length k) = true) ((fun value dst => appendEncodedValue dst value) <$> m)).
  { apply map_Forall_fmap. intros k v Hv. apply Hw in Hv. by apply andb_true_iff in Hv as [? _]. }
  specialize (H Hlen H1 H2). unfold decoded. cbn [canon].
  assert (H3 : match mapM outs (sortBytes (elements (dom m))) with
    | Some _ => exists m0, reads (decodeOne (S levels)) b (Some (VMap (Some m0))) /\
        forall k, m0 !! k = if decide (is_Some (((fun value dst => appendEncodedValue dst value) <$> m) !! k)) then outs k else None
    | None => reads (decodeOne (S levels)) b None
    end).
  { apply H; [| |done].
    - intros k f bi. rewrite lookup_fmap. unfold outs. destruct (m !! k) as [v|] eqn:Ev; [|done]. intros [= <-] Hbi. cbn.
      apply (Hm _ _ Ev); [|done]. apply Hw in Ev. by apply andb_true_iff in Ev as [_ ?].
    - intros -> k _. unfold outs. destruct (m !! k); [|done]. cbn. unfold decoded, fits. by rewrite andb_false_r. }
  destruct (mapM outs _) as [ws|] eqn:Ew.
  - rewrite (proj2 Hfit) by (by eexists). destruct H3 as (m' & Hr & Hm').
      replace (canon <$> m) with m'; [done|]. apply map_eq. intros k. rewrite Hm', !lookup_fmap.
      unfold outs. destruct (m !! k) as [v|] eqn:Ev; cbn; [|by rewrite decide_False by (by intros [])].
      rewrite decide_True by (by eexists). unfold decoded.
      assert (Hf : fits (S levels) (VMap (Some m)) = true) by (apply Hfit; by eexists). rewrite fits_map in Hf. by rewrite (Hf _ _ Ev).
  - destruct (fits (S levels) (VMap (Some m))) eqn:Ef; [|done]. by destruct (proj1 Hfit eq_refl).
Qed.
Lemma string_faithful s : faithful (VString s).
Proof.
  intros b levels Hw Hb. destruct levels as [|levels]; [by eapply reads_zero|]. cbn in Hb. simplify_eq. by apply faithful_string.
Qed.

(** The string containers encode as the generic ones. *)
Lemma strings_as_array l : forall b levels, encodeAny (VStrings l) = Ok b -> wellTyped (VStrings l) = true ->
  reads (decodeOne levels) b (decoded levels (VStrings l)).
Proof.
  intros b levels Hb Hw. assert (Hf : faithful (VArray (map VString l))).
  { apply array_faithful. rewrite Forall_map. apply list.Forall_true, string_faithful. }
  assert (Ed : depthOf (VArray (map VString l)) = depthOf (VStrings l)).
  { clear. destruct l as [|s l]; [done|]. cbn [map foldr depthOf]. assert (H : (foldr (fun v acc => Nat.max (S (depthOf v)) acc) 0 (map VString l) <= 1)%nat); [|lia].
    apply list_maxb. rewrite Forall_map. apply list.Forall_true. cbn. lia. }
  assert (E : decoded levels (VStrings l) = decoded levels (VArray (map VString l))).
  { unfold decoded, fits. rewrite Ed. cbn [canon inRange]. rewrite map_map.
    assert (Hr : forallb inRange (map VString l) = true) by (by apply forallb_Forall', Forall_map, list.Forall_true). by rewrite Hr. }
  rewrite E. apply Hf.
  - cbn [wellTyped] in *. apply andb_true_iff in Hw as [Hl Hw]. rewrite length_map, Hl. cbn [andb].
    apply forallb_Forall'. rewrite Forall_map. by apply forallb_Forall' in Hw.
  - rewrite <- Hb. unfold encodeAny. cbn [appendEncodedValue]. by rewrite map_map.
Qed.
Lemma stringMap_as_map m : forall b levels, encodeAny (VStringMap m) = Ok b -> wellTyped (VStringMap m) = true ->
  reads (decodeOne levels) b (decoded levels (VStringMap m)).
Proof.
  intros b levels Hb Hw. assert (Hf : faithful (VMap (Some (VString <$> m)))).
  { apply map_faithful, map_Forall_fmap. intros k v _. apply string_faithful. }
  assert (Ed : depthOf (VMap (Some (VString <$> m))) = depthOf (VStringMap m)).
  { clear. cbn [depthOf]. apply Nat.le_antisymm.
    - apply (map_maxb depthOf). apply map_Forall_fmap. intros k v Hk. cbn. rewrite decide_False; [lia|]. intros ->. by rewrite lookup_empty in Hk.
    - destruct (decide (m = ∅)) as [|Hne]; [lia|]. apply map_choose in Hne as (k & s & Hk).
      pose proof (proj1 (map_maxb depthOf (VString <$> m) _) (le_n _) k (VString s)) as H. rewrite lookup_fmap, Hk in H.
      specialize (H eq_refl). cbn in H. lia. }
  assert (E : decoded levels (VStringMap m) = decoded levels (VMap (Some (VString <$> m)))).
  { unfold decoded, fits. rewrite Ed. cbn [canon inRange]. rewrite <- map_fmap_compose.
    assert (Hr : map_fold (fun _ v acc => inRange v && acc) true (VString <$> m) = true) by (by apply (map_allb (fun _ => inRange)), map_Forall_fmap). by rewrite Hr. }
  rewrite E. apply Hf.
  - cbn [wellTyped] in *. rewrite map_size_fmap. apply andb_true_iff in Hw as [-> Hw]. cbn [andb].
    apply (map_allb (fun k v => lenOk (length k) && wellTyped v)), map_Forall_fmap.
    by apply (map_allb (fun k s => lenOk (length k) && lenOk (length s))) in Hw.
  - rewrite <- Hb. unfold encodeAny. cbn [appendEncodedValue]. by rewrite <- map_fmap_compose.
Qed.

Lemma intBits_bound t z : (- 2 ^ (intBits t - 1) <=? z) && (z <? 2 ^ (intBits t - 1)) = true -> - 2 ^ 63 <= z < 2 ^ 63.
Proof. intros [H1%Z.leb_le H2%Z.ltb_lt]%andb_true_iff. destruct t; cbn in *; lia. Qed.
Lemma uintBits_bound t z : (0 <=? z) && (z <? 2 ^ uintBits t) = true -> 0 <= z < 2 ^ 64.
Proof. intros [H1%Z.leb_le H2%Z.ltb_lt]%andb_true_iff. destruct t; cbn in *; lia. Qed.

Lemma all_faithful v : faithful v.
Proof.
  revert v. apply any_ind'; [|apply array_faithful|apply map_faithful]. intros v.
  destruct v as [|bo|t z|t z|f|f|s|s|l|l|[m|]|m|] eqn:Ev; try done; intros b [|levels] Hw Hb; try (by eapply reads_zero);
    try (by apply strings_as_array); try (by apply stringMap_as_map); unfold decoded, fits; cbn [depthOf inRange canon andb Nat.ltb Nat.leb].
  - cbn in Hb. simplify_eq. done.
  - destruct bo; cbn in Hb; simplify_eq; done.
  - apply faithful_int; [by eapply intBits_bound|done].
  - unfold encodeAny in Hb. cbn [appendEncodedValue] in Hb. unfold encodeUint64Into in Hb.
    assert (E : b = appendMajor [] 0 z) by congruence. rewrite E, andb_true_r. by apply faithful_uint; eapply uintBits_bound.
  - by apply faithful_float.
  - by apply faithful_float.
  - exact (string_faithful s b (S levels) Hw Hb).
  - assert (E : b = appendBytes [] s) by (unfold encodeAny in Hb; cbn [appendEncodedValue] in Hb; congruence). rewrite E. by apply faithful_bytes.
  - assert (E : b = appendMajor [] 5 0) by (unfold encodeAny in Hb; cbn [appendEncodedValue appendMapValue] in Hb; congruence).
    rewrite E. apply reads_head; [lia|lia|]. intros payload. unfold decodePayload. cbn [Z.eqb Pos.eqb].
    rewrite (proj2 (Z.ltb_ge _ _)) by (rewrite length_app; lia). cbn [Z.to_nat decodePairs]. cbn. done.
Qed.

(** ** What a decode can give *)

(** The half-precision conversion is the layout's: the sum [1 + frac / 1024] is
    checked on every [frac], the rest is exact scaling. *)
Lemma half_fraction : forallb (fun f => bool_decide (f64_add f64_one (f64_div (f64 f) (f64 1024)) =
  widen (S754_finite false (Z.to_pos (f + 2 ^ 10)) (-10)))) (seqZ 0 1024) = true.
Proof. vm_compute. reflexivity. Qed.
Lemma digits_small p k : 0 <= k -> Z.pos p < 2 ^ k -> Z.pos (digits2_pos p) <= k.
Proof.
  intros Hk Hp. pose proof (digits2_pos_bounds p) as [H _]. destruct (decide (Z.pos (digits2_pos p) <= k)); [done|].
  assert (2 ^ k <= 2 ^ (Z.pos (digits2_pos p) - 1)) by (apply Z.pow_le_mono_r; lia). lia.
Qed.
Lemma halfToFloat64_spec bits : 0 <= bits < 2 ^ 16 -> halfToFloat64 bits = widen (frombits 10 5 bits).
Proof.
  intros Hb. unfold halfToFloat64, frombits. set (s := 1 <=? bits / 2 ^ (10 + 5)). set (ex := (bits / 2 ^ 10) `mod` 2 ^ 5). set (m := bits `mod` 2 ^ 10).
  assert (Es : negb (Z.land bits 32768 =? 0) = s).
  { assert (Ht : Z.testbit bits 15 = s).
    { unfold s. change (2 ^ (10 + 5)) with (2 ^ 15). destruct (Z.testbit bits 15) eqn:E; symmetry.
      - apply Z.testbit_true in E; [|lia]. apply Z.leb_le. zlia.
      - apply Z.testbit_false in E; [|lia]. apply Z.leb_gt. zlia. }
    assert (E : Z.land bits 32768 = if s then 32768 else 0); [|rewrite E; by destruct s].
    rewrite <- Ht. apply Z.bits_inj'. intros n Hn. rewrite Z.land_spec. change 32768 with (2 ^ 15). rewrite Z.pow2_bits_eqb by lia.
    destruct (Z.eqb_spec 15 n) as [<-|Hne]; rewrite ?andb_true_r, ?andb_false_r.
    - destruct (Z.testbit bits 15); [by rewrite Z.pow2_bits_true|by rewrite Z.bits_0].
    - destruct (Z.testbit bits 15); [by rewrite Z.pow2_bits_false|by rewrite Z.bits_0]. }
  assert (Ee : Z.land (Z.shiftr bits 10) 31 = ex) by (change 31 with (Z.ones 5); by rewrite Z.land_ones, Z.shiftr_div_pow2 by lia).
  assert (Em : Z.land bits 1023 = m) by (change 1023 with (Z.ones 10); by rewrite Z.land_ones by lia).
  rewrite Es, Ee, Em. assert (Hex : 0 <= ex < 32) by (apply Z.mod_pos_bound; lia). assert (Hm : 0 <= m < 1024) by (apply Z.mod_pos_bound; lia).
  clearbody s ex m. clear Es Ee Em Hb. change (2 ^ 5 - 1) with 31. change (2 - 2 ^ (5 - 1) - 10) with (-24).
  assert (Hs : forall x, (if s then f64_opp (widen (S754_finite false x (-24))) else widen (S754_finite false x (-24))) = widen (S754_finite s x (-24))).
  { intros x. destruct s; [by rewrite f64_opp_widen|done]. }
  destruct (Z.eqb_spec ex 31) as [->|H31]; [cbn [Z.eqb Pos.eqb]; destruct (m =? 0); [by destruct s|done]|].
  destruct (Z.eqb_spec ex 0) as [->|H0].
  - destruct m as [|p|p]; [by destruct s| |lia]. pose proof (digits_small p 10 ltac:(lia) ltac:(lia)).
    rewrite f64_widen, Ldexp_widen by lia. apply Hs.
  - pose proof half_fraction as Hf. apply forallb_Forall', list.Forall_forall with (x := m) in Hf; [|apply elem_of_seqZ; lia].
    apply bool_decide_eq_true in Hf. rewrite Hf. destruct (m + 2 ^ 10) as [|p|p] eqn:Ep; [lia| |lia]. cbn [Z.to_pos].
    pose proof (digits_small p 11 ltac:(lia) ltac:(lia)). assert (Hlow : 0 < Z.pos (digits2_pos p)) by lia.
    rewrite Ldexp_widen by lia. replace (-10 + (ex - 15)) with (ex + -24 - 1) by lia.
    destruct s; [by rewrite f64_opp_widen|done].
Qed.
Lemma half_valid bits : 0 <= bits < 2 ^ 16 -> f64_valid (halfToFloat64 bits) = true.
Proof.
  intros Hb. rewrite halfToFloat64_spec by done. unfold frombits. set (s := 1 <=? _). set (ex := _ `mod` 2 ^ 5). set (m := bits `mod` _). cbn zeta.
  assert (0 <= ex < 32) by (apply Z.mod_pos_bound; lia). assert (0 <= m < 2 ^ 10) by (apply Z.mod_pos_bound; lia).
  assert (Hw : forall p e, Z.pos p < 2 ^ 11 -> -24 <= e <= 10 -> f64_valid (widen (S754_finite s p e)) = true).
  { intros p e Hp He. pose proof (digits_small p 11 ltac:(lia) Hp). destruct (widen_finite s p e) as (p' & -> & Ep & Ed); [lia|].
    pose proof (digits2_pos_bounds p') as Hb'. rewrite Ed in Hb'. apply f64_valid_finite. assert (0 < Z.pos (digits2_pos p)) by lia. lia. }
  clearbody s ex m. destruct (Z.eqb_spec ex 0); [destruct m; try done; apply Hw; lia|].
  destruct (Z.eqb_spec ex (2 ^ 5 - 1)); [by destruct (m =? 0)|].
  destruct (m + 2 ^ 10) eqn:E; try lia. apply Hw; lia.
Qed.

Lemma be_get_take n (l : bytes) : 0 <= be_get (take n l) < 2 ^ (8 * Z.of_nat n).
Proof.
  pose proof (be_get_range (take n l)) as H. rewrite length_take in H. split; [apply H|]. eapply Z.lt_le_trans; [apply H|].
  apply Z.pow_le_mono_r; lia.
Qed.
Lemma readLength_inv data ai n pos : readLength data 1 ai = Ok (n, pos) -> 0 <= ai < 32 -> 0 <= n < 2 ^ 64 /\ (1 <= pos <= S (length data))%nat.
Proof.
  intros H Ha. unfold readLength in H. destruct (ai <? 24) eqn:E; [apply Z.ltb_lt in E; simplify_eq; split; lia|].
  repeat match type of H with (if ai =? ?k then _ else _) = _ => destruct (ai =? k) end; try done;
    match type of H with (if (length data <? ?k)%nat then _ else _) = _ => destruct (Nat.ltb_spec (length data) k); [done|];
      injection H as <- <-; pose proof (be_get_take k data);
      assert (2 ^ (8 * Z.of_nat k) <= 2 ^ 64) by (apply Z.pow_le_mono_r; lia); split; lia end.
Qed.

Definition good (levels : nat) (v : any) : Prop := wellTyped v = true /\ canon v = v /\ fits levels v = true.
Definition consumes (data rest : bytes) : Prop := exists n, (0 < n <= length data)%nat /\ rest = drop n data.
Definition sound (levels : nat) (decode : bytes -> res (any * bytes)) : Prop := forall data v rest,
  blen data < 2 ^ 63 -> decode data = Ok (v, rest) -> consumes data rest /\ good levels v.

Lemma consumes_drop (data : bytes) cursor rest : (cursor <= length data)%nat -> consumes (drop cursor data) rest ->
  exists cursor', (cursor < cursor' <= length data)%nat /\ rest = drop cursor' data /\ (length data - length rest)%nat = cursor'.
Proof.
  intros Hc (n & Hn & ->). rewrite length_drop in Hn. exists (cursor + n)%nat. rewrite drop_drop, length_drop. split_and!; [lia|lia|done|lia].
Qed.

Lemma decodeItems_sound levels decode data : sound levels decode -> blen data < 2 ^ 63 -> forall count items cursor items' cursor',
  (cursor <= length data)%nat -> Forall (good levels) items -> decodeItems decode data count items cursor = Ok (items', cursor') ->
  (cursor <= cursor' <= length data)%nat /\ (length items' = length items + count)%nat /\ (cursor + count <= cursor')%nat /\ Forall (good levels) items'.
Proof.
  intros Hs Hd. induction count as [|count IH]; intros items cursor items' cursor' Hc Hi H; cbn [decodeItems] in H.
  { simplify_eq. split_and!; [lia|lia|lia|lia|done]. }
  destruct (decode (drop cursor data)) as [[item rest]|e] eqn:E; [|done]. cbn in H.
  apply Hs in E as [Hr Hg]; [|rewrite length_drop; lia]. destruct (consumes_drop _ _ _ Hc Hr) as (c1 & Hc1 & -> & Hlen).
  rewrite Hlen in H. apply IH in H as (H1 & H2 & H3 & H4); [|lia|by apply Forall_app_2; [|constructor]].
  rewrite length_app in H2. cbn in H2. split_and!; [lia|lia|lia|lia|done].
Qed.
Lemma decodePairs_sound levels decode data : sound levels decode -> blen data < 2 ^ 63 -> forall count m cursor m' cursor',
  (cursor <= length data)%nat -> map_Forall (fun k v => lenOk (length k) = true /\ good levels v) m ->
  decodePairs decode data count m cursor = Ok (m', cursor') ->
  (cursor <= cursor' <= length data)%nat /\ (size m' <= size m + count)%nat /\ (cursor + count <= cursor')%nat /\
  map_Forall (fun k v => lenOk (length k) = true /\ good levels v) m'.
Proof.
  intros Hs Hd. induction count as [|count IH]; intros m cursor m' cursor' Hc Hm H; cbn [decodePairs] in H.
  { simplify_eq. split_and!; [lia|lia|lia|lia|done]. }
  destruct (decode (drop cursor data)) as [[key rest]|e] eqn:E; [|done]. cbn in H. destruct key as [| | | | | |k| | | | | |]; try done.
  apply Hs in E as [Hr Hk]; [|rewrite length_drop; lia]. destruct (consumes_drop _ _ _ Hc Hr) as (c1 & Hc1 & -> & _).
  destruct (decode (drop c1 data)) as [[value rest2]|e] eqn:E2; [|done]. cbn in H.
  apply Hs in E2 as [Hr2 Hv]; [|rewrite length_drop; lia]. destruct (consumes_drop data c1 _ ltac:(lia) Hr2) as (c2 & Hc2 & -> & Hlen).
  rewrite Hlen in H. apply IH in H as (H1 & H2 & H3 & H4); [|lia|].
  - assert ((size (<[k:=value]> m) <= S (size m))%nat) by (rewrite map_size_insert; destruct (m !! k); cbn; lia).
    split_and!; [lia|lia|lia|lia|done].
  - apply map_Forall_insert_2; [|done]. split; [apply Hk|done].
Qed.

Lemma good_scalar levels v : wellTyped v = true -> canon v = v -> depthOf v = 0%nat -> inRange v = true -> good (S levels) v.
Proof. intros. split_and!; [done|done|]. unfold fits. rewrite H1, H2. done. Qed.
Lemma Forall_good levels l : Forall (good levels) l -> lenOk (length l) = true -> good (S levels) (VArray l).
Proof.
  intros H Hl. split_and!.
  - cbn [wellTyped]. rewrite Hl. apply forallb_Forall'. eapply list.Forall_impl; [exact H|]. by intros v [? _].
  - cbn [canon]. f_equal. induction H as [|v l [_ [Hc _]] H IH]; [done|]. cbn [map]. rewrite Hc, IH; [done|].
    apply Z.ltb_lt. apply Z.ltb_lt in Hl. cbn in Hl. lia.
  - rewrite fits_array. apply forallb_Forall'. eapply list.Forall_impl; [exact H|]. by intros v (_ & _ & ?).
Qed.
Lemma map_good levels m : map_Forall (fun k v => lenOk (length k) = true /\ good levels v) m -> lenOk (size m) = true -> good (S levels) (VMap (Some m)).
Proof.
  intros H Hl. split_and!.
  - cbn [wellTyped]. rewrite Hl. apply (map_allb (fun k v => lenOk (length k) && wellTyped v)). intros k v Hk.
    destruct (H _ _ Hk) as [-> [-> _]]. done.
  - cbn [canon]. do 2 f_equal. apply map_eq. intros k. rewrite lookup_fmap. destruct (m !! k) as [v|] eqn:Hk; [|done]. cbn.
    destruct (H _ _ Hk) as [_ (_ & -> & _)]. done.
  - apply fits_map. intros k v Hk. by destruct (H _ _ Hk) as [_ (_ & _ & ?)].
Qed.

Lemma consumes_of (data : bytes) n : (0 < n <= length data)%nat -> consumes data (drop n data).
Proof. intros. by exists n. Qed.
Lemma decodeSimple_sound levels data ai v rest : (0 < length data)%nat -> decodeSimple data ai = Ok (v, rest) -> consumes data rest /\ good (S levels) v.
Proof.
  intros Hd H. unfold decodeSimple in H.
  repeat match type of H with (if ai =? ?k then _ else _) = _ => destruct (ai =? k) end; try done;
    try (match type of H with (if (length data <? ?k)%nat then _ else _) = _ => destruct (Nat.ltb_spec (length data) k); [done|] end);
    injection H as <- <-; (split; [apply consumes_of; lia|apply good_scalar; try done]).
  - apply half_valid. pose proof (be_get_take 2 (drop 1 data)). done.
  - apply frombits32_valid. pose proof (be_get_take 4 (drop 1 data)). done.
  - apply Float64frombits_valid. pose proof (be_get_take 8 (drop 1 data)). done.
Qed.
Lemma decodePayload_sound levels data major n pos v rest : sound levels (decodeOne levels) -> blen data < 2 ^ 63 ->
  0 <= n < 2 ^ 64 -> (1 <= pos <= length data)%nat ->
  decodePayload (decodeOne levels) data major n pos = Ok (v, rest) -> consumes data rest /\ good (S levels) v.
Proof.
  intros Hs Hd Hn Hp H. unfold decodePayload in H. unfold MaxInt64 in H.
  destruct (major =? 0).
  { destruct (Z.ltb_spec (2 ^ 63 - 1) n); [done|]. rewrite int64_id in H by lia. injection H as <- <-. split; [by apply consumes_of|].
    apply good_scalar; [|done..]. cbn [wellTyped intBits]. rewrite (proj2 (Z.leb_le _ _)), (proj2 (Z.ltb_lt _ _)); cbn; lia. }
  destruct (major =? 1).
  { destruct (Z.ltb_spec (2 ^ 63 - 1) n); [done|]. rewrite !int64_id in H by (rewrite ?int64_id by lia; lia). injection H as <- <-. split; [by apply consumes_of|].
    apply good_scalar; [|done..]. cbn [wellTyped intBits]. rewrite (proj2 (Z.leb_le _ _)), (proj2 (Z.ltb_lt _ _)); cbn; lia. }
  destruct (Z.ltb_spec (blen data - Z.of_nat pos) n) as [|Hle]; [done|].
  assert (Hs1 : lenOk (length (take (Z.to_nat n) (drop pos data))) = true) by (apply Z.ltb_lt; rewrite length_take, length_drop; lia).
  destruct (major =? 2); [injection H as <- <-; split; [apply consumes_of; lia|by apply good_scalar]|].
  destruct (major =? 3); [injection H as <- <-; split; [apply consumes_of; lia|by apply good_scalar]|].
  destruct (major =? 4).
  { destruct (decodeItems _ _ _ _ _) as [[items cursor]|e] eqn:E; [|done]. cbn in H. injection H as <- <-.
    apply (decodeItems_sound levels) in E as (H1 & H2 & H3 & H4); [|done|done|lia|constructor].
    split; [apply consumes_of; lia|apply Forall_good; [done|]]. apply Z.ltb_lt. cbn in H2. lia. }
  destruct (major =? 5); [|done].
  destruct (decodePairs _ _ _ _ _) as [[m cursor]|e] eqn:E; [|done]. cbn in H. injection H as <- <-.
  apply (decodePairs_sound levels) in E as (H1 & H2 & H3 & H4); [|done|done|lia|apply map_Forall_empty].
  split; [apply consumes_of; lia|apply map_good; [done|]]. apply Z.ltb_lt. rewrite map_size_empty in H2. lia.
Qed.
Lemma decodeOne_sound levels : sound levels (decodeOne levels).
Proof.
  induction levels as [|levels IH]; intros data v rest Hd H; [done|]. destruct data as [|b data]; [done|]. cbn [decodeOne] in H.
  destruct (Z.shiftr (b2z b) 5 =? 7); [by eapply decodeSimple_sound in H; [|cbn; lia]|].
  destruct (readLength data 1 (Z.land (b2z b) 31)) as [[n pos]|e] eqn:E; [|done]. cbn [mbind res_bind] in H.
  apply readLength_inv in E as [Hn Hp].
  - by eapply decodePayload_sound in H.
  - change 31 with (Z.ones 5). rewrite Z.land_ones by lia. apply Z.mod_pos_bound. lia.
Qed.

(** ** What the encoder accepts *)
Lemma is_ok_fmap {A B} (f : A -> B) (r : res A) : is_ok (f <$> r) = is_ok r.
Proof. by destruct r. Qed.
Lemma appendItems_ok fs dst : Forall prefixed fs -> is_ok (appendItems fs dst) = forallb (fun f => is_ok (f [])) fs.
Proof.
  intros Hfs. revert dst. induction Hfs as [|f fs Hf Hfs IH]; intros dst; [done|]. cbn [appendItems forallb]. rewrite Hf.
  destruct (f []) as [b|e]; [|done]. cbn. apply IH.
Qed.
Lemma appendPairs_ok fs keys dst : map_Forall (fun _ f => prefixed f) fs ->
  is_ok (appendPairs fs keys dst) = forallb (fun k => match fs !! k with Some f => is_ok (f []) | None => true end) keys.
Proof.
  intros Hfs. revert dst. induction keys as [|k keys IH]; intros dst; [done|]. cbn [appendPairs forallb].
  destruct (fs !! k) as [f|] eqn:Ef; [|apply IH]. rewrite (Hfs _ _ Ef). destruct (f []) as [b|e]; [|done]. cbn. apply IH.
Qed.
Lemma encode_ok v : is_ok (encodeAny v) = supported v.
Proof.
  revert v. apply any_ind'.
  - assert (Hs : forall l dst, is_ok (appendArrayValue dst (map (fun s dst => Ok (appendStringBytes dst s)) l)) = true).
    { intros l dst. unfold appendArrayValue. rewrite appendItems_ok.
      - apply forallb_Forall'. rewrite Forall_map. by apply list.Forall_true.
      - rewrite Forall_map. apply list.Forall_true. intros s. apply prefixed_ok. intros. apply appendStringBytes_prefix. }
    intros v. destruct v as [|[]|t z| |f|f| | |l| |[m|]|m|]; try done; unfold encodeAny; cbn [appendEncodedValue supported]; try apply Hs.
    + unfold encodeInt64Into. by case_match.
    + unfold encodeFloat64Into. by case_match.
    + unfold encodeFloat64Into. by case_match.
    + unfold appendMapValue. rewrite appendPairs_ok.
      * apply forallb_Forall', list.Forall_true. intros k. rewrite lookup_fmap. by destruct (m !! k).
      * apply map_Forall_fmap. intros k s _. apply prefixed_ok. intros. apply appendStringBytes_prefix.
  - intros l Hl. unfold encodeAny. cbn [appendEncodedValue supported]. unfold appendArrayValue. rewrite appendItems_ok.
    + induction Hl as [|v l Hv Hl IH]; [done|]. cbn [map forallb]. rewrite IH. f_equal. exact Hv.
    + rewrite Forall_map. apply list.Forall_true. apply encode_prefixed.
  - intros m Hm. unfold encodeAny. cbn [appendEncodedValue supported appendMapValue]. rewrite appendPairs_ok.
    + apply eq_bool_prop_intro. rewrite !Is_true_true, forallb_Forall', (map_allb (fun _ => supported)), list.Forall_forall.
      setoid_rewrite elem_of_sortBytes. setoid_rewrite elem_of_elements. setoid_rewrite elem_of_dom. setoid_rewrite lookup_fmap. split.
      * intros H k v Hk. rewrite <- (Hm _ _ Hk). specialize (H k). rewrite Hk in H. apply H. by eexists.
      * intros H k _. destruct (m !! k) as [v|] eqn:Hk; [|done]. cbn. rewrite <- (H _ _ Hk). symmetry. rewrite <- (Hm _ _ Hk). done.
    + apply map_Forall_fmap. intros k v _. apply encode_prefixed.
Qed.

Lemma fits_max v : fits (S MaxDepth) v = inRange v && (depthOf v <=? MaxDepth)%nat.
Proof. reflexivity. Qed.
Lemma decodeAny_encoded v b : wellTyped v = true -> encodeAny v = Ok b ->
  match decoded (S MaxDepth) v with Some w => decodeAny b = Ok w | None => outOfModel (decodeAny b) end.
Proof.
  intros Hw Hb. pose proof (all_faithful v b (S MaxDepth) Hw Hb []) as H. rewrite app_nil_r in H. unfold decodeAny.
  destruct (decoded _ v); [by rewrite H|]. destruct H as (e & -> & He). by exists e.
Qed.

(** C23. A CBOR value survives the round trip, and what does not is refused.  The
    encoder accepts exactly the values made of the supported types and finite
    floats; decoding its bytes gives the same value back (integers as int64,
    floats as float64, the typed string containers as the generic ones) when the
    value nests at most [MaxDepth] levels and holds no unsigned integer above
    [MaxInt64], and otherwise fails with [ErrTooDeep] or [ErrIntegerRange]; the
    map codec gives the same map. *)
Theorem cbor_roundtrip (v : any) :
  wellTyped v = true ->
  is_ok (Encode NewValue v) = supported v /\
  forall b, Encode NewValue v = Ok b ->
    if inRange v && (depthOf v <=? MaxDepth)%nat
    then Decode NewValue b = Ok (canon v) /\
         (forall m, v = VMap m -> Encode NewMap m = Ok b /\ Decode NewMap b = Ok (Some (canon <$> default ∅ m)))
    else outOfModel (Decode NewValue b).
Proof.
  intros Hw. split; [apply encode_ok|]. intros b Hb. pose proof (decodeAny_encoded v b Hw Hb) as H.
  unfold decoded in H. rewrite fits_max in H. destruct (inRange v && _); [|exact H]. split; [exact H|].
  intros m ->. split; [exact Hb|]. change (decodeMapValue b = Ok (Some (canon <$> default ∅ m))).
  unfold decodeMapValue. rewrite H. destruct m as [m|]; [done|]. cbn. by rewrite fmap_empty.
Qed.

(** C39. Whatever bytes it is given, a decode that succeeds gives a value of the
    model's own types: every integer an int64 in range, every float a double,
    no container nested past [MaxDepth]; and the value is stable: encoding it,
    when the encoder accepts it, gives bytes that decode to it again. *)
Theorem cbor_decode_typed (data : bytes) (v : any) :
  blen data < 2 ^ 63 -> Decode NewValue data = Ok v ->
  wellTyped v = true /\ canon v = v /\ (depthOf v <= MaxDepth)%nat /\ inRange v = true /\
  (forall b, Encode NewValue v = Ok b -> Decode NewValue b = Ok v).
Proof.
  intros Hd H. change (decodeAny data = Ok v) in H. unfold decodeAny in H.
  destruct (decodeOne (S MaxDepth) data) as [[w rest]|e] eqn:E; [|done]. cbn [mbind res_bind] in H.
  apply decodeOne_sound in E as [_ (Hw & Hc & Hf)]; [|done]. destruct rest; [|done]. injection H as ->.
  pose proof Hf as Hf'. rewrite fits_max, andb_true_iff, Nat.leb_le in Hf. destruct Hf as [Hr Hdp]. split_and!; try done.
  intros b Hb. pose proof (decodeAny_encoded v b Hw Hb) as H. unfold decoded in H. rewrite Hf', Hc in H. exact H.
Qed.

Definition sample : any := VMap (Some {[ str "list" := VStrings [str "a"; str "b"]; str "n" := VInt TInt8 (-5); str "max" := VUint TUint64 MaxInt64 ]}).
Definition sampleBytes : bytes := match Encode NewValue sample with Ok b => b | Err _ => [] end.
Example cbor_roundtrip_witness : Decode NewValue sampleBytes = Ok (canon sample) /\ outOfModel (Decode NewValue [x1b; x80; x00; x00; x00; x00; x00; x00; x00]).
Proof.
  destruct (cbor_roundtrip sample) as [_ H]; [vm_compute; reflexivity|].
  destruct (cbor_roundtrip (VUint TUint64 (2 ^ 63))) as [_ H']; [vm_compute; reflexivity|].
  specialize (H sampleBytes ltac:(vm_compute; reflexivity)). specialize (H' [x1b; x80; x00; x00; x00; x00; x00; x00; x00] ltac:(vm_compute; reflexivity)).
  assert (E : inRange sample && (depthOf sample <=? MaxDepth)%nat = true) by (vm_compute; reflexivity). rewrite E in H.
  split; [apply H|exact H'].
Defined.
Example cbor_decode_typed_witness : canon (VArray [VInt TInt64 (-1); VNil]) = VArray [VInt TInt64 (-1); VNil].
Proof. apply (cbor_decode_typed [x82; x20; xf6]); [vm_compute; reflexivity|vm_compute; reflexivity]. Defined.
End Cbor.
