(* ===== verification/Wp.v ===== *)
(** A program logic for the operations: what holds of every outcome of a call.
    [wp m Q] is the weakest precondition of the postcondition [Q] over the
    result, the context left and the state; the rules below step through the
    monad of Prelude, and an operation's specification is used by
    [wp_mono]. *)

From S2P Require Import Prelude Digest Stream Backend.

Section Wp.
Context {S : Type}.

Definition wp {A} (m : M S A) (Q : res A -> ctx -> S -> Prop) (c : ctx) (s : S) : Prop :=
  match m c s with (r, c', s') => Q r c' s' end.

Lemma wp_run {A} (m : M S A) Q c s r c' s' : wp m Q c s -> m c s = (r, c', s') -> Q r c' s'.
Proof. unfold wp. by intros H E; rewrite E in H. Qed.
Lemma wp_intro {A} (m : M S A) (Q : res A -> ctx -> S -> Prop) c s :
  (forall r c' s', m c s = (r, c', s') -> Q r c' s') -> wp m Q c s.
Proof. unfold wp. intros H. destruct (m c s) as [[r c'] s']. by apply H. Qed.
Lemma wp_mono {A} (m : M S A) (Q Q' : res A -> ctx -> S -> Prop) c s :
  wp m Q c s -> (forall r c' s', Q r c' s' -> Q' r c' s') -> wp m Q' c s.
Proof. unfold wp. destruct (m c s) as [[r c'] s']. auto. Qed.
Lemma wp_and {A} (m : M S A) (Q Q' : res A -> ctx -> S -> Prop) c s :
  wp m Q c s -> wp m Q' c s -> wp m (fun r c' s' => Q r c' s' /\ Q' r c' s') c s.
Proof. unfold wp. destruct (m c s) as [[r c'] s']. auto. Qed.

Lemma wp_ret {A} (a : A) (Q : res A -> ctx -> S -> Prop) c s : Q (Ok a) c s -> wp (mret a) Q c s.
Proof. done. Qed.
Lemma wp_throw {A} e (Q : res A -> ctx -> S -> Prop) c s : Q (Err e) c s -> wp (throw e) Q c s.
Proof. done. Qed.
Lemma wp_lift {A} (r : res A) (Q : res A -> ctx -> S -> Prop) c s : Q r c s -> wp (lift r) Q c s.
Proof. done. Qed.
Lemma wp_bind {A B} (m : M S A) (f : A -> M S B) (Q : res B -> ctx -> S -> Prop) c s :
  wp m (fun r c' s' => match r with Ok a => wp (f a) Q c' s' | Err e => Q (Err e) c' s' end) c s ->
  wp (m ≫= f) Q c s.
Proof. unfold wp, mbind, M_bind. destruct (m c s) as [[[a|e] c'] s']; done. Qed.
(** Two calls taken together. *)
Lemma wp_bind2 {A B C} (m : M S A) (f : A -> M S B) (g : B -> M S C) (Q : res C -> ctx -> S -> Prop) c s :
  wp (m ≫= f) (fun r c' s' => match r with Ok a => wp (g a) Q c' s' | Err e => Q (Err e) c' s' end) c s ->
  wp (m ≫= fun a => f a ≫= g) Q c s.
Proof.
  unfold wp, mbind, M_bind. destruct (m c s) as [[[a|e] c'] s']; [|done]. by destruct (f a c' s') as [[[b|e] c''] s''].
Qed.
Lemma wp_attempt {A} (m : M S A) (Q : res (res A) -> ctx -> S -> Prop) c s :
  wp m (fun r => Q (Ok r)) c s -> wp (attempt m) Q c s.
Proof. unfold wp, attempt. destruct (m c s) as [[r c'] s']; done. Qed.
Lemma wp_mapErr {A} f (m : M S A) (Q : res A -> ctx -> S -> Prop) c s :
  wp m (fun r => Q (wrapErr f r)) c s -> wp (mapErr f m) Q c s.
Proof. unfold wp, mapErr. destruct (m c s) as [[[a|e] c'] s']; done. Qed.
Lemma wp_get (Q : res S -> ctx -> S -> Prop) c s : Q (Ok s) c s -> wp get Q c s.
Proof. done. Qed.
Lemma wp_modify f (Q : res unit -> ctx -> S -> Prop) c s : Q (Ok tt) c (f s) -> wp (modify f) Q c s.
Proof. done. Qed.
(** A check of the context: it fails only when the context is not [[]]. *)
Lemma wp_ctxErr (Q : res unit -> ctx -> S -> Prop) c s :
  (forall c', (c = [] -> c' = []) -> Q (Ok tt) c' s) ->
  (forall e c', c <> [] -> is_ctx_err e -> Q (Err e) c' s) -> wp ctxErr Q c s.
Proof.
  intros Hok Herr. apply wp_intro. intros r c' s' E. pose proof (ctxErr_inv _ _ _ _ _ E) as ->.
  destruct r as [[]|e].
  - apply Hok. intros ->. rewrite ctxErr_nil in E. by simplify_eq.
  - apply Herr; [|by eapply ctxErr_err]. intros ->. by rewrite ctxErr_nil in E.
Qed.

(** Loops: [P] holds of what was done so far, [E] of a failure. *)
Lemma wp_foldM {A B} (P : list A -> B -> ctx -> S -> Prop) (E : error -> ctx -> S -> Prop) (l : list A) (acc : B) (f : B -> A -> M S B) c s :
  (forall don x rest acc c s, l = don ++ x :: rest -> P don acc c s ->
    wp (f acc x) (fun r c' s' => match r with Ok a => P (don ++ [x]) a c' s' | Err e => E e c' s' end) c s) ->
  P [] acc c s -> wp (foldM l acc f) (fun r c' s' => match r with Ok a => P l a c' s' | Err e => E e c' s' end) c s.
Proof.
  intros Hf. assert (Hgen : forall rest don acc c s, l = don ++ rest -> P don acc c s ->
    wp (foldM rest acc f) (fun r c' s' => match r with Ok a => P l a c' s' | Err e => E e c' s' end) c s); [|by apply Hgen].
  induction rest as [|x rest IH]; intros don a0 c0 s0 Hl HP; cbn [foldM].
  - apply wp_ret. rewrite app_nil_r in Hl. by subst don.
  - apply wp_bind. eapply wp_mono; [by eapply Hf|]. intros [a1|e] c1 s1 HP1; [|done].
    apply (IH (don ++ [x])); [by rewrite <- app_assoc|done].
Qed.
Lemma wp_forM {A} (P : list A -> ctx -> S -> Prop) (E : error -> ctx -> S -> Prop) (l : list A) (f : A -> M S unit) c s :
  (forall don x rest c s, l = don ++ x :: rest -> P don c s ->
    wp (f x) (fun r c' s' => match r with Ok _ => P (don ++ [x]) c' s' | Err e => E e c' s' end) c s) ->
  P [] c s -> wp (forM_ l f) (fun r c' s' => match r with Ok _ => P l c' s' | Err e => E e c' s' end) c s.
Proof.
  intros Hf. assert (Hgen : forall rest don c s, l = don ++ rest -> P don c s ->
    wp (forM_ rest f) (fun r c' s' => match r with Ok _ => P l c' s' | Err e => E e c' s' end) c s); [|by apply Hgen].
  induction rest as [|x rest IH]; intros don c0 s0 Hl HP; cbn [forM_].
  - apply wp_ret. rewrite app_nil_r in Hl. by subst don.
  - apply wp_bind. eapply wp_mono; [by eapply Hf|]. intros [u|e] c1 s1 HP1; [|done].
    apply (IH (don ++ [x])); [by rewrite <- app_assoc|done].
Qed.
End Wp.

(** Operations over a pair of states. *)
Lemma wp_onFst {S T A} (m : M S A) (Q : res A -> ctx -> S * T -> Prop) c (st : S * T) :
  wp m (fun r c' s' => Q r c' (s', st.2)) c st.1 -> wp (onFst m) Q c st.
Proof. unfold wp, onFst. by destruct (m c st.1) as [[r c'] s']. Qed.
Lemma wp_onSnd {S T A} (m : M T A) (Q : res A -> ctx -> S * T -> Prop) c (st : S * T) :
  wp m (fun r c' t' => Q r c' (st.1, t')) c st.2 -> wp (onSnd m) Q c st.
Proof. unfold wp, onSnd. by destruct (m c st.2) as [[r c'] s']. Qed.
