(* ===== verification/OsFile.v ===== *)
(** Whole-file reads and appends of the operating system ([os.ReadFile] and
    [os.OpenFile] with O_APPEND), over the tree of FileSystem. *)

From S2P Require Import Prelude Stream FileSystem AtomicFile Wp.

Section OsFile.
Variable outside : path -> option entry.

(** The content, or the error of the open or of a read; the close's is
    dropped. *)
Definition os_ReadFile (p : path) : M FS bytes :=
  rc ← os_Open outside p;
  lift (if decide (rd_tail (rc_reader rc) = Sentinel EOF) then Ok (rd_data (rc_reader rc)) else Err (rd_tail (rc_reader rc))).

(** [os.OpenFile(p, O_CREATE|O_WRONLY|O_APPEND, _)]. *)
Definition os_OpenAppend (p : path) : M FS unit :=
  syscall;;
  s ← get;
  match resolve outside (tree s) true p with
  | Found (File _ _) | Found (Other _) => mret tt
  | Found _ => throw EISDIR
  | Absent => setTree (<[p := File [] (clock s)]>)
  | NoParent => throw ENOENT
  | NotDir => throw ENOTDIR
  end.

(** [f.Write] with its error. *)
Definition os_Append (p : path) (data : bytes) : M FS unit := fun c s =>
  let '(_, werr, s') := os_Write p data s in
  (match werr with Some e => Err e | None => Ok tt end, c, s').

(** [os.CreateTemp(dir, prefix + "*" + suffix)]: [random] is the string it puts
    in place of the star, of which the library promises that no file has the name. *)
Variable random : gmap path entry -> bytes.
Definition os_CreateTemp (dir : path) (prefix suffix : bytes) : M FS path :=
  s ← get;
  let p := dir ++ [prefix ++ random (tree s) ++ suffix] in
  os_OpenExcl outside p;;
  mret p.

(** A write through a handle; a file cannot grow past what its offset can say. *)
Definition EFBIG : error := New "file too large".
Definition os_WriteAt (p : path) (data : bytes) (s : FS) : nat * option error * FS :=
  match tree s !! p with
  | Some (File old _) => if 2 ^ 63 <=? blen old + blen data then (0%nat, Some EFBIG, s) else os_Write p data s
  | _ => os_Write p data s
  end.
(** Reading a file through a handle from its start, or a section of it: the
    reader, which a failing read cuts short. *)
Definition handleReader (data : bytes) (rf : option fault) : Reader :=
  match rf with
  | None => bytesReader data
  | Some f => mkReader (rd_chunks (bytesReader (take (fl_partial f) data))) (New (fl_msg f))
  end.
Definition os_ReadHandle (p : path) : M FS Reader :=
  rf ← popFault;
  s ← get;
  mret (handleReader (match tree s !! p with Some (File data _) => data | _ => [] end) rf).
Definition section (off size : Z) (data : bytes) : bytes := take (Z.to_nat size) (drop (Z.to_nat off) data).
(** [os.Open], then the section of the file and the close of the handle. *)
Definition os_OpenHandle (p : path) : M FS entry :=
  syscall;;
  s ← get;
  match resolve outside (tree s) true p with
  | Found e => mret e
  | NotDir => throw ENOTDIR
  | Absent | NoParent => throw ENOENT
  end.
Definition sectionReader (e : entry) (off size : Z) : M FS Reader :=
  rf ← popFault;
  mret (match e with File data _ => handleReader (section off size data) rf | _ => mkReader [] EISDIR end).
(** [h.Seek(0, io.SeekEnd)] and [h.Stat().Size()]. *)
Definition os_SeekEnd (p : path) : M FS Z :=
  syscall;;
  s ← get;
  mret (match tree s !! p with Some e => sizeOf e | None => 0 end).

(** [os.ReadDir]: the entries of a directory, sorted by name; the open and the
    read may fail. *)
Fixpoint childName (dir p : path) : option bytes :=
  match dir, p with
  | [], [n] => Some n
  | x :: dir', y :: p' => if decide (x = y) then childName dir' p' else None
  | _, _ => None
  end.
Definition children (t : gmap path entry) (dir : path) : list (bytes * entry) :=
  omap (fun kv => match childName dir kv.1 with Some n => Some (n, kv.2) | None => None end) (walkOrder t).
Definition os_ReadDir (dir : path) : M FS (list (bytes * entry)) :=
  syscall;;
  s ← get;
  match resolve outside (tree s) true dir with
  | Found Directory => syscall;; mret (children (tree s) dir)
  | Found _ | NotDir => throw ENOTDIR
  | Absent | NoParent => throw ENOENT
  end.

Lemma os_ReadFile_inv p c s r c' s' :
  os_ReadFile p c s = (r, c', s') ->
  c' = c /\ evolves s (tree s) s' /\
  match r with
  | Ok data => exists m, resolve outside (tree s) true p = Found (File data m)
  | Err e => (faults s <> [] /\ plain e) \/
      (e = ENOTDIR /\ resolve outside (tree s) true p = NotDir) \/
      (e = ENOENT /\ (resolve outside (tree s) true p = Absent \/ resolve outside (tree s) true p = NoParent)) \/
      (e = EISDIR /\ exists x, resolve outside (tree s) true p = Found x /\ forall data m, x <> File data m)
  end.
Proof.
  intros H. unfold os_ReadFile in H. mstep H as E with rc c1 s1.
  - apply lift_inv in H as (Hr & -> & ->). pose proof E as (-> & He & _)%os_Open_inv. split_and!; [done|done|].
    subst r. unfold os_Open in E. mstep E as E1 with u c2 s2. apply syscall_inv in E1 as (-> & (Ht & _ & Hq) & Hq1 & _).
    unfold get in E. munfold. rewrite Ht in E. destruct (resolve outside (tree s) true p) as [| | |x] eqn:Ex; try done.
    destruct x as [data m| | |];
      [|simplify_eq/=; right; right; right; split; [done|]; eexists; split; [done|]; by intros ? ? [=]..].
    assert (Hfile : match (if decide (rd_tail (bytesReader data) = Sentinel EOF) then Ok (rd_data (bytesReader data)) else Err (rd_tail (bytesReader data)))
      with Ok data' => exists m', Found (File data m) = Found (File data' m') | Err _ => False end).
    { rewrite decide_True by apply rd_tail_bytesReader. rewrite rd_data_bytesReader. by exists m. }
    unfold popFault in E. destruct (faults s2) as [|[f|] [|g rest]] eqn:Ef; rewrite ?Ef in E; simplify_eq/=;
      try (left; split; [by intros Hf%Hq|by intros x]); try exact Hfile; case_decide; naive_solver.
  - apply os_Open_inv in E as (-> & He & Hr). split_and!; [done|done|]. naive_solver.
Qed.
Lemma os_ReadFile_total p s data m : faults s = [] -> resolve outside (tree s) true p = Found (File data m) ->
  exists s', os_ReadFile p [] s = (Ok data, [], s') /\ evolves s (tree s) s'.
Proof.
  intros Hf Hr. destruct (os_ReadFile p [] s) as [[r c'] s'] eqn:E. apply os_ReadFile_inv in E as (-> & He & E).
  exists s'. split; [|done]. rewrite Hr in E. destruct r as [d|e]; [destruct E as (m' & [= <- _]); done|].
  destruct E as [[? _]|[[_ ?]|[[_ [?|?]]|[_ (x & [= <-] & Hx)]]]]; [done..|]. by destruct (Hx data m).
Qed.

Lemma os_OpenAppend_inv p c s r c' s' :
  os_OpenAppend p c s = (r, c', s') ->
  c' = c /\
  match r with
  | Ok _ => (evolves s (<[p := File [] (clock s)]> (tree s)) s' /\ resolve outside (tree s) true p = Absent) \/
      (evolves s (tree s) s' /\ exists x, resolve outside (tree s) true p = Found x /\ x <> Directory)
  | Err e => evolves s (tree s) s' /\ ((faults s <> [] /\ plain e) \/
      match resolve outside (tree s) true p with Absent | Found (File _ _) => False | _ => True end)
  end.
Proof.
  intros H. unfold os_OpenAppend in H. mstep H as E with u c1 s1; apply syscall_inv in E as (-> & Hs & Hq & Hpl).
  - unfold get, setTree in H. munfold. pose proof Hs as (Ht & Hck & Hqu). rewrite Ht in H.
    assert (Hnew : evolves s (<[p := File [] (clock s)]> (tree s)) (mkFS (<[p := File [] (clock s1)]> (tree s1)) (faults s1) (clock s1))).
    { unfold evolves. cbn. rewrite Ht, Hck. auto. }
    destruct (resolve outside (tree s) true p) as [| | |[]] eqn:Er; simplify_eq; (split; [done|]);
      first [by left|split; [done|]; by right|right; split; [done|]; eexists; by split].
  - split; [done|]. split; [done|]. left. split; [|by apply Hpl]. by intros ?%Hq.
Qed.
Lemma os_Append_inv p data old m c s r c' s' :
  tree s !! p = Some (File old m) -> os_Append p data c s = (r, c', s') ->
  c' = c /\ exists n, evolves s (<[p := File (old ++ take n data) (clock s)]> (tree s)) s' /\
    (r = Ok tt -> take n data = data) /\ (faults s = [] -> r = Ok tt).
Proof.
  intros Hp H. unfold os_Append in H. destruct (os_Write p data s) as [[n werr] s1] eqn:E.
  apply (os_Write_inv _ _ _ _ _ _ _ _ Hp) in E as (He & _ & Hn & Hok). simplify_eq. split; [done|]. exists n. split_and!; [done| |].
  - intros Hr. destruct werr; [done|]. rewrite Hn by done. apply firstn_all.
  - intros Hf. by rewrite (Hok Hf).
Qed.
End OsFile.

Lemma parents_delete_empty t q : parents t -> (t !! q = Some Directory -> hasChild t q = false) -> parents (delete q t).
Proof.
  intros Hp Hq q' n' e'. rewrite lookup_delete. case_decide; [done|]. intros He. pose proof (Hp _ _ _ He) as Hd.
  rewrite lookup_delete_ne; [done|]. intros ->. specialize (Hq Hd). unfold hasChild in Hq.
  apply not_true_iff_false in Hq. apply Hq, existsb_exists. exists (q' ++ [n'], e'). split.
  - by apply list_elem_of_In, elem_of_map_to_list.
  - apply bool_decide_eq_true. cbn. rewrite removelast_last. split; [by destruct q'|done].
Qed.

(** ** The calls in the program logic *)
Lemma wp_orElse {A} (m : M FS A) cleanup f (Q : res A -> ctx -> FS -> Prop) c s :
  wp m (fun r c' s' => match r with
    | Ok a => Q (Ok a) c' s'
    | Err e => wp cleanup (fun r c'' s'' => Q (match r with Ok _ => Err (f e) | Err e' => Err e' end) c'' s'') c' s'
    end) c s ->
  wp (orElse m cleanup f) Q c s.
Proof.
  intros H. unfold orElse. apply wp_bind, wp_attempt. eapply wp_mono; [exact H|]. intros [a|e] c' s' HQ; [done|].
  apply wp_bind. eapply wp_mono; [exact HQ|]. intros [u|e'] c'' s'' HQ'; done.
Qed.

Lemma wp_syscall c s : wp syscall (fun r c' s' => c' = c /\ evolves s (tree s) s' /\ (faults s = [] -> r = Ok tt) /\ (forall e, r = Err e -> plain e)) c s.
Proof. apply wp_intro. intros r c' s' H. by apply syscall_inv. Qed.

(** The children of a directory are the entries one name below it, each once. *)
Lemma childName_iff dir p n : childName dir p = Some n <-> p = dir ++ [n].
Proof.
  revert p. induction dir as [|x dir IH]; intros [|y p]; cbn [childName app]; [done| |done|].
  - destruct p as [|z p]; split; by intros [=->].
  - destruct (decide (x = y)) as [->|Hne]; [rewrite IH; split; [by intros ->|by intros [= ->]]|split; [done|by intros [= ?]]].
Qed.
Lemma elem_of_children t dir n e : (n, e) ∈ children t dir <-> t !! (dir ++ [n]) = Some e.
Proof.
  unfold children. rewrite list_elem_of_omap. split.
  - intros ([p e'] & Hin%elem_of_walkOrder & H). cbn in *. destruct (childName dir p) as [m|] eqn:E; [|done].
    apply childName_iff in E as ->. by simplify_eq.
  - intros H. exists (dir ++ [n], e). split; [by apply elem_of_walkOrder|]. cbn. by rewrite (proj2 (childName_iff dir (dir ++ [n]) n) eq_refl).
Qed.
Lemma NoDup_children t dir : NoDup (children t dir).
Proof.
  unfold children. rewrite walkOrder_perm. apply NoDup_omap; [apply NoDup_map_to_list|].
  intros [p e] [p' e'] [n x] _ _ H H'. cbn in *. destruct (childName dir p) as [m|] eqn:E; [|done].
  destruct (childName dir p') as [m'|] eqn:E'; [|done]. apply childName_iff in E as ->, E' as ->. by simplify_eq.
Qed.

(** An entry that is missing or a file whose content has a property. *)
Definition fileOr (P : bytes -> Prop) (o : option entry) : Prop :=
  match o with None => True | Some (File data _) => P data | Some _ => False end.


(** ** A disk that holds only its base directory *)
Definition emptyDisk : FS := mkFS {[ [] := Directory ]} [] 7.
Lemma emptyDisk_parents : parents (tree emptyDisk).
Proof. intros q n e H. cbn in H. rewrite lookup_singleton_ne in H; [done|]. by destruct q. Qed.
Lemma emptyDisk_clear n : clear (tree emptyDisk) ([] ++ [n]).
Proof. intros q k E Hk. right. destruct q as [|x q]; [done|]. injection E as -> E. by destruct q, k. Qed.

(** A text for a number: the concrete encodings of the runs. *)
Fixpoint posBits (p : positive) : bytes :=
  match p with xH => [] | xO p => x30 :: posBits p | xI p => x31 :: posBits p end.
Fixpoint bitsPos (s : bytes) : positive :=
  match s with [] => xH | b :: s => if decide (b = x30) then xO (bitsPos s) else xI (bitsPos s) end.
Lemma bitsPos_posBits p : bitsPos (posBits p) = p.
Proof. induction p as [p IH|p IH|]; cbn; [by rewrite IH..|done]. Qed.
