(* ===== verification/Pack.v ===== *)
(** Chunking and manifest files (src/cas/pack/pack.go). *)

From S2P Require Import Prelude Digest Binary Stream Envelope Backend Store FileSystem AtomicFile OsFile.

Module Pack.
(** ** Chunks *)
Definition makesliceCap : error := New "runtime error: makeslice: cap out of range".
Definition sliceBounds : error := New "runtime error: slice bounds out of range".

(** [for i := 0; i < len(data); i += size]; a loop body runs at most once per
    byte, which is the fuel. *)
Fixpoint splitLoop (fuel : nat) (data : bytes) (size i : Z) : res (list bytes) :=
  match fuel with
  | O => Ok []
  | S fuel =>
    if i <? blen data then
      let end_ := Z.min (int64 (i + size)) (blen data) in
      if (0 <=? i) && (i <=? end_) then
        chunks ← splitLoop fuel data size (int64 (i + size));
        Ok (take (Z.to_nat (end_ - i)) (drop (Z.to_nat i) data) :: chunks)
      else Err sliceBounds
    else Ok []
  end.
Definition Split (data : bytes) (size : Z) : res (list bytes) :=
  if size <=? 0 then Ok [data]
  else if blen data =? 0 then Ok []
  else
    let count := Z.quot (int64 (int64 (blen data + size) - 1)) size in
    if count <? 0 then Err makesliceCap
    else splitLoop (S (length data)) data size 0.
Definition Join (chunks : list bytes) : bytes := concat chunks.
Definition Count (size chunkSize : Z) : Z :=
  if chunkSize <=? 0 then 1
  else if size <=? 0 then 0
  else Z.quot (int64 (int64 (size + chunkSize) - 1)) chunkSize.

(** ** Manifests *)
Section Manifest.
Context {T : Type}.
Variable outside : path -> option entry.

Definition EncodeWith (v : T) (c : option (Codec T)) : res bytes :=
  match c with None => Err ErrNilCodec | Some c => cd_Encode c v end.
Definition DecodeWith (b : bytes) (c : option (Codec T)) : res T :=
  match c with None => Err ErrNilCodec | Some c => cd_Decode c b end.

Definition LoadWith (p : path) (codec : option (Codec T)) : M FS T :=
  ctxErr;;
  match codec with
  | None => throw ErrNilCodec
  | Some codec =>
    b ← mapErr (Errorf "pack: read manifest %s: %w") (os_ReadFile outside p);
    lift (cd_Decode codec b)
  end.
Definition SaveWith (p : path) (v : T) (codec : option (Codec T)) : M FS unit :=
  ctxErr;;
  match codec with
  | None => throw ErrNilCodec
  | Some codec =>
    b ← lift (cd_Encode codec v);
    mapErr (Errorf "pack: write manifest %s: %w") (Publish outside p (bytesReader b) (mkOptions true false))
  end.

Record Store := mkStore { st_path : path; st_codec : option (Codec T) }.
Definition New_ (p : path) (codec : option (Codec T)) : res Store :=
  match codec with None => Err ErrNilCodec | Some _ => Ok (mkStore p codec) end.
Definition Load (s : Store) : M FS T := LoadWith (st_path s) (st_codec s).
Definition Save (s : Store) (v : T) : M FS unit := SaveWith (st_path s) v (st_codec s).
End Manifest.

(** ** Splitting and joining *)
Lemma splitLoop_end fuel data size i : blen data <= i -> splitLoop fuel data size i = Ok [].
Proof. intros H. destruct fuel; [done|]. cbn [splitLoop]. by rewrite (proj2 (Z.ltb_ge i _)). Qed.
Lemma splitLoop_spec data size : 0 < size < 2 ^ 63 -> blen data < 2 ^ 62 ->
  forall fuel i, (length data < fuel + i)%nat -> Z.of_nat i <= blen data -> (i = 0%nat \/ size <= blen data) ->
  exists chunks, splitLoop fuel data size (Z.of_nat i) = Ok chunks /\ Join chunks = drop i data /\
    Forall (fun c => 0 < blen c <= size) chunks /\
    (forall j c, (S j < length chunks)%nat -> chunks !! j = Some c -> blen c = size) /\
    (Z.of_nat (length chunks) - 1) * size < blen data - Z.of_nat i <= blen chunks * size.
Proof.
  intros Hs Hd. induction fuel as [|fuel IH]; intros i Hf Hi Hsmall; [lia|]. cbn [splitLoop].
  destruct (Z.ltb_spec (Z.of_nat i) (blen data)) as [Hlt|Hge].
  2:{ exists []. split; [done|]. rewrite drop_ge by lia. split_and!; [done|constructor|intros ?? H; by apply Nat.nlt_0_r in H|cbn; lia|cbn; lia]. }
  assert (Hw : int64 (Z.of_nat i + size) = Z.of_nat i + size) by (apply int64_id; destruct Hsmall as [->|]; lia).
  rewrite Hw. set (e := Z.min (Z.of_nat i + size) (blen data)).
  rewrite (proj2 (Z.leb_le 0 _)), (proj2 (Z.leb_le _ e)) by lia. cbn [andb].
  set (n := Z.to_nat (e - Z.of_nat i)). assert (Hn : (0 < n)%nat) by lia. rewrite Nat2Z.id.
  assert (Hlen : length (take n (drop i data)) = n) by (rewrite length_take, length_drop; lia).
  destruct (Z.leb_spec (Z.of_nat i + size) (blen data)) as [Hfull|Hlast].
  - assert (En : n = Z.to_nat size) by lia. destruct (IH (i + n)%nat) as (chunks & E & Hj & Hall & Hbut & Hc); [lia|lia|right; lia|].
    replace (Z.of_nat (i + n)) with (Z.of_nat i + size) in E by lia. rewrite E. eexists. split; [reflexivity|]. split_and!.
    + cbn [Join concat]. change (concat chunks) with (Join chunks). rewrite Hj. rewrite <- drop_drop. apply take_drop.
    + constructor; [lia|done].
    + intros [|j] c Hjl Hc'; [injection Hc' as <-; lia|]. cbn in Hc', Hjl. eapply Hbut; [|done]. lia.
    + cbn [length] in *. nia.
    + cbn [length] in *. nia.
  - rewrite splitLoop_end by lia. eexists. split; [reflexivity|]. split_and!.
    + cbn. rewrite app_nil_r. apply take_ge. rewrite length_drop. lia.
    + constructor; [lia|constructor].
    + intros j c Hjl. cbn in Hjl. lia.
    + cbn [length] in *. lia.
    + cbn [length] in *. lia.
Qed.

Lemma Split_count n size : 0 < size -> 0 < n -> n + size - 1 < 2 ^ 63 ->
  Z.quot (int64 (int64 (n + size) - 1)) size = (n + size - 1) / size.
Proof.
  intros Hs Hn Hb. assert (E : int64 (int64 (n + size) - 1) = n + size - 1) by (rewrite int64_sub_l; apply int64_id; lia).
  rewrite E. apply Z.quot_div_nonneg; lia.
Qed.

(** Splitting is undone by joining.  Whenever the length and the size add up
    within an int, the chunks joined are the data, there are [Count] of them, each
    holds [size] bytes and the last one at least one; a size of zero or less gives
    one chunk.  When the sum overflows, the whole is one chunk or the call
    panics, which is decided by [2 * size + len]. *)
Theorem Split_spec (data : bytes) (size : Z) :
  blen data < 2 ^ 62 -> - 2 ^ 63 <= size < 2 ^ 63 ->
  (size <= 0 -> Split data size = Ok [data]) /\
  (0 < size -> blen data + size - 1 < 2 ^ 63 ->
     exists chunks, Split data size = Ok chunks /\ Join chunks = data /\ blen chunks = Count (blen data) size /\
       Forall (fun c => 0 < blen c <= size) chunks /\
       (forall i c, (S i < length chunks)%nat -> chunks !! i = Some c -> blen c = size)) /\
  (0 < size -> 2 ^ 63 <= blen data + size - 1 ->
     Split data size = if 2 * size + blen data <=? 2 ^ 64 + 1 then Err makesliceCap else Ok [data]).
Proof.
  intros Hd Hsz. unfold Split, Count. split; [intros Hs; by rewrite (proj2 (Z.leb_le size 0))|]. split; intros Hs; rewrite (proj2 (Z.leb_gt size 0)) by lia; intros Hb.
  - destruct (Z.eqb_spec (blen data) 0) as [E0|Hne].
    { exists []. destruct data; [|done]. split_and!; [done|done|done|constructor|]. intros i c H. by apply Nat.nlt_0_r in H. }
    rewrite Split_count by lia. rewrite (proj2 (Z.ltb_ge _ 0)) by (apply Z.div_pos; lia).
    destruct (splitLoop_spec data size ltac:(lia) Hd (S (length data)) 0) as (chunks & E & Hj & Hall & Hbut & Hc); [lia|lia|by left|].
    exists chunks. split_and!; [exact E|by rewrite Hj| |done|done].
    rewrite (proj2 (Z.leb_gt (blen data) 0)) by lia. apply (Z.div_unique _ _ _ (blen data + size - 1 - size * blen chunks)); lia.
  - rewrite (proj2 (Z.eqb_neq (blen data) 0)) by lia.
    assert (Hw : int64 (int64 (blen data + size) - 1) = - (2 ^ 64 + 1 - blen data - size)).
    { rewrite int64_sub_l. unfold int64. replace (blen data + size - 1 + 2 ^ 63) with (blen data + size - 1 - 2 ^ 63 + 1 * 2 ^ 64) by lia.
      rewrite Z.mod_add, Z.mod_small by lia. lia. }
    rewrite Hw, Z.quot_opp_l by lia. rewrite Z.quot_div_nonneg by lia.
    destruct (Z.leb_spec (2 * size + blen data) (2 ^ 64 + 1)) as [Hle|Hgt].
    + assert (1 <= (2 ^ 64 + 1 - blen data - size) / size) by (apply Z.div_le_lower_bound; lia).
      by rewrite (proj2 (Z.ltb_lt _ 0)) by lia.
    + rewrite Z.div_small by lia. cbn [Z.opp Z.ltb Z.compare]. cbn [splitLoop].
      rewrite Z.add_0_l, (int64_id size), (proj2 (Z.ltb_lt 0 (blen data))), Z.min_r by lia.
      rewrite (proj2 (Z.leb_le 0 (blen data))), splitLoop_end by lia. cbn. rewrite take_ge; [done|]. rewrite ?drop_0. lia.
Qed.
Example Split_spec_witness : Split (str "abcdefghij") 4 = Ok [str "abcd"; str "efgh"; str "ij"] /\ Join [str "abcd"; str "efgh"; str "ij"] = str "abcdefghij".
Proof.
  destruct (Split_spec (str "abcdefghij") 4) as (_ & H & _); [cbn; lia|lia|]. destruct H as (chunks & E & Hj & _); [lia|cbn; lia|].
  assert (E' : Split (str "abcdefghij") 4 = Ok [str "abcd"; str "efgh"; str "ij"]) by (vm_compute; reflexivity).
  rewrite E' in E. injection E as <-. split; [exact E'|exact Hj].
Defined.

(** Ten bytes and a chunk size five below 2^63. *)
Theorem Split_overflow : Split (str "abcdefghij") (2 ^ 63 - 5) = Err makesliceCap /\ Count 10 (2 ^ 63 - 5) = -1.
Proof. split; vm_compute; reflexivity. Qed.

(** ** Manifests are replaced whole *)
Section ManifestFacts.
Context {T : Type} (outside : path -> option entry) (codec : Codec T) (dir : path) (leaf : bytes) (s : FS).
Abbreviation p := (dir ++ [leaf]).
Hypotheses (Hpar : parents (tree s)) (Hclear : clear (tree s) p) (Hdest : destination dir leaf (tree s)).

(** Saving a manifest replaces it whole or not at all.  Whatever call fails
    and whenever the context ends, the file holds what it held or the new
    encoding, no other file changes but one temp file; success means the new
    encoding is there, and loading it decodes it; without faults, with the temp
    name free, saving what encodes succeeds. *)
Theorem SaveWith_atomic (v : T) (c c' : ctx) (res : res unit) (s' : FS) :
  SaveWith outside p v (Some codec) c s = (res, c', s') ->
  (tree s' !! p = tree s !! p \/ exists b m, cd_Encode codec v = Ok b /\ tree s' !! p = Some (File b m)) /\
  (exists i, forall x data m, tree s !! x = Some (File data m) -> x <> p -> x <> tempPath p i -> tree s' !! x = Some (File data m)) /\
  (res = Ok tt -> exists b, cd_Encode codec v = Ok b /\ (exists m, tree s' !! p = Some (File b m)) /\
     (faults s' = [] -> run_res (LoadWith outside p (Some codec) [] s') = cd_Decode codec b)) /\
  (c = [] -> faults s = [] -> tree s !! tempPath p 0 = None -> is_ok (cd_Encode codec v) = true -> res = Ok tt).
Proof.
  intros H. unfold SaveWith in H.
  assert (Hnone : forall e, res = Err e -> s' = s -> (c = [] -> faults s = [] -> tree s !! tempPath p 0 = None -> is_ok (cd_Encode codec v) = true -> False) ->
    (tree s' !! p = tree s !! p \/ exists b m, cd_Encode codec v = Ok b /\ tree s' !! p = Some (File b m)) /\
    (exists i, forall x data m, tree s !! x = Some (File data m) -> x <> p -> x <> tempPath p i -> tree s' !! x = Some (File data m)) /\
    (res = Ok tt -> exists b, cd_Encode codec v = Ok b /\ (exists m, tree s' !! p = Some (File b m)) /\
       (faults s' = [] -> run_res (LoadWith outside p (Some codec) [] s') = cd_Decode codec b)) /\
    (c = [] -> faults s = [] -> tree s !! tempPath p 0 = None -> is_ok (cd_Encode codec v) = true -> res = Ok tt)).
  { intros e -> -> Hno. split_and!; [by left|by exists 0%nat|done|]. intros. by destruct Hno. }
  mstep H as E with u c1 s1.
  2:{ pose proof (ctxErr_inv _ _ _ _ _ E) as ->. eapply Hnone; [done|done|]. intros -> _ _ _. by rewrite ctxErr_nil in E. }
  pose proof (ctxErr_inv _ _ _ _ _ E) as ->. mstep H as E1 with b c2 s2.
  2:{ apply lift_inv in E1 as (E1 & -> & ->). eapply Hnone; [done|done|]. intros _ _ _ Hok. by rewrite <- E1 in Hok. }
  apply lift_inv in E1 as (Eb & -> & ->). clear Hnone. symmetry in Eb.
  apply mapErr_inv in H as (r & HP & ->). pose proof HP as (i & Hset & Hr)%Publish_inv; try done.
  rewrite rd_data_bytesReader in Hr. split_and!.
  - destruct r; [destruct Hr as (_ & [(m & Hp)|(Hx & _)]); [right; eauto|done]|]. destruct Hr as [?|(_ & _ & m & Hp)]; [by left|right; eauto].
  - exists i. intros x data m Hx Hne Hne'. destruct (sd_other _ _ _ _ _ Hset x Hne Hne') as [->|(E0 & _)]; [done|congruence].
  - destruct r as [[]|]; [|done]. intros _. exists b. destruct Hr as (_ & [(m & Hp)|(Hx & _)]); [|done]. split_and!; [done|eauto|].
    intros Hf. destruct (os_ReadFile_total outside p s' b m Hf) as (s3 & E3 & _); [apply resolve_present; [apply (sd_parents _ _ _ _ _ Hset)|done|done]|].
    unfold LoadWith. erewrite bind_ok by apply ctxErr_nil. erewrite bind_ok by (unfold mapErr; rewrite E3; reflexivity). done.
  - intros -> Hf Hfree _. rewrite ctxErr_nil in E. injection E as <- <-.
    destruct (Publish_total outside dir leaf s Hpar Hclear Hdest (bytesReader b) (mkOptions true false) Hf (rd_tail_bytesReader b) Hfree) as (s4 & E4).
    rewrite E4 in HP. by simplify_eq.
Qed.
End ManifestFacts.

Lemma emptyDisk_dest : destination [] (str "meta") (tree emptyDisk).
Proof. left. vm_compute. reflexivity. Qed.
Definition saved := SaveWith (fun _ => None) ([] ++ [str "meta"]) (str "one") (Some rawCodec) [] emptyDisk.
Example SaveWith_atomic_witness : run_res saved = Ok tt /\
  run_res (LoadWith (fun _ => None) ([] ++ [str "meta"]) (Some rawCodec) [] (run_st saved)) = Ok (str "one").
Proof.
  assert (Hr : run_res saved = Ok tt) by (vm_compute; reflexivity). assert (Hf : faults (run_st saved) = []) by (vm_compute; reflexivity).
  split; [exact Hr|]. destruct saved as [[r c'] s'] eqn:E. cbn [run_res run_st fst snd] in *. subst r.
  destruct (SaveWith_atomic (fun _ => None) rawCodec [] (str "meta") emptyDisk emptyDisk_parents (emptyDisk_clear _) emptyDisk_dest
    (str "one") [] c' (Ok tt) s' E) as (_ & _ & Hok & _). destruct (Hok eq_refl) as (b & Eb & _ & Hl). rewrite (Hl Hf). exact (eq_sym Eb).
Defined.
End Pack.
