(* ===== verification/RefText.v ===== *)
(** The pure half of the refs package (src/cas/refs/refs.go): which names are
    valid, and the text of the value files and of the reflog. *)

From S2P Require Import Prelude Digest.

(** ** Go's strings and strconv on bytes *)

(** [strings.Split(s, sep)] for a one-byte separator. *)
Fixpoint splitOn (sep : byte) (s : bytes) : list bytes :=
  match s with
  | [] => [[]]
  | b :: s =>
    if decide (b = sep) then [] :: splitOn sep s
    else match splitOn sep s with part :: parts => (b :: part) :: parts | [] => [[b]] end
  end.
(** [strings.SplitN(s, sep, n)]: at most [n] fields, the last unsplit. *)
Fixpoint splitN (sep : byte) (n : nat) (s : bytes) : list bytes :=
  match n with
  | O => []
  | 1%nat => [s]
  | S n =>
    match s with
    | [] => [[]]
    | _ => (fix go (pre s : bytes) := match s with
            | [] => [pre]
            | b :: s => if decide (b = sep) then pre :: splitN sep n s else go (pre ++ [b]) s
            end) [] s
    end
  end.
Definition joinWith (sep : byte) (parts : list bytes) : bytes :=
  match parts with [] => [] | p :: parts => p ++ concat (map (fun q => sep :: q) parts) end.
Fixpoint stripPrefix (p s : bytes) : option bytes :=
  match p, s with
  | [], _ => Some s
  | x :: p, y :: s => if decide (x = y) then stripPrefix p s else None
  | _ :: _, [] => None
  end.
Definition HasPrefix (s p : bytes) : bool := bool_decide (is_Some (stripPrefix p s)).
Definition HasSuffix (s p : bytes) : bool := HasPrefix (reverse s) (reverse p).

(** [strings.TrimSpace]: the encodings of the characters [unicode.IsSpace]
    holds of. *)
Definition spaces : list bytes :=
  [[x09]; [x0a]; [x0b]; [x0c]; [x0d]; [x20]; [xc2; x85]; [xc2; xa0]; [xe1; x9a; x80];
   [xe2; x80; x80]; [xe2; x80; x81]; [xe2; x80; x82]; [xe2; x80; x83]; [xe2; x80; x84]; [xe2; x80; x85];
   [xe2; x80; x86]; [xe2; x80; x87]; [xe2; x80; x88]; [xe2; x80; x89]; [xe2; x80; x8a];
   [xe2; x80; xa8]; [xe2; x80; xa9]; [xe2; x80; xaf]; [xe2; x81; x9f]; [xe3; x80; x80]].
Fixpoint trimLeft (cutset : list bytes) (fuel : nat) (s : bytes) : bytes :=
  match fuel with
  | O => s
  | S fuel =>
    match list_find (fun sp => HasPrefix s sp = true) cutset with
    | Some (_, sp) => trimLeft cutset fuel (drop (length sp) s)
    | None => s
    end
  end.
Definition TrimSpace (s : bytes) : bytes :=
  let s := trimLeft spaces (length s) s in
  reverse (trimLeft (map reverse spaces) (length s) (reverse s)).

(** [%d] of an int64, and [strconv.ParseInt(s, 10, 64)]. *)
Definition isDigit (b : byte) : bool := (48 <=? b2z b) && (b2z b <=? 57).
Fixpoint digits (fuel : nat) (n : Z) : bytes :=
  match fuel with
  | O => []
  | S fuel => (if n <? 10 then [] else digits fuel (n / 10)) ++ [z2b (48 + n `mod` 10)]
  end.
Definition formatInt (n : Z) : bytes := if n <? 0 then x2d :: digits 20 (- n) else digits 20 n.
Definition decimal (s : bytes) : Z := fold_left (fun acc b => acc * 10 + (b2z b - 48)) s 0.
Definition ParseInt (s : bytes) : option Z :=
  let '(neg, ds) := match s with
                    | x2d :: ds => (true, ds)
                    | x2b :: ds => (false, ds)
                    | _ => (false, s)
                    end in
  if bool_decide (ds = []) || negb (forallb isDigit ds) then None
  else if (neg : bool) then (if decimal ds <=? 2 ^ 63 then Some (- decimal ds) else None)
  else (if decimal ds <? 2 ^ 63 then Some (decimal ds) else None).

(** ** Names *)
Definition windowsReservedChars : bytes := [x3c; x3e; x3a; x22; x7c; x3f; x2a; x5c].
Definition windowsReservedNames : list bytes :=
  map str ["con"; "prn"; "aux"; "nul"; "com0"; "com1"; "com2"; "com3"; "com4"; "com5"; "com6"; "com7"; "com8"; "com9";
           "lpt0"; "lpt1"; "lpt2"; "lpt3"; "lpt4"; "lpt5"; "lpt6"; "lpt7"; "lpt8"; "lpt9"].
(** [strings.ToLower] on the letters a reserved name is made of (no other
    character lowers to one of them). *)
Definition lower (b : byte) : byte := if (65 <=? b2z b) && (b2z b <=? 90) then z2b (b2z b + 32) else b.
Definition slash : byte := x2f.
Definition dot : byte := x2e.

Definition validatePart (part : bytes) : res unit :=
  if bool_decide (part = []) then Err (Errorf "%w: %q has an empty path segment" RefsInvalidName)
  else if bool_decide (part = [dot]) || bool_decide (part = [dot; dot]) then Err (Errorf "%w: %q contains a %q segment" RefsInvalidName)
  else if HasPrefix part [dot] then Err (Errorf "%w: %q segment %q must not start with '.'" RefsInvalidName)
  else if HasSuffix part (str ".lock") then Err (Errorf "%w: %q segment %q must not end with '.lock'" RefsInvalidName)
  else if HasSuffix part [x20] || HasSuffix part [dot] then Err (Errorf "%w: %q segment %q must not end with a space or '.'" RefsInvalidName)
  else if existsb (fun b => bool_decide (b ∈ windowsReservedChars)) part then Err (Errorf "%w: %q segment %q contains a reserved character (%s)" RefsInvalidName)
  else if bool_decide (map lower (default [] (head (splitN dot 2 part))) ∈ windowsReservedNames) then Err (Errorf "%w: %q segment %q is a reserved device name" RefsInvalidName)
  else Ok tt.
Fixpoint validateParts (parts : list bytes) : res unit :=
  match parts with
  | [] => Ok tt
  | part :: parts => validatePart part;; validateParts parts
  end.
Definition isControl (b : byte) : bool := (b2z b <? 32) || (b2z b =? 127).
Definition ValidateName (name : bytes) : res unit :=
  if bool_decide (name = []) then Err (Errorf "%w: empty name" RefsInvalidName)
  else if existsb isControl name then Err (Errorf "%w: %q contains a control character" RefsInvalidName)
  else if HasPrefix name [slash] then Err (Errorf "%w: %q is an absolute path" RefsInvalidName)
  else validateParts (splitOn slash name).

(** ** The reflog *)
Definition tab : byte := x09.
Definition newline : byte := x0a.
Record Entry := mkEntry { en_Digest : Digest; en_Old : Digest; en_Time : Z }.

(** The line [appendLog] writes. *)
Definition logLine (ns : Z) (next old : Digest) : bytes :=
  formatInt ns ++ [tab] ++ DString next ++ [tab] ++ DString old ++ [newline].

Definition parseLogDigest (s : bytes) : res Digest :=
  if bool_decide (s = []) then Ok [] else ParseDigest s.
Definition parseLine (line : bytes) : option Entry :=
  if bool_decide (line = []) then None
  else match splitN tab 3 line with
       | [p0; p1; p2] =>
         match ParseInt p0 with
         | None => None
         | Some ns =>
           match parseLogDigest p1 with
           | Err _ => None
           | Ok next =>
             match parseLogDigest p2 with
             | Err _ => None
             | Ok old => Some (mkEntry next old ns)
             end
           end
         end
       | _ => None
       end.
Definition parseLog (data : bytes) : list Entry := omap parseLine (splitOn newline data).

(** ** Splitting *)
Lemma splitOn_nonnil sep s : splitOn sep s <> [].
Proof. destruct s as [|b s]; [done|]. cbn. case_decide; [done|]. by destruct (splitOn sep s). Qed.
Lemma splitOn_absent sep s : sep ∉ s -> splitOn sep s = [s].
Proof.
  induction s as [|b s IH]; intros Hs; [done|]. cbn [splitOn]. rewrite decide_False by (intros ->; apply Hs; by left).
  rewrite IH; [done|]. intros ?. apply Hs. by right.
Qed.
Lemma splitOn_app sep x y : sep ∉ x -> splitOn sep (x ++ sep :: y) = x :: splitOn sep y.
Proof.
  induction x as [|b x IH]; intros Hx; cbn [app splitOn]; [by rewrite decide_True|].
  rewrite decide_False by (intros ->; apply Hx; by left). rewrite IH; [done|]. intros ?. apply Hx. by right.
Qed.
Lemma joinWith_cons sep p parts : parts <> [] -> joinWith sep (p :: parts) = p ++ sep :: joinWith sep parts.
Proof. destruct parts as [|q parts]; [done|]. intros _. cbn. done. Qed.
Lemma joinWith_splitOn sep s : joinWith sep (splitOn sep s) = s.
Proof.
  induction s as [|b s IH]; [done|]. cbn [splitOn]. pose proof (splitOn_nonnil sep s) as Hn. case_decide as Hb.
  - rewrite joinWith_cons by done. by rewrite IH, Hb.
  - destruct (splitOn sep s) as [|p parts]; [done|]. destruct parts as [|q parts]; cbn in *; by rewrite <- IH.
Qed.
Lemma splitOn_joinWith sep parts : parts <> [] -> Forall (fun p => sep ∉ p) parts -> splitOn sep (joinWith sep parts) = parts.
Proof.
  intros Hn Hp. induction Hp as [|p parts Hp Hps IH]; [done|]. destruct parts as [|q parts].
  - cbn. rewrite app_nil_r. by apply splitOn_absent.
  - rewrite joinWith_cons, splitOn_app, IH by done. done.
Qed.
Lemma splitOn_parts sep s : Forall (fun p => sep ∉ p) (splitOn sep s).
Proof.
  induction s as [|b s IH]; [by repeat constructor; apply not_elem_of_nil|]. cbn [splitOn]. case_decide as Hb; [constructor; [apply not_elem_of_nil|done]|].
  destruct (splitOn sep s) as [|p parts] eqn:E; [by apply splitOn_nonnil in E|]. apply list.Forall_cons in IH as [Hp Hps].
  constructor; [|done]. intros [->|?]%elem_of_cons; done.
Qed.
#[export] Instance splitOn_inj sep : Inj (=) (=) (splitOn sep).
Proof. intros s t E. by rewrite <- (joinWith_splitOn sep s), <- (joinWith_splitOn sep t), E. Qed.
Lemma splitOn_newline_free sep s y : splitOn sep (s ++ sep :: y) = splitOn sep s ++ splitOn sep y.
Proof.
  induction s as [|b s IH]; cbn [app splitOn]; [by rewrite decide_True|]. case_decide; [by rewrite IH|].
  rewrite IH. pose proof (splitOn_nonnil sep s). by destruct (splitOn sep s).
Qed.

Lemma splitN_three sep a b c : sep ∉ a -> sep ∉ b -> splitN sep 3 (a ++ sep :: b ++ sep :: c) = [a; b; c].
Proof.
  intros Ha Hb.
  assert (H : forall n x y pre, sep ∉ x -> (fix go (pre s : bytes) := match s with
      | [] => [pre]
      | b :: s => if decide (b = sep) then pre :: splitN sep (S n) s else go (pre ++ [b]) s
      end) pre (x ++ sep :: y) = (pre ++ x) :: splitN sep (S n) y).
  { intros n x. induction x as [|z x IH]; intros y pre Hx; cbn [app]; [rewrite decide_True by done; by rewrite app_nil_r|].
    rewrite decide_False by (intros ->; apply Hx; by left). rewrite IH by (intros ?; apply Hx; by right). by rewrite <- app_assoc. }
  assert (H3 : forall n x y, sep ∉ x -> splitN sep (S (S n)) (x ++ sep :: y) = x :: splitN sep (S n) y).
  { intros n x y Hx. transitivity (([] ++ x) :: splitN sep (S n) y); [|done]. rewrite <- (H n x y []) by done. cbn [splitN]. by destruct x. }
  rewrite (H3 1%nat a) by done. rewrite (H3 0%nat b) by done. done.
Qed.

(** ** Numbers *)
Lemma digit_ok n : 0 <= n < 10 -> isDigit (z2b (48 + n)) = true /\ b2z (z2b (48 + n)) - 48 = n.
Proof. intros H. unfold isDigit. rewrite b2z_z2b_small by lia. split; [|lia]. apply andb_true_iff. rewrite !Z.leb_le. lia. Qed.
Lemma digits_spec fuel n : 0 <= n < 10 ^ Z.of_nat fuel -> (0 < fuel)%nat ->
  digits fuel n <> [] /\ forallb isDigit (digits fuel n) = true /\ decimal (digits fuel n) = n.
Proof.
  revert n. induction fuel as [|fuel IH]; intros n Hn Hf; [lia|]. cbn [digits].
  pose proof (digit_ok (n `mod` 10) ltac:(apply Z.mod_pos_bound; lia)) as [Hd Hv].
  destruct (Z.ltb_spec n 10) as [Hlt|Hge].
  - rewrite Z.mod_small in * by lia. split_and!; [done|cbn; by rewrite Hd|]. unfold decimal. cbn. lia.
  - rewrite Nat2Z.inj_succ, Z.pow_succ_r in Hn by lia. destruct fuel as [|fuel]; [cbn in Hn; lia|].
    destruct (IH (n / 10)) as (H1 & H2 & H3); [zlia|lia|]. split_and!.
    + intros [? _]%app_nil. done.
    + rewrite forallb_app, H2. cbn. by rewrite Hd.
    + unfold decimal in *. rewrite fold_left_app, H3. cbn [fold_left]. rewrite Hv. zlia.
Qed.
Lemma digits_head fuel n b ds : digits fuel n = b :: ds -> forallb isDigit (digits fuel n) = true -> b <> x2d /\ b <> x2b.
Proof. intros -> H. cbn in H. apply andb_true_iff in H as [H _]. split; intros ->; vm_compute in H; done. Qed.
Lemma ParseInt_format n : - 2 ^ 63 <= n < 2 ^ 63 -> ParseInt (formatInt n) = Some n.
Proof.
  intros Hn. unfold formatInt. destruct (Z.ltb_spec n 0) as [Hneg|Hpos].
  - destruct (digits_spec 20 (- n)) as (H1 & H2 & H3); [change (Z.of_nat 20) with 20; lia|lia|].
    unfold ParseInt. rewrite bool_decide_eq_false_2, H2, H3 by done. cbn [orb negb]. rewrite (proj2 (Z.leb_le _ _)) by lia. f_equal. lia.
  - destruct (digits_spec 20 n) as (H1 & H2 & H3); [change (Z.of_nat 20) with 20; lia|lia|].
    destruct (digits 20 n) as [|b ds] eqn:E; [done|]. rewrite <- E in H2. destruct (digits_head 20 n b ds E H2) as [Hb1 Hb2]. rewrite E in H2.
    assert (EP : ParseInt (b :: ds) = if bool_decide (b :: ds = []) || negb (forallb isDigit (b :: ds)) then None
      else if decimal (b :: ds) <? 2 ^ 63 then Some (decimal (b :: ds)) else None) by (unfold ParseInt; destruct b; done).
    rewrite EP, bool_decide_eq_false_2, H2, H3 by done. cbn [orb negb]. by rewrite (proj2 (Z.ltb_lt _ _)) by lia.
Qed.

(** ** The reflog reads back *)
Definition plainText (s : bytes) : Prop := (tab ∉ s) /\ (newline ∉ s).
Lemma plain_bytes (P : byte -> bool) s : forallb P s = true -> P tab = false -> P newline = false -> plainText s.
Proof.
  intros H Ht Hn. rewrite forallb_forall in H. split; intros Hin%list_elem_of_In%H; congruence.
Qed.
Lemma formatInt_plain n : - 2 ^ 63 <= n < 2 ^ 63 -> plainText (formatInt n).
Proof.
  intros Hn. apply (plain_bytes (fun b => isDigit b || bool_decide (b = x2d))); [|done|done].
  assert (Hd : forall m, 0 <= m < 10 ^ 20 -> forallb (fun b => isDigit b || bool_decide (b = x2d)) (digits 20 m) = true).
  { intros m Hm. destruct (digits_spec 20 m) as (_ & H & _); [exact Hm|lia|]. apply forallb_forall. intros b Hb.
    rewrite forallb_forall in H. by rewrite (H b Hb). }
  unfold formatInt. destruct (Z.ltb_spec n 0); [cbn [forallb]|]; rewrite Hd by lia; done.
Qed.
Lemma DString_plain d : plainText (DString d).
Proof. rewrite DString_hex. by apply (plain_bytes isLowerHexChar); [apply hexEncode_lower| |]. Qed.
Lemma parseLogDigest_DString d : parseLogDigest (DString d) = Ok d.
Proof.
  unfold parseLogDigest. case_bool_decide as E; [by rewrite (proj1 (DString_zero d) E)|].
  apply ParseDigest_iff. split; [|symmetry; apply DString_hex]. intros ->. by destruct E.
Qed.
Lemma parseLine_line ns next old : - 2 ^ 63 <= ns < 2 ^ 63 ->
  parseLine (formatInt ns ++ tab :: DString next ++ tab :: DString old) = Some (mkEntry next old ns).
Proof.
  intros Hn. unfold parseLine. rewrite bool_decide_eq_false_2 by (by destruct (formatInt ns)).
  destruct (formatInt_plain ns Hn) as [Ht _]. destruct (DString_plain next) as [Ht' _].
  rewrite splitN_three, ParseInt_format, !parseLogDigest_DString by done. done.
Qed.
Lemma parseLog_line ns next old rest : - 2 ^ 63 <= ns < 2 ^ 63 ->
  parseLog (logLine ns next old ++ rest) = mkEntry next old ns :: parseLog rest.
Proof.
  intros Hn. unfold parseLog, logLine.
  replace ((formatInt ns ++ [tab] ++ DString next ++ [tab] ++ DString old ++ [newline]) ++ rest)
    with ((formatInt ns ++ tab :: DString next ++ tab :: DString old) ++ newline :: rest) by (cbn; rewrite <- !app_assoc; cbn; rewrite <- !app_assoc; cbn; by rewrite <- !app_assoc).
  rewrite splitOn_app.
  - cbn [omap list_omap]. by rewrite parseLine_line.
  - rewrite elem_of_app, elem_of_cons, elem_of_app, elem_of_cons.
    pose proof (formatInt_plain ns Hn) as [_ ?]. pose proof (DString_plain next) as [_ ?]. pose proof (DString_plain old) as [_ ?]. naive_solver.
Qed.
Definition entryLine (e : Entry) : bytes := logLine (en_Time e) (en_Digest e) (en_Old e).
Lemma parseLog_entries es rest : Forall (fun e => - 2 ^ 63 <= en_Time e < 2 ^ 63) es ->
  parseLog (concat (map entryLine es) ++ rest) = es ++ parseLog rest.
Proof.
  induction 1 as [|[d o t] es He Hes IH]; [done|]. cbn [map concat]. rewrite <- app_assoc. unfold entryLine at 1. cbn [en_Time en_Digest en_Old] in *.
  rewrite parseLog_line, IH by done. done.
Qed.
(** Text without a newline after the last line is at most one entry. *)
Lemma parseLog_tail torn : newline ∉ torn -> parseLog torn = match parseLine torn with Some e => [e] | None => [] end.
Proof. intros H. unfold parseLog. rewrite splitOn_absent by done. cbn. by destruct (parseLine torn). Qed.

Lemma stripPrefix_iff p s k : stripPrefix p s = Some k <-> s = p ++ k.
Proof.
  revert s. induction p as [|x p IH]; intros s; cbn [stripPrefix app]; [split; congruence|].
  destruct s as [|y s]; [done|]. destruct (decide (x = y)) as [->|Hne]; [rewrite IH; split; [by intros ->|by intros [= ->]]|].
  split; [done|by intros [= ?]].
Qed.
Lemma HasSuffix_iff s p : HasSuffix s p = true <-> exists k, s = k ++ p.
Proof.
  unfold HasSuffix, HasPrefix. rewrite bool_decide_eq_true. split.
  - intros [k H%stripPrefix_iff]. exists (reverse k). apply (f_equal reverse) in H. rewrite reverse_app in H. by rewrite !reverse_involutive in H.
  - intros [k ->]. exists (reverse k). apply stripPrefix_iff. by rewrite reverse_app.
Qed.
