(* ===== verification/Refs.v ===== *)
(** The refs store (src/cas/refs/refs.go): named pointers to digests, each a
    file replaced whole, with an append-only log per name. *)

From S2P Require Import Prelude Digest Binary Stream FileSystem AtomicFile OsFile RefText.

Module Refs.
(** A Store is rooted at the tree's base; [now] is what its clock reads during
    the call (one reading at most). *)
Section Store.
Variable outside : path -> option entry.
Variable now : Z.

Record Ref := mkRef { Name : bytes; RefDigest : Digest }.

Definition logSubdir : bytes := str ".log".
Definition valuePath (name : bytes) : path := splitOn slash name.
Definition logPath (name : bytes) : path := logSubdir :: splitOn slash name.

Definition readValue (name : bytes) : M FS Digest :=
  data ← attempt (os_ReadFile outside (valuePath name));
  match data with
  | Err err => if errIs err ErrNotExist then throw (Errorf "%w: %s" RefsNotFound) else throw (Errorf "refs: get %s: %w" err)
  | Ok data =>
    match ParseDigest (TrimSpace data) with
    | Err err => throw (Errorf "refs: get %s: %w" err)
    | Ok d => mret d
    end
  end.

Definition Get (name : bytes) : M FS Digest :=
  ctxErr;;
  lift (ValidateName name);;
  readValue name.

Definition writeFileAtomic (p : path) (data : bytes) : M FS unit :=
  Publish outside p (bytesReader data) (mkOptions true false).

(** The deferred close after a failure is one more call whose error is
    dropped. *)
Definition appendLog (name : bytes) (old next : Digest) : M FS unit :=
  let p := logPath name in
  os_MkdirAll outside (removelast p);;
  os_OpenAppend outside p;;
  let line := logLine now next old in
  let closing := attempt syscall;; mret tt in
  orElse (os_Append p line) closing id;;
  orElse syscall closing id;;
  mapErr (Errorf "refs: append log %s: %w") syscall.

Definition Set_ (name : bytes) (d : Digest) : M FS unit :=
  ctxErr;;
  lift (ValidateName name);;
  lift (CheckDigest d "refs: set");;
  old ← attempt (readValue name);
  match old with
  | Err err => if errIs err RefsNotFound then mret [] else throw err
  | Ok old => mret old
  end ≫= fun old =>
  mapErr (Errorf "refs: set %s: %w") (writeFileAtomic (valuePath name) (DString d ++ [newline]));;
  mapErr (Errorf "refs: set %s: append log: %w") (appendLog name old d).

Definition Delete (name : bytes) : M FS unit :=
  ctxErr;;
  lift (ValidateName name);;
  old ← attempt (readValue name);
  match old with
  | Err err => if errIs err RefsNotFound then mret tt else throw err
  | Ok old =>
    mapErr (Errorf "refs: delete %s: append log: %w") (appendLog name old []);;
    r ← attempt (os_Remove outside (valuePath name));
    match r with
    | Ok _ => mret tt
    | Err err => if errIs err ErrNotExist then mret tt else throw (Errorf "refs: delete %s: %w" err)
    end
  end.

(** ** List

    The callback, with [None] for the directory it skips. *)
Definition listEntry (p : path) (e : entry) (err : option error) : M (FS * list Ref) (option unit) :=
  match err with
  | Some err => throw err
  | None =>
    match p with
    | [] => mret (Some tt)
    | top :: _ =>
      if decide (top = logSubdir) then (if isDir e then mret None else mret (Some tt))
      else if isDir e || IsTempFile (default [] (list.last p)) then mret (Some tt)
      else
        let name := joinWith slash p in
        d ← attempt (onFS (readValue name));
        match d with
        | Err gerr => throw (Errorf "refs: list: %s: %w" gerr)
        | Ok d => modify (fun st => (st.1, st.2 ++ [mkRef name d]));; mret (Some tt)
        end
    end
  end.
(** One entry of the walk; what lies below the skipped directory is not
    visited. *)
Definition visitEntry (kv : path * entry) : M (FS * list Ref) unit :=
  let '(p, e) := kv in
  match p with
  | top :: _ :: _ => if decide (top = logSubdir) then mret tt else
    listEntry p e None;;
    match e with
    | Directory => r ← attempt (onFS syscall); match r with Ok _ => mret tt | Err err => listEntry p e (Some err);; mret tt end
    | _ => mret tt
    end
  | _ =>
    skip ← listEntry p e None;
    match skip, e with
    | Some _, Directory => r ← attempt (onFS syscall); match r with Ok _ => mret tt | Err err => listEntry p e (Some err);; mret tt end
    | _, _ => mret tt
    end
  end.
Definition walkRefs : M (FS * list Ref) unit :=
  r ← attempt (onFS (os_Lstat outside []));
  match r with
  | Err err => listEntry [] Directory (Some err);; mret tt
  | Ok _ => s ← onFS get; forM_ (walkOrder (tree s)) visitEntry
  end.
Definition name_le (a b : Ref) : Prop := bytes_le (Name a) (Name b).
#[local] Instance name_le_dec : RelDecision name_le.
Proof. intros a b. unfold name_le. apply _. Defined.
Definition List : M FS (list Ref) :=
  ctxErr;;
  st ← attempt (os_Stat outside []);
  match st with
  | Err err => if errIs err ErrNotExist then mret true else mret false
  | Ok _ => mret false
  end ≫= fun (absent : bool) =>
  if absent then mret []
  else
    '(err, out) ← withVar [] walkRefs;
    match err with
    | Some err => throw err
    | None => mret (merge_sort name_le out)
    end.

(** ** Lookups over the list *)
Definition resolveIn (all : list Ref) (nameOrPrefix : bytes) : res Ref :=
  match list_find (fun r => Name r = nameOrPrefix) all with
  | Some (_, r) => Ok r
  | None =>
    match filter (fun r => HasPrefix (Name r) nameOrPrefix = true) all with
    | [] => Err (Errorf "%w: %s" RefsNotFound)
    | [m] => Ok m
    | _ => Err (Errorf "%w: %q matches %s" RefsAmbiguous)
    end
  end.
Definition Resolve (nameOrPrefix : bytes) : M FS Ref :=
  ctxErr;;
  if bool_decide (nameOrPrefix = []) then throw (Errorf "%w: empty name" RefsInvalidName)
  else
    all ← List;
    lift (resolveIn all nameOrPrefix).
Definition Roots : M FS (list Digest) :=
  all ← List;
  mret (map RefDigest (filter (fun r => IsZero (RefDigest r) = false) all)).

Definition Log (name : bytes) (limit : Z) : M FS (list Entry) :=
  ctxErr;;
  lift (ValidateName name);;
  data ← attempt (os_ReadFile outside (logPath name));
  match data with
  | Err err => if errIs err ErrNotExist then mret [] else throw (Errorf "refs: log %s: %w" err)
  | Ok data =>
    let entries := reverse (parseLog data) in
    mret (if (0 <? limit) && (limit <? blen entries) then take (Z.to_nat limit) entries else entries)
  end.
Definition Previous (name : bytes) : M FS Digest :=
  entries ← Log name 1;
  match entries with
  | e :: _ => if IsZero (en_Old e) then throw (Errorf "%w: %s has no previous revision" RefsNotFound) else mret (en_Old e)
  | [] => throw (Errorf "%w: %s has no previous revision" RefsNotFound)
  end.
End Store.

(** ** Valid names *)
Lemma HasPrefix_cons_ne b s x p : b <> x -> HasPrefix (b :: s) (x :: p) = false.
Proof. intros H. unfold HasPrefix. cbn. rewrite decide_False by congruence. apply bool_decide_eq_false. by intros []. Qed.
Lemma HasPrefix_one b s : HasPrefix (b :: s) [b] = true.
Proof. unfold HasPrefix. cbn. rewrite decide_True by done. by apply bool_decide_eq_true. Qed.

Definition partOk (p : bytes) : Prop := p <> [] /\ head p <> Some dot /\ (slash ∉ p).
Lemma validParts_inv parts : validateParts parts = Ok tt -> Forall (fun p => p <> [] /\ head p <> Some dot) parts.
Proof.
  induction parts as [|p parts IH]; intros H; [constructor|]. cbn [validateParts] in H.
  destruct (validatePart p) as [[]|e] eqn:E; [|done]. constructor; [|by apply IH]. clear H IH. unfold validatePart in E.
  case_bool_decide; [done|]. destruct (bool_decide (p = [dot]) || _); [done|]. destruct (HasPrefix p [dot]) eqn:Ed; [done|].
  split; [done|]. destruct p as [|b p]; [done|]. intros [= ->]. by rewrite HasPrefix_one in Ed.
Qed.
Lemma ValidateName_parts name : ValidateName name = Ok tt -> Forall partOk (splitOn slash name).
Proof.
  intros H. unfold ValidateName in H. case_bool_decide; [done|]. destruct (existsb isControl name); [done|].
  destruct (HasPrefix name [slash]); [done|]. apply validParts_inv in H. pose proof (splitOn_parts slash name) as Hs.
  apply list.Forall_forall. intros p Hp. rewrite list.Forall_forall in H. rewrite list.Forall_forall in Hs.
  destruct (H p Hp). unfold partOk. auto.
Qed.
(** A valid name's files: its value is not under the log's directory. *)
Lemma valuePath_split name : exists dir leaf, splitOn slash name = dir ++ [leaf].
Proof.
  destruct (splitOn slash name) as [|p l] eqn:E using rev_ind; [by apply splitOn_nonnil in E|]. eauto.
Qed.
Lemma valid_head name dir leaf : ValidateName name = Ok tt -> splitOn slash name = dir ++ [leaf] ->
  forall suffix k, dir ++ [leaf ++ suffix] <> logSubdir :: k.
Proof.
  intros Hv E suffix k Ek. apply ValidateName_parts in Hv. rewrite E in Hv. destruct dir as [|q dir].
  - apply Forall_app in Hv as [_ Hl]. apply list.Forall_singleton in Hl as (Hne & Hh & _). injection Ek as Ek _.
    destruct leaf as [|b leaf]; [done|]. cbn in Ek. injection Ek as -> _. done.
  - apply list.Forall_cons in Hv as [(_ & Hh & _) _]. injection Ek as -> _. done.
Qed.

(** ** The text of a value file *)
Lemma trimLeft_stop cutset fuel s : Forall (fun sp => HasPrefix s sp = false) cutset -> trimLeft cutset fuel s = s.
Proof.
  intros H. destruct fuel; [done|]. cbn [trimLeft]. destruct (list_find _ cutset) as [[i sp]|] eqn:E; [|done].
  apply list_find_Some in E as (E & Hsp & _). rewrite list.Forall_forall in H. rewrite H in Hsp; [done|]. by eapply list_elem_of_lookup_2.
Qed.
Lemma hex_no_space b s : isLowerHexChar b = true ->
  Forall (fun sp => HasPrefix (b :: s) sp = false) spaces /\ Forall (fun sp => HasPrefix (b :: s) sp = false) (map reverse spaces).
Proof.
  intros Hb. assert (H : forall l, forallb (fun sp => match head sp with Some x => negb (isLowerHexChar x) | None => false end) l = true ->
    Forall (fun sp => HasPrefix (b :: s) sp = false) l).
  { intros l Hl. apply list.Forall_forall. intros sp Hsp. rewrite forallb_forall in Hl. apply list_elem_of_In, Hl in Hsp.
    destruct sp as [|x sp]; [done|]. apply HasPrefix_cons_ne. intros ->. cbn in Hsp. by rewrite Hb in Hsp. }
  split; apply H; vm_compute; reflexivity.
Qed.
Lemma TrimSpace_value d : d <> [] -> TrimSpace (DString d ++ [newline]) = DString d.
Proof.
  intros Hd. rewrite DString_hex. pose proof (hexEncode_lower d) as Hl. assert (Hlen := length_hexEncode d).
  assert (Hne : hexEncode d <> []) by (intros E; rewrite E in Hlen; destruct d; [done|cbn in Hlen; lia]).
  assert (Hin : forall b, b ∈ hexEncode d -> isLowerHexChar b = true) by (intros b Hb; rewrite forallb_forall in Hl; by apply Hl, list_elem_of_In).
  unfold TrimSpace. assert (E : trimLeft spaces (length (hexEncode d ++ [newline])) (hexEncode d ++ [newline]) = hexEncode d ++ [newline]).
  { apply trimLeft_stop. destruct (hexEncode d) as [|b h]; [done|]. apply hex_no_space, Hin. by left. }
  rewrite E, reverse_app. rewrite length_app. cbn [length]. rewrite Nat.add_1_r. cbn [trimLeft reverse rev_append app].
  assert (Ef : list_find (fun sp => HasPrefix (newline :: reverse (hexEncode d)) sp = true) (map reverse spaces) = Some (1%nat, [newline])).
  { apply list_find_Some. split_and!; [done|by apply HasPrefix_one|]. intros j y Hj Hlt. destruct j as [|j]; [|lia]. assert (y = [x09]) as -> by (vm_compute in Hj; congruence).
    by rewrite (HasPrefix_cons_ne newline _ x09 []). }
  change (rev_append [newline] [] ++ reverse (hexEncode d)) with (newline :: reverse (hexEncode d)). rewrite Ef. cbn [length drop].
  rewrite trimLeft_stop; [apply reverse_involutive|].
  destruct (reverse (hexEncode d)) as [|b h] eqn:Er; [apply (f_equal reverse) in Er; rewrite reverse_involutive in Er; done|].
  apply hex_no_space, Hin. rewrite <- elem_of_reverse, Er. by left.
Qed.
Lemma parseValue d : d <> [] -> ParseDigest (TrimSpace (DString d ++ [newline])) = Ok d.
Proof. intros Hd. rewrite TrimSpace_value by done. apply ParseDigest_iff. split; [done|symmetry; apply DString_hex]. Qed.

(** ** What the calls leave of the tree *)

(** Outside [X] entries stay, or directories appear. *)
Record grows (X : path -> Prop) (s s' : FS) : Prop := {
  gr_clock : clock s' = clock s;
  gr_quiet : faults s = [] -> faults s' = [];
  gr_parents : parents (tree s) -> parents (tree s');
  gr_other : forall x, ~ X x -> tree s' !! x = tree s !! x \/ (tree s !! x = None /\ tree s' !! x = Some Directory);
}.
Definition nowhere : path -> Prop := fun _ => False.

Lemma grows_refl X s : grows X s s.
Proof. split; auto. Qed.
Lemma grows_trans X s s1 s' : grows X s s1 -> grows X s1 s' -> grows X s s'.
Proof.
  intros [Hk Hq Hp Ho] [Hk' Hq' Hp' Ho']. split; [congruence|auto|auto|]. intros x Hx.
  destruct (Ho x Hx) as [E|[E1 E2]], (Ho' x Hx) as [E'|[E1' E2']]; rewrite ?E, ?E' in *; auto; congruence.
Qed.
Lemma grows_sub (X Y : path -> Prop) s s' : (forall x, X x -> Y x) -> grows X s s' -> grows Y s s'.
Proof. intros H [Hk Hq Hp Ho]. split; try done. intros x Hx. apply Ho. auto. Qed.
Lemma grows_evolves X s s' : evolves s (tree s) s' -> grows X s s'.
Proof. intros (Ht & Hk & Hq). split; rewrite ?Ht; auto. Qed.
Lemma grows_clear X s s' r : grows X s s' -> (forall q k, r = q ++ k -> k <> [] -> ~ X q) -> clear (tree s) r -> clear (tree s') r.
Proof.
  intros [_ _ _ Ho] Hx Hc q k E Hk. destruct (Ho q (Hx q k E Hk)) as [->|[_ ->]]; [by apply (Hc q k)|by right].
Qed.
Lemma grows_file X s s' x data m : grows X s s' -> ~ X x -> tree s !! x = Some (File data m) -> tree s' !! x = Some (File data m).
Proof. intros [_ _ _ Ho] Hx E. destruct (Ho x Hx) as [->|[? _]]; congruence. Qed.
Lemma grows_settled dir leaf s s' i : parents (tree s) -> settled dir leaf s s' i ->
  grows (fun x => x = dir ++ [leaf] \/ x = tempPath (dir ++ [leaf]) i) s s'.
Proof.
  intros Hp [Hk Hq Hp' Ho _]. split; [done|done|done|]. intros x Hx. destruct (Ho x) as [?|(? & ? & _)]; auto.
Qed.
Lemma grows_madeDirs q rest s s' : madeDirs q rest s s' -> grows nowhere s s'.
Proof. intros [Hk Hq Hp Ht]. split; [done|done|done|]. intros x _. destruct (Ht x) as [?|(? & ? & _)]; auto. Qed.
Lemma grows_insert X s s' x d m e : X x -> tree s !! x <> Some Directory -> (exists dir n, x = dir ++ [n] /\ tree s !! dir = Some Directory) -> e = File d m ->
  evolves s (<[x := e]> (tree s)) s' -> grows X s s'.
Proof.
  intros HX Hnd (dir & n & -> & Hdir) -> (Ht & Hk & Hq). split; [done|done| |].
  - intros Hp. rewrite Ht. by apply parents_insert.
  - intros y Hy. rewrite Ht, lookup_insert_ne; [by left|]. by intros <-.
Qed.

Section Facts.
Variable outside : path -> option entry.
Variable now : Z.
Variables (name : bytes) (dir : path) (leaf : bytes).
Hypothesis Hname : ValidateName name = Ok tt.
Hypothesis Hsplit : splitOn slash name = dir ++ [leaf].
Abbreviation vp := (dir ++ [leaf]).
Abbreviation lp := ((logSubdir :: dir) ++ [leaf]).

Lemma logPath_eq : logPath name = lp.
Proof. unfold logPath. by rewrite Hsplit. Qed.
Lemma vp_not_log suffix k : dir ++ [leaf ++ suffix] <> logSubdir :: k.
Proof. by eapply valid_head. Qed.
Lemma vp_lp k : vp <> logSubdir :: k.
Proof. pose proof (vp_not_log [] k) as H. by rewrite app_nil_r in H. Qed.
Lemma temp_lp i k : tempPath vp i <> logSubdir :: k.
Proof. rewrite tempPath_eq. apply vp_not_log. Qed.

Definition fileOrNone (o : option entry) : Prop := o = None \/ exists data m, o = Some (File data m).
(** Nothing is in the way of the name's two files. *)
Record ready (s : FS) : Prop := {
  rd_parents : parents (tree s);
  rd_clear : clear (tree s) vp;
  rd_value : fileOrNone (tree s !! vp);
  rd_clearLog : clear (tree s) lp;
  rd_log : fileOrNone (tree s !! lp);
}.
Definition contentOf (o : option entry) : bytes := match o with Some (File data _) => data | _ => [] end.
Definition contentEntry (o : option entry) : entry := default Directory o.
Definition logText (s : FS) : bytes := contentOf (tree s !! lp).
Definition valueOf (s : FS) : option Digest :=
  match tree s !! vp with
  | Some (File data _) => match ParseDigest (TrimSpace data) with Ok d => Some d | Err _ => None end
  | _ => None
  end.

Lemma ready_grows (X : path -> Prop) s s' : ready s -> grows X s s' ->
  (forall q k, vp = q ++ k -> k <> [] -> ~ X q) -> (forall q k, lp = q ++ k -> k <> [] -> ~ X q) ->
  fileOrNone (tree s' !! vp) -> fileOrNone (tree s' !! lp) -> ready s'.
Proof.
  intros [Hp Hc _ Hc' _] Hg Hv Hl Hfv Hfl. split; [by apply (gr_parents _ _ _ Hg)|by eapply grows_clear|done|by eapply grows_clear|done].
Qed.

(** The log's directory is made, then the line goes at the end. *)
Lemma closing_evolves c s r c' s' : (attempt syscall;; mret tt) c s = (r, c', s') -> c' = c /\ r = Ok tt /\ evolves s (tree s) s'.
Proof.
  intros H. apply bind_attempt in H as (r0 & c0 & s0 & E & H). apply syscall_inv in E as (-> & He & _). munfold. by simplify_eq.
Qed.
Lemma orElse_inv {A} (m : M FS A) f c s r c' s' : orElse m (attempt syscall;; mret tt) f c s = (r, c', s') ->
  exists r0 c0 s0, m c s = (r0, c0, s0) /\
    match r0 with Ok a => r = Ok a /\ c' = c0 /\ s' = s0 | Err e => r = Err (f e) /\ c' = c0 /\ evolves s0 (tree s0) s' end.
Proof.
  intros H. unfold orElse in H. apply bind_attempt in H as (r0 & c0 & s0 & E & H). exists r0, c0, s0. split; [done|].
  destruct r0 as [a|e]; [munfold; by simplify_eq|]. mstep H as E1 with u c1 s1; apply closing_evolves in E1 as (-> & Hr & He); [|done].
  unfold throw in H. by simplify_eq.
Qed.

Lemma appendLog_inv old next c s r c' s' :
  ready s -> appendLog outside now name old next c s = (r, c', s') ->
  c' = c /\ grows (fun x => x = lp) s s' /\
  ((tree s' !! lp = tree s !! lp /\ is_ok r = false) \/
   exists k m, tree s' !! lp = Some (File (logText s ++ k) m) /\ k `prefix_of` logLine now next old /\
     (r = Ok tt -> k = logLine now next old)) /\
  (faults s = [] -> r = Ok tt).
Proof.
  intros Hrd H. pose proof Hrd as [Hp _ _ Hc Hl]. unfold appendLog in H. rewrite logPath_eq, removelast_last in H.
  mstep H as E with u c1 s1; pose proof E as (-> & Hm & Hok1 & Hq1)%mkdirFrom_inv; try done; try (by left);
    try (by eapply clear_prefix); try (by apply (Hc (logSubdir :: dir) [leaf]));
    pose proof (grows_madeDirs _ _ _ _ Hm) as Hg1.
  all: match type of Hm with madeDirs _ _ _ ?sx => assert (Hlp1 : tree sx !! lp = tree s !! lp) by
    (destruct (md_tree _ _ _ _ Hm lp) as [?|(_ & _ & k1 & k2 & E1 & E2)]; [done|]; exfalso; cbn [app] in E2; apply (f_equal length) in E1, E2;
     rewrite length_app in E1; cbn [length] in *; rewrite length_app in E2; cbn [length] in *; lia) end.
  2:{ split_and!; [done|by eapply grows_sub; [|exact Hg1]| |done]. by left. }
  specialize (Hok1 ltac:(by destruct u)). cbn [app] in Hok1. pose proof (md_parents _ _ _ _ Hm) as Hp1.
  assert (Hnodir : tree s1 !! lp <> Some Directory) by (rewrite Hlp1; by destruct Hl as [-> |(? & ? & ->)]).
  assert (Hins : forall s2 s3 e d m, grows (fun x => x = lp) s s2 -> tree s2 !! (logSubdir :: dir) = Some Directory -> tree s2 !! lp <> Some Directory ->
    e = File d m -> evolves s2 (<[lp := e]> (tree s2)) s3 -> grows (fun x => x = lp) s s3 /\ tree s3 !! (logSubdir :: dir) = Some Directory /\ tree s3 !! lp = Some e).
  { intros s2 s3 e d m Hg Hd Hn -> He. split; [eapply grows_trans; [exact Hg|]; eapply grows_insert; [done|exact Hn|eauto|done|exact He]|].
    destruct He as (-> & _). split; [|apply lookup_insert_eq]. rewrite lookup_insert_ne; [done|]. intros Elp. symmetry in Elp. by apply app_self_nil in Elp. }
  assert (Hg1' : grows (fun x => x = lp) s s1) by (by eapply grows_sub; [|exact Hg1]).
  mstep H as E2 with u2 c2 s2; apply os_OpenAppend_inv in E2 as (-> & E2).
  2:{ destruct E2 as [He Hr]. split_and!; [done|by eapply grows_trans; [|apply grows_evolves]|left; split; [|done]; destruct He as (-> & _); done|].
      intros Hf. destruct Hr as [[Hr _]|Hr]; [by destruct (Hr (md_quiet _ _ _ _ Hm Hf))|]. exfalso.
      destruct Hl as [Hl|(d0 & m0 & Hl)]; rewrite <- Hlp1 in Hl.
      - rewrite (resolve_child outside (tree s1) true _ _ Hp1 Hok1 Hl) in Hr. done.
      - rewrite (resolve_present outside (tree s1) true lp _ Hp1 Hl) in Hr; done. }
  assert (H2 : exists m2, grows (fun x => x = lp) s s2 /\ tree s2 !! (logSubdir :: dir) = Some Directory /\ tree s2 !! lp = Some (File (logText s) m2)).
  { unfold logText. rewrite <- Hlp1. destruct E2 as [[He Hr]|[He (x & Hr & Hx)]].
    - destruct Hl as [Hl|(d0 & m0 & Hl)]; rewrite <- Hlp1 in Hl; [|by rewrite (resolve_present outside (tree s1) true lp _ Hp1 Hl) in Hr].
      rewrite Hl. eexists. by eapply Hins.
    - destruct Hl as [Hl|(d0 & m0 & Hl)]; rewrite <- Hlp1 in Hl; [by rewrite (resolve_child outside (tree s1) true _ _ Hp1 Hok1 Hl) in Hr|].
      rewrite Hl. exists m0. destruct He as (Et & Ek & Eq). rewrite Et. split_and!; [|done|done]. eapply grows_trans; [exact Hg1'|]. by apply grows_evolves. }
  destruct H2 as (m2 & Hg2 & Hd2 & Hl2). clear E2.
  mstep H as E3 with u3 c3 s3; apply orElse_inv in E3 as (r3 & c3' & s3' & E3 & Hr3);
    apply (os_Append_inv _ _ _ _ _ _ _ _ _ Hl2) in E3 as (-> & n & He3 & Hn & Hq3);
    destruct (Hins s2 s3' _ _ _ Hg2 Hd2 ltac:(by rewrite Hl2) eq_refl He3) as (Hg3 & Hd3 & Hl3).
  2:{ destruct r3; [by destruct Hr3|]. destruct Hr3 as (_ & -> & He). split_and!; [done|by eapply grows_trans; [|apply grows_evolves]| |].
      - right. exists (take n (logLine now next old)), (clock s2). destruct He as (-> & _). split_and!; [done|apply prefix_take|done].
      - intros Hf. by specialize (Hq3 (gr_quiet _ _ _ Hg2 Hf)). }
  destruct r3 as [[]|e3]; [|by destruct Hr3]. destruct Hr3 as (_ & -> & ->). rewrite Hn in * by done. clear Hn Hq3.
  assert (Hend : forall s4, evolves s3' (tree s3') s4 -> grows (fun x => x = lp) s s4 /\ tree s4 !! lp = Some (File (logText s ++ logLine now next old) (clock s2))).
  { intros s4 He. split; [by eapply grows_trans; [|apply grows_evolves]|]. destruct He as (-> & _). done. }
  mstep H as E4 with u4 c4 s4; apply orElse_inv in E4 as (r4 & c4' & s4' & E4 & Hr4); apply syscall_inv in E4 as (-> & He4 & Hq4 & _).
  2:{ destruct r4; [by destruct Hr4|]. destruct Hr4 as (_ & -> & He). destruct (Hend s') as [Hg5 Hl5].
      { eapply evolves_trans; [exact He4|]. destruct He4 as (<- & _). exact He. }
      split_and!; [done|done|right; eexists _, _; split_and!; [done|done|done]|]. intros Hf. by specialize (Hq4 (gr_quiet _ _ _ Hg3 Hf)). }
  destruct r4; [|by destruct Hr4]. destruct Hr4 as (_ & -> & ->).
  apply mapErr_inv in H as (r5 & E5 & ->). apply syscall_inv in E5 as (-> & He5 & Hq5 & _).
  destruct (Hend s') as [Hg5 Hl5]; [eapply evolves_trans; [exact He4|]; destruct He4 as (<- & _); exact He5|].
  split_and!; [done|done|right; eexists _, _; split_and!; [done|done|done]|].
  intros Hf. destruct (Hend s4' He4) as [Hg4 _]. by rewrite (Hq5 (gr_quiet _ _ _ Hg4 Hf)).
Qed.

Lemma plain_wrapped msg e x : plain e -> errIs (Errorf msg e) x = false.
Proof. intros H. cbn. apply H. Qed.
Lemma ready_resolve s : ready s ->
  match tree s !! vp with
  | Some (File data m) => resolve outside (tree s) true vp = Found (File data m)
  | _ => resolve outside (tree s) true vp = Absent \/ resolve outside (tree s) true vp = NoParent
  end.
Proof.
  intros [Hp Hc Hv _ _]. destruct Hv as [Hv|(d & m & Hv)]; rewrite Hv; [by apply resolve_absent|by apply resolve_present].
Qed.
Lemma ParseDigest_err t e x : ParseDigest t = Err e -> errIs e x = true -> x = ErrInvalidDigest.
Proof.
  unfold ParseDigest, UnmarshalText. intros H Hx. munfold. repeat case_match; simplify_eq/=; by apply bool_decide_eq_true in Hx.
Qed.
Lemma readValue_inv c s r c' s' : ready s -> readValue outside name c s = (r, c', s') ->
  c' = c /\ evolves s (tree s) s' /\
  match r with
  | Ok d => valueOf s = Some d /\ d <> []
  | Err e => valueOf s = None \/ faults s <> []
  end /\
  (forall e, r = Err e -> errIs e RefsNotFound = true -> tree s !! vp = None) /\
  (faults s = [] -> tree s !! vp = None -> exists e, r = Err e /\ errIs e RefsNotFound = true).
Proof.
  intros Hrd H. unfold readValue in H. unfold valuePath in H. rewrite Hsplit in H.
  apply bind_attempt in H as (r0 & c0 & s0 & E & H). apply os_ReadFile_inv in E as (-> & He & E).
  pose proof (ready_resolve s Hrd) as HR. destruct r0 as [data|err].
  - destruct E as (m & E). assert (Hv : tree s !! vp = Some (File data m)).
    { destruct (rd_value s Hrd) as [Hv|(d & m' & Hv)]; rewrite Hv in HR; [destruct HR; congruence|]. rewrite HR in E. by injection E as -> ->. }
    unfold valueOf. rewrite Hv. destruct (ParseDigest (TrimSpace data)) as [d|e] eqn:EP; munfold; simplify_eq.
    + split_and!; try done. by apply ParseDigest_iff in EP as [? _].
    + split_and!; try done; [by left|]. intros ? [= <-] Hx. by apply (ParseDigest_err _ _ RefsNotFound) in EP.
  - assert (Hr : exists e, r = Err e /\ s' = s0 /\ c' = c /\ (errIs err ErrNotExist = true -> errIs e RefsNotFound = true) /\
      (errIs err ErrNotExist = false -> errIs e RefsNotFound = errIs err RefsNotFound)).
    { destruct (errIs err ErrNotExist) eqn:En; munfold; simplify_eq; eexists; split_and!; done. }
    destruct Hr as (e & -> & -> & -> & Hn1 & Hn2).
    assert (Hcase : (faults s <> [] /\ errIs e RefsNotFound = false) \/ (tree s !! vp = None /\ errIs e RefsNotFound = true)).
    { destruct (rd_value s Hrd) as [Hv|(d & m & Hv)]; rewrite Hv in HR.
      - destruct E as [[Hf Hpl]|[[_ ?]|[[-> _]|[_ (x & E & _)]]]]; [left; split; [done|]; rewrite Hn2; by rewrite Hpl|destruct HR; congruence| |destruct HR; congruence].
        right. split; [done|]. by apply Hn1.
      - destruct E as [[Hf Hpl]|[[_ ?]|[[_ [?|?]]|[_ (x & E & Hx)]]]]; [left; split; [done|]; rewrite Hn2; by rewrite Hpl|congruence|congruence|congruence|].
        rewrite HR in E. injection E as <-. by destruct (Hx d m). }
    split_and!; try done.
    + destruct Hcase as [[? _]|[Hv _]]; [by right|left]. unfold valueOf. by rewrite Hv.
    + intros e0 [= <-] Ht. destruct Hcase as [[_ ?]|[? _]]; [congruence|done].
    + intros Hf Hv. destruct Hcase as [[? _]|[_ ?]]; [done|]. eauto.
Qed.

(** ** Set *)
Definition othersKept (s s' : FS) : Prop := forall x data m,
  tree s !! x = Some (File data m) -> x <> vp -> x <> lp -> tree s' !! x = Some (File data m).
Lemma othersKept_grows (X : path -> Prop) s s' : grows X s s' -> (forall x, X x -> x = vp \/ x = lp) -> othersKept s s'.
Proof. intros Hg HX x data m Hx Hv Hl. eapply grows_file; [done| |done]. intros Hin. by destruct (HX x Hin). Qed.
Lemma othersKept_trans s s1 s' : othersKept s s1 -> othersKept s1 s' -> othersKept s s'.
Proof. intros H H' x data m Hx Hv Hl. apply H'; [by apply H|done|done]. Qed.

Lemma prefix_ne_file (r x : path) k : r = x ++ k -> k <> [] -> x <> r.
Proof. intros -> Hk E. apply app_self_nil in E. done. Qed.
Lemma vp_prefix_temp q k i : vp = q ++ k -> k <> [] -> q <> tempPath vp i.
Proof.
  intros E Hk ->. rewrite tempPath_eq, <- app_assoc in E. apply app_inv_head in E. cbn in E. injection E as _ <-. done.
Qed.
Lemma lp_prefix (x : path) q k : lp = q ++ k -> k <> [] -> (forall t, x <> logSubdir :: t) -> x <> [] -> q <> x.
Proof. intros E Hk Hx Hn ->. destruct x as [|y x]; [done|]. injection E as <- _. by destruct (Hx x). Qed.
Lemma vp_nonnil : vp <> [].
Proof. by destruct dir. Qed.

(** The publish of a value file. *)
Lemma publish_value s d c r c' s' : ready s ->
  writeFileAtomic outside vp (DString d ++ [newline]) c s = (r, c', s') ->
  ready s' /\ othersKept s s' /\ logText s' = logText s /\ clock s' = clock s /\ (faults s = [] -> faults s' = []) /\
  (tree s' !! vp = tree s !! vp \/ exists m, tree s' !! vp = Some (File (DString d ++ [newline]) m)) /\
  (r = Ok tt -> exists m, tree s' !! vp = Some (File (DString d ++ [newline]) m)) /\
  (forall j, c = [] -> faults s = [] -> Z.of_nat j < 10000 -> tree s !! tempPath vp j = None -> r = Ok tt /\ c' = []).
Proof.
  intros Hrd H. pose proof Hrd as [Hp Hc Hv Hcl Hl]. unfold writeFileAtomic in H.
  pose proof H as (i & Hset & Hr)%Publish_inv; try done. rewrite rd_data_bytesReader in Hr.
  pose proof (grows_settled _ _ _ _ _ Hp Hset) as Hg.
  assert (Hval : tree s' !! vp = tree s !! vp \/ exists m, tree s' !! vp = Some (File (DString d ++ [newline]) m)).
  { destruct r; [destruct Hr as (_ & [?|(Hx & _)]); [by right|done]|]. destruct Hr as [?|(_ & _ & ?)]; auto. }
  assert (Hlp : tree s' !! lp = tree s !! lp).
  { destruct (gr_other _ _ _ Hg lp) as [?|[E1 E2]]; [|done|].
    - intros [E|E]; [by destruct (vp_lp (dir ++ [leaf]))|]. symmetry in E. by apply temp_lp in E.
    - destruct (sd_other _ _ _ _ _ Hset lp) as [?|(_ & _ & k & E)]; [|by intros E; symmetry in E; apply temp_lp in E|done|].
      + intros E. by apply (vp_lp (dir ++ [leaf])).
      + exfalso. apply (f_equal length) in E. cbn in E. rewrite !length_app in E. cbn in E. lia. }
  split_and!.
  - eapply (ready_grows _ s); [done|exact Hg| | | |].
    + intros q k E Hk [->|E']; [by eapply prefix_ne_file|by eapply vp_prefix_temp].
    + intros q k E Hk [->|E'].
      * by apply (lp_prefix vp vp k E Hk vp_lp vp_nonnil).
      * revert E'. eapply lp_prefix; [exact E|exact Hk|apply temp_lp|]. rewrite tempPath_eq. by destruct dir.
    + destruct Hval as [-> |[m ->]]; [done|right; eauto].
    + by rewrite Hlp.
  - intros x data m Hx Hxv Hxl. destruct (decide (x = tempPath vp i)) as [->|Hne].
    + destruct (sd_temp _ _ _ _ _ Hset) as [->|(E & _)]; [done|congruence].
    + eapply grows_file; [exact Hg| |done]. by intros [?|?].
  - unfold logText. by rewrite Hlp.
  - apply (sd_clock _ _ _ _ _ Hset).
  - apply (sd_quiet _ _ _ _ _ Hset).
  - done.
  - intros ->. destruct Hr as (_ & [?|(Hx & _)]); done.
  - intros j -> Hf Hj Hfree. destruct (Publish_total_free outside dir leaf s Hp Hc Hv j (bytesReader (DString d ++ [newline])) (mkOptions true false) Hf
      (rd_tail_bytesReader _) Hj Hfree) as (s4 & E4). rewrite E4 in H. by simplify_eq.
Qed.

(** The current value, when there is one, reads. *)
Definition sane (s : FS) : Prop := ready s /\ (tree s !! vp = None \/ is_Some (valueOf s)).
Lemma valueOf_written s d m : d <> [] -> tree s !! vp = Some (File (DString d ++ [newline]) m) -> valueOf s = Some d.
Proof. intros Hd E. unfold valueOf. by rewrite E, parseValue. Qed.
Lemma valueOf_same s s' : tree s' !! vp = tree s !! vp -> valueOf s' = valueOf s.
Proof. unfold valueOf. by intros ->. Qed.
Lemma logText_same s s' : tree s' !! lp = tree s !! lp -> logText s' = logText s.
Proof. unfold logText. by intros ->. Qed.
Lemma grows_vp s s' : ready s -> grows (fun x => x = lp) s s' -> fileOrNone (tree s' !! vp) -> tree s' !! vp = tree s !! vp.
Proof.
  intros Hrd Hg Hv. destruct (gr_other _ _ _ Hg vp) as [?|[E1 E2]]; [|done|]; [by intros E; apply vp_lp in E|].
  rewrite E2 in Hv. destruct Hv as [|(? & ? & ?)]; done.
Qed.

(** What an append of the log leaves, for a state whose value file is ready. *)
Lemma append_step old next c s r c' s' : ready s -> (exists e, tree s !! vp = Some e) ->
  appendLog outside now name old next c s = (r, c', s') ->
  c' = c /\ ready s' /\ othersKept s s' /\ tree s' !! vp = tree s !! vp /\
  (exists k, logText s' = logText s ++ k /\ k `prefix_of` logLine now next old /\ (r = Ok tt -> k = logLine now next old)) /\
  (faults s = [] -> faults s' = [] /\ r = Ok tt).
Proof.
  intros Hrd [e Hve] H. apply appendLog_inv in H as (-> & Hg & Hl & Hq); [|done].
  assert (Hv : tree s' !! vp = tree s !! vp).
  { destruct (gr_other _ _ _ Hg vp) as [?|[E1 E2]]; [by intros E; apply vp_lp in E|done|congruence]. }
  assert (Hlog : exists k, logText s' = logText s ++ k /\ k `prefix_of` logLine now next old /\ (r = Ok tt -> k = logLine now next old)).
  { destruct Hl as [[E Hr]|(k & m & E & Hk & Hkr)].
    - exists []. rewrite app_nil_r. split_and!; [by apply logText_same|apply prefix_nil|]. by intros ->.
    - exists k. split_and!; [|done|done]. unfold logText at 1. by rewrite E. }
  split_and!; try done.
  - eapply (ready_grows _ s); [done|exact Hg| | | |].
    + intros q k E Hk ->. by apply (vp_lp (dir ++ [leaf] ++ k)); rewrite E; cbn; rewrite <- app_assoc.
    + intros q k E Hk ->. by apply app_self_nil in E.
    + rewrite Hv. apply Hrd.
    + destruct Hl as [[-> _]|(k & m & -> & _)]; [apply Hrd|right; eauto].
  - eapply othersKept_grows; [exact Hg|]. intros x ->. by right.
  - intros Hf. split; [by apply (gr_quiet _ _ _ Hg)|by apply Hq].
Qed.

Lemma Set_inv d c s r c' s' : ready s -> Set_ outside now name d c s = (r, c', s') ->
  ready s' /\ othersKept s s' /\
  (tree s' !! vp = tree s !! vp \/ d <> [] /\ exists m, tree s' !! vp = Some (File (DString d ++ [newline]) m)) /\
  (exists k, logText s' = logText s ++ k /\ k `prefix_of` logLine now d (default [] (valueOf s)) /\
     (r = Ok tt -> d <> [] /\ k = logLine now d (default [] (valueOf s)) /\ exists m, tree s' !! vp = Some (File (DString d ++ [newline]) m))) /\
  (forall j, c = [] -> faults s = [] -> d <> [] -> tree s !! vp = None \/ is_Some (valueOf s) ->
     Z.of_nat j < 10000 -> tree s !! tempPath vp j = None -> r = Ok tt /\ faults s' = []).
Proof.
  intros Hrd H. unfold Set_ in H.
  assert (Hstay : forall s1 e, evolves s (tree s) s1 -> r = Err e -> s' = s1 ->
    (forall j, c = [] -> faults s = [] -> d <> [] -> tree s !! vp = None \/ is_Some (valueOf s) -> Z.of_nat j < 10000 -> tree s !! tempPath vp j = None -> False) ->
    ready s' /\ othersKept s s' /\
    (tree s' !! vp = tree s !! vp \/ d <> [] /\ exists m, tree s' !! vp = Some (File (DString d ++ [newline]) m)) /\
    (exists k, logText s' = logText s ++ k /\ k `prefix_of` logLine now d (default [] (valueOf s)) /\
       (r = Ok tt -> d <> [] /\ k = logLine now d (default [] (valueOf s)) /\ exists m, tree s' !! vp = Some (File (DString d ++ [newline]) m))) /\
    (forall j, c = [] -> faults s = [] -> d <> [] -> tree s !! vp = None \/ is_Some (valueOf s) ->
       Z.of_nat j < 10000 -> tree s !! tempPath vp j = None -> r = Ok tt /\ faults s' = [])).
  { intros s1 e He -> -> Hno. pose proof (grows_evolves nowhere _ _ He) as Hg. destruct He as (Et & _ & _). split_and!.
    - eapply (ready_grows nowhere s); [done|exact Hg|by intros ? ? ? ? []|by intros ? ? ? ? []|rewrite Et; apply Hrd|rewrite Et; apply Hrd].
    - intros x data m Hx _ _. by rewrite Et.
    - left. by rewrite Et.
    - exists []. rewrite app_nil_r. split_and!; [unfold logText; by rewrite Et|apply prefix_nil|done].
    - intros j Hc Hf Hd Hv Hj Ht. by destruct (Hno j Hc Hf Hd Hv Hj Ht). }
  mstep H as E with u c1 s1; [|pose proof (ctxErr_inv _ _ _ _ _ E) as ->; eapply Hstay; [apply evolves_refl|done|done|]; intros j -> _ _ _ _ _; by rewrite ctxErr_nil in E].
  pose proof (ctxErr_inv _ _ _ _ _ E) as ->. rewrite Hname in H. erewrite bind_ok in H by reflexivity.
  mstep H as E2 with u2 c2 s2; apply lift_inv in E2 as (E2 & -> & ->);
    [|eapply Hstay; [apply evolves_refl|done|done|]; intros j _ _ Hd _ _ _; by rewrite CheckDigest_ok in E2].
  symmetry in E2. apply CheckDigest_ok_inv in E2 as Hd.
  apply bind_attempt in H as (r3 & c3 & s3 & E3 & H). apply readValue_inv in E3 as (-> & He3 & Hr3 & Hnf & Hq3); [|done].
  assert (Hold : (exists old, r3 = Ok old \/ (exists e, r3 = Err e /\ errIs e RefsNotFound = true /\ old = [])) \/
    (exists e, r3 = Err e /\ errIs e RefsNotFound = false)).
  { destruct r3 as [old|e]; [left; eauto|]. destruct (errIs e RefsNotFound) eqn:Ee; [left|right]; eauto 10. }
  destruct Hold as [[old Hold]|(e & -> & Ee)].
  2:{ rewrite Ee in H. unfold throw in H. erewrite bind_err in H by reflexivity. eapply Hstay; [exact He3|by simplify_eq|by simplify_eq|].
      intros j -> Hf _ [Hv|Hv] _ _; [destruct (Hq3 Hf Hv) as (e' & [= <-] & ?); congruence|]. destruct Hr3 as [Hr3|Hr3]; [rewrite Hr3 in Hv; by destruct Hv|done]. }
  assert (Hdef : default [] (valueOf s) = old).
  { destruct Hold as [->|(e & -> & Ee & ->)]; [by destruct Hr3 as [-> _]|]. unfold valueOf. by rewrite (Hnf e eq_refl Ee). }
  assert (Hstep : (mapErr (Errorf "refs: set %s: %w") (writeFileAtomic outside vp (DString d ++ [newline]));;
     mapErr (Errorf "refs: set %s: append log: %w") (appendLog outside now name old d)) c1 s3 = (r, c', s')).
  { unfold valuePath in H. rewrite Hsplit in H. destruct Hold as [->|(e & -> & Ee & ->)]; [|rewrite Ee in H]; by erewrite bind_ok in H by reflexivity. }
  clear H. destruct He3 as (Et3 & Hk3 & Hqq3).
  assert (Hrd3 : ready s3) by (eapply (ready_grows nowhere s); [done|by apply grows_evolves|by intros ? ? ? ? []|by intros ? ? ? ? []|rewrite Et3; apply Hrd|rewrite Et3; apply Hrd]).
  assert (Hlog3 : logText s3 = logText s) by (apply logText_same; by rewrite Et3).
  assert (Hk0 : othersKept s s3) by (intros x data m Hx _ _; by rewrite Et3).
  mstep Hstep as E4 with u4 c4 s4; apply mapErr_inv in E4 as (r4 & E4 & Hr4); apply publish_value in E4 as (Hrd4 & Hok4 & Hl4 & Hc4 & Hq4 & Hv4 & Hs4 & Ht4); try done.
  - destruct r4 as [[]|]; [|done]. destruct (Hs4 eq_refl) as [m4 Hm4].
    apply mapErr_inv in Hstep as (r5 & E5 & ->). apply append_step in E5 as (-> & Hrd5 & Hok5 & Hv5 & (k & Hlk & Hpk & Hrk) & Hq5); [|done|eauto].
    rewrite Hdef. split_and!; [done|eapply othersKept_trans; [exact Hk0|]; by eapply othersKept_trans|right; split; [done|]; exists m4; congruence| |].
    + exists k. split_and!; [congruence|done|]. intros Hr. destruct r5 as [[]|]; [|done]. split_and!; [done|by apply Hrk|]. exists m4. congruence.
    + intros j -> Hf _ _ Hj Ht. destruct Hq5 as [Hf5 ->]; [by apply Hq4, Hqq3|done].
  - destruct r4 as [|e4]; [done|]. simplify_eq. split_and!; [done|by eapply othersKept_trans| | |].
    + destruct Hv4 as [Hv4|Hv4]; [left; by rewrite Hv4, Et3|by right].
    + exists []. rewrite app_nil_r. split_and!; [congruence|apply prefix_nil|done].
    + intros j -> Hf _ _ Hj Ht. rewrite ctxErr_nil in E. injection E as <- <-. destruct (Ht4 j) as [? _]; [done|by apply Hqq3|done|by rewrite Et3|done].
Qed.

(** ** Delete *)
Lemma ready_delete s s' : ready s -> evolves s (delete vp (tree s)) s' -> (exists data m, tree s !! vp = Some (File data m)) -> ready s'.
Proof.
  intros [Hp Hc _ Hcl Hl] (Et & _) (data & m & Hv).
  assert (Hother : forall x, tree s' !! x = None \/ tree s' !! x = tree s !! x).
  { intros x. rewrite Et. destruct (decide (x = vp)) as [->|Hne]; [left; apply lookup_delete_eq|right; by apply lookup_delete_ne]. }
  split.
  - intros q n e He. destruct (Hother (q ++ [n])) as [E|E]; [congruence|]. rewrite E in He. pose proof (Hp q n e He) as Hq.
    rewrite Et, lookup_delete_ne; [done|]. intros <-. congruence.
  - intros q k E Hk. destruct (Hother q) as [->| ->]; [by left|by apply (Hc q k)].
  - left. rewrite Et. apply lookup_delete_eq.
  - intros q k E Hk. destruct (Hother q) as [->| ->]; [by left|by apply (Hcl q k)].
  - destruct (Hother lp) as [->| ->]; [by left|done].
Qed.

Lemma Delete_inv c s r c' s' : ready s -> Delete outside now name c s = (r, c', s') ->
  ready s' /\ othersKept s s' /\
  (tree s' !! vp = tree s !! vp \/ tree s' !! vp = None) /\
  (exists k, logText s' = logText s ++ k /\ k `prefix_of` logLine now [] (default [] (valueOf s)) /\
     (r = Ok tt -> tree s' !! vp = None /\ k = match valueOf s with Some old => logLine now [] old | None => [] end)) /\
  (c = [] -> faults s = [] -> tree s !! vp = None \/ is_Some (valueOf s) -> r = Ok tt /\ faults s' = []).
Proof.
  intros Hrd H. unfold Delete in H.
  assert (Hstay : forall s1, evolves s (tree s) s1 -> s' = s1 -> (r = Ok tt -> tree s !! vp = None) ->
    (c = [] -> faults s = [] -> tree s !! vp = None \/ is_Some (valueOf s) -> r = Ok tt) ->
    ready s' /\ othersKept s s' /\
    (tree s' !! vp = tree s !! vp \/ tree s' !! vp = None) /\
    (exists k, logText s' = logText s ++ k /\ k `prefix_of` logLine now [] (default [] (valueOf s)) /\
       (r = Ok tt -> tree s' !! vp = None /\ k = match valueOf s with Some old => logLine now [] old | None => [] end)) /\
    (c = [] -> faults s = [] -> tree s !! vp = None \/ is_Some (valueOf s) -> r = Ok tt /\ faults s' = [])).
  { intros s1 He -> Hnone Hno. pose proof (grows_evolves nowhere _ _ He) as Hg. destruct He as (Et & _ & Hq). split_and!.
    - eapply (ready_grows nowhere s); [done|exact Hg|by intros ? ? ? ? []|by intros ? ? ? ? []|rewrite Et; apply Hrd|rewrite Et; apply Hrd].
    - intros x data m Hx _ _. by rewrite Et.
    - left. by rewrite Et.
    - exists []. rewrite app_nil_r. split_and!; [unfold logText; by rewrite Et|apply prefix_nil|]. intros Hr. rewrite Et. split; [by apply Hnone|].
      unfold valueOf. by rewrite Hnone.
    - intros Hc Hf Hv. split; [by apply Hno|by apply Hq]. }
  mstep H as E with u c1 s1; [|pose proof (ctxErr_inv _ _ _ _ _ E) as ->; eapply Hstay; [apply evolves_refl|done|done|]; intros -> _ _; by rewrite ctxErr_nil in E].
  pose proof (ctxErr_inv _ _ _ _ _ E) as ->. rewrite Hname in H. erewrite bind_ok in H by reflexivity.
  apply bind_attempt in H as (r3 & c3 & s3 & E3 & H). apply readValue_inv in E3 as (-> & He3 & Hr3 & Hnf & Hq3); [|done].
  unfold valuePath in H. rewrite Hsplit in H. destruct r3 as [old|e].
  2:{ destruct (errIs e RefsNotFound) eqn:Ee; munfold; simplify_eq.
      - eapply Hstay; [exact He3|done| |done]. intros _. by apply (Hnf e).
      - eapply Hstay; [exact He3|done|done|]. intros _ Hf [Hv|Hv]; [destruct (Hq3 Hf Hv) as (e' & [= <-] & ?); congruence|].
        destruct Hr3 as [Hr3|Hr3]; [rewrite Hr3 in Hv; by destruct Hv|done]. }
  destruct Hr3 as [Hval Hold]. clear Hnf Hq3 Hstay. destruct He3 as (Et3 & Hk3 & Hq3).
  assert (Hfile : exists data m, tree s !! vp = Some (File data m)).
  { unfold valueOf in Hval. destruct (tree s !! vp) as [[]|]; eauto; done. }
  assert (Hrd3 : ready s3) by (eapply (ready_grows nowhere s); [done|by apply grows_evolves|by intros ? ? ? ? []|by intros ? ? ? ? []|rewrite Et3; apply Hrd|rewrite Et3; apply Hrd]).
  assert (Hlog3 : logText s3 = logText s) by (apply logText_same; by rewrite Et3).
  assert (Hk0 : othersKept s s3) by (intros x data m Hx _ _; by rewrite Et3).
  rewrite Hval. cbn [default from_option].
  mstep H as E4 with u4 c4 s4; apply mapErr_inv in E4 as (r4 & E4 & Hr4);
    apply append_step in E4 as (-> & Hrd4 & Hok4 & Hv4 & (k & Hlk & Hpk & Hrk) & Hq4); try (destruct Hfile as (? & ? & ?); rewrite Et3; by eauto); try done.
  2:{ destruct r4 as [|e4]; [done|]. simplify_eq. split_and!; [done|by eapply othersKept_trans|left; by rewrite Hv4, Et3|exists k; by rewrite Hlk, Hlog3|].
      intros _ Hf _. by destruct Hq4 as [_ ?]; [apply Hq3|]. }
  destruct r4 as [[]|]; [|done]. specialize (Hrk eq_refl).
  apply bind_attempt in H as (r5 & c5 & s5 & E5 & H). apply os_Remove_inv in E5 as (-> & E5).
  assert (Hv4' : exists data m, tree s4 !! vp = Some (File data m)) by (by rewrite Hv4, Et3).
  assert (Hres : resolve outside (tree s4) false vp = Found (contentEntry (tree s4 !! vp))).
  { destruct Hv4' as (data & m & E'). rewrite E'. apply resolve_present; [apply Hrd4|done|done]. }
  destruct r5 as [[]|e5].
  - destruct E5 as [He5 _]. assert (s' = s5 /\ r = Ok tt) as [-> ->] by (by munfold; simplify_eq). pose proof He5 as (Et5 & _ & Hq5).
    assert (Hlp : tree s5 !! lp = tree s4 !! lp) by (rewrite Et5; apply lookup_delete_ne, vp_lp).
    split_and!; [exact (ready_delete s4 s5 Hrd4 He5 Hv4')| |right; rewrite Et5; apply lookup_delete_eq| |].
    + eapply othersKept_trans; [exact Hk0|]. eapply othersKept_trans; [exact Hok4|]. intros x data m Hx Hne _. rewrite Et5, lookup_delete_ne by done. done.
    + exists k. split_and!; [by rewrite (logText_same s4 s5) by done; rewrite Hlk, Hlog3|done|]. intros _. split; [rewrite Et5; apply lookup_delete_eq|done].
    + intros _ Hf _. destruct Hq4; [by apply Hq3|]. auto.
  - destruct E5 as [He5 Hr5]. assert (Hx : errIs e5 ErrNotExist = false /\ faults s4 <> []).
    { rewrite Hres in Hr5. destruct Hr5 as [[Hf Hpl]|[[_ Hd]|[[_ ?]|[_ [?|?]]]]]; [by split; [apply Hpl|]| |done..].
      destruct Hv4' as (data & m & E'). rewrite E' in Hd. done. }
    destruct Hx as [Hx Hf4]. assert (s' = s5 /\ exists e, r = Err e) as (-> & e & ->) by (rewrite Hx in H; munfold; simplify_eq; eauto).
    pose proof He5 as (Et5 & _ & Hq5). split_and!.
    + eapply (ready_grows nowhere s4); [done|by apply grows_evolves|by intros ? ? ? ? []|by intros ? ? ? ? []|rewrite Et5; apply Hrd4|rewrite Et5; apply Hrd4].
    + eapply othersKept_trans; [exact Hk0|]. eapply othersKept_trans; [exact Hok4|]. intros x data m ? _ _. by rewrite Et5.
    + left. by rewrite Et5, Hv4, Et3.
    + exists k. split_and!; [by rewrite (logText_same s4 s5) by (by rewrite Et5); rewrite Hlk, Hlog3|done|done].
    + intros _ Hf _. destruct Hq4 as [Hq4 _]; [by apply Hq3|]. by destruct (Hf4 Hq4).
Qed.
End Facts.

(** ** The store's promises for one name *)
Section Promises.
Variable outside : path -> option entry.
Variables (name : bytes) (dir : path) (leaf : bytes).
Hypothesis Hname : ValidateName name = Ok tt.
Hypothesis Hsplit : splitOn slash name = dir ++ [leaf].
Abbreviation vp := (dir ++ [leaf]).
Abbreviation lp := ((logSubdir :: dir) ++ [leaf]).
Abbreviation ready := (ready dir leaf).
Abbreviation sane := (sane dir leaf).
Abbreviation valueOf := (valueOf dir leaf).
Abbreviation logText := (logText dir leaf).

(** The disk with no more failures to come. *)
Definition quiet (s : FS) : FS := mkFS (tree s) [] (clock s).
Lemma quiet_id s : faults s = [] -> quiet s = s.
Proof. destruct s. cbn. by intros ->. Qed.
Lemma ready_tree s s' : ready s -> tree s' = tree s -> ready s'.
Proof. intros [? ? ? ? ?] E. split; by rewrite E. Qed.
Lemma ReadFile_quiet p s : parents (tree s) -> clear (tree s) p -> fileOrNone (tree s !! p) ->
  exists s', os_ReadFile outside p [] (quiet s) = (match tree s !! p with Some (File data _) => Ok data | _ => Err ENOENT end, [], s').
Proof.
  intros Hp Hc Hf. destruct Hf as [E|(data & m & E)].
  - rewrite E. destruct (os_ReadFile outside p [] (quiet s)) as [[r c'] s'] eqn:ER. exists s'.
    apply os_ReadFile_inv in ER as (-> & _ & Hr). cbn [tree faults quiet] in Hr.
    pose proof (resolve_absent outside (tree s) true p Hc E) as Ha. destruct r as [data|e].
    + destruct Hr as (m & Hr). destruct Ha; congruence.
    + destruct Hr as [[? _]|[[_ ?]|[[-> _]|[_ (x & ? & _)]]]]; [done|destruct Ha; congruence|done|destruct Ha; congruence].
  - rewrite E. destruct (os_ReadFile_total outside p (quiet s) data m eq_refl) as (s' & E' & _); [by apply resolve_present|]. eauto.
Qed.
Lemma Get_quiet s : ready s -> run_res (Get outside name [] (quiet s)) =
  match tree s !! vp with
  | Some (File data _) =>
    match ParseDigest (TrimSpace data) with Ok d => Ok d | Err err => Err (Errorf "refs: get %s: %w" err) end
  | _ => Err (Errorf "%w: %s" RefsNotFound)
  end.
Proof.
  intros [Hp Hc Hv _ _]. unfold Get. erewrite bind_ok by apply ctxErr_nil. rewrite Hname. erewrite bind_ok by reflexivity.
  unfold readValue, valuePath. rewrite Hsplit. destruct (ReadFile_quiet vp s Hp Hc Hv) as (s' & E).
  erewrite bind_ok by (unfold attempt; by rewrite E). destruct Hv as [->|(data & m & ->)]; [done|]. by destruct (ParseDigest _).
Qed.
Lemma Get_value s d : ready s -> valueOf s = Some d -> run_res (Get outside name [] (quiet s)) = Ok d.
Proof.
  intros Hrd Hv. rewrite Get_quiet by done. unfold Refs.valueOf in Hv. destruct (tree s !! vp) as [[]|]; try done.
  destruct (ParseDigest _); by simplify_eq.
Qed.

(** C13. Setting a ref is atomic and final: whatever call fails and whenever the
    context ends, a later Get answers what it answered before or the new digest,
    no other file that existed changes, and the log grows by a prefix of the one line
    that records the change; success means Get answers the new digest and the
    whole line is there; and without faults, with one of the temp names free, setting
    a ref that reads (or is new) to a digest succeeds. *)
Theorem refs_Set_spec (now : Z) (d : Digest) (c c' : ctx) (s s' : FS) (r : res unit) :
  ready s -> Set_ outside now name d c s = (r, c', s') ->
  (run_res (Get outside name [] (quiet s')) = run_res (Get outside name [] (quiet s)) \/
   run_res (Get outside name [] (quiet s')) = Ok d) /\
  othersKept dir leaf s s' /\
  (exists k, logText s' = logText s ++ k /\ k `prefix_of` logLine now d (default [] (valueOf s)) /\
     (r = Ok tt -> run_res (Get outside name [] (quiet s')) = Ok d /\ k = logLine now d (default [] (valueOf s)))) /\
  (forall j, c = [] -> faults s = [] -> d <> [] -> sane s ->
     Z.of_nat j < 10000 -> tree s !! tempPath vp j = None -> r = Ok tt).
Proof.
  intros Hrd H. apply (Set_inv outside now name dir leaf Hname Hsplit) in H as (Hrd' & Hk & Hv & (k & Hl & Hpk & Hok) & Hq); [|done].
  assert (Hget : forall m, d <> [] -> tree s' !! vp = Some (File (DString d ++ [newline]) m) -> run_res (Get outside name [] (quiet s')) = Ok d).
  { intros m Hd E. apply Get_value; [done|]. by eapply valueOf_written. }
  split_and!; [|done| |].
  - destruct Hv as [Hv|(Hd & m & Hv)]; [left|right; eauto]. rewrite !Get_quiet by done. by rewrite Hv.
  - exists k. split_and!; [done|done|]. intros Hr. destruct (Hok Hr) as (Hd & -> & m & E). eauto.
  - intros j -> Hf Hd [_ Hs] Hj Ht. by apply (Hq j).
Qed.

(** *** Recovery *)

(** Any calls that change the ref, whatever they met, with the disk's
    failures and clock free to change in between. *)
Inductive moves (s : FS) : FS -> Prop :=
  | moves_done s' : tree s' = tree s -> moves s s'
  | moves_Set now d c r c' s1 s2 : moves s s1 -> Set_ outside now name d c s1 = (r, c', s2) -> moves s s2
  | moves_Delete now c r c' s1 s2 : moves s s1 -> Delete outside now name c s1 = (r, c', s2) -> moves s s2
  | moves_time s1 s2 : moves s s1 -> tree s2 = tree s1 -> moves s s2.
Lemma sane_tree s s' : sane s -> tree s' = tree s -> sane s'.
Proof. intros [Hrd Hv] E. split; [by eapply ready_tree|]. by rewrite E, (valueOf_same _ _ s s') by (by rewrite E). Qed.
Lemma sane_written s s' : sane s -> ready s' -> tree s' !! vp = tree s !! vp \/ tree s' !! vp = None \/ is_Some (valueOf s') -> sane s'.
Proof.
  intros [_ Hs] Hrd [E|[E|E]]; (split; [done|]); [|by left|by right]. rewrite E. by rewrite (valueOf_same _ _ s s').
Qed.
Lemma moves_sane s s' : sane s -> moves s s' -> sane s'.
Proof.
  intros Hs. induction 1 as [s' E|now d c r c' s1 s2 _ IH H|now c r c' s1 s2 _ IH H|s1 s2 _ IH E].
  - by eapply sane_tree.
  - apply (Set_inv outside now name dir leaf Hname Hsplit) in H as (Hrd & _ & Hv & _); [|apply IH]. eapply sane_written; [exact IH|done|].
    destruct Hv as [?|(Hd & m & Hv)]; [by left|right; right]. exists d. by eapply valueOf_written.
  - apply (Delete_inv outside now name dir leaf Hname Hsplit) in H as (Hrd & _ & Hv & _); [|apply IH]. eapply sane_written; [exact IH|done|].
    destruct Hv; auto.
  - by eapply sane_tree.
Qed.

(** C14. A ref is never stuck.  From a store where the ref reads or is absent,
    after any sequence of sets and deletes, each cut short by any failure or by
    its context, a set on a disk that no longer fails succeeds as soon as one of
    the temp names is free, and Get then answers the digest set; a delete
    succeeds too, and Get then answers ErrNotFound. *)
Theorem refs_recover (now : Z) (d : Digest) (j : nat) (s s' : FS) :
  sane s -> moves s s' -> faults s' = [] -> d <> [] -> Z.of_nat j < 10000 -> tree s' !! tempPath vp j = None ->
  (let set := Set_ outside now name d [] s' in
   run_res set = Ok tt /\ run_res (Get outside name [] (run_st set)) = Ok d) /\
  (let del := Delete outside now name [] s' in
   run_res del = Ok tt /\ exists e, run_res (Get outside name [] (run_st del)) = Err e /\ errIs e RefsNotFound = true).
Proof.
  intros Hs Hm Hf Hd Hj Ht. apply moves_sane in Hm as [Hrd Hv]; [|done]. split.
  - destruct (Set_ outside now name d [] s') as [[r c2] s2] eqn:E. cbn.
    apply (Set_inv outside now name dir leaf Hname Hsplit) in E as (Hrd2 & _ & _ & (k & _ & _ & Hok) & Hq); [|done].
    destruct (Hq j eq_refl Hf Hd Hv Hj Ht) as [-> Hf2]. destruct (Hok eq_refl) as (_ & _ & m & Em). split; [done|].
    rewrite <- (quiet_id s2) by done. apply Get_value; [done|]. by eapply valueOf_written.
  - destruct (Delete outside now name [] s') as [[r c2] s2] eqn:E. cbn.
    apply (Delete_inv outside now name dir leaf Hname Hsplit) in E as (Hrd2 & _ & _ & (k & _ & _ & Hok) & Hq); [|done].
    destruct (Hq eq_refl Hf Hv) as [-> Hf2]. destruct (Hok eq_refl) as [En _]. split; [done|].
    rewrite <- (quiet_id s2) by done. rewrite Get_quiet, En by done. eexists. split; [done|]. by vm_compute.
Qed.

(** *** History *)

(** The log's file is the lines of these entries, oldest first. *)
Definition logged (s : FS) (es : list Entry) : Prop :=
  logText s = concat (map entryLine es) /\ Forall (fun e => - 2 ^ 63 <= en_Time e < 2 ^ 63) es.
Lemma logged_snoc s s' es e : logged s es -> - 2 ^ 63 <= en_Time e < 2 ^ 63 -> logText s' = logText s ++ entryLine e -> logged s' (es ++ [e]).
Proof.
  intros [Hl Ht] He E. split; [|by apply Forall_app; split; [|constructor]]. rewrite E, Hl, map_app, concat_app. cbn. by rewrite app_nil_r.
Qed.
Definition newest (limit : Z) (es : list Entry) : list Entry :=
  if 0 <? limit then take (Z.to_nat limit) (reverse es) else reverse es.
Lemma Log_quiet s es limit : ready s -> faults s = [] -> logged s es -> exists s', Log outside name limit [] s = (Ok (newest limit es), [], s').
Proof.
  intros Hrd Hf [Hl Ht]. rewrite <- (quiet_id s) by done. destruct (ReadFile_quiet lp s (rd_parents _ _ _ Hrd) (rd_clearLog _ _ _ Hrd) (rd_log _ _ _ Hrd)) as (s' & E).
  exists s'. unfold Log. erewrite bind_ok by apply ctxErr_nil. rewrite Hname. erewrite bind_ok by reflexivity.
  rewrite (logPath_eq name dir leaf Hsplit). erewrite bind_ok by (unfold attempt; by rewrite E).
  assert (Hcase : (tree s !! lp = None /\ es = []) \/ exists data m, tree s !! lp = Some (File data m) /\ parseLog data = es).
  { unfold Refs.logText in Hl. destruct (rd_log _ _ _ Hrd) as [El|(data & m & El)]; rewrite El in Hl; cbn in Hl.
    - left. split; [done|]. destruct es as [|e es]; [done|]. cbn in Hl. destruct (formatInt (en_Time e)) eqn:Ef; unfold entryLine, logLine in Hl; rewrite Ef in Hl; done.
    - right. exists data, m. split; [done|]. rewrite Hl. rewrite <- (app_nil_r (concat _)), parseLog_entries by done. cbn. apply app_nil_r. }
  destruct Hcase as [[-> ->]|(data & m & -> & ->)].
  - unfold newest. cbn. destruct (0 <? limit); [|done]. by destruct (Z.to_nat limit).
  - assert (Hlen : length (reverse es) = length es) by apply length_reverse.
    unfold newest. destruct (Z.ltb_spec 0 limit) as [H0|H0]; [|done]. cbn [andb].
    destruct (Z.ltb_spec limit (Z.of_nat (length (reverse es)))) as [H1|H1]; [done|]. by rewrite take_ge by lia.
Qed.
Lemma Previous_quiet s es : ready s -> faults s = [] -> logged s es ->
  run_res (Previous outside name [] s) = match list.last es with
    | Some e => if IsZero (en_Old e) then Err (Errorf "%w: %s has no previous revision" RefsNotFound) else Ok (en_Old e)
    | None => Err (Errorf "%w: %s has no previous revision" RefsNotFound)
    end.
Proof.
  intros Hrd Hf Hl. destruct (Log_quiet s es 1 Hrd Hf Hl) as (s' & E). unfold Previous. erewrite bind_ok by exact E.
  destruct es as [|e es _] using rev_ind; [done|]. rewrite last_snoc. unfold newest. cbn [Z.ltb Z.compare]. rewrite reverse_snoc.
  cbn [take Z.to_nat]. change (Z.to_nat 1) with 1%nat. cbn [take]. by destruct (IsZero (en_Old e)).
Qed.

(** The log is the ref's history.  Over a log that reads as [es], a set that
    succeeds makes it [es] and one entry with the digest, the digest it replaced
    and the time; a delete adds a tombstone with the digest it removed, or
    nothing when there was none.  On a disk that does not fail, Log answers the
    last entries first, cut at the limit, and Previous after a set answers the digest
    the ref held before it, or ErrNotFound when it is the first. *)
Theorem refs_Log_history (now : Z) (es : list Entry) (s s' : FS) :
  ready s -> logged s es -> - 2 ^ 63 <= now < 2 ^ 63 ->
  (forall d c c', Set_ outside now name d c s = (Ok tt, c', s') ->
     let es' := es ++ [mkEntry d (default [] (valueOf s)) now] in
     logged s' es' /\
     (forall limit, faults s' = [] -> run_res (Log outside name limit [] s') = Ok (newest limit es')) /\
     (faults s' = [] -> run_res (Previous outside name [] s') =
        match valueOf s with Some old => Ok old | None => Err (Errorf "%w: %s has no previous revision" RefsNotFound) end)) /\
  (forall c c', Delete outside now name c s = (Ok tt, c', s') ->
     let es' := es ++ match valueOf s with Some old => [mkEntry [] old now] | None => [] end in
     logged s' es' /\ (forall limit, faults s' = [] -> run_res (Log outside name limit [] s') = Ok (newest limit es'))).
Proof.
  intros Hrd Hl Hn.
  assert (Hread : forall es', ready s' -> logged s' es' -> forall limit, faults s' = [] -> run_res (Log outside name limit [] s') = Ok (newest limit es')).
  { intros es' Hrd' Hl' limit Hf. destruct (Log_quiet s' es' limit Hrd' Hf Hl') as (s2 & E). by rewrite E. }
  split; intros.
  - apply (Set_inv outside now name dir leaf Hname Hsplit) in H as (Hrd' & _ & _ & (k & Hk & _ & Hok) & _); [|done].
    destruct (Hok eq_refl) as (_ & -> & _). assert (Hl' : logged s' es') by (by eapply logged_snoc). split_and!; [done|by apply Hread|].
    intros Hf. rewrite (Previous_quiet s' es') by done. unfold es'. rewrite last_snoc. cbn [en_Old]. destruct (valueOf s) as [old|] eqn:Ev; [|done].
    cbn. assert (Ho : old <> []); [|by destruct old]. unfold Refs.valueOf in Ev. repeat case_match; try done. simplify_eq. by eapply ParseDigest_iff.
  - apply (Delete_inv outside now name dir leaf Hname Hsplit) in H as (Hrd' & _ & _ & (k & Hk & _ & Hok) & _); [|done].
    destruct (Hok eq_refl) as (_ & ->). assert (Hl' : logged s' es'); [|split; [done|by apply Hread]]. unfold es'. destruct (valueOf s) as [old|].
    + by eapply logged_snoc.
    + rewrite app_nil_r in *. destruct Hl as [Hl Ht]. split; [congruence|done].
Qed.
End Promises.

(** ** A store on a disk of its own *)
Definition noLinks : path -> option entry := fun _ => None.
Definition mainRef : bytes := str "main".
Definition first : Digest := str "first".
Definition second : Digest := str "second".
(** The failure of the [n]-th call, a write storing only [k] bytes. *)
Definition failing (n k : nat) : FS := mkFS (tree emptyDisk) (replicate n None ++ [Some (mkFault "disk full" k)]) 7.
Lemma ready_disk fs ck : ready [] mainRef (mkFS (tree emptyDisk) fs ck).
Proof.
  split; cbn [tree].
  - apply emptyDisk_parents.
  - apply emptyDisk_clear.
  - left. by vm_compute.
  - intros [|x [|y q]] k E Hk; [by right|left|].
    + injection E as <- _. by vm_compute.
    + injection E as _ _ E. destruct q; [|done]. by destruct k.
  - left. by vm_compute.
Qed.

Definition setMain := Set_ noLinks 5 mainRef first [] emptyDisk.
Example refs_Set_spec_witness : run_res setMain = Ok tt /\ run_res (Get noLinks mainRef [] (quiet (run_st setMain))) = Ok first.
Proof.
  assert (Hr : run_res setMain = Ok tt) by (vm_compute; reflexivity).
  split; [exact Hr|]. destruct setMain as [[r c'] s'] eqn:E. cbn [run_res run_st fst snd] in *. subst r.
  destruct (refs_Set_spec noLinks mainRef [] mainRef eq_refl eq_refl 5 first [] c' emptyDisk s' (Ok tt) (ready_disk [] 7) E) as (_ & _ & (k & _ & _ & Hok) & _).
  exact (proj1 (Hok eq_refl)).
Defined.

(** The first set fails when its log line is half written. *)
Definition torn := Set_ noLinks 5 mainRef first [] (failing 9 10).
Definition afterTorn := Set_ noLinks 6 mainRef second [] (quiet (run_st torn)).
Example refs_recover_witness : is_ok (run_res torn) = false /\ run_res afterTorn = Ok tt /\ run_res (Get noLinks mainRef [] (run_st afterTorn)) = Ok second.
Proof.
  split; [vm_compute; reflexivity|].
  assert (Ht : tree (quiet (run_st torn)) !! tempPath ([] ++ [mainRef]) 0 = None) by (vm_compute; reflexivity).
  unfold afterTorn. destruct torn as [[r c'] s'] eqn:E. cbn [run_st snd] in *.
  assert (Hm : moves noLinks mainRef (failing 9 10) (quiet s')).
  { eapply moves_time; [eapply moves_Set; [by eapply moves_done|exact E]|done]. }
  exact (proj1 (refs_recover noLinks mainRef [] mainRef eq_refl eq_refl 6 second 0 (failing 9 10) (quiet s')
    (conj (ready_disk _ _) (or_introl eq_refl)) Hm eq_refl ltac:(discriminate) ltac:(lia) Ht)).
Defined.

Definition setAgain := Set_ noLinks 6 mainRef second [] (run_st setMain).
Lemma setMain_state : ready [] mainRef (run_st setMain) /\ logged [] mainRef (run_st setMain) [mkEntry first [] 5] /\ valueOf [] mainRef (run_st setMain) = Some first.
Proof.
  split_and!.
  - destruct setMain as [[r c'] s'] eqn:E. apply (Set_inv noLinks 5 mainRef [] mainRef) in E as [Hrd _]; [done..|apply ready_disk].
  - split; [vm_compute; reflexivity|]. repeat constructor; done.
  - vm_compute. reflexivity.
Qed.
Example refs_Log_history_witness : run_res setAgain = Ok tt /\
  run_res (Log noLinks mainRef 0 [] (run_st setAgain)) = Ok [mkEntry second first 6; mkEntry first [] 5] /\
  run_res (Previous noLinks mainRef [] (run_st setAgain)) = Ok first.
Proof.
  assert (Hr : run_res setAgain = Ok tt) by (vm_compute; reflexivity). assert (Hf : faults (run_st setAgain) = []) by (vm_compute; reflexivity).
  split; [exact Hr|]. destruct setMain_state as (Hrd & Hl & Hv). unfold setAgain in *.
  destruct (Set_ noLinks 6 mainRef second [] (run_st setMain)) as [[r c'] s'] eqn:E. cbn [run_res run_st fst snd] in *. subst r.
  destruct (refs_Log_history noLinks mainRef [] mainRef eq_refl eq_refl 6 [mkEntry first [] 5] (run_st setMain) s' Hrd Hl ltac:(split; [|]; reflexivity || discriminate)) as [HS _].
  destruct (HS second [] c' E) as (_ & HL & HP). rewrite Hv in HL, HP. split; [exact (HL 0 Hf)|exact (HP Hf)].
Defined.

(** ** Where the store falls short *)

(** A valid name that looks like a temp file: set, and read by Get, but in no
    list, so neither resolved nor a root. *)
Definition tmpRef : bytes := str "v1.tmp".
Definition setTmp := Set_ noLinks 5 tmpRef first [] emptyDisk.
Theorem refs_tmp_hidden : ValidateName tmpRef = Ok tt /\ run_res setTmp = Ok tt /\
  run_res (Get noLinks tmpRef [] (run_st setTmp)) = Ok first /\
  run_res (List noLinks [] (run_st setTmp)) = Ok [] /\
  run_res (Roots noLinks [] (run_st setTmp)) = Ok [] /\
  run_res (Resolve noLinks tmpRef [] (run_st setTmp)) = Err (Errorf "%w: %s" RefsNotFound).
Proof. split_and!; vm_compute; reflexivity. Qed.

(** After an append that stored part of a line, a later set succeeds but its own
    entry is glued to that part, and the log loses it. *)
Theorem refs_torn_hides_next : run_res torn = Err (Errorf "refs: set %s: append log: %w" (New "disk full")) /\
  run_res afterTorn = Ok tt /\ run_res (Log noLinks mainRef 0 [] (run_st afterTorn)) = Ok [].
Proof. split_and!; vm_compute; reflexivity. Qed.

(** A line that lost its end still parses when what is left of its last digest is one:
    the entry then names a digest no ref held. *)
Theorem torn_line_accepted : parseLog (logLine 6 second first) = [mkEntry second first 6] /\
  parseLog (take (length (logLine 6 second first) - 3) (logLine 6 second first)) = [mkEntry second (str "firs") 6].
Proof. split; vm_compute; reflexivity. Qed.
End Refs.
