(* ===== verification/RefsList.v ===== *)
(** The refs store's listing (Refs.List of src/cas/refs/refs.go) and what is
    looked up in it: Resolve and Roots. *)

From S2P Require Import Prelude Digest Binary Stream FileSystem AtomicFile OsFile RefText Refs.

Module RefsList.
Import Refs.

(** A path that can be a ref: not under the log's directory, and not a temp file. *)
Definition listed (p : path) : bool :=
  match p with
  | [] => false
  | top :: _ => negb (bool_decide (top = logSubdir)) && negb (IsTempFile (default [] (list.last p)))
  end.
Definition refAt (kv : path * entry) : option Ref :=
  if listed kv.1 then
    match kv.2 with
    | File data _ => match ParseDigest (TrimSpace data) with Ok d => Some (mkRef (joinWith slash kv.1) d) | Err _ => None end
    | _ => None
    end
  else None.
(** A file that should be a ref's value but does not parse. *)
Definition damaged (kv : path * entry) : Prop :=
  listed kv.1 = true /\ exists data m, kv.2 = File data m /\ is_ok (ParseDigest (TrimSpace data)) = false.

(** The refs the directory holds. *)
Definition stored (t : gmap path entry) (r : Ref) : Prop :=
  exists m data, listed (splitOn slash (Name r)) = true /\ t !! splitOn slash (Name r) = Some (File data m) /\
    ParseDigest (TrimSpace data) = Ok (RefDigest r).

Section Listing.
Variable outside : path -> option entry.

(** A directory of refs: names of a file system, and nothing but files and
    directories where refs are. *)
Record sound (t : gmap path entry) : Prop := {
  so_root : t !! [] = None \/ t !! [] = Some Directory;
  so_parents : parents t;
  so_names : forall p e, t !! p = Some e -> Forall (fun n => slash ∉ n) p;
  so_plain : forall p e, t !! p = Some e -> head p <> Some logSubdir -> e = Directory \/ exists data m, e = File data m;
}.
Lemma listed_head p : listed p = true -> head p <> Some logSubdir.
Proof. destruct p as [|top p]; [done|]. cbn. case_bool_decide; [done|]. congruence. Qed.
Lemma resolveFrom_plain t follow full q rest e :
  (forall k k', rest = k ++ k' -> forall m, t !! (q ++ k) <> Some (Symlink m)) ->
  resolveFrom outside t follow full q rest = Found e -> t !! (q ++ rest) = Some e.
Proof.
  revert q. induction rest as [|n rest IH]; intros q Hn H; cbn [resolveFrom] in H; pose proof (Hn [] _ eq_refl) as Hq; rewrite app_nil_r in Hq.
  - rewrite app_nil_r. destruct (t !! q) as [[]|] eqn:E; simplify_eq; try done. by destruct (Hq mtime).
  - destruct (t !! q) as [[]|]; try done; [|by destruct (Hq mtime)]. apply IH in H; [by rewrite <- app_assoc in H|].
    intros k k' -> m. rewrite <- app_assoc. by apply (Hn (n :: k) k').
Qed.
Lemma sound_split t p e : sound t -> t !! p = Some e -> p <> [] -> splitOn slash (joinWith slash p) = p.
Proof. intros Ht E Hp. apply splitOn_joinWith; [done|]. by eapply so_names. Qed.

Lemma readValue_file name c s r c' s' data m :
  sound (tree s) -> tree s !! splitOn slash name = Some (File data m) ->
  readValue outside name c s = (r, c', s') ->
  c' = c /\ evolves s (tree s) s' /\
  match r with
  | Ok d => ParseDigest (TrimSpace data) = Ok d
  | Err _ => faults s <> [] \/ is_ok (ParseDigest (TrimSpace data)) = false
  end.
Proof.
  intros Hs Hv H. unfold readValue in H. apply bind_attempt in H as (r0 & c0 & s0 & E & H).
  pose proof (resolve_present outside (tree s) true (valuePath name) _ (so_parents _ Hs) Hv ltac:(done)) as HR.
  apply os_ReadFile_inv in E as (-> & He & E). rewrite HR in E. destruct r0 as [data'|err].
  - destruct E as (m' & [= <- <-]). destruct (ParseDigest (TrimSpace data)) as [d|e] eqn:EP; munfold; simplify_eq; split_and!; try done. by right.
  - assert (Hf : faults s <> []) by (destruct E as [[? _]|[[_ ?]|[[_ [?|?]]|[_ (x & [= <-] & Hx)]]]]; [done..|by destruct (Hx data m)]).
    destruct (errIs err ErrNotExist); munfold; simplify_eq; split_and!; try done; by left.
Qed.

(** One entry. *)
Lemma listEntry_spec p e c (st : FS * list Ref) r c' st' :
  sound (tree st.1) -> tree st.1 !! p = Some e ->
  listEntry outside p e None c st = (r, c', st') ->
  c' = c /\ evolves st.1 (tree st.1) st'.1 /\
  match r with
  | Ok skip => st'.2 = st.2 ++ option_list (refAt (p, e)) /\ ~ damaged (p, e)
  | Err _ => faults st.1 <> [] \/ damaged (p, e)
  end.
Proof.
  intros Hs Hp H. destruct st as [s out]. cbn [fst snd] in *. unfold listEntry in H.
  assert (Hskip : listed p = false \/ e = Directory -> forall x : option unit, (mret x : M (FS * list Ref) (option unit)) c (s, out) = (r, c', st') -> c' = c /\ evolves s (tree s) st'.1 /\
    match r with Ok _ => st'.2 = out ++ option_list (refAt (p, e)) /\ ~ damaged (p, e) | Err _ => faults s <> [] \/ damaged (p, e) end).
  { intros Hl x E. munfold. simplify_eq. split; [done|]. split; [apply evolves_refl|].
    unfold refAt. cbn [fst snd]. split.
    - destruct Hl as [-> | ->]; [by rewrite app_nil_r|]. destruct (listed p); by rewrite app_nil_r.
    - intros (Hl' & data & m & E & _). cbn in *. destruct Hl as [Hl|Hl]; congruence. }
  destruct p as [|top p]; [by eapply Hskip; [left|]|]. unfold listed in Hskip. case_decide as Htop.
  { rewrite bool_decide_eq_true_2 in Hskip by done. destruct (isDir e); by eapply Hskip; [left|]. }
  rewrite bool_decide_eq_false_2 in Hskip by done. cbn [negb andb] in Hskip.
  destruct (IsTempFile (default [] (list.last (top :: p)))) eqn:Et; [rewrite orb_true_r in H; by eapply Hskip; [left|]|].
  rewrite orb_false_r in H. assert (Hl : listed (top :: p) = true) by (unfold listed; by rewrite bool_decide_eq_false_2, Et).
  destruct (so_plain _ Hs _ _ Hp (listed_head _ Hl)) as [->|(data & m & ->)]; cbn [isDir] in H; [by eapply Hskip; [by right|exact H]|]. clear Hskip.
  apply bind_attempt in H as (r0 & c0 & st0 & E & H). unfold onFS in E. cbn [fst snd] in E.
  destruct (readValue outside (joinWith slash (top :: p)) c s) as [[r1 c1] s1] eqn:ER.
  apply (readValue_file _ _ _ _ _ _ data m) in ER as (-> & He & Hr); [|done|by rewrite (sound_split _ _ _ Hs Hp)].
  simplify_eq. unfold refAt, damaged. cbn [fst snd]. rewrite Hl. destruct r0 as [d|err].
  - unfold modify in H. munfold. simplify_eq. split_and!; [done|done|cbn; by rewrite Hr|]. intros (_ & data' & m' & [= <- <-] & Hd). by rewrite Hr in Hd.
  - munfold. simplify_eq. split_and!; [done|done|]. destruct Hr as [?|?]; [by left|right]. eauto 10.
Qed.

(** The walk over entries that are all in the tree. *)
Lemma visitEntry_spec kv c (st : FS * list Ref) r c' st' :
  sound (tree st.1) -> tree st.1 !! kv.1 = Some kv.2 ->
  visitEntry outside kv c st = (r, c', st') ->
  c' = c /\ evolves st.1 (tree st.1) st'.1 /\
  match r with
  | Ok _ => st'.2 = st.2 ++ option_list (refAt kv) /\ ~ damaged kv
  | Err _ => faults st.1 <> [] \/ damaged kv
  end.
Proof.
  destruct kv as [p e]. cbn [fst snd]. intros Hs Hp H.
  set (post := fun (r : res unit) c' st' => c' = c /\ evolves st.1 (tree st.1) st'.1 /\
    match r with Ok _ => st'.2 = st.2 ++ option_list (refAt (p, e)) /\ ~ damaged (p, e) | Err _ => faults st.1 <> [] \/ damaged (p, e) end).
  change (post r c' st').
  (* after the callback, the read of a directory *)
  assert (Hdir : forall c1 (s1 : FS * list Ref), c1 = c -> evolves st.1 (tree st.1) s1.1 ->
    s1.2 = st.2 ++ option_list (refAt (p, e)) /\ ~ damaged (p, e) ->
    match e with
    | Directory => r ← attempt (onFS syscall); match r with Ok _ => mret tt | Err err => listEntry outside p e (Some err);; mret tt end
    | _ => mret tt
    end c1 s1 = (r, c', st') -> post r c' st').
  { intros c1 s1 -> He Hl E. destruct e; try (munfold; simplify_eq; done).
    apply bind_attempt in E as (r2 & c2 & s2 & E2 & E). apply onFS_syscall in E2 as (-> & Hs2 & He2 & Hok & _).
    pose proof He as (Et & _ & Hq).
    assert (He3 : evolves st.1 (tree st.1) s2.1) by (rewrite Et in He2; by eapply evolves_trans).
    destruct r2 as [[]|err]; unfold listEntry in E; munfold; simplify_eq; unfold post; (split; [done|]; split; [done|]).
    - by rewrite Hs2.
    - left. intros Hf. by specialize (Hok (Hq Hf)). }
  unfold visitEntry in H. destruct p as [|top [|n p]].
  1, 2: mstep H as E with skip c1 s1; apply listEntry_spec in E as (-> & He & Hl); try done; destruct skip as [[]|]; [by eapply Hdir|];
    munfold; simplify_eq; exact (conj eq_refl (conj He Hl)).
  case_decide as Htop.
  - munfold. simplify_eq. unfold post, refAt, damaged, listed. cbn [fst snd]. rewrite bool_decide_eq_true_2 by done. cbn.
    split_and!; [done|apply evolves_refl|by rewrite app_nil_r|]. by intros [? _].
  - mstep H as E with skip c1 s1; apply listEntry_spec in E as (-> & He & Hl); try done. by eapply Hdir.
Qed.
Lemma visitLoop l c (st : FS * list Ref) r c' st' :
  sound (tree st.1) -> (forall kv, kv ∈ l -> tree st.1 !! kv.1 = Some kv.2) ->
  forM_ l (visitEntry outside) c st = (r, c', st') ->
  c' = c /\ evolves st.1 (tree st.1) st'.1 /\
  match r with
  | Ok _ => st'.2 = st.2 ++ omap refAt l /\ forall kv, kv ∈ l -> ~ damaged kv
  | Err _ => faults st.1 <> [] \/ exists kv, kv ∈ l /\ damaged kv
  end.
Proof.
  revert c st. induction l as [|kv l IH]; intros c st Hs Hin H; cbn [forM_] in H.
  { munfold. simplify_eq. split_and!; [done|apply evolves_refl|by rewrite app_nil_r|]. by intros ? ?%not_elem_of_nil. }
  mstep H as E with u c1 s1; apply visitEntry_spec in E as (-> & He & Hl); try done; try (apply Hin; by left); pose proof He as (Ht & _ & Hq).
  - apply IH in H as (-> & He2 & Hl2); [|by rewrite Ht|intros ? ?; rewrite Ht; apply Hin; by right]. rewrite Ht in He2.
    split; [done|]. split; [by eapply evolves_trans|]. destruct Hl as [Hl Hd], r as [[]|err].
    + destruct Hl2 as [Hl2 Hd2]. split.
      * rewrite Hl2, Hl. cbn. destruct (refAt kv); cbn [option_list]; by rewrite <- app_assoc.
      * intros kv' [->|?]%elem_of_cons; auto.
    + destruct Hl2 as [Hl2|(kv' & Hk & Hd2)]; [left; auto|right; exists kv'; split; [by right|done]].
  - split_and!; [done|done|]. destruct Hl as [?|?]; [by left|right; exists kv; split; [by left|done]].
Qed.

(** ** The list *)
Lemma refAt_stored t p e x : sound t -> t !! p = Some e -> refAt (p, e) = Some x -> splitOn slash (Name x) = p /\ stored t x.
Proof.
  intros Hs Hp. unfold refAt. cbn [fst snd]. destruct (listed p) eqn:El; [|done]. destruct e as [data m| | |]; try done.
  destruct (ParseDigest (TrimSpace data)) as [d|] eqn:EP; [|done]. intros [= <-]. cbn [Name].
  assert (Ep : splitOn slash (joinWith slash p) = p) by (eapply sound_split; [done|done|]; by intros ->).
  split; [done|]. exists m, data. cbn [Name RefDigest]. by rewrite Ep.
Qed.
Lemma stored_refAt t x : stored t x -> exists e, t !! splitOn slash (Name x) = Some e /\ refAt (splitOn slash (Name x), e) = Some x.
Proof.
  intros (m & data & El & Ev & EP). eexists. split; [exact Ev|]. unfold refAt. cbn [fst snd]. rewrite El, EP, joinWith_splitOn. by destruct x.
Qed.
Lemma stored_name t x y : stored t x -> stored t y -> Name x = Name y -> x = y.
Proof. intros (m & data & _ & E & P) (m' & data' & _ & E' & P') En. rewrite En in E. destruct x, y. cbn in *. congruence. Qed.
Definition refsOf (t : gmap path entry) : list Ref := omap refAt (walkOrder t).
Lemma elem_of_refsOf t x : sound t -> x ∈ refsOf t <-> stored t x.
Proof.
  intros Hs. unfold refsOf. rewrite list_elem_of_omap. split.
  - intros ([p e] & Hin%elem_of_walkOrder & Hr). by eapply refAt_stored.
  - intros (e & Ep & Er)%stored_refAt. eexists. split; [|exact Er]. by apply elem_of_walkOrder.
Qed.
Lemma NoDup_refsOf t : sound t -> NoDup (refsOf t).
Proof.
  intros Hs. unfold refsOf. rewrite walkOrder_perm. apply NoDup_omap; [apply NoDup_map_to_list|].
  intros [p e] [p' e'] x Hin%elem_of_map_to_list Hin'%elem_of_map_to_list E E'.
  apply (refAt_stored t) in E as [<- _]; [|done..]. apply (refAt_stored t) in E' as [<- _]; [|done..]. f_equal. congruence.
Qed.

Definition readable (t : gmap path entry) : Prop :=
  forall p data m, listed p = true -> t !! p = Some (File data m) -> is_ok (ParseDigest (TrimSpace data)) = true.
Lemma readable_undamaged t kv : readable t -> t !! kv.1 = Some kv.2 -> ~ damaged kv.
Proof. intros Hr Hk (Hl & data & m & E & Hd). rewrite E in Hk. specialize (Hr _ _ _ Hl Hk). congruence. Qed.

Lemma stat_root follow c s r c' s' : sound (tree s) -> statWith outside follow [] c s = (r, c', s') ->
  c' = c /\ evolves s (tree s) s' /\
  match r with
  | Ok e => e = Directory /\ tree s !! [] = Some Directory
  | Err e => (faults s <> [] /\ plain e) \/ (e = ENOENT /\ tree s !! [] = None)
  end.
Proof.
  intros Hs (-> & He & Hr)%statWith_inv. split; [done|]. split; [done|].
  assert (HR : resolve outside (tree s) follow [] = match tree s !! [] with Some _ => Found Directory | None => Absent end).
  { unfold resolve. simpl. by destruct (so_root _ Hs) as [-> | ->]. }
  rewrite HR in Hr. destruct (so_root _ Hs) as [Er|Er]; rewrite Er in *; destruct r as [e|e]; simplify_eq; try done; try (split; done);
    destruct Hr as [?|[[_ ?]|[? [?|?]]]]; try done; auto.
Qed.
Lemma sound_empty t : sound t -> t !! [] = None -> forall p, t !! p = None.
Proof.
  intros Hs Hn p. destruct (t !! p) as [e|] eqn:E; [|done]. destruct (decide (p = [])) as [->|Hne]; [congruence|].
  rewrite (parents_prefix t [] p e) in Hn; [done|apply Hs|done|done].
Qed.

Lemma walkRefs_spec c (s : FS) r c' st' : sound (tree s) -> walkRefs outside c (s, []) = (r, c', st') ->
  c' = c /\ evolves s (tree s) st'.1 /\
  match r with
  | Ok _ => st'.2 = refsOf (tree s)
  | Err _ => faults s <> [] \/ tree s !! [] = None \/ ~ readable (tree s)
  end.
Proof.
  intros Hs H. unfold walkRefs in H. apply bind_attempt in H as (r0 & c0 & st0 & E & H).
  unfold onFS in E. cbn [fst snd] in E. destruct (os_Lstat outside [] c s) as [[r2 c2] s2] eqn:E2. simplify_eq.
  apply stat_root in E2 as (-> & He & Hr); [|done]. pose proof He as (Et & _ & Hq). destruct r0 as [e|err].
  - mstep H as E3 with s3 c3 st3; unfold onFS, get in E3; cbn [fst snd] in E3; simplify_eq.
    apply visitLoop in H as (-> & He2 & Hl); cbn [fst snd] in *; [|by rewrite Et|by intros kv ?%elem_of_walkOrder].
    rewrite Et in *. split; [done|]. split; [by eapply evolves_trans|]. destruct r as [[]|err]; [by destruct Hl|].
    destruct Hl as [?|(kv & Hk%elem_of_walkOrder & Hd)]; [left; auto|right; right]. intros Hre. by destruct (readable_undamaged _ kv Hre Hk).
  - unfold listEntry in H. munfold. simplify_eq. cbn [fst snd]. split_and!; [done|done|]. destruct Hr as [[? _]|[_ ?]]; auto.
Qed.
Lemma List_inv c s r c' s' : sound (tree s) -> List outside c s = (r, c', s') ->
  evolves s (tree s) s' /\
  match r with
  | Ok out => out = merge_sort name_le (refsOf (tree s))
  | Err _ => c <> [] \/ faults s <> [] \/ ~ readable (tree s)
  end.
Proof.
  intros Hs H. unfold List in H. mstep H as E with u c1 s1; pose proof (ctxErr_inv _ _ _ _ _ E) as ->.
  2:{ split; [apply evolves_refl|]. left. intros ->. by rewrite ctxErr_nil in E. }
  apply bind_attempt in H as (r0 & c0 & s0 & E2 & H). apply stat_root in E2 as (-> & He & Hr); [|done]. pose proof He as (Et & _ & Hq).
  assert (Hwalk : (if false then mret [] else '(err, out) ← withVar [] (walkRefs outside); match err with Some err => throw err | None => mret (merge_sort name_le out) end) c1 s0 = (r, c', s') ->
    evolves s (tree s) s' /\ match r with Ok out => out = merge_sort name_le (refsOf (tree s)) | Err _ => c <> [] \/ faults s <> [] \/ tree s !! [] = None \/ ~ readable (tree s) end).
  { intros HW. mstep HW as E3 with p c2 s2; unfold withVar in E3; destruct (walkRefs outside c1 (s0, [])) as [[r3 c3] [s3 out]] eqn:EW;
      apply walkRefs_spec in EW as (-> & He3 & Hl); try (by rewrite Et); rewrite Et in *; cbn [fst snd] in *; destruct r3 as [[]|err]; simplify_eq;
      munfold; simplify_eq; (split; [by eapply evolves_trans|]); [done|].
    right. destruct Hl as [?|Hl]; [left; auto|by right]. }
  destruct r0 as [e|err].
  - destruct Hr as [_ Hroot]. destruct (Hwalk H) as [He2 Hl]. split; [done|]. destruct r; [done|]. destruct Hl as [?|[?|[?|?]]]; auto. congruence.
  - destruct Hr as [[Hf Hpl]|[-> Hn]].
    + rewrite Hpl in H. destruct (Hwalk H) as [He2 Hl]. split; [done|]. destruct r; [done|]. auto.
    + change (errIs ENOENT ErrNotExist) with true in H. munfold. simplify_eq. split; [done|].
      destruct (refsOf (tree s)) as [|x l] eqn:El; [done|]. assert (Hx : x ∈ refsOf (tree s)) by (rewrite El; by left).
      apply elem_of_refsOf in Hx as (m & data & _ & Ex & _); [|done]. by rewrite sound_empty in Ex.
Qed.
#[local] Instance name_le_total : Total name_le.
Proof. intros a b. unfold name_le. apply (total bytes_le). Qed.
#[local] Instance name_le_trans : Transitive name_le.
Proof. intros a b d. unfold name_le. by intros ? ?; etrans. Qed.
Lemma elem_of_listed t x : sound t -> x ∈ merge_sort name_le (refsOf t) <-> stored t x.
Proof. intros Hs. rewrite merge_sort_Permutation. by apply elem_of_refsOf. Qed.

Lemma NoDup_listed t : sound t -> NoDup (map Name (merge_sort name_le (refsOf t))).
Proof.
  intros Hs. apply NoDup_fmap_2_strong; [|rewrite merge_sort_Permutation; by apply NoDup_refsOf].
  intros x y Hx%elem_of_listed Hy%elem_of_listed; [|done..]. by eapply stored_name.
Qed.
Lemma Get_stored s name d : sound (tree s) -> run_res (Get outside name [] (quiet s)) = Ok d -> listed (splitOn slash name) = true ->
  stored (tree s) (mkRef name d).
Proof.
  intros Hs Hg Hl. unfold Get in Hg. erewrite bind_ok in Hg by apply ctxErr_nil. destruct (ValidateName name) as [[]|]; [|done].
  erewrite bind_ok in Hg by reflexivity. destruct (readValue outside name [] (quiet s)) as [[r c'] s'] eqn:E. cbn in Hg. subst r.
  unfold readValue in E. apply bind_attempt in E as (r0 & c0 & s0 & E & H). apply os_ReadFile_inv in E as (-> & _ & Hr).
  destruct r0 as [data|e]; [|destruct (errIs e ErrNotExist); munfold; simplify_eq]. destruct Hr as (m & Hr).
  destruct (ParseDigest (TrimSpace data)) as [d'|] eqn:EP; munfold; simplify_eq. exists m, data. cbn [Name RefDigest tree quiet] in *.
  split_and!; [done| |done]. apply resolveFrom_plain in Hr; [done|]. intros k k' Ek m' Em. cbn [app] in Em.
  apply (so_plain _ Hs) in Em; [naive_solver|]. apply listed_head in Hl. unfold valuePath in Ek. rewrite Ek in Hl. by destruct k.
Qed.

(** The list is the refs the directory holds, no more and no fewer: every file
    outside the log that is not named as a temp file, under its whole name, with
    the digest its content spells, sorted by name and each once.  A call that
    fails on the way, or a value that does not parse, is an error and never a shorter
    list; without either, List succeeds.  Roots answers the digests of that
    list, so what Get answers for a name that is not a temp file's is a root. *)
Theorem refs_List_spec (c c' : ctx) (s s' : FS) :
  sound (tree s) ->
  (forall r, List outside c s = (r, c', s') ->
     tree s' = tree s /\
     (forall out, r = Ok out -> StronglySorted name_le out /\ NoDup (map Name out) /\ forall x, x ∈ out <-> stored (tree s) x) /\
     (c = [] -> faults s = [] -> readable (tree s) -> is_ok r = true)) /\
  (forall ds, Roots outside c s = (Ok ds, c', s') ->
     (forall d, d ∈ ds <-> exists x, stored (tree s) x /\ RefDigest x = d) /\
     (forall name d, run_res (Get outside name [] (quiet s)) = Ok d -> listed (splitOn slash name) = true -> d ∈ ds)).
Proof.
  intros Hs. split.
  - intros r (He & Hr)%List_inv; [|done]. destruct He as (Et & _ & _). split; [done|]. split.
    + intros out ->. subst out. split; [apply (StronglySorted_merge_sort _)|]. split; [|intros; by apply elem_of_listed].
      by apply NoDup_listed.
    + intros Hc Hf Hre. destruct r; [done|]. by destruct Hr as [?|[?|?]].
  - intros ds H. unfold Roots in H. mstep H as E with all c1 s1. apply List_inv in E as [_ ->]; [|done]. munfold. simplify_eq.
    assert (Hds : forall d, d ∈ map RefDigest (filter (fun r => IsZero (RefDigest r) = false) (merge_sort name_le (refsOf (tree s)))) <->
      exists x, stored (tree s) x /\ RefDigest x = d).
    { intros d. rewrite list_elem_of_fmap. split.
      - intros (x & -> & [_ Hx%elem_of_listed]%list_elem_of_filter); [|done]. by exists x.
      - intros (x & Hx & <-). exists x. split; [done|]. apply list_elem_of_filter. split; [|by apply elem_of_listed].
        destruct Hx as (m & data & _ & _ & [Hn _]%ParseDigest_iff). by destruct (RefDigest x). }
    split; [exact Hds|]. intros name d Hg Hl. apply Hds. exists (mkRef name d). split; [|done].
    by eapply Get_stored.
Qed.

(** ** Lookups *)
Lemma resolveIn_spec all q : NoDup (map Name all) ->
  match resolveIn all q with
  | Ok r => r ∈ all /\ (Name r = q \/ (q ∉ map Name all) /\ HasPrefix (Name r) q = true /\ forall r', r' ∈ all -> HasPrefix (Name r') q = true -> r' = r)
  | Err e => (q ∉ map Name all) /\
      ((errIs e RefsNotFound = true /\ forall r, r ∈ all -> HasPrefix (Name r) q = false) \/
       (errIs e RefsAmbiguous = true /\ exists r r', r ∈ all /\ r' ∈ all /\ r <> r' /\ HasPrefix (Name r) q = true /\ HasPrefix (Name r') q = true))
  end.
Proof.
  intros Hn. unfold resolveIn. destruct (list_find _ all) as [[i r]|] eqn:Ef.
  - apply list_find_Some in Ef as (Hi & Hr & _). split; [by eapply list_elem_of_lookup_2|by left].
  - assert (Hq : q ∉ map Name all).
    { intros (r & Er & Hr)%list_elem_of_fmap. apply list_find_None in Ef. rewrite list.Forall_forall in Ef. by apply (Ef r). }
    assert (Hin : forall r, r ∈ filter (fun r => HasPrefix (Name r) q = true) all <-> HasPrefix (Name r) q = true /\ r ∈ all) by (intros r; by rewrite list_elem_of_filter).
    assert (Hd : NoDup (filter (fun r => HasPrefix (Name r) q = true) all)) by (by apply list.NoDup_filter, (NoDup_fmap_1 Name)).
    destruct (filter _ all) as [|r [|r' l]].
    + split; [done|]. left. split; [done|]. intros r Hr. apply not_true_is_false. intros Hp. by apply (not_elem_of_nil r), Hin.
    + destruct (proj1 (Hin r) ltac:(by left)) as [Hp Hr]. split; [done|]. right. split_and!; [done|done|]. intros r' Hr' Hp'.
      pose proof (proj2 (Hin r') (conj Hp' Hr')) as Hx. by apply list_elem_of_singleton in Hx.
    + destruct (proj1 (Hin r) ltac:(by left)) as [Hp Hr], (proj1 (Hin r') ltac:(right; by left)) as [Hp' Hr'].
      split; [done|]. right. split; [done|]. exists r, r'. split_and!; try done. intros ->. apply list.NoDup_cons in Hd as [Hd _]. apply Hd. by left.
Qed.

(** Resolve finds what it may find and nothing else.  What it answers is a
    stored ref: the one with the name asked for, or else the only one whose name starts
    with it.  When it fails on a disk that does not, and every value parses, the name asked
    for is empty or no ref's own, and either no name starts with it (ErrNotFound)
    or several do (ErrAmbiguous). *)
Theorem refs_Resolve_spec (q : bytes) (c c' : ctx) (s s' : FS) (r : res Ref) :
  sound (tree s) -> Resolve outside q c s = (r, c', s') ->
  match r with
  | Ok x => stored (tree s) x /\ (Name x = q \/ (forall y, stored (tree s) y -> Name y <> q) /\ HasPrefix (Name x) q = true /\
      forall y, stored (tree s) y -> HasPrefix (Name y) q = true -> y = x)
  | Err e => c = [] -> faults s = [] -> readable (tree s) ->
      (q = [] /\ errIs e RefsInvalidName = true) \/
      ((forall y, stored (tree s) y -> Name y <> q) /\
       ((errIs e RefsNotFound = true /\ forall y, stored (tree s) y -> HasPrefix (Name y) q = false) \/
        (errIs e RefsAmbiguous = true /\ exists x y, stored (tree s) x /\ stored (tree s) y /\ x <> y /\
           HasPrefix (Name x) q = true /\ HasPrefix (Name y) q = true)))
  end.
Proof.
  intros Hs H. unfold Resolve in H. mstep H as E with u c1 s1; pose proof (ctxErr_inv _ _ _ _ _ E) as ->.
  2:{ intros -> _ _. by rewrite ctxErr_nil in E. }
  case_bool_decide as Hq; [munfold; simplify_eq; by left|]. mstep H as E2 with all c2 s2; apply List_inv in E2 as [_ Hl]; try done.
  2:{ intros -> Hf Hre. rewrite ctxErr_nil in E. injection E as <- <-. by destruct Hl as [?|[?|?]]. }
  apply lift_inv in H as (-> & _ & _). subst all.
  pose proof (resolveIn_spec (merge_sort name_le (refsOf (tree s))) q) as HR.
  assert (Hnd : NoDup (map Name (merge_sort name_le (refsOf (tree s))))) by (by apply NoDup_listed).
  specialize (HR Hnd). assert (Hel : forall y, y ∈ merge_sort name_le (refsOf (tree s)) <-> stored (tree s) y) by (intros; by apply elem_of_listed).
  assert (Hne : q ∉ map Name (merge_sort name_le (refsOf (tree s))) -> forall y, stored (tree s) y -> Name y <> q).
  { intros Hn y Hy <-. apply Hn, list_elem_of_fmap. exists y. split; [done|]. by apply Hel. }
  clear Hnd. destruct (resolveIn _ q) as [x|e].
  - destruct HR as [Hx HR]. split; [by apply Hel|]. destruct HR as [?|(? & ? & Hu)]; [by left|right]. split_and!; [auto|done|]. intros. apply Hu; [by apply Hel|done].
  - intros _ _ _. right. destruct HR as [Hn HR]. split; [auto|]. destruct HR as [[? Hu]|[? (x & y & Hx & Hy & ?)]]; [left|right]; (split; [done|]).
    + intros. apply Hu. by apply Hel.
    + exists x, y. split_and!; try done; try (by apply Hel); naive_solver.
Qed.
End Listing.

(** ** A directory of two refs *)
Definition soundb (t : gmap path entry) : bool :=
  forallb (fun kv : path * entry =>
    match kv.1 with [] => bool_decide (kv.2 = Directory) | _ => bool_decide (t !! removelast kv.1 = Some Directory) end &&
    forallb (fun n => bool_decide (slash ∉ n)) kv.1 &&
    (bool_decide (head kv.1 = Some logSubdir) || match kv.2 with Directory | File _ _ => true | _ => false end)) (map_to_list t).
Lemma soundb_ok t : soundb t = true -> sound t.
Proof.
  unfold soundb. rewrite forallb_forall. intros H.
  assert (Hb : forall p e, t !! p = Some e -> match p with [] => e = Directory | _ => t !! removelast p = Some Directory end /\
    Forall (fun n => slash ∉ n) p /\ (head p = Some logSubdir \/ e = Directory \/ exists data m, e = File data m)).
  { intros p e E%elem_of_map_to_list%list_elem_of_In%H. cbn [fst snd] in E. rewrite !andb_true_iff in E. destruct E as [[E1 E2] E3]. split_and!.
    - destruct p; by apply bool_decide_eq_true in E1.
    - apply list.Forall_forall. intros n Hn. rewrite forallb_forall in E2. by apply list_elem_of_In, E2, bool_decide_eq_true in Hn.
    - apply orb_true_iff in E3 as [E3%bool_decide_eq_true|E3]; [by left|right]. destruct e; naive_solver. }
  split.
  - destruct (t !! []) as [e|] eqn:E; [right|by left]. apply Hb in E as [-> _]. done.
  - intros p n e E. apply Hb in E as [E _]. destruct (p ++ [n]) eqn:Ep; [by destruct p|]. rewrite <- Ep, removelast_last in E. done.
  - intros p e E. by apply Hb in E as (_ & ? & _).
  - intros p e E Hh. apply Hb in E as (_ & _ & [?|?]); done.
Qed.

Definition maskRef : bytes := str "mask".
Definition twoRefs : FS := run_st (Set_ noLinks 6 maskRef second [] (run_st setMain)).
Lemma twoRefs_sound : sound (tree twoRefs).
Proof. apply soundb_ok. vm_compute. reflexivity. Qed.
Example refs_List_spec_witness : exists out ds, run_res (List noLinks [] twoRefs) = Ok out /\ run_res (Roots noLinks [] twoRefs) = Ok ds /\
  NoDup (map Name out) /\ (mkRef mainRef first ∈ out <-> stored (tree twoRefs) (mkRef mainRef first)) /\ first ∈ ds.
Proof.
  assert (HL : run_res (List noLinks [] twoRefs) = Ok [mkRef mainRef first; mkRef maskRef second]) by (vm_compute; reflexivity).
  assert (HR : run_res (Roots noLinks [] twoRefs) = Ok [first; second]) by (vm_compute; reflexivity).
  assert (HG : run_res (Get noLinks mainRef [] (quiet twoRefs)) = Ok first) by (vm_compute; reflexivity).
  eexists _, _. split; [exact HL|]. split; [exact HR|].
  destruct (List noLinks [] twoRefs) as [[r c'] s'] eqn:EL, (Roots noLinks [] twoRefs) as [[r2 c2] s2] eqn:ER. cbn [run_res fst] in HL, HR. subst r r2.
  destruct (refs_List_spec noLinks [] c' twoRefs s' twoRefs_sound) as [H1 _].
  destruct (refs_List_spec noLinks [] c2 twoRefs s2 twoRefs_sound) as [_ H2].
  destruct (H1 _ EL) as (_ & Hout & _). destruct (Hout _ eq_refl) as (_ & Hn & Hin). destruct (H2 _ ER) as [_ Hg].
  split; [exact Hn|]. split; [exact (Hin _)|]. exact (Hg mainRef first HG eq_refl).
Defined.
Example refs_Resolve_spec_witness : exists x, run_res (Resolve noLinks (str "mas") [] twoRefs) = Ok x /\ stored (tree twoRefs) x.
Proof.
  assert (HR : run_res (Resolve noLinks (str "mas") [] twoRefs) = Ok (mkRef maskRef second)) by (vm_compute; reflexivity).
  eexists. split; [exact HR|]. destruct (Resolve noLinks (str "mas") [] twoRefs) as [[r c'] s'] eqn:E. cbn [run_res fst] in HR. subst r.
  exact (proj1 (refs_Resolve_spec noLinks (str "mas") [] c' twoRefs s' (Ok (mkRef maskRef second)) twoRefs_sound E)).
Defined.
End RefsList.
