(* ===== verification/FilePath.v ===== *)
(** Paths as strings, the way Go's path/filepath handles them on a system whose
    separator is the slash, and the validity of UTF-8.

    A path is cleaned component by component; two strings name the same path
    lexically when their components agree. *)

From S2P Require Import Prelude RefText.

(** ** filepath.Clean and filepath.Join *)
Definition dot : bytes := str ".".
Definition dotdot : bytes := str "..".

(** One component onto the cleaned ones so far, the last one first. *)
Definition cleanStep (rooted : bool) (acc : list bytes) (c : bytes) : list bytes :=
  if bool_decide (c = []) || bool_decide (c = dot) then acc
  else if bool_decide (c = dotdot) then
    match acc with
    | [] => if rooted then [] else [dotdot]
    | x :: rest => if bool_decide (x = dotdot) then dotdot :: acc else rest
    end
  else c :: acc.
Definition isRooted (s : bytes) : bool := match s with b :: _ => bool_decide (b = slash) | [] => false end.
Definition components (s : bytes) : bool * list bytes :=
  (isRooted s, reverse (foldl (cleanStep (isRooted s)) [] (splitOn slash s))).
Definition render (p : bool * list bytes) : bytes :=
  match p with
  | (true, cs) => slash :: joinWith slash cs
  | (false, []) => dot
  | (false, cs) => joinWith slash cs
  end.
Definition Clean (s : bytes) : bytes := render (components s).
(** [filepath.Join] of two elements: an empty one is left out. *)
Definition Join (a b : bytes) : bytes :=
  match a, b with
  | [], [] => []
  | [], _ => Clean b
  | _, _ => Clean (a ++ slash :: b)
  end.

(** What [filepath.Rel] makes of [s] below [base]: the remaining components, when
    it is neither an error nor leads up out of [base]. *)
Fixpoint below (base cs : list bytes) : option (list bytes) :=
  match base, cs with
  | [], c :: _ => if bool_decide (c = dotdot) then None else Some cs
  | [], [] => Some []
  | x :: base, c :: cs => if bool_decide (x = c) then below base cs else None
  | _ :: _, [] => None
  end.
Definition relInside (base s : bytes) : option (list bytes) :=
  let '(rb, cb) := components base in
  let '(rs, cs) := components s in
  if bool_decide (rb = rs) then below cb cs else None.

Example clean_examples :
  Clean (str "a//b/./c/../d/") = str "a/b/d" /\ Clean (str "/../x") = str "/x" /\ Clean (str "../../y/..") = str "../.." /\ Clean [] = dot /\
  Join (str "./base") (str "packs") = str "base/packs" /\ relInside (str "base/packs") (str "base/packs/current.pack") = Some [str "current.pack"] /\
  relInside (str "base/packs") (str "/srv/base/packs/current.pack") = None /\ relInside (str "a/packs") (str "a/packs2/x") = None.
Proof. vm_compute. done. Qed.

(** ** Cleaning is stable *)
(** A component that cleaning keeps as it is. *)
Definition plainName (n : bytes) : Prop := (slash ∉ n) /\ n <> [] /\ n <> dot /\ n <> dotdot.

Fixpoint settled (r : bool) (acc : list bytes) : Prop :=
  match acc with
  | [] => True
  | x :: acc' => ((slash ∉ x) /\ x <> []) /\ cleanStep r acc' x = acc /\ settled r acc'
  end.
Lemma cleanStep_plain r acc n : plainName n -> cleanStep r acc n = n :: acc.
Proof. intros (_ & H1 & H2 & H3). unfold cleanStep. by rewrite !bool_decide_eq_false_2. Qed.
Lemma settled_step r acc c : slash ∉ c -> settled r acc -> settled r (cleanStep r acc c).
Proof.
  intros Hc Ha. unfold cleanStep at 1. destruct (bool_decide (c = []) || bool_decide (c = dot)) eqn:E1; [done|].
  apply orb_false_iff in E1 as [E0%bool_decide_eq_false E1%bool_decide_eq_false].
  case_bool_decide as E2; [subst c; destruct acc as [|x acc]; [destruct r; [done|]|case_bool_decide as E3; [|apply Ha]]|].
  - cbn. split_and!; [done..].
  - subst x. cbn [settled]. split_and!; [done|done|done|apply Ha..].
  - cbn [settled]. split_and!; [done|done| |done]. unfold cleanStep. by rewrite !bool_decide_eq_false_2.
Qed.
Lemma settled_foldl r acc : settled r acc -> foldl (cleanStep r) [] (reverse acc) = acc.
Proof.
  induction acc as [|x acc IH]; [done|]. intros (_ & Hs & Ha). by rewrite reverse_cons, foldl_app, IH.
Qed.
Lemma settled_parts r acc : settled r acc -> Forall (fun c => slash ∉ c) (reverse acc).
Proof. rewrite Forall_reverse. induction acc as [|x acc IH]; [done|]. intros ([? _] & _ & ?). constructor; auto. Qed.
Lemma components_settled s : settled (components s).1 (reverse (components s).2).
Proof.
  unfold components. cbn [fst snd]. rewrite reverse_involutive. pose proof (splitOn_parts slash s) as Hp. revert Hp.
  generalize (splitOn slash s). assert (Hs : settled (isRooted s) []) by done. revert Hs. generalize (@nil bytes).
  intros acc Hs l. revert acc Hs. induction l as [|c l IH]; intros acc Hs Hl; [done|]. apply list.Forall_cons in Hl as [? ?]. cbn. apply IH; [|done].
  by apply settled_step.
Qed.

Lemma joinWith_snoc sep ps n : ps <> [] -> joinWith sep (ps ++ [n]) = joinWith sep ps ++ sep :: n.
Proof.
  destruct ps as [|p ps]; [done|]. intros _. cbn [joinWith app]. rewrite map_app, concat_app. cbn. by rewrite app_nil_r, app_assoc.
Qed.
Lemma isRooted_join r cs : settled r (reverse cs) -> cs <> [] -> isRooted (joinWith slash cs) = false.
Proof.
  intros Hs. destruct cs as [|c cs]; [done|]. intros _. assert (Hc : (slash ∉ c) /\ c <> []).
  { rewrite reverse_cons in Hs. induction (reverse cs) as [|x l IH]; [apply Hs|]. apply IH, Hs. }
  destruct Hc as [Hc Hn]. destruct c as [|b c]; [done|]. cbn. apply bool_decide_eq_false_2. intros ->. apply Hc. by left.
Qed.
(** The components of a cleaned string are those it was made of. *)
Lemma components_render r cs : settled r (reverse cs) -> components (render (r, cs)) = (r, cs).
Proof.
  intros Hs. pose proof (settled_foldl _ _ Hs) as Hf. pose proof (settled_parts _ _ Hs) as Hp. rewrite reverse_involutive in Hf, Hp.
  destruct cs as [|c0 cs0] eqn:Ecs; [by destruct r|]. rewrite <- Ecs in *. assert (Hne : cs <> []) by congruence.
  assert (Hsp : splitOn slash (joinWith slash cs) = cs) by by apply splitOn_joinWith.
  destruct r; cbn [render].
  - unfold components. cbn [isRooted]. rewrite bool_decide_eq_true_2 by done. f_equal. change (slash :: joinWith slash cs) with ([] ++ slash :: joinWith slash cs). rewrite splitOn_app by apply not_elem_of_nil.
    rewrite Hsp. cbn [foldl]. unfold cleanStep at 2. rewrite bool_decide_eq_true_2 by done. cbn [orb]. rewrite Hf. apply reverse_involutive.
  - assert (E : render (false, cs) = joinWith slash cs) by (by rewrite Ecs). rewrite Ecs in E at 1. cbn [render] in E. 
    replace (match cs with [] => dot | _ => joinWith slash cs end) with (joinWith slash cs) by by rewrite Ecs.
    unfold components. rewrite (isRooted_join false) by done. by rewrite Hsp, Hf, reverse_involutive.
Qed.
Lemma components_Clean s : components (Clean s) = components s.
Proof.
  unfold Clean. pose proof (components_settled s) as H. destruct (components s) as [r cs]. by apply components_render.
Qed.

Lemma components_child s n : s <> [] -> plainName n -> components (s ++ slash :: n) = ((components s).1, (components s).2 ++ [n]).
Proof.
  intros Hs Hn. unfold components. assert (Er : isRooted (s ++ slash :: n) = isRooted s) by by destruct s. rewrite Er.
  rewrite splitOn_newline_free, (splitOn_absent slash n) by apply Hn. rewrite foldl_app. cbn [foldl fst snd].
  by rewrite cleanStep_plain, reverse_cons.
Qed.
Lemma render_snoc r cs n : cs <> [] -> render (r, cs ++ [n]) = render (r, cs) ++ slash :: n.
Proof.
  intros Hne. destruct r; cbn [render]; [by rewrite joinWith_snoc|]. destruct cs as [|c cs]; [done|]. cbn [app].
  by rewrite <- (joinWith_snoc slash (c :: cs)).
Qed.

(** ** A directory made by Join *)
Section Dir.
Variables (base sub : bytes).
Hypothesis Hsub : plainName sub.
Abbreviation dir := (Join base sub).

Lemma Join_components : exists r cs, components dir = (r, cs ++ [sub]) /\ dir = render (r, cs ++ [sub]).
Proof.
  assert (H : exists s r cs, dir = Clean s /\ components s = (r, cs ++ [sub])).
  { destruct base as [|b base'].
    - exists sub, false, []. destruct Hsub as (Hs & Hn & _). split; [by destruct sub|]. unfold components.
      assert (isRooted sub = false) as -> by (destruct sub; [done|]; cbn; apply bool_decide_eq_false_2; intros ->; apply Hs; by left).
      rewrite splitOn_absent by done. cbn [foldl]. by rewrite cleanStep_plain.
    - exists ((b :: base') ++ slash :: sub), (components (b :: base')).1, (components (b :: base')).2.
      split; [done|]. by apply components_child. }
  destruct H as (s & r & cs & -> & E). exists r, cs. split; [by rewrite components_Clean|]. unfold Clean. by rewrite E.
Qed.
Lemma Join_nonempty : dir <> [].
Proof.
  destruct Join_components as (r & cs & _ & ->). intros H. destruct r; [done|]. destruct cs as [|c cs]; cbn [app render] in H.
  - cbn in H. rewrite app_nil_r in H. by destruct Hsub as (_ & ? & _).
  - change (c :: cs ++ [sub]) with ((c :: cs) ++ [sub]) in H. rewrite joinWith_snoc in H by done. by apply app_nil in H as [_ ?].
Qed.

(** A file of the directory, by its string: it is the directory's string, a slash
    and the name, and it is inside the directory under that name. *)
Lemma Join_file n : plainName n -> Join dir n = dir ++ slash :: n /\ relInside dir (Join dir n) = Some [n].
Proof.
  intros Hn. pose proof Join_nonempty as Hd. pose proof (components_child dir n Hd Hn) as Hc.
  assert (E : Join dir n = Clean (dir ++ slash :: n)) by (unfold Join at 1; by destruct dir). rewrite E.
  destruct Join_components as (r & cs & Ec & Ed). rewrite Ec in Hc. cbn [fst snd] in Hc. split.
  - unfold Clean. rewrite Hc, render_snoc; [by rewrite <- Ed|]. by intros [_ ?]%app_nil.
  - unfold relInside. rewrite components_Clean, Hc, Ec. rewrite bool_decide_eq_true_2 by done.
    clear -Hn. induction (cs ++ [sub]) as [|x l IH]; cbn.
    + destruct Hn as (_ & _ & _ & ?). by rewrite bool_decide_eq_false_2.
    + by rewrite bool_decide_eq_true_2.
Qed.
End Dir.

(** ** UTF-8 *)
(** The ranges of the bytes still due, after a byte of a character. *)
Definition tails (n : nat) : list (Z * Z) := replicate n (128, 191).
Definition utf8Step (due : option (list (Z * Z))) (b : byte) : option (list (Z * Z)) :=
  let v := b2z b in
  match due with
  | None => None
  | Some ((lo, hi) :: rest) => if (lo <=? v) && (v <=? hi) then Some rest else None
  | Some [] =>
    if v <? 128 then Some []
    else if (194 <=? v) && (v <=? 223) then Some (tails 1)
    else if v =? 224 then Some ((160, 191) :: tails 1)
    else if v =? 237 then Some ((128, 159) :: tails 1)
    else if (225 <=? v) && (v <=? 239) then Some (tails 2)
    else if v =? 240 then Some ((144, 191) :: tails 2)
    else if (241 <=? v) && (v <=? 243) then Some (tails 3)
    else if v =? 244 then Some ((128, 143) :: tails 2)
    else None
  end.
(** [utf8.ValidString]. *)
Definition ValidString (s : bytes) : bool := bool_decide (foldl utf8Step (Some []) s = Some []).

Lemma ValidString_app a b : ValidString a = true -> ValidString b = true -> ValidString (a ++ b) = true.
Proof.
  unfold ValidString. rewrite !bool_decide_eq_true. intros Ha Hb. by rewrite foldl_app, Ha.
Qed.
Definition isASCII (b : byte) : bool := b2z b <? 128.
Lemma ValidString_ASCII s : forallb isASCII s = true -> ValidString s = true.
Proof.
  intros H. unfold ValidString. apply bool_decide_eq_true. induction s as [|b s IH]; [done|]. cbn in H. apply andb_true_iff in H as [Hb Hs].
  cbn [foldl utf8Step]. unfold isASCII in Hb. rewrite Hb. by apply IH.
Qed.
Example utf8_examples : ValidString [x66; xc3; xbc; xe2; x82; xac; xf0; x9f; x98; x80] = true /\
  ValidString [xff] = false /\ ValidString [xc0; x80] = false /\ ValidString [xed; xa0; x80] = false /\ ValidString [xe2; x82] = false.
Proof. vm_compute. done. Qed.

Lemma Join_file_valid base sub n : plainName sub -> plainName n -> ValidString n = true ->
  ValidString (Join base sub) = true -> ValidString (Join (Join base sub) n) = true.
Proof.
  intros Hs Hn Hv Hd. destruct (Join_file base sub Hs n Hn) as [-> _]. apply ValidString_app; [done|].
  by apply (ValidString_app [slash]).
Qed.
