(* ===== verification/PackFs.v ===== *)
(** The pack-file backend (src/cas/backend/packfs/packfs.go): a loose backend
    mirrored into append-only pack files, with an index of where each object's
    bytes start.

    The loose tree and the pack directory are disjoint directories of the base,
    so the state keeps the loose backend's own state beside the disk below the
    pack directory ([[]] is the pack directory itself).  A record names its pack
    file by the string the code stores, the file's name joined to the pack
    directory's, which a check relates to the directory again; the state's paths are
    below the directory.  The loose backend is any backend; [cfg]'s options are the fields of the package's config. *)

From S2P Require Import Prelude Digest Binary Stream Backend Store FileSystem AtomicFile OsFile FsBackend RefText FilePath.

Module PackFs.

Definition errInvalidPackRecord : error := New "invalid pack record".

Record config := mkConfig { enabled : bool; packMaxBytes : Z; packMaxEntries : Z }.
(** [Pack] is the pack file's path as it was when the record was written. *)
Record packRecord := mkRecord { Pack : bytes; Offset : Z; Size : Z }.
(** An open pack file; a failed Close leaves the handle closed. *)
Record handle := mkHandle { h_path : path; h_closed : bool }.

Section PackFs.
Context {L : Type}.
Variable loose : Backend L.
(** The loose backend's [Stat], and its [Clean] with the count that comes back
    beside an error. *)
Variable looseStat : Digest -> M L (Z * Z).
Variable looseClean : Z -> M L (Z * option error).
(** The base path the backend was opened with. *)
Variable base : bytes.
Variable outside : path -> option entry.
Variable random : gmap path entry -> bytes.
(** [encoding/json] on the manifest. *)
Variable jsonMarshal : gmap bytes packRecord -> res bytes.
Variable jsonUnmarshal : bytes -> res (gmap bytes packRecord).
Variable cfg : config.

Record Backend := mkBackend {
  bk_loose : L;
  disk : FS;
  packFile : option handle;
  packFilePath : bytes;
  packBytes : Z;
  packEntries : Z;
  index : gmap Digest packRecord;
}.

Definition onLoose {A} (m : M L A) : M Backend A := fun c b =>
  match m c (bk_loose b) with
  | (r, c', l) => (r, c', mkBackend l (disk b) (packFile b) (packFilePath b) (packBytes b) (packEntries b) (index b))
  end.
Definition onDisk {A} (m : M FS A) : M Backend A := fun c b =>
  match m c (disk b) with
  | (r, c', s) => (r, c', mkBackend (bk_loose b) s (packFile b) (packFilePath b) (packBytes b) (packEntries b) (index b))
  end.
Definition setPack (h : option handle) (p : bytes) (bytes entries : Z) : M Backend unit :=
  modify (fun b => mkBackend (bk_loose b) (disk b) h p bytes entries (index b)).
Definition setIndex (f : gmap Digest packRecord -> gmap Digest packRecord) : M Backend unit :=
  modify (fun b => mkBackend (bk_loose b) (disk b) (packFile b) (packFilePath b) (packBytes b) (packEntries b) (f (index b))).

Definition manifestPath : path := [str "index.json"].
Definition currentName : bytes := str "current.pack".
Definition currentPack : path := [currentName].
Definition packDir : bytes := Join base (str "packs").
(** Where a record's string leads below the pack directory: what [filepath.Rel]
    makes of it, unless that fails or leads out.  The file is found at the cleaned
    string, which is the string itself unless it was written by hand. *)
Definition inPackDir (pack : bytes) : option path := relInside packDir pack.

(** [fs.ValidateDir] and [fs.ValidateFile] under the backend's base: the pack
    directory is the chain's first component. *)
Definition validateBase (wantDir : bool) (p : path) : M FS unit :=
  let last := match p with [] => true | _ => false end in
  info ← attempt (os_Lstat outside []);
  match info with
  | Err e => if errIs e ErrNotExist then mret tt else throw (Errorf "cas: stat store path %s: %w" e)
  | Ok (Symlink _) => throw (Errorf "%w: %s is a symbolic link to %s" ErrUnsafeTarget)
  | Ok e =>
    if (negb last || wantDir) && negb (isDir e) then throw (Errorf "%w: %s is not a directory (mode %s)" ErrUnsafeTarget)
    else if last then mret tt
    else Fs.validateFrom outside wantDir [] p
  end.

Definition isRegular (e : entry) : bool := match e with File _ _ => true | _ => false end.

Definition validPackRecord (rec : packRecord) : M FS bool :=
  if (Offset rec <? 0) || (Size rec <? 0) || (2 ^ 63 - 1 - Size rec <? Offset rec) then throw errInvalidPackRecord
  else
    match inPackDir (Pack rec) with
    | None => throw errInvalidPackRecord
    | Some p =>
      v ← attempt (Fs.ValidateFile outside p);
      match v with
      | Err err => if errIs err ErrUnsafeTarget then throw (Errorf2 "%w: %w" errInvalidPackRecord err) else throw err
      | Ok _ =>
        info ← attempt (os_Lstat outside p);
        match info with
        | Err err => if errIs err ErrNotExist then mret false else throw err
        | Ok info =>
          if negb (isRegular info) then throw errInvalidPackRecord
          else if sizeOf info <? Offset rec + Size rec then throw errInvalidPackRecord
          else mret true
        end
      end
    end.

(** ** The manifest *)
Fixpoint renameLoop (attempts : nat) (err : option error) (tmp p : path) : M FS unit :=
  match attempts with
  | O => match err with Some err => throw err | None => mret tt end
  | S attempts =>
    r ← attempt (os_Rename outside tmp p);
    match r with
    | Ok _ => mret tt
    | Err err =>
      st ← attempt (os_Stat outside tmp);
      match st with
      | Err _ => throw err
      | Ok _ => renameLoop attempts (Some err) tmp p
      end
    end
  end.
Definition renameWithRetry (tmp p : path) : M FS unit := renameLoop 20 None tmp p.

(** The keys are the digests' hex forms. *)
Definition manifestOf (idx : gmap Digest packRecord) : gmap bytes packRecord := kmap DString idx.

Definition persistIndexOf (idx : gmap Digest packRecord) : M FS unit :=
  data ← lift (wrapErr (Errorf "cas: encode pack manifest: %w") (jsonMarshal (manifestOf idx)));
  mapErr (Errorf "cas: write pack manifest: %w") (validateBase true []);;
  tmp ← mapErr (Errorf "cas: write pack manifest: %w") (os_CreateTemp outside random [] (str "index-") (str ".tmp"));
  orElse (os_Append tmp data) (attempt syscall;; attempt (os_Remove outside tmp);; mret tt) (Errorf "cas: write pack manifest: %w");;
  orElse syscall (attempt (os_Remove outside tmp);; mret tt) (Errorf "cas: write pack manifest: %w");;
  orElse (renameWithRetry tmp manifestPath) (attempt (os_Remove outside tmp);; mret tt) (Errorf "cas: rename pack manifest: %w").
Definition persistIndex : M Backend unit :=
  b ← get;
  onDisk (persistIndexOf (index b)).

(** A foreign or stale entry is dropped. *)
Definition loadRecord (acc : gmap Digest packRecord) (kv : bytes * packRecord) : M FS (gmap Digest packRecord) :=
  match ParseDigest kv.1 with
  | Err _ => mret acc
  | Ok d =>
    valid ← attempt (validPackRecord kv.2);
    match valid with
    | Ok true => mret (<[d := kv.2]> acc)
    | _ => mret acc
    end
  end.
Definition loadIndex : M Backend unit :=
  data ← attempt (onDisk (os_ReadFile outside manifestPath));
  match data with
  | Err err => if errIs err ErrNotExist then mret tt else throw (Errorf "cas: read pack manifest: %w" err)
  | Ok data =>
    m ← lift (wrapErr (Errorf "cas: decode pack manifest: %w") (jsonUnmarshal data));
    filtered ← onDisk (foldM (map_to_list m) ∅ loadRecord);
    setIndex (fun _ => filtered)
  end.

(** ** The active pack file *)
Definition os_OpenPack (p : path) : M FS unit := os_OpenAppend outside p.

Definition ensurePackFile : M Backend unit :=
  b ← get;
  match packFile b with
  | Some _ => mret tt
  | None =>
    mapErr (Errorf "cas: open pack file: %w") (onDisk (validateBase false currentPack));;
    mapErr (Errorf "cas: open pack file: %w") (onDisk (os_OpenPack currentPack));;
    fi ← attempt (onDisk (os_SeekEnd currentPack));
    setPack (Some (mkHandle currentPack false)) (Join packDir currentName)
      (match fi with Ok size => size | Err _ => packBytes b end) (packEntries b)
  end.

Definition ErrClosed : error := New "file already closed".
Definition closeHandle (h : handle) : M FS unit := if h_closed h then throw ErrClosed else syscall.

Definition rotatePackFile : M Backend unit :=
  b ← get;
  match packFile b with
  | Some h =>
    r ← attempt (onDisk (closeHandle h));
    match r with
    | Err e => setPack (Some (mkHandle (h_path h) true)) (packFilePath b) (packBytes b) (packEntries b);; throw e
    | Ok _ => setPack None (packFilePath b) (packBytes b) (packEntries b)
    end
  | None => mret tt
  end;;
  b ← get;
  let name := str "pack-" ++ formatInt (clock (disk b)) ++ str ".pack" in
  let p := [name] in
  mapErr (Errorf "cas: rotate pack file: %w") (onDisk (validateBase false p));;
  mapErr (Errorf "cas: rotate pack file: %w") (onDisk (os_OpenPack p));;
  setPack (Some (mkHandle p false)) (Join packDir name) 0 0.

(** A call on the handle, which fails once it is closed. *)
Definition viaHandle {A} (h : handle) (m : M FS A) : M Backend A :=
  if h_closed h then throw ErrClosed else onDisk m.

Definition packHeader (d : Digest) (size : Z) : bytes := be_put 4 (blen d `mod` 2 ^ 32) ++ d ++ be_put 8 (size `mod` 2 ^ 64).

(** The record's bytes at the end of the file, then its index entry. *)
Definition writeRecord (h : handle) (d : Digest) (r : Reader) (payloadSize : Z) : M Backend unit :=
  payloadOffset ← mapErr (Errorf "cas: seek pack file: %w") (viaHandle h (os_SeekEnd (h_path h)));
  mapErr (Errorf "cas: write pack header: %w") (viaHandle h (WriteAllTo (os_WriteAt (h_path h)) (packHeader d payloadSize)));;
  mapErr (Errorf "cas: write pack payload: %w")
    (viaHandle h (WriteTo copyBufSize (os_WriteAt (h_path h)) (LimitReader payloadSize r)));;
  let headerLen := 4 + blen d + 8 in
  b ← get;
  setPack (Some h) (packFilePath b) (int64 (packBytes b + (headerLen + payloadSize))) (int64 (packEntries b + 1));;
  setIndex <[d := mkRecord (packFilePath b) (int64 (payloadOffset + headerLen)) payloadSize]>;;
  persistIndex.

Definition appendPackRecord (d : Digest) (r : Reader) (payloadSize : Z) : M Backend unit :=
  if negb (enabled cfg) then mret tt
  else
    ensurePackFile;;
    b ← get;
    (if (0 <? packMaxEntries cfg) && (packMaxEntries cfg <=? packEntries b) then rotatePackFile else mret tt);;
    b ← get;
    (if (0 <? packMaxBytes cfg) && (packMaxBytes cfg <=? packBytes b) then rotatePackFile else mret tt);;
    ensurePackFile;;
    b ← get;
    match packFile b with
    | None => throw (New "invalid memory address or nil pointer dereference")
    | Some h => writeRecord h d r payloadSize
    end.

(** ** Put *)

(** A body and what is deferred past it. *)
Definition deferred {A} (body : M Backend A) (last : M Backend unit) : M Backend A :=
  r ← attempt body;
  attempt last;;
  lift r.

(** [io.Copy] into a new scratch file: the file and the number of bytes. *)
Definition spoolObject (r : Reader) : M FS (path * Z) :=
  f ← mapErr (Errorf "cas: create spool file: %w") (os_CreateTemp outside random [] (str ".put-") (str ".tmp"));
  orElse (WriteTo copyBufSize (os_Write f) r) (attempt syscall;; attempt (os_Remove outside f);; mret tt) (Errorf "cas: spool object: %w");;
  mret (f, blen (rd_data r)).

Definition Put (d : Digest) (r : Reader) : M Backend unit :=
  ctxErr;;
  lift (CheckDigest d "pack: put");;
  if negb (enabled cfg) then onLoose (bk_Put loose d r)
  else
    '(spool, size) ← onDisk (spoolObject r);
    deferred
      (onDisk (mapErr (Errorf "cas: rewind spool file: %w") syscall);;
       sp ← onDisk (os_ReadHandle spool);
       onLoose (bk_Put loose d sp);;
       onDisk (mapErr (Errorf "cas: rewind spool file: %w") syscall);;
       sp ← onDisk (os_ReadHandle spool);
       appendPackRecord d sp size)
      (onDisk (attempt syscall;; attempt (os_Remove outside spool);; mret tt)).

(** ** Reads

    The index's record of [d] when it is usable; a stale one is dropped, and the
    index persisted without it. *)
Definition usableRecord (d : Digest) : M Backend (option packRecord) :=
  b ← get;
  match index b !! d with
  | None => mret None
  | Some rec =>
    valid ← mapErr (Errorf "cas: validate pack record: %w") (onDisk (validPackRecord rec));
    if (valid : bool) then mret (Some rec)
    else
      setIndex (delete d);;
      persistIndex;;
      mret None
  end.

Definition openSection (rec : packRecord) : M FS ReadCloser :=
  f ← mapErr (Errorf "cas: open pack file: %w") (os_OpenHandle outside (default [] (inPackDir (Pack rec))));
  r ← sectionReader f (Offset rec) (Size rec);
  cf ← popFault;
  mret (mkRC r (option_map (fun f => Prelude.New (fl_msg f)) cf)).

Definition Get (d : Digest) : M Backend ReadCloser :=
  ctxErr;;
  lift (CheckDigest d "pack: get");;
  rec ← usableRecord d;
  match rec with
  | Some rec => onDisk (openSection rec)
  | None => onLoose (bk_Get loose d)
  end.

Definition Exists (d : Digest) : M Backend bool :=
  ctxErr;;
  lift (CheckDigest d "pack: exists");;
  rec ← usableRecord d;
  match rec with
  | Some _ => mret true
  | None => onLoose (bk_Exists loose d)
  end.

Definition Delete (d : Digest) : M Backend unit :=
  ctxErr;;
  lift (CheckDigest d "pack: delete");;
  onLoose (bk_Delete loose d);;
  setIndex (delete d);;
  persistIndex.

Definition keysOf (idx : gmap Digest packRecord) : list Digest := (map_to_list idx).*1.
Definition List : M Backend (list Digest) :=
  ctxErr;;
  looseList ← onLoose (bk_List loose);
  b ← get;
  mret (sortBytes (looseList ++ filter (fun key => key ∉ looseList) (keysOf (index b)))).

Definition pruneMissing : M Backend unit :=
  b ← get;
  forM_ (map_to_list (index b)) (fun kv =>
    valid ← attempt (onDisk (validPackRecord kv.2));
    match valid with
    | Ok true => mret tt
    | _ => setIndex (delete kv.1)
    end).
Definition Stats : M Backend Stats :=
  ctxErr;;
  pruneMissing;;
  stats ← onLoose (bk_Stats loose);
  looseList ← onLoose (bk_List loose);
  b ← get;
  mret (foldl (fun st kv =>
      if (Size kv.2 <=? 0) || bool_decide (kv.1 ∈ looseList) then st
      else mkStats (int64 (TotalSize st + Size kv.2)) (int64 (ObjectCount st + 1))) stats (map_to_list (index b))).

Definition packStat (rec : packRecord) : M FS entry :=
  fi ← attempt (os_Stat outside (default [] (inPackDir (Pack rec))));
  match fi with
  | Err err => if errIs err ErrNotExist then throw (Errorf "%w: %s" ErrNotFound) else throw (Errorf "cas: stat pack file: %w" err)
  | Ok fi => mret fi
  end.
Definition SizeOf (d : Digest) : M Backend Z :=
  ctxErr;;
  lift (CheckDigest d "pack: size");;
  rec ← usableRecord d;
  match rec with
  | Some rec => mret (Size rec)
  | None => p ← onLoose (looseStat d); mret p.1
  end.
Definition ModTime (d : Digest) : M Backend Z :=
  ctxErr;;
  lift (CheckDigest d "pack: mod time");;
  rec ← usableRecord d;
  match rec with
  | Some rec => fi ← onDisk (packStat rec); mret (modTime fi)
  | None => p ← onLoose (looseStat d); mret p.2
  end.
Definition Stat (d : Digest) : M Backend (Z * Z) :=
  ctxErr;;
  lift (CheckDigest d "pack: stat");;
  rec ← usableRecord d;
  match rec with
  | Some rec => fi ← onDisk (packStat rec); mret (Size rec, modTime fi)
  | None => onLoose (looseStat d)
  end.

(** The loose tree, then the pack directory; the count comes back with an error
    too. *)
Definition Clean (olderThan : Z) : M Backend (Z * option error) :=
  r ← attempt ctxErr;
  match r with
  | Err e => mret (0, Some e)
  | Ok _ =>
    '(removed, err) ← onLoose (looseClean olderThan);
    match err with
    | Some err => mret (removed, Some err)
    | None =>
      '(packed, err) ← onDisk (Fs.cleanTemp outside olderThan);
      mret (int64 (removed + packed), err)
    end
  end.

Definition Close : M Backend unit :=
  b ← get;
  match packFile b with
  | None => mret tt
  | Some h =>
    r ← attempt (onDisk (closeHandle h));
    setPack None [] (packBytes b) (packEntries b);;
    lift r
  end.

(** The end of [New], on the directories it made: the index, then the pack file. *)
Definition Open (l : L) (s : FS) : res unit * Backend :=
  let '(r, _, b) := (loadIndex;; ensurePackFile) [] (mkBackend l s None [] 0 0 ∅) in (r, b).

(** [Clean] as the Cleaner interface has it. *)
Definition CleanResult (olderThan : Z) : M Backend Z :=
  '(removed, err) ← Clean olderThan;
  match err with Some e => throw e | None => mret removed end.

Definition Backend_ : Backend.Backend Backend :=
  Backend.mkBackend Put Get Exists Delete List Stats (Some (SizeOf, ModTime))
    (Some CleanResult) (Some Close).

(** ** The batched read *)
Record packRequest := mkRequest { rq_digest : Digest; rq_offset : Z; rq_size : Z }.
Record packGroup := mkGroup { gr_path : bytes; gr_records : list packRequest }.

(** A request joins the group of its file, or starts it. *)
Fixpoint addRequest (groups : list packGroup) (p : bytes) (req : packRequest) : list packGroup :=
  match groups with
  | [] => [mkGroup p [req]]
  | g :: groups =>
    if decide (gr_path g = p) then mkGroup p (gr_records g ++ [req]) :: groups
    else g :: addRequest groups p req
  end.
Definition planOne (acc : list packGroup * list Digest * bool) (d : Digest) : M Backend (list packGroup * list Digest * bool) :=
  let '(groups, rest, stale) := acc in
  lift (CheckDigest d "pack: get many");;
  b ← get;
  match index b !! d with
  | None => mret (groups, rest ++ [d], stale)
  | Some rec =>
    valid ← mapErr (Errorf "cas: validate pack record: %w") (onDisk (validPackRecord rec));
    if (valid : bool) then mret (addRequest groups (Pack rec) (mkRequest d (Offset rec) (Size rec)), rest, stale)
    else setIndex (delete d);; mret (groups, rest ++ [d], true)
  end.
Definition planGetMany (digests : list Digest) : M Backend (list packGroup * list Digest) :=
  '(groups, rest, stale) ← foldM digests ([], [], false) planOne;
  (if (stale : bool) then persistIndex else mret tt);;
  mret (groups, rest).

Section GetMany.
Context {T : Type}.
Variable fn : Digest -> Reader -> M T unit.

Definition serveRequest (f : entry) (req : packRequest) : M (Backend * T) unit :=
  ctxErr;;
  view ← onFst (onDisk (sectionReader f (rq_offset req) (rq_size req)));
  onSnd (fn (rq_digest req) view).
(** The file's close error counts only when nothing else failed. *)
Definition servePackGroup (group : packGroup) : M (Backend * T) unit :=
  f ← onFst (onDisk (mapErr (Errorf "cas: open pack file: %w") (os_OpenHandle outside (default [] (inPackDir (gr_path group))))));
  r ← attempt (forM_ (gr_records group) (serveRequest f));
  closed ← attempt (onFst (onDisk syscall));
  lift r;;
  lift (wrapErr (Errorf "cas: close pack file: %w") closed).
Definition serveLoose (d : Digest) : M (Backend * T) unit :=
  ctxErr;;
  reader ← onFst (mapErr (Errorf "cas: get many: %s: %w") (onLoose (bk_Get loose d)));
  onSnd (closeAfterFn fn d reader).
Definition GetMany (digests : list Digest) : M (Backend * T) unit :=
  ctxErr;;
  '(groups, rest) ← onFst (planGetMany digests);
  forM_ groups servePackGroup;;
  forM_ rest serveLoose.
End GetMany.
End PackFs.
End PackFs.
