(* ===== verification/PackDisk.v ===== *)
(** The pack directory as PackFs keeps it: which entries it owns, what its
    calls may change of them, and the specifications of the disk operations it
    is built from (CreateTemp, the manifest's publication, the record check and
    the appends to a pack file). *)

From S2P Require Import Prelude Digest Binary Stream Backend Store FileSystem AtomicFile Wp OsFile FsBackend FsContract RefText FilePath PackFs.

(** ** Names *)
Definition packName (k : bytes) : Prop := (slash ∉ k) /\ ValidString k = true.
Definition packPath (p : path) : Prop := exists k, p = [k ++ str ".pack"] /\ packName k.
Definition scratchPath (p : path) : Prop := exists k, p = [k ++ str ".tmp"].
Definition ownedPath (p : path) : Prop := p = [] \/ p = PackFs.manifestPath \/ packPath p.

Definition nameByte (b : byte) : bool := isASCII b && negb (bool_decide (b = slash)).
Lemma packName_check k : forallb nameByte k = true -> packName k.
Proof.
  rewrite forallb_forall. intros H. split.
  - intros Hin%list_elem_of_In%H. by vm_compute in Hin.
  - apply ValidString_ASCII, forallb_forall. by intros b [? _]%H%andb_true_iff.
Qed.
(** A pack file's name is a plain one, so its string leads to it. *)
Lemma packName_plain k : packName k -> plainName (k ++ str ".pack") /\ ValidString (k ++ str ".pack") = true.
Proof.
  intros [Hs Hv]. split; [|by apply ValidString_app]. split_and!.
  - intros [?|Hin]%elem_of_app; [done|]. by vm_compute in Hin; repeat (apply elem_of_cons in Hin as [?|Hin]; [done|]); apply elem_of_nil in Hin.
  - by destruct k.
  - intros E. apply (f_equal length) in E. rewrite length_app in E. cbn in E. lia.
  - intros E. apply (f_equal length) in E. rewrite length_app in E. cbn in E. lia.
Qed.
Lemma last_suffix (k : bytes) (b : byte) l : list.last (k ++ l ++ [b]) = Some b.
Proof. by rewrite app_assoc, last_snoc. Qed.
Lemma scratch_not_owned p : scratchPath p -> ~ ownedPath p.
Proof.
  intros [k ->] [H|[H|(k' & H & _)]]; [done| |]; injection H as H; apply (f_equal list.last) in H.
  - change (str ".tmp") with (str ".tm" ++ [x70]) in H. by rewrite last_suffix in H.
  - change (str ".tmp") with (str ".tm" ++ [x70]) in H. change (str ".pack") with (str ".pac" ++ [x6b]) in H.
    by rewrite !last_suffix in H.
Qed.
Lemma pack_not_manifest p : packPath p -> p <> PackFs.manifestPath.
Proof.
  intros (k & -> & _) H. injection H as H. apply (f_equal list.last) in H.
  change (str ".pack") with (str ".pac" ++ [x6b]) in H. by rewrite last_suffix in H.
Qed.
Lemma current_is_pack : packPath PackFs.currentPack.
Proof. exists (str "current"). split; [done|]. by apply packName_check. Qed.
Lemma rotated_is_pack n : packPath [str "pack-" ++ formatInt n ++ str ".pack"].
Proof.
  exists (str "pack-" ++ formatInt n). rewrite <- app_assoc. split; [done|]. apply packName_check.
  assert (Hd : forall fuel m, forallb nameByte (digits fuel m) = true).
  { induction fuel as [|fuel IH]; intros m; [done|]. cbn [digits]. rewrite forallb_app. apply andb_true_iff. split; [by destruct (m <? 10)|].
    cbn [forallb]. rewrite andb_true_r. pose proof (digit_ok (m `mod` 10) ltac:(apply Z.mod_pos_bound; lia)) as [Hd _].
    revert Hd. generalize (z2b (48 + m `mod` 10)). by intros []. }
  rewrite forallb_app. apply andb_true_iff. split; [done|]. unfold formatInt. case_match; [cbn [forallb]|]; by rewrite Hd.
Qed.

(** ** What the calls may change *)
Record diskOk (t : gmap path entry) : Prop := {
  dk_parents : parents t;
  dk_root : t !! ([] : path) = Some Directory;
  dk_manifest : fileOr (fun _ => True) (t !! PackFs.manifestPath);
  dk_pack : forall p, packPath p -> fileOr (fun data => blen data < 2 ^ 63) (t !! p);
}.

(** Nothing the pack directory owns changes. *)
Record keeps (s s' : FS) : Prop := {
  kp_quiet : faults s = [] -> faults s' = [];
  kp_parents : parents (tree s) -> parents (tree s');
  kp_same : forall p, ownedPath p -> tree s' !! p = tree s !! p;
}.
(** The pack files only grow. *)
Record grows (s s' : FS) : Prop := {
  gr_quiet : faults s = [] -> faults s' = [];
  gr_ok : diskOk (tree s) -> diskOk (tree s');
  gr_pack : forall p data m, packPath p -> tree s !! p = Some (File data m) ->
    exists k m', tree s' !! p = Some (File (data ++ k) m');
}.
#[export] Instance keeps_preorder : PreOrder keeps.
Proof.
  split; [intros s; by split|]. intros s1 s2 s3 [Hq1 Hp1 Hs1] [Hq2 Hp2 Hs2]. split; [auto..|].
  intros p Hp. by rewrite Hs2, Hs1.
Qed.
#[export] Instance grows_preorder : PreOrder grows.
Proof.
  split; [intros s; split; try done; intros p data m _ H; exists [], m; by rewrite app_nil_r|].
  intros s1 s2 s3 [Hq1 Ho1 Hp1] [Hq2 Ho2 Hp2]. split; [auto..|]. intros p data m Hp H.
  destruct (Hp1 p data m Hp H) as (k & m1 & H1). destruct (Hp2 _ _ _ Hp H1) as (k' & m2 & H2).
  exists (k ++ k'), m2. by rewrite app_assoc.
Qed.

Lemma keeps_grows s s' : keeps s s' -> grows s s'.
Proof.
  intros [Hq Hpar Hs]. split; [done| |].
  - intros [Hp Hr Hm Hk]. split; [auto| | |].
    + rewrite Hs; [done|by left].
    + rewrite Hs; [done|by right; left].
    + intros p Hpp. rewrite Hs; [by apply Hk|by right; right].
  - intros p data m Hp H. exists [], m. rewrite app_nil_r, Hs; [done|by right; right].
Qed.
Lemma keeps_manifest s s' : keeps s s' -> tree s' !! PackFs.manifestPath = tree s !! PackFs.manifestPath.
Proof. intros Hk. apply (kp_same _ _ Hk). by right; left. Qed.
Lemma keeps_ok s s' : keeps s s' -> diskOk (tree s) -> diskOk (tree s').
Proof. intros Hk. apply (gr_ok _ _ (keeps_grows _ _ Hk)). Qed.
Lemma evolves_keeps s s' : evolves s (tree s) s' -> keeps s s'.
Proof. intros (Ht & _ & Hq). split; [done| |]; rewrite Ht; by intros. Qed.

Lemma dk_pack_file t p : diskOk t -> packPath p -> fileOr (fun _ => True) (t !! p).
Proof. intros Hd Hp. pose proof (dk_pack _ Hd p Hp) as H. unfold fileOr in *. by repeat case_match. Qed.
Lemma diskOk_clear t n : diskOk t -> clear t [n].
Proof. intros Hd q k E Hk. right. destruct q as [|x [|]]; [apply Hd| |]; injection E as -> E; by destruct k. Qed.
Lemma resolve_one outside t follow n : t !! ([] : path) = Some Directory ->
  resolve outside t follow [n] = match t !! [n] with
    | None => Absent
    | Some (Symlink m) => if follow then match outside [n] with Some e => Found e | None => Absent end else Found (Symlink m)
    | Some e => Found e
    end.
Proof. intros Hr. unfold resolve. cbn [resolveFrom]. by rewrite Hr. Qed.

Lemma keeps_insert s s' n data m : diskOk (tree s) -> scratchPath [n] -> tree s !! [n] <> Some Directory ->
  evolves s (<[[n] := File data m]> (tree s)) s' -> keeps s s'.
Proof.
  intros Hd Hn Hnd (Ht & _ & Hq). split; [done| |]; rewrite Ht.
  - intros Hp. apply (parents_insert (tree s) [] n); [done|apply Hd|done].
  - intros p Hp. rewrite lookup_insert_ne; [done|]. intros <-. by eapply scratch_not_owned.
Qed.
Lemma keeps_delete s s' n : scratchPath [n] -> (tree s !! ([n] : path) = Some Directory -> hasChild (tree s) [n] = false) ->
  evolves s (delete [n] (tree s)) s' -> keeps s s'.
Proof.
  intros Hn Hnd (Ht & _ & Hq). split; [done| |]; rewrite Ht.
  - intros Hp. by apply parents_delete_empty.
  - intros p Hp. rewrite lookup_delete_ne; [done|]. intros <-. by eapply scratch_not_owned.
Qed.

(** The pack files only grow, and the manifest stays. *)
Definition extends (s s' : FS) : Prop := grows s s' /\ tree s' !! PackFs.manifestPath = tree s !! PackFs.manifestPath.
#[export] Instance extends_preorder : PreOrder extends.
Proof. split; [by intros s|]. intros s1 s2 s3 [? E1] [? E2]. split; [by etrans|congruence]. Qed.
Lemma keeps_extends s s' : keeps s s' -> extends s s'.
Proof. intros Hk. split; [by apply keeps_grows|by apply keeps_manifest]. Qed.
Lemma evolves_extends s s' : evolves s (tree s) s' -> extends s s'.
Proof. intros. by apply keeps_extends, evolves_keeps. Qed.

(** ** The calls *)
Section DiskOps.
Variable outside : path -> option entry.
Variable random : gmap path entry -> bytes.
(** What [os.CreateTemp] promises. *)
Hypothesis random_fresh : forall (t : gmap path entry) (pre suf : bytes), t !! ([pre ++ random t ++ suf] : path) = None.

Lemma CreateTemp_wp pre c s : diskOk (tree s) ->
  wp (os_CreateTemp outside random [] pre (str ".tmp")) (fun r c' s' => c' = c /\ keeps s s' /\
    match r with Ok p => scratchPath p /\ exists m, tree s' !! p = Some (File [] m) | Err _ => faults s <> [] end) c s.
Proof.
  intros Hd. apply wp_intro. intros r c' s' H. unfold os_CreateTemp, get in H. munfold. cbn [app] in H.
  set (p := [pre ++ random (tree s) ++ str ".tmp"] : path) in *.
  assert (Hp : scratchPath p) by (exists (pre ++ random (tree s)); by rewrite <- app_assoc).
  assert (Hn : tree s !! p = None) by apply random_fresh.
  pose proof (resolve_one outside (tree s) false (pre ++ random (tree s) ++ str ".tmp") (dk_root _ Hd)) as HA.
  fold p in HA. rewrite Hn in HA.
  destruct (os_OpenExcl outside p c s) as [[r0 c0] s0] eqn:E. apply os_OpenExcl_inv in E as (-> & E).
  destruct r0 as [u|e]; simplify_eq.
  - destruct E as [He _]. split_and!; [done| |done|].
    + eapply keeps_insert; [done..| |exact He]. fold p. by rewrite Hn.
    + destruct He as (-> & _). eexists. apply lookup_insert_eq.
  - destruct E as [He [[Hf _]|Hx]]; [|done]. split_and!; [done|by apply evolves_keeps|done].
Qed.

(** A scratch file's removal changes nothing owned, whether it succeeds or not. *)
Lemma Remove_scratch p c s : scratchPath p -> diskOk (tree s) ->
  wp (os_Remove outside p) (fun _ c' s' => c' = c /\ keeps s s') c s.
Proof.
  intros [k ->] Hd. apply wp_intro. intros r c' s' H. apply os_Remove_inv in H as (-> & H). split; [done|].
  destruct r as [u|e]; destruct H as [He Hx]; [|by apply evolves_keeps]. eapply keeps_delete; [by exists k| |exact He].
  intros E. destruct Hx as (x & Hr & Hx). rewrite resolve_one, E in Hr by apply Hd. injection Hr as <-. auto.
Qed.
Lemma tryRemove_scratch p c s : scratchPath p -> diskOk (tree s) ->
  wp (attempt (os_Remove outside p);; mret tt) (fun r c' s' => r = Ok tt /\ c' = c /\ keeps s s') c s.
Proof.
  intros Hp Hn. apply wp_bind, wp_attempt. eapply wp_mono; [by apply Remove_scratch|]. by intros r c' s' [-> ?].
Qed.
Lemma discard_scratch p c s : scratchPath p -> diskOk (tree s) ->
  wp (attempt syscall;; attempt (os_Remove outside p);; mret tt) (fun r c' s' => r = Ok tt /\ c' = c /\ keeps s s') c s.
Proof.
  intros Hp Hn. apply wp_bind, wp_attempt. eapply wp_mono; [apply wp_syscall|]. intros r c' s' (-> & He & _).
  pose proof (evolves_keeps _ _ He) as Hk. destruct He as (Ht & _).
  eapply wp_mono; [apply tryRemove_scratch; [done|by rewrite Ht]|]. intros r2 c2 s2 (-> & -> & Hk2). split_and!; [done..|by etrans].
Qed.

(** ** The manifest *)
Definition wrote (data : bytes) (s s' : FS) : Prop :=
  grows s s' /\ exists m, tree s' !! PackFs.manifestPath = Some (File data m).

Lemma Rename_manifest p data m c s : diskOk (tree s) -> scratchPath p -> tree s !! p = Some (File data m) ->
  wp (os_Rename outside p PackFs.manifestPath) (fun r c' s' => c' = c /\
    match r with
    | Ok _ => wrote data s s'
    | Err _ => faults s <> [] /\ evolves s (tree s) s'
    end) c s.
Proof.
  intros Hd Hp Ht. apply wp_intro. intros r c' s' H. apply (os_Rename_inv _ _ _ _ _ _ _ _ _ Ht) in H as (-> & H).
  split; [done|]. pose proof (dk_manifest _ Hd) as Hm.
  assert (HnD : tree s !! PackFs.manifestPath <> Some Directory) by (intros E; by rewrite E in Hm).
  destruct r as [u|e].
  - destruct H as (Ht' & _ & Hq). assert (Hpm : p <> PackFs.manifestPath).
    { intros ->. by eapply scratch_not_owned; [|right; left]. }
    assert (Hpk : forall q, packPath q -> tree s' !! q = tree s !! q).
    { intros q Hq'. rewrite Ht', !lookup_insert_ne, lookup_delete_ne; [done| |by intros <-; eapply pack_not_manifest].
      intros <-. by eapply scratch_not_owned; [|right; right]. }
    split; [split; [done| |]|exists m; rewrite Ht'; apply lookup_insert_eq].
    + intros _. rewrite Ht'. split.
      * apply (parents_insert _ [] (str "index.json")).
        { apply parents_delete; [apply Hd|]. by rewrite Ht. }
        { rewrite lookup_delete_ne; [apply Hd|]. by destruct Hp as [? ->]. }
        { rewrite lookup_delete_ne; [done|]. done. }
      * rewrite lookup_insert_ne, lookup_delete_ne; [apply Hd| |done]. by destruct Hp as [? ->].
      * by rewrite lookup_insert_eq.
      * intros q Hq'. rewrite <- Ht', Hpk by done. by apply Hd.
    + intros q data' m' Hq' H. exists [], m'. by rewrite app_nil_r, Hpk.
  - destruct H as [He Hx]. split; [|done]. destruct Hx as [?|Hx]; [done|]. exfalso.
    unfold PackFs.manifestPath in *. rewrite resolve_one in Hx by apply Hd.
    destruct (tree s !! ([str "index.json"] : path)) as [[]|]; try done; by destruct Hx as [?|[?|?]].
Qed.

Lemma wrote_after data s s1 s' : grows s s1 -> wrote data s1 s' -> wrote data s s'.
Proof. intros Hg [Hg' Hm]. split; [by etrans|done]. Qed.
Lemma wrote_before data s s1 s' : wrote data s s1 -> keeps s1 s' -> wrote data s s'.
Proof.
  intros [Hg [m Hm]] Hk. split; [etrans; [done|by apply keeps_grows]|]. exists m. by rewrite (keeps_manifest _ _ Hk).
Qed.

Lemma renameLoop_wp n err p data m c s : diskOk (tree s) -> scratchPath p -> tree s !! p = Some (File data m) ->
  (n <> 0%nat \/ err <> None) ->
  wp (PackFs.renameLoop outside n err p PackFs.manifestPath) (fun r c' s' => c' = c /\
    match r with
    | Ok _ => wrote data s s'
    | Err _ => (n <> 0%nat -> faults s <> []) /\ evolves s (tree s) s'
    end) c s.
Proof.
  revert err c s. induction n as [|n IH]; intros err c s Hd Hp Ht Hne; cbn [PackFs.renameLoop].
  { destruct Hne as [?|?]; [done|]. destruct err; [|done]. apply wp_throw. by split_and!. }
  apply wp_bind, wp_attempt. eapply wp_mono; [by eapply Rename_manifest|]. intros r c1 s1 [-> Hr].
  destruct r as [u|e]; [by apply wp_ret|]. destruct Hr as [Hf He]. pose proof He as (Ht1 & _).
  apply wp_bind, wp_attempt, wp_intro. intros r2 c2 s2 E2. apply statWith_inv in E2 as (-> & He2 & _).
  rewrite Ht1 in He2. pose proof (evolves_trans _ _ _ _ _ He He2) as He'. pose proof He' as (Ht2 & _).
  destruct r2 as [x|e2]; [|by apply wp_throw].
  eapply wp_mono; [eapply IH; rewrite ?Ht2; eauto|]. intros r c' s' (-> & Hr). split; [done|]. destruct r as [u|e3].
  - eapply wrote_after; [by eapply keeps_grows, evolves_keeps|done].
  - split; [done|]. destruct Hr as [_ Hr]. rewrite Ht2 in Hr. by eapply evolves_trans.
Qed.

(** ** Publishing the index *)
Section Persist.
Variable jsonMarshal : gmap bytes PackFs.packRecord -> res bytes.

Definition manifestIs (idx : gmap Digest PackFs.packRecord) (t : gmap path entry) : Prop :=
  exists data m, jsonMarshal (PackFs.manifestOf idx) = Ok data /\ t !! PackFs.manifestPath = Some (File data m).

(** What a publication of [idx] leaves: the old manifest or the new one, which
    it is when the call succeeds. *)
Definition persistPost (idx : gmap Digest PackFs.packRecord) (c : ctx) (s : FS) (r : res unit) (c' : ctx) (s' : FS) : Prop :=
  c' = c /\ grows s s' /\
  (tree s' !! PackFs.manifestPath = tree s !! PackFs.manifestPath \/ manifestIs idx (tree s')) /\
  match r with Ok _ => manifestIs idx (tree s') | Err _ => faults s = [] -> is_ok (jsonMarshal (PackFs.manifestOf idx)) = false end.

Lemma persist_kept idx c s e c' s' : c' = c -> keeps s s' ->
  (faults s = [] -> is_ok (jsonMarshal (PackFs.manifestOf idx)) = false) -> persistPost idx c s (Err e) c' s'.
Proof. intros -> Hk Hq. split_and!; [done|by apply keeps_grows|left; by apply keeps_manifest|done]. Qed.

(** The shape rule holds of a file that is a file or missing: only the disk can
    make the check fail. *)
Lemma validateFile_wp n c s : diskOk (tree s) -> fileOr (fun _ => True) (tree s !! ([n] : path)) ->
  wp (Fs.validateFrom outside false [] [n]) (fun r c' s' => c' = c /\ evolves s (tree s) s' /\
    match r with Ok _ => True | Err e => faults s <> [] /\ plain e end) c s.
Proof.
  intros Hd Hn. apply wp_intro. intros r c' s' E.
  pose proof (validateFrom_inv _ _ _ _ _ _ _ _ _ E) as [-> He]. split_and!; [done..|].
  cbn [Fs.validateFrom] in E. apply bind_attempt in E as (r0 & c1 & s1 & E0 & E).
  apply statWith_inv in E0 as (-> & _ & H0). cbn [app] in *. rewrite resolve_one in H0 by apply Hd.
  destruct r0 as [x|e].
  - destruct (tree s !! ([n] : path)) as [[]|]; simplify_eq/=; try done. unfold mret, M_ret in E. by injection E as <-.
  - destruct H0 as [[Hf Hp]|[[-> H0]|[-> _]]].
    + rewrite Hp in E. unfold throw in E. injection E as <- _. by split.
    + destruct (tree s !! ([n] : path)) as [[]|]; done.
    + simpl in E. unfold mret, M_ret in E. by injection E as <-.
Qed.
Lemma validateBase_quiet wantDir p c s : diskOk (tree s) -> faults s = [] ->
  p = [] \/ (wantDir = false /\ packPath p) ->
  exists s', PackFs.validateBase outside wantDir p c s = (Ok tt, c, s').
Proof.
  intros Hd Hf Hp. unfold PackFs.validateBase. destruct (os_Lstat outside [] c s) as [[r c1] s1] eqn:E.
  apply statWith_inv in E as E'. destruct E' as (-> & He & Hr). pose proof He as (Ht & _ & Hq).
  assert (Hroot : resolve outside (tree s) false [] = Found Directory) by (unfold resolve; cbn; by rewrite (dk_root _ Hd)).
  erewrite bind_ok by (unfold attempt; rewrite E; reflexivity).
  destruct r as [x|e]; [|rewrite Hroot in Hr; by destruct Hr as [[? _]|[[_ ?]|[_ [?|?]]]]].
  rewrite Hroot in Hr. injection Hr as <-. cbn [isDir negb]. rewrite andb_false_r.
  destruct Hp as [-> |[-> Hp]]; [munfold; eauto|]. pose proof Hp as (k & -> & _).
  assert (Hk : fileOr (fun _ => True) (tree s1 !! ([k ++ str ".pack"] : path))).
  { rewrite Ht. by apply dk_pack_file. }
  destruct (Fs.validateFrom outside false [] [k ++ str ".pack"] c s1) as [[r' c'] s'] eqn:EV.
  apply (wp_run _ _ _ _ _ _ _ (validateFile_wp _ _ _ ltac:(by rewrite Ht) Hk)) in EV as (-> & _ & Hr).
  destruct r' as [[]|e]; [eauto|]. destruct Hr as [Hf' _]. by destruct (Hf' (Hq Hf)).
Qed.
Lemma validateBase_keeps wantDir p c s :
  wp (PackFs.validateBase outside wantDir p) (fun r c' s' => c' = c /\ evolves s (tree s) s') c s.
Proof.
  unfold PackFs.validateBase. apply wp_bind, wp_attempt, wp_intro. intros r c1 s1 E.
  apply statWith_inv in E as (-> & He & _).
  assert (Hd : forall (Q : M FS unit), (Q = mret tt \/ (exists e, Q = throw e) \/ Q = Fs.validateFrom outside wantDir [] p) ->
    wp Q (fun r c' s' => c' = c /\ evolves s (tree s) s') c s1).
  { intros Q [-> |[[e ->]| ->]]; [by apply wp_ret|by apply wp_throw|]. apply wp_intro. intros r' c' s' H.
    apply validateFrom_inv in H as [-> He']. split; [done|]. pose proof He as (Ht & _). rewrite Ht in He'. by eapply evolves_trans. }
  apply Hd. repeat case_match; eauto.
Qed.
Lemma validateBase_wp wantDir p c s : diskOk (tree s) -> p = [] \/ (wantDir = false /\ packPath p) ->
  wp (PackFs.validateBase outside wantDir p) (fun r c' s' => c' = c /\ evolves s (tree s) s' /\ (faults s = [] -> r = Ok tt)) c s.
Proof.
  intros Hd Hp. apply wp_intro. intros r c' s' E. pose proof (wp_run _ _ _ _ _ _ _ (validateBase_keeps _ _ _ _) E) as (-> & He).
  split_and!; [done..|]. intros Hf. destruct (validateBase_quiet wantDir p c s) as [s2 E2]; [done..|]. rewrite E in E2. by injection E2.
Qed.

(** ** Records *)
Variable base : bytes.
Definition section_of (t : gmap path entry) (rec : PackFs.packRecord) : bytes :=
  match t !! default [] (PackFs.inPackDir base (PackFs.Pack rec)) with
  | Some (File data _) => section (PackFs.Offset rec) (PackFs.Size rec) data
  | _ => []
  end.
(** The record's bytes are within a pack file; its string is text when the pack
    directory's is. *)
Definition validRec (t : gmap path entry) (rec : PackFs.packRecord) : Prop :=
  (ValidString (PackFs.packDir base) = true -> ValidString (PackFs.Pack rec) = true) /\
  exists p data m, PackFs.inPackDir base (PackFs.Pack rec) = Some p /\ packPath p /\ t !! p = Some (File data m) /\
    0 <= PackFs.Offset rec /\ 0 <= PackFs.Size rec /\ PackFs.Offset rec + PackFs.Size rec <= blen data.

Lemma section_of_file t rec p data m : PackFs.inPackDir base (PackFs.Pack rec) = Some p -> t !! p = Some (File data m) ->
  section_of t rec = section (PackFs.Offset rec) (PackFs.Size rec) data.
Proof. intros EP Ht. unfold section_of. rewrite EP. change (default [] (Some p)) with p. by rewrite Ht. Qed.

(** The string a record gets for a pack file, and what it leads to. *)
Definition packString (p : path) (s : bytes) : Prop :=
  PackFs.inPackDir base s = Some p /\ (ValidString (PackFs.packDir base) = true -> ValidString s = true).
Lemma Join_packString n : packPath [n] -> packString [n] (Join (PackFs.packDir base) n).
Proof.
  intros (k & [= ->] & Hk). destruct (packName_plain k Hk) as [Hn Hv].
  assert (Hsub : plainName (str "packs")) by (split_and!; [|done..]; intros Hin; by vm_compute in Hin; repeat (apply elem_of_cons in Hin as [?|Hin]; [done|]); apply elem_of_nil in Hin).
  split; [|intros Hd; by apply Join_file_valid]. unfold PackFs.inPackDir, PackFs.packDir. by apply Join_file.
Qed.

Lemma section_app off size data k : 0 <= off -> 0 <= size -> off + size <= blen data ->
  section off size (data ++ k) = section off size data.
Proof.
  intros. unfold section. rewrite drop_app_le by lia. rewrite take_app_le; [done|]. rewrite length_drop. lia.
Qed.
Lemma validRec_grows s s' rec : grows s s' -> validRec (tree s) rec ->
  validRec (tree s') rec /\ section_of (tree s') rec = section_of (tree s) rec.
Proof.
  intros Hg (Hv & p & data & m & EP & Hp & Ht & H1 & H2 & H3). destruct (gr_pack _ _ Hg p data m Hp Ht) as (k & m' & Ht').
  split.
  - split; [done|]. exists p, (data ++ k), m'. rewrite length_app. split_and!; try done. lia.
  - unfold section_of. rewrite EP. cbn. rewrite Ht, Ht'. by apply section_app.
Qed.

(** A valid record passes the check; only the disk can make it fail. *)
Lemma validPackRecord_wp rec c s : diskOk (tree s) -> validRec (tree s) rec ->
  wp (PackFs.validPackRecord base outside rec) (fun r c' s' => c' = c /\ evolves s (tree s) s' /\
    match r with Ok b => b = true | Err e => faults s <> [] /\ plain e end) c s.
Proof.
  intros Hd (_ & p & data & m & EP & Hp & Ht & H1 & H2 & H3). unfold PackFs.validPackRecord.
  pose proof (dk_pack _ Hd p Hp) as Hb. rewrite Ht in Hb. cbn in Hb.
  repeat (rewrite (proj2 (Z.ltb_ge _ _)) by lia). cbn [orb]. rewrite EP. pose proof Hp as (k & -> & _).
  apply wp_bind, wp_attempt. eapply wp_mono; [apply validateFile_wp; [done|by rewrite Ht]|].
  intros r1 c1 s1 (-> & He1 & Hr1). pose proof He1 as (Ht1 & _ & Hq1). destruct r1 as [u1|e1].
  2:{ destruct Hr1 as [Hf Hpl]. rewrite (Hpl ErrUnsafeTarget). by apply wp_throw. }
  apply wp_bind, wp_attempt, wp_intro. intros r2 c2 s2 E2. apply statWith_inv in E2 as (-> & He2 & Hr2).
  rewrite Ht1 in He2, Hr2. rewrite resolve_one, Ht in Hr2 by apply Hd. pose proof (evolves_trans _ _ _ _ _ He1 He2) as He.
  destruct r2 as [x|e].
  - injection Hr2 as <-. cbn [PackFs.isRegular negb sizeOf]. rewrite (proj2 (Z.ltb_ge _ _)) by lia. by apply wp_ret.
  - destruct Hr2 as [[Hf Hpl]|[[_ ?]|[_ [?|?]]]]; [|done..]. rewrite (Hpl ErrNotExist). apply wp_throw. split_and!; [done..| |done].
    by intros ?%Hq1.
Qed.

(** ** Appending to a pack file *)
Lemma diskOk_insert t k data m : diskOk t -> packPath [k] -> blen data < 2 ^ 63 -> diskOk (<[[k] := File data m]> t).
Proof.
  intros Hd Hp Hb. pose proof (dk_pack_file _ _ Hd Hp) as Hk. split.
  - apply (parents_insert t [] k); [apply Hd..|]. cbn [app]. intros E. by rewrite E in Hk.
  - rewrite lookup_insert_ne by done. apply Hd.
  - rewrite lookup_insert_ne by (intros E; by apply (pack_not_manifest [k])). apply Hd.
  - intros p Hp'. rewrite lookup_insert. case_decide; [done|by apply Hd].
Qed.
Lemma insert_extends s s' k old x m m' : packPath [k] ->
  tree s !! ([k] : path) = Some (File old m) \/ (tree s !! ([k] : path) = None /\ old = []) -> blen (old ++ x) < 2 ^ 63 ->
  evolves s (<[[k] := File (old ++ x) m']> (tree s)) s' -> extends s s'.
Proof.
  intros Hp Ht Hb (Et & _ & Hq). split; [split; [done| |]|]; rewrite Et.
  - intros Hd. by apply diskOk_insert.
  - intros p data0 m0 Hp' H0. rewrite lookup_insert. case_decide as E; [|exists [], m0; by rewrite app_nil_r].
    subst p. destruct Ht as [Ht|[Ht _]]; simplify_eq. eauto.
  - rewrite lookup_insert_ne; [done|]. by apply pack_not_manifest.
Qed.

Lemma OpenPack_wp k c s : diskOk (tree s) -> packPath [k] ->
  wp (PackFs.os_OpenPack outside [k]) (fun r c' s' => c' = c /\ extends s s' /\
    (r = Ok tt -> exists data m, tree s' !! ([k] : path) = Some (File data m)) /\ (faults s = [] -> r = Ok tt)) c s.
Proof.
  intros Hd Hp. pose proof (dk_pack_file _ _ Hd Hp) as Hk. apply wp_intro. intros r c' s' E.
  apply os_OpenAppend_inv in E as (-> & E). split; [done|]. rewrite resolve_one in E by apply Hd.
  destruct (tree s !! ([k] : path)) as [[data m| | |]|] eqn:Ek; try done; destruct r as [[]|e].
  - destruct E as [[_ ?]|[He _]]; [done|]. split_and!; [by apply evolves_extends| |done]. intros _. destruct He as (-> & _). eauto.
  - destruct E as [He [[Hf _]|[]]]. split_and!; [by apply evolves_extends|done|done].
  - destruct E as [[He _]|[_ (x & ? & _)]]; [|done]. split_and!; [|intros _; destruct He as (-> & _); do 2 eexists; apply lookup_insert_eq|done].
    apply (insert_extends s s' k [] [] 0 (clock s)); [done|by right|done|done].
  - destruct E as [He [[Hf _]|[]]]. split_and!; [by apply evolves_extends|done|done].
Qed.
Lemma SeekEnd_wp p data m c s : tree s !! p = Some (File data m) ->
  wp (os_SeekEnd p) (fun r c' s' => c' = c /\ evolves s (tree s) s' /\ (forall n, r = Ok n -> n = blen data)) c s.
Proof.
  intros Ht. unfold os_SeekEnd. apply wp_bind. eapply wp_mono; [apply wp_syscall|]. intros r c' s' (-> & He & _).
  destruct r as [u|e]; [|by split_and!]. apply wp_bind, wp_get, wp_ret. split_and!; [done..|].
  destruct He as (-> & _). rewrite Ht. by intros n [= <-].
Qed.

Definition small (p : path) (s : FS) : Prop := forall old m, tree s !! p = Some (File old m) -> blen old < 2 ^ 63.
Lemma WriteAt_appends p : appends p (os_WriteAt p).
Proof.
  intros data old m s n werr s' Ht H. unfold os_WriteAt in H. rewrite Ht in H.
  destruct (_ <=? _); [simplify_eq; split; [|done]; exists m; by apply evolves_append_nil|]. by eapply os_Write_appends.
Qed.
Lemma WriteAt_small p data s n werr s' : small p s -> os_WriteAt p data s = (n, werr, s') -> small p s'.
Proof.
  intros Hs H. unfold os_WriteAt in H. destruct (tree s !! p) as [[old m| | |]|] eqn:Ht.
  - destruct (Z.leb_spec (2 ^ 63) (blen old + blen data)); [by simplify_eq|].
    apply (os_Write_inv _ _ old m) in H as ((Et & _) & Hn & _); [|done]. intros old' m'. rewrite Et, lookup_insert_eq.
    intros [= <- _]. rewrite length_app, length_take. lia.
  - unfold os_Write, appendTo in H. rewrite Ht in H. intros old' m' H'. destruct (faults s) as [|[f|] rest]; simplify_eq/=; congruence.
  - unfold os_Write, appendTo in H. rewrite Ht in H. intros old' m' H'. destruct (faults s) as [|[f|] rest]; simplify_eq/=; congruence.
  - unfold os_Write, appendTo in H. rewrite Ht in H. intros old' m' H'. destruct (faults s) as [|[f|] rest]; simplify_eq/=; congruence.
  - unfold os_Write, appendTo in H. rewrite Ht in H. intros old' m' H'. destruct (faults s) as [|[f|] rest]; simplify_eq/=; congruence.
Qed.

(** What a write into a pack file leaves: the file with more at its end, all of
    [data] when it succeeds. *)
Definition appended (p : path) (old data : bytes) (s : FS) (r : res unit) (s' : FS) : Prop :=
  extends s s' /\ exists k m', tree s' !! p = Some (File (old ++ k) m') /\ (r = Ok tt -> k = data).
Lemma appended_of k old m x s r s' data : diskOk (tree s) -> packPath [k] -> tree s !! ([k] : path) = Some (File old m) ->
  (small [k] s -> small [k] s') -> (exists m', evolves s (<[[k] := File (old ++ x) m']> (tree s)) s') ->
  (r = Ok tt -> x = data) -> appended [k] old data s r s'.
Proof.
  intros Hd Hp Ht Hsm [m' He] Hr. pose proof He as (Et & _).
  assert (Ht' : tree s' !! ([k] : path) = Some (File (old ++ x) m')) by (rewrite Et; apply lookup_insert_eq).
  assert (Hs : small [k] s).
  { intros o m0 H0. pose proof (dk_pack _ Hd _ Hp) as Hb. by rewrite H0 in Hb. }
  split; [|exists x, m'; by split]. eapply insert_extends; [done|by left| |done]. by eapply Hsm.
Qed.
Lemma WriteAllAt_wp k data old m c s : diskOk (tree s) -> packPath [k] -> tree s !! ([k] : path) = Some (File old m) ->
  wp (WriteAllTo (os_WriteAt [k]) data) (fun r c' s' => appended [k] old data s r s') c s.
Proof.
  intros Hd Hp Ht. apply wp_intro. intros r c' s' H. unfold WriteAllTo in H.
  pose proof (writeAllTo_appends _ _ _ _ _ _ _ _ _ _ _ (WriteAt_appends [k]) Ht H) as (x & m' & He & Hr).
  eapply appended_of; eauto. intros Hs. eapply (writeAllTo_inv (small [k])); [|done|exact H]. intros. by eapply WriteAt_small.
Qed.
Lemma WriteToAt_wp k rd old m c s : diskOk (tree s) -> packPath [k] -> tree s !! ([k] : path) = Some (File old m) ->
  wp (WriteTo copyBufSize (os_WriteAt [k]) rd) (fun r c' s' => appended [k] old (rd_data rd) s r s' /\ (r = Ok tt -> rd_tail rd = Sentinel EOF)) c s.
Proof.
  intros Hd Hp Ht. apply wp_intro. intros r c' s' H. unfold WriteTo in H.
  assert (Hb : (0 < copyBufSize)%nat) by (unfold copyBufSize; lia).
  pose proof (writeTo_appends _ _ _ _ _ _ _ _ _ _ _ _ (WriteAt_appends [k]) Hb Ht H) as (x & m' & He & Hr).
  split; [|by intros [_ ?]%Hr]. eapply appended_of; eauto; [|by intros [? _]%Hr].
  intros Hs. eapply (writeTo_inv (small [k])); [|done|exact H]. intros. by eapply WriteAt_small.
Qed.

(** A write into a scratch file. *)
Lemma Append_scratch p data old m c s : diskOk (tree s) -> scratchPath p -> tree s !! p = Some (File old m) ->
  wp (os_Append p data) (fun r c' s' => c' = c /\ keeps s s' /\
    (exists x m', tree s' !! p = Some (File x m') /\ (r = Ok tt -> x = old ++ data)) /\ (faults s = [] -> r = Ok tt)) c s.
Proof.
  intros Hd Hp Ht. apply wp_intro. intros r c' s' H.
  apply (os_Append_inv _ _ _ _ _ _ _ _ _ Ht) in H as (-> & n & He & Hr & Hq). split_and!; [done| | |done].
  - pose proof Hp as [k ->]. eapply keeps_insert; [done..| |exact He]. by rewrite Ht.
  - destruct He as (-> & _). do 2 eexists. split; [apply lookup_insert_eq|]. by intros ->%Hr.
Qed.
Lemma syscall_wp c s : wp syscall (fun r c' s' => c' = c /\ keeps s s' /\ tree s' = tree s /\ (faults s = [] -> r = Ok tt)) c s.
Proof.
  eapply wp_mono; [apply wp_syscall|]. intros r c' s' (-> & He & Hq & _). pose proof (evolves_keeps _ _ He). by destruct He as (? & _).
Qed.

(** ** The spool file *)
Lemma spoolObject_wp rd c s : diskOk (tree s) ->
  wp (PackFs.spoolObject outside random rd) (fun r c' s' => keeps s s' /\
    match r with
    | Ok (p, n) => scratchPath p /\ n = blen (rd_data rd) /\ rd_tail rd = Sentinel EOF /\
        exists m, tree s' !! p = Some (File (rd_data rd) m)
    | Err _ => True
    end) c s.
Proof.
  intros Hd. unfold PackFs.spoolObject. apply wp_bind, wp_mapErr. eapply wp_mono; [by apply CreateTemp_wp|].
  intros r c1 s1 (-> & Hk1 & Hr). destruct r as [p|e]; cbn [wrapErr]; [|done]. destruct Hr as [Hp [m Ht]].
  pose proof (keeps_ok _ _ Hk1 Hd) as Hd1. apply wp_bind, wp_orElse, wp_intro. intros r2 c2 s2 E2. unfold WriteTo in E2.
  assert (Hb : (0 < copyBufSize)%nat) by (unfold copyBufSize; lia).
  apply (writeTo_file _ _ _ _ _ _ _ _ _ _ _ Hb Ht) in E2 as (x & m' & He & Hx). cbn [app] in He. pose proof He as (Et & _).
  assert (Hk2 : keeps s1 s2).
  { pose proof Hp as [k ->]. eapply keeps_insert; [done..| |exact He]. by rewrite Ht. }
  destruct r2 as [[]|e].
  - destruct (Hx eq_refl) as [-> ?]. apply wp_ret. split; [by etrans|]. split_and!; try done. exists m'. rewrite Et. apply lookup_insert_eq.
  - eapply wp_mono; [apply discard_scratch; [done|by eapply keeps_ok]|].
    intros r3 c3 s3 (-> & _ & Hk3). split; [|done]. by do 2 (etrans; [done|]).
Qed.
Lemma ReadHandle_wp p data m c s : tree s !! p = Some (File data m) ->
  wp (os_ReadHandle p) (fun r c' s' => c' = c /\ evolves s (tree s) s' /\ exists rf, r = Ok (handleReader data rf)) c s.
Proof.
  intros Ht. unfold os_ReadHandle. apply wp_bind, wp_intro. intros r c' s' E. apply popFault_inv in E as (-> & He & f & -> & _).
  apply wp_bind, wp_get, wp_ret. destruct He as (Et & He). rewrite Et, Ht. by split_and!; [|..|eexists].
Qed.

(** A read of a whole file through a handle that ends did read it all. *)
Lemma handleReader_eof data rf : rd_tail (handleReader data rf) = Sentinel EOF -> rd_data (handleReader data rf) = data.
Proof. destruct rf; [done|]. intros _. apply rd_data_bytesReader. Qed.
Lemma handleReader_reads data rf : reads (handleReader data rf) data.
Proof. destruct rf; [apply reads_cut|apply reads_bytesReader]. Qed.
Lemma LimitReader_handle data rf : rd_tail (LimitReader (blen data) (handleReader data rf)) = Sentinel EOF ->
  rd_data (LimitReader (blen data) (handleReader data rf)) = data.
Proof.
  unfold LimitReader. destruct (limitChunks _ _ _) as [l t] eqn:E. apply limitChunks_spec in E as [E1 E2]; [|lia].
  fold (rd_data (handleReader data rf)) in E1, E2. cbn [rd_tail]. intros Ht. unfold rd_data at 1. cbn [rd_chunks]. rewrite E1.
  destruct rf as [f|]; cbn [handleReader] in *.
  - destruct (E2 Ht) as [Hl|?]; [|done]. revert Hl.
    change (rd_data (mkReader ?cs _)) with (rd_data (mkReader cs EOF)) at 1 2. unfold handleReader.
    change (mkReader (rd_chunks (bytesReader ?x)) EOF) with (bytesReader x). rewrite rd_data_bytesReader, length_take. intros Hl.
    rewrite take_take, take_ge by lia. done.
  - rewrite rd_data_bytesReader. apply take_ge. lia.
Qed.

(** The steps of [persistIndexOf] after the scratch file is made. *)
Lemma publishManifest_wp idx data p m c s0 s : diskOk (tree s) -> keeps s0 s -> scratchPath p ->
  jsonMarshal (PackFs.manifestOf idx) = Ok data -> tree s !! p = Some (File [] m) ->
  wp (orElse (os_Append p data) (attempt syscall;; attempt (os_Remove outside p);; mret tt) (Errorf "cas: write pack manifest: %w");;
      orElse syscall (attempt (os_Remove outside p);; mret tt) (Errorf "cas: write pack manifest: %w");;
      orElse (PackFs.renameWithRetry outside p PackFs.manifestPath) (attempt (os_Remove outside p);; mret tt) (Errorf "cas: rename pack manifest: %w"))
    (persistPost idx c s0) c s.
Proof.
  intros Hd Hk0 Hp Hm Ht.
  apply wp_bind, wp_orElse. eapply wp_mono; [by eapply Append_scratch|].
  intros r1 c1 s1 (-> & Hk1 & (x & m1 & Ht1 & Hx) & Hq1). pose proof (keeps_ok _ _ Hk1 Hd) as Hd1.
  assert (Hk01 : keeps s0 s1) by by etrans.
  assert (Hfail : forall e s', (faults s0 = [] -> False) -> keeps s0 s' -> persistPost idx c s0 (Err e) c s').
  { intros e s' Hf Hk. apply persist_kept; [done..|]. by intros ?%Hf. }
  destruct r1 as [[]|e1].
  2:{ eapply wp_mono; [by apply discard_scratch|]. intros r c' s' (-> & -> & Hk). apply Hfail; [|by etrans].
      intros Hf. by pose proof (Hq1 (kp_quiet _ _ Hk0 Hf)). }
  rewrite (Hx eq_refl) in Ht1. cbn [app] in Ht1. clear x Hx Hq1.
  apply wp_bind, wp_orElse. eapply wp_mono; [apply syscall_wp|]. intros r2 c2 s2 (-> & Hk2 & Et2 & Hq2).
  rewrite <- Et2 in Ht1. pose proof (keeps_ok _ _ Hk2 Hd1) as Hd2. assert (Hk02 : keeps s0 s2) by by etrans.
  destruct r2 as [[]|e2].
  2:{ eapply wp_mono; [by apply tryRemove_scratch|]. intros r c' s' (-> & -> & Hk). apply Hfail; [|by etrans].
      intros Hf. by pose proof (Hq2 (kp_quiet _ _ Hk01 Hf)). }
  apply wp_orElse. eapply wp_mono; [eapply renameLoop_wp; [done..|by left]|]. intros r3 c3 s3 (-> & H3).
  destruct r3 as [u|e3].
  - pose proof (wrote_after _ _ _ _ (keeps_grows _ _ Hk02) H3) as [Hg [m3 H3m]].
    assert (manifestIs idx (tree s3)) by (by exists data, m3). split_and!; [done..|by right|done].
  - destruct H3 as [Hf3 He3]. pose proof (evolves_keeps _ _ He3) as Hk3. destruct He3 as (Ht3 & _).
    eapply wp_mono; [apply tryRemove_scratch; [done|by rewrite Ht3]|]. intros r c' s' (-> & -> & Hk).
    apply Hfail; [|by do 2 (etrans; [done|])]. intros Hf. by apply Hf3, (kp_quiet _ _ Hk02 Hf).
Qed.

Lemma persistIndexOf_wp idx c s : diskOk (tree s) ->
  wp (PackFs.persistIndexOf outside random jsonMarshal idx) (persistPost idx c s) c s.
Proof.
  intros Hd. unfold PackFs.persistIndexOf. apply wp_bind, wp_lift.
  destruct (jsonMarshal (PackFs.manifestOf idx)) as [data|e] eqn:Em; [|apply persist_kept; [done..|by rewrite Em]].
  assert (Hfail : forall e s', (faults s = [] -> False) -> keeps s s' -> persistPost idx c s (Err e) c s').
  { intros e s' Hf Hk. apply persist_kept; [done..|]. by intros ?%Hf. }
  apply wp_bind, wp_mapErr. eapply wp_mono; [apply validateBase_wp; [done|by left]|]. intros r1 c1 s1 (-> & He1 & Hq1).
  pose proof (evolves_keeps _ _ He1) as Hk1. pose proof (keeps_ok _ _ Hk1 Hd) as Hd1.
  destruct r1 as [u1|e1]; cbn [wrapErr]; [|apply Hfail; [by intros ?%Hq1|done]].
  apply wp_bind, wp_mapErr. eapply wp_mono; [by apply CreateTemp_wp|]. intros r2 c2 s2 (-> & Hk2 & Hr2).
  destruct r2 as [p|e2]; cbn [wrapErr].
  - destruct Hr2 as [Hp [m Hm]]. eapply publishManifest_wp; [by eapply keeps_ok|by etrans|done..].
  - apply Hfail; [|by etrans]. intros Hf. by apply Hr2, (kp_quiet _ _ Hk1).
Qed.
End Persist.
End DiskOps.
