(* ===== verification/PackContract.v ===== *)
(** The pack-file backend against the Backend interface: over any loose backend
    that meets the interface, PackFs meets it too, and a reopened directory
    stands for the objects the last successful write left. *)

From S2P Require Import Prelude Digest Binary Stream Backend Store FileSystem AtomicFile Wp OsFile FsBackend FsContract RefText FilePath PackFs PackDisk.

Section PackContract.
Context {L : Type} (loose : Backend L) (linv lquiet : L -> Prop) (key : Digest -> Prop) (labs : L -> gmap Digest bytes).
Context `{HL : !BackendSpec loose linv lquiet key labs}.
Variable base : bytes.
Variable outside : path -> option entry.
Variable random : gmap path entry -> bytes.
Hypothesis random_fresh : forall (t : gmap path entry) (pre suf : bytes), t !! ([pre ++ random t ++ suf] : path) = None.
Variable jsonMarshal : gmap bytes PackFs.packRecord -> res bytes.
(** Strings and integers can always be encoded. *)
Hypothesis json_marshals : forall m, is_ok (jsonMarshal m) = true.
Variable cfg : PackFs.config.

Abbreviation index := (gmap Digest PackFs.packRecord).
Abbreviation PB := (PackFs.Backend (L := L)).
Abbreviation persistIndex := (PackFs.persistIndex outside random jsonMarshal).
Abbreviation Put := (PackFs.Put loose base outside random jsonMarshal cfg).
Abbreviation Get := (PackFs.Get loose base outside random jsonMarshal).
Abbreviation Exists_ := (PackFs.Exists loose base outside random jsonMarshal).
Abbreviation Delete := (PackFs.Delete loose outside random jsonMarshal).

(** ** The state's invariant and the objects it stands for *)
(** A record that [encoding/json] keeps: text and int64s. *)
Definition textRec (rec : PackFs.packRecord) : Prop :=
  ValidString (PackFs.Pack rec) = true /\ 0 <= PackFs.Offset rec < 2 ^ 63 /\ 0 <= PackFs.Size rec < 2 ^ 63.
Definition idxOk (t : gmap path entry) (idx : index) : Prop :=
  forall d rec, idx !! d = Some rec -> key d /\ validRec base t rec.
(** A manifest may also list records of another directory, which loading drops. *)
Definition listedOk (t : gmap path entry) (idx : index) : Prop :=
  forall d rec, idx !! d = Some rec -> key d /\ (ValidString (PackFs.packDir base) = true -> textRec rec) /\
    (is_Some (PackFs.inPackDir base (PackFs.Pack rec)) -> validRec base t rec).
Definition manifestOk (t : gmap path entry) : Prop :=
  t !! PackFs.manifestPath = None \/ exists idx, manifestIs jsonMarshal idx t /\ listedOk t idx.
Definition handleOk (t : gmap path entry) (h : option PackFs.handle) (s : bytes) : Prop :=
  match h with
  | None => True
  | Some h => packPath (PackFs.h_path h) /\ packString base (PackFs.h_path h) s /\ exists data m, t !! PackFs.h_path h = Some (File data m)
  end.
Record inv (b : PB) : Prop := {
  pi_disk : diskOk (tree (PackFs.disk b));
  pi_loose : linv (PackFs.bk_loose b);
  pi_index : idxOk (tree (PackFs.disk b)) (PackFs.index b);
  pi_manifest : manifestOk (tree (PackFs.disk b));
  pi_pack : handleOk (tree (PackFs.disk b)) (PackFs.packFile b) (PackFs.packFilePath b);
}.
Definition quiet (b : PB) : Prop := faults (PackFs.disk b) = [] /\ lquiet (PackFs.bk_loose b).
Definition packed (b : PB) : gmap Digest bytes := section_of base (tree (PackFs.disk b)) <$> PackFs.index b.
(** A packed object hides the loose one of the same digest. *)
Definition abs (b : PB) : gmap Digest bytes := packed b ∪ labs (PackFs.bk_loose b).
(** The manifest on disk is the index in memory. *)
Definition synced (b : PB) : Prop := manifestIs jsonMarshal (PackFs.index b) (tree (PackFs.disk b)).

Lemma idxOk_grows s s' idx : grows s s' -> idxOk (tree s) idx -> idxOk (tree s') idx.
Proof. intros Hg Hi d rec H. destruct (Hi d rec H) as [? Hv]. split; [done|]. by eapply validRec_grows. Qed.
Lemma validRec_text t rec : diskOk t -> validRec base t rec -> ValidString (PackFs.packDir base) = true -> textRec rec.
Proof.
  intros Hd (Hv & p & data & m & _ & Hp & Ht & ? & ? & ?) Hs. pose proof (dk_pack _ Hd p Hp) as Hb. rewrite Ht in Hb. cbn in Hb.
  split_and!; [by apply Hv|lia..].
Qed.
Lemma idxOk_listed t idx : diskOk t -> idxOk t idx -> listedOk t idx.
Proof. intros Hd Hi d rec H. destruct (Hi d rec H) as [? Hv]. split_and!; [done|by eapply validRec_text|done]. Qed.
Lemma listedOk_grows s s' idx : grows s s' -> listedOk (tree s) idx -> listedOk (tree s') idx.
Proof. intros Hg Hi d rec H. destruct (Hi d rec H) as (? & ? & Hv). split_and!; [done..|]. intros ?%Hv. by eapply validRec_grows. Qed.
Lemma packed_grows s s' idx : grows s s' -> idxOk (tree s) idx ->
  section_of base (tree s') <$> idx = section_of base (tree s) <$> idx.
Proof.
  intros Hg Hi. apply map_fmap_ext. intros d rec H. destruct (Hi d rec H) as [_ Hv]. by eapply validRec_grows.
Qed.
Lemma handleOk_grows s s' h p : grows s s' -> handleOk (tree s) h p -> handleOk (tree s') h p.
Proof.
  intros Hg. destruct h as [h|]; [|done]. intros (Hp & Hs & data & m & Ht). split_and!; [done..|].
  destruct (gr_pack _ _ Hg _ data m Hp Ht) as (k & m' & Ht'). eauto.
Qed.
Lemma manifestOk_grows s s' : grows s s' -> diskOk (tree s) -> manifestOk (tree s) ->
  tree s' !! PackFs.manifestPath = tree s !! PackFs.manifestPath \/ (exists idx, manifestIs jsonMarshal idx (tree s') /\ idxOk (tree s) idx) ->
  manifestOk (tree s').
Proof.
  intros Hg Hd Hm [E|(idx & H1 & H2)]; [|right; exists idx; split; [done|by eapply listedOk_grows, idxOk_listed]].
  destruct Hm as [Hm|(idx & (data & m & Ej & Et) & Hi)]; [left; by rewrite E|right]. exists idx.
  split; [exists data, m; by rewrite E|by eapply listedOk_grows].
Qed.

(** ** The fields' operations *)
Definition withDisk (b : PB) (s : FS) : PB :=
  PackFs.mkBackend (PackFs.bk_loose b) s (PackFs.packFile b) (PackFs.packFilePath b) (PackFs.packBytes b) (PackFs.packEntries b) (PackFs.index b).
Definition withLoose (b : PB) (l : L) : PB :=
  PackFs.mkBackend l (PackFs.disk b) (PackFs.packFile b) (PackFs.packFilePath b) (PackFs.packBytes b) (PackFs.packEntries b) (PackFs.index b).
Definition withIndex (b : PB) (idx : index) : PB :=
  PackFs.mkBackend (PackFs.bk_loose b) (PackFs.disk b) (PackFs.packFile b) (PackFs.packFilePath b) (PackFs.packBytes b) (PackFs.packEntries b) idx.
Definition withPack (b : PB) h p n k : PB :=
  PackFs.mkBackend (PackFs.bk_loose b) (PackFs.disk b) h p n k (PackFs.index b).

Lemma wp_onDisk {A} (m : M FS A) (Q : res A -> ctx -> PB -> Prop) c b :
  wp m (fun r c' s' => Q r c' (withDisk b s')) c (PackFs.disk b) -> wp (PackFs.onDisk m) Q c b.
Proof. unfold wp, PackFs.onDisk. by destruct (m c (PackFs.disk b)) as [[r c'] s']. Qed.
Lemma wp_onLoose {A} (m : M L A) (Q : res A -> ctx -> PB -> Prop) c b :
  wp m (fun r c' l' => Q r c' (withLoose b l')) c (PackFs.bk_loose b) -> wp (PackFs.onLoose m) Q c b.
Proof. unfold wp, PackFs.onLoose. by destruct (m c (PackFs.bk_loose b)) as [[r c'] s']. Qed.
Lemma wp_setPack h p n k (Q : res unit -> ctx -> PB -> Prop) c b : Q (Ok tt) c (withPack b h p n k) -> wp (PackFs.setPack h p n k) Q c b.
Proof. done. Qed.
Lemma wp_setIndex f (Q : res unit -> ctx -> PB -> Prop) c b : Q (Ok tt) c (withIndex b (f (PackFs.index b))) -> wp (PackFs.setIndex f) Q c b.
Proof. done. Qed.

(** ** Steps that change no object *)
Record same (b b' : PB) : Prop := {
  sm_inv : inv b';
  sm_quiet : quiet b -> quiet b';
  sm_abs : abs b' = abs b;
  sm_loose : PackFs.bk_loose b' = PackFs.bk_loose b;
  sm_index : PackFs.index b' = PackFs.index b;
  sm_disk : grows (PackFs.disk b) (PackFs.disk b');
}.
Lemma same_refl b : inv b -> same b b.
Proof. by split. Qed.
Lemma same_trans b b1 b' : same b b1 -> same b1 b' -> same b b'.
Proof. intros [] []. split; [done|auto|congruence..|by etrans]. Qed.
Lemma same_disk b s' : inv b -> extends (PackFs.disk b) s' -> same b (withDisk b s').
Proof.
  intros [Hd Hl Hi Hm Hp] [Hg Em]. assert (Hpk : packed (withDisk b s') = packed b) by by apply packed_grows.
  split; [split| | | | |]; cbn; try done.
  - by apply (gr_ok _ _ Hg).
  - by eapply idxOk_grows.
  - eapply manifestOk_grows; [done..|by left].
  - by eapply handleOk_grows.
  - intros [Hq ?]. split; [by apply (gr_quiet _ _ Hg)|done].
  - unfold abs. f_equal. exact Hpk.
Qed.
Lemma same_pack b h p n k : inv b -> handleOk (tree (PackFs.disk b)) h p -> same b (withPack b h p n k).
Proof. intros [] ?. split; [by split|done..]. Qed.

(** ** The active pack file *)
Lemma wp_sameDisk {A} (m : M FS A) (Q : res A -> ctx -> PB -> Prop) c b0 b : same b0 b ->
  wp m (fun r c' s' => extends (PackFs.disk b) s' /\ (same b0 (withDisk b s') -> Q r c' (withDisk b s'))) c (PackFs.disk b) ->
  wp (PackFs.onDisk m) Q c b.
Proof.
  intros Hs H. apply wp_onDisk. eapply wp_mono; [exact H|]. intros r c' s' [He HQ]. apply HQ.
  eapply same_trans; [done|]. apply same_disk; [apply Hs|done].
Qed.

Lemma openPack_wp p (f : error -> error) c b : inv b -> packPath p ->
  wp (mapErr f (PackFs.onDisk (PackFs.validateBase outside false p));; mapErr f (PackFs.onDisk (PackFs.os_OpenPack outside p)))
    (fun r c' b' => c' = c /\ same b b' /\ (quiet b -> r = Ok tt) /\
      (r = Ok tt -> exists data m, tree (PackFs.disk b') !! p = Some (File data m))) c b.
Proof.
  intros Hi Hp. apply wp_bind, wp_mapErr, (wp_sameDisk _ _ _ b); [by apply same_refl|].
  eapply wp_mono; [apply validateBase_wp; [apply Hi|by right]|]. intros r1 c1 s1 (-> & He1 & Hq1).
  split; [by apply evolves_extends|]. intros Hs1. destruct r1 as [u1|e1]; cbn [wrapErr].
  2:{ split_and!; [done..| |done]. by intros [?%Hq1 _]. }
  pose proof Hp as (k0 & -> & _). apply wp_mapErr, (wp_sameDisk _ _ _ b); [done|].
  eapply wp_mono; [apply OpenPack_wp; [apply Hs1|done]|]. intros r2 c2 s2 (-> & He2 & Hr2 & Hq2).
  split; [done|]. intros Hs2. destruct r2 as [[]|e2]; cbn [wrapErr].
  - split_and!; [done..|]. intros _. destruct (Hr2 eq_refl) as (data & m & Ht). eauto.
  - split_and!; [done..| |done]. intros Hq. pose proof (sm_quiet _ _ Hs1 Hq) as [Hf _]. by pose proof (Hq2 Hf).
Qed.
Lemma same_handle b b' name n k : same b b' -> packPath [name] -> (exists data m, tree (PackFs.disk b') !! ([name] : path) = Some (File data m)) ->
  same b (withPack b' (Some (PackFs.mkHandle [name] false)) (Join (PackFs.packDir base) name) n k).
Proof. intros Hs Hp Ht. pose proof (Join_packString base name Hp). eapply same_trans; [done|]. by apply same_pack; [apply Hs|]. Qed.

Lemma ensurePackFile_wp c b : inv b ->
  wp (PackFs.ensurePackFile base outside) (fun r c' b' => c' = c /\ same b b' /\ (r = Ok tt -> is_Some (PackFs.packFile b')) /\ (quiet b -> r = Ok tt)) c b.
Proof.
  intros Hi. unfold PackFs.ensurePackFile. apply wp_bind, wp_get. destruct (PackFs.packFile b) as [h|] eqn:Eh.
  { apply wp_ret. split_and!; [done|by apply same_refl|by rewrite Eh|done]. }
  apply wp_bind2. eapply wp_mono; [apply openPack_wp; [done|apply current_is_pack]|].
  intros r1 c1 b1 (-> & Hs1 & Hq1 & Ht1). destruct r1 as [[]|e1]; [|split_and!; [done..|]; by intros ?%Hq1].
  destruct (Ht1 eq_refl) as (data & m & Ht).
  apply wp_bind, wp_attempt, (wp_sameDisk _ _ _ b); [done|]. eapply wp_mono; [by eapply SeekEnd_wp|].
  intros r3 c3 s3 (-> & He3 & _). split; [by apply evolves_extends|]. intros Hs3.
  apply wp_setPack. split_and!; [done| |by eexists|done]. apply same_handle; [done|apply current_is_pack|].
  destruct He3 as (Et & _). cbn. rewrite Et. eauto.
Qed.

Lemma rotatedPack_wp b0 c b : same b0 b ->
  wp (b ← get;
      let name := str "pack-" ++ formatInt (clock (PackFs.disk b)) ++ str ".pack" in
      let p := [name] in
      mapErr (Errorf "cas: rotate pack file: %w") (PackFs.onDisk (PackFs.validateBase outside false p));;
      mapErr (Errorf "cas: rotate pack file: %w") (PackFs.onDisk (PackFs.os_OpenPack outside p));;
      PackFs.setPack (Some (PackFs.mkHandle p false)) (Join (PackFs.packDir base) name) 0 0) (fun r c' b' => c' = c /\ same b0 b') c b.
Proof.
  intros Hs. apply wp_bind, wp_get. cbn zeta. pose proof (rotated_is_pack (clock (PackFs.disk b))) as Hp.
  apply wp_bind2. eapply wp_mono; [apply openPack_wp; [apply Hs|done]|]. intros r1 c1 b1 (-> & Hs1 & _ & Ht).
  pose proof (same_trans _ _ _ Hs Hs1). destruct r1 as [[]|e1]; [|done]. apply wp_setPack. split; [done|]. by apply same_handle; auto.
Qed.
Lemma rotatePackFile_wp c b : inv b ->
  wp (PackFs.rotatePackFile base outside) (fun r c' b' => c' = c /\ same b b') c b.
Proof.
  intros Hi. unfold PackFs.rotatePackFile. apply wp_bind, wp_get.
  assert (Hpk : forall h p n k b', same b b' -> handleOk (tree (PackFs.disk b')) h p -> same b (withPack b' h p n k)).
  { intros h p n k b' Hs Hh. eapply same_trans; [done|]. by apply same_pack; [apply Hs|]. }
  apply wp_bind. destruct (PackFs.packFile b) as [h|] eqn:Eh; [|apply wp_ret; by apply rotatedPack_wp, same_refl].
  apply wp_bind, wp_attempt, (wp_sameDisk _ _ _ b); [by apply same_refl|].
  assert (Hcl : wp (PackFs.closeHandle h) (fun r c' s' => c' = c /\ evolves (PackFs.disk b) (tree (PackFs.disk b)) s') c (PackFs.disk b)).
  { unfold PackFs.closeHandle. destruct (PackFs.h_closed h); [by apply wp_throw|].
    eapply wp_mono; [apply wp_syscall|]. by intros r c' s' (-> & He & _). }
  eapply wp_mono; [exact Hcl|]. intros r c1 s1 (-> & He1). split; [by apply evolves_extends|]. intros Hs1.
  destruct r as [u|e].
  - apply wp_setPack, rotatedPack_wp. by apply Hpk.
  - apply wp_bind, wp_setPack, wp_throw. split; [done|]. apply Hpk; [done|].
    pose proof (pi_pack _ Hi) as Hh. rewrite Eh in Hh. eapply (handleOk_grows (PackFs.disk b)); [|exact Hh]. apply (evolves_extends _ _ He1).
Qed.

(** ** The manifest *)
Lemma persistIndex_wp c b : inv b ->
  wp persistIndex (fun r c' b' => c' = c /\ same b b' /\ (r = Ok tt -> synced b') /\ (quiet b -> r = Ok tt)) c b.
Proof.
  intros Hi. unfold PackFs.persistIndex. apply wp_bind, wp_get, wp_onDisk.
  eapply wp_mono; [apply persistIndexOf_wp; [done|apply Hi]|]. intros r c' s' (-> & Hg & Hm & Hr).
  assert (Hpk : packed (withDisk b s') = packed b) by (apply packed_grows; [done|apply Hi]).
  assert (Hs : same b (withDisk b s')).
  { split; [split| | | | |]; cbn; try done.
    - apply (gr_ok _ _ Hg), Hi.
    - apply Hi.
    - eapply idxOk_grows; [done|apply Hi].
    - eapply manifestOk_grows; [done|apply Hi..|]. destruct Hm as [?|Hm]; [by left|right]. eexists. split; [exact Hm|apply Hi].
    - eapply handleOk_grows; [done|apply Hi].
    - intros [Hq ?]. split; [by apply (gr_quiet _ _ Hg)|done].
    - unfold abs. f_equal. exact Hpk. }
  split_and!; [done..| |].
  - intros ->. exact Hr.
  - intros [Hq _]. destruct r as [[]|e]; [done|]. specialize (Hr Hq).
    by rewrite json_marshals in Hr.
Qed.

(** An index entry taken away, or added for bytes that are in a pack. *)
Lemma inv_unindex d b : inv b -> inv (withIndex b (delete d (PackFs.index b))).
Proof. intros []. split; try done. cbn. intros d' rec [_ H]%lookup_delete_Some. auto. Qed.
Lemma inv_indexed d rec b : inv b -> key d -> validRec base (tree (PackFs.disk b)) rec -> inv (withIndex b (<[d := rec]> (PackFs.index b))).
Proof.
  intros [] Hk Hv. split; try done. cbn. intros d' rec' [[-> ->]|[_ H]]%lookup_insert_Some; [done|by auto].
Qed.
Lemma abs_insert d rec b : abs (withIndex b (<[d := rec]> (PackFs.index b))) = <[d := section_of base (tree (PackFs.disk b)) rec]> (abs b).
Proof. unfold abs, packed. cbn. by rewrite fmap_insert, insert_union_l. Qed.
Lemma abs_delete d b l : labs l = delete d (labs (PackFs.bk_loose b)) ->
  abs (withIndex (withLoose b l) (delete d (PackFs.index b))) = delete d (abs b).
Proof. intros E. unfold abs, packed. cbn. by rewrite E, fmap_delete, delete_union. Qed.
Lemma abs_loose_put d data b l : put_post (labs (PackFs.bk_loose b)) d data (labs l) -> put_post (abs b) d data (abs (withLoose b l)).
Proof.
  unfold abs, packed. cbn. set (m := section_of base _ <$> _). change (section_of base _ <$> _) with m. intros Hp.
  destruct (m !! d) as [v|] eqn:Em.
  - right. split; [exists v; by apply lookup_union_Some_l|].
    destruct Hp as [-> |[_ ->]]; [|done]. apply map_eq. intros k. rewrite !lookup_union. destruct (decide (d = k)) as [<-|].
    + rewrite Em, lookup_insert_eq. by destruct (labs (PackFs.bk_loose b) !! d).
    + by rewrite lookup_insert_ne.
  - destruct Hp as [-> |[Hs ->]].
    + left. by rewrite insert_union_r.
    + right. split; [|done]. by rewrite lookup_union_r.
Qed.
Lemma put_post_over m d data m' x : put_post m d data m' -> <[d := x]> m' = <[d := x]> m.
Proof. intros [-> |[_ ->]]; [apply insert_insert_eq|done]. Qed.

(** ** Appending a record *)
Definition appendPost (d : Digest) (data : bytes) (b : PB) (r : res unit) (b' : PB) : Prop :=
  inv b' /\ (quiet b -> quiet b') /\ PackFs.bk_loose b' = PackFs.bk_loose b /\
  ((same b b' /\ r <> Ok tt) \/ (abs b' = <[d := data]> (abs b) /\ (r = Ok tt -> synced b'))).

Lemma append_failed d data b b' e : same b b' -> appendPost d data b (Err e) b'.
Proof. intros Hs. pose proof Hs as []. split_and!; [done..|]. by left. Qed.
Lemma viaHandle_wp {A} (m : M FS A) h d data (f : error -> error) (k : A -> M PB unit) c b0 b : same b0 b ->
  wp m (fun r c' s' => extends (PackFs.disk b) s' /\
    (forall a, r = Ok a -> same b0 (withDisk b s') -> wp (k a) (fun r c' b' => appendPost d data b0 r b') c' (withDisk b s'))) c (PackFs.disk b) ->
  wp (mapErr f (PackFs.viaHandle h m) ≫= k) (fun r c' b' => appendPost d data b0 r b') c b.
Proof.
  intros Hs H. apply wp_bind, wp_mapErr. unfold PackFs.viaHandle. destruct (PackFs.h_closed h).
  { apply wp_throw. cbn. by apply append_failed. }
  apply (wp_sameDisk _ _ _ b0); [done|]. eapply wp_mono; [exact H|]. intros [a|e] c' s' [He Hk]; (split; [done|]); intros Hs'; cbn [wrapErr].
  - by apply Hk.
  - by apply append_failed.
Qed.

Lemma length_packHeader d n : blen (PackFs.packHeader d n) = 4 + blen d + 8.
Proof. unfold PackFs.packHeader. rewrite !length_app, !length_be_put. lia. Qed.
Lemma section_appended old hdr data k : section (blen old + blen hdr) (blen data) (old ++ hdr ++ data ++ k) = data.
Proof.
  unfold section. rewrite app_assoc, drop_app_exact by (rewrite length_app; lia). apply take_app_exact. lia.
Qed.

Lemma indexed_wp h d data old hdr p str m n k c b0 b : same b0 b -> key d -> PackFs.packFilePath b = str -> packString base p str -> packPath p ->
  PackFs.packFile b = Some h -> tree (PackFs.disk b) !! p = Some (File (old ++ hdr ++ data) m) ->
  wp (PackFs.setPack (Some h) str n k;;
      PackFs.setIndex <[d := PackFs.mkRecord str (int64 (blen old + blen hdr)) (blen data)]>;;
      persistIndex) (fun r c' b' => appendPost d data b0 r b') c b.
Proof.
  intros Hs Hk Ep [EP Htxt] Hp Hh Ht. rewrite <- Hh. pose proof (sm_inv _ _ Hs) as Hi. set (rec := PackFs.mkRecord _ _ _).
  pose proof (dk_pack _ (pi_disk _ Hi) p Hp) as Hb. rewrite Ht in Hb. cbn in Hb. rewrite !length_app in Hb.
  assert (Hoff : int64 (blen old + blen hdr) = blen old + blen hdr) by (apply int64_id; lia).
  assert (Hsec : section_of base (tree (PackFs.disk b)) rec = data).
  { unfold section_of. cbn [PackFs.Pack rec PackFs.Offset PackFs.Size]. rewrite EP. cbn [default from_option id]. rewrite Ht, Hoff. rewrite <- (app_nil_r data) at 2. apply section_appended. }
  assert (Hv : validRec base (tree (PackFs.disk b)) rec).
  { split; [exact Htxt|]. exists p, (old ++ hdr ++ data), m. cbn. rewrite Hoff, !length_app. split_and!; try done; lia. }
  apply wp_bind, wp_setPack, wp_bind, wp_setIndex.
  set (b1 := withPack b (PackFs.packFile b) str n k).
  assert (Hs1 : same b b1) by (apply same_pack; [done|rewrite <- Ep; apply Hi]).
  pose proof (inv_indexed d rec b1 (sm_inv _ _ Hs1) Hk Hv) as Hi2.
  eapply wp_mono; [apply persistIndex_wp, Hi2|]. intros r c' b' (-> & Hs' & Hr & _).
  split_and!; [apply Hs'| |by rewrite (sm_loose _ _ Hs'), <- (sm_loose _ _ Hs)|].
  - intros Hq. apply (sm_quiet _ _ Hs'). by apply (sm_quiet _ _ Hs) in Hq.
  - right. split; [|done]. rewrite (sm_abs _ _ Hs'), abs_insert. change (tree (PackFs.disk b1)) with (tree (PackFs.disk b)).
    by rewrite Hsec, (sm_abs _ _ Hs1), (sm_abs _ _ Hs).
Qed.

Lemma writeRecord_wp h d rd data c b0 b : same b0 b -> PackFs.packFile b = Some h -> key d ->
  (rd_tail (LimitReader (blen data) rd) = Sentinel EOF -> rd_data (LimitReader (blen data) rd) = data) ->
  wp (PackFs.writeRecord outside random jsonMarshal h d rd (blen data)) (fun r c' b' => appendPost d data b0 r b') c b.
Proof.
  intros Hs Eh Hk Hlim. pose proof (pi_pack _ (sm_inv _ _ Hs)) as Hh. rewrite Eh in Hh.
  destruct Hh as (Hp & Hstr & old & m & Ht). unfold PackFs.writeRecord.
  remember (PackFs.h_path h) as p eqn:Ehp. pose proof Hp as (k & Ek & _).
  eapply viaHandle_wp; [done|]. eapply wp_mono; [by eapply SeekEnd_wp|]. intros r1 c1 s1 (-> & He1 & Hr1).
  split; [by apply evolves_extends|]. intros a1 Ea1 Hs1. apply Hr1 in Ea1 as ->. destruct He1 as (Et1 & _).
  pose proof Ht as Ht1. rewrite <- Et1 in Ht1. pose proof (pi_disk _ (sm_inv _ _ Hs1)) as Hd1.
  clear Ehp. subst p. eapply viaHandle_wp; [done|]. eapply wp_mono; [by eapply WriteAllAt_wp|].
  intros r2 c2 s2 (He2 & x2 & m2 & Ht2 & Hr2). split; [done|]. intros [] -> Hs2. rewrite (Hr2 eq_refl) in Ht2. clear Hr2 x2.
  pose proof (pi_disk _ (sm_inv _ _ Hs2)) as Hd2. eapply viaHandle_wp; [done|]. eapply wp_mono; [by eapply WriteToAt_wp|].
  intros r3 c3 s3 ((He3 & x3 & m3 & Ht3 & Hr3) & Htl). split; [done|]. intros [] -> Hs3.
  rewrite (Hr3 eq_refl), (Hlim (Htl eq_refl)), <- app_assoc in Ht3.
  cbn zeta. apply wp_bind, wp_get. cbn [withDisk PackFs.packFilePath PackFs.packBytes PackFs.packEntries].
  rewrite <- length_packHeader with (n := blen data).
  eapply (indexed_wp h d data old (PackFs.packHeader d (blen data)) [k ++ str ".pack"] (PackFs.packFilePath b) m3); [exact Hs3|done|done|exact Hstr|exact Hp|exact Eh|exact Ht3].
Qed.

Lemma rotateIf_wp (cond : bool) c b0 b : same b0 b ->
  wp (if cond then PackFs.rotatePackFile base outside else mret tt) (fun r c' b' => c' = c /\ same b0 b') c b.
Proof.
  intros Hs. destruct cond; [|by apply wp_ret]. eapply wp_mono; [apply rotatePackFile_wp, Hs|].
  intros r c' b' [-> Hs']. split; [done|by eapply same_trans].
Qed.
Lemma appendPackRecord_wp d rd data c b : inv b -> key d -> PackFs.enabled cfg = true ->
  (rd_tail (LimitReader (blen data) rd) = Sentinel EOF -> rd_data (LimitReader (blen data) rd) = data) ->
  wp (PackFs.appendPackRecord base outside random jsonMarshal cfg d rd (blen data)) (fun r c' b' => appendPost d data b r b') c b.
Proof.
  intros Hi Hk He Hlim. unfold PackFs.appendPackRecord. rewrite He. cbn [negb].
  apply wp_bind. eapply wp_mono; [by apply ensurePackFile_wp|]. intros r1 c1 b1 (-> & Hs1 & _).
  destruct r1 as [[]|e]; [|by apply append_failed]. apply wp_bind, wp_get, wp_bind.
  eapply wp_mono; [by apply rotateIf_wp|]. intros r2 c2 b2 (-> & Hs2). destruct r2 as [[]|e]; [|by apply append_failed].
  apply wp_bind, wp_get, wp_bind.
  eapply wp_mono; [by apply rotateIf_wp|]. intros r3 c3 b3 (-> & Hs3). destruct r3 as [[]|e]; [|by apply append_failed].
  apply wp_bind. eapply wp_mono; [by apply ensurePackFile_wp, Hs3|]. intros r4 c4 b4 (-> & Hs4 & Hh & _).
  pose proof (same_trans _ _ _ Hs3 Hs4) as Hs. destruct r4 as [[]|e]; [|by apply append_failed].
  apply wp_bind, wp_get. destruct (Hh eq_refl) as [h Eh]. rewrite Eh. by apply writeRecord_wp.
Qed.

(** ** Put *)
Definition putPost (d : Digest) (r : Reader) (b : PB) (res : res unit) (b' : PB) : Prop :=
  inv b' /\ (quiet b -> quiet b') /\
  match res with
  | Ok _ => key d /\ rd_tail r = Sentinel EOF /\ put_post (abs b) d (rd_data r) (abs b') /\
      (PackFs.enabled cfg = true -> abs b' = <[d := rd_data r]> (abs b) /\ synced b')
  | Err _ => abs b' = abs b \/ (rd_tail r = Sentinel EOF /\ put_post (abs b) d (rd_data r) (abs b'))
  end.

Lemma put_same d r b b' e : same b b' -> putPost d r b (Err e) b'.
Proof. intros []. split_and!; [done..|by left]. Qed.
Lemma loosePut_wp d r c b0 b : same b0 b ->
  wp (PackFs.onLoose (bk_Put loose d r)) (fun res c' b' => inv b' /\ (quiet b0 -> quiet b') /\ PackFs.disk b' = PackFs.disk b /\
    match res with
    | Ok _ => key d /\ rd_tail r = Sentinel EOF /\ put_post (abs b0) d (rd_data r) (abs b')
    | Err _ => abs b' = abs b0 \/ (rd_tail r = Sentinel EOF /\ put_post (abs b0) d (rd_data r) (abs b'))
    end) c b.
Proof.
  intros Hs. apply wp_onLoose, wp_intro. intros res c' l' H. destruct (sm_inv _ _ Hs) as [Hd Hl Hi Hm Hp].
  apply bs_Put in H as (Hl' & Hq & H); [|done]. split_and!; [by split|intros Hq0| |]; [|done|].
  - destruct (sm_quiet _ _ Hs Hq0). split; [done|by apply Hq].
  - rewrite <- (sm_abs _ _ Hs). destruct res as [u|e].
    + destruct H as (? & ? & ?%abs_loose_put). done.
    + destruct H as [H|(? & ?%abs_loose_put)]; [left|by right]. unfold abs, packed. cbn. by rewrite H.
Qed.

Lemma deferred_wp {A} (body : M PB A) last (Q : res A -> PB -> Prop) c b :
  wp body (fun r c' b' => wp last (fun _ _ b'' => Q r b'') c' b') c b ->
  wp (PackFs.deferred body last) (fun r _ b' => Q r b') c b.
Proof.
  intros H. unfold PackFs.deferred. apply wp_bind, wp_attempt. eapply wp_mono; [exact H|]. intros r c' b' HQ.
  apply wp_bind, wp_attempt. eapply wp_mono; [exact HQ|]. intros r' c'' b'' HQ'. by apply wp_lift.
Qed.

(** Reading the spool file back. *)
Lemma rewind_wp {A} p data m (k : Reader -> M PB A) (Q : res A -> ctx -> PB -> Prop) c b0 b :
  same b0 b -> tree (PackFs.disk b) !! p = Some (File data m) ->
  (forall c' s' rf, same b0 (withDisk b s') -> tree s' = tree (PackFs.disk b) -> wp (k (handleReader data rf)) Q c' (withDisk b s')) ->
  (forall e c' s', same b0 (withDisk b s') -> Q (Err e) c' (withDisk b s')) ->
  wp (PackFs.onDisk (mapErr (Errorf "cas: rewind spool file: %w") syscall);; sp ← PackFs.onDisk (os_ReadHandle p); k sp) Q c b.
Proof.
  intros Hs Ht Hok Herr. apply wp_bind, (wp_sameDisk _ _ _ b0); [done|]. apply wp_mapErr.
  eapply wp_mono; [apply syscall_wp|]. intros r1 c1 s1 (-> & Hk1 & Et1 & _). split; [by apply keeps_extends|]. intros Hs1.
  destruct r1 as [u1|e1]; cbn [wrapErr]; [|by apply Herr].
  apply wp_bind, (wp_sameDisk _ _ _ b0); [done|].
  eapply wp_mono; [eapply ReadHandle_wp; cbn; rewrite Et1; exact Ht|]. intros r2 c2 s2 (-> & He2 & rf & ->).
  split; [by apply evolves_extends|]. intros Hs2. apply (Hok c s2 rf); [exact Hs2|]. destruct He2 as (E & _). by rewrite E.
Qed.

Lemma putBody_wp d r p m c b0 b : same b0 b -> PackFs.enabled cfg = true -> rd_tail r = Sentinel EOF ->
  tree (PackFs.disk b) !! p = Some (File (rd_data r) m) ->
  wp (PackFs.onDisk (mapErr (Errorf "cas: rewind spool file: %w") syscall);;
      sp ← PackFs.onDisk (os_ReadHandle p);
      PackFs.onLoose (bk_Put loose d sp);;
      PackFs.onDisk (mapErr (Errorf "cas: rewind spool file: %w") syscall);;
      sp ← PackFs.onDisk (os_ReadHandle p);
      PackFs.appendPackRecord base outside random jsonMarshal cfg d sp (blen (rd_data r)))
    (fun res c' b' => putPost d r b0 res b') c b.
Proof.
  intros Hs He Htl Ht. eapply rewind_wp; [done..| |intros; by apply put_same].
  intros c1 s1 rf1 Hs1 Et1. apply wp_bind. eapply wp_mono; [by apply loosePut_wp|].
  intros r2 c2 b2 (Hi2 & Hq2 & Ed2 & Hr2). destruct r2 as [u|e].
  2:{ split_and!; [done..|]. destruct Hr2 as [?|[He2 Hp]]; [by left|right]. by rewrite handleReader_eof in Hp. }
  destruct Hr2 as (Hk & He2 & Hp). rewrite handleReader_eof in Hp by done.
  assert (Hback : forall b', same b2 b' -> put_post (abs b0) d (rd_data r) (abs b')) by (intros b' []; congruence).
  eapply rewind_wp; [by apply same_refl|rewrite Ed2; cbn; rewrite Et1; exact Ht| |].
  - intros c3 s3 rf3 Hs3 _. eapply wp_mono; [apply appendPackRecord_wp; [apply Hs3|done..|apply LimitReader_handle]|].
    intros r4 c4 b4 (Hi4 & Hq4 & _ & H4). split_and!; [done|intros Hq; by apply Hq4, (sm_quiet _ _ Hs3), Hq2|].
    destruct H4 as [[Hs4 Hne]|[Ha4 Hsy]].
    + destruct r4 as [[]|e]; [done|]. right. split; [done|]. by apply Hback, (same_trans _ _ _ Hs3).
    + assert (E : abs b4 = <[d := rd_data r]> (abs b0)) by (rewrite Ha4, (sm_abs _ _ Hs3); by eapply put_post_over).
      destruct r4 as [[]|e]; [split_and!; auto; by left|right; split; [done|by left]].
  - intros e c' s' Hs'. pose proof Hs' as []. split_and!; [done|auto|right; auto].
Qed.

Lemma putPost_keeps d r b res b' s' : putPost d r b res b' -> keeps (PackFs.disk b') s' -> putPost d r b res (withDisk b' s').
Proof.
  intros (Hi & Hq & H) Hk. destruct (same_disk b' s' Hi (keeps_extends _ _ Hk)) as [Hi' Hq' Ha _ _ _].
  split_and!; [done|auto|]. rewrite Ha. destruct res; [|done]. destruct H as (? & ? & ? & Hen). split_and!; try done.
  intros He. destruct (Hen He) as [? (data & m & ? & ?)]. split; [done|]. exists data, m. cbn. by rewrite (keeps_manifest _ _ Hk).
Qed.

(** A call's prologue. *)
Lemma guards_wp {A} d what (k : M PB A) (Q : res A -> ctx -> PB -> Prop) c b : inv b ->
  (forall c', (c = [] -> c' = []) -> d <> [] -> wp k Q c' b) ->
  (forall e c', (forall x, errIs e x = true -> x = Canceled \/ x = DeadlineExceeded \/ (x = ErrInvalidDigest /\ ~ key d)) ->
    (c <> [] \/ d = []) -> Q (Err e) c' b) ->
  wp (ctxErr;; lift (CheckDigest d what);; k) Q c b.
Proof.
  intros Hi Hok Herr. apply wp_bind, wp_ctxErr.
  - intros c' Hc. apply wp_bind, wp_lift. destruct (decide (d = [])) as [->|Hd].
    + cbn. apply Herr; [|by right]. intros x. cbn. intros Hx%bool_decide_eq_true. right; right. split; [done|].
      intros Hk. by apply (bs_key_nonzero _ Hk).
    + rewrite CheckDigest_ok by done. by apply Hok.
  - intros e c' Hc He. apply Herr; [|by left]. intros x Hx. destruct (is_ctx_err_not _ _ He Hx); auto.
Qed.

Lemma Put_wp d r c b : inv b -> wp (Put d r) (fun res _ b' => putPost d r b res b') c b.
Proof.
  intros Hi. unfold PackFs.Put. apply guards_wp; [done| |by intros; apply put_same, same_refl].
  intros c1 _ _. destruct (PackFs.enabled cfg) eqn:He; cbn [negb].
  2:{ eapply wp_mono; [by apply loosePut_wp, same_refl|]. intros res c' b' (Hi' & Hq & _ & H). split_and!; [done..|].
      destruct res; [|done]. destruct H as (? & ? & ?). split_and!; try done. by rewrite He. }
  apply wp_bind, (wp_sameDisk _ _ _ b); [by apply same_refl|]. eapply wp_mono; [by apply spoolObject_wp, Hi|].
  intros r1 c2 s1 [Hk1 Hr1]. split; [by apply keeps_extends|]. intros Hs1. destruct r1 as [[p n]|e]; [|by apply put_same].
  destruct Hr1 as (Hp & -> & Htl & m & Ht). apply deferred_wp. eapply wp_mono; [by eapply putBody_wp|].
  intros res c3 b3 H3. apply wp_onDisk. eapply wp_mono; [apply discard_scratch; [done|apply H3]|].
  intros r4 c4 s4 (_ & _ & Hk4). by apply putPost_keeps.
Qed.

(** ** Reads *)
(** Under the invariant no record is stale: only the disk can fail the check. *)
Lemma usableRecord_wp d c b : inv b ->
  wp (PackFs.usableRecord base outside random jsonMarshal d) (fun r c' b' => c' = c /\ same b b' /\
    match r with Ok o => o = PackFs.index b !! d | Err e => ~ quiet b /\ plain e end) c b.
Proof.
  intros Hi. unfold PackFs.usableRecord. apply wp_bind, wp_get. destruct (PackFs.index b !! d) as [rec|] eqn:Er.
  2:{ apply wp_ret. split_and!; [done|by apply same_refl|done]. }
  destruct (pi_index _ Hi d rec Er) as [_ Hv].
  apply wp_bind, wp_mapErr, (wp_sameDisk _ _ _ b); [by apply same_refl|].
  eapply wp_mono; [apply validPackRecord_wp; [apply Hi|done]|]. intros r1 c1 s1 (-> & He1 & Hr1).
  split; [by apply evolves_extends|]. intros Hs1. destruct r1 as [v|e]; cbn [wrapErr].
  - subst v. by apply wp_ret.
  - destruct Hr1 as [Hf Hpl]. split_and!; [done..|by intros [? _]|exact Hpl].
Qed.

Lemma openSection_wp rec c s : diskOk (tree s) -> validRec base (tree s) rec ->
  wp (PackFs.openSection base outside rec) (fun r c' s' => c' = c /\ evolves s (tree s) s' /\
    match r with
    | Ok rc => serves rc (section_of base (tree s) rec) /\
        (faults s = [] -> rd_tail (rc_reader rc) = Sentinel EOF /\ rc_close rc = None)
    | Err e => faults s <> [] /\ plain e
    end) c s.
Proof.
  intros Hd (_ & p & data & m & EP & Hp & Ht & _).
  pose proof (section_of_file _ _ _ _ _ _ EP Ht) as Hsec.
  unfold PackFs.openSection. rewrite EP. change (default [] (Some p)) with p.
  apply wp_bind, wp_mapErr, wp_bind. eapply wp_mono; [apply wp_syscall|]. intros r1 c1 s1 (-> & He1 & Hq1 & Hpl1).
  pose proof He1 as (Et1 & _ & Hf1). destruct r1 as [u|e]; cbn [wrapErr].
  2:{ split_and!; [done..| |exact (Hpl1 e eq_refl)]. by intros ?%Hq1. }
  apply wp_bind, wp_get. rewrite Et1. pose proof Hp as (k & -> & _). rewrite resolve_one, Ht by apply Hd. apply wp_ret. cbn [wrapErr].
  unfold sectionReader. apply wp_bind, wp_bind, wp_intro. intros r2 c2 s2 E2. apply popFault_inv in E2 as (-> & He2 & f & -> & Hf).
  apply wp_ret. apply wp_bind, wp_intro. intros r3 c3 s3 E3. apply popFault_inv in E3 as (-> & He3 & f' & -> & Hf'). apply wp_ret.
  assert (He : evolves s (tree s) s3).
  { pose proof He2 as (Et2 & _). rewrite Et1 in He2, Et2. rewrite Et2 in He3. do 2 (eapply evolves_trans; [done|]). done. }
  split_and!; [done..| |]; cbn.
  - rewrite Hsec. split_and!; [apply handleReader_reads|by destruct f|]. by destruct f'; intros e [= <-].
  - intros Hq. destruct He2 as (_ & _ & Hq2). rewrite Hf, Hf' by auto. by rewrite ?rd_tail_bytesReader.
Qed.

(** A read of [d]: it changes no object; on a quiet disk with the background
    context it is served by the pack, or else it is the loose backend's. *)
Definition readPost {A} (m : M L A) (good : res A -> Prop) (d : Digest) (c : ctx) (b : PB) (r : res A) (c' : ctx) (b' : PB) : Prop :=
  inv b' /\ (quiet b -> quiet b') /\ abs b' = abs b /\ good r /\
  (c = [] -> quiet b -> d <> [] ->
    match PackFs.index b !! d with
    | Some _ => is_ok r = true /\ c' = []
    | None => exists l', m [] (PackFs.bk_loose b) = (r, c', l')
    end).

Lemma read_wp {A} (m : M L A) good d what (serve : PackFs.packRecord -> M PB A) c b : inv b ->
  (forall e, (forall x, errIs e x = true -> x = Canceled \/ x = DeadlineExceeded \/ (x = ErrInvalidDigest /\ ~ key d)) -> good (Err e)) ->
  (forall c r c' l', PackFs.index b !! d = None -> m c (PackFs.bk_loose b) = (r, c', l') ->
    linv l' /\ (lquiet (PackFs.bk_loose b) -> lquiet l') /\ labs l' = labs (PackFs.bk_loose b) /\ good r) ->
  (forall rec c b1, PackFs.index b !! d = Some rec -> same b b1 -> section_of base (tree (PackFs.disk b1)) rec = section_of base (tree (PackFs.disk b)) rec ->
    wp (serve rec) (fun r c' b' => c' = c /\ same b b' /\ good r /\ (quiet b -> is_ok r = true)) c b1) ->
  wp (ctxErr;; lift (CheckDigest d what);;
      rec ← PackFs.usableRecord base outside random jsonMarshal d;
      match rec with
      | Some rec => serve rec
      | None => PackFs.onLoose m
      end) (readPost m good d c b) c b.
Proof.
  intros Hi Herr Hm Hserve. apply guards_wp; [done| |].
  2:{ intros e c' He Hc. split_and!; [done..|by apply Herr|]. intros -> _ Hd. by destruct Hc. }
  intros c1 Hc1 Hd0. apply wp_bind. eapply wp_mono; [by apply usableRecord_wp|]. intros r1 c2 b1 (-> & Hs1 & Hr1).
  destruct r1 as [o|e].
  2:{ pose proof Hs1 as []. destruct Hr1 as [Hq Hpl]. split_and!; try done. apply Herr. intros x. by rewrite Hpl. }
  subst o. destruct (PackFs.index b !! d) as [rec|] eqn:Er.
  - destruct (pi_index _ Hi d rec Er) as [_ Hv].
    eapply wp_mono; [by apply Hserve, (validRec_grows _ _ _ _ (sm_disk _ _ Hs1) Hv)|].
    intros r c' b' (-> & [] & Hg & Hok). split_and!; try done.
    rewrite Er. intros -> Hq _. split; [by apply Hok|by apply Hc1].
  - apply wp_onLoose, wp_intro. intros r c' l' E. pose proof (Hm c1 r c' l') as Hl. rewrite (sm_loose _ _ Hs1) in E.
    destruct (Hl eq_refl E) as (Hl1 & Hl2 & Hl3 & Hg). destruct Hs1 as [[Hd1 _ Hi1 Hm1 Hp1] Hq1 Ha1 El1 _ _].
    split_and!; [by split| | |done|].
    + intros Hq. destruct (Hq1 Hq). split; [done|]. apply Hl2. by destruct Hq.
    + rewrite <- Ha1. unfold abs, packed. cbn. by rewrite Hl3, El1.
    + rewrite Er. intros -> _ _. rewrite (Hc1 eq_refl) in E. eauto.
Qed.

Definition getGood (b : PB) (d : Digest) (r : res ReadCloser) : Prop :=
  match r with
  | Ok rc => exists data, abs b !! d = Some data /\
      serves rc data /\
      (quiet b -> rd_tail (rc_reader rc) = Sentinel EOF /\ rc_close rc = None)
  | Err e => (errIs e ErrNotFound = true -> abs b !! d = None) /\ errIs e ErrUnknownType = false
  end.
Lemma abs_packed b d rec : PackFs.index b !! d = Some rec -> abs b !! d = Some (section_of base (tree (PackFs.disk b)) rec).
Proof. intros E. apply lookup_union_Some_l. unfold packed. by rewrite lookup_fmap, E. Qed.
Lemma abs_loose b d : PackFs.index b !! d = None -> abs b !! d = labs (PackFs.bk_loose b) !! d.
Proof. intros E. apply lookup_union_r. unfold packed. by rewrite lookup_fmap, E. Qed.

Lemma abs_key b d : inv b -> is_Some (abs b !! d) -> key d.
Proof.
  intros Hi [Hd|Hd]%lookup_union_is_Some; [|eapply bs_abs_key; [apply Hi|done]].
  unfold packed in Hd. rewrite lookup_fmap, fmap_is_Some in Hd. destruct Hd as [rec Hd]. by apply (pi_index _ Hi d rec).
Qed.

Lemma Get_wp d c b : inv b -> wp (Get d) (readPost (bk_Get loose d) (getGood b d) d c b) c b.
Proof.
  intros Hi. unfold PackFs.Get. apply (read_wp (bk_Get loose d) (getGood b d) d "pack: get" (fun rec => PackFs.onDisk (PackFs.openSection base outside rec))); [done| | |].
  - intros e He. split; [intros [?|[?|[? _]]]%He; done|].
    destruct (errIs e ErrUnknownType) eqn:Eu; [|done]. by apply He in Eu as [?|[?|[? _]]].
  - intros c0 r c' l' Er H. apply bs_Get in H as (? & ? & ? & H); [|apply Hi]. split_and!; [done..|].
    unfold getGood. rewrite abs_loose by done. destruct r as [rc|e]; [|done]. destruct H as (data & ? & ? & Hq).
    exists data. split_and!; [done..|]. intros [_ ?]. by apply Hq.
  - intros rec c0 b1 Er Hs Hsec. apply (wp_sameDisk _ _ _ b); [done|].
    destruct (pi_index _ Hi d rec Er) as [_ Hv]. apply (validRec_grows _ _ _ _ (sm_disk _ _ Hs)) in Hv as [Hv _].
    eapply wp_mono; [apply openSection_wp; [apply Hs|done]|]. intros r c' s' (-> & He & Hr).
    split; [by apply evolves_extends|]. intros Hs'. split_and!; [done..| |].
    + destruct r as [rc|e]; unfold getGood; rewrite (abs_packed b d rec Er).
      * destruct Hr as [Hr Hq]. rewrite Hsec in Hr. eexists. split_and!; [done..|]. intros Hq0. by apply Hq, (sm_quiet _ _ Hs).
      * destruct Hr as [_ Hpl]. by rewrite !Hpl.
    + intros Hq0. destruct r; [done|]. destruct Hr as [Hf _]. by destruct (Hf (proj1 (sm_quiet _ _ Hs Hq0))).
Qed.

(** A Get on a quiet disk with the background context. *)
Lemma packGet_quiet d b : inv b -> quiet b -> key d -> exists r b', Get d [] b = (r, [], b') /\
  match PackFs.index b !! d with
  | Some _ => is_ok r = true
  | None => exists l', bk_Get loose d [] (PackFs.bk_loose b) = (r, [], l')
  end.
Proof.
  intros Hi Hq Hk. destruct (Get d [] b) as [[r c'] b'] eqn:E.
  apply (wp_run _ _ _ _ _ _ _ (Get_wp d [] b Hi)) in E as E'. destruct E' as (_ & _ & _ & _ & Ht).
  specialize (Ht eq_refl Hq (bs_key_nonzero _ Hk)). destruct (PackFs.index b !! d) as [rec|] eqn:Er; [destruct Ht as [? ->]; eauto|].
  assert (c' = []) as ->; [|eauto]. destruct Ht as [l' El]. destruct (labs (PackFs.bk_loose b) !! d) as [data|] eqn:Ed.
  - destruct (bs_Get_found d _ data (pi_loose _ Hi) (proj2 Hq) Ed) as (rc & l2 & E2). rewrite E2 in El. by simplify_eq.
  - destruct (bs_Get_missing d _ (pi_loose _ Hi) (proj2 Hq) Hk Ed) as (e & l2 & E2 & _). rewrite E2 in El. by simplify_eq.
Qed.

Definition existsGood (b : PB) (d : Digest) (r : res bool) : Prop :=
  match r with
  | Ok x => key d /\ x = bool_decide (is_Some (abs b !! d))
  | Err e => errIs e ErrInvalidDigest = true -> ~ key d
  end.
Lemma Exists_wp d c b : inv b -> wp (Exists_ d) (readPost (bk_Exists loose d) (existsGood b d) d c b) c b.
Proof.
  intros Hi. unfold PackFs.Exists. apply (read_wp (bk_Exists loose d) (existsGood b d) d "pack: exists" (fun rec => mret true)); [done| | |].
  - intros e He. by intros [?|[?|[_ ?]]]%He.
  - intros c0 r c' l' Er H. apply bs_Exists in H as (? & ? & ? & H); [|apply Hi]. split_and!; [done..|].
    unfold existsGood. by rewrite abs_loose.
  - intros rec c0 b1 Er Hs _. apply wp_ret. split_and!; try done. split; [by apply (pi_index _ Hi d rec)|].
    rewrite (abs_packed b d rec Er). symmetry. apply bool_decide_eq_true_2. by eexists.
Qed.

(** ** Delete *)
Lemma Delete_wp d c b : inv b ->
  wp (Delete d) (fun res c' b' => inv b' /\ (quiet b -> quiet b') /\
    match res with
    | Ok _ => key d /\ abs b' = delete d (abs b) /\ synced b'
    | Err _ => abs b' = abs b \/ abs b' = delete d (abs b)
    end /\ (c = [] -> quiet b -> key d -> res = Ok tt /\ c' = [])) c b.
Proof.
  intros Hi. unfold PackFs.Delete. apply guards_wp; [done| |].
  2:{ intros e c' He Hc. split_and!; [done|done|by left|]. intros -> _ Hk. destruct Hc as [|Hd]; [done|].
      by destruct (bs_key_nonzero _ Hk). }
  intros c1 Hc1 _. apply wp_bind, wp_onLoose, wp_intro. intros r1 c2 l1 E1.
  assert (Htot : c = [] -> quiet b -> key d -> r1 = Ok tt /\ c2 = []).
  { intros -> [_ Hq] Hk. rewrite (Hc1 eq_refl) in E1. destruct (bs_Delete_total d _ (pi_loose _ Hi) Hq Hk) as [l' E].
    rewrite E in E1. by simplify_eq. }
  apply bs_Delete in E1 as (Hl1 & Hq1 & Hr1); [|apply Hi].
  assert (Hi1 : inv (withLoose b l1)) by (destruct Hi; by split).
  assert (Hq1' : quiet b -> quiet (withLoose b l1)) by (intros []; split; auto).
  destruct r1 as [[]|e].
  2:{ split_and!; [done..| |intros; by destruct Htot]. destruct Hr1 as [E|E]; [left; unfold abs, packed; cbn; by rewrite E|].
      destruct (PackFs.index b !! d) as [rec|] eqn:Er.
      - left. unfold abs, packed. cbn. rewrite E. apply map_eq. intros k. destruct (decide (d = k)) as [<-|].
        + rewrite !(lookup_union_Some_l _ _ _ (section_of base (tree (PackFs.disk b)) rec)); [done|by rewrite lookup_fmap, Er..].
        + by rewrite !lookup_union, lookup_delete_ne.
      - right. unfold abs, packed. cbn. rewrite E, delete_union. f_equal. symmetry. apply delete_id. by rewrite lookup_fmap, Er. }
  destruct Hr1 as [Hk El]. apply wp_bind, wp_setIndex. pose proof (inv_unindex d _ Hi1) as Hi2.
  pose proof (abs_delete d b l1 El) as Ha2.
  eapply wp_mono; [apply persistIndex_wp, Hi2|]. intros r3 c3 b3 (-> & [Hi3 Hq3 Ha3 _ _ _] & Hr3 & Hok3).
  split_and!; [done|intros Hq; by apply Hq3, Hq1'| |].
  - assert (Ha : abs b3 = delete d (abs b)) by (rewrite Ha3; exact Ha2). rewrite Ha.
    destruct r3 as [[]|]; [by split_and!; auto|by right].
  - intros Ec Hq _. destruct (Htot Ec Hq Hk) as [_ ->]. split; [by apply Hok3, Hq1'|done].
Qed.

(** ** List *)
Lemma List_wp c b : inv b ->
  wp (PackFs.List loose) (fun r c' b' => inv b' /\ (quiet b -> quiet b') /\ abs b' = abs b /\
    match r with
    | Ok l => StronglySorted bytes_le l /\ NoDup l /\ (forall d, key d -> d ∈ l <-> is_Some (abs b !! d))
    | Err _ => True
    end /\ (c = [] -> quiet b -> is_ok r = true /\ c' = [])) c b.
Proof.
  intros Hi. unfold PackFs.List. apply wp_bind, wp_ctxErr; [|intros e c' Hc _; by split_and!].
  intros c1 Hc1. apply wp_bind, wp_onLoose, wp_intro. intros r1 c2 l1 E1.
  assert (Htot : c = [] -> quiet b -> is_ok r1 = true /\ c2 = []).
  { intros -> [_ Hq]. rewrite (Hc1 eq_refl) in E1. destruct (bs_List_total _ (pi_loose _ Hi) Hq) as (l & l' & E).
    rewrite E in E1. by simplify_eq. }
  apply bs_List in E1 as (Hl1 & Hq1 & Ha1 & Hr1); [|apply Hi].
  assert (Hi1 : inv (withLoose b l1)) by (destruct Hi; by split).
  assert (Hq1' : quiet b -> quiet (withLoose b l1)) by (intros []; split; auto).
  assert (Ha : abs (withLoose b l1) = abs b) by (unfold abs, packed; cbn; by rewrite Ha1).
  destruct r1 as [l|e]; [|by split_and!; auto]. apply wp_bind, wp_get, wp_ret. cbn [withLoose PackFs.index].
  destruct Hr1 as (_ & Hnd & Hmem). split_and!; [done..| | | |auto].
  - apply sortBytes_sorted.
  - apply NoDup_sortBytes, list.NoDup_app. split_and!; [done| |].
    + intros x Hx [Hn _]%list_elem_of_filter. done.
    + apply list.NoDup_filter, NoDup_fst_map_to_list.
  - intros d Hk. rewrite elem_of_sortBytes, elem_of_app, list_elem_of_filter, (Hmem d Hk). unfold PackFs.keysOf.
    rewrite list_elem_of_fmap. unfold abs. rewrite lookup_union_is_Some. unfold packed. rewrite lookup_fmap, fmap_is_Some.
    assert (Hkeys : (exists y, d = y.1 /\ y ∈ map_to_list (PackFs.index b)) <-> is_Some (PackFs.index b !! d)).
    { split.
      - intros ([d' rec] & -> & Hy%elem_of_map_to_list). by eexists.
      - intros [rec Hy]. exists (d, rec). by rewrite elem_of_map_to_list. }
    rewrite Hkeys. destruct (decide (d ∈ l)) as [Hd|Hd]; rewrite (Hmem d Hk) in Hd; tauto.
Qed.

(** ** Opening the directory again *)
Section Load.
Variable jsonUnmarshal : bytes -> res (gmap bytes PackFs.packRecord).
Hypothesis packDir_text : ValidString (PackFs.packDir base) = true.
(** What is text and fits its type reads back. *)
Definition textual (m : gmap bytes PackFs.packRecord) : Prop := forall k rec, m !! k = Some rec -> ValidString k = true /\ textRec rec.
Hypothesis json_rereads : forall m data, jsonMarshal m = Ok data -> textual m -> jsonUnmarshal data = Ok m.

Abbreviation inside := (fun kv : Digest * PackFs.packRecord => is_Some (PackFs.inPackDir base (PackFs.Pack kv.2))).

Lemma listed_textual t idx : listedOk t idx -> textual (PackFs.manifestOf idx).
Proof.
  intros Hl k rec H. apply lookup_kmap_Some in H as (d & -> & H); [|apply _]. destruct (Hl d rec H) as (_ & Ht & _). split; [|by apply Ht].
  apply ValidString_ASCII, forallb_forall. intros b Hb. rewrite DString_hex in Hb.
  pose proof (hexEncode_lower d) as Hx. rewrite forallb_forall in Hx. apply Hx in Hb. revert Hb. clear. by destruct b; vm_compute.
Qed.

Definition loadedFrom (s : FS) (c : ctx) (l : list (bytes * PackFs.packRecord)) (acc : index) (c' : ctx) (s' : FS) : Prop :=
  c' = c /\ evolves s (tree s) s' /\
  (forall d rec, acc !! d = Some rec -> (DString d, rec) ∈ l /\ inside (d, rec)) /\
  (faults s = [] -> forall d rec, (DString d, rec) ∈ l -> inside (d, rec) -> acc !! d = Some rec).

Lemma validPackRecord_foreign rec c s : PackFs.inPackDir base (PackFs.Pack rec) = None ->
  wp (PackFs.validPackRecord base outside rec) (fun r c' s' => is_ok r = false /\ c' = c /\ s' = s) c s.
Proof. intros E. unfold PackFs.validPackRecord. rewrite E. case_match; by apply wp_throw. Qed.

(** A record that is dropped for good, or for a fault of the disk. *)
Lemma loaded_dropped s0 c0 don d rec acc s : loadedFrom s0 c0 don acc c0 s -> (faults s0 = [] -> ~ inside (d, rec)) ->
  loadedFrom s0 c0 (don ++ [(DString d, rec)]) acc c0 s.
Proof.
  intros (_ & He & Hin & Hall) Hd. split_and!; [done..| |].
  - intros d' rec' H. destruct (Hin d' rec' H). split; [|done]. apply elem_of_app. by left.
  - intros Hf d' rec' [Hm|Hm%list_elem_of_singleton]%elem_of_app Hi; [by apply Hall|].
    injection Hm as E ->. apply (inj DString) in E as ->. by destruct (Hd Hf).
Qed.

Lemma loadRecord_wp idx c0 s0 don kv rest acc c s : listedOk (tree s0) idx -> diskOk (tree s0) ->
  map_to_list (PackFs.manifestOf idx) = don ++ kv :: rest -> loadedFrom s0 c0 don acc c s ->
  wp (PackFs.loadRecord base outside acc kv) (fun r c' s' => match r with Ok a => loadedFrom s0 c0 (don ++ [kv]) a c' s' | Err _ => False end) c s.
Proof.
  intros Hidx Hd El HL0. pose proof HL0 as (-> & He & Hin & Hall). destruct kv as [k rec].
  assert (Hof : forall k' rec', (k', rec') ∈ don ++ (k, rec) :: rest -> PackFs.manifestOf idx !! k' = Some rec').
  { intros k' rec' Hk. rewrite <- El in Hk. by apply elem_of_map_to_list in Hk. }
  assert (Hrec : PackFs.manifestOf idx !! k = Some rec) by (apply Hof; set_solver).
  apply lookup_kmap_Some in Hrec as (d0 & -> & Hrec); [|apply _]. destruct (Hidx d0 rec Hrec) as (Hk & _ & Hv).
  pose proof He as (Et & _ & Hq). unfold PackFs.loadRecord. cbn [fst snd].
  assert (Hp : ParseDigest (DString d0) = Ok d0).
  { rewrite DString_hex. apply ParseDigest_iff. split; [by apply bs_key_nonzero|done]. }
  rewrite Hp. apply wp_bind, wp_attempt.
  destruct (PackFs.inPackDir base (PackFs.Pack rec)) as [p|] eqn:Ein.
  2:{ eapply wp_mono; [by apply validPackRecord_foreign|]. intros [v|e] c1 s1 (? & -> & ->); [done|]. apply wp_ret.
      apply loaded_dropped; [done|]. intros _ [x Hx]. cbn [snd] in Hx. congruence. }
  assert (Hin0 : inside (d0, rec)) by (cbn [snd]; rewrite Ein; by eexists).
  eapply wp_mono; [apply validPackRecord_wp; rewrite Et; [done|by apply Hv]|].
  intros r1 c1 s1 (-> & He1 & Hr1). rewrite Et in He1. pose proof (evolves_trans _ _ _ _ _ He He1) as He'.
  destruct r1 as [v|e].
  - subst v. apply wp_ret. split_and!; [done..| |].
    + intros d rec' [[<- <-]|[_ H]]%lookup_insert_Some; [split; [set_solver|done]|]. destruct (Hin d rec' H). split; [|done]. apply elem_of_app. by left.
    + intros Hf d rec' Hm Hi. apply elem_of_app in Hm. destruct (decide (d0 = d)) as [<-|Hne].
      * rewrite lookup_insert_eq. destruct Hm as [Hm|Hm]; [|set_solver].
        assert (E : PackFs.manifestOf idx !! DString d0 = Some rec') by (apply Hof; set_solver).
        unfold PackFs.manifestOf in E. rewrite (lookup_kmap DString) in E. congruence.
      * rewrite lookup_insert_ne by done. destruct Hm as [Hm|Hm]; [by apply Hall|].
        apply list_elem_of_singleton in Hm. injection Hm as Hm _. by apply (inj DString) in Hm.
  - apply wp_ret. apply loaded_dropped; [by split_and!|]. intros Hf. destruct Hr1 as [Hf' _]. by destruct (Hf' (Hq Hf)).
Qed.

(** What [New] loads: records of the last manifest, and when the disk is quiet
    all of them whose string leads into the pack directory. *)
Definition loadPost (b : PB) (r : res unit) (b' : PB) : Prop :=
  inv b' /\ (quiet b -> quiet b') /\ PackFs.bk_loose b' = PackFs.bk_loose b /\ PackFs.packFile b' = PackFs.packFile b /\
  evolves (PackFs.disk b) (tree (PackFs.disk b)) (PackFs.disk b') /\
  (quiet b -> r = Ok tt /\ forall idx, manifestIs jsonMarshal idx (tree (PackFs.disk b)) -> textual (PackFs.manifestOf idx) ->
    PackFs.index b' = filter inside idx).

(** The records loaded of a manifest. *)
Lemma loaded_index s c idx acc c' s' : loadedFrom s c (map_to_list (PackFs.manifestOf idx)) acc c' s' ->
  (forall d rec, acc !! d = Some rec -> idx !! d = Some rec /\ inside (d, rec)) /\ (faults s = [] -> acc = filter inside idx).
Proof.
  intros (_ & _ & Hin & Hall).
  assert (Hof : forall d rec, (DString d, rec) ∈ map_to_list (PackFs.manifestOf idx) <-> idx !! d = Some rec).
  { intros d rec. rewrite elem_of_map_to_list. unfold PackFs.manifestOf. by rewrite (lookup_kmap DString). }
  assert (Hacc : forall d rec, acc !! d = Some rec -> idx !! d = Some rec /\ inside (d, rec)) by (intros d rec [?%Hof ?]%Hin; done).
  split; [done|]. intros Hf. apply map_eq. intros d. apply option_eq. intros rec. rewrite map_lookup_filter_Some. split; [by intros ?%Hacc|].
  intros [H Hi]. by apply Hall; [|apply Hof|].
Qed.

Lemma loadIndex_wp c b : inv b -> wp (PackFs.loadIndex base outside jsonUnmarshal) (fun r c' b' => c' = c /\ loadPost b r b') c b.
Proof.
  intros Hi. pose proof (pi_disk _ Hi) as Hd. unfold PackFs.loadIndex.
  apply wp_bind, wp_attempt, wp_onDisk, wp_intro. intros r1 c1 s1 E. apply os_ReadFile_inv in E as (-> & He & Hr).
  pose proof (same_disk b s1 Hi (evolves_extends _ _ He)) as [Hi1 Hq1 _ _ _ _].
  unfold PackFs.manifestPath in Hr. rewrite resolve_one in Hr by apply Hd. fold PackFs.manifestPath in Hr.
  pose proof (dk_manifest _ Hd) as Hmf. destruct r1 as [data|e].
  - destruct Hr as [m Hr].
    assert (Ht : tree (PackFs.disk b) !! PackFs.manifestPath = Some (File data m)).
    { destruct (tree (PackFs.disk b) !! PackFs.manifestPath) as [[]|]; simplify_eq; done. }
    assert (Hread : forall idx, manifestIs jsonMarshal idx (tree (PackFs.disk b)) -> textual (PackFs.manifestOf idx) ->
      jsonUnmarshal data = Ok (PackFs.manifestOf idx)).
    { intros idx (data' & m' & E1 & E2) Htx. rewrite Ht in E2. simplify_eq. by eapply json_rereads. }
    destruct (pi_manifest _ Hi) as [?|(idx & Hman & Hidx)]; [congruence|]. pose proof (Hread idx Hman (listed_textual _ _ Hidx)) as Ej.
    rewrite Ej. apply wp_bind, wp_lift. cbn [wrapErr]. apply wp_bind, wp_onDisk. pose proof He as (Et & _ & Hq).
    eapply wp_mono.
    { apply (wp_foldM (loadedFrom s1 c) (fun _ _ _ => False)).
      - intros don x rest acc c2 s2 El HP. eapply loadRecord_wp; [|apply Hi1|exact El|exact HP]. by rewrite Et.
      - split_and!; [done|apply evolves_refl|by intros ? ? ?%lookup_empty_Some|by intros ? ? ? ?%not_elem_of_nil]. }
    intros r3 c3 s3 H3. destruct r3 as [acc|]; [|done]. pose proof H3 as (-> & He3 & _). apply loaded_index in H3 as [Hacc Hall].
    assert (He13 : evolves (PackFs.disk b) (tree (PackFs.disk b)) s3) by (rewrite Et in He3; by eapply evolves_trans).
    apply wp_setIndex. split; [done|].
    destruct (same_disk b s3 Hi (evolves_extends _ _ He13)) as [[Hd3 Hl3 Hi3 Hm3 Hp3] Hq3 _ _ _ _].
    split_and!; [|done..|].
    + split; try done. cbn. intros d rec [H Hin]%Hacc. destruct (Hidx d rec H) as (? & _ & Hv). split; [done|]. destruct He13 as (-> & _). by apply Hv.
    + intros Hqb. split; [done|]. intros idx' Hman' Htx'. rewrite (Hread _ Hman' Htx') in Ej. injection Ej as Ej. apply (inj (kmap DString)) in Ej as ->.
      cbn. by apply Hall, Hq, Hqb.
  - assert (Hother : forall r, (quiet b -> r = Ok tt /\ tree (PackFs.disk b) !! PackFs.manifestPath = None) -> loadPost b r (withDisk b s1)).
    { intros r Hq. split_and!; try done. intros Hqb. destruct (Hq Hqb) as [-> HN]. split; [done|].
      intros idx (data & m & _ & E). congruence. }
    destruct (tree (PackFs.disk b) !! PackFs.manifestPath) as [[data m| | |]|] eqn:Em; try done.
    + assert (Hf : faults (PackFs.disk b) <> [] /\ errIs e ErrNotExist = false).
      { destruct Hr as [[Hf Hpl]|[[_ ?]|[[_ [?|?]]|[_ (x & [= <-] & Hx)]]]]; try done. by destruct (Hx data m). }
      destruct Hf as [Hf ->]. apply wp_throw. split; [done|]. apply Hother. by intros [? _].
    + destruct (errIs e ErrNotExist) eqn:Ee.
      * apply wp_ret. split; [done|]. by apply Hother.
      * apply wp_throw. split; [done|]. apply Hother. intros [Hf _].
        destruct Hr as [[? _]|[[_ ?]|[[-> _]|[_ (x & ? & _)]]]]; done.
Qed.

Lemma Open_spec l s : diskOk (tree s) -> linv l -> manifestOk (tree s) ->
  let '(r, b) := PackFs.Open base outside jsonUnmarshal l s in
  inv b /\ PackFs.bk_loose b = l /\
  (faults s = [] -> lquiet l -> r = Ok tt /\ quiet b /\
    forall idx, manifestIs jsonMarshal idx (tree s) -> textual (PackFs.manifestOf idx) ->
      PackFs.index b = filter inside idx /\ abs b = (section_of base (tree s) <$> filter inside idx) ∪ labs l).
Proof.
  intros Hd Hl Hm. unfold PackFs.Open. set (b0 := PackFs.mkBackend l s None [] 0 0 ∅).
  assert (Hi0 : inv b0) by by split.
  enough (H : wp (PackFs.loadIndex base outside jsonUnmarshal;; PackFs.ensurePackFile base outside) (fun r c b =>
    inv b /\ PackFs.bk_loose b = l /\
    (faults s = [] -> lquiet l -> r = Ok tt /\ quiet b /\ forall idx, manifestIs jsonMarshal idx (tree s) -> textual (PackFs.manifestOf idx) ->
      PackFs.index b = filter inside idx /\ abs b = (section_of base (tree s) <$> filter inside idx) ∪ labs l)) [] b0).
  { unfold wp in H. by destruct ((PackFs.loadIndex base outside jsonUnmarshal;; PackFs.ensurePackFile base outside) [] b0) as [[r c] b]. }
  apply wp_bind. eapply wp_mono; [by apply loadIndex_wp|]. intros r1 c1 b1 (-> & Hi1 & Hq1 & El1 & _ & He1 & Hok1).
  destruct r1 as [[]|e]; [|split_and!; [done..|]; intros Hf Hlq; by destruct (Hok1 (conj Hf Hlq))].
  eapply wp_mono; [by apply ensurePackFile_wp|]. intros r2 c2 b2 (-> & Hs2 & _ & Hok2).
  pose proof Hs2 as [Hi2 Hq2 Ha2 El2 Ei2 _]. split_and!; [done|by rewrite El2, El1|]. intros Hf Hlq.
  assert (Hq : quiet b0) by by split. destruct (Hok1 Hq) as [_ Hidx]. split_and!; [by apply Hok2, Hq1|by apply Hq2, Hq1|].
  intros idx Hman Htx. specialize (Hidx idx Hman Htx). split; [congruence|].
  rewrite Ha2. unfold abs, packed. rewrite Hidx, El1. destruct He1 as (-> & _). done.
Qed.
End Load.

(** What a packed Put or a Delete that succeeded left. *)
Lemma written_synced c c' b b' m : inv b -> (exists d, m = Delete d \/ exists r, m = Put d r /\ PackFs.enabled cfg = true) ->
  m c b = (Ok tt, c', b') -> inv b' /\ synced b'.
Proof.
  intros Hi Hm H. destruct Hm as (d & [-> |(r & -> & He)]).
  - by apply (wp_run _ _ _ _ _ _ _ (Delete_wp d c b Hi)) in H as (? & _ & (_ & _ & ?) & _).
  - apply (wp_run _ _ _ _ _ _ _ (Put_wp d r c b Hi)) in H as (? & _ & _ & _ & _ & Hen). by destruct (Hen He).
Qed.

(** C4. Over any loose backend that meets the Backend interface the pack
    backend meets it too, with an object standing for what its pack record
    points at and, without a record, for the loose copy: every outcome of every
    call, whatever fails and whenever the context is cancelled, keeps the
    invariant (each index record lies within a pack file, the manifest on disk
    only names such records), a successful Put or Delete did exactly what the
    interface says, a failed one left the objects alone or had done its work,
    and the reads never give bytes that were not put. *)
Theorem packfs_refines (looseStat : Digest -> M L (Z * Z)) (looseClean : Z -> M L (Z * option error)) :
  BackendSpec (PackFs.Backend_ loose looseStat looseClean base outside random jsonMarshal cfg) inv quiet key abs.
Proof.
  split.
  - apply bs_key_nonzero.
  - intros b d. apply abs_key.
  - intros d r c b res c' b' Hi H. apply (wp_run _ _ _ _ _ _ _ (Put_wp d r c b Hi)) in H as (? & ? & H). split_and!; [done..|].
    destruct res; [|done]. by destruct H as (? & ? & ? & _).
  - intros d c b res c' b' Hi H. apply (wp_run _ _ _ _ _ _ _ (Get_wp d c b Hi)) in H as (? & ? & ? & ? & _). by split_and!.
  - intros d b data Hi Hq Hd. assert (Hk : key d) by (eapply abs_key; eauto).
    destruct (packGet_quiet d b Hi Hq Hk) as (r & b' & E & Hr). destruct (PackFs.index b !! d) as [rec|] eqn:Er.
    + destruct r; [eauto|done].
    + rewrite abs_loose in Hd by done. destruct (bs_Get_found d _ data (pi_loose _ Hi) (proj2 Hq) Hd) as (rc & l' & El).
      destruct Hr as [l2 El2]. rewrite El in El2. simplify_eq. eauto.
  - intros d b Hi Hq Hk Hd. destruct (packGet_quiet d b Hi Hq Hk) as (r & b' & E & Hr). destruct (PackFs.index b !! d) as [rec|] eqn:Er.
    + by rewrite (abs_packed b d rec Er) in Hd.
    + rewrite abs_loose in Hd by done. destruct (bs_Get_missing d _ (pi_loose _ Hi) (proj2 Hq) Hk Hd) as (e & l' & El & He).
      destruct Hr as [l2 El2]. rewrite El in El2. simplify_eq. eauto.
  - intros d c b res c' b' Hi H. apply (wp_run _ _ _ _ _ _ _ (Exists_wp d c b Hi)) in H as (? & ? & ? & ? & _). by split_and!.
  - intros d b Hi Hq Hk. destruct (Exists_ d [] b) as [[r c'] b'] eqn:E.
    apply (wp_run _ _ _ _ _ _ _ (Exists_wp d [] b Hi)) in E as E'. destruct E' as (_ & _ & _ & _ & Ht).
    specialize (Ht eq_refl Hq (bs_key_nonzero _ Hk)). destruct (PackFs.index b !! d).
    + destruct Ht as [Hr ->]. destruct r; [eauto|done].
    + destruct (bs_Exists_total d _ (pi_loose _ Hi) (proj2 Hq) Hk) as (x & l' & El). destruct Ht as [l2 El2].
      rewrite El in El2. simplify_eq. eauto.
  - intros d c b res c' b' Hi H. apply (wp_run _ _ _ _ _ _ _ (Delete_wp d c b Hi)) in H as (? & ? & H & _). split_and!; [done..|].
    destruct res; [|done]. by destruct H as (? & ? & _).
  - intros d b Hi Hq Hk. destruct (Delete d [] b) as [[r c'] b'] eqn:E.
    apply (wp_run _ _ _ _ _ _ _ (Delete_wp d [] b Hi)) in E as E'. destruct E' as (_ & _ & _ & Ht).
    destruct (Ht eq_refl Hq Hk) as [-> ->]. eauto.
  - intros c b res c' b' Hi H. apply (wp_run _ _ _ _ _ _ _ (List_wp c b Hi)) in H as (? & ? & ? & ? & _). by split_and!.
  - intros b Hi Hq. destruct (PackFs.List loose [] b) as [[r c'] b'] eqn:E.
    apply (wp_run _ _ _ _ _ _ _ (List_wp [] b Hi)) in E as E'. destruct E' as (_ & _ & _ & _ & Ht).
    destruct (Ht eq_refl Hq) as [Hr ->]. destruct r; [eauto|done].
Qed.
End PackContract.

(** ** Reopening under a base path *)
Section Reopen.
Context {L : Type} (loose : Backend L) (linv lquiet : L -> Prop) (key : Digest -> Prop) (labs : L -> gmap Digest bytes).
Context `{HL : !BackendSpec loose linv lquiet key labs}.
Variables base base2 : bytes.
Variable outside : path -> option entry.
Variable random : gmap path entry -> bytes.
Hypothesis random_fresh : forall (t : gmap path entry) (pre suf : bytes), t !! ([pre ++ random t ++ suf] : path) = None.
Variable jsonMarshal : gmap bytes PackFs.packRecord -> res bytes.
Variable jsonUnmarshal : bytes -> res (gmap bytes PackFs.packRecord).
(** What [encoding/json] documents: strings and integers can be encoded, and what
    is UTF-8 and fits its type reads back. *)
Hypothesis json_marshals : forall m, is_ok (jsonMarshal m) = true.
Hypothesis json_rereads : forall m data, jsonMarshal m = Ok data -> textual m -> jsonUnmarshal data = Ok m.
Variable cfg : PackFs.config.
Hypothesis dir_text : ValidString (PackFs.packDir base) = true.
Hypothesis dir2_text : ValidString (PackFs.packDir base2) = true.

Abbreviation PB := (PackFs.Backend (L := L)).
Abbreviation Put := (PackFs.Put loose base outside random jsonMarshal cfg).
Abbreviation Delete := (PackFs.Delete loose outside random jsonMarshal).
Abbreviation inv := (PackContract.inv linv key).
Abbreviation quiet := (PackContract.quiet lquiet).
Abbreviation abs := (PackContract.abs labs).

(** The records are where they were, or all elsewhere. *)
Lemma listedOk_reopened t idx : diskOk t -> idxOk key base t idx ->
  PackFs.packDir base2 = PackFs.packDir base \/ (forall d rec, idx !! d = Some rec -> PackFs.inPackDir base2 (PackFs.Pack rec) = None) ->
  listedOk key base2 t idx.
Proof.
  intros Hd Hi H d rec Hr. destruct (Hi d rec Hr) as [Hk Hv]. split_and!; [done|intros _; by eapply validRec_text|]. intros [p Hp].
  destruct H as [E|E]; [|by rewrite (E d rec Hr) in Hp]. unfold validRec, PackFs.inPackDir in *. by rewrite E.
Qed.

(** C5. Durability: once a packed Put or a Delete has succeeded (under any
    context, through any failures it survived), the backend may be dropped at
    that point and opened again from the files alone.  The pack directory's
    string is UTF-8, before and after, as the manifest is JSON.  Under a base path that
    joins to the same pack directory's string, every reopening keeps the
    invariant and the loose objects, and one on a quiet disk succeeds and stands
    for exactly the objects the write left, with the same index.  Under a base
    path from which no record's stored string leads into the pack directory
    (the same directory spelled absolutely, say), a quiet reopening succeeds too but
    has lost every record: it stands for the loose copies alone. *)
Theorem packfs_reopen (c c' : ctx) (b b' : PB) (m : M PB unit) :
  inv base jsonMarshal b ->
  (exists d, m = Delete d \/ exists r, m = Put d r /\ PackFs.enabled cfg = true) ->
  m c b = (Ok tt, c', b') ->
  let '(r, b2) := PackFs.Open base2 outside jsonUnmarshal (PackFs.bk_loose b') (PackFs.disk b') in
  (PackFs.packDir base2 = PackFs.packDir base ->
    inv base2 jsonMarshal b2 /\ PackFs.bk_loose b2 = PackFs.bk_loose b' /\
    (quiet b' -> r = Ok tt /\ PackFs.index b2 = PackFs.index b' /\ abs base2 b2 = abs base b')) /\
  ((forall d rec, PackFs.index b' !! d = Some rec -> PackFs.inPackDir base2 (PackFs.Pack rec) = None) ->
    inv base2 jsonMarshal b2 /\ PackFs.bk_loose b2 = PackFs.bk_loose b' /\
    (quiet b' -> r = Ok tt /\ PackFs.index b2 = ∅ /\ abs base2 b2 = labs (PackFs.bk_loose b'))).
Proof.
  intros Hi Hm H.
  destruct (written_synced loose linv lquiet key labs base outside random random_fresh jsonMarshal json_marshals cfg c c' b b' m Hi Hm H) as [Hi' Hs].
  pose proof (Open_spec loose linv lquiet key labs base2 outside random random_fresh jsonMarshal json_marshals jsonUnmarshal dir2_text json_rereads
    (PackFs.bk_loose b') (PackFs.disk b')) as HO.
  destruct (PackFs.Open base2 outside jsonUnmarshal (PackFs.bk_loose b') (PackFs.disk b')) as [r b2].
  set (inside := fun kv : Digest * PackFs.packRecord => is_Some (PackFs.inPackDir base2 (PackFs.Pack kv.2))) in *.
  pose proof (idxOk_listed _ _ _ _ (pi_disk _ _ _ _ _ Hi') (pi_index _ _ _ _ _ Hi')) as Hl.
  assert (HL' : PackFs.packDir base2 = PackFs.packDir base \/ (forall d rec, PackFs.index b' !! d = Some rec -> PackFs.inPackDir base2 (PackFs.Pack rec) = None) ->
    inv base2 jsonMarshal b2 /\ PackFs.bk_loose b2 = PackFs.bk_loose b' /\
    (quiet b' -> r = Ok tt /\ PackFs.index b2 = filter inside (PackFs.index b') /\
      abs base2 b2 = (section_of base2 (tree (PackFs.disk b')) <$> filter inside (PackFs.index b')) ∪ labs (PackFs.bk_loose b'))).
  { intros Hc. destruct HO as (Hi2 & El & Hok); [apply Hi'..| |].
    - right. exists (PackFs.index b'). split; [done|]. apply listedOk_reopened; [apply Hi'|apply Hi'|exact Hc].
    - split_and!; [done..|]. intros [Hf Hq]. destruct (Hok Hf Hq) as (-> & _ & Hidx). split; [done|]. apply (Hidx _ Hs). by eapply (listed_textual _ base dir_text). }
  split; intros Hc; (destruct HL' as (? & ? & Hq); [by auto|]); (split_and!; [done..|]); intros (-> & -> & ->)%Hq; (split; [done|]).
  - assert (Ef : filter inside (PackFs.index b') = PackFs.index b').
    { apply map_filter_id. intros d rec Hr. destruct (pi_index _ _ _ _ _ Hi' d rec Hr) as (_ & _ & p & data & mt & Ep & _).
      unfold inside, PackFs.inPackDir in *. cbn [snd]. rewrite Hc, Ep. by eexists. }
    rewrite Ef. split; [done|]. unfold PackContract.abs, packed, section_of, PackFs.inPackDir. by rewrite Hc.
  - assert (Ef : filter inside (PackFs.index b') = ∅).
    { apply map_empty. intros d. apply eq_None_not_Some. intros [rec [Hr [p Hp]]%map_lookup_filter_Some]. cbn [snd] in Hp. by rewrite (Hc d rec Hr) in Hp. }
    rewrite Ef. split; [done|]. by rewrite fmap_empty, (left_id_L ∅ (∪)).
Qed.
End Reopen.
