(* ===== verification/PackBatch.v ===== *)
(** The pack backend's batched read and its cleaning: GetMany serves each
    requested digest once, from one open per pack file, and Clean keeps every
    object. *)

From S2P Require Import Prelude Digest Binary Stream Backend Store FileSystem AtomicFile Wp OsFile FsBackend FsContract FsMaintenance RefText FilePath PackFs PackDisk PackContract.

Section PackBatch.
Context {L : Type} (loose : Backend L) (linv lquiet : L -> Prop) (key : Digest -> Prop) (labs : L -> gmap Digest bytes).
Context `{HL : !BackendSpec loose linv lquiet key labs}.
Variable base : bytes.
Variable outside : path -> option entry.
Variable random : gmap path entry -> bytes.
Hypothesis random_fresh : forall (t : gmap path entry) (pre suf : bytes), t !! ([pre ++ random t ++ suf] : path) = None.
Variable jsonMarshal : gmap bytes PackFs.packRecord -> res bytes.
Hypothesis json_marshals : forall m, is_ok (jsonMarshal m) = true.

Abbreviation PB := (PackFs.Backend (L := L)).
Abbreviation inv := (PackContract.inv linv key base jsonMarshal).
Abbreviation quiet := (PackContract.quiet lquiet).
Abbreviation abs := (PackContract.abs labs base).
Abbreviation same := (PackContract.same linv lquiet key labs base jsonMarshal).

(** ** The plan *)
Definition requests (groups : list PackFs.packGroup) : list Digest :=
  PackFs.rq_digest <$> concat (PackFs.gr_records <$> groups).
(** The request locates its digest's record in the group's file. *)
Definition located (idx : gmap Digest PackFs.packRecord) (p : bytes) (q : PackFs.packRequest) : Prop :=
  exists rec, idx !! PackFs.rq_digest q = Some rec /\ PackFs.Pack rec = p /\
    PackFs.rq_offset q = PackFs.Offset rec /\ PackFs.rq_size q = PackFs.Size rec.
Definition planned (idx : gmap Digest PackFs.packRecord) (groups : list PackFs.packGroup) (rest : list Digest) (digests : list Digest) : Prop :=
  NoDup (PackFs.gr_path <$> groups) /\ Permutation (requests groups ++ rest) digests /\
  (forall g, g ∈ groups -> Forall (located idx (PackFs.gr_path g)) (PackFs.gr_records g)) /\
  (forall d, d ∈ rest -> idx !! d = None).

Lemma addRequest_path groups p q p' :
  p' ∈ PackFs.gr_path <$> PackFs.addRequest groups p q <-> p' = p \/ p' ∈ PackFs.gr_path <$> groups.
Proof.
  induction groups as [|g groups IH]; cbn [PackFs.addRequest]; [set_solver|].
  case_decide as E; rewrite !fmap_cons, !elem_of_cons; cbn; [subst; tauto|rewrite IH; tauto].
Qed.
Lemma addRequest_NoDup groups p q : NoDup (PackFs.gr_path <$> groups) -> NoDup (PackFs.gr_path <$> PackFs.addRequest groups p q).
Proof.
  induction groups as [|g groups IH]; cbn [PackFs.addRequest]; [intros _; apply NoDup_singleton|].
  case_decide as E; rewrite !fmap_cons, !list.NoDup_cons; cbn; [by subst|].
  intros [Hn Hd]. split; [|by apply IH]. rewrite addRequest_path. by intros [?|?].
Qed.
Lemma addRequest_requests groups p q : Permutation (requests (PackFs.addRequest groups p q)) (requests groups ++ [PackFs.rq_digest q]).
Proof.
  unfold requests. induction groups as [|g groups IH]; cbn [PackFs.addRequest]; [done|].
  case_decide as E; rewrite !fmap_cons; cbn [concat PackFs.gr_records]; rewrite !fmap_app; [|by rewrite IH, app_assoc].
  cbn. rewrite <- !app_assoc. apply Permutation_app_head. by rewrite Permutation_app_comm.
Qed.
Lemma addRequest_located idx groups p q : located idx p q ->
  (forall g, g ∈ groups -> Forall (located idx (PackFs.gr_path g)) (PackFs.gr_records g)) ->
  forall g, g ∈ PackFs.addRequest groups p q -> Forall (located idx (PackFs.gr_path g)) (PackFs.gr_records g).
Proof.
  intros Hq. induction groups as [|x groups IH]; intros Hg g; cbn [PackFs.addRequest].
  - intros ->%list_elem_of_singleton. cbn. by constructor.
  - case_decide as E; intros [->|Hin]%elem_of_cons.
    + cbn. apply Forall_app. split; [rewrite <- E; apply Hg; by left|by constructor].
    + apply Hg. by right.
    + apply Hg. by left.
    + apply IH; [|done]. intros g' Hg'. apply Hg. by right.
Qed.

Lemma planOne_wp digests don d rest0 acc c0 c b0 b : inv b0 -> digests = don ++ d :: rest0 ->
  (c = c0 /\ same b0 b /\ acc.2 = false /\ planned (PackFs.index b0) acc.1.1 acc.1.2 don) ->
  wp (PackFs.planOne base outside acc d) (fun r c' b' => match r with
    | Ok a => c' = c0 /\ same b0 b' /\ a.2 = false /\ planned (PackFs.index b0) a.1.1 a.1.2 (don ++ [d])
    | Err _ => same b0 b'
    end) c b.
Proof.
  intros Hi0 El (-> & Hs & Hst & Hnd & Hp & Hloc & Hrest). destruct acc as [[groups rest] stale]. cbn in *. subst stale.
  apply wp_bind, wp_lift. unfold CheckDigest. destruct (IsZero d); [done|]. apply wp_bind, wp_get. rewrite (sm_index _ _ _ _ _ _ _ _ Hs).
  destruct (PackFs.index b0 !! d) as [rec|] eqn:Er.
  2:{ apply wp_ret. unfold planned. cbn. split_and!; try done; [by rewrite app_assoc, Hp|].
      intros d' [Hd' | ->%list_elem_of_singleton]%elem_of_app; [by apply Hrest|done]. }
  destruct (pi_index _ _ _ _ _ Hi0 d rec Er) as [_ Hv]. apply (validRec_grows _ _ _ _ (sm_disk _ _ _ _ _ _ _ _ Hs)) in Hv as [Hv _].
  apply wp_bind, wp_mapErr. eapply wp_sameDisk; [done|].
  eapply wp_mono; [eapply validPackRecord_wp; [apply (sm_inv _ _ _ _ _ _ _ _ Hs)|done]|]. intros r1 c1 s1 (-> & He1 & Hr1).
  split; [by apply evolves_extends|]. intros Hs1. destruct r1 as [v|e]; cbn [wrapErr]; [|done]. subst v.
  apply wp_ret. unfold planned. cbn [fst snd]. split_and!; try done.
  - by apply addRequest_NoDup.
  - rewrite addRequest_requests, <- app_assoc, (Permutation_app_comm [_]), app_assoc. by rewrite Hp.
  - apply addRequest_located; [|done]. by exists rec.
Qed.
Lemma planGetMany_wp digests c b : inv b ->
  wp (PackFs.planGetMany base outside random jsonMarshal digests) (fun r c' b' => same b b' /\ match r with
    | Ok (groups, rest) => c' = c /\ planned (PackFs.index b) groups rest digests
    | Err _ => True
    end) c b.
Proof.
  intros Hi. unfold PackFs.planGetMany. apply wp_bind.
  eapply wp_mono.
  { apply (wp_foldM (fun don acc c' b' => c' = c /\ same b b' /\ acc.2 = false /\ planned (PackFs.index b) acc.1.1 acc.1.2 don)
      (fun _ _ b' => same b b')).
    - intros don x rest acc c0 b0 El HP. by eapply planOne_wp.
    - split; [done|]. split; [by apply same_refl|]. split; [done|]. unfold planned. cbn. split_and!; [constructor|done|by intros ? ?%not_elem_of_nil..]. }
  intros [[[groups rest] stale]|e] c1 b1 H1; [|by split]. destruct H1 as (-> & Hs1 & Hst & Hpl). cbn in Hst. subst stale.
  apply wp_bind, wp_ret, wp_ret. by split_and!.
Qed.

(** ** Serving *)
Section GetMany.
Context {T : Type}.
Variable fn : Digest -> Reader -> M T unit.
(** A callback that keeps a log of its calls. *)
Variable log : T -> list (Digest * Reader).
Hypothesis fn_logs : forall d r c t res c' t', fn d r c t = (res, c', t') -> log t' = log t ++ [(d, r)].

(** A reader that gives the object's bytes, unless a read fails. *)
Definition good (b : PB) (x : Digest * Reader) : Prop := exists data, abs b !! x.1 = Some data /\
  reads x.2 data /\ (quiet b -> rd_tail x.2 = Sentinel EOF).
(** From [t0] on the callback was given good readers of the digests [ds]. *)
Definition served (b0 : PB) (t0 : T) (ds : list Digest) (t : T) : Prop :=
  exists l, log t = log t0 ++ l /\ Forall (good b0) l /\ l.*1 = ds.

Lemma served_nil b0 t : served b0 t [] t.
Proof. exists []. by rewrite app_nil_r. Qed.
Lemma served_snoc b0 t0 ds t d r t' : served b0 t0 ds t -> log t' = log t ++ [(d, r)] -> good b0 (d, r) -> served b0 t0 (ds ++ [d]) t'.
Proof.
  intros (l & El & Hl & <-) E Hg. exists (l ++ [(d, r)]). rewrite E, El, app_assoc, fmap_app. split_and!; [done| |done].
  apply Forall_app. split; [done|by constructor].
Qed.
Lemma served_trans b0 t0 ds t ds' t' : served b0 t0 ds t -> served b0 t ds' t' -> served b0 t0 (ds ++ ds') t'.
Proof.
  intros (l & El & Hl & <-) (l' & El' & Hl' & <-). exists (l ++ l'). rewrite El', El, app_assoc, fmap_app. split_and!; [done| |done].
  by apply Forall_app.
Qed.

Lemma fn_wp b0 t0 ds d r c (st : PB * T) : served b0 t0 ds st.2 -> good b0 (d, r) ->
  wp (onSnd (fn d r)) (fun _ c' st' => st'.1 = st.1 /\ served b0 t0 (ds ++ [d]) st'.2) c st.
Proof.
  intros Hs Hg. apply wp_onSnd, wp_intro. intros res c' t' H. split; [done|]. eapply served_snoc; [done| |done]. by eapply fn_logs.
Qed.

(** One pack file, opened once. *)
Lemma serveRequest_wp b0 t0 ds data m q c (st : PB * T) : inv b0 -> same b0 st.1 -> served b0 t0 ds st.2 ->
  (forall rec, PackFs.index b0 !! PackFs.rq_digest q = Some rec -> section (PackFs.rq_offset q) (PackFs.rq_size q) data = section_of base (tree (PackFs.disk b0)) rec) ->
  is_Some (PackFs.index b0 !! PackFs.rq_digest q) ->
  wp (PackFs.serveRequest fn (File data m) q) (fun r c' st' => same b0 st'.1 /\ match r with
    | Ok _ => served b0 t0 (ds ++ [PackFs.rq_digest q]) st'.2
    | Err _ => served b0 t0 ds st'.2 \/ served b0 t0 (ds ++ [PackFs.rq_digest q]) st'.2
    end) c st.
Proof.
  intros Hi0 Hs Hsv Hsec [rec Er]. unfold PackFs.serveRequest. apply wp_bind, wp_ctxErr; [|by auto]. intros c1 _.
  apply wp_bind, wp_onFst. eapply wp_sameDisk; [done|]. unfold sectionReader. apply wp_bind, wp_intro.
  intros r2 c2 s2 E2. apply popFault_inv in E2 as (-> & He2 & f & -> & Hf). apply wp_ret.
  split; [by apply evolves_extends|]. intros Hs2.
  assert (Hg : good b0 (PackFs.rq_digest q, handleReader (section (PackFs.rq_offset q) (PackFs.rq_size q) data) f)).
  { exists (section_of base (tree (PackFs.disk b0)) rec). split; [by apply abs_packed|]. rewrite <- (Hsec rec Er). cbn. split.
    - apply handleReader_reads.
    - intros Hq. rewrite Hf by apply (sm_quiet _ _ _ _ _ _ _ _ Hs Hq). apply rd_tail_bytesReader. }
  eapply wp_mono; [by apply (fn_wp b0 t0 ds)|]. intros r3 c3 st3 (-> & H3). split; [done|]. destruct r3; [done|by right].
Qed.

(** A batch that stopped early served a prefix of the plan. *)
Definition servedTo (b0 : PB) (t0 : T) (full : list Digest) (t : T) : Prop := exists ds, prefix ds full /\ served b0 t0 ds t.
Lemma servedTo_app b0 t0 full k t : servedTo b0 t0 full t -> servedTo b0 t0 (full ++ k) t.
Proof. intros (ds & Hp & Hs). exists ds. split; [by apply prefix_app_r|done]. Qed.
Lemma served_to b0 t0 ds t : served b0 t0 ds t -> servedTo b0 t0 ds t.
Proof. by exists ds. Qed.
Lemma served_to_app b0 t0 ds k t : served b0 t0 ds t -> servedTo b0 t0 (ds ++ k) t.
Proof. intros. by apply servedTo_app, served_to. Qed.

Lemma section_located b0 b1 p q f : inv b0 -> same b0 b1 -> located (PackFs.index b0) p q ->
  resolve outside (tree (PackFs.disk b1)) true (default [] (PackFs.inPackDir base p)) = Found f ->
  exists data m, f = File data m /\ is_Some (PackFs.index b0 !! PackFs.rq_digest q) /\
    (forall rec, PackFs.index b0 !! PackFs.rq_digest q = Some rec ->
      section (PackFs.rq_offset q) (PackFs.rq_size q) data = section_of base (tree (PackFs.disk b0)) rec).
Proof.
  intros Hi0 Hs (rec & Er & Ep & Eo & Ez) Hf. destruct (pi_index _ _ _ _ _ Hi0 _ rec Er) as [_ Hv].
  apply (validRec_grows _ _ _ _ (sm_disk _ _ _ _ _ _ _ _ Hs)) in Hv as [Hv Hsec].
  destruct Hv as (_ & p' & data & m & EP & Hp & Ht & _). rewrite Ep in EP. rewrite EP in Hf. cbn [default from_option id] in Hf. pose proof Hp as (k & Ek & _). subst p'.
  rewrite resolve_one, Ht in Hf by apply (sm_inv _ _ _ _ _ _ _ _ Hs). injection Hf as <-. exists data, m. split_and!; [done|by eexists|].
  intros rec' Er'. rewrite Er in Er'. injection Er' as <-. rewrite <- Hsec, Eo, Ez. symmetry. eapply section_of_file; [by rewrite Ep|done].
Qed.

Definition groupDigests (g : PackFs.packGroup) : list Digest := PackFs.rq_digest <$> PackFs.gr_records g.
Lemma servePackGroup_wp b0 t0 ds g c (st : PB * T) : inv b0 -> same b0 st.1 -> served b0 t0 ds st.2 ->
  Forall (located (PackFs.index b0) (PackFs.gr_path g)) (PackFs.gr_records g) ->
  wp (PackFs.servePackGroup base outside fn g) (fun r c' st' => same b0 st'.1 /\ match r with
    | Ok _ => served b0 t0 (ds ++ groupDigests g) st'.2
    | Err _ => servedTo b0 t0 (ds ++ groupDigests g) st'.2
    end) c st.
Proof.
  intros Hi0 Hs Hsv Hloc. unfold PackFs.servePackGroup. apply wp_bind, wp_onFst. eapply wp_sameDisk; [done|].
  apply wp_mapErr. unfold os_OpenHandle. apply wp_bind. eapply wp_mono; [apply wp_syscall|]. intros r1 c1 s1 (-> & He1 & _ & _).
  destruct r1 as [u|e]; [|split; [by apply evolves_extends|]; intros Hs1; split; [done|by apply served_to_app]].
  apply wp_bind, wp_get. pose proof He1 as (Et1 & _). rewrite Et1.
  destruct (resolve outside (tree (PackFs.disk st.1)) true (default [] (PackFs.inPackDir base (PackFs.gr_path g)))) as [| | |f] eqn:Ef;
    try (apply wp_throw; split; [by apply evolves_extends|]; intros Hs1; split; [done|by apply served_to_app]).
  apply wp_ret. split; [by apply evolves_extends|]. intros Hs1.
  apply wp_bind, wp_attempt. eapply wp_mono.
  { apply (wp_forM (fun don _ st' => same b0 st'.1 /\ served b0 t0 (ds ++ (PackFs.rq_digest <$> don)) st'.2)
      (fun _ _ st' => same b0 st'.1 /\ servedTo b0 t0 (ds ++ groupDigests g) st'.2)).
    - intros don q rest c2 st2 El [Hs2 Hsv2]. unfold groupDigests. rewrite El in Hloc |- *.
      apply Forall_app in Hloc as [_ [Hq _]%list.Forall_cons].
      destruct (section_located b0 st.1 (PackFs.gr_path g) q f Hi0 Hs Hq Ef) as (data & m & -> & Hsome & Hsec).
      eapply wp_mono; [by eapply serveRequest_wp|]. intros [u2|e2] c3 st3 [Hs3 H3]; rewrite !fmap_app, ?fmap_cons; (split; [done|]).
      + by rewrite app_assoc.
      + rewrite app_assoc, (cons_middle _ _ (_ <$> rest)), app_assoc. apply servedTo_app. destruct H3 as [H3|H3]; [by apply served_to_app|by apply served_to].
    - cbn. by rewrite app_nil_r. }
  intros r2 c2 st2 H2. assert (Hs2 : same b0 st2.1) by (destruct r2; apply H2).
  apply wp_bind, wp_attempt, wp_onFst. eapply wp_sameDisk; [done|]. eapply wp_mono; [apply wp_syscall|].
  intros r3 c3 s3 (-> & He3 & _). split; [by apply evolves_extends|]. intros Hs3. apply wp_bind, wp_lift.
  destruct r2 as [u2|e2]; [|split; [done|apply H2]]. apply wp_lift. destruct r3 as [u3|e3]; cbn [wrapErr]; (split; [done|]); [apply H2|].
  by apply served_to, H2.
Qed.

(** The digests no pack holds, from the loose backend. *)
Definition kept (b0 b : PB) : Prop := inv b /\ (quiet b0 -> quiet b) /\ abs b = abs b0.
Lemma same_kept b0 b : same b0 b -> kept b0 b.
Proof. by intros []. Qed.
Lemma looseGet_wp b0 d c b : kept b0 b -> PackFs.index b !! d = None ->
  wp (PackFs.onLoose (bk_Get loose d)) (fun r c' b' => kept b0 b' /\ PackFs.index b' = PackFs.index b /\ match r with
    | Ok rc => good b0 (d, rc_reader rc)
    | Err _ => True
    end) c b.
Proof.
  intros (Hi & Hq & Ha) Er. apply wp_onLoose, wp_intro. intros r c' l' E. destruct Hi as [Hd Hl Hidx Hm Hp].
  apply bs_Get in E as (Hl' & Hq' & Ha' & Hr); [|done].
  assert (Habs : abs (withLoose b l') = abs b0) by (rewrite <- Ha; unfold PackContract.abs, packed; cbn; by rewrite Ha').
  split; [split; [by split|split; [intros Hq0; destruct (Hq Hq0); split; [done|by apply Hq']|done]]|split; [done|]].
  destruct r as [rc|e]; [|done]. destruct Hr as (data & Hd' & [Ht _] & Hqr). exists data. cbn. rewrite <- Ha.
  rewrite (abs_loose labs base b d Er). split_and!; [done..|]. intros Hq0. by apply Hqr, Hq.
Qed.
Lemma serveLoose_wp b0 t0 ds d idx c (st : PB * T) : kept b0 st.1 -> PackFs.index st.1 = idx -> idx !! d = None -> served b0 t0 ds st.2 ->
  wp (PackFs.serveLoose loose fn d) (fun r c' st' => (kept b0 st'.1 /\ PackFs.index st'.1 = idx) /\ match r with
    | Ok _ => served b0 t0 (ds ++ [d]) st'.2
    | Err _ => servedTo b0 t0 (ds ++ [d]) st'.2
    end) c st.
Proof.
  intros Hk <- Hd Hs. unfold PackFs.serveLoose. apply wp_bind, wp_ctxErr.
  2:{ intros e c' _ _. split_and!; [done..|by apply served_to_app]. }
  intros c1 _. apply wp_bind, wp_onFst, wp_mapErr. eapply wp_mono; [by apply looseGet_wp|].
  intros r2 c2 b2 (Hk2 & Ei2 & Hr2). destruct r2 as [rc|e]; cbn [wrapErr]; [|by split_and!; [..|by apply served_to_app]].
  apply wp_onSnd, wp_intro. intros r3 c3 t3 E3. split; [done|]. unfold closeAfterFn, readThenClose in E3. cbn [snd] in E3.
  destruct (fn d (rc_reader rc) c2 st.2) as [[rv c4] t4] eqn:Ef. apply fn_logs in Ef. injection E3 as <- <- <-.
  pose proof (served_snoc _ _ _ _ _ _ _ Hs Ef Hr2) as Hs'. cbn [snd fst]. destruct (_ : res unit); [done|by apply served_to].
Qed.

(** The whole batch, in the plan's order. *)
Lemma serveGroups_wp b0 t0 groups c (st : PB * T) : inv b0 -> same b0 st.1 -> st.2 = t0 ->
  (forall g, g ∈ groups -> Forall (located (PackFs.index b0) (PackFs.gr_path g)) (PackFs.gr_records g)) ->
  wp (forM_ groups (PackFs.servePackGroup base outside fn)) (fun r c' st' => same b0 st'.1 /\ match r with
    | Ok _ => served b0 t0 (requests groups) st'.2
    | Err _ => servedTo b0 t0 (requests groups) st'.2
    end) c st.
Proof.
  intros Hi0 Hs Et Hg.
  assert (Hreq : forall gs, requests gs = concat (groupDigests <$> gs)).
  { intros gs. unfold requests. induction gs as [|x gs IH]; [done|]. rewrite !fmap_cons. cbn [concat]. by rewrite fmap_app, IH. }
  eapply wp_mono.
  { apply (wp_forM (fun don _ st' => same b0 st'.1 /\ served b0 t0 (requests don) st'.2)
      (fun _ _ st' => same b0 st'.1 /\ servedTo b0 t0 (requests groups) st'.2)).
    - intros don g rest c2 st2 El [Hs2 Hsv2]. eapply wp_mono; [apply servePackGroup_wp; [done..|]; apply Hg; rewrite El; set_solver|].
      intros r3 c3 st3 [Hs3 H3]. destruct r3; (split; [done|]).
      + rewrite Hreq, fmap_app, concat_app, <- Hreq in *. cbn. by rewrite app_nil_r.
      + rewrite El, Hreq, cons_middle, !fmap_app, !concat_app, <- Hreq, app_assoc. apply servedTo_app. cbn. by rewrite app_nil_r.
    - split; [done|]. rewrite Et. apply served_nil. }
  intros r c' st' H. destruct r; (split; [apply H|apply H]).
Qed.

(** The digests in a plan's order. *)
Definition batchOrder (idx : gmap Digest PackFs.packRecord) (digests order : list Digest) : Prop :=
  exists groups rest, planned idx groups rest digests /\ order = requests groups ++ rest.
Definition batchPost (b0 : PB) (t0 : T) (digests : list Digest) (r : res unit) (st' : PB * T) : Prop :=
  kept b0 st'.1 /\ exists ds, served b0 t0 ds st'.2 /\
    (ds = [] \/ exists order, batchOrder (PackFs.index b0) digests order /\ prefix ds order) /\
    (r = Ok tt -> batchOrder (PackFs.index b0) digests ds).

Lemma batch_empty b0 t0 digests e b' t' : same b0 b' -> t' = t0 -> batchPost b0 t0 digests (Err e) (b', t').
Proof. intros Hs ->. split; [by apply same_kept|]. exists []. split_and!; [apply served_nil|by left|done]. Qed.
Lemma batch_partial b0 t0 digests order e st' : kept b0 st'.1 -> batchOrder (PackFs.index b0) digests order ->
  servedTo b0 t0 order st'.2 -> batchPost b0 t0 digests (Err e) st'.
Proof. intros Hk Ho (ds & Hp & Hs). split; [done|]. exists ds. split_and!; [done|right; by exists order|done]. Qed.

Lemma GetMany_wp digests c b0 t0 : inv b0 ->
  wp (PackFs.GetMany loose base outside random jsonMarshal fn digests) (fun r _ st' => batchPost b0 t0 digests r st') c (b0, t0).
Proof.
  intros Hi. unfold PackFs.GetMany. apply wp_bind, wp_ctxErr; [|intros e c' _ _; by apply batch_empty; [apply same_refl|]].
  intros c1 _. apply wp_bind, wp_onFst. eapply wp_mono; [by apply planGetMany_wp|]. intros r1 c2 b1 [Hs1 Hr1].
  destruct r1 as [[groups rest]|e]; [|by apply batch_empty]. destruct Hr1 as [-> Hpl].
  assert (Ho : batchOrder (PackFs.index b0) digests (requests groups ++ rest)) by (by exists groups, rest).
  pose proof Hpl as (_ & _ & Hloc & Hrest).
  apply wp_bind. eapply wp_mono; [by apply (serveGroups_wp b0 t0)|]. intros r2 c3 st2 [Hs2 H2]. destruct r2 as [u2|e2].
  2:{ eapply batch_partial; [by apply same_kept|done|by apply servedTo_app]. }
  eapply wp_mono.
  { apply (wp_forM (fun don _ st' => (kept b0 st'.1 /\ PackFs.index st'.1 = PackFs.index b0) /\ served b0 t0 (requests groups ++ don) st'.2)
      (fun _ _ st' => kept b0 st'.1 /\ servedTo b0 t0 (requests groups ++ rest) st'.2)).
    - intros don d k c4 st4 El [[Hk4 Ei4] Hs4]. eapply wp_mono; [eapply serveLoose_wp; [done..| |done]|].
      + apply Hrest. rewrite El. set_solver.
      + intros [u|e] c5 st5 [[Hk5 Ei5] H5]; [by rewrite app_assoc|]. split; [done|].
        rewrite El, cons_middle, !app_assoc. by apply servedTo_app.
    - rewrite app_nil_r. split; [|done]. split; [by apply same_kept|apply (sm_index _ _ _ _ _ _ _ _ Hs2)]. }
  intros r5 c5 st5 H5. destruct r5 as [[]|e5].
  - destruct H5 as [[Hk5 _] Hs5]. split; [done|]. exists (requests groups ++ rest). split_and!; [done| |done]. right. by exists (requests groups ++ rest).
  - destruct H5 as [Hk5 Hs5]. by eapply batch_partial.
Qed.

(** The batched read, whatever fails and whenever the context is
    cancelled: no object changes; the callback is given the requested digests
    in the order of one plan, which has each of them as often as it was asked
    for and each pack file in one group, up to where the batch stopped, and all
    of them when it reports success; and every reader it is given gives that
    object's bytes unless a read of it fails. *)
Theorem packfs_GetMany (digests : list Digest) (c c' : ctx) (b b' : PB) (t t' : T) (r : res unit) :
  inv b -> PackFs.GetMany loose base outside random jsonMarshal fn digests c (b, t) = (r, c', (b', t')) ->
  inv b' /\ (quiet b -> quiet b') /\ abs b' = abs b /\
  exists ds, served b t ds t' /\
    (ds = [] \/ exists order, batchOrder (PackFs.index b) digests order /\ prefix ds order) /\
    (r = Ok tt -> batchOrder (PackFs.index b) digests ds /\ Permutation ds digests).
Proof.
  intros Hi H. apply (wp_run _ _ _ _ _ _ _ (GetMany_wp digests c b t Hi)) in H as [(? & ? & ?) (ds & Hs & Hp & Hr)].
  split_and!; [done..|]. exists ds. split_and!; [done..|]. intros ->. pose proof (Hr eq_refl) as Ho. split; [done|].
  by destruct Ho as (groups & rest & (_ & ? & _) & ->).
Qed.
End GetMany.

(** ** Clean *)
Lemma owned_not_temp olderThan cutoff p e : ownedPath p -> doomed olderThan cutoff (p, e) = false.
Proof.
  intros Hp. unfold doomed. cbn [fst snd]. destruct (IsTempFile (default [] (list.last p))) eqn:E; [|by rewrite andb_false_r]. exfalso.
  destruct Hp as [-> |[-> |(k & -> & _)]]; [done..|]. change (default [] (list.last [k ++ str ".pack"])) with (k ++ str ".pack") in E. apply IsTempFile_last in E as (x & Hx & Hd).
  change (str ".pack") with (str ".pac" ++ [x6b]) in Hx. rewrite last_suffix in Hx. injection Hx as <-. by destruct Hd.
Qed.
Lemma cleanTemp_wp olderThan c s : diskOk (tree s) ->
  wp (Fs.cleanTemp outside olderThan) (fun r c' s' => keeps s s' /\ tree s' ⊆ tree s) c s.
Proof.
  intros Hd. apply wp_intro. intros r c' s' H.
  apply cleanTemp_inv in H as (t' & n & err & _ & (Et & _ & Hq) & Hsh & Hk & _); [|apply Hd..]. rewrite <- Et in *.
  split; [|apply Hsh]. split; [done|by apply shrunk_parents|]. intros p Hp. destruct (tree s !! p) as [e|] eqn:E.
  - destruct (Hk p e E) as [?|[_ Hx]]; [done|]. by rewrite owned_not_temp in Hx.
  - destruct (tree s' !! p) eqn:E'; [|done]. eapply lookup_weaken in E'; [|apply Hsh]. congruence.
Qed.

Section Clean.
Variable looseClean : Z -> M L (Z * option error).
Hypothesis looseClean_keeps : forall o c l r c' l', linv l -> looseClean o c l = (r, c', l') ->
  linv l' /\ (lquiet l -> lquiet l') /\ labs l' = labs l.

(** Clean removes leftovers only, under any context and whatever fails:
    the index, every object and the handle's invariant stay, the pack directory
    loses no pack file and no manifest and gains nothing, and the loose
    backend's own Clean is all that happens to the loose objects. *)
Theorem packfs_Clean (olderThan : Z) (c c' : ctx) (b b' : PB) (r : res Z) :
  inv b -> PackFs.CleanResult looseClean outside olderThan c b = (r, c', b') ->
  inv b' /\ (quiet b -> quiet b') /\ abs b' = abs b /\ PackFs.index b' = PackFs.index b /\
  tree (PackFs.disk b') ⊆ tree (PackFs.disk b) /\
  (forall p, ownedPath p -> tree (PackFs.disk b') !! p = tree (PackFs.disk b) !! p).
Proof.
  intros Hi H. revert H. apply (wp_run _ (fun _ _ b' => inv b' /\ (quiet b -> quiet b') /\ abs b' = abs b /\
    PackFs.index b' = PackFs.index b /\ tree (PackFs.disk b') ⊆ tree (PackFs.disk b) /\
    (forall p, ownedPath p -> tree (PackFs.disk b') !! p = tree (PackFs.disk b) !! p))).
  assert (Hself : forall l1, linv l1 -> (lquiet (PackFs.bk_loose b) -> lquiet l1) -> labs l1 = labs (PackFs.bk_loose b) ->
    inv (withLoose b l1) /\ (quiet b -> quiet (withLoose b l1)) /\ abs (withLoose b l1) = abs b).
  { intros l1 Hl Hq Ha. destruct Hi as [Hd _ Hx Hm Hp]. split_and!; [by split|intros []; split; auto|].
    unfold PackContract.abs, packed. cbn. by rewrite Ha. }
  unfold PackFs.CleanResult, PackFs.Clean. apply wp_bind, wp_bind, wp_attempt, wp_ctxErr.
  2:{ intros e c1 _ _. apply wp_ret, wp_throw. by split_and!. }
  intros c1 _. apply wp_bind, wp_onLoose, wp_intro. intros r1 c2 l1 E1.
  apply looseClean_keeps in E1 as (Hl1 & Hq1 & Ha1); [|apply Hi]. destruct (Hself l1 Hl1 Hq1 Ha1) as (Hi1 & Hqb1 & Hab1).
  destruct r1 as [[removed [err|]]|e]; [apply wp_ret, wp_throw; by split_and!| |by split_and!].
  apply wp_bind. eapply wp_sameDisk; [by apply same_refl|]. eapply wp_mono; [apply cleanTemp_wp, Hi1|].
  intros r2 c3 s3 [Hk Hsub]. split; [by apply keeps_extends|]. intros [Hi3 Hq3 Ha3 _ Hx3 _].
  assert (Hend : inv (withDisk (withLoose b l1) s3) /\ (quiet b -> quiet (withDisk (withLoose b l1) s3)) /\
    abs (withDisk (withLoose b l1) s3) = abs b /\ PackFs.index (withDisk (withLoose b l1) s3) = PackFs.index b /\
    tree s3 ⊆ tree (PackFs.disk b) /\ (forall p, ownedPath p -> tree s3 !! p = tree (PackFs.disk b) !! p)).
  { split_and!; [done|auto|etrans; [exact Ha3|exact Hab1]|exact Hx3|done|]. intros p Hp. by apply (kp_same _ _ Hk). }
  destruct r2 as [[packed err]|e]; [|exact Hend]. apply wp_ret. destruct err; [by apply wp_throw|by apply wp_ret].
Qed.
End Clean.
End PackBatch.
