(* ===== verification/PackRuns.v ===== *)
(** The pack backend over the filesystem backend: what a failed rotation leaves,
    and runs over a concrete disk with a concrete random-name source and a
    concrete manifest encoding. *)

From S2P Require Import Prelude Digest Stream Backend FileSystem AtomicFile Wp OsFile FsBackend FsContract FsMaintenance RefText FilePath PackFs PackDisk PackContract PackBatch.

(** ** A failed Close sticks *)
Section Stuck.
Context {L : Type} (loose : Backend L).
Variable base : bytes.
Variable outside : path -> option entry.
Variable random : gmap path entry -> bytes.
Variable jsonMarshal : gmap bytes PackFs.packRecord -> res bytes.
Variable cfg : PackFs.config.

(** The active handle is closed but still there. *)
Definition stuck (b : PackFs.Backend (L := L)) : Prop := exists h, PackFs.packFile b = Some h /\ PackFs.h_closed h = true.
Definition refused {A} (r : res A) (c : ctx) (b : PackFs.Backend (L := L)) : Prop := is_ok r = false /\ stuck b.

Lemma stuck_disk b s : stuck b -> stuck (withDisk b s).
Proof. done. Qed.
Lemma onDisk_stuck {A} (m : M FS A) c b : stuck b -> wp (PackFs.onDisk m) (fun _ _ b' => stuck b' /\ PackFs.packFile b' = PackFs.packFile b) c b.
Proof. intros Hs. apply wp_onDisk, wp_intro. by intros. Qed.

Lemma rotate_stuck c b : stuck b -> wp (PackFs.rotatePackFile base outside) refused c b.
Proof.
  intros (h & Eh & Hh). unfold PackFs.rotatePackFile. apply wp_bind, wp_get. rewrite Eh.
  apply wp_bind, wp_bind, wp_attempt, wp_onDisk. unfold PackFs.closeHandle. rewrite Hh. apply wp_throw.
  apply wp_bind, wp_setPack, wp_throw. split; [done|]. by eexists.
Qed.
Lemma append_stuck d r n c b : PackFs.enabled cfg = true -> stuck b ->
  wp (PackFs.appendPackRecord base outside random jsonMarshal cfg d r n) refused c b.
Proof.
  intros He Hs. unfold PackFs.appendPackRecord. rewrite He. cbn [negb].
  assert (Hens : wp (PackFs.ensurePackFile base outside) (fun r c' b' => r = Ok tt /\ c' = c /\ b' = b) c b).
  { unfold PackFs.ensurePackFile. apply wp_bind, wp_get. destruct Hs as (h & -> & _). by apply wp_ret. }
  assert (Hrot : forall cond : bool, wp (if cond then PackFs.rotatePackFile base outside else mret tt)
    (fun r c' b' => refused r c' b' \/ (r = Ok tt /\ c' = c /\ b' = b)) c b).
  { intros []; [|apply wp_ret; by right]. eapply wp_mono; [by apply rotate_stuck|]. by left. }
  assert (Herr : forall A (r : res A) c' b', refused r c' b' -> exists e, r = Err e) by (intros A [] ? ? [? _]; [done|eauto]).
  apply wp_bind. eapply wp_mono; [exact Hens|]. intros r1 c1 b1 (-> & -> & ->).
  apply wp_bind, wp_get, wp_bind. eapply wp_mono; [apply Hrot|]. intros r2 c2 b2 [H2|(-> & -> & ->)].
  { destruct (Herr _ _ _ _ H2) as [e ->]. exact H2. }
  apply wp_bind, wp_get, wp_bind. eapply wp_mono; [apply Hrot|]. intros r3 c3 b3 [H3|(-> & -> & ->)].
  { destruct (Herr _ _ _ _ H3) as [e ->]. exact H3. }
  apply wp_bind. eapply wp_mono; [exact Hens|]. intros r4 c4 b4 (-> & -> & ->). apply wp_bind, wp_get.
  pose proof Hs as (h & -> & Hh). unfold PackFs.writeRecord. apply wp_bind, wp_mapErr. unfold PackFs.viaHandle. rewrite Hh. by apply wp_throw.
Qed.

Lemma closing_fault h f rest c b : PackFs.packFile b = Some h -> PackFs.h_closed h = false -> faults (PackFs.disk b) = Some f :: rest ->
  wp (PackFs.rotatePackFile base outside) refused c b.
Proof.
  intros Eh Hh Hf. unfold PackFs.rotatePackFile. apply wp_bind, wp_get. rewrite Eh.
  apply wp_bind, wp_bind, wp_attempt, wp_onDisk. unfold PackFs.closeHandle. rewrite Hh.
  unfold syscall. apply wp_bind. unfold popFault, wp. rewrite Hf.
  change (wp (PackFs.setPack (Some (PackFs.mkHandle (PackFs.h_path h) true)) (PackFs.packFilePath b) (PackFs.packBytes b) (PackFs.packEntries b);; (throw (New (fl_msg f)) : M _ unit)) refused c
    (withDisk b (mkFS (tree (PackFs.disk b)) rest (clock (PackFs.disk b))))).
  apply wp_bind, wp_setPack, wp_throw. split; [done|]. by eexists.
Qed.

(** A failed Close of the active pack file sticks: the rotation reports the
    error and leaves the closed handle in place, and from then on, whatever the
    disk and the context do, every packed Put fails and leaves the handle in
    place again, so only closing or reopening the backend helps. *)
Theorem packfs_failed_close_sticks (c c' : ctx) (b b' : PackFs.Backend (L := L)) (d : Digest) (r : Reader) (res : res unit) :
  PackFs.enabled cfg = true ->
  (forall h f rest, PackFs.packFile b = Some h -> PackFs.h_closed h = false -> faults (PackFs.disk b) = Some f :: rest ->
    PackFs.rotatePackFile base outside c b = (res, c', b') -> is_ok res = false /\ stuck b') /\
  (stuck b -> PackFs.Put loose base outside random jsonMarshal cfg d r c b = (res, c', b') -> is_ok res = false /\ stuck b').
Proof.
  intros He. split.
  - intros h f rest Eh Hh Hf H. by apply (wp_run _ _ _ _ _ _ _ (closing_fault h f rest c b Eh Hh Hf)) in H.
  - intros Hs H. revert H. apply (wp_run _ refused). unfold PackFs.Put.
    apply wp_bind, wp_ctxErr; [|intros; by split]. intros c1 _. apply wp_bind, wp_lift. unfold CheckDigest. destruct (IsZero d); [by split|].
    rewrite He. cbn [negb]. apply wp_bind. eapply wp_mono; [by apply onDisk_stuck|]. intros r1 c2 b1 [Hs1 _].
    destruct r1 as [[p n]|e]; [|by split]. unfold PackFs.deferred. apply wp_bind, wp_attempt.
    enough (Hbody : wp (PackFs.onDisk (mapErr (Errorf "cas: rewind spool file: %w") syscall);;
      sp ← PackFs.onDisk (os_ReadHandle p);
      PackFs.onLoose (bk_Put loose d sp);;
      PackFs.onDisk (mapErr (Errorf "cas: rewind spool file: %w") syscall);;
      sp ← PackFs.onDisk (os_ReadHandle p);
      PackFs.appendPackRecord base outside random jsonMarshal cfg d sp n) refused c2 b1).
    { eapply wp_mono; [exact Hbody|]. intros r2 c3 b2 [Hr2 Hs2]. apply wp_bind, wp_attempt.
      eapply wp_mono; [by apply onDisk_stuck|]. intros r3 c4 b3 [Hs3 _]. apply wp_lift. by split. }
    apply wp_bind. eapply wp_mono; [by apply onDisk_stuck|]. intros r2 c3 b2 [Hs2 _]. destruct r2; [|by split].
    apply wp_bind. eapply wp_mono; [by apply onDisk_stuck|]. intros r3 c4 b3 [Hs3 _]. destruct r3; [|by split].
    apply wp_bind, wp_onLoose, wp_intro. intros r4 c5 l4 _. destruct r4; [|by split].
    apply wp_bind. eapply wp_mono; [by apply onDisk_stuck|]. intros r5 c6 b5 [Hs5 _]. destruct r5; [|by split].
    apply wp_bind. eapply wp_mono; [by apply onDisk_stuck|]. intros r6 c7 b6 [Hs6 _]. destruct r6; [|by split].
    by apply append_stuck.
Qed.
End Stuck.

(** ** A concrete machine *)
#[export] Instance packRecord_eq_dec : EqDecision PackFs.packRecord.
Proof. solve_decision. Defined.
#[export] Program Instance packRecord_countable : Countable PackFs.packRecord :=
  inj_countable (fun r => (PackFs.Pack r, PackFs.Offset r, PackFs.Size r))
    (fun t => Some (PackFs.mkRecord t.1.1 t.1.2 t.2)) _.
Next Obligation. by intros []. Qed.
Definition marshal (m : gmap bytes PackFs.packRecord) : res bytes := Ok (posBits (encode m)).
Definition unmarshal (s : bytes) : res (gmap bytes PackFs.packRecord) :=
  match decode (bitsPos s) with Some m => Ok m | None => Err (New "invalid character") end.
Lemma marshal_ok m : is_ok (marshal m) = true.
Proof. done. Qed.
Lemma marshal_rereads m data : marshal m = Ok data -> textual m -> unmarshal data = Ok m.
Proof. intros [= <-] _. unfold unmarshal. by rewrite bitsPos_posBits, decode_encode. Qed.

(** A name longer than any in the directory. *)
Definition longest (t : gmap path entry) : nat := map_fold (fun p _ n => Nat.max (list_max (length <$> p)) n) 0%nat t.
Definition fresh_name (t : gmap path entry) : bytes := replicate (S (longest t)) x61.
Lemma longest_ge t (n : bytes) e : t !! ([n] : path) = Some e -> (length n <= longest t)%nat.
Proof.
  unfold longest. revert n e. apply (map_fold_weak_ind (fun m t => forall (n : bytes) e, t !! ([n] : path) = Some e -> (length n <= m)%nat)).
  - intros n e H. by rewrite lookup_empty in H.
  - intros p e t' m _ IH n e'. rewrite lookup_insert. case_decide as E.
    + subst p. intros _. cbn. lia.
    + intros H%IH. lia.
Qed.
Lemma fresh_name_fresh (t : gmap path entry) (pre suf : bytes) : t !! ([pre ++ fresh_name t ++ suf] : path) = None.
Proof.
  destruct (t !! ([pre ++ fresh_name t ++ suf] : path)) eqn:E; [|done]. apply longest_ge in E.
  unfold fresh_name in E. rewrite !length_app, length_replicate in E. lia.
Qed.

(** The pack backend over the two-character layout of the filesystem backend. *)
Definition packCfg : PackFs.config := PackFs.mkConfig true 64 10.
Definition fsLoose : Backend FS := Fs.Backend nowhere 2 1 false.
(** The base path, and the same directory spelled absolutely. *)
Definition here : bytes := str "base".
Definition absolute : bytes := str "/srv/base".
Definition packPut := PackFs.Put fsLoose here nowhere fresh_name marshal packCfg.
Abbreviation fsInv := (FsContract.inv 2 1).
Abbreviation fsAbs := (FsContract.abs 2 1).
Abbreviation packInv := (PackContract.inv fsInv (FsContract.key 2 1) here marshal).
Abbreviation packAbs := (PackContract.abs fsAbs here).
Definition pb0 : PackFs.Backend (L := FS) := PackFs.mkBackend fs0 emptyDisk None [] 0 0 ∅.
Definition d1 : Digest := [x12; x34].
Definition pb1 := packPut d1 (bytesReader [x61; x62]) [] pb0.

Lemma emptyDisk_ok : diskOk (tree emptyDisk).
Proof.
  assert (Hn : forall n : bytes, tree emptyDisk !! ([n] : path) = None) by (intros n; by apply lookup_singleton_ne).
  split; [apply emptyDisk_parents|done|unfold PackFs.manifestPath; by rewrite Hn|]. intros p (k & -> & _). by rewrite Hn.
Qed.
Lemma pb0_inv : packInv pb0.
Proof. split; [apply emptyDisk_ok|apply inv_fresh|by intros d rec [=]|by left|done]. Qed.
Lemma pb1_run : run_res pb1 = Ok tt /\ pb1.1.2 = [].
Proof. split; vm_compute; reflexivity. Qed.

Example packfs_refines_witness :
  BackendSpec (PackFs.Backend_ fsLoose (Fs.Stat nowhere 2 1) (Fs.cleanTemp nowhere) here nowhere fresh_name marshal packCfg)
    packInv (PackContract.quiet FsContract.quiet) (FsContract.key 2 1) packAbs /\ packInv pb0.
Proof.
  split; [|exact pb0_inv].
  exact (packfs_refines fsLoose fsInv FsContract.quiet (FsContract.key 2 1) fsAbs (HL := fs_BackendSpec 2 1 nowhere false)
    here nowhere fresh_name fresh_name_fresh marshal marshal_ok packCfg (Fs.Stat nowhere 2 1) (Fs.cleanTemp nowhere)).
Defined.

Definition reopenAt (base2 : bytes) := PackFs.Open base2 nowhere unmarshal (PackFs.bk_loose (run_st pb1)) (PackFs.disk (run_st pb1)).
(** A longer spelling joins to the same pack directory; an absolute one does not,
    and no record leads into it. *)
Lemma spelling : PackFs.packDir (str "./x/../base/") = PackFs.packDir here.
Proof. vm_compute. reflexivity. Qed.
Lemma absolute_foreign d rec : PackFs.index (run_st pb1) !! d = Some rec -> PackFs.inPackDir absolute (PackFs.Pack rec) = None.
Proof.
  assert (E : PackFs.index (run_st pb1) = {[ d1 := PackFs.mkRecord (str "base/packs/current.pack") 14 2 ]}) by (vm_compute; reflexivity).
  rewrite E. intros [_ <-]%lookup_singleton_Some. vm_compute. reflexivity.
Qed.
Example packfs_reopen_witness :
  run_res pb1 = Ok tt /\
  (exists r b2, reopenAt (str "./x/../base/") = (r, b2) /\ r = Ok tt /\ PackContract.abs fsAbs (str "./x/../base/") b2 !! d1 = Some [x61; x62]) /\
  (exists r b2, reopenAt absolute = (r, b2) /\ r = Ok tt /\ PackFs.index b2 = ∅).
Proof.
  pose proof pb1_run as [Hr Hc]. split; [exact Hr|].
  assert (E : packPut d1 (bytesReader [x61; x62]) [] pb0 = (Ok tt, [], run_st pb1)).
  { fold pb1. destruct pb1 as [[r c] b]. cbn in Hr, Hc. by subst. }
  assert (Hq : PackContract.quiet FsContract.quiet (run_st pb1)) by (split; vm_compute; reflexivity).
  assert (H : forall base2, ValidString (PackFs.packDir base2) = true -> _) by
    exact (fun base2 Hv => packfs_reopen fsLoose fsInv FsContract.quiet (FsContract.key 2 1) fsAbs (HL := fs_BackendSpec 2 1 nowhere false)
    here base2 nowhere fresh_name fresh_name_fresh marshal unmarshal marshal_ok marshal_rereads packCfg eq_refl Hv [] [] pb0 (run_st pb1)
    (packPut d1 (bytesReader [x61; x62])) pb0_inv (ex_intro _ d1 (or_intror (ex_intro _ _ (conj eq_refl eq_refl)))) E).
  split.
  - specialize (H (str "./x/../base/") eq_refl). fold (reopenAt (str "./x/../base/")) in H.
    destruct (reopenAt (str "./x/../base/")) as [r b2]. destruct H as [H _]. destruct (H spelling) as (_ & _ & Hok).
    destruct (Hok Hq) as (-> & _ & Ha). exists (Ok tt), b2. split_and!; [done..|]. rewrite Ha. vm_compute. reflexivity.
  - specialize (H absolute eq_refl). fold (reopenAt absolute) in H. destruct (reopenAt absolute) as [r b2]. destruct H as [_ H].
    destruct (H absolute_foreign) as (_ & _ & Hok). destruct (Hok Hq) as (-> & Hi & _). exists (Ok tt), b2. by split_and!.
Defined.

(** A batch that logs its calls, over a store with one packed object. *)
Definition logFn (d : Digest) (r : Reader) : M (list (Digest * Reader)) unit := modify (fun l => l ++ [(d, r)]).
Lemma logFn_logs d r c t res c' t' : logFn d r c t = (res, c', t') -> id t' = id t ++ [(d, r)].
Proof. unfold logFn, modify. intros H. by simplify_eq. Qed.
Lemma pb1_inv : packInv (run_st pb1).
Proof.
  assert (E : packPut d1 (bytesReader [x61; x62]) [] pb0 = (run_res pb1, pb1.1.2, run_st pb1)) by (fold pb1; by destruct pb1 as [[r c] b]).
  apply (wp_run _ _ _ _ _ _ _ (Put_wp fsLoose fsInv FsContract.quiet (FsContract.key 2 1) fsAbs (HL := fs_BackendSpec 2 1 nowhere false)
    here nowhere fresh_name fresh_name_fresh marshal marshal_ok packCfg d1 (bytesReader [x61; x62]) [] pb0 pb0_inv)) in E.
  destruct E as [E _]. exact E.
Qed.
Definition batch1 := PackFs.GetMany fsLoose here nowhere fresh_name marshal logFn [d1] [] (run_st pb1, []).
Lemma batch1_run : batch1 = (Ok tt, [], ((run_st batch1).1, (run_st batch1).2)).
Proof.
  assert (run_res batch1 = Ok tt /\ batch1.1.2 = []) as [Hr Hc] by (split; vm_compute; reflexivity).
  destruct batch1 as [[r c] [b l]]. cbn in Hr, Hc. by subst.
Qed.
Example packfs_GetMany_witness :
  packInv (run_st pb1) /\ packInv (run_st batch1).1 /\
  exists ds, Permutation ds [d1] /\ exists l, (run_st batch1).2 = l /\ l.*1 = ds.
Proof.
  split; [exact pb1_inv|].
  destruct (packfs_GetMany fsLoose fsInv FsContract.quiet (FsContract.key 2 1) fsAbs (HL := fs_BackendSpec 2 1 nowhere false)
    here nowhere fresh_name fresh_name_fresh marshal marshal_ok logFn id logFn_logs [d1] [] []
    (run_st pb1) (run_st batch1).1 [] (run_st batch1).2 (Ok tt) pb1_inv batch1_run) as (Hi & _ & _ & ds & (l & El & _ & Hl) & _ & Hok).
  split; [exact Hi|]. exists ds. split; [exact (proj2 (Hok eq_refl))|]. exists l. split; [exact El|exact Hl].
Defined.

(** A sweep of the pack directory beside the loose tree's own. *)
Lemma fsClean_keeps (o : Z) c l r c' l' : fsInv l -> Fs.cleanTemp nowhere o c l = (r, c', l') ->
  fsInv l' /\ (FsContract.quiet l -> FsContract.quiet l') /\ fsAbs l' = fsAbs l.
Proof.
  intros Hi H. apply cleanTemp_inv in H as (t' & n & err & _ & (Et & _ & Hq) & Hsh & Hk & _); [|apply Hi..]. subst t'.
  split_and!; [by eapply inv_shrunk|done|by eapply cleaned_abs].
Qed.
Definition clean1 := PackFs.CleanResult (Fs.cleanTemp nowhere) nowhere 0 [] (run_st pb1).
Example packfs_Clean_witness :
  packInv (run_st pb1) /\ packInv (run_st clean1) /\ packAbs (run_st clean1) !! d1 = Some [x61; x62].
Proof.
  split; [exact pb1_inv|].
  assert (E : clean1 = (run_res clean1, clean1.1.2, run_st clean1)) by (by destruct clean1 as [[r c] b]).
  destruct (packfs_Clean fsInv FsContract.quiet (FsContract.key 2 1) fsAbs here nowhere marshal (Fs.cleanTemp nowhere) fsClean_keeps
    0 [] clean1.1.2 (run_st pb1) (run_st clean1) (run_res clean1) pb1_inv E) as (Hi & _ & Ha & _).
  split; [exact Hi|]. rewrite Ha. vm_compute. reflexivity.
Defined.

(** A rotation whose close fails, and a Put after it. *)
Definition fullCfg : PackFs.config := PackFs.mkConfig true 1 10.
Definition faulty : PackFs.Backend (L := FS) :=
  PackFs.mkBackend fs0 (mkFS {[ [] := Directory; PackFs.currentPack := File [x61] 7 ]} [Some (mkFault "input/output error" 0)] 7)
    (Some (PackFs.mkHandle PackFs.currentPack false)) (Join (PackFs.packDir here) PackFs.currentName) 1 0 ∅.
Definition rotated := PackFs.rotatePackFile here nowhere [] faulty.
Definition put2 := PackFs.Put fsLoose here nowhere fresh_name marshal fullCfg d1 (bytesReader [x61]) [] (run_st rotated).
Example packfs_failed_close_sticks_witness :
  stuck (run_st rotated) /\ is_ok (run_res put2) = false /\ stuck (run_st put2).
Proof.
  pose proof (packfs_failed_close_sticks fsLoose here nowhere fresh_name marshal fullCfg) as H.
  assert (Hs : stuck (run_st rotated)).
  { destruct (H [] rotated.1.2 faulty (run_st rotated) d1 (bytesReader []) (run_res rotated) eq_refl) as [H1 _].
    apply (H1 (PackFs.mkHandle PackFs.currentPack false) (mkFault "input/output error" 0) []); reflexivity. }
  split; [exact Hs|].
  destruct (H [] put2.1.2 (run_st rotated) (run_st put2) d1 (bytesReader [x61]) (run_res put2) eq_refl) as [_ H2].
  assert (E : put2 = (run_res put2, put2.1.2, run_st put2)) by (by destruct put2 as [[r c] b]).
  exact (H2 Hs E).
Defined.
