(* ===== verification/Repo.v ===== *)
(** The object registry (src/cas/repo/repo.go, src/cas/repo/errors.go): the map
    from versioned type names to decoders, the resolution of a digest to its
    typed object, and the walk and reachable set over objects of several types. *)

From S2P Require Import Prelude Digest Binary Stream Envelope Backend MemBackend Store Walk Sweep.

(** ** [*UnknownTypeError] ([UnknownType] of the errors) *)

(** [errors.As(err, &ute)]: the first [*UnknownTypeError] of the chain, with its
    digest and type name. *)
Fixpoint asUnknownType (err : error) : option (Digest * bytes) :=
  match err with
  | UnknownType d typeName => Some (d, typeName)
  | Errorf _ e | Phased _ e => asUnknownType e
  | Errorf2 _ e1 e2 => match asUnknownType e1 with Some u => Some u | None => asUnknownType e2 end
  | Sentinel _ | New _ => None
  end.

(** The placeholder for an object whose type has no decoder. *)
Record UnknownObject := mkUnknownObject { uo_Digest : Digest; uo_TypeName : bytes; uo_Err : error }.

(** ** The registry

    [tag] names the Go types that implement the object interface, [sem] is
    their values and [methods] their methods; [S] is the state of the backends. *)
Section Registry.
Context {S : Type} {tag : Type} `{EqDecision tag}.
Variable sem : tag -> Type.
Variable methods : forall t, Object (sem t).

(** An [Object] value: its dynamic type with the value, or an [*UnknownObject]. *)
Inductive AnyObject :=
  | Known (t : tag) (v : sem t)
  | Unknown (u : UnknownObject).

Definition Type_ (o : AnyObject) : bytes :=
  match o with Known t v => ob_Type (methods t) v | Unknown u => uo_TypeName u end.
Definition References (o : AnyObject) : option (list Digest) :=
  match o with Known t v => ob_References (methods t) v | Unknown _ => None end.

(** A decoder may answer a nil object. *)
Definition Decoder : Type := Backend S -> Digest -> M S (option AnyObject).

(** A [*cas.Store[T]]. *)
Record StoreOf (t : tag) := mkStoreOf {
  so_backend : Backend S;
  so_codec : Codec (sem t);
  so_hasher : Hasher;
}.
Arguments so_backend {t}. Arguments so_codec {t}. Arguments so_hasher {t}.

Record Registry := mkRegistry {
  backend : Backend S;
  hasher : Hasher;
  decoders : gmap bytes Decoder;
  stores : gmap bytes {t : tag & StoreOf t};
}.

Definition NewRegistry (b : Backend S) (h : Hasher) : Registry := mkRegistry b h ∅ ∅.

(** A nil decoder is [None].  A call that fails leaves the registry as it was. *)
Definition Register (r : Registry) (typeName : bytes) (decode : option Decoder) : res Registry :=
  if bool_decide (typeName = []) then Err (New "cas/repo: register: empty type name")
  else match decode with
       | None => Err (New "cas/repo: register %q: nil decoder")
       | Some decode =>
         if bool_decide (is_Some (decoders r !! typeName))
         then Err (New "cas/repo: register %q: %q is already registered")
         else Ok (mkRegistry (backend r) (hasher r) (<[typeName := decode]> (decoders r)) (stores r))
       end.

(** The decoder of a store: its own Get, whatever backend it is handed. *)
Definition storeDecoder {t} (store : StoreOf t) : Decoder := fun _ d =>
  obj ← Get (so_backend store) (so_codec store) (methods t) (so_hasher store) d;
  mret (Some (Known t obj)).

Definition RegisterStore {t} (r : Registry) (typeName : bytes) (store : option (StoreOf t)) : res Registry :=
  match store with
  | None => Err (New "cas/repo: register store %q: nil store")
  | Some store =>
    r ← Register r typeName (Some (storeDecoder store));
    Ok (mkRegistry (backend r) (hasher r) (decoders r) (<[typeName := existT t store]> (stores r)))
  end.

Definition LookupStore (t : tag) (r : Registry) (typeName : bytes) : res (StoreOf t) :=
  match stores r !! typeName with
  | None => Err (UnknownType [] typeName)
  | Some (existT t' registered) =>
    match decide (t' = t) with
    | left E => Ok (eq_rect t' StoreOf registered t E)
    | right _ => Err (New "cas/repo: lookup store %q: registered as %T, requested %T")
    end
  end.

Definition Resolve (r : Registry) (d : Digest) : M S AnyObject :=
  lift (CheckDigest d "cas/repo: resolve");;
  lift (match hs_Validate (hasher r) d with Some e => Err (Errorf "cas/repo: resolve: %w" e) | None => Ok tt end);;
  typeName ← HeaderType (backend r) d;
  match decoders r !! typeName with
  | None => throw (UnknownType d typeName)
  | Some decode =>
    obj ← mapErr (Errorf "cas/repo: resolve %s (%s): %w") (decode (backend r) d);
    match obj with
    | None => throw (New "cas/repo: resolve %s: decoder for %q returned a nil object")
    | Some obj => mret obj
    end
  end.

(** ** The walk over any [Resolver] *)
Section Walk.
Variable resolver : Digest -> M S AnyObject.

Definition resolveNode (d : Digest) : M S (option AnyObject * option (list Digest)) :=
  r ← attempt (resolver d);
  match r with
  | Ok obj => mret (Some obj, None)
  | Err err =>
    match asUnknownType err with
    | Some (_, typeName) => mret (Some (Unknown (mkUnknownObject d typeName err)), None)
    | None => throw err
    end
  end.

(** [visit] changes the client's own state.  A resolved node is never nil. *)
Definition Walk {U} (visit : Digest -> AnyObject -> M U unit) (fuel : nat) (roots : list Digest) : M (S * U) unit :=
  WalkDigests References (fun d => onFst (resolveNode d))
    (fun d node _ => match node with Some obj => onSnd (visit d obj) | None => mret tt end)
    fuel roots.

Definition Reachable (fuel : nat) (roots : list Digest) : M S (gmap bytes bool) := fun c s =>
  match Walk (fun d _ => modify (fun m : gmap bytes bool => <[DString d := true]> m)) fuel roots c (s, ∅) with
  | (Ok _, c', (s', reachable)) => (Ok reachable, c', s')
  | (Err e, c', (s', _)) => (Err e, c', s')
  end.
End Walk.
End Registry.

Arguments Known {tag sem} t v. Arguments Unknown {tag sem} u.
Arguments mkStoreOf {S tag sem t}. Arguments so_backend {S tag sem t}. Arguments so_codec {S tag sem t}. Arguments so_hasher {S tag sem t}.
Arguments mkRegistry {S tag sem}. Arguments backend {S tag sem}. Arguments hasher {S tag sem}.
Arguments decoders {S tag sem}. Arguments stores {S tag sem}.

(** ** Errors that carry no [*UnknownTypeError] *)
Lemma asUnknownType_none e : errIs e ErrUnknownType = false -> asUnknownType e = None.
Proof.
  induction e as [x|m|m e IH|m e1 IH1 e2 IH2|z e IH|d t]; simpl; try done.
  rewrite orb_false_iff. intros [H1 H2]. by rewrite IH1, IH2.
Qed.

(** A read that fails with nothing but its own errors and the stream's. *)
Definition tailErr {A} (m : M Reader A) : Prop := forall c r x c' r',
  errIs (rd_tail r) ErrUnknownType = false -> m c r = (x, c', r') ->
  errIs (rd_tail r') ErrUnknownType = false /\ (forall e, x = Err e -> errIs e ErrUnknownType = false).

Lemma tailErr_bind {A B} (m : M Reader A) (f : A -> M Reader B) : tailErr m -> (forall a, tailErr (f a)) -> tailErr (m ≫= f).
Proof.
  intros Hm Hf c r x c' r' Ht H. apply bind_inv in H as [(a & c1 & r1 & E & H)|(e & E & ->)].
  - apply Hm in E as [Ht1 _]; [|done]. by eapply Hf.
  - apply Hm in E as [Ht1 He]; [|done]. split; [done|]. intros e' [= <-]. by apply He.
Qed.
Lemma tailErr_lift {A} (x : res A) : (forall e, x = Err e -> errIs e ErrUnknownType = false) -> tailErr (lift x).
Proof. intros Hx c r y c' r' Ht H. apply lift_inv in H as (-> & -> & ->). auto. Qed.
Lemma tailErr_ret {A} (a : A) : tailErr (mret a).
Proof. by apply (tailErr_lift (Ok a)). Qed.
Lemma tailErr_throw {A} e : errIs e ErrUnknownType = false -> tailErr (throw e : M Reader A).
Proof. intros He. apply (tailErr_lift (Err e)). by intros e' [= <-]. Qed.
Lemma tailErr_mapErr {A} (f : error -> error) (m : M Reader A) :
  (forall e, errIs e ErrUnknownType = false -> errIs (f e) ErrUnknownType = false) -> tailErr m -> tailErr (mapErr f m).
Proof.
  intros Hf Hm c r x c' r' Ht H. apply mapErr_inv in H as (r0 & E & ->). apply Hm in E as [Ht1 He]; [|done].
  split; [done|]. destruct r0 as [a|e]; intros e' [= <-]. by apply Hf, He.
Qed.
Lemma tailErr_ReadFull n : tailErr (ReadFull n).
Proof.
  intros c r x c' r' Ht H. destruct (Nat.leb_spec n (length (rd_data r))) as [Hl|Hl].
  - destruct (ReadFull_ok n c r Hl) as (r1 & E & _ & Ht1). rewrite E in H. simplify_eq. by rewrite Ht1.
  - rewrite ReadFull_short in H by done. simplify_eq. split; [done|]. intros e [= <-]. unfold shortErr. by repeat case_decide.
Qed.
Lemma tailErr_attempt {A B} (m : M Reader A) (f : res A -> M Reader B) : tailErr m ->
  (forall r0, (forall e, r0 = Err e -> errIs e ErrUnknownType = false) -> tailErr (f r0)) -> tailErr (attempt m ≫= f).
Proof.
  intros Hm Hf c r x c' r' Ht H. apply bind_attempt in H as (r0 & c1 & r1 & E & H).
  apply Hm in E as [Ht1 He]; [|done]. by eapply Hf.
Qed.

Lemma tailErr_readByte : tailErr readByte.
Proof. apply tailErr_bind; [apply tailErr_ReadFull|]. intros [|x [|]]; [by apply tailErr_throw|apply tailErr_ret|by apply tailErr_throw]. Qed.
Lemma tailErr_ReadUvarint fuel i x s : tailErr (readUvarint_go fuel i x s).
Proof.
  revert i x s. induction fuel as [|fuel IH]; intros i x s; cbn [readUvarint_go]; [by apply tailErr_throw|].
  apply tailErr_attempt; [apply tailErr_readByte|]. intros [b|e] He.
  - destruct (_ <? _); [|apply IH]. destruct (_ && _); [by apply tailErr_throw|apply tailErr_ret].
  - apply tailErr_throw. destruct (_ && _); [done|by apply He].
Qed.
Lemma peekError_untyped op f e : errIs e ErrUnknownType = false -> errIs (peekError op f e) ErrUnknownType = false.
Proof. intros He. unfold peekError. by destruct (_ || _). Qed.
Lemma tailErr_readPeekName op f allow : tailErr (readPeekName op f allow).
Proof.
  apply tailErr_bind.
  { apply tailErr_mapErr; [intros; by apply peekError_untyped|apply tailErr_ReadUvarint]. }
  intros n. destruct (_ <? n); [by apply tailErr_throw|]. destruct (n =? 0).
  - destruct allow; [apply tailErr_ret|by apply tailErr_throw].
  - apply tailErr_mapErr; [intros; by apply peekError_untyped|apply tailErr_ReadFull].
Qed.
Lemma tailErr_peekHeader op : tailErr (peekHeader op).
Proof.
  apply tailErr_bind; [apply tailErr_mapErr; [intros; by apply peekError_untyped|apply tailErr_readByte]|].
  intros v. destruct (_ && _); [by apply tailErr_throw|].
  apply tailErr_bind; [destruct (bool_decide _); [apply tailErr_readPeekName|apply tailErr_ret]|].
  intros codec. apply tailErr_bind; [apply tailErr_readPeekName|]. intros typ. apply tailErr_ret.
Qed.

(** ** The header read of a stored object *)
(** The header of a prefix is the header of the whole. *)
Lemma decodeEnvelopeHeader_prefix_of p data codec typ off :
  p `prefix_of` data -> decodeEnvelopeHeader p = Ok (codec, typ, off) -> decodeEnvelopeHeader data = Ok (codec, typ, off).
Proof.
  intros [rest ->] (v & raw & H & ->)%decodeEnvelopeHeader_inv.
  destruct (headerAt_prefix _ _ _ _ _ (drop off p ++ rest) H) as [_ H'].
  rewrite app_assoc, take_drop in H'. by apply decodeEnvelopeHeader_intro in H'.
Qed.

Section HeaderFacts.
Context {S : Type} (B : Backend S).
Context (inv quiet : S -> Prop) (key : Digest -> Prop) (abs : S -> gmap Digest bytes).
Context `{HB : !BackendSpec B inv quiet key abs}.

(** A header read changes nothing; the type it reports is the stored bytes' and
    it never reports an unknown one. *)
Lemma Header_inv d c s r c' s' :
  inv s -> Header B d c s = (r, c', s') ->
  inv s' /\ (quiet s -> quiet s') /\ abs s' = abs s /\
  match r with
  | Ok (_, _, typ) => exists data, abs s !! d = Some data /\ EnvelopeType data = Ok typ
  | Err e => errIs e ErrUnknownType = false
  end.
Proof.
  intros Hi H. unfold Header in H. mstep H as E with rc c1 s1; pose proof (bs_Get _ _ _ _ _ _ Hi E) as (Hi1 & Hq1 & Ha1 & Hr).
  2:{ split_and!; [done..|]. by destruct Hr. }
  destruct Hr as (data & Hd & (Hr & Ht & Hc) & _). unfold readThenClose, onReader in H.
  destruct (PeekHeader _ _) as [[rp c3] r3] eqn:EP. pose proof EP as EP'.
  apply (tailErr_peekHeader "peek header") in EP' as [_ He]; [|by apply (LimitReader_tail (fun e => errIs e ErrUnknownType = false))].
  destruct (rc_close rc) as [ce|] eqn:Ec; [simplify_eq/=; split_and!; auto|].
  destruct rp as [[[v codec] typ]|e]; simplify_eq/=; (split_and!; [done..|]); [|by apply He].
  apply peekHeader_inv in EP as (raw & off & HH & -> & _). exists data. split; [done|].
  apply decodeEnvelopeHeader_intro, (decodeEnvelopeHeader_prefix_of _ data) in HH; [|by apply LimitReader_prefix].
  unfold EnvelopeType. by rewrite HH.
Qed.
Lemma HeaderType_inv d c s r c' s' :
  inv s -> HeaderType B d c s = (r, c', s') ->
  inv s' /\ (quiet s -> quiet s') /\ abs s' = abs s /\
  match r with
  | Ok typ => exists data, abs s !! d = Some data /\ EnvelopeType data = Ok typ
  | Err e => errIs e ErrUnknownType = false
  end.
Proof.
  intros Hi H. unfold HeaderType in H. mstep H as E with x c1 s1; apply Header_inv in E; [|done..].
  destruct x as [[v codec] typ]. munfold. by simplify_eq.
Qed.

(** A header that fits the bound of the header read. *)
Definition fitsLimit (data codec typ : bytes) : Prop := exists off,
  decodeEnvelopeHeader data = Ok (codec, typ, off) /\ Z.of_nat off <= headerPrefixLimit /\
  blen codec <= maxPeekNameLen /\ blen typ <= maxPeekNameLen.

Lemma PeekHeader_limited c r codec typ : fitsLimit (rd_data r) codec typ ->
  exists v r', PeekHeader c (LimitReader headerPrefixLimit r) = (Ok (v, codec, typ), c, r').
Proof.
  intros (off & (v & raw & H & ->)%decodeEnvelopeHeader_inv & Ho & Hc & Ht).
  destruct (headerAt_prefix _ _ _ _ _ (take (Z.to_nat headerPrefixLimit - off) (drop off (rd_data r))) H) as [_ H'].
  rewrite take_take_drop, (Nat.add_comm off), Nat.sub_add, <- LimitReader_data in H' by lia.
  eapply (peekHeader_ok "peek header") in H' as (r' & Hr & _); [eauto|done|].
  unfold versionedName in Ht. destruct (containsAt raw); [done|]. rewrite length_app in Ht. simpl in Ht. lia.
Qed.

(** A quiet header read of an object, of a damaged one and of none. *)
Lemma HeaderType_quiet d s data :
  inv s -> quiet s -> abs s !! d = Some data ->
  exists s', inv s' /\ quiet s' /\ abs s' = abs s /\
    ((exists e, decodeEnvelopeHeader data = Err e) -> exists e c', HeaderType B d [] s = (Err e, c', s') /\ errIs e ErrCorrupt = true) /\
    (forall codec typ, fitsLimit data codec typ -> HeaderType B d [] s = (Ok typ, [], s')).
Proof.
  intros Hi Hq Hd. destruct (bs_Get_ok B inv quiet key abs d s data Hi Hq Hd) as (rc & s' & E & Hr & Ht & Hc & ? & ? & ?).
  exists s'. split_and!; [done..| |].
  - intros [e0 He0]. unfold HeaderType, Header.
    destruct (PeekHeader [] (LimitReader headerPrefixLimit (rc_reader rc))) as [[[[[v codec] typ]|e] c1] r1] eqn:EP.
    + apply peekHeader_inv in EP as (raw & off & HH%decodeEnvelopeHeader_intro & _).
      apply (decodeEnvelopeHeader_prefix_of _ data) in HH; [congruence|].
      rewrite LimitReader_data, Hr by done. exists (drop (Z.to_nat headerPrefixLimit) data). by rewrite take_drop.
    + apply peekHeader_err in EP as Hcor. exists (render (wrap "cas: read object header") e), c1. split; [|exact Hcor].
      erewrite bind_err; [reflexivity|]. erewrite bind_ok by exact E. unfold readThenClose, onReader. by rewrite EP, Hc.
  - intros codec typ Hf. rewrite <- Hr in Hf. apply (PeekHeader_limited []) in Hf as (v & r' & EP). unfold HeaderType, Header.
    erewrite (bind_ok _ _ _ _ (v, codec, typ)); [reflexivity|]. erewrite bind_ok by exact E.
    unfold readThenClose, onReader. by rewrite EP, Hc.
Qed.
End HeaderFacts.

(** ** Decoders and resolution *)
Section RegistryFacts.
Context {S : Type} {tag : Type} `{EqDecision tag} (sem : tag -> Type) (methods : forall t, Object (sem t)).
Context (B : Backend S) (inv quiet : S -> Prop) (key : Digest -> Prop) (abs : S -> gmap Digest bytes).
Context `{HB : !BackendSpec B inv quiet key abs}.
Abbreviation Reg := (Registry (S := S) sem).
Abbreviation Store t := (StoreOf (S := S) sem t).
Abbreviation Obj := (AnyObject sem).

(** What a decoder promises: it changes nothing, answers the object [f] finds in
    the stored bytes, and does not report an unknown type. *)
Class DecoderSpec (dec : Decoder sem) (f : bytes -> option Obj) : Prop :=
  decoder_sound : forall d c s r c' s', inv s -> dec B d c s = (r, c', s') ->
    inv s' /\ (quiet s -> quiet s') /\ abs s' = abs s /\
    match r with
    | Ok o => forall o', o = Some o' -> exists data, abs s !! d = Some data /\ f data = Some o'
    | Err e => asUnknownType e = None
    end.

(** A client's own errors are not the registry's. *)
Definition plainHasher (h : Hasher) : Prop := forall d e, hs_Validate h d = Some e -> asUnknownType e = None.
Record plainStore {t} (store : Store t) : Prop := {
  ps_hasher : plainHasher (so_hasher store);
  ps_codec : forall data e, cd_Decode (so_codec store) data = Err e -> asUnknownType e = None;
  ps_validate : forall validate v e, ob_Validate (methods t) = Some validate -> validate v = Some e -> asUnknownType e = None;
}.

Definition storeObject {t} (store : Store t) (data : bytes) : option Obj :=
  match decodeObject (so_codec store) (methods t) data with Ok v => Some (Known t v) | Err _ => None end.

Lemma check_plain h d what e : plainHasher h -> check h d what = Err e -> asUnknownType e = None.
Proof.
  unfold check, CheckDigest. munfold. intros Hh. destruct (IsZero d); [by intros [= <-]|].
  destruct (hs_Validate h d) as [e0|] eqn:E; [|done]. intros [= <-]. by apply Hh in E.
Qed.
Lemma decodeObject_plain {t} (store : Store t) data e :
  plainStore store -> decodeObject (so_codec store) (methods t) data = Err e -> asUnknownType e = None.
Proof.
  intros [_ Hc Hv]. unfold decodeObject, checkCodec, validateDecoded. munfold.
  destruct (decodeEnvelope data) as [env|e0] eqn:ED.
  2:{ intros [= <-]. apply asUnknownType_none. destruct (errIs e0 ErrUnknownType) eqn:Eu; [|done].
      by apply (decodeEnvelope_err_only _ _ _ ED) in Eu. }
  destruct (_ || _ || _); [|by intros [= <-]]. destruct (cd_Decode _ _) as [v|e0] eqn:Ed.
  - destruct (ob_isNil _ _); [by intros [= <-]|]. destruct (negb _); [by intros [= <-]|].
    destruct (ob_Validate _) as [validate|] eqn:EV; [|done]. destruct (validate v) as [e0|] eqn:Ev; [|done].
    intros [= <-]. simpl. by eapply Hv.
  - apply Hc in Ed. destruct (bool_decide _); intros [= <-]; done.
Qed.

Lemma Get_plain {t} (store : Store t) d c s e c' s' :
  so_backend store = B -> plainStore store -> inv s ->
  Get B (so_codec store) (methods t) (so_hasher store) d c s = (Err e, c', s') ->
  inv s' /\ (quiet s -> quiet s') /\ abs s' = abs s /\ asUnknownType e = None.
Proof.
  intros HBk Hp Hi H. unfold Get in H. mstep H as E with data c1 s1.
  { apply lift_inv in H as (H & -> & ->). apply GetRaw_inv with (HB := HB) in E as (? & ? & ? & _); [|done].
    split_and!; [done..|]. by eapply decodeObject_plain. }
  unfold GetRaw, GetReader in E. mstep E as E1 with rc c1 s1.
  2:{ mstep E1 as E2 with u c1 s1; [apply ctxErr_inv in E2 as ->|].
      2:{ pose proof E2 as ->%ctxErr_inv. apply ctxErr_err in E2. simplify_eq. split_and!; [done..|]. by destruct E2 as [-> | ->]. }
      mstep E1 as E2 with u' c2 s2; apply lift_inv in E2 as (E2 & -> & ->).
      2:{ split_and!; [done..|]. simplify_eq. symmetry in E2. eapply check_plain; [|exact E2]. apply Hp. }
      pose proof (bs_Get _ _ _ _ _ _ Hi E1) as (? & ? & ? & _ & Hu). simplify_eq. split_and!; [done..|by apply asUnknownType_none]. }
  mstep E1 as E2 with u c2 s2; apply ctxErr_inv in E2 as ->. mstep E1 as E2 with u' c3 s3; apply lift_inv in E2 as (_ & -> & ->).
  pose proof (bs_Get _ _ _ _ _ _ Hi E1) as (? & ? & ? & data & _ & (_ & Ht & Hc) & _).
  unfold readThenClose, onReader, ioReadAll in E. rewrite readAll_quiet in E.
  case_decide; [destruct (rc_close rc) as [ce|] eqn:Ec; [|done]|destruct (rc_close rc)]; simplify_eq/=; (split_and!; [done..|]);
    apply asUnknownType_none; auto.
Qed.

#[export] Instance storeDecoder_spec {t} (store : Store t) :
  so_backend store = B -> plainStore store -> DecoderSpec (storeDecoder sem methods store) (storeObject store).
Proof.
  intros HBk Hp d c s r c' s' Hi H. unfold storeDecoder in H. rewrite HBk in H. mstep H as E with v c1 s1.
  - munfold. simplify_eq. apply Get_inv with (HB := HB) in E as (? & ? & ? & data & Hd & Hdec); [|done].
    split_and!; [done..|]. intros o' [= <-]. exists data. split; [done|]. unfold storeObject. by rewrite Hdec.
  - by apply Get_plain in E.
Qed.

(** The registry reads [B], and [f] is what its decoders find. *)
Record registered (r : Reg) (f : bytes -> bytes -> option Obj) : Prop := {
  rg_backend : backend r = B;
  rg_hasher : plainHasher (hasher r);
  rg_decoders : forall typ dec, decoders r !! typ = Some dec -> DecoderSpec dec (f typ);
}.

Lemma registered_New h f : plainHasher h -> registered (NewRegistry sem B h) f.
Proof. intros Hh. by split. Qed.

Lemma Register_inv (r : Reg) n decode r' :
  Register sem r n decode = Ok r' ->
  n <> [] /\ decoders r !! n = None /\ exists dec, decode = Some dec /\
    r' = mkRegistry (backend r) (hasher r) (<[n := dec]> (decoders r)) (stores r).
Proof.
  unfold Register. case_bool_decide; [done|]. destruct decode as [dec|]; [|done].
  case_bool_decide as Hn; [done|]. intros [= <-]. split_and!; [done| |eauto].
  destruct (decoders r !! n) eqn:E; [|done]. by destruct Hn.
Qed.
Lemma RegisterStore_inv {t} (r : Reg) n (store : option (Store t)) r' :
  RegisterStore sem methods r n store = Ok r' ->
  n <> [] /\ decoders r !! n = None /\ exists st, store = Some st /\
    r' = mkRegistry (backend r) (hasher r) (<[n := storeDecoder sem methods st]> (decoders r)) (<[n := existT t st]> (stores r)).
Proof.
  unfold RegisterStore. destruct store as [st|]; [|done]. unfold mbind, res_bind.
  destruct (Register _ _ _ _) as [r1|] eqn:E; [|done]. apply Register_inv in E as (Hn & Hd & dec & [= <-] & ->).
  intros [= <-]. split_and!; [done..|]. by exists st.
Qed.

Lemma RegisterStore_ok {t} (r : Reg) n (store : Store t) : n <> [] -> decoders r !! n = None ->
  is_ok (RegisterStore sem methods r n (Some store)) = true.
Proof. intros Hn Hd. unfold RegisterStore, Register. by rewrite bool_decide_eq_false_2, Hd, bool_decide_eq_false_2 by (done || by intros []). Qed.

(** Registering a store adds its decoder. *)
Lemma registered_RegisterStore {t} r f n (store : Store t) r' :
  registered r f -> so_backend store = B -> plainStore store ->
  RegisterStore sem methods r n (Some store) = Ok r' ->
  registered r' (fun typ => if decide (typ = n) then storeObject store else f typ).
Proof.
  intros [Hb Hh Hd] HBk Hp (Hn & Hnew & st & [= <-] & ->)%RegisterStore_inv. split; [done..|].
  intros typ dec. cbn [decoders]. case_decide as E.
  - subst. rewrite lookup_insert_eq. intros [= <-]. by apply storeDecoder_spec.
  - rewrite lookup_insert_ne by done. apply Hd.
Qed.

(** The object a map of stored bytes holds at a digest, as a registry reads it. *)
Definition classify (r : Reg) (f : bytes -> bytes -> option Obj) (m : gmap Digest bytes) (d : Digest)
    : option Obj :=
  data ← m !! d;
  match EnvelopeType data with
  | Err _ => None
  | Ok typ =>
    match decoders r !! typ with
    | Some _ => f typ data
    | None => Some (Unknown (mkUnknownObject d typ (UnknownType d typ)))
    end
  end.

Lemma Resolve_inv r f d c s x c' s' :
  registered r f -> inv s -> Resolve sem r d c s = (x, c', s') ->
  inv s' /\ (quiet s -> quiet s') /\ abs s' = abs s /\
  match x with
  | Ok o => classify r f (abs s) d = Some o
  | Err e => forall u, asUnknownType e = Some u -> exists typ data, u = (d, typ) /\ e = UnknownType d typ /\
      abs s !! d = Some data /\ EnvelopeType data = Ok typ /\ decoders r !! typ = None
  end.
Proof.
  intros [Hb Hh Hdec] Hi H. unfold Resolve in H. mstep H as E; apply lift_inv in E as (E & -> & ->).
  2:{ split_and!; [done..|]. unfold CheckDigest in E. destruct (IsZero d); by simplify_eq. }
  mstep H as E'; apply lift_inv in E' as (E' & -> & ->).
  2:{ split_and!; [done..|]. destruct (hs_Validate (hasher r) d) as [e|] eqn:EV; [|done]. simplify_eq/=. by rewrite (Hh _ _ EV). }
  rewrite Hb in H. mstep H as E1 with typ c1 s1; apply HeaderType_inv with (HB := HB) in E1 as (Hi1 & Hq1 & Ha1 & Hr); try done.
  2:{ split_and!; [done..|]. by rewrite asUnknownType_none. }
  destruct Hr as (data & Hd & Htyp). unfold classify. rewrite Hd. cbn. rewrite Htyp.
  destruct (decoders r !! typ) as [dec|] eqn:Ed.
  - mstep H as E2 with ox c2 s2; apply mapErr_inv in E2 as (r0 & E2 & Hr0); destruct (Hdec _ _ Ed _ _ _ _ _ _ Hi1 E2) as (Hi2 & Hq2 & Ha2 & Hf);
      destruct r0 as [o|e]; simplify_eq/=; rewrite Ha1 in Ha2.
    + destruct o as [o|]; munfold; simplify_eq; (split_and!; [done|auto|done|]); [|done].
      destruct (Hf o eq_refl) as (data' & Hd' & Hf'). rewrite Ha1 in Hd'. by simplify_eq.
    + split_and!; [done|auto|done|]. by rewrite Hf.
  - munfold. simplify_eq. split_and!; [done..|]. intros u [= <-]. eauto 10.
Qed.

Lemma resolveNode_inv r f d c s node refs c' s' :
  registered r f -> inv s -> resolveNode sem (Resolve sem r) d c s = (Ok (node, refs), c', s') ->
  inv s' /\ (quiet s -> quiet s') /\ abs s' = abs s /\ refs = None /\
  exists o, node = Some o /\ classify r f (abs s) d = Some o.
Proof.
  intros Hr Hi H. unfold resolveNode in H. apply bind_attempt in H as (x & c1 & s1 & E & H).
  eapply Resolve_inv in E as (Hi1 & Hq1 & Ha1 & Hx); [|done..]. destruct x as [o|e].
  - munfold. simplify_eq. eauto 10.
  - destruct (asUnknownType e) as [[d' typ]|] eqn:Eu; [|by munfold]. munfold. simplify_eq.
    destruct (Hx _ eq_refl) as (typ' & data & [= -> ->] & -> & Hd & Ht & Hn). split_and!; [done..|].
    eexists. split; [done|]. unfold classify. rewrite Hd. cbn. by rewrite Ht, Hn.
Qed.

(** ** The walk over a registry *)
Definition registryGraph (r : Reg) (f : bytes -> bytes -> option Obj) (m : gmap Digest bytes) (d : Digest) : list Digest :=
  match classify r f m d with Some o => default [] (References sem methods o) | None => [] end.

Lemma Walk_sound {U} (visit : Digest -> Obj -> M U unit) (P : gset Digest -> U -> Prop) r f fuel roots c s u c' s' u' :
  registered r f -> inv s -> P ∅ u ->
  (forall V d o c u c' u', P V u -> d ∉ V -> classify r f (abs s) d = Some o -> visit d o c u = (Ok tt, c', u') -> P ({[d]} ∪ V) u') ->
  Walk sem methods (Resolve sem r) visit fuel roots c (s, u) = (Ok tt, c', (s', u')) ->
  inv s' /\ (quiet s -> quiet s') /\ abs s' = abs s /\
  exists V, P V u' /\ forall d, d ∈ V <-> reach (registryGraph r f (abs s)) roots d.
Proof.
  intros Hr Hi HP Hstep H. unfold Walk in H.
  eapply (WalkDigests_sound (registryGraph r f (abs s)) _ _ _ roots
    (fun V st => (inv st.1 /\ (quiet s -> quiet st.1) /\ abs st.1 = abs s) /\ P V st.2)) in H
    as (V & [(Hi' & Hq' & Ha') HP'] & HV); [by eauto 10| |done].
  intros V [s0 u0] d c0 c1 s1 node refs0 c2 s2 [(Hi0 & Hq0 & Ha0) HP0] Hd _ E1 E2. cbn [fst snd] in *.
  apply onFst_inv in E1 as [E1 Eu]. cbn [fst snd] in *.
  eapply resolveNode_inv in E1 as (Hi1 & Hq1 & Ha1 & -> & o & -> & Hc); [|done..]. rewrite Ha0 in *.
  apply onSnd_inv in E2 as [E2 Es]. rewrite Eu in E2. rewrite Es. split; [|unfold registryGraph; by rewrite Hc].
  split; [by auto|]. by eapply Hstep.
Qed.

(** Every digest a walk reached is stored and readable. *)
Definition markedAll (m : gmap Digest bytes) (r : Reg) (f : bytes -> bytes -> option Obj) (V : gset Digest) (k : gmap bytes bool) : Prop :=
  (forall d, default false (k !! DString d) = true <-> d ∈ V) /\ forall d, d ∈ V -> is_Some (classify r f m d).

Lemma repo_Reachable_sound r f fuel roots c s k c' s' :
  registered r f -> inv s -> Reachable sem methods (Resolve sem r) fuel roots c s = (Ok k, c', s') ->
  inv s' /\ (quiet s -> quiet s') /\ abs s' = abs s /\
  (forall d, default false (k !! DString d) = true <-> reach (registryGraph r f (abs s)) roots d) /\
  (forall d, reach (registryGraph r f (abs s)) roots d -> is_Some (classify r f (abs s) d)).
Proof.
  intros Hr Hi H. unfold Reachable in H. destruct (Walk _ _ _ _ _ _ _ _) as [[[[]|e] c1] [s1 k1]] eqn:E; [|done]. simplify_eq.
  eapply (Walk_sound _ (markedAll (abs s) r f)) in E as (? & ? & ? & V & [Hk Hc] & HV); [|done..| |].
  - split_and!; [done..| |]; intros d; rewrite <- HV; auto.
  - split; intros d; set_solver.
  - intros V d o c0 u c0' u' [Hk Hc] Hd Hcl Hv. unfold modify in Hv. simplify_eq. split.
    + intros x. destruct (decide (x = d)) as [->|Hx]; [rewrite lookup_insert_eq; set_solver|].
      rewrite lookup_insert_ne, Hk by (by intros ?%(inj DString)). set_solver.
    + intros x [->%elem_of_singleton|Hx]%elem_of_union; [by eexists|auto].
Qed.

(** A walk over a registry visits every object that a path of
    references leads to, of whatever registered type, exactly once and as its
    decoder reads it; an object whose type has no decoder is visited too, as an
    unknown object without references, and nothing is modified.  The statement
    is about every walk that ends without an error, under any context and with
    any failing medium: a read that fails is never taken for an unknown type. *)
Theorem repo_Walk_once (r : Reg) (f : bytes -> bytes -> option Obj) (fuel : nat) (roots : list Digest) (c c' : ctx) (s s' : S) (l : list (Digest * Obj)) :
  registered r f -> inv s ->
  Walk sem methods (Resolve sem r) (fun d o => modify (fun l => l ++ [(d, o)])) fuel roots c (s, []) = (Ok tt, c', (s', l)) ->
  abs s' = abs s /\ NoDup l.*1 /\
  (forall d, d ∈ l.*1 <-> reach (registryGraph r f (abs s)) roots d) /\
  Forall (fun x => classify r f (abs s) x.1 = Some x.2) l.
Proof.
  intros Hr Hi H.
  eapply (Walk_sound _ (fun V (l : list (Digest * Obj)) => NoDup l.*1 /\ (forall d, d ∈ l.*1 <-> d ∈ V) /\
    Forall (fun x => classify r f (abs s) x.1 = Some x.2) l)) in H as (_ & _ & Ha & V & (Hn & Hl & Hc) & HV); [|done..| |].
  - split_and!; [done..| |done]. intros d. by rewrite Hl.
  - split_and!; [constructor|set_solver|constructor].
  - intros V d o c0 l0 c0' l0' (Hn & Hl & Hc) Hd Hcl Hv. unfold modify in Hv. simplify_eq. rewrite fmap_app. split_and!.
    + apply list.NoDup_app. split_and!; [done| |apply list.NoDup_singleton].
      intros y Hy ->%list_elem_of_singleton. by apply Hd, Hl.
    + intros y. rewrite elem_of_app, Hl. set_solver.
    + apply Forall_app. split; [done|by constructor].
Qed.

(** C8. Garbage collection over a typed graph is safe: after a sweep that
    keeps what the registry's Reachable answered, whatever interrupts it, every
    object a path from a root leads to, of any registered or unknown type, is
    stored and reads as the same object as before. *)
Theorem repo_collect_keeps (r : Reg) (f : bytes -> bytes -> option Obj) (fuel : nat) (roots : list Digest) (k : gmap bytes bool) (now : Z) (opts : SweepOptions)
    (c c1 c2 c' : ctx) (s s1 s' : S) (x : res (list Digest)) :
  (forall sz modTime, bk_Statter B = Some (sz, modTime) -> pureStatter inv quiet abs (Some modTime)) ->
  registered r f -> inv s ->
  Reachable sem methods (Resolve sem r) fuel roots c s = (Ok k, c1, s1) ->
  Sweep B k now opts c2 s1 = (x, c', s') ->
  forall d, reach (registryGraph r f (abs s)) roots d ->
    is_Some (classify r f (abs s') d) /\ classify r f (abs s') d = classify r f (abs s) d.
Proof.
  intros Hp Hr Hi HR HS d Hd. apply (repo_Reachable_sound r f) in HR as (Hi1 & _ & Ha1 & Hk & Hc); [|done..].
  apply Sweep_sound with (HB := HB) in HS as (_ & Ha & _); [|done..].
  assert (E : classify r f (abs s') d = classify r f (abs s) d); [|split; [rewrite E; auto|done]].
  unfold classify. destruct (Ha d) as [-> |(_ & Hm & _)]; [by rewrite Ha1|]. destruct Hm. by apply Hk.
Qed.

(** Where an error says that a type is unknown. *)
Definition unknownOf {A} (x : res A) : option (Digest * bytes) :=
  match x with Ok _ => None | Err e => asUnknownType e end.

(** Resolve tells apart an object it cannot find, one it cannot read and
    one whose type it does not know: on a working medium an absent object is
    [ErrNotFound], a frame that does not parse is [ErrCorrupt], a type without a
    decoder is exactly the [*UnknownTypeError] that names digest and type, and
    everything else is the decoder's answer.  Only the unknown type is reported
    as one, so a caller that skips unknown types never skips damage. *)
Theorem repo_Resolve_outcomes (r : Reg) (f : bytes -> bytes -> option Obj) (d : Digest) (s : S) :
  registered r f -> inv s -> quiet s -> key d -> hs_Validate (hasher r) d = None ->
  let x := run_res (Resolve sem r d [] s) in
  match abs s !! d with
  | None => res_errIs x ErrNotFound = true /\ unknownOf x = None
  | Some data =>
    match decodeEnvelopeHeader data with
    | Err _ => res_errIs x ErrCorrupt = true /\ unknownOf x = None
    | Ok (codec, typ, off) =>
      Z.of_nat off <= headerPrefixLimit -> blen codec <= maxPeekNameLen -> blen typ <= maxPeekNameLen ->
      match decoders r !! typ with
      | None => x = Err (UnknownType d typ)
      | Some _ => unknownOf x = None /\ forall o, x = Ok o -> f typ data = Some o
      end
    end
  end.
Proof.
  intros Hr Hi Hq Hk Hv x. pose proof (bs_key_nonzero d Hk) as Hne.
  destruct (Resolve sem r d [] s) as [[x0 c'] s'] eqn:ER. subst x. cbn [run_res fst].
  pose proof ER as (_ & _ & _ & Hx)%(Resolve_inv r f); [|done..].
  unfold Resolve in ER. erewrite bind_ok in ER by (unfold lift; by rewrite CheckDigest_ok).
  erewrite bind_ok in ER by (unfold lift; by rewrite Hv). rewrite (rg_backend _ _ Hr) in ER.
  unfold classify in Hx. destruct (abs s !! d) as [data|] eqn:Hd; cbn in Hx.
  - destruct (HeaderType_quiet B inv quiet key abs d s data Hi Hq Hd) as (s1 & _ & _ & _ & Hcor & Hok).
    destruct (decodeEnvelopeHeader data) as [[[codec typ] off]|e] eqn:EH; cbn in Hx.
    + intros Ho Hc Ht. erewrite bind_ok in ER by (apply (Hok codec typ); by exists off).
      assert (HT : EnvelopeType data = Ok typ) by (unfold EnvelopeType; by rewrite EH). rewrite HT in Hx.
      destruct (decoders r !! typ) as [dec|] eqn:Edec; [|munfold; by simplify_eq]. destruct x0 as [o|e]; cbn.
      * split; [done|]. by intros o' [= <-].
      * split; [|done]. destruct (asUnknownType e) as [u|]; [|done].
        destruct (Hx u eq_refl) as (typ' & data' & _ & _ & [= <-] & Ht' & ?). congruence.
    + destruct (Hcor ltac:(eauto)) as (e1 & c1 & E1 & He1). erewrite bind_err in ER by exact E1. simplify_eq. cbn. split; [done|].
      destruct (asUnknownType e1) as [u|]; [|done]. destruct (Hx u eq_refl) as (? & ? & _ & _ & [= <-] & Ht' & _).
      unfold EnvelopeType in Ht'. by rewrite EH in Ht'.
  - destruct (bs_Get_missing d s Hi Hq Hk Hd) as (e & s1 & E & He).
    erewrite bind_err in ER by (unfold HeaderType, Header; erewrite bind_err; [done|]; by erewrite bind_err by exact E).
    simplify_eq. cbn. split; [done|]. destruct (asUnknownType e) as [u|]; [|done]. by destruct (Hx u eq_refl) as (? & ? & _ & _ & ? & _).
Qed.

(** Where the type name of an encoded frame ends. *)
Lemma encode_fitsLimit codec typ payload :
  typ <> [] -> containsAt typ = true -> blen codec <= maxPeekNameLen -> blen typ <= maxPeekNameLen ->
  blen codec + blen typ + 21 <= headerPrefixLimit -> fitsLimit (encodeEnvelope codec typ payload) codec typ.
Proof.
  unfold maxPeekNameLen. intros Hne Hat Hc Ht Hl. eexists. split; [|split_and!; [|done..]].
  - rewrite encodeEnvelope_fields, decodeEnvelopeHeader_encode by (done || lia). unfold versionedName. by rewrite Hat.
  - rewrite !length_app. unfold field. rewrite !length_app.
    pose proof (PutUvarint_length (blen codec)). pose proof (PutUvarint_length (blen typ)). simpl. lia.
Qed.

(** C9. What a registered store wrote, the registry resolves: after a
    store is registered under a type name and an object of that type is put
    through it, Resolve at the returned digest gives back that object with its
    Go type, and LookupStore gives back the very store. *)
Theorem repo_Resolve_after_Put (r r' : Reg) (f : bytes -> bytes -> option Obj) (t : tag) (n : bytes) (store : Store t)
    (hash : bytes -> Digest) (v : sem t) (c c' : ctx) (s s1 : S) (d : Digest) :
  registered r f -> so_backend store = B -> plainStore store -> HasherSpec (so_hasher store) hash ->
  RegisterStore sem methods r n (Some store) = Ok r' ->
  inv s -> quiet s -> ob_Type (methods t) v = n -> hs_Validate (hasher r) d = None ->
  (forall payload, cd_Encode (so_codec store) v = Ok payload -> cd_Decode (so_codec store) payload = Ok v /\ blen payload < 2^64) ->
  blen (codecNameOf (so_codec store)) <= maxPeekNameLen -> blen n <= maxPeekNameLen ->
  blen (codecNameOf (so_codec store)) + blen n + 21 <= headerPrefixLimit ->
  Put B (so_codec store) (methods t) (so_hasher store) v c s = (Ok d, c', s1) ->
  (forall data, abs s !! d = Some data -> encoded (so_codec store) (methods t) (so_hasher store) v = Ok (d, data)) ->
  run_res (Resolve sem r' d [] s1) = Ok (Known t v) /\ LookupStore sem t r' n = Ok store.
Proof.
  intros Hr HBk Hp HH HR Hi Hq Hn Hv Hrt Hc Ht Hl H Hfresh.
  apply RegisterStore_inv in HR as (_ & _ & st & [= <-] & ->). split.
  2:{ unfold LookupStore. cbn [stores]. rewrite lookup_insert_eq. destruct (decide (t = t)) as [E|]; [|done].
      by rewrite (proof_irrel E eq_refl). }
  apply (Put_inv B (so_codec store) (methods t) (so_hasher store) inv quiet key abs) in H as (data & HE & Hi1 & Hq1 & Hk & Hpp); [|done].
  specialize (Hq1 Hq).
  assert (Hst : abs s1 !! d = Some data).
  { destruct Hpp as [-> |[[old Hold] ->]]; [apply lookup_insert_eq|]. pose proof (Hfresh _ Hold). congruence. }
  pose proof HE as (payload & Hpl & HEE & Hd & Hne & Hvs & _)%(encoded_inv (so_codec store) (methods t) (so_hasher store) hash HH).
  apply EncodeEnvelope_ok in HEE as (Hne' & Hat & ->). rewrite Hn in *.
  destruct (HeaderType_quiet B inv quiet key abs d s1 _ Hi1 Hq1 Hst) as (s2 & Hi2 & Hq2 & Ha2 & _ & Hok).
  unfold Resolve. cbn [hasher backend decoders]. erewrite bind_ok by (unfold lift; by rewrite CheckDigest_ok).
  erewrite bind_ok by (unfold lift; by rewrite Hv). rewrite (rg_backend _ _ Hr).
  erewrite bind_ok by (apply (Hok (codecNameOf (so_codec store))); by apply encode_fitsLimit). rewrite lookup_insert_eq. unfold storeDecoder. rewrite HBk.
  rewrite <- Ha2 in Hst.
  destruct (Get_found B (so_codec store) (methods t) (so_hasher store) inv quiet key abs d s2 _ Hi2 Hq2 Hvs Hst) as (s3 & E & _).
  rewrite (decodeObject_encoded (so_codec store) (methods t) (so_hasher store) hash HH v d) in E;
    [|done|done|unfold maxPeekNameLen in *; lia|rewrite Hn; unfold maxPeekNameLen in *; lia].
  eapply bind_ok with (f := fun obj => mret (Some (Known (sem := sem) t obj))) in E. unfold mbind, M_bind, mapErr in *. by rewrite E.
Qed.
End RegistryFacts.

(** ** The bound of the header read falls short of two maximal names *)

(** Two names of the greatest length each field may have, and an object
    that carries them, stored whole. *)
Definition longCodec : bytes := replicate 4096 x63.
Definition longType : bytes := x40 :: replicate 4095 x74.
Definition longObject : bytes := encodeEnvelope longCodec longType (str "v").

(** An undamaged object whose codec tag and type name both have the length
    the peek allows is written and decoded, and its header peeks, yet the bounded
    header read of it is [ErrCorrupt]: two maximal fields with their length
    prefixes and the version byte are longer than [headerPrefixLimit]. *)
Theorem header_limit_short :
  EncodeEnvelope longCodec longType (str "v") = Ok longObject /\
  blen longCodec = maxPeekNameLen /\ blen longType = maxPeekNameLen /\
  EnvelopeType longObject = Ok longType /\
  run_res (PeekHeader [] (bytesReader longObject)) = Ok (envelopeVersion, longCodec, longType) /\
  res_errIs (run_res (HeaderType Mem.Backend (str "k") [] (Mem.mkMem {[str "k" := longObject]} 0 (blen longObject)))) ErrCorrupt = true.
Proof. split_and!; vm_compute; reflexivity. Qed.

(** ** A registry of blobs and of trees that list digests, over the memory backend *)
Inductive sampleType := Blob | Tree.
#[export] Instance sampleType_eq_dec : EqDecision sampleType.
Proof. solve_decision. Defined.
Definition sampleSem (t : sampleType) : Type := match t with Blob => bytes | Tree => list Digest end.
Definition sampleMethods (t : sampleType) : Object (sampleSem t) :=
  match t with
  | Blob => mkObject (fun _ => str "blob@1") (fun _ => None) None (fun _ => false)
  | Tree => mkObject (fun _ => str "tree@1") (fun v => Some v) None (fun _ => false)
  end.
(** A tree is the concatenation of its four-byte digests. *)
Fixpoint chunks4 (data : bytes) : res (list Digest) :=
  match data with
  | [] => Ok []
  | a :: b :: c :: d :: rest => l ← chunks4 rest; Ok ([a; b; c; d] :: l)
  | _ => Err (New "tree: short digest")
  end.
Definition treeCodec : Codec (list Digest) :=
  mkCodec (fun v => if decide (Forall (fun d => length d = 4%nat) v) then Ok (concat v) else Err (New "tree: bad digest"))
    chunks4 (Some (str "tree")).
Definition blobStore : StoreOf sampleSem Blob := mkStoreOf Mem.Backend (rawCodec : Codec (sampleSem Blob)) sumHasher.
Definition treeStore : StoreOf sampleSem Tree := mkStoreOf Mem.Backend (treeCodec : Codec (sampleSem Tree)) sumHasher.

Definition sampleEmpty : Registry (S := Mem.Mem) sampleSem := NewRegistry sampleSem Mem.Backend sumHasher.
Definition sampleRegistry : Registry (S := Mem.Mem) sampleSem :=
  match (r ← RegisterStore sampleSem sampleMethods sampleEmpty (str "blob@1") (Some blobStore);
         RegisterStore sampleSem sampleMethods r (str "tree@1") (Some treeStore)) with
  | Ok r => r
  | Err _ => sampleEmpty
  end.
Definition sampleFind (typ : bytes) : bytes -> option (AnyObject sampleSem) :=
  if decide (typ = str "tree@1") then storeObject sampleSem sampleMethods treeStore
  else if decide (typ = str "blob@1") then storeObject sampleSem sampleMethods blobStore
  else fun _ => None.

Lemma sumHasher_plain : plainHasher sumHasher.
Proof. intros d e. unfold sumHasher, copyHasher. cbn [hs_Validate]. repeat case_decide; intros [= <-]; done. Qed.
Lemma blobStore_plain : plainStore sampleSem sampleMethods blobStore.
Proof. split; [apply sumHasher_plain|done|done]. Qed.
Lemma chunks4_plain n data e : (length data <= n)%nat -> chunks4 data = Err e -> asUnknownType e = None.
Proof.
  revert data. induction n as [|n IH]; intros [|a [|b [|c [|d rest]]]] Hl; cbn [chunks4]; try done; try (by intros [= <-]); simpl in Hl; [lia|].
  munfold. destruct (chunks4 rest) as [l|e'] eqn:E; [done|]. intros [= ->]. apply (IH rest); [lia|done].
Qed.
Lemma treeStore_plain : plainStore sampleSem sampleMethods treeStore.
Proof. split; [apply sumHasher_plain| |done]. intros data e. by eapply (chunks4_plain (length data)). Qed.

Abbreviation sampleRegistered := (registered sampleSem Mem.Backend Mem.inv (fun _ : Mem.Mem => True) Mem.objects).
Lemma sampleRegistry_registered : sampleRegistered sampleRegistry sampleFind.
Proof.
  pose proof (RegisterStore_ok sampleSem sampleMethods sampleEmpty (str "blob@1") blobStore ltac:(done) ltac:(done)) as H1.
  unfold sampleRegistry. destruct (RegisterStore _ _ sampleEmpty _ _) as [r1|] eqn:E1; [|done]. clear H1.
  assert (H2 : decoders r1 !! str "tree@1" = None).
  { apply RegisterStore_inv in E1 as (_ & _ & st & [= <-] & ->). cbn [decoders]. by rewrite lookup_insert_ne by done. }
  pose proof (RegisterStore_ok sampleSem sampleMethods r1 (str "tree@1") treeStore ltac:(done) H2) as H3.
  cbn [mbind res_bind]. destruct (RegisterStore _ _ r1 _ _) as [r2|] eqn:E2; [|done].
  eapply (registered_RegisterStore sampleSem sampleMethods Mem.Backend Mem.inv (fun _ => True) Mem.key Mem.objects (HB := Mem.mem_BackendSpec)) in E1;
    [|by apply (registered_New sampleSem Mem.Backend _ _ _ sumHasher (fun _ _ => None)), sumHasher_plain|done|apply blobStore_plain].
  eapply (registered_RegisterStore sampleSem sampleMethods Mem.Backend Mem.inv (fun _ => True) Mem.key Mem.objects (HB := Mem.mem_BackendSpec)) in E2; [|exact E1|done|apply treeStore_plain].
  exact E2.
Qed.

(** A blob, an object of a type nobody registered, and a tree of both. *)
Definition blobData : bytes := encodeEnvelope (str "raw") (str "blob@1") (str "hi").
Definition alienData : bytes := encodeEnvelope (str "raw") (str "alien@1") (str "?").
Definition treeOf : list Digest := [sumHash blobData; sumHash alienData; sumHash blobData].
Definition treeData : bytes := encodeEnvelope (str "tree") (str "tree@1") (concat treeOf).
Definition sampleObjects : Mem.Mem :=
  Mem.mkMem {[sumHash blobData := blobData; sumHash alienData := alienData; sumHash treeData := treeData]} 0
    (blen blobData + blen alienData + blen treeData).
Lemma sampleObjects_inv : Mem.inv sampleObjects.
Proof. split; vm_compute; try reflexivity; intros; discriminate. Qed.

Definition sampleLog : list (Digest * AnyObject sampleSem) :=
  [(sumHash treeData, Known (sem := sampleSem) Tree treeOf); (sumHash blobData, Known (sem := sampleSem) Blob (str "hi"));
   (sumHash alienData, Unknown (mkUnknownObject (sumHash alienData) (str "alien@1") (UnknownType (sumHash alienData) (str "alien@1"))))].
Lemma sample_repo_Walk :
  Walk sampleSem sampleMethods (Resolve sampleSem sampleRegistry) (fun d o => modify (fun l => l ++ [(d, o)]))
    9 [sumHash treeData] [] (sampleObjects, []) = (Ok tt, [], (sampleObjects, sampleLog)).
Proof. vm_compute. reflexivity. Qed.

Example repo_Walk_once_witness :
  NoDup sampleLog.*1 /\
  forall d, d ∈ sampleLog.*1 <->
    reach (registryGraph sampleSem sampleMethods sampleRegistry sampleFind (Mem.objects sampleObjects)) [sumHash treeData] d.
Proof.
  destruct (repo_Walk_once sampleSem sampleMethods Mem.Backend Mem.inv (fun _ => True) Mem.key Mem.objects
    (HB := Mem.mem_BackendSpec) sampleRegistry sampleFind 9 [sumHash treeData] [] [] sampleObjects sampleObjects sampleLog
    sampleRegistry_registered sampleObjects_inv sample_repo_Walk) as (_ & H2 & H3 & _).
  split; [exact H2|exact H3].
Defined.

Definition sampleMarked : gmap bytes bool :=
  {[DString (sumHash treeData) := true; DString (sumHash blobData) := true; DString (sumHash alienData) := true]}.
Lemma sample_repo_Reachable :
  Reachable sampleSem sampleMethods (Resolve sampleSem sampleRegistry) 9 [sumHash treeData] [] sampleObjects =
    (Ok sampleMarked, [], sampleObjects).
Proof. vm_compute. reflexivity. Qed.
Definition sweepNow : SweepOptions := mkSweepOptions 0 false.
Lemma sample_repo_Sweep : Sweep Mem.Backend sampleMarked 0 sweepNow [] sampleObjects = (Ok [], [], sampleObjects).
Proof. vm_compute. reflexivity. Qed.

Example repo_collect_keeps_witness :
  is_Some (classify sampleSem sampleRegistry sampleFind (Mem.objects sampleObjects) (sumHash treeData)).
Proof.
  refine (proj1 (repo_collect_keeps sampleSem sampleMethods Mem.Backend Mem.inv (fun _ => True) Mem.key Mem.objects
    (HB := Mem.mem_BackendSpec) sampleRegistry sampleFind 9 [sumHash treeData] sampleMarked 0 sweepNow [] [] [] []
    sampleObjects sampleObjects sampleObjects (Ok []) _ sampleRegistry_registered sampleObjects_inv sample_repo_Reachable
    sample_repo_Sweep (sumHash treeData) _)).
  - done.
  - exists (sumHash treeData). split_and!; [by left|done|apply rtc_refl].
Defined.

Example repo_Resolve_outcomes_witness :
  run_res (Resolve sampleSem sampleRegistry (sumHash alienData) [] sampleObjects) =
    Err (UnknownType (sumHash alienData) (str "alien@1")).
Proof.
  exact (repo_Resolve_outcomes sampleSem Mem.Backend Mem.inv (fun _ => True) Mem.key Mem.objects
    (HB := Mem.mem_BackendSpec) sampleRegistry sampleFind (sumHash alienData) sampleObjects
    sampleRegistry_registered sampleObjects_inv I ltac:(done) eq_refl ltac:(done) ltac:(done) ltac:(done)).
Defined.

Definition afterPut : Mem.Mem := Mem.mkMem {[sumHash blobData := blobData]} 0 (blen blobData).
Lemma sample_Put : Put Mem.Backend rawCodec (sampleMethods Blob) sumHasher (str "hi") [] (Mem.New 0) = (Ok (sumHash blobData), [], afterPut).
Proof. vm_compute. reflexivity. Qed.
Definition sampleBlobs : Registry (S := Mem.Mem) sampleSem :=
  mkRegistry Mem.Backend sumHasher {[str "blob@1" := storeDecoder sampleSem sampleMethods blobStore]} {[str "blob@1" := existT Blob blobStore]}.
Lemma sampleBlobs_registered : RegisterStore sampleSem sampleMethods sampleEmpty (str "blob@1") (Some blobStore) = Ok sampleBlobs.
Proof. reflexivity. Qed.

Example repo_Resolve_after_Put_witness :
  run_res (Resolve sampleSem sampleBlobs (sumHash blobData) [] afterPut) = Ok (Known (sem := sampleSem) Blob (str "hi")).
Proof.
  refine (proj1 (repo_Resolve_after_Put sampleSem sampleMethods Mem.Backend Mem.inv (fun _ => True) Mem.key Mem.objects
    (HB := Mem.mem_BackendSpec) sampleEmpty sampleBlobs (fun _ _ => None) Blob (str "blob@1") blobStore sumHash (str "hi")
    [] [] (Mem.New 0) afterPut (sumHash blobData) _ eq_refl blobStore_plain sumHasher_spec sampleBlobs_registered
    _ I eq_refl eq_refl _ _ _ _ sample_Put _)).
  - apply (registered_New sampleSem Mem.Backend _ _ _ sumHasher), sumHasher_plain.
  - by apply Mem.mem_New_inv.
  - intros payload [= <-]. split; done.
  - done.
  - done.
  - done.
  - intros data Hd. exfalso. clear -Hd. vm_compute in Hd. discriminate.
Defined.
