(* ===== verification/Sidecar.v ===== *)
(** Sidecar checksums (src/cas/verify/sidecar): a decorator of any backend that
    keeps a checksum record beside each object, its record store, the verifier
    of the stored bytes against the records and the reconciliation.

    The record directory is a directory of the base that holds no objects, so
    the state keeps the decorated backend's own state beside the disk on which
    the records are ([[]] is the base). *)

From S2P Require Import Prelude Digest Binary Stream Envelope Backend Store FileSystem AtomicFile OsFile RefText.

Module Sidecar.

(** [Record]; a time is nanoseconds since the zero time. *)
Record SidecarRecord := mkRecord {
  Version : Z;
  RDigest : Digest;
  Type_ : bytes;
  Codec_ : bytes;
  ChecksumAlgo : bytes;
  Checksum : Digest;
  Size : Z;
  CreatedAt : Z;
}.

Definition RecordVersion : Z := 1.
Definition DefaultMaxRecordBytes : Z := 4096.
Definition defaultPrefixBytes : Z := 4096.
Definition metaDirName : bytes := str ".meta".
Definition recordSuffix : bytes := str ".json".

(** [ErrUnrecorded], the package variable that wraps [cas.ErrNotFound]. *)
Definition errUnrecorded : error := Errorf2 "%w: sidecar: object has no checksum record" ErrNotFound ErrUnrecorded.

(** ** Options *)
Record config := mkConfig {
  base : bytes;
  algo : bytes;
  hasher : option Hasher;
  dirSync : bool;
  maxRecordBytes : Z;
}.

Inductive Option_ :=
  | WithBase (path : bytes)
  | WithChecksum (algo : bytes) (h : option Hasher)
  | WithDirSync
  | WithMaxRecordBytes (n : Z).

Definition option_ (c : config) (o : Option_) : config :=
  match o with
  | WithBase p => mkConfig p (algo c) (hasher c) (dirSync c) (maxRecordBytes c)
  | WithChecksum a h => mkConfig (base c) a h (dirSync c) (maxRecordBytes c)
  | WithDirSync => mkConfig (base c) (algo c) (hasher c) true (maxRecordBytes c)
  | WithMaxRecordBytes n => if 0 <? n then mkConfig (base c) (algo c) (hasher c) (dirSync c) n else c
  end.

Section New.
(** [filepath.Clean]. *)
Variable Clean : bytes -> bytes.

(** [reported] is the backend's BasePath, when it has one. *)
Definition resolveBase (reported : option bytes) (c : config) : res bytes :=
  match reported with
  | None =>
    if decide (base c = [])
    then Err (New "sidecar: WithBase is required for a backend that does not report a base path")
    else Ok (Clean (base c))
  | Some r =>
    let reported := Clean r in
    if decide (base c = []) then Ok reported
    else if decide (Clean (base c) = reported) then Ok reported
    else Err (New "sidecar: base %q does not match the backend's base %q")
  end.

(** [New] over a backend that is not nil; a nil option is skipped. *)
Definition New_ (reported : option bytes) (options : list (option Option_)) : res config :=
  let cfg := foldl (fun c o => match o with Some o => option_ c o | None => c end)
    (mkConfig [] [] None false DefaultMaxRecordBytes) options in
  if xorb (match hasher cfg with None => true | Some _ => false end) (bool_decide (algo cfg = []))
  then Err (New "sidecar: WithChecksum needs both an algorithm name and a hasher")
  else
    b ← resolveBase reported cfg;
    Ok (mkConfig b (algo cfg) (hasher cfg) (dirSync cfg) (maxRecordBytes cfg)).
End New.

(** ** Records *)
Definition validate (r : SidecarRecord) : option error :=
  if negb (Version r =? RecordVersion) then Some (New "record version %d is not %d")
  else if IsZero (RDigest r) then Some (New "record has no digest")
  else if bool_decide (ChecksumAlgo r = []) then Some (New "record has no checksum algorithm")
  else if IsZero (Checksum r) then Some (New "record has no checksum")
  else if Size r <? 0 then Some (New "record has negative size %d")
  else if CreatedAt r =? 0 then Some (New "record has no creation time")
  else None.

Definition envelopeType (prefix : bytes) : bytes :=
  match EnvelopeFromBytes prefix with
  | Ok env => env_Type env
  | Err _ => match EnvelopeType prefix with Ok name => name | Err _ => [] end
  end.
Definition envelopeCodec (prefix : bytes) : bytes :=
  match EnvelopeFromBytes prefix with Ok env => env_Codec env | Err _ => [] end.

Section Sidecar.
Context {L : Type}.
Variable inner : Backend L.
Variable outside : path -> option entry.
Variable random : gmap path entry -> bytes.
(** [encoding/json] on a record. *)
Variable jsonMarshal : SidecarRecord -> res bytes.
Variable jsonUnmarshal : bytes -> res SidecarRecord.
(** The clock's reading during the call. *)
Variable now : Z.
(** Whether the decorated backend's Put reads its reader to the end. *)
Variable readsToEOF : Digest -> Reader -> ctx -> L -> bool.
Variable cfg : config.

Definition encode (r : SidecarRecord) : res bytes := wrapErr (Errorf "sidecar: encode record: %w") (jsonMarshal r).

Definition decodeRecord (b : bytes) : res SidecarRecord :=
  match jsonUnmarshal b with
  | Err err => Err (Errorf2 "%w: sidecar: decode record: %w" ErrCorrupt err)
  | Ok rec =>
    match validate rec with
    | Some err => Err (Errorf2 "%w: sidecar: %w" ErrCorrupt err)
    | None => Ok rec
    end
  end.

Definition encodeRecord (rec : SidecarRecord) : res bytes :=
  data ← encode rec;
  if blen data <=? maxRecordBytes cfg then Ok data
  else
    let trimmed := mkRecord (Version rec) (RDigest rec) [] [] (ChecksumAlgo rec) (Checksum rec) (Size rec) (CreatedAt rec) in
    data ← encode trimmed;
    if maxRecordBytes cfg <? blen data then Err (Errorf "%w: sidecar: record for %s needs %d bytes" ErrRecordTooLarge)
    else Ok data.

Definition metaDir : path := [metaDirName].
Definition recordName (d : Digest) : bytes := DString d ++ recordSuffix.
Definition recordPath (d : Digest) : path := metaDir ++ [recordName d].

(** [found] is whether a record came back. *)
Definition readRecord (d : Digest) : M FS (option SidecarRecord) :=
  f ← attempt (os_Open outside (recordPath d));
  match f with
  | Err err => if errIs err ErrNotExist then mret None else throw (Errorf2 "%w: sidecar: open record %s: %w" ErrCorrupt err)
  | Ok f =>
    data ← mapErr (Errorf2 "%w: sidecar: read record %s: %w" ErrCorrupt)
      (onReader (ioReadAll false) (LimitReader (int64 (maxRecordBytes cfg + 1)) (rc_reader f)));
    if maxRecordBytes cfg <? blen data then throw (Errorf "%w: sidecar: record for %s exceeds %d bytes" ErrCorrupt)
    else
      rec ← lift (decodeRecord data);
      if negb (Equal (RDigest rec) d) then throw (Errorf "%w: sidecar: record for %s names %s" ErrCorrupt)
      else mret (Some rec)
  end.

(** The deferred close's error is dropped. *)
Definition syncDir (p : path) : M FS unit :=
  mapErr (Errorf "sidecar: open record directory: %w") (os_OpenHandle outside p);;
  r ← attempt (mapErr (Errorf "sidecar: sync record directory: %w") syscall);
  attempt syscall;;
  lift r.

Definition writeRecord (rec : SidecarRecord) : M FS unit :=
  ctxErr;;
  data ← lift (encodeRecord rec);
  mapErr (Errorf "sidecar: create record directory: %w") (os_MkdirAll outside metaDir);;
  tmp ← mapErr (Errorf "sidecar: create record temp: %w")
    (os_CreateTemp outside random metaDir (DString (RDigest rec) ++ str ".") (str ".tmp"));
  orElse syscall (discard outside tmp) (Errorf "sidecar: set record permissions %s: %w");;
  orElse (os_Append tmp data) (discard outside tmp) (Errorf "sidecar: write record %s: %w");;
  orElse syscall (discard outside tmp) (Errorf "sidecar: sync record %s: %w");;
  orElse syscall (tryRemove outside tmp) (Errorf "sidecar: close record %s: %w");;
  orElse (os_Rename outside tmp (recordPath (RDigest rec))) (tryRemove outside tmp) (Errorf "sidecar: publish record %s: %w");;
  if negb (dirSync cfg) then mret tt else syncDir metaDir.

(** A digest of what a reader delivers, with the number of bytes it read and
    the first [limit] of them. *)
Definition measured (h : Hasher) (limit : Z) : M Reader (Digest * Z * bytes) := fun c r =>
  match hs_Digest h c r with
  | (Ok sum, c', r') =>
    let n := blen (rd_data r) - blen (rd_data r') in
    (Ok (sum, int64 n, take (Z.to_nat (Z.min limit n)) (rd_data r)), c', r')
  | (Err e, c', r') => (Err e, c', r')
  end.

Definition storedChecksum (h : Hasher) (d : Digest) : M L (Digest * Z * bytes) :=
  rc ← bk_Get inner d;
  readThenClose rc (onReader (measured h defaultPrefixBytes)) readWins
    (Some (Errorf "sidecar: checksum %s: %w")) (Some (Errorf "sidecar: checksum %s: close: %w")).

(** ** The decorated backend: its own state, and the disk *)

(** A nil reader is [None]. *)
Definition Put (d : Digest) (r : option Reader) : M (L * FS) unit :=
  ctxErr;;
  lift (CheckDigest d "sidecar: put");;
  match r with
  | None => throw (New "sidecar: put %s: nil reader")
  | Some r =>
    match hasher cfg with
    | None => onFst (bk_Put inner d r)
    | Some h =>
      existing ← attempt (onSnd (readRecord d));
      let existing := match existing with Ok x => x | Err _ => None end in
      if match existing with Some e => bool_decide (ChecksumAlgo e = algo cfg) | None => false end
      then onFst (bk_Put inner d r)
      else
        eof ← (fun c st => (Ok (readsToEOF d r c st.1), c, st));
        onFst (bk_Put inner d r);;
        if negb (eof : bool) then throw (New "sidecar: put %s: the backend returned before reading the object to EOF; no record written")
        else
          '(sum, size, prefix) ← onFst (storedChecksum h d);
          let createdAt := match existing with Some e => CreatedAt e | None => now end in
          onSnd (writeRecord (mkRecord RecordVersion d (envelopeType prefix) (envelopeCodec prefix) (algo cfg) sum size createdAt))
    end
  end.

Definition Get (d : Digest) : M (L * FS) ReadCloser := onFst (bk_Get inner d).
Definition Exists (d : Digest) : M (L * FS) bool := onFst (bk_Exists inner d).
Definition List : M (L * FS) (list Digest) := onFst (bk_List inner).
Definition Stats : M (L * FS) Stats := onFst (bk_Stats inner).

(** [os.Remove] of a record, absence being success. *)
Definition removeRecord (msg : string) (d : Digest) : M FS unit :=
  r ← attempt (os_Remove outside (recordPath d));
  match r with
  | Ok _ => mret tt
  | Err err => if errIs err ErrNotExist then mret tt else throw (Errorf msg err)
  end.

Definition Delete (d : Digest) : M (L * FS) unit :=
  ctxErr;;
  lift (CheckDigest d "sidecar: delete");;
  onFst (bk_Delete inner d);;
  onSnd (removeRecord "sidecar: delete record %s: %w" d).

Definition Backend_ : Backend (L * FS) :=
  mkBackend (fun d r => Put d (Some r)) Get Exists Delete List Stats None None None.

Definition Load (d : Digest) : M FS SidecarRecord :=
  ctxErr;;
  lift (CheckDigest d "sidecar: load");;
  rec ← readRecord d;
  match rec with
  | None => throw (Errorf "%w: %s" errUnrecorded)
  | Some rec => mret rec
  end.

(** ** The record directory *)
Definition classifyEntry (acc : list Digest * list bytes) (e : bytes * entry) : list Digest * list bytes :=
  let '(name, e) := e in
  if isDir e || negb (HasSuffix name recordSuffix) then acc
  else
    match ParseDigest (take (length name - length recordSuffix) name) with
    | Err _ => (acc.1, acc.2 ++ [name])
    | Ok d => (acc.1 ++ [d], acc.2)
    end.

Definition hexLe (a b : Digest) : Prop := bytes_le (DString a) (DString b).

Definition listRecords : M FS (list Digest * list bytes) :=
  ctxErr;;
  entries ← attempt (os_ReadDir outside metaDir);
  match entries with
  | Err err => if errIs err ErrNotExist then mret ([], []) else throw (Errorf "sidecar: list records: %w" err)
  | Ok entries =>
    '(keys, foreign) ← foldM entries ([], []) (fun acc e => ctxErr;; mret (classifyEntry acc e));
    mret (merge_sort hexLe keys, sortBytes foreign)
  end.

Definition Keys : M FS (list Digest) :=
  '(keys, _) ← listRecords;
  mret keys.

Record ReconcileReport := mkReconcileReport {
  Records : Z;
  Removed : list Digest;
  Unrecorded : list Digest;
  Foreign : list bytes;
}.

(** One record: it is noted, and removed when its object is gone. *)
Definition reconcileOne (acc : ReconcileReport * gset bytes) (d : Digest) : M (L * FS) (ReconcileReport * gset bytes) :=
  let '(report, recorded) := acc in
  ctxErr;;
  let recorded := {[DString d]} ∪ recorded in
  exists_ ← onFst (bk_Exists inner d);
  if (exists_ : bool) then mret (report, recorded)
  else
    onSnd (removeRecord "sidecar: reconcile: remove record %s: %w" d);;
    mret (mkReconcileReport (Records report) (Removed report ++ [d]) (Unrecorded report) (Foreign report), recorded).

(** A loop that keeps the report of the steps before the one that failed. *)
Fixpoint reporting {S A B} (l : list A) (acc : B) (f : B -> A -> M S B) : M S (B * option error) :=
  match l with
  | [] => mret (acc, None)
  | x :: l' =>
    r ← attempt (f acc x);
    match r with
    | Ok acc' => reporting l' acc' f
    | Err e => mret (acc, Some e)
    end
  end.

Definition unrecordedOne (recorded : gset bytes) (report : ReconcileReport) (d : Digest) : M (L * FS) ReconcileReport :=
  ctxErr;;
  mret (if decide (DString d ∈ recorded) then report
        else mkReconcileReport (Records report) (Removed report) (Unrecorded report ++ [d]) (Foreign report)).

(** The report comes back with an error too. *)
Definition Reconcile : M (L * FS) (ReconcileReport * option error) :=
  ctxErr;;
  '(keys, foreign) ← onSnd listRecords;
  '((report, recorded), err) ← reporting keys (mkReconcileReport (blen keys) [] [] foreign, ∅) reconcileOne;
  match err with
  | Some err => mret (report, Some err)
  | None =>
    digests ← attempt (onFst (bk_List inner));
    match digests with
    | Err err => mret (report, Some err)
    | Ok digests => reporting digests report (unrecordedOne recorded)
    end
  end.

(** ** The verifier *)
Record VerifyReport := mkVerifyReport {
  Checked : Z;
  Bad : list Digest;
  Unreadable : list Digest;
  VUnrecorded : list Digest;
}.

Section Verifier.
(** The checksum asked for. *)
Variable valgo : bytes.
Variable vhasher : option Hasher.

Definition verifyRecord (h : Hasher) (rec : SidecarRecord) : M (L * FS) unit :=
  if negb (bool_decide (ChecksumAlgo rec = valgo))
  then throw (Errorf "%w: record %s names %q, reader configured with %q" ErrChecksumAlgorithm)
  else
    '(sum, n, _) ← onFst (
      rc ← bk_Get inner (RDigest rec);
      readThenClose rc (onReader (measured h 0)) readWins
        (Some (Errorf "sidecar: verify %s: %w")) (Some (Errorf "sidecar: verify %s: close: %w")));
    if negb (n =? Size rec) then throw (Errorf "%w: %s: stored size %d, record says %d" ErrCorrupt)
    else if negb (Equal sum (Checksum rec)) then throw (Errorf "%w: %s: %s checksum mismatch" ErrCorrupt)
    else mret tt.

Definition Verify (d : Digest) : M (L * FS) unit :=
  ctxErr;;
  lift (CheckDigest d "sidecar: verify");;
  match vhasher with
  | None => throw (New "sidecar: verify: nil hasher")
  | Some h =>
    if bool_decide (valgo = []) then throw (New "sidecar: verify: no checksum algorithm")
    else
      rec ← onSnd (readRecord d);
      match rec with
      | None => throw (Errorf "%w: %s" errUnrecorded)
      | Some rec => verifyRecord h rec
      end
  end.

Definition verifyOne (h : Hasher) (report : VerifyReport) (d : Digest) : M (L * FS) (VerifyReport * option error) :=
  cerr ← attempt ctxErr;
  match cerr with
  | Err e => mret (report, Some e)
  | Ok _ =>
    rec ← attempt (onSnd (readRecord d));
    match rec with
    | Err err =>
      if errIs err ErrCorrupt
      then mret (mkVerifyReport (Checked report) (Bad report) (Unreadable report ++ [d]) (VUnrecorded report), None)
      else mret (report, Some err)
    | Ok None => mret (mkVerifyReport (Checked report) (Bad report) (Unreadable report) (VUnrecorded report ++ [d]), None)
    | Ok (Some rec) =>
      let report := mkVerifyReport (int64 (Checked report + 1)) (Bad report) (Unreadable report) (VUnrecorded report) in
      v ← attempt (verifyRecord h rec);
      match v with
      | Ok _ => mret (report, None)
      | Err err =>
        if errIs err ErrCorrupt
        then mret (mkVerifyReport (Checked report) (Bad report ++ [d]) (Unreadable report) (VUnrecorded report), None)
        else mret (report, Some (Errorf "sidecar: verify all %s: %w" err))
      end
    end
  end.

Fixpoint verifyLoop (h : Hasher) (digests : list Digest) (report : VerifyReport) : M (L * FS) (VerifyReport * option error) :=
  match digests with
  | [] => mret (report, None)
  | d :: rest =>
    '(report, err) ← verifyOne h report d;
    match err with
    | Some e => mret (report, Some e)
    | None => verifyLoop h rest report
    end
  end.

Definition VerifyAll : M (L * FS) (VerifyReport * option error) :=
  ctxErr;;
  match vhasher with
  | None => throw (New "sidecar: verify all: nil hasher")
  | Some h =>
    if bool_decide (valgo = []) then throw (New "sidecar: verify all: no checksum algorithm")
    else
      digests ← onFst (bk_List inner);
      verifyLoop h digests (mkVerifyReport 0 [] [] [])
  end.
End Verifier.
End Sidecar.
End Sidecar.
