(* ===== verification/SidecarDisk.v ===== *)
(** The record directory as Sidecar keeps it: which files are records, what the
    calls may change of them, and the specifications of reading, writing and
    removing one record. *)

From S2P Require Import Prelude Digest Binary Stream Envelope Backend Store FileSystem AtomicFile Wp OsFile RefText Sidecar.
Import Sidecar.

(** ** Names *)
#[export] Instance recordPath_inj : Inj (=) (=) recordPath.
Proof. intros d d' [= H]. by apply app_inj_2, proj1, (inj DString) in H. Qed.

(** The scratch files of the record directory. *)
Definition scratchIn (p : path) : Prop := exists k, p = metaDir ++ [k ++ str ".tmp"].
Lemma scratch_not_record p d : scratchIn p -> p <> recordPath d.
Proof.
  intros [k ->] H. injection H as H. apply (f_equal list.last) in H.
  unfold recordName, recordSuffix in H. change (str ".json") with (str ".jso" ++ [x6e]) in H.
  change (str ".tmp") with (str ".tm" ++ [x70]) in H. by rewrite !app_assoc, !last_snoc in H.
Qed.

(** ** What the calls may change *)
Record metaOk (t : gmap path entry) : Prop := {
  mo_parents : parents t;
  mo_root : t !! ([] : path) = Some Directory;
  mo_meta : t !! metaDir = None \/ t !! metaDir = Some Directory;
  mo_record : forall d, fileOr (fun _ => True) (t !! recordPath d);
}.

(** A step that leaves the records as they are. *)
Record keepsRec (s s' : FS) : Prop := {
  kr_quiet : faults s = [] -> faults s' = [];
  kr_ok : metaOk (tree s) -> metaOk (tree s');
  kr_meta : tree s !! metaDir = Some Directory -> tree s' !! metaDir = Some Directory;
  kr_same : forall d, tree s' !! recordPath d = tree s !! recordPath d;
}.
#[export] Instance keepsRec_preorder : PreOrder keepsRec.
Proof.
  split; [by intros s|]. intros s1 s2 s3 [Hq1 Ho1 Hm1 Hs1] [Hq2 Ho2 Hm2 Hs2]. split; auto. intros d. by rewrite Hs2.
Qed.

Lemma evolves_keepsRec s s' : evolves s (tree s) s' -> keepsRec s s'.
Proof. intros (Ht & _ & Hq). split; [done|by rewrite Ht..]. Qed.

(** A change of one path that is a scratch file. *)
Lemma scratch_keepsRec s s' p t' : scratchIn p ->
  (forall q, q <> p -> t' !! q = tree s !! q) -> (metaOk (tree s) -> parents t') ->
  evolves s t' s' -> keepsRec s s'.
Proof.
  intros Hp Hsame Hpar (Ht & _ & Hq). destruct Hp as [k Hk].
  assert (Hr : forall d, tree s' !! recordPath d = tree s !! recordPath d).
  { intros d. rewrite Ht. apply Hsame. intros E. symmetry in E. revert E. apply scratch_not_record. by exists k. }
  assert (Hm : tree s' !! metaDir = tree s !! metaDir) by (rewrite Ht; apply Hsame; by rewrite Hk).
  split; [done| |by rewrite Hm|done]. intros [Hp Hro Hme Hre]. split.
  - rewrite Ht. by apply Hpar.
  - rewrite Ht, Hsame; [done|by rewrite Hk].
  - by rewrite Hm.
  - intros d. by rewrite Hr.
Qed.

(** A step that puts [data] into the record file of [d]. *)
Record rewrote (d : Digest) (data : bytes) (s s' : FS) : Prop := {
  rw_quiet : faults s = [] -> faults s' = [];
  rw_ok : metaOk (tree s) -> metaOk (tree s');
  rw_file : exists m, tree s' !! recordPath d = Some (File data m);
  rw_same : forall d', d' <> d -> tree s' !! recordPath d' = tree s !! recordPath d';
}.
(** A step that removes the record file of [d], if there is one. *)
Record unrecords (d : Digest) (s s' : FS) : Prop := {
  ur_quiet : faults s = [] -> faults s' = [];
  ur_ok : metaOk (tree s) -> metaOk (tree s');
  ur_file : tree s' !! recordPath d = None;
  ur_same : forall d', d' <> d -> tree s' !! recordPath d' = tree s !! recordPath d';
}.
Lemma rewrote_after d data s s1 s' : keepsRec s s1 -> rewrote d data s1 s' -> rewrote d data s s'.
Proof. intros Hk [Hq Ho Hf Hs]. destruct Hk as [Hq1 Ho1 _ Hs1]. split; [auto|auto|done|]. intros d' Hd. by rewrite Hs. Qed.
Lemma rewrote_before d data s s1 s' : rewrote d data s s1 -> keepsRec s1 s' -> rewrote d data s s'.
Proof.
  intros [Hq Ho [m Hf] Hs] [Hq1 Ho1 _ Hs1]. split; [auto|auto|exists m; by rewrite Hs1|]. intros d' Hd. by rewrite Hs1, Hs.
Qed.

Section Calls.
Variable outside : path -> option entry.

Lemma metaOk_clear t n : metaOk t -> clear t (metaDir ++ [n]).
Proof.
  intros Ho q k E Hk. destruct q as [|x [|y [|]]]; [right; apply Ho| | |].
  - injection E as <- _. apply Ho.
  - exfalso. injection E as _ _ E. by destruct k.
  - discriminate E.
Qed.
Lemma metaDir_clear t : metaOk t -> clear t ([] ++ metaDir).
Proof. intros Ho q k E Hk. right. destruct q as [|x [|]]; [apply Ho| |]; injection E as <- E; by destruct k. Qed.

Lemma resolve_meta_absent t follow n : metaOk t -> t !! metaDir = Some Directory -> t !! (metaDir ++ [n]) = None ->
  resolve outside t follow (metaDir ++ [n]) = Absent.
Proof. intros Ho Hd Hn. apply resolve_child; [apply Ho|done..]. Qed.

(** The record file of a digest, or none. *)
Lemma resolve_record t follow d : metaOk t ->
  (exists data m, t !! recordPath d = Some (File data m) /\ resolve outside t follow (recordPath d) = Found (File data m)) \/
  (t !! recordPath d = None /\
   (resolve outside t follow (recordPath d) = Absent \/ resolve outside t follow (recordPath d) = NoParent)).
Proof.
  intros Ho. pose proof (mo_record _ Ho d) as Hr. destruct (t !! recordPath d) as [[data m| | |]|] eqn:E; try done.
  - left. exists data, m. split; [done|]. by apply resolve_present; [apply Ho|..].
  - right. split; [done|]. apply resolve_absent; [by apply metaOk_clear|done].
Qed.

(** ** Scratch files *)
Variable random : gmap path entry -> bytes.

(** The file is made, or the disk failed (or the random name was taken). *)
Lemma CreateTemp_meta pre c s : metaOk (tree s) -> tree s !! metaDir = Some Directory ->
  wp (os_CreateTemp outside random metaDir pre (str ".tmp")) (fun r c' s' => c' = c /\ keepsRec s s' /\
    match r with
    | Ok p => scratchIn p /\ exists m, tree s' !! p = Some (File [] m)
    | Err _ => faults s <> [] \/ tree s !! (metaDir ++ [pre ++ random (tree s) ++ str ".tmp"]) <> None
    end) c s.
Proof.
  intros Ho Hd. apply wp_intro. intros r c' s' H. unfold os_CreateTemp, get in H. munfold.
  set (p := metaDir ++ [pre ++ random (tree s) ++ str ".tmp"]) in *.
  assert (Hp : scratchIn p) by (exists (pre ++ random (tree s)); by rewrite <- app_assoc).
  destruct (os_OpenExcl outside p c s) as [[r0 c0] s0] eqn:E. apply os_OpenExcl_inv in E as (-> & E).
  destruct r0 as [u|e]; simplify_eq; destruct E as [He HA].
  - split_and!; [done| |done|].
    + eapply scratch_keepsRec; [done| |intros _|exact He]; [intros q Hq; by rewrite lookup_insert_ne|].
      apply parents_insert; [apply Ho|done|]. intros ED. fold p in ED.
      rewrite (resolve_present outside _ false p Directory) in HA; [done|apply Ho|done|done].
    + destruct He as (-> & _). eexists. apply lookup_insert_eq.
  - split_and!; [done|by apply evolves_keepsRec|]. destruct HA as [[Hf _]|Hx]; [by left|]. right. intros Hn.
    by apply Hx, resolve_meta_absent.
Qed.

(** A step on the scratch file that leaves the records, and what the file then holds. *)
Lemma Append_meta p data m c s : metaOk (tree s) -> tree s !! metaDir = Some Directory -> scratchIn p -> tree s !! p = Some (File [] m) ->
  wp (os_Append p data) (fun r c' s' => c' = c /\ keepsRec s s' /\ (faults s = [] -> r = Ok tt) /\
    (exists x m', tree s' !! p = Some (File x m') /\ (r = Ok tt -> x = data))) c s.
Proof.
  intros Ho Hd Hp Ht. apply wp_intro. intros r c' s' H. apply (os_Append_inv _ _ _ _ _ _ _ _ _ Ht) in H as (-> & n & He & Hr & Hq).
  split_and!; [done| |done|].
  - eapply scratch_keepsRec; [done| |intros _|exact He]; [intros q Hq'; by rewrite lookup_insert_ne|].
    pose proof Hp as [k Hk]. rewrite Hk. apply parents_insert; [apply Ho|done|]. rewrite <- Hk, Ht. done.
  - destruct He as (-> & _). eexists _, _. split; [apply lookup_insert_eq|]. intros Hok. cbn. by rewrite Hr.
Qed.
Lemma syscall_meta c s : wp syscall (fun r c' s' => c' = c /\ keepsRec s s' /\ tree s' = tree s /\ (faults s = [] -> r = Ok tt)) c s.
Proof.
  eapply wp_mono; [apply wp_syscall|]. intros r c' s' (-> & He & Hq & _). pose proof (evolves_keepsRec _ _ He).
  by destruct He as (? & _).
Qed.
Lemma tryRemove_meta p c s : scratchIn p -> metaOk (tree s) ->
  wp (tryRemove outside p) (fun r c' s' => r = Ok tt /\ c' = c /\ keepsRec s s') c s.
Proof.
  intros Hp Ho. unfold tryRemove. apply wp_bind, wp_attempt, wp_intro. intros r c' s' H.
  apply os_Remove_inv in H as (-> & H). apply wp_ret. split_and!; [done..|].
  destruct r as [u|e]; destruct H as [He Hx]; [|by apply evolves_keepsRec].
  eapply scratch_keepsRec; [done| |intros _|exact He]; [intros q Hq; by rewrite lookup_delete_ne|].
  apply parents_delete_empty; [apply Ho|]. intros ED. destruct Hx as (x & Hr & Hx).
  rewrite (resolve_present outside _ false p Directory) in Hr by (done || apply Ho). injection Hr as <-. auto.
Qed.
Lemma discard_meta p c s : scratchIn p -> metaOk (tree s) ->
  wp (discard outside p) (fun r c' s' => r = Ok tt /\ c' = c /\ keepsRec s s') c s.
Proof.
  intros Hp Ho. unfold discard. apply wp_bind, wp_attempt. eapply wp_mono; [apply syscall_meta|].
  intros r c1 s1 (-> & Hk & Ht & _). eapply wp_mono; [apply tryRemove_meta; [done|by rewrite Ht]|].
  intros r2 c2 s2 (-> & -> & Hk2). split_and!; [done..|by etrans].
Qed.

(** The rename publishes the record. *)
Lemma Rename_record p d data m c s : metaOk (tree s) -> tree s !! metaDir = Some Directory -> scratchIn p ->
  tree s !! p = Some (File data m) ->
  wp (os_Rename outside p (recordPath d)) (fun r c' s' => c' = c /\
    match r with Ok _ => rewrote d data s s' /\ tree s' !! metaDir = Some Directory
    | Err _ => faults s <> [] /\ evolves s (tree s) s' end) c s.
Proof.
  intros Ho Hd Hp Ht. apply wp_intro. intros r c' s' H. apply (os_Rename_inv _ _ _ _ _ _ _ _ _ Ht) in H as (-> & H).
  split; [done|]. pose proof (scratch_not_record p d Hp) as Hpd.
  destruct r as [u|e].
  - destruct H as (Et & _ & Hq).
    assert (Hmeta : tree s' !! metaDir = Some Directory).
    { rewrite Et, lookup_insert_ne, lookup_delete_ne; [done| |done]. by destruct Hp as [k ->]. }
    assert (Hrec : forall d', d' <> d -> tree s' !! recordPath d' = tree s !! recordPath d').
    { intros d' Hne. rewrite Et, lookup_insert_ne, lookup_delete_ne; [done|by apply scratch_not_record|].
      intros E%(inj recordPath). by destruct Hne. }
    split; [split; [done| |exists m; rewrite Et; apply lookup_insert_eq|done]|done].
    intros _. split; [| |by right|].
    + rewrite Et. apply parents_insert.
      * apply parents_delete; [apply Ho|]. by rewrite Ht.
      * rewrite lookup_delete_ne; [done|]. by destruct Hp as [k ->].
      * rewrite lookup_delete_ne by done. intros E. pose proof (mo_record _ Ho d) as Hr. unfold recordPath in Hr. by rewrite E in Hr.
    + rewrite Et, lookup_insert_ne, lookup_delete_ne; [apply Ho| |done]. by destruct Hp as [k ->].
    + intros d'. destruct (decide (d' = d)) as [->|Hne]; [by rewrite Et, lookup_insert_eq|]. rewrite Hrec by done. apply Ho.
  - destruct H as [He Hx]. split; [|done]. destruct Hx as [?|Hx]; [done|]. exfalso.
    destruct (resolve_record (tree s) false d Ho) as [(x & m' & _ & HR)|[Hn _]].
    + rewrite HR in Hx. by destruct Hx as [?|[?|?]].
    + unfold recordPath in Hx, Hn. rewrite resolve_meta_absent in Hx by done. by destruct Hx as [?|[?|?]].
Qed.
End Calls.

(** ** One record *)

(** The bytes of the record file of [d]. *)
Definition recFile (t : gmap path entry) (d : Digest) : option bytes :=
  match t !! recordPath d with Some (File data _) => Some data | _ => None end.

Lemma recFile_none t d : t !! recordPath d = None -> recFile t d = None.
Proof. unfold recFile. by intros ->. Qed.

Section Records.
Variable outside : path -> option entry.
Variable random : gmap path entry -> bytes.
Variable jsonMarshal : SidecarRecord -> res bytes.
Variable jsonUnmarshal : bytes -> res SidecarRecord.
Variable cfg : config.
(** The read cap leaves room for the one byte more that detects an oversized file. *)
Hypothesis cap : 0 <= maxRecordBytes cfg < MaxInt64.

(** The record that the bytes of [d]'s file are, if the reader accepts them. *)
Definition recordIn (d : Digest) (data : bytes) : option SidecarRecord :=
  if maxRecordBytes cfg <? blen data then None
  else match decodeRecord jsonUnmarshal data with
       | Ok rec => if Equal (RDigest rec) d then Some rec else None
       | Err _ => None
       end.
Definition recordAt (t : gmap path entry) (d : Digest) : option SidecarRecord := recFile t d ≫= recordIn d.

Lemma recFile_keeps s s' d : keepsRec s s' -> recFile (tree s') d = recFile (tree s) d.
Proof. intros Hk. unfold recFile. by rewrite (kr_same _ _ Hk). Qed.
Lemma decodeRecord_err data e : decodeRecord jsonUnmarshal data = Err e -> errIs e ErrCorrupt = true.
Proof. unfold decodeRecord. destruct (jsonUnmarshal data) as [rec|]; [destruct (validate rec)|]; by intros [= <-]. Qed.

(** What the bounded read makes of a file's reader. *)
Lemma capped_read f data : serves f data ->
  let limited := LimitReader (int64 (maxRecordBytes cfg + 1)) (rc_reader f) in
  rd_tail limited = Sentinel EOF ->
  (blen (rd_data limited) <= maxRecordBytes cfg -> rd_data limited = data) /\
  (maxRecordBytes cfg < blen (rd_data limited) -> maxRecordBytes cfg < blen data).
Proof.
  intros ([[k Hp] Hread] & _) limited. unfold limited, MaxInt64 in *. rewrite int64_id by lia. rewrite LimitReader_data by lia.
  unfold LimitReader. destruct (limitChunks _ _ _) as [l t] eqn:E. apply limitChunks_spec in E as [_ Ht]; [|lia]. cbn [rd_tail].
  fold (rd_data (rc_reader f)) in Ht. intros ->. rewrite length_take. split.
  - intros Hl. destruct (Ht eq_refl) as [?|Htl]; [lia|]. rewrite Htl in Hread. rewrite take_ge by lia. by apply Hread.
  - intros Hl. rewrite Hp, length_app. lia.
Qed.

Lemma readRecord_wp d c s : metaOk (tree s) ->
  wp (readRecord outside jsonUnmarshal cfg d) (fun r c' s' => c' = c /\ evolves s (tree s) s' /\
    match r with
    | Ok None => recFile (tree s) d = None
    | Ok (Some rec) => recordAt (tree s) d = Some rec
    | Err e => errIs e ErrCorrupt = true /\ (faults s = [] -> is_Some (recFile (tree s) d) /\ recordAt (tree s) d = None)
    end) c s.
Proof.
  intros Ho. unfold readRecord. apply wp_bind, wp_attempt, wp_intro. intros r c1 s1 H. apply os_Open_inv in H as (-> & He & Hr).
  unfold recordAt, recFile. destruct (resolve_record outside (tree s) true d Ho) as [(data & m & -> & HR)|[-> HR]].
  2:{ destruct r as [f|e]; [destruct Hr as (x & HF & _); rewrite HF in HR; by destruct HR|].
      destruct Hr as [[Hf Hpl]|[[_ HF]|[-> _]]].
      - rewrite Hpl. apply wp_throw. by split_and!.
      - rewrite HF in HR. by destruct HR.
      - by apply wp_ret. }
  rewrite HR in Hr. destruct r as [f|e].
  2:{ destruct Hr as [[Hf Hpl]|[[_ HF]|[_ [HF|HF]]]]; try done. rewrite Hpl. apply wp_throw. by split_and!. }
  destruct Hr as (x & [= <-] & Hr). destruct (Hr data m eq_refl) as [Hs Hq]. pose proof (capped_read _ _ Hs) as Hcap.
  cbv zeta in Hcap. set (limited := LimitReader _ _) in *. apply wp_bind, wp_mapErr, wp_intro. intros r2 c2 s2 E2.
  unfold onReader, ioReadAll in E2. rewrite readAll_quiet in E2. injection E2 as <- <- <-.
  assert (Hquiet : faults s = [] -> rd_tail limited = Sentinel EOF).
  { intros Hf. apply (LimitReader_tail (fun e => e = Sentinel EOF)); [done|]. by apply Hq. }
  case_decide as Ht; cbn [wrapErr]; [|split_and!; [done..|by intros ?%Hquiet]]. destruct (Hcap Ht) as [Hle Hgt]. cbn [app].
  fold (rd_data limited). cbn [mbind option_bind]. unfold recordIn.
  destruct (Z.ltb_spec (maxRecordBytes cfg) (blen (rd_data limited))) as [Hl|Hl].
  { apply wp_throw. split_and!; [done..|]. intros _. split; [done|]. destruct (Z.ltb_spec (maxRecordBytes cfg) (blen data)); [done|specialize (Hgt Hl); lia]. }
  pose proof (Hle Hl) as Ed. rewrite Ed in *. destruct (Z.ltb_spec (maxRecordBytes cfg) (blen data)); [lia|].
  apply wp_bind, wp_lift. destruct (decodeRecord jsonUnmarshal data) as [rec|e] eqn:ED.
  - destruct (Equal (RDigest rec) d) eqn:EE; [by apply wp_ret|apply wp_throw]. by split_and!.
  - split_and!; [done..|by eapply decodeRecord_err|done].
Qed.

Lemma removeRecord_wp msg d c s : metaOk (tree s) ->
  wp (removeRecord outside msg d) (fun r c' s' => c' = c /\
    match r with Ok _ => unrecords d s s' | Err _ => faults s <> [] /\ keepsRec s s' end) c s.
Proof.
  intros Ho. unfold removeRecord. apply wp_bind, wp_attempt, wp_intro. intros r c1 s1 H. apply os_Remove_inv in H as (-> & H).
  destruct (resolve_record outside (tree s) false d Ho) as [(data & m & Hd & HR)|[Hd HR]].
  - rewrite HR in H. destruct r as [u|e].
    + destruct H as [(Et & _ & Hq) _]. apply wp_ret. split; [done|].
      assert (Hs : forall d', d' <> d -> tree s1 !! recordPath d' = tree s !! recordPath d').
      { intros d' Hne. rewrite Et, lookup_delete_ne; [done|]. by intros E%(inj recordPath). }
      split; [done| |rewrite Et; apply lookup_delete_eq|done]. intros _. split.
      * rewrite Et. apply parents_delete; [apply Ho|]. by rewrite Hd.
      * rewrite Et, lookup_delete_ne; [apply Ho|done].
      * rewrite Et, lookup_delete_ne; [apply Ho|done].
      * intros d'. destruct (decide (d' = d)) as [->|Hne]; [by rewrite Et, lookup_delete_eq|]. rewrite Hs by done. apply Ho.
    + destruct H as [He [[Hf Hpl]|[[_ ?]|[[_ ?]|[_ [?|?]]]]]]; try done. rewrite Hpl. apply wp_throw.
      split_and!; [done..|by apply evolves_keepsRec].
  - destruct r as [u|e]; [destruct H as (_ & x & HF & _); rewrite HF in HR; by destruct HR|].
    destruct H as [He Hc]. pose proof (evolves_keepsRec _ _ He) as [Hq Hok Hm Hs].
    destruct Hc as [[Hf Hpl]|[[_ HF]|[[_ HF]|[-> _]]]]; [|rewrite HF in HR; by destruct HR..|].
    + rewrite Hpl. apply wp_throw. split_and!; [done..|by apply evolves_keepsRec].
    + apply wp_ret. split; [done|]. split; [done|done|by rewrite Hs|by intros d' _].
Qed.

Lemma syncDir_wp c s : metaOk (tree s) -> tree s !! metaDir = Some Directory ->
  wp (syncDir outside metaDir) (fun r c' s' => c' = c /\ keepsRec s s' /\ (faults s = [] -> r = Ok tt)) c s.
Proof.
  intros Ho Hd. unfold syncDir, os_OpenHandle. apply wp_bind, wp_mapErr, wp_bind. eapply wp_mono; [apply syscall_meta|].
  intros r1 c1 s1 (-> & Hk1 & Et1 & Hq1). destruct r1 as [u|e]; cbn [wrapErr]; [|split_and!; [done..|by intros ?%Hq1]].
  apply wp_bind, wp_get. rewrite Et1, (resolve_present outside _ true metaDir Directory) by (done || apply Ho). apply wp_ret. cbn [wrapErr].
  apply wp_bind, wp_attempt, wp_mapErr. eapply wp_mono; [apply syscall_meta|]. intros r2 c2 s2 (-> & Hk2 & Et2 & Hq2).
  apply wp_bind, wp_attempt. eapply wp_mono; [apply syscall_meta|]. intros r3 c3 s3 (-> & Hk3 & _ & _). apply wp_lift.
  split_and!; [done|by repeat (etrans; [done|])|]. intros Hf. rewrite Hq2; [done|]. apply (kr_quiet _ _ Hk1 Hf).
Qed.

(** The record directory, made when it is missing. *)
Lemma MkdirAll_meta c s : metaOk (tree s) ->
  wp (os_MkdirAll outside metaDir) (fun r c' s' => c' = c /\ keepsRec s s' /\ (r = Ok tt -> tree s' !! metaDir = Some Directory) /\
    (faults s = [] -> r = Ok tt)) c s.
Proof.
  intros Ho. apply wp_intro. intros r c' s' H. unfold os_MkdirAll in H.
  apply mkdirFrom_inv in H as (-> & [Hc Hq Hp Ht] & Hd & Hok); [|apply Ho|by apply metaDir_clear|by left|apply Ho]. cbn [app] in Hd.
  assert (Hs : forall d, tree s' !! recordPath d = tree s !! recordPath d).
  { intros d. destruct (Ht (recordPath d)) as [?|(_ & _ & k1 & k2 & Hk & E)]; [done|]. cbn [app] in E. subst k1. discriminate Hk. }
  split_and!; try done. split; [done| | |done].
  - intros _. split; [done| | |].
    + destruct (Ht []) as [-> |(Hn & _)]; [apply Ho|]. by rewrite (mo_root _ Ho) in Hn.
    + destruct (Ht metaDir) as [-> |(_ & -> & _)]; [apply Ho|by right].
    + intros d. rewrite Hs. apply Ho.
  - intros Hm. destruct (Ht metaDir) as [-> |(_ & -> & _)]; done.
Qed.

(** What a call to [writeRecord] leaves: the old record or the whole new one,
    which it is when the call succeeds. *)
Definition writePost (rec : SidecarRecord) (c : ctx) (s : FS) (r : res unit) (s' : FS) : Prop :=
  match r with
  | Ok _ => exists data, encodeRecord jsonMarshal cfg rec = Ok data /\ rewrote (RDigest rec) data s s'
  | Err _ => keepsRec s s' \/ exists data, encodeRecord jsonMarshal cfg rec = Ok data /\ rewrote (RDigest rec) data s s'
  end /\
  (faults s = [] -> c = [] -> (forall t pre, t !! (metaDir ++ [pre ++ random t ++ str ".tmp"]) = None) ->
   is_ok (encodeRecord jsonMarshal cfg rec) = true -> r = Ok tt).

Lemma writePost_err rec c s e s' : keepsRec s s' -> (faults s = [] -> c = [] -> False) -> writePost rec c s (Err e) s'.
Proof. intros Hk Hf. split; [by left|]. intros ?? _ _. by destruct Hf. Qed.

(** One guarded step on the scratch file, before the record is published. *)
Lemma scratch_step rec c0 s0 c s (m cleanup k : M FS unit) f (R : FS -> Prop) :
  metaOk (tree s) -> keepsRec s0 s ->
  wp m (fun r c' s' => c' = c /\ keepsRec s s' /\ (faults s = [] -> r = Ok tt) /\ (r = Ok tt -> R s')) c s ->
  (forall s', metaOk (tree s') -> wp cleanup (fun r c' s'' => r = Ok tt /\ c' = c /\ keepsRec s' s'') c s') ->
  (forall s', metaOk (tree s') -> keepsRec s s' -> keepsRec s0 s' -> R s' -> wp k (fun r _ s' => writePost rec c0 s0 r s') c s') ->
  wp (orElse m cleanup f;; k) (fun r _ s' => writePost rec c0 s0 r s') c s.
Proof.
  intros Ho Hk Hm Hc Hn. apply wp_bind, wp_orElse. eapply wp_mono; [exact Hm|]. intros [[]|e] c1 s1 (-> & Hk1 & Hq & HR).
  - apply Hn; [by apply (kr_ok _ _ Hk1)|done|by etrans|by apply HR].
  - eapply wp_mono; [apply Hc; by apply (kr_ok _ _ Hk1)|]. intros r c2 s2 (-> & -> & Hk2).
    apply writePost_err; [by repeat (etrans; [done|])|]. intros Hf _. by specialize (Hq (kr_quiet _ _ Hk Hf)).
Qed.

Lemma publishRecord_wp rec c s : metaOk (tree s) ->
  wp (writeRecord outside random jsonMarshal cfg rec) (fun r _ s' => writePost rec c s r s') c s.
Proof.
  intros Ho. unfold writeRecord. apply wp_bind, wp_ctxErr; [|intros e c' Hc _; by apply writePost_err]. intros c1 _.
  apply wp_bind, wp_lift. destruct (encodeRecord jsonMarshal cfg rec) as [data|e] eqn:EE.
  2:{ split; [by left|]. by rewrite EE. }
  apply wp_bind, wp_mapErr. eapply wp_mono; [by apply MkdirAll_meta|]. intros r2 c2 s2 (-> & Hk2 & Hd2 & Hq2).
  destruct r2 as [[]|e]; cbn [wrapErr]; [|apply writePost_err; [done|by intros ?%Hq2]]. specialize (Hd2 eq_refl).
  pose proof (kr_ok _ _ Hk2 Ho) as Ho2. apply wp_bind, wp_mapErr. eapply wp_mono; [by apply CreateTemp_meta|].
  intros r3 c3 s3 (-> & Hk3 & Hr3). destruct r3 as [p|e]; cbn [wrapErr].
  2:{ split; [left; by etrans|]. intros Hf _ Hfresh _. destruct Hr3 as [Hr3|[]]; [by destruct Hr3; apply Hk2|]. apply Hfresh. }
  destruct Hr3 as (Hp & m & Hm). pose proof (kr_ok _ _ Hk3 Ho2) as Ho3. pose proof (kr_meta _ _ Hk3 Hd2) as Hd3.
  assert (Hk : keepsRec s s3) by by etrans. clear Hk2 Hk3 Hq2 Ho2 Hd2 s2.
  eapply (scratch_step rec c s c1 s3 _ _ _ _ (fun s' => tree s' = tree s3)); [done..| |intros; by apply discard_meta|].
  { eapply wp_mono; [apply syscall_meta|]. by intros r c' s' (-> & ? & ? & ?). }
  intros s4 Ho4 Hk4 Hk04 E4. rewrite <- E4 in Hm.
  eapply (scratch_step rec c s c1 s4 _ _ _ _ (fun s' => exists m, tree s' !! p = Some (File data m))); [done..| |intros; by apply discard_meta|].
  { eapply wp_mono; [eapply Append_meta; [done|by apply (kr_meta _ _ Hk4)|done|exact Hm]|]. intros r c' s' (-> & ? & ? & x & m' & Hx & Hxd).
    split_and!; [done..|]. intros Hr. rewrite <- (Hxd Hr). by exists m'. }
  intros s5 Ho5 Hk5 Hk05 [m5 Hm5]. clear Hm. 
  eapply (scratch_step rec c s c1 s5 _ _ _ _ (fun s' => tree s' = tree s5)); [done..| |intros; by apply discard_meta|].
  { eapply wp_mono; [apply syscall_meta|]. by intros r c' s' (-> & ? & ? & ?). }
  intros s6 Ho6 Hk6 Hk06 E6. rewrite <- E6 in Hm5.
  eapply (scratch_step rec c s c1 s6 _ _ _ _ (fun s' => tree s' = tree s6)); [done..| |intros; by apply tryRemove_meta|].
  { eapply wp_mono; [apply syscall_meta|]. by intros r c' s' (-> & ? & ? & ?). }
  intros s7 Ho7 Hk7 Hk07 E7. rewrite <- E7 in Hm5.
  assert (Hd7 : tree s7 !! metaDir = Some Directory) by (apply (kr_meta s3); [by repeat (etrans; [done|])|done]).
  apply wp_bind, wp_orElse. eapply wp_mono; [by eapply Rename_record|]. intros [u|e] c8 s8 (-> & H8).
  2:{ destruct H8 as [Hf8 He8]. eapply wp_mono; [apply tryRemove_meta; [done|by destruct He8 as (-> & _)]|].
      intros r c' s' (-> & -> & Hk9). apply writePost_err; [|intros ?%(kr_quiet _ _ Hk07); done].
      etrans; [exact Hk07|]. etrans; [by apply evolves_keepsRec|done]. }
  destruct H8 as [Hw Hd8]. pose proof (rewrote_after _ _ _ _ _ Hk07 Hw) as Hw0.
  destruct (dirSync cfg); cbn [negb]; [|apply wp_ret; split; [by exists data|done]].
  eapply wp_mono; [apply syncDir_wp; [by apply (rw_ok _ _ _ _ Hw)|done]|]. intros r9 c9 s9 (-> & Hk9 & Hq9).
  pose proof (rewrote_before _ _ _ _ _ Hw0 Hk9) as Hw9. split; [destruct r9; [by exists data|right; by exists data]|].
  intros Hf _ _ _. apply Hq9, (rw_quiet _ _ _ _ Hw0 Hf).
Qed.
End Records.
