(* ===== verification/SidecarFacts.v ===== *)
(** Sidecar over any backend that keeps the backend contract: the decorated
    backend keeps it too, what a Put records, what the verifier finds, and the
    reconciliation. *)

From S2P Require Import Prelude Digest Binary Stream Envelope Backend MemBackend Store FileSystem AtomicFile Wp OsFile RefText Sidecar SidecarDisk.
Import Sidecar.

Section Facts.
Context {L : Type} (inner : Backend L).
Context (linv lquiet : L -> Prop) (key : Digest -> Prop) (labs : L -> gmap Digest bytes).
Context `{HB : !BackendSpec inner linv lquiet key labs}.
Variable outside : path -> option entry.
Variable random : gmap path entry -> bytes.
Variable jsonMarshal : SidecarRecord -> res bytes.
Variable jsonUnmarshal : bytes -> res SidecarRecord.
Variable now : Z.
Variable readsToEOF : Digest -> Reader -> ctx -> L -> bool.
Variable cfg : config.
Hypothesis cap : 0 <= maxRecordBytes cfg < MaxInt64.

Definition inv (st : L * FS) : Prop := linv st.1 /\ metaOk (tree st.2).
Definition quiet (st : L * FS) : Prop := lquiet st.1 /\ faults st.2 = [].
Definition abs (st : L * FS) : gmap Digest bytes := labs st.1.

Abbreviation recordAt' := (recordAt jsonUnmarshal cfg).

(** ** The stored bytes' checksum *)

(** The hasher of the configuration computes a hash, if there is one. *)
Definition hashes (hash : bytes -> Digest) : Prop := forall h, hasher cfg = Some h -> HasherSpec h hash.

(** What an object's reader gives to a measuring hasher. *)
Lemma measured_ok h hash limit c r : HasherSpec h hash -> rd_tail r = Sentinel EOF ->
  exists r', measured h limit c r =
    (Ok (hash (rd_data r), int64 (blen (rd_data r)), take (Z.to_nat (Z.min limit (blen (rd_data r)))) (rd_data r)), c, r').
Proof.
  intros HH Ht. destruct (hs_reads _ _ HH c r Ht) as (r' & Hr & Hd). exists r'. unfold measured. rewrite Hr, Hd.
  change (blen []) with 0. by rewrite Z.sub_0_r.
Qed.
Lemma measured_fails h hash limit c r : HasherSpec h hash -> rd_tail r <> Sentinel EOF ->
  exists e c' r', measured h limit c r = (Err e, c', r').
Proof.
  intros HH Ht. destruct (hs_fails _ _ HH c r Ht) as (e & c' & r' & Hr). exists e, c', r'. unfold measured. by rewrite Hr.
Qed.

(** A measuring read of a stored object: it changes nothing, and what it
    measures are the stored bytes. *)
Definition measure (h : Hasher) (limit : Z) (f g : error -> error) (d : Digest) : M L (Digest * Z * bytes) :=
  rc ← bk_Get inner d;
  readThenClose rc (onReader (measured h limit)) readWins (Some f) (Some g).

Lemma measure_wp h hash limit f g d c s : HasherSpec h hash -> linv s ->
  wp (measure h limit f g d) (fun r c' s' => linv s' /\ (lquiet s -> lquiet s') /\ labs s' = labs s /\
    (forall x, r = Ok x -> exists data, labs s !! d = Some data /\
       x = (hash data, int64 (blen data), take (Z.to_nat (Z.min limit (blen data))) data)) /\
    (c = [] -> lquiet s -> is_Some (labs s !! d) -> is_ok r = true /\ c' = []) /\
    (c = [] -> lquiet s -> key d -> labs s !! d = None -> c' = [] /\ res_errIs r ErrNotFound = true)) c s.
Proof.
  intros HH Hi. unfold measure. apply wp_bind, wp_intro. intros r c1 s1 E. pose proof (bs_Get _ _ _ _ _ _ Hi E) as (Hi1 & Hq1 & Ha1 & Hr).
  destruct r as [rc|e].
  2:{ split_and!; [done..| |].
      - intros -> Hq [data Hd]. destruct (bs_Get_found d s data Hi Hq Hd) as (rc & s' & E'). by rewrite E in E'.
      - intros -> Hq Hk Hd. destruct (bs_Get_missing d s Hi Hq Hk Hd) as (e' & s' & E' & He). rewrite E in E'. by simplify_eq. }
  destruct Hr as (data & Hd & [[_ Hread] _] & Hquiet). apply wp_intro. intros r2 c2 s2 E2. unfold readThenClose, onReader in E2.
  destruct (decide (rd_tail (rc_reader rc) = Sentinel EOF)) as [Ht|Ht].
  - rewrite Ht in Hread. specialize (Hread eq_refl). destruct (measured_ok h hash limit c1 (rc_reader rc) HH Ht) as [r' Hm].
    rewrite Hm, Hread in E2. destruct (rc_close rc) as [ce|] eqn:Ec; simplify_eq/=; (split_and!; [done..| | |congruence]).
    + intros x [=].
    + intros _ Hq. by destruct (Hquiet Hq).
    + intros x [= <-]. by eexists.
    + intros -> Hq [data' Hd']. split; [done|]. 
      destruct (bs_Get_found d s data' Hi Hq Hd') as (rc' & s' & E'). rewrite E in E'. by simplify_eq.
  - destruct (measured_fails h hash limit c1 (rc_reader rc) HH Ht) as (e & c' & r' & Hm). rewrite Hm in E2.
    destruct (rc_close rc); simplify_eq/=; (split_and!; [done..| | |congruence]); try (by intros x [=]); intros _ Hq; by destruct (Hquiet Hq).
Qed.

(** ** Put *)

(** The record the store's copy of [d] gets. *)
Definition recordFor (hash : bytes -> Digest) (d : Digest) (data : bytes) (createdAt : Z) : SidecarRecord :=
  let prefix := take (Z.to_nat (Z.min defaultPrefixBytes (blen data))) data in
  mkRecord RecordVersion d (envelopeType prefix) (envelopeCodec prefix) (algo cfg) (hash data) (int64 (blen data)) createdAt.

(** The record file of [d] holds the record of the stored bytes, made now or
    when the old record was. *)
Definition recorded (hash : bytes -> Digest) (d : Digest) (st st' : L * FS) : Prop :=
  exists data createdAt enc, abs st' !! d = Some data /\
    (createdAt = now \/ exists old, recordAt' (tree st.2) d = Some old /\ createdAt = CreatedAt old) /\
    encodeRecord jsonMarshal cfg (recordFor hash d data createdAt) = Ok enc /\ recFile (tree st'.2) d = Some enc.

(** What a Put leaves of the record of [d]: untouched, or that of the stored
    bytes; the other records are as they were. *)
Record putRecord (hash : bytes -> Digest) (d : Digest) (st st' : L * FS) : Prop := {
  pr_file : recFile (tree st'.2) d = recFile (tree st.2) d \/ recorded hash d st st';
  pr_same : forall d', d' <> d -> recFile (tree st'.2) d' = recFile (tree st.2) d';
}.

Lemma recFile_same t t' d : t' !! recordPath d = t !! recordPath d -> recFile t' d = recFile t d.
Proof. unfold recFile. by intros ->. Qed.
Lemma putRecord_keeps hash d st st' : keepsRec st.2 st'.2 -> putRecord hash d st st'.
Proof. intros Hk. split; [left|intros d' _]; apply recFile_same, Hk. Qed.

(** Put, on every outcome. *)
Definition putPost (hash : bytes -> Digest) (d : Digest) (r : Reader) (st : L * FS) (res : res unit) (st' : L * FS) : Prop :=
  inv st' /\ (quiet st -> quiet st') /\ putRecord hash d st st' /\
  match res with
  | Ok _ => key d /\ rd_tail r = Sentinel EOF /\ put_post (abs st) d (rd_data r) (abs st') /\
      (hasher cfg <> None ->
       (exists old, recordAt' (tree st.2) d = Some old /\ ChecksumAlgo old = algo cfg) \/ recorded hash d st st')
  | Err _ => abs st' = abs st \/ (rd_tail r = Sentinel EOF /\ put_post (abs st) d (rd_data r) (abs st'))
  end.

Lemma inner_Put_wp d r c st : inv st ->
  wp (onFst (bk_Put inner d r)) (fun res c' st' => inv st' /\ (quiet st -> quiet st') /\ st'.2 = st.2 /\
    match res with
    | Ok _ => key d /\ rd_tail r = Sentinel EOF /\ put_post (abs st) d (rd_data r) (abs st')
    | Err _ => abs st' = abs st \/ (rd_tail r = Sentinel EOF /\ put_post (abs st) d (rd_data r) (abs st'))
    end) c st.
Proof.
  intros [Hi Ho]. apply wp_onFst, wp_intro. intros res c' s' E. apply bs_Put in E as (? & Hq & ?); [|done].
  split_and!; [by split|intros [? ?]; split; [by apply Hq|done]|done|done].
Qed.

(** The second half of a Put: the checksum of the stored bytes, then the record. *)
Lemma record_wp hash h d existing c st st4 : HasherSpec h hash -> inv st4 -> keepsRec st.2 st4.2 ->
  (forall old, existing = Some old -> recordAt' (tree st.2) d = Some old) ->
  wp ('(sum, size, prefix) ← onFst (storedChecksum inner h d);
      let createdAt := match existing with Some e => CreatedAt e | None => now end in
      onSnd (writeRecord outside random jsonMarshal cfg
        (mkRecord RecordVersion d (envelopeType prefix) (envelopeCodec prefix) (algo cfg) sum size createdAt)))
    (fun res _ st' => inv st' /\ (quiet st4 -> quiet st') /\ abs st' = abs st4 /\ putRecord hash d st st' /\
      (res = Ok tt -> recorded hash d st st')) c st4.
Proof.
  intros HH Hi4 Hk4 Hex. apply wp_bind, wp_onFst. eapply wp_mono; [apply (measure_wp h hash); [done|apply Hi4]|].
  intros r5 c5 l5 (Hl5 & Hlq5 & Hla5 & Hx5 & _ & _). destruct r5 as [[[sum size] prefix]|e].
  2:{ split_and!; [by split; [|apply Hi4]| |done|by apply putRecord_keeps|done]. intros [? ?]. split; [by apply Hlq5|done]. }
  destruct (Hx5 _ eq_refl) as (data & Hd5 & [= -> -> ->]). apply wp_onSnd.
  eapply wp_mono; [apply publishRecord_wp; apply Hi4|]. intros r6 c6 s6 [Hw _].
  set (createdAt := match existing with Some e => CreatedAt e | None => now end) in *.
  assert (Hcase : (keepsRec st4.2 s6 /\ r6 <> Ok tt) \/
    exists enc, encodeRecord jsonMarshal cfg (recordFor hash d data createdAt) = Ok enc /\ rewrote d enc st4.2 s6).
  { destruct r6 as [u|e]; [by right|]. destruct Hw; [by left|by right]. }
  clear Hw. destruct Hcase as [[Hk6 Hr6]|(enc & Henc & Hrw)].
  - split_and!; [split; [done|apply (kr_ok _ _ Hk6), Hi4]| |done|apply putRecord_keeps; by etrans|done].
    intros [? ?]. split; [by apply Hlq5|by apply (kr_quiet _ _ Hk6)].
  - assert (Hrecd : recorded hash d st (l5, s6)).
    { exists data, createdAt, enc. split_and!; [unfold abs; cbn; by rewrite Hla5| |done|].
      - unfold createdAt. destruct existing as [old|]; [right; eauto|by left].
      - unfold recFile. change (tree (l5, s6).2) with (tree s6). by destruct (rw_file _ _ _ _ Hrw) as [m ->]. }
    split_and!; [split; [done|apply (rw_ok _ _ _ _ Hrw), Hi4]| |done| |done].
    + intros [? ?]. split; [by apply Hlq5|by apply (rw_quiet _ _ _ _ Hrw)].
    + split; [by right|]. intros d' Hd'. apply recFile_same. etrans; [by apply (rw_same _ _ _ _ Hrw)|apply Hk4].
Qed.

Lemma sidecarPut_wp hash d r c st : hashes hash -> inv st ->
  wp (Put inner outside random jsonMarshal jsonUnmarshal now readsToEOF cfg d (Some r)) (fun res _ st' => putPost hash d r st res st') c st.
Proof.
  intros HH Hst. pose proof Hst as [Hi Ho]. unfold Put.
  assert (Hnone : forall e, putPost hash d r st (Err e) st).
  { intros e. split_and!; [done..|by apply putRecord_keeps|by left]. }
  apply wp_bind, wp_ctxErr; [|by intros]. intros c1 _. apply wp_bind, wp_lift. unfold CheckDigest.
  destruct (IsZero d) eqn:Ez; [apply Hnone|]. clear Hnone.
  destruct (hasher cfg) as [h|] eqn:Eh.
  2:{ eapply wp_mono; [by apply inner_Put_wp|]. intros res c' st' (? & ? & E & Hr). unfold putPost. rewrite Eh.
      split_and!; [done..|apply putRecord_keeps; by rewrite E|]. destruct res; [|done]. destruct Hr as (? & ? & ?). by split_and!. }
  apply wp_bind, wp_attempt, wp_onSnd. eapply wp_mono; [by apply readRecord_wp|]. intros r2 c2 s2 (-> & He2 & Hr2).
  pose proof (evolves_keepsRec _ _ He2) as Hk2. set (st2 := (st.1, s2)). set (existing := match r2 with Ok x => x | Err _ => None end).
  assert (Hst2 : inv st2) by (split; [done|by apply (kr_ok _ _ Hk2)]).
  assert (Hq2 : quiet st -> quiet st2) by (intros [? ?]; split; [done|by apply (kr_quiet _ _ Hk2)]).
  assert (Hex : forall old, existing = Some old -> recordAt' (tree st.2) d = Some old).
  { unfold existing. destruct r2 as [x|]; [|done]. by intros old ->. }
  clearbody existing. clear Hr2 r2. cbv zeta. destruct (match existing with Some e => _ | None => false end) eqn:Ealgo.
  { destruct existing as [old|]; [|done]. apply bool_decide_eq_true in Ealgo. eapply wp_mono; [by apply inner_Put_wp|].
    intros res c' st' (Hi' & Hq' & E & Hr). split_and!; [done|auto|apply putRecord_keeps; by rewrite E|].
    destruct res; [|done]. destruct Hr as (? & ? & ?). split_and!; [done..|]. intros _. left. eauto. }
  clear Ealgo. apply wp_bind, wp_intro. intros reof c3 st3 [= <- <- <-].
  apply wp_bind. eapply wp_mono; [by apply inner_Put_wp|]. intros r4 c4 st4 (Hi4 & Hq4 & E4 & Hr4). change (abs st2) with (abs st) in Hr4.
  assert (Hk4 : keepsRec st.2 st4.2) by (by rewrite E4).
  destruct r4 as [u|e]; [|split_and!; [done|auto|by apply putRecord_keeps|done]]. destruct Hr4 as (Hkey & Htail & Hput).
  assert (Herr : forall e st', labs st'.1 = labs st4.1 -> inv st' -> (quiet st4 -> quiet st') -> putRecord hash d st st' -> putPost hash d r st (Err e) st').
  { intros e st' El ? ? ?. split_and!; [done|auto|done|]. right. split; [done|]. unfold abs. by rewrite El. }
  destruct (negb _); [apply Herr; [done..|by apply putRecord_keeps]|].
  eapply wp_mono; [by eapply (record_wp hash h d existing c4 st st4); [apply HH| | |]|]. cbn beta.
  intros r5 c5 st5 (Hi5 & Hq5 & Ha5 & Hp5 & Hr5). destruct r5 as [[]|e]; [|by apply Herr].
  split_and!; [done|auto|done..|by rewrite Ha5|]. intros _. right. by apply Hr5.
Qed.

(** ** The contract *)
Lemma sidecarDelete_wp d c st : inv st ->
  wp (Delete inner outside d) (fun r c' st' => inv st' /\ (quiet st -> quiet st') /\
    (forall d', recFile (tree st'.2) d' = recFile (tree st.2) d' \/ (d' = d /\ recFile (tree st'.2) d = None)) /\
    match r with
    | Ok _ => key d /\ abs st' = delete d (abs st) /\ recFile (tree st'.2) d = None
    | Err _ => abs st' = abs st \/ abs st' = delete d (abs st)
    end /\
    (c = [] -> quiet st -> key d -> r = Ok tt /\ c' = [])) c st.
Proof.
  intros Hst. pose proof Hst as [Hi Ho]. unfold Delete. apply wp_bind, wp_ctxErr.
  2:{ intros e c' Hc _. split_and!; [done..|by left|by left|]. intros ->. done. }
  intros c1 Hc1. apply wp_bind, wp_lift. unfold CheckDigest. destruct (IsZero d) eqn:Ez.
  { split_and!; [done..|by left|by left|]. intros _ _ Hk. apply IsZero_true in Ez as ->. by destruct (bs_key_nonzero _ Hk). }
  apply wp_bind, wp_onFst, wp_intro. intros r2 c2 l2 E2. pose proof (bs_Delete _ _ _ _ _ _ Hi E2) as (Hi2 & Hq2 & Hr2).
  assert (Htot : c1 = [] -> lquiet st.1 -> key d -> r2 = Ok tt /\ c2 = []).
  { intros -> Hq Hk. destruct (bs_Delete_total d _ Hi Hq Hk) as [l E]. rewrite E in E2. by simplify_eq. }
  destruct r2 as [u|e].
  2:{ split_and!; [by split|intros [? ?]; split; [by apply Hq2|done]|by left|done|]. intros Hc [Hq _] Hk. by destruct (Htot (Hc1 Hc) Hq Hk). }
  destruct Hr2 as [Hk Ha]. apply wp_onSnd. eapply wp_mono; [by apply removeRecord_wp|]. intros r3 c3 s3 (-> & Hr3).
  destruct r3 as [[]|e].
  - destruct Hr3 as [Hq3 Ho3 Hf3 Hs3]. split_and!; [split; [done|by apply Ho3]| | |done|done| |].
    + intros [? ?]. split; [by apply Hq2|by apply Hq3].
    + intros d'. destruct (decide (d' = d)) as [->|Hd']; [right; split; [done|by apply recFile_none]|left; by apply recFile_same, Hs3].
    + by apply recFile_none.
    + intros Hc [Hq _] _. by destruct (Htot (Hc1 Hc) Hq Hk).
  - destruct Hr3 as [Hf3 Hk3]. split_and!; [split; [done|by apply (kr_ok _ _ Hk3)]| | |by right|by intros _ [_ ?]].
    + intros [? ?]. split; [by apply Hq2|by apply (kr_quiet _ _ Hk3)].
    + intros d'. left. by apply recFile_same, Hk3.
Qed.

Lemma onFst_total {A} (m : M L A) c (st : L * FS) r c' s' : m c st.1 = (r, c', s') -> onFst m c st = (r, c', (s', st.2)).
Proof. unfold onFst. by intros ->. Qed.

(** C10. The decorator is a backend: over any backend that keeps the backend
    contract, and whatever fails on the disk of the record directory, it keeps
    the contract too, its objects being those of the backend it decorates. *)
Theorem sidecar_refines hash : hashes hash ->
  BackendSpec (Backend_ inner outside random jsonMarshal jsonUnmarshal now readsToEOF cfg) inv quiet key abs.
Proof.
  intros HH.
  assert (Hread : forall {A} (m : M L A) c (st : L * FS) r c' st', onFst m c st = (r, c', st') ->
    m c st.1 = (r, c', st'.1) /\ (linv st'.1 -> inv st -> inv st') /\ ((lquiet st.1 -> lquiet st'.1) -> quiet st -> quiet st')).
  { intros A m c st r c' st' [E Es]%onFst_inv. split_and!; [done|intros ? [? ?]; split; [done|by rewrite Es]|].
    intros Hq [? ?]. split; [by apply Hq|by rewrite Es]. }
  split.
  - apply bs_key_nonzero.
  - intros st d [Hi _]. exact (bs_abs_key st.1 d Hi).
  - intros d r c st res c' st' Hi H. apply (wp_run _ _ _ _ _ _ _ (sidecarPut_wp hash d r c st HH Hi)) in H as (? & ? & _ & H).
    split_and!; [done..|]. destruct res; [|done]. by destruct H as (? & ? & ? & _).
  - intros d c st res c' st' Hi H. apply Hread in H as (H & ? & ?). apply bs_Get in H as (? & ? & ? & H); [|apply Hi].
    split_and!; auto. destruct res as [rc|e]; [|done]. destruct H as (data & ? & ? & Hq). exists data. split_and!; [done..|]. intros [? _]. by apply Hq.
  - intros d st data [Hi _] [Hq _] Hd. unfold abs in Hd. destruct (bs_Get_found d _ data Hi Hq Hd) as (rc & s' & E). exists rc, (s', st.2). by apply onFst_total.
  - intros d st [Hi _] [Hq _] Hk Hd. unfold abs in Hd. destruct (bs_Get_missing d _ Hi Hq Hk Hd) as (e & s' & E & He). exists e, (s', st.2). split; [by apply onFst_total|done].
  - intros d c st res c' st' Hi H. apply Hread in H as (H & ? & ?). apply bs_Exists in H as (? & ? & ? & H); [|apply Hi]. split_and!; auto.
  - intros d st [Hi _] [Hq _] Hk. destruct (bs_Exists_total d _ Hi Hq Hk) as (b & s' & E). exists b, (s', st.2). by apply onFst_total.
  - intros d c st res c' st' Hi H. apply (wp_run _ _ _ _ _ _ _ (sidecarDelete_wp d c st Hi)) in H as (? & ? & _ & H & _).
    split_and!; [done..|]. destruct res; [|done]. by destruct H as (? & ? & _).
  - intros d st Hi Hq Hk. destruct (Delete inner outside d [] st) as [[r c'] st'] eqn:E.
    apply (wp_run _ _ _ _ _ _ _ (sidecarDelete_wp d [] st Hi)) in E as E'. destruct E' as (_ & _ & _ & _ & Ht).
    destruct (Ht eq_refl Hq Hk) as [-> ->]. by exists st'.
  - intros c st res c' st' Hi H. apply Hread in H as (H & ? & ?). apply bs_List in H as (? & ? & ? & H); [|apply Hi]. split_and!; auto.
  - intros st [Hi _] [Hq _]. destruct (bs_List_total _ Hi Hq) as (l & s' & E). exists l, (s', st.2). by apply onFst_total.
Qed.

(** ** The verifier *)
Section Verifier.
Variable valgo : bytes.
Variable h : Hasher.
Variable vhash : bytes -> Digest.
Hypothesis HV : HasherSpec h vhash.

(** What the record store says of an object: no record, an unusable one, one
    of another checksum, one of an object that is gone, or one that the stored
    bytes agree or disagree with. *)
Inductive verdict := NoRecord | Unusable | OtherAlgo | Gone | Agrees | Disagrees.
#[global] Instance verdict_eq_dec : EqDecision verdict.
Proof. solve_decision. Defined.

Definition compare (rec : SidecarRecord) (data : option bytes) : verdict :=
  if decide (ChecksumAlgo rec = valgo) then
    match data with
    | None => Gone
    | Some data => if decide (int64 (blen data) = Size rec /\ vhash data = Checksum rec) then Agrees else Disagrees
    end
  else OtherAlgo.
Definition judge (st : L * FS) (d : Digest) : verdict :=
  match recFile (tree st.2) d with
  | None => NoRecord
  | Some file => match recordIn jsonUnmarshal cfg d file with None => Unusable | Some rec => compare rec (abs st !! d) end
  end.

Lemma decodeRecord_valid data rec : decodeRecord jsonUnmarshal data = Ok rec -> validate rec = None.
Proof. unfold decodeRecord. destruct (jsonUnmarshal data) as [r|]; [|done]. destruct (validate r) eqn:E; [done|]. by intros [= <-]. Qed.
Lemma recordIn_valid d data rec : recordIn jsonUnmarshal cfg d data = Some rec -> validate rec = None /\ RDigest rec = d.
Proof.
  unfold recordIn. destruct (_ <? _); [done|]. destruct (decodeRecord jsonUnmarshal data) as [r|] eqn:E; [|done].
  destruct (Equal (RDigest r) d) eqn:EE; [|done]. intros [= <-]. split; [by eapply decodeRecord_valid|].
  unfold Equal in EE. destruct (_ || _); [done|]. by apply bool_decide_eq_true in EE.
Qed.

(** What the verifier answers. *)
Definition outcome (v : verdict) (r : res unit) : Prop :=
  match v with
  | NoRecord => forall x, res_errIs r x = true <-> x = ErrUnrecorded \/ x = ErrNotFound
  | Unusable => res_errIs r ErrCorrupt = true
  | OtherAlgo => forall x, res_errIs r x = true <-> x = ErrChecksumAlgorithm
  | Gone => res_errIs r ErrNotFound = true
  | Agrees => r = Ok tt
  | Disagrees => forall x, res_errIs r x = true <-> x = ErrCorrupt
  end.

Lemma verifyRecord_wp rec c st : inv st -> validate rec = None ->
  wp (verifyRecord inner valgo h rec) (fun r c' st' => inv st' /\ (quiet st -> quiet st') /\ abs st' = abs st /\ st'.2 = st.2 /\
    (r = Ok tt -> compare rec (abs st !! RDigest rec) = Agrees) /\
    (c = [] -> quiet st -> key (RDigest rec) -> c' = [] /\ outcome (compare rec (abs st !! RDigest rec)) r)) c st.
Proof.
  intros [Hi Ho] Hval. unfold verifyRecord, compare. destruct (decide (ChecksumAlgo rec = valgo)) as [Ha|Ha].
  2:{ rewrite bool_decide_eq_false_2 by done. split_and!; [done..|]. intros -> _ _. split; [done|]. intros x. simpl. rewrite bool_decide_eq_true. naive_solver. }
  rewrite bool_decide_eq_true_2 by done. apply wp_bind, wp_onFst. eapply wp_mono; [by apply (measure_wp h vhash)|].
  intros r c1 l1 (Hl & Hq & Hla & Hx & Hok & Hmiss).
  assert (Hi1 : inv (l1, st.2)) by by split.
  assert (Hq1 : quiet st -> quiet (l1, st.2)) by (intros [? ?]; split; [by apply Hq|done]).
  destruct r as [[[sum n] prefix]|e].
  2:{ split_and!; [done..|]. intros -> [Hlq _] Hk. unfold abs. destruct (labs st.1 !! RDigest rec) as [data|] eqn:Ed.
      - by destruct Hok as [? _].
      - by destruct Hmiss. }
  destruct (Hx _ eq_refl) as (data & Hd & [= -> -> _]). unfold abs. rewrite Hd. cbn [negb].
  assert (Hctx : c = [] -> quiet st -> c1 = []) by (intros -> [? _]; by apply Hok).
  assert (Hsum : Checksum rec <> []).
  { unfold validate in Hval. intros E. rewrite E in Hval. by repeat case_match. }
  destruct (hs_valid _ _ HV data) as [Hne _].
  destruct (Z.eqb_spec (int64 (blen data)) (Size rec)) as [Es|Es]; cbn [negb].
  2:{ destruct (decide _) as [[? _]|_]; [done|]. split_and!; [done..|]. intros. split; [auto|]. intros x. simpl. rewrite bool_decide_eq_true. naive_solver. }
  unfold Equal. destruct (vhash data) as [|b l] eqn:Eh; [done|]. destruct (Checksum rec) as [|b' l'] eqn:Ec; [done|]. cbn [IsZero orb length Nat.eqb].
  case_bool_decide as Eb; cbn [negb]; (destruct (decide _) as [[_ ?]|Hn]; [|try by destruct Hn]); try done.
  - apply wp_ret. split_and!; [done..|]. intros. split; [auto|done].
  - split_and!; [done..|]. intros. split; [auto|]. intros x. simpl. rewrite bool_decide_eq_true. naive_solver.
Qed.

(** A step that changes neither the objects nor the records. *)
Record unchanged (st st' : L * FS) : Prop := {
  un_inv : inv st';
  un_quiet : quiet st -> quiet st';
  un_abs : abs st' = abs st;
  un_tree : tree st'.2 = tree st.2;
}.
Lemma unchanged_refl st : inv st -> unchanged st st.
Proof. by split. Qed.
Lemma unchanged_trans st st1 st2 : unchanged st st1 -> unchanged st1 st2 -> unchanged st st2.
Proof. intros [? ? Ha Ht] [? ? Ha' Ht']. split; [done|auto|congruence..]. Qed.
Lemma judge_unchanged st st' d : unchanged st st' -> judge st' d = judge st d.
Proof. intros [_ _ Ha Ht]. unfold judge. by rewrite Ha, Ht. Qed.

(** Reading a record, as the verdict sees it. *)
Lemma readRecord_judge d c st : inv st ->
  wp (onSnd (readRecord outside jsonUnmarshal cfg d)) (fun r c' st' => c' = c /\ unchanged st st' /\
    match r with
    | Ok None => judge st d = NoRecord
    | Ok (Some rec) => validate rec = None /\ RDigest rec = d /\ judge st d = compare rec (abs st !! d)
    | Err e => errIs e ErrCorrupt = true /\ (quiet st -> judge st d = Unusable)
    end) c st.
Proof.
  intros [Hi Ho]. apply wp_onSnd. eapply wp_mono; [by apply readRecord_wp|]. intros r c' s' (-> & He & Hr).
  pose proof (evolves_keepsRec _ _ He) as Hk. split; [done|]. split.
  { split; [split; [done|by apply (kr_ok _ _ Hk)]|intros [? ?]; split; [done|by apply (kr_quiet _ _ Hk)]|done|apply He]. }
  unfold judge. destruct r as [[rec|]|e].
  - unfold recordAt in Hr. destruct (recFile (tree st.2) d) as [file|]; [|done]. cbn in Hr.
    destruct (recordIn_valid _ _ _ Hr) as [? ?]. by rewrite Hr.
  - by rewrite Hr.
  - destruct Hr as [? Hr]. split; [done|]. intros [_ Hf]. destruct (Hr Hf) as [[file Hfile] Hn]. unfold recordAt in Hn.
    rewrite Hfile in *. cbn in Hn. by rewrite Hn.
Qed.

Lemma Verify_wp d c st : inv st ->
  wp (Verify inner outside jsonUnmarshal cfg valgo (Some h) d) (fun r c' st' => unchanged st st' /\
    (r = Ok tt -> judge st d = Agrees) /\
    (c = [] -> quiet st -> key d -> valgo <> [] -> c' = [] /\ outcome (judge st d) r)) c st.
Proof.
  intros Hst. unfold Verify. pose proof (unchanged_refl st Hst) as Hun. apply wp_bind, wp_ctxErr; [|intros e c' Hc _; split_and!; [done..|by intros ->]].
  intros c1 Hc1. apply wp_bind, wp_lift. unfold CheckDigest. destruct (IsZero d) eqn:Ez.
  { split_and!; [done..|]. intros _ _ Hk. apply IsZero_true in Ez as ->. by destruct (bs_key_nonzero _ Hk). }
  case_bool_decide as Hva; [by split_and!|]. apply wp_bind. eapply wp_mono; [by apply readRecord_judge|].
  intros r2 c2 st2 (-> & Hun2 & Hr2). destruct r2 as [[rec|]|e].
  - destruct Hr2 as (Hval & <- & Hj). eapply wp_mono; [apply verifyRecord_wp; [apply Hun2|done]|].
    intros r3 c3 st3 (Hi3 & Hq3 & Ha3 & E3 & Hok & Hquiet). rewrite (un_abs _ _ Hun2) in *. rewrite Hj. split_and!; [|done|].
    + destruct Hun2 as [? ? Ha ?]. split; [done|auto|congruence|by rewrite E3].
    + intros Hc Hq Hk _. apply Hquiet; [auto|by apply Hun2|done].
  - rewrite Hr2. split_and!; [done..|]. intros Hc _ _ _. split; [auto|]. intros x. simpl. rewrite orb_true_iff, !bool_decide_eq_true. naive_solver.
  - destruct Hr2 as [He Hj]. split_and!; [done..|]. intros Hc Hq _ _. split; [auto|]. by rewrite (Hj Hq).
Qed.

(** The report on a list of digests. *)
Definition checkedBy (v : verdict) : Prop := v = Agrees \/ v = Disagrees.
#[local] Instance checkedBy_dec v : Decision (checkedBy v).
Proof. unfold checkedBy. apply _. Defined.
Definition reportOf (st : L * FS) (ds : list Digest) : VerifyReport :=
  mkVerifyReport (int64 (blen (filter (fun d => checkedBy (judge st d)) ds)))
    (filter (fun d => judge st d = Disagrees) ds) (filter (fun d => judge st d = Unusable) ds)
    (filter (fun d => judge st d = NoRecord) ds).

(** One step of the pass on a working medium. *)
Lemma verifyOne_quiet st0 don d st : unchanged st0 st -> quiet st0 -> key d -> is_Some (abs st0 !! d) ->
  exists st' err, verifyOne inner outside jsonUnmarshal cfg valgo h (reportOf st0 don) d [] st =
    (Ok (match judge st0 d with OtherAlgo => mkVerifyReport (int64 (Checked (reportOf st0 don) + 1)) (Bad (reportOf st0 don))
                                  (Unreadable (reportOf st0 don)) (VUnrecorded (reportOf st0 don))
         | _ => reportOf st0 (don ++ [d]) end, err), [], st') /\
    unchanged st0 st' /\
    match judge st0 d with OtherAlgo => exists e, err = Some e /\ errIs e ErrChecksumAlgorithm = true | _ => err = None end.
Proof.
  intros Hun Hq Hk [data Hd]. unfold verifyOne, reportOf. cbn [Checked Bad Unreadable VUnrecorded].
  erewrite bind_ok by (unfold attempt; rewrite ctxErr_nil; reflexivity).
  destruct (onSnd (readRecord outside jsonUnmarshal cfg d) [] st) as [[r1 c1] st1] eqn:E1.
  apply (wp_run _ _ _ _ _ _ _ (readRecord_judge d [] st (un_inv _ _ Hun))) in E1 as H1. destruct H1 as (-> & Hun1 & Hr1).
  rewrite (judge_unchanged _ _ _ Hun), (un_abs _ _ Hun) in Hr1. pose proof (unchanged_trans _ _ _ Hun Hun1) as Hun01.
  erewrite bind_ok by (unfold attempt; rewrite E1; reflexivity). rewrite !list.filter_app, !list.filter_cons, !list.filter_nil.
  destruct r1 as [[rec|]|e].
  - destruct Hr1 as (Hval & Hrd & ->).
    destruct (verifyRecord inner valgo h rec [] st1) as [[r2 c2] st2] eqn:E2.
    apply (wp_run _ _ _ _ _ _ _ (verifyRecord_wp rec [] st1 (un_inv _ _ Hun01) Hval)) in E2 as H2.
    destruct H2 as (Hi2 & Hq2 & Ha2 & Es2 & _ & Hout). rewrite Hrd in Hout.
    destruct Hout as [-> Hout]; [done|by apply Hun01|done|]. rewrite (un_abs _ _ Hun01) in *.
    assert (Hun2 : unchanged st0 st2).
    { destruct Hun01 as [? ? ? ?]. split; [done|auto|congruence|by rewrite Es2]. }
    erewrite bind_ok by (unfold attempt; rewrite E2; reflexivity).
    unfold compare in *. rewrite Hd in *. destruct (decide (ChecksumAlgo rec = valgo)).
    + destruct (decide (int64 (blen data) = Size rec /\ vhash data = Checksum rec)); cbn [outcome] in Hout.
      * subst r2. exists st2, None. cbn. rewrite !app_nil_r, length_app, Nat2Z.inj_add, int64_add_l. by split_and!.
      * destruct r2 as [u|e2]; [discriminate (proj2 (Hout ErrCorrupt) eq_refl)|].
        assert (errIs e2 ErrCorrupt = true) as -> by exact (proj2 (Hout ErrCorrupt) eq_refl). exists st2, None. cbn. rewrite !app_nil_r, length_app, Nat2Z.inj_add, int64_add_l. by split_and!.
    + cbn [outcome] in Hout. destruct r2 as [u|e2]; [discriminate (proj2 (Hout ErrChecksumAlgorithm) eq_refl)|].
      destruct (errIs e2 ErrCorrupt) eqn:Ec; [by apply (Hout ErrCorrupt) in Ec|]. eexists st2, _. split_and!; [reflexivity|done|].
      eexists. split; [done|]. by apply (Hout ErrChecksumAlgorithm).
  - rewrite Hr1. exists st1, None. cbn. rewrite !app_nil_r. by split_and!.
  - destruct Hr1 as [He Hj]. rewrite He, Hj by by apply Hun. exists st1, None. cbn. rewrite !app_nil_r. by split_and!.
Qed.
(** What a report says of a digest; and the pass under any context. *)
Definition flagged (rep : VerifyReport) (d : Digest) : Prop := d ∈ Bad rep \/ d ∈ Unreadable rep \/ d ∈ VUnrecorded rep.

Lemma verifyOne_wp rep d c st : inv st ->
  wp (verifyOne inner outside jsonUnmarshal cfg valgo h rep d) (fun r c' st' => unchanged st st' /\
    forall rep' e, r = Ok (rep', e) -> (forall d', flagged rep d' -> flagged rep' d') /\
      (e = None -> flagged rep' d \/ judge st d = Agrees)) c st.
Proof.
  intros Hst. pose proof (unchanged_refl st Hst) as Hun. unfold verifyOne, flagged.
  apply wp_bind, wp_attempt, wp_ctxErr; [|intros e c' _ _; split; [done|]; intros ? ? [= <- <-]; by split].
  intros c1 _. apply wp_bind, wp_attempt. eapply wp_mono; [by apply readRecord_judge|]. intros r2 c2 st2 (_ & Hun2 & Hr2).
  destruct r2 as [[rec|]|e].
  - destruct Hr2 as (Hval & <- & Hj). apply wp_bind, wp_attempt. eapply wp_mono; [apply verifyRecord_wp; [apply Hun2|done]|].
    intros r3 c3 st3 (Hi3 & Hq3 & Ha3 & E3 & Hok & _). rewrite (un_abs _ _ Hun2) in *. rewrite Hj.
    assert (Hun3 : unchanged st st3) by (destruct Hun2; split; [done|auto|congruence|by rewrite E3]).
    destruct r3 as [[]|e].
    { apply wp_ret. split; [done|]. intros ? ? [= <- <-]. cbn. split; [done|]. right. by apply Hok. }
    destruct (errIs e ErrCorrupt); apply wp_ret; (split; [done|]); intros ? ? [= <- <-]; cbn; (split; [intros d'|]); try done; set_solver.
  - apply wp_ret. split; [done|]. intros ? ? [= <- <-]. cbn. split; [intros d'|]; set_solver.
  - destruct (errIs e ErrCorrupt); apply wp_ret; (split; [done|]); intros ? ? [= <- <-]; cbn; (split; [intros d'|]); try done; set_solver.
Qed.

Lemma verifyLoop_wp ds : forall rep c st, inv st ->
  wp (verifyLoop inner outside jsonUnmarshal cfg valgo h ds rep) (fun r c' st' => unchanged st st' /\
    forall rep' e, r = Ok (rep', e) -> (forall d', flagged rep d' -> flagged rep' d') /\
      (e = None -> forall d, d ∈ ds -> flagged rep' d \/ judge st d = Agrees)) c st.
Proof.
  induction ds as [|d ds IH]; intros rep c st Hst; cbn [verifyLoop].
  { apply wp_ret. split; [by apply unchanged_refl|]. intros ? ? [= <- <-]. split; [done|]. intros _ d Hd. by apply elem_of_nil in Hd. }
  apply wp_bind. eapply wp_mono; [by apply verifyOne_wp|]. intros r1 c1 st1 (Hun1 & H1).
  destruct r1 as [[rep1 [e1|]]|e]; [|destruct (H1 _ _ eq_refl) as [Hm1 Hd1]|].
  - split; [done|]. intros ? ? [= <- <-]. split; [by apply (H1 _ _ eq_refl)|done].
  - eapply wp_mono; [apply IH, Hun1|]. intros r2 c2 st2 [Hun2 H2]. split; [by eapply unchanged_trans|].
    intros rep' e Hr. destruct (H2 rep' e Hr) as [Hm2 Hd2]. split; [auto|]. intros He d' [->|Hd']%elem_of_cons.
    + destruct (Hd1 eq_refl); auto.
    + rewrite <- (judge_unchanged st st1) by done. by apply Hd2.
  - by split.
Qed.

(** The pass on a working medium: the report, or the first record of another checksum. *)
Lemma checkLoop_quiet st0 ds : quiet st0 -> forall don st, unchanged st0 st ->
  Forall key ds -> (forall d, d ∈ ds -> is_Some (abs st0 !! d)) ->
  exists rep err st', verifyLoop inner outside jsonUnmarshal cfg valgo h ds (reportOf st0 don) [] st = (Ok (rep, err), [], st') /\
    unchanged st0 st' /\
    (Forall (fun d => judge st0 d <> OtherAlgo) ds -> rep = reportOf st0 (don ++ ds) /\ err = None) /\
    ((exists d, d ∈ ds /\ judge st0 d = OtherAlgo) -> exists e, err = Some e /\ errIs e ErrChecksumAlgorithm = true).
Proof.
  intros Hq. induction ds as [|d ds IH]; intros don st Hun Hk Hs; cbn [verifyLoop].
  { eexists _, _, _. split_and!; [reflexivity|done|by rewrite app_nil_r|]. by intros (d & ?%elem_of_nil & _). }
  apply list.Forall_cons in Hk as [Hkd Hk]. destruct (verifyOne_quiet st0 don d st Hun Hq Hkd) as (st1 & err1 & E1 & Hun1 & Herr1).
  { apply Hs. by left. }
  erewrite bind_ok by exact E1. destruct (decide (judge st0 d = OtherAlgo)) as [Ho|Ho].
  - rewrite Ho in *. destruct Herr1 as (e & -> & He). eexists _, _, _. split_and!; [reflexivity|done| |].
    + intros [? _]%list.Forall_cons. by rewrite Ho in *.
    + intros _. by exists e.
  - assert (E' : err1 = None /\ forall A (x y : A), match judge st0 d with OtherAlgo => x | _ => y end = y) by (by destruct (judge st0 d)).
    destruct E' as [-> ->]. destruct (IH (don ++ [d]) st1 Hun1 Hk) as (rep & err & st' & E & Hun' & Hr & Hx); [set_solver|].
    exists rep, err, st'. rewrite <- app_assoc in Hr. split_and!; [exact E|done| |].
    + intros [_ ?]%list.Forall_cons. by apply Hr.
    + intros (d' & [->|Hd']%elem_of_cons & Hj); [done|]. apply Hx. by exists d'.
Qed.

(** VerifyAll checks the whole store against its records.  Under any
    context and whatever fails it changes nothing, and a report without an
    error clears no object wrongly: every stored one that no list of it names
    has a usable record of the checksum asked for, which its bytes agree with.
    On a working medium the report is exact: when every usable record is of
    that checksum, each list holds, in the store's order, precisely the objects
    that disagree, whose record is unusable, or that have none; otherwise the
    pass stops with [ErrChecksumAlgorithm]. *)
Theorem sidecar_VerifyAll_spec st : inv st -> valgo <> [] ->
  (forall c rep e c' st', VerifyAll inner outside jsonUnmarshal cfg valgo (Some h) c st = (Ok (rep, e), c', st') ->
    unchanged st st' /\ (e = None -> forall d, is_Some (abs st !! d) -> flagged rep d \/ judge st d = Agrees)) /\
  (quiet st -> (forall c l c' s', bk_List inner c st.1 = (Ok l, c', s') -> Forall key l) ->
   exists ds rep err st', VerifyAll inner outside jsonUnmarshal cfg valgo (Some h) [] st = (Ok (rep, err), [], st') /\
     unchanged st st' /\ StronglySorted bytes_le ds /\ NoDup ds /\ (forall d, d ∈ ds <-> is_Some (abs st !! d)) /\
     ((forall d, is_Some (abs st !! d) -> judge st d <> OtherAlgo) -> rep = reportOf st ds /\ err = None) /\
     ((exists d, is_Some (abs st !! d) /\ judge st d = OtherAlgo) -> exists e, err = Some e /\ errIs e ErrChecksumAlgorithm = true)).
Proof.
  intros Hst Hva. split.
  - intros c rep e c' st' H.
    assert (Hwp : wp (VerifyAll inner outside jsonUnmarshal cfg valgo (Some h)) (fun r _ st' => forall rep e, r = Ok (rep, e) -> unchanged st st' /\
      (e = None -> forall d, is_Some (abs st !! d) -> flagged rep d \/ judge st d = Agrees)) c st);
      [clear c' st' H|by apply (wp_run _ _ _ _ _ _ _ Hwp H)].
    unfold VerifyAll. apply wp_bind, wp_ctxErr; [|by intros]. intros c1 _. rewrite bool_decide_eq_false_2 by done.
    apply wp_bind, wp_onFst, wp_intro. intros r2 c2 s2 E2. pose proof (bs_List _ _ _ _ _ (proj1 Hst) E2) as (Hi2 & Hq2 & Ha2 & Hl).
    destruct r2 as [ds|]; [|done]. assert (Hun : unchanged st (s2, st.2)).
    { split; [by split; [|apply Hst]|intros [? ?]; split; [by apply Hq2|done]|done..]. }
    eapply wp_mono; [apply verifyLoop_wp, Hun|]. intros r3 c3 st3 [Hun3 H3] rep' e' Hr.
    split; [by eapply unchanged_trans|]. intros He d Hd. rewrite <- (judge_unchanged st (s2, st.2)) by done.
    apply (H3 _ _ Hr); [done|]. apply Hl; [|done]. apply (bs_abs_key st.1 d); [apply Hst|done].
  - intros Hq Hk. destruct (bs_List_total st.1) as (ds & s1 & E); [apply Hst|apply Hq|].
    pose proof (bs_List _ _ _ _ _ (proj1 Hst) E) as (Hi1 & Hq1 & Ha1 & Hs & Hnd & Hl). apply Hk in E as Hkl.
    assert (Hin : forall d, d ∈ ds <-> is_Some (abs st !! d)).
    { intros d. split; [intros Hd; by apply Hl; [rewrite list.Forall_forall in Hkl; apply Hkl|]|].
      intros Hd. apply Hl; [|done]. apply (bs_abs_key st.1 d); [apply Hst|done]. }
    assert (Hun : unchanged st (s1, st.2)).
    { split; [by split; [|apply Hst]|intros [? ?]; split; [by apply Hq1|done]|done..]. }
    destruct (checkLoop_quiet st ds Hq [] (s1, st.2) Hun Hkl) as (rep & err & st' & E2 & Hun' & Hr & Hx); [by intros d Hd%Hin|].
    exists ds, rep, err, st'. split_and!; [|done..| |].
    + unfold VerifyAll. erewrite bind_ok by reflexivity. rewrite bool_decide_eq_false_2 by done.
      erewrite bind_ok by by apply onFst_total. exact E2.
    + intros Ho. apply Hr, list.Forall_forall. intros d Hd%Hin. by apply Ho.
    + intros (d & Hd%Hin & Hj). apply Hx. by exists d.
Qed.
End Verifier.
(** Verify tells an object's state from its record.  Whatever fails and
    under any context it changes nothing, and a success means that the object
    has a usable record of the checksum asked for and that its bytes have the
    recorded size and checksum.  On a working medium the answer is exact: no
    record is [ErrUnrecorded] (and so [ErrNotFound]), an unusable one
    [ErrCorrupt], one of another checksum [ErrChecksumAlgorithm] and nothing
    else, one whose object is gone [ErrNotFound], and a disagreement
    [ErrCorrupt] and nothing else. *)
Theorem sidecar_Verify_spec valgo h vhash d st : HasherSpec h vhash -> inv st ->
  (forall c r c' st', Verify inner outside jsonUnmarshal cfg valgo (Some h) d c st = (r, c', st') ->
    unchanged st st' /\ (r = Ok tt -> judge valgo vhash st d = Agrees)) /\
  (quiet st -> key d -> valgo <> [] ->
   exists r st', Verify inner outside jsonUnmarshal cfg valgo (Some h) d [] st = (r, [], st') /\ outcome (judge valgo vhash st d) r).
Proof.
  intros HV Hst. split.
  - intros c r c' st' H. by apply (wp_run _ _ _ _ _ _ _ (Verify_wp valgo h vhash HV d c st Hst)) in H as (? & ? & _).
  - intros Hq Hk Hva. destruct (Verify _ _ _ _ _ _ d [] st) as [[r c'] st'] eqn:E.
    apply (wp_run _ _ _ _ _ _ _ (Verify_wp valgo h vhash HV d [] st Hst)) in E as (_ & _ & H). destruct H as [-> ?]; [done..|]. by exists r, st'.
Qed.

(** ** What Put writes, the verifier accepts *)

(** [encoding/json] gives back a record of the configured checksum, the two
    free-text fields apart: text that is not UTF-8 is replaced. *)
Definition rereads (r r' : SidecarRecord) : Prop :=
  exists type codec, r' = mkRecord (Version r) (RDigest r) type codec (ChecksumAlgo r) (Checksum r) (Size r) (CreatedAt r).
Definition jsonRoundtrip : Prop := forall r data, ChecksumAlgo r = algo cfg -> jsonMarshal r = Ok data ->
  exists r', jsonUnmarshal data = Ok r' /\ rereads r r'.

Lemma validate_rereads r r' : rereads r r' -> validate r' = validate r.
Proof. by intros (? & ? & ->). Qed.

(** A writer never publishes a record its own reader refuses for its size. *)
Lemma encodeRecord_size r data : encodeRecord jsonMarshal cfg r = Ok data -> blen data <= maxRecordBytes cfg.
Proof.
  unfold encodeRecord, encode. intros H. destruct (jsonMarshal r) as [d0|]; [|done]. cbn in H.
  destruct (Z.leb_spec (blen d0) (maxRecordBytes cfg)); [by simplify_eq|].
  destruct (jsonMarshal (mkRecord (Version r) (RDigest r) [] [] (ChecksumAlgo r) (Checksum r) (Size r) (CreatedAt r))) as [d1|]; [|done].
  cbn in H. destruct (Z.ltb_spec (maxRecordBytes cfg) (blen d1)); [done|]. by simplify_eq.
Qed.

Lemma encodeRecord_rereads r data : jsonRoundtrip -> ChecksumAlgo r = algo cfg -> encodeRecord jsonMarshal cfg r = Ok data ->
  exists r', jsonUnmarshal data = Ok r' /\ rereads r r'.
Proof.
  intros HJ Ha H. unfold encodeRecord, encode in H. destruct (jsonMarshal r) as [d0|] eqn:E0; [|done]. cbn in H.
  destruct (_ <=? _); [simplify_eq; by apply HJ|]. 
  destruct (jsonMarshal (mkRecord (Version r) (RDigest r) [] [] (ChecksumAlgo r) (Checksum r) (Size r) (CreatedAt r))) as [d1|] eqn:E1; [|done]. cbn in H.
  destruct (_ <? _); [done|]. simplify_eq. by apply HJ in E1.
Qed.

(** What is read back from a written record. *)
Lemma recordIn_written r data : jsonRoundtrip -> ChecksumAlgo r = algo cfg -> encodeRecord jsonMarshal cfg r = Ok data ->
  (forall r', recordIn jsonUnmarshal cfg (RDigest r) data = Some r' -> rereads r r') /\
  (validate r = None -> exists r', recordIn jsonUnmarshal cfg (RDigest r) data = Some r' /\ rereads r r').
Proof.
  intros HJ Ha H. destruct (encodeRecord_rereads r data HJ Ha H) as (r' & Hu & Hr). pose proof (encodeRecord_size r data H) as Hs.
  unfold recordIn, decodeRecord. rewrite Hu, (validate_rereads r r') by done. destruct (Z.ltb_spec (maxRecordBytes cfg) (blen data)); [lia|].
  assert (Hd : RDigest r' = RDigest r) by (by destruct Hr as (? & ? & ->)). split.
  - intros r'' Hr''. repeat case_match; by simplify_eq.
  - intros Hv. rewrite Hv. exists r'. split; [|done]. rewrite Hd. unfold Equal. unfold validate in Hv. destruct (negb (Version r =? _)); [done|].
    destruct (IsZero (RDigest r)) eqn:Ez; [done|]. by rewrite bool_decide_eq_true_2.
Qed.

Section Sound.
(** The digest an object's bytes are addressed by, and the checksum; bytes of one
    address have one checksum and one size. *)
Variables addr hash : bytes -> Digest.
Hypothesis addr_inj : forall a b, addr a = addr b -> hash a = hash b /\ blen a = blen b.
Hypothesis HH : hashes hash.
Hypothesis HJ : jsonRoundtrip.

(** Objects are at their addresses, and usable records of the configured
    checksum are of the bytes of their addresses. *)
Record sound (st : L * FS) : Prop := {
  so_objects : forall d data, abs st !! d = Some data -> addr data = d;
  so_records : forall d rec, recordAt' (tree st.2) d = Some rec -> ChecksumAlgo rec = algo cfg ->
    exists data, addr data = d /\ Checksum rec = hash data /\ Size rec = int64 (blen data);
}.

Lemma sound_agrees st d data rec : sound st -> abs st !! d = Some data -> recordAt' (tree st.2) d = Some rec ->
  ChecksumAlgo rec = algo cfg -> judge (algo cfg) hash st d = Agrees.
Proof.
  intros [Ho Hr] Hd Hrec Ha. destruct (Hr d rec Hrec Ha) as (data' & Ha' & Hc & Hs). apply Ho in Hd as Hda.
  unfold judge, recordAt in *. destruct (recFile (tree st.2) d) as [file|]; [|done]. cbn in Hrec. rewrite Hrec. unfold compare.
  destruct (decide _); [|done]. rewrite Hd. destruct (addr_inj data data') as [Eh El]; [congruence|].
  rewrite Eh, El, Hc, Hs. by rewrite decide_True.
Qed.

Lemma putPost_sound d r st res st' : sound st -> addr (rd_data r) = d -> putPost hash d r st res st' -> sound st'.
Proof.
  intros [Ho Hr] Hd (_ & _ & Hp & Hres).
  assert (Hobj : forall d' data, abs st' !! d' = Some data -> addr data = d').
  { assert (Hput : abs st' = abs st \/ put_post (abs st) d (rd_data r) (abs st')) by (destruct res; tauto).
    destruct Hput as [->|[->|[_ ->]]]; [done| |done]. intros d' data [[<- <-]|[_ ?]]%lookup_insert_Some; auto. }
  split; [done|]. intros d' rec Hrec Ha. destruct (decide (d' = d)) as [->|Hne].
  2:{ apply (Hr d'); [|done]. unfold recordAt in *. by rewrite <- (pr_same _ _ _ _ Hp). }
  destruct (pr_file _ _ _ _ Hp) as [E|(data & createdAt & enc & Hdata & _ & Henc & Hf)].
  { apply (Hr d); [|done]. unfold recordAt in *. by rewrite <- E. }
  unfold recordAt in Hrec. rewrite Hf in Hrec. cbn in Hrec.
  change d with (RDigest (recordFor hash d data createdAt)) in Hrec. apply recordIn_written in Hrec as (t & co & ->); [|done..].
  exists data. split_and!; [by apply Hobj|done..].
Qed.

Lemma recorded_agrees d st st' : sound st' -> hasher cfg <> None -> algo cfg <> [] -> now <> 0 -> key d ->
  (forall data, abs st' !! d = Some data -> blen data < 2 ^ 63) -> recorded hash d st st' -> judge (algo cfg) hash st' d = Agrees.
Proof.
  intros Hso Hh Ha Hnow Hk Hsmall (data & createdAt & enc & Hdata & Hcr & Henc & Hf).
  destruct (hasher cfg) as [h|] eqn:Eh; [|done].
  destruct (recordIn_written (recordFor hash d data createdAt) enc HJ eq_refl Henc) as [_ [rec [Hrec Hre]]].
  { unfold validate, recordFor. cbn [Version RDigest ChecksumAlgo Checksum Size CreatedAt]. rewrite (bool_decide_eq_false_2 (_ = [])) by done.
    destruct (IsZero d) eqn:Ez; [apply IsZero_true in Ez as ->; by destruct (bs_key_nonzero _ Hk)|].
    destruct (hs_valid _ _ (HH h Eh) data) as [Hne _]. destruct (hash data) as [|b l] eqn:Ehd; [done|]. cbn [IsZero length Nat.eqb].
    specialize (Hsmall _ Hdata). rewrite (int64_id (blen data)) by lia.
    destruct (Z.ltb_spec (blen data) 0); [lia|].
    destruct (Z.eqb_spec createdAt 0) as [->|]; [|done]. destruct Hcr as [?|(old & Hold & Hc)]; [done|].
    unfold recordAt in Hold. destruct (recFile (tree st.2) d); [|done]. apply recordIn_valid in Hold as [Hv _].
    unfold validate in Hv. rewrite <- Hc in Hv. by repeat case_match. }
  eapply (sound_agrees st' d data rec); [done..| |].
  - unfold recordAt. rewrite Hf. exact Hrec.
  - by destruct Hre as (? & ? & ->).
Qed.

(** C11. The records stay true.  Take any state in which the objects are at
    their addresses and the records of the configured checksum are of the bytes
    of their addresses; an empty store is one.  Every Put of bytes at their address
    and every Delete, whatever fails and under any context, leads to such a
    state again; in it no object disagrees with a record of that checksum; and
    after a Put that succeeded the object is verified by the record it has. *)
Theorem sidecar_stays_sound : algo cfg <> [] -> now <> 0 ->
  (forall d r c st res c' st', inv st -> sound st -> addr (rd_data r) = d ->
     Put inner outside random jsonMarshal jsonUnmarshal now readsToEOF cfg d (Some r) c st = (res, c', st') ->
     sound st' /\ (res = Ok tt -> hasher cfg <> None -> (forall data, abs st' !! d = Some data -> blen data < 2 ^ 63) ->
       judge (algo cfg) hash st' d = Agrees)) /\
  (forall d c st res c' st', inv st -> sound st -> Delete inner outside d c st = (res, c', st') -> sound st') /\
  (forall d st, sound st -> is_Some (abs st !! d) -> judge (algo cfg) hash st d <> Disagrees) /\
  (forall st, abs st = ∅ -> (forall d, recFile (tree st.2) d = None) -> sound st).
Proof.
  intros Ha Hnow. split_and!.
  - intros d r c st res c' st' Hi Hso Hd H. apply (wp_run _ _ _ _ _ _ _ (sidecarPut_wp hash d r c st HH Hi)) in H.
    pose proof (putPost_sound _ _ _ _ _ Hso Hd H) as Hso'. split; [done|]. intros -> Hh Hsmall.
    destruct H as (_ & _ & Hp & Hk & _ & Hput & Hrec).
    destruct (Hrec Hh) as [(old & Hold & Hao)|?]; [|by eapply recorded_agrees].
    assert (Hstored : is_Some (abs st' !! d)) by (destruct Hput as [->|[? ->]]; [rewrite lookup_insert_eq|]; eauto).
    destruct Hstored as [data Hdata]. destruct (pr_file _ _ _ _ Hp) as [E|?]; [|by eapply recorded_agrees].
    eapply (sound_agrees st' d data old); [done..| |done]. unfold recordAt in *. by rewrite E.
  - intros d c st res c' st' Hi [Ho Hr] H. apply (wp_run _ _ _ _ _ _ _ (sidecarDelete_wp d c st Hi)) in H as (_ & _ & Hs & Hres & _).
    assert (Hobj : forall d' data, abs st' !! d' = Some data -> addr data = d').
    { assert (Hdel : abs st' = abs st \/ abs st' = delete d (abs st)) by (destruct res; tauto). destruct Hdel as [->| ->]; [done|].
      intros d' data [_ ?]%lookup_delete_Some. auto. }
    split; [done|]. intros d' rec Hrec. apply (Hr d'). unfold recordAt in *.
    destruct (Hs d') as [<-|[-> Hno]]; [done|]. by rewrite Hno in Hrec.
  - intros d st Hso [data Hd] Hj. unfold judge in Hj. destruct (recFile (tree st.2) d) as [file|] eqn:Ef; [|done].
    destruct (recordIn jsonUnmarshal cfg d file) as [rec|] eqn:Er; [|done].
    assert (Ha' : ChecksumAlgo rec = algo cfg) by (unfold compare in Hj; by destruct (decide _)).
    assert (Hag : judge (algo cfg) hash st d = Agrees).
    { eapply (sound_agrees st d data rec); [done..| |done]. unfold recordAt. by rewrite Ef. }
    unfold judge in Hag. rewrite Ef, Er in Hag. congruence.
  - intros st Habs Hno. split; [by intros d data; rewrite Habs, lookup_empty|]. intros d rec. unfold recordAt. by rewrite Hno.
Qed.
End Sound.
End Facts.
