(* ===== verification/SidecarRecon.v ===== *)
(** The record directory of Sidecar as a set of records, and the reconciliation
    of the records with the objects of any backend that keeps the backend
    contract. *)

From S2P Require Import Prelude Digest Binary Stream Envelope Backend Store FileSystem AtomicFile Wp OsFile RefText Sidecar SidecarDisk SidecarFacts.
Import Sidecar.

(** ** The record directory *)

(** The digests of record files, and the other files with the record suffix. *)
Definition keysIn (es : list (bytes * entry)) : list Digest := (foldl classifyEntry ([], []) es).1.
Definition foreignIn (es : list (bytes * entry)) : list bytes := (foldl classifyEntry ([], []) es).2.

(** The record an entry is the file of. *)
Definition keyOf (e : bytes * entry) : option Digest :=
  if isDir e.2 || negb (HasSuffix e.1 recordSuffix) then None
  else match ParseDigest (take (length e.1 - length recordSuffix) e.1) with Ok d => Some d | Err _ => None end.
Definition foreignOf (e : bytes * entry) : option bytes :=
  if isDir e.2 || negb (HasSuffix e.1 recordSuffix) then None
  else match ParseDigest (take (length e.1 - length recordSuffix) e.1) with Ok _ => None | Err _ => Some e.1 end.

Lemma classify_split es : forall acc, foldl classifyEntry acc es = (acc.1 ++ omap keyOf es, acc.2 ++ omap foreignOf es).
Proof.
  induction es as [|[n e] es IH]; intros [ks fs]; cbn [foldl omap list_omap]; [by rewrite !app_nil_r|].
  rewrite IH. unfold classifyEntry, keyOf, foreignOf. cbn [fst snd]. destruct (isDir e || _); [done|].
  destruct (ParseDigest _) as [d|x]; cbn [fst snd]; by rewrite <- !app_assoc.
Qed.

Lemma keyOf_iff n e d : keyOf (n, e) = Some d <-> isDir e = false /\ d <> [] /\ n = recordName d.
Proof.
  unfold keyOf. cbn [fst snd]. destruct (isDir e); [by split; [|intros [? _]]|]. cbn [orb].
  destruct (HasSuffix n recordSuffix) eqn:Es; cbn [negb].
  - apply HasSuffix_iff in Es as [k ->]. rewrite length_app, Nat.add_sub, take_app_length.
    assert (HP : ParseDigest k = Ok d <-> d <> [] /\ DString d = k) by (rewrite DString_hex; apply ParseDigest_iff). unfold recordName. split.
    + destruct (ParseDigest k) as [d'|] eqn:E; [|done]. intros [= ->]. by destruct (proj1 HP eq_refl) as [? <-].
    + intros (_ & Hd & Hk%(inj (.++ recordSuffix))). by rewrite (proj2 HP).
  - split; [done|]. intros (_ & _ & ->). assert (H : HasSuffix (recordName d) recordSuffix = true) by (apply HasSuffix_iff; by exists (DString d)). congruence.
Qed.

(** On a well-formed record directory the keys are the digests with a record. *)
Lemma elem_of_keysIn t d : metaOk t -> d ∈ keysIn (children t metaDir) <-> d <> [] /\ is_Some (recFile t d).
Proof.
  intros Ho. unfold keysIn. rewrite classify_split. cbn [fst app]. rewrite list_elem_of_omap. split.
  - intros ([n e] & Hin%elem_of_children & (Hdir & Hd & ->)%keyOf_iff). split; [done|].
    pose proof (mo_record _ Ho d) as Hr. unfold recFile, recordPath in *. rewrite Hin in *. destruct e; [by eexists|done..].
  - intros [Hd [data H]]. unfold recFile in H. destruct (t !! recordPath d) as [[x m| | |]|] eqn:E; try done.
    exists (recordName d, File x m). split; [by apply elem_of_children|]. by apply keyOf_iff.
Qed.
Lemma NoDup_keysIn t : NoDup (keysIn (children t metaDir)).
Proof.
  unfold keysIn. rewrite classify_split. cbn [fst app]. apply NoDup_omap; [apply NoDup_children|].
  intros [n e] [n' e'] d Hin%elem_of_children Hin'%elem_of_children (_ & _ & ->)%keyOf_iff (_ & _ & ->)%keyOf_iff. congruence.
Qed.

Section Recon.
Context {L : Type} (inner : Backend L).
Context (linv lquiet : L -> Prop) (key : Digest -> Prop) (labs : L -> gmap Digest bytes).
Context `{HB : !BackendSpec inner linv lquiet key labs}.
Variable outside : path -> option entry.

Abbreviation inv := (inv linv).
Abbreviation quiet := (quiet lquiet).
Abbreviation abs := (abs labs).

(** The listing: the files of the directory at the call, sorted; an absent
    directory is an empty one. *)
Definition listed (t : gmap path entry) : list Digest * list bytes :=
  (merge_sort hexLe (keysIn (children t metaDir)), sortBytes (foreignIn (children t metaDir))).

Lemma children_absent t : metaOk t -> t !! metaDir = None -> children t metaDir = [].
Proof.
  intros Ho Hn. apply elem_of_nil_inv. intros [n e] Hin%elem_of_children. pose proof (mo_parents _ Ho _ _ _ Hin). congruence.
Qed.
Lemma ReadDir_meta c s : metaOk (tree s) ->
  wp (os_ReadDir outside metaDir) (fun r c' s' => c' = c /\ evolves s (tree s) s' /\
    match r with
    | Ok es => es = children (tree s) metaDir
    | Err e => (e = ENOENT /\ children (tree s) metaDir = []) \/ (faults s <> [] /\ plain e)
    end) c s.
Proof.
  intros Ho. unfold os_ReadDir. apply wp_bind. eapply wp_mono; [apply wp_syscall|]. intros r1 c1 s1 (-> & He1 & Hq1 & Hp1).
  destruct r1 as [u|e]; [|split_and!; [done..|]; right; split; [by intros ?%Hq1|by apply Hp1]].
  apply wp_bind, wp_get. pose proof He1 as (Ht & _ & Hf1). rewrite Ht.
  destruct (mo_meta _ Ho) as [Hm|Hm].
  - assert (HR : resolve outside (tree s) true metaDir = Absent \/ resolve outside (tree s) true metaDir = NoParent).
    { apply resolve_absent; [exact (metaDir_clear _ Ho)|done]. }
    destruct HR as [-> | ->]; apply wp_throw; (split_and!; [done..|left; split; [done|by apply children_absent]]).
  - rewrite (resolve_present outside (tree s) true metaDir Directory) by (done || apply Ho).
    apply wp_bind. eapply wp_mono; [apply wp_syscall|]. intros r2 c2 s2 (-> & He2 & Hq2 & Hp2).
    rewrite Ht in He2. pose proof (evolves_trans _ _ _ _ _ He1 He2) as He.
    destruct r2 as [u'|e]; [by apply wp_ret|]. split_and!; [done..|]. right. split; [|by apply Hp2].
    intros Hf%Hf1%Hq2. discriminate Hf.
Qed.

Lemma listRecords_wp c s : metaOk (tree s) ->
  wp (listRecords outside) (fun r c' s' => evolves s (tree s) s' /\
    (forall x, r = Ok x -> x = listed (tree s)) /\
    (c = [] -> faults s = [] -> c' = [] /\ is_ok r = true)) c s.
Proof.
  intros Ho. unfold listRecords. assert (Hs : evolves s (tree s) s) by by split_and!.
  apply wp_bind, wp_ctxErr; [|intros e c' Hc _; split_and!; [done..|by intros ->]]. intros c1 Hc1.
  apply wp_bind, wp_attempt. eapply wp_mono; [by apply ReadDir_meta|]. intros r2 c2 s2 (-> & He2 & Hr2).
  destruct r2 as [es|e].
  - subst es. apply wp_bind.
    set (F := fun acc e => ctxErr;; mret (classifyEntry acc e)).
    eapply wp_mono; [apply (wp_foldM
      (fun don acc c' s' => acc = foldl classifyEntry ([], []) don /\ s' = s2 /\ (c1 = [] -> c' = []))
      (fun _ c' s' => s' = s2 /\ c1 <> []) (children (tree s) metaDir) ([], []) F)|].
    + intros don x rest acc c0 s0 _ (-> & -> & Hc0). unfold F. apply wp_bind, wp_ctxErr.
      * intros c3 Hc3. apply wp_ret. split_and!; [by rewrite foldl_snoc|done|auto].
      * intros e c3 Hc3 _. split; [done|]. intros ?%Hc0. by apply Hc3.
    + by split_and!.
    + intros r3 c3 s3 H3. destruct r3 as [[ks fs]|e]; cbn beta iota in H3.
      * destruct H3 as (Hx & -> & Hc3). apply wp_ret. split_and!; [done| |by auto].
        intros x [= <-]. unfold listed, keysIn, foreignIn. by rewrite <- Hx.
      * destruct H3 as [-> Hne]. split_and!; [done..|]. intros ?%Hc1. by destruct Hne.
  - destruct Hr2 as [[-> Hch]|[Hf Hpl]]; [|rewrite Hpl; apply wp_throw; split_and!; [done..|by intros _ ?]].
    apply wp_ret. split_and!; [done| |by auto]. intros x [= <-]. unfold listed. by rewrite Hch.
Qed.

(** ** Removing the records of missing objects *)

(** A step that leaves the objects and their records, and of the other records
    at most removes some. *)
Record cleaned (st st' : L * FS) : Prop := {
  cl_inv : inv st';
  cl_quiet : quiet st -> quiet st';
  cl_abs : abs st' = abs st;
  cl_file : forall d, recFile (tree st'.2) d = recFile (tree st.2) d \/ (abs st !! d = None /\ recFile (tree st'.2) d = None);
}.
Lemma cleaned_refl st : inv st -> cleaned st st.
Proof. split; auto. Qed.
Lemma cleaned_trans st st1 st2 : cleaned st st1 -> cleaned st1 st2 -> cleaned st st2.
Proof.
  intros [? ? Ha Hf] [? ? Ha' Hf']. split; [done|auto|congruence|]. intros d.
  destruct (Hf' d) as [->|[Hn ?]]; [done|]. rewrite Ha in Hn. auto.
Qed.
Lemma cleaned_gone st st' d : cleaned st st' -> recFile (tree st.2) d = None -> recFile (tree st'.2) d = None.
Proof. intros Hc Hn. by destruct (cl_file _ _ Hc d) as [->|[_ ?]]. Qed.

(** What the pass over the records makes of the report. *)
Definition swept (st : L * FS) (ds : list Digest) (acc : ReconcileReport * gset bytes) : ReconcileReport * gset bytes :=
  let '(rep, recorded) := acc in
  (mkReconcileReport (Records rep) (Removed rep ++ filter (fun d => abs st !! d = None) ds) (Unrecorded rep) (Foreign rep),
   list_to_set (DString <$> ds) ∪ recorded).

(** One record: noted; removed when its object is gone. *)
Lemma reconcileOne_wp d acc c st : inv st ->
  wp (reconcileOne inner outside acc d) (fun r c' st' => cleaned st st' /\
    (forall acc', r = Ok acc' -> acc' = swept st [d] acc /\ key d /\ (abs st !! d = None -> recFile (tree st'.2) d = None)) /\
    (c = [] -> quiet st -> key d -> is_ok r = true /\ c' = [])) c st.
Proof.
  intros Hst. pose proof Hst as [Hi Ho]. destruct acc as [rep recorded]. unfold reconcileOne.
  apply wp_bind, wp_ctxErr; [|intros e c' Hc _; split_and!; [by apply cleaned_refl|done|by intros ->]]. intros c1 Hc1.
  apply wp_bind, wp_onFst, wp_intro. intros r2 c2 l2 E2. pose proof (bs_Exists _ _ _ _ _ _ Hi E2) as (Hi2 & Hq2 & Ha2 & Hr2).
  assert (Hcl2 : cleaned st (l2, st.2)).
  { split; [by split|intros [? ?]; split; [by apply Hq2|done]|done|by left]. }
  assert (Htot : c1 = [] -> quiet st -> key d -> exists b, r2 = Ok b /\ c2 = []).
  { intros -> [Hq _] Hk. destruct (bs_Exists_total d _ Hi Hq Hk) as (b & s' & E'). rewrite E2 in E'. simplify_eq. by exists b. }
  destruct r2 as [b|e].
  2:{ split_and!; [done..|]. intros Hc Hq Hk. by destruct (Htot (Hc1 Hc) Hq Hk) as (? & ? & _). }
  destruct Hr2 as [Hk ->]. assert (Hctx : c = [] -> quiet st -> c2 = []).
  { intros Hc Hq. by destruct (Htot (Hc1 Hc) Hq Hk) as (? & _ & ?). }
  unfold swept. rewrite list.filter_cons, list.filter_nil. cbn [fmap list_fmap list_to_set]. rewrite union_empty_r_L. change (labs st.1) with (abs st).
  clear Htot E2. case_bool_decide as Hd.
  - apply wp_ret. split_and!; [done| |by auto]. intros acc' [= <-]. rewrite decide_False by (intros Hn; rewrite Hn in Hd; by destruct Hd).
    rewrite app_nil_r. split_and!; [by destruct rep|done|]. intros Hn. rewrite Hn in Hd. by destruct Hd.
  - apply eq_None_not_Some in Hd. rewrite decide_True by done. apply wp_bind, wp_onSnd.
    eapply wp_mono; [by apply removeRecord_wp|]. intros r3 c3 s3 (-> & Hr3). destruct r3 as [[]|e].
    + destruct Hr3 as [Hq3 Ho3 Hf3 Hs3]. assert (Hno : recFile (tree s3) d = None) by by apply recFile_none.
      apply wp_ret. split_and!; [| |by auto].
      * split; [split; [done|by apply Ho3]|intros [? ?]; split; [by apply Hq2|by apply Hq3]|done|].
        intros d'. destruct (decide (d' = d)) as [->|Hne]; [by right|]. left. by apply recFile_same, Hs3.
      * by intros acc' [= <-].
    + destruct Hr3 as [Hf3 Hk3]. split_and!; [|done|by intros _ [_ ?]].
      split; [split; [done|by apply (kr_ok _ _ Hk3)]|intros [? ?]; split; [by apply Hq2|by apply (kr_quiet _ _ Hk3)]|done|].
      intros d'. left. by apply recFile_same, Hk3.
Qed.

Lemma swept_app st ds1 ds2 acc : swept st (ds1 ++ ds2) acc = swept st ds2 (swept st ds1 acc).
Proof.
  destruct acc as [rep recorded]. unfold swept. cbn [Records Removed Unrecorded Foreign].
  rewrite list.filter_app, app_assoc, fmap_app, list_to_set_app_L. f_equal. set_solver.
Qed.

(** The pass: a prefix of the records until the one that fails. *)
Lemma reconcileLoop_wp ds : forall acc c st, inv st ->
  wp (reporting ds acc (reconcileOne inner outside)) (fun r c' st' => cleaned st st' /\
    exists don acc' e, r = Ok (acc', e) /\ acc' = swept st don acc /\ don `prefix_of` ds /\
      (forall d, d ∈ don -> abs st !! d = None -> recFile (tree st'.2) d = None) /\
      (e = None -> don = ds /\ Forall key ds) /\
      (c = [] -> quiet st -> Forall key ds -> e = None /\ c' = [])) c st.
Proof.
  induction ds as [|d ds IH]; intros acc c st Hst; cbn [reporting].
  { apply wp_ret. split; [by apply cleaned_refl|]. exists [], acc, None. split_and!; try done.
    - destruct acc as [[] ?]. unfold swept. cbn. by rewrite app_nil_r, union_empty_l_L.
    - by intros d ?%elem_of_nil. }
  apply wp_bind, wp_attempt. eapply wp_mono; [by apply reconcileOne_wp|]. intros r1 c1 st1 (Hcl1 & Hok1 & Htot1).
  destruct r1 as [acc1|e].
  2:{ apply wp_ret. split; [done|]. exists [], acc, (Some e). split_and!; try done.
      - destruct acc as [[] ?]. unfold swept. cbn. by rewrite app_nil_r, union_empty_l_L.
      - apply prefix_nil.
      - by intros d' ?%elem_of_nil.
      - intros Hc Hq [Hk _]%list.Forall_cons. by destruct Htot1 as [? _]. }
  destruct (Hok1 _ eq_refl) as (-> & Hk & Hgone). eapply wp_mono; [apply IH, Hcl1|].
  intros r2 c2 st2 (Hcl2 & don & acc2 & e & -> & -> & Hpre & Hno & He & Htot2). split; [by eapply cleaned_trans|].
  exists (d :: don), (swept st (d :: don) acc), e. split_and!.
  - do 2 f_equal. change (d :: don) with ([d] ++ don). rewrite swept_app. unfold swept. by rewrite (cl_abs _ _ Hcl1).
  - done.
  - by apply prefix_cons.
  - intros d' [->|Hin]%elem_of_cons Hn; [by apply (cleaned_gone st1), Hgone|]. apply Hno; [done|]. by rewrite (cl_abs _ _ Hcl1).
  - intros Hn. destruct (He Hn) as [-> ?]. split; [done|by constructor].
  - intros Hc Hq [_ Hks]%list.Forall_cons. apply Htot2; [|by apply Hcl1|done]. by apply Htot1.
Qed.

(** The pass over the stored objects only reports. *)
Definition missed (recorded : gset bytes) (ds : list Digest) (rep : ReconcileReport) : ReconcileReport :=
  mkReconcileReport (Records rep) (Removed rep) (Unrecorded rep ++ filter (fun d => DString d ∉ recorded) ds) (Foreign rep).
Lemma unrecordedLoop_wp recorded ds : forall rep c (st : L * FS),
  wp (reporting ds rep (unrecordedOne recorded)) (fun r c' st' => st' = st /\
    exists don e, r = Ok (missed recorded don rep, e) /\ (e = None -> don = ds) /\ (c = [] -> e = None /\ c' = [])) c st.
Proof.
  assert (Hnil : forall rep, missed recorded [] rep = rep) by (intros []; unfold missed; cbn; by rewrite app_nil_r).
  induction ds as [|d ds IH]; intros rep c st; cbn [reporting].
  { apply wp_ret. split; [done|]. exists [], None. by rewrite Hnil. }
  apply wp_bind, wp_attempt. unfold unrecordedOne at 1. apply wp_bind, wp_ctxErr.
  2:{ intros e c' Hc _. apply wp_ret. split; [done|]. exists [], (Some e). rewrite Hnil. split_and!; [done..|by intros ->]. }
  intros c1 Hc1. apply wp_ret. eapply wp_mono; [apply IH|]. intros r2 c2 st2 (-> & don & e & -> & He & Hctx). split; [done|].
  exists (d :: don), e. split_and!; [|by intros ->%He|auto]. do 2 f_equal. unfold missed. rewrite list.filter_cons.
  destruct (decide (DString d ∈ recorded)).
  - rewrite decide_False by (intros Hn; by apply Hn). done.
  - rewrite decide_True by done. cbn. by rewrite <- app_assoc.
Qed.

(** The report of a whole pass over a store whose objects are [ds]. *)
Definition reconciled (st : L * FS) (ds : list Digest) : ReconcileReport :=
  let '(keys, foreign) := listed (tree st.2) in
  mkReconcileReport (blen keys) (filter (fun d => abs st !! d = None) keys)
    (filter (fun d => DString d ∉ (list_to_set (DString <$> keys) : gset bytes)) ds) foreign.

Lemma elem_of_keysListed t d : metaOk t -> d ∈ (listed t).1 <-> d <> [] /\ is_Some (recFile t d).
Proof. intros Ho. unfold listed. cbn [fst]. by rewrite merge_sort_Permutation, elem_of_keysIn. Qed.
Lemma elem_of_reconciled st ds d : inv st -> (forall d, d ∈ ds <-> is_Some (abs st !! d)) ->
  (d ∈ Removed (reconciled st ds) <-> d <> [] /\ is_Some (recFile (tree st.2) d) /\ abs st !! d = None) /\
  (d ∈ Unrecorded (reconciled st ds) <-> is_Some (abs st !! d) /\ recFile (tree st.2) d = None).
Proof.
  intros [Hi Ho] Hds. pose proof (fun d => elem_of_keysListed (tree st.2) d Ho) as Hl. unfold reconciled.
  destruct (listed (tree st.2)) as [keys foreign]. cbn [fst Removed Unrecorded] in *. rewrite !list_elem_of_filter, Hl, Hds. split; [tauto|].
  rewrite elem_of_list_to_set. split; intros [H1 H2].
  - split; [done|]. destruct (recFile (tree st.2) d) as [data|] eqn:E; [|done]. exfalso. apply H1. apply (list_elem_of_fmap_2 DString), Hl.
    split; [|by rewrite E]. apply (bs_key_nonzero d), (bs_abs_key st.1 d Hi H2).
  - split; [|done]. intros (d' & Hd'%(inj DString) & Hk)%list_elem_of_fmap. subst d'. apply Hl in Hk as [_ Hk]. rewrite H2 in Hk. by destruct Hk.
Qed.

Lemma Reconcile_wp c st : inv st ->
  wp (Reconcile inner outside) (fun r c' st' => cleaned st st' /\
    (forall rep e, r = Ok (rep, e) ->
      (forall d, d ∈ Removed rep -> abs st !! d = None /\ recFile (tree st'.2) d = None) /\
      (e = None -> Forall key (listed (tree st.2)).1 /\
        (forall d, d <> [] -> abs st !! d = None -> recFile (tree st'.2) d = None) /\
        exists ds c0 c1 s', bk_List inner c0 s' = (Ok ds, c1, st'.1) /\ linv s' /\ labs s' = labs st.1 /\ rep = reconciled st ds)) /\
    (c = [] -> quiet st -> Forall key (listed (tree st.2)).1 -> exists rep, r = Ok (rep, None) /\ c' = [])) c st.
Proof.
  intros Hst. unfold Reconcile. apply wp_bind, wp_ctxErr; [|intros e c' Hc _; split_and!; [by apply cleaned_refl|done|by intros ->]].
  intros c1 Hc1. apply wp_bind, wp_onSnd. eapply wp_mono; [apply listRecords_wp, Hst|]. intros r2 c2 s2 (He2 & Hx2 & Htot2).
  assert (Hcl2 : cleaned st (st.1, s2)).
  { pose proof (evolves_keepsRec _ _ He2) as Hk. destruct Hst as [Hi Ho]. split; [split; [done|by apply (kr_ok _ _ Hk)]| |done|].
    - intros [? ?]. split; [done|by apply (kr_quiet _ _ Hk)].
    - intros d. left. by apply recFile_same, Hk. }
  destruct r2 as [[keys foreign]|e].
  2:{ split_and!; [done..|]. intros Hc [_ Hf] _. by destruct (Htot2 (Hc1 Hc) Hf). }
  pose proof (fun d => elem_of_keysListed (tree st.2) d (proj2 Hst)) as Hl. specialize (Hx2 _ eq_refl). unfold reconciled. rewrite <- Hx2 in *. cbn [fst] in *.
  apply wp_bind. eapply wp_mono; [apply reconcileLoop_wp, Hcl2|].
  intros r3 c3 st3 (Hcl3 & don & acc3 & e3 & -> & -> & Hpre & Hno & He3 & Htot3).
  pose proof (cleaned_trans _ _ _ Hcl2 Hcl3) as Hcl. cbn [swept Records Removed Unrecorded Foreign app]. rewrite union_empty_r_L.
  change (abs (st.1, s2)) with (abs st) in *.
  assert (Hrem : forall st', cleaned st3 st' -> forall d, d ∈ filter (fun d => abs st !! d = None) don -> abs st !! d = None /\ recFile (tree st'.2) d = None).
  { intros st' Hcl' d [Hn Hin]%list_elem_of_filter. split; [done|]. eapply cleaned_gone; [done|]. by apply Hno. }
  assert (Hctx : c = [] -> quiet st -> Forall key keys -> e3 = None /\ c3 = []).
  { intros Hc Hq Hk. apply Htot3; [|by apply Hcl2|done]. destruct Hq. by apply Htot2; [apply Hc1|]. }
  destruct e3 as [e3|].
  { apply wp_ret. split_and!; [done| |].
    - intros rep e [= <- <-]. split; [|done]. apply Hrem, cleaned_refl, Hcl3.
    - intros Hc Hq Hk. by destruct (Hctx Hc Hq Hk). }
  destruct (He3 eq_refl) as [-> Hkeys]. apply wp_bind, wp_attempt, wp_onFst, wp_intro. intros r4 c4 l4 E4.
  pose proof (cl_inv _ _ Hcl) as [Hi3 Ho3]. pose proof (bs_List _ _ _ _ _ Hi3 E4) as (Hi4 & Hq4 & Ha4 & _).
  assert (Hcl4 : cleaned st3 (l4, st3.2)).
  { split; [by split|intros [? ?]; split; [by apply Hq4|done]|done|by left]. }
  destruct r4 as [ds|e4].
  2:{ apply wp_ret. split_and!; [by eapply cleaned_trans| |].
      - intros rep e [= <- <-]. split; [|done]. by apply Hrem.
      - intros Hc Hq Hk. destruct (Hctx Hc Hq Hk) as [_ ->]. destruct (cl_quiet _ _ Hcl Hq) as [Hq3 _].
        destruct (bs_List_total st3.1 Hi3 Hq3) as (? & ? & E'). by rewrite E4 in E'. }
  eapply wp_mono; [apply unrecordedLoop_wp|]. intros r5 c5 st5 (-> & don5 & e5 & -> & He5 & Hctx5).
  split_and!; [by eapply cleaned_trans| |].
  - intros rep e [= <- <-]. split; [by apply Hrem|]. intros ->. rewrite (He5 eq_refl). split_and!; [done| |].
    + intros d Hd Hn. destruct (recFile (tree st.2) d) eqn:E; [|by apply (cleaned_gone st (l4, st3.2)); [by eapply cleaned_trans|]].
      eapply cleaned_gone; [exact Hcl4|]. apply Hno; [|done]. apply Hl. by rewrite E.
    + exists ds, c3, c4, st3.1. split_and!; [done..|exact (cl_abs _ _ Hcl)|done].
  - intros Hc Hq Hk. destruct (Hctx Hc Hq Hk) as [_ ->]. destruct (cl_quiet _ _ Hcl Hq) as [Hq3 _].
    destruct (bs_List_total st3.1 Hi3 Hq3) as (? & ? & E'). rewrite E4 in E'. simplify_eq.
    destruct (Hctx5 eq_refl) as [-> ->]. by eexists.
Qed.

(** C12. Reconcile removes orphaned records and nothing else.  Under any
    context and whatever fails, no object changes, the record of a stored object
    is left as it is, every record in [Removed] was an orphan and is gone; a
    report without an error means that no orphan is left, and (the backend
    listing the digests it can address) that the report holds exactly the
    orphans and the stored objects that had no record, the record files
    counted.  On a working disk the pass does succeed, unless the record
    directory holds a record of a digest the backend cannot address: then it
    fails under every context, whatever else happens. *)
Theorem sidecar_Reconcile_spec st : inv st ->
  (forall c r c' st', Reconcile inner outside c st = (r, c', st') -> cleaned st st' /\
    forall rep e, r = Ok (rep, e) ->
      (forall d, d ∈ Removed rep -> abs st !! d = None /\ recFile (tree st'.2) d = None) /\
      (e = None ->
        (forall d, d <> [] -> is_Some (recFile (tree st'.2) d) -> is_Some (abs st !! d)) /\
        ((forall c l c' s', bk_List inner c s' = (Ok l, c', st'.1) -> Forall key l) ->
          Records rep = blen (listed (tree st.2)).1 /\ Foreign rep = (listed (tree st.2)).2 /\
          (forall d, d ∈ Removed rep <-> d <> [] /\ is_Some (recFile (tree st.2) d) /\ abs st !! d = None) /\
          (forall d, d ∈ Unrecorded rep <-> is_Some (abs st !! d) /\ recFile (tree st.2) d = None)))) /\
  (quiet st -> (forall d, d <> [] -> is_Some (recFile (tree st.2) d) -> key d) ->
    exists rep st', Reconcile inner outside [] st = (Ok (rep, None), [], st')) /\
  (forall d c rep c' st', d <> [] -> is_Some (recFile (tree st.2) d) -> ~ key d ->
    Reconcile inner outside c st <> (Ok (rep, None), c', st')).
Proof.
  intros Hst. pose proof (fun d => elem_of_keysListed (tree st.2) d (proj2 Hst)) as Hl. split_and!.
  - intros c r c' st' H. apply (wp_run _ _ _ _ _ _ _ (Reconcile_wp c st Hst)) in H as (Hcl & Hr & _). split; [done|].
    intros rep e He. destruct (Hr rep e He) as [Hrem Hx]. split; [done|]. intros Hn. destruct (Hx Hn) as (Hk & Hgone & ds & c0 & c1 & s' & E & Hs' & Ha' & ->). split.
    + intros d Hd [x Hsome]. destruct (abs st !! d) eqn:En; [done|]. by rewrite (Hgone d Hd En) in Hsome.
    + intros Hlist. pose proof (bs_List _ _ _ _ _ Hs' E) as (_ & _ & _ & _ & _ & Hin). apply Hlist in E.
      assert (Hds : forall d, d ∈ ds <-> is_Some (abs st !! d)).
      { rewrite list.Forall_forall in E. change (abs st) with (labs st.1). rewrite <- Ha'. intros d. split.
        - intros Hd. apply Hin; [by apply E|done].
        - intros Hd. apply Hin; [by apply (bs_abs_key s')|done]. }
      split_and!; [unfold reconciled; by destruct (listed (tree st.2))..| |]; intros d; by apply (elem_of_reconciled st ds d Hst Hds).
  - intros Hq Hkeys. destruct (Reconcile inner outside [] st) as [[r c'] st'] eqn:E.
    apply (wp_run _ _ _ _ _ _ _ (Reconcile_wp [] st Hst)) in E as (_ & _ & Ht). destruct Ht as (rep & -> & ->); [done..| |by exists rep, st'].
    apply list.Forall_forall. intros d [Hd ?]%Hl. by apply Hkeys.
  - intros d c rep c' st' Hd Hsome Hk H. apply (wp_run _ _ _ _ _ _ _ (Reconcile_wp c st Hst)) in H as (_ & Hr & _).
    destruct (Hr rep None eq_refl) as [_ Hx]. destruct (Hx eq_refl) as [Hkeys _]. rewrite list.Forall_forall in Hkeys. apply Hk, Hkeys, Hl. by split.
Qed.
End Recon.
