(* ===== verification/SidecarRuns.v ===== *)
(** Concrete runs of Sidecar over the memory backend and a disk, with a concrete
    record encoding; and what happens at the edge of the options' ranges. *)

From S2P Require Import Prelude Digest Binary Stream Envelope Backend MemBackend Store FileSystem AtomicFile Wp OsFile RefText Sidecar SidecarDisk SidecarFacts SidecarRecon.
Import Sidecar.

(** ** A cap of [MaxInt64] *)

(** The writer accepts any record under the largest cap, and the reader none:
    the limit of its read is the cap plus one, which wraps around to a negative
    number, so it reads nothing of a record that is there. *)
Theorem maxRecordBytes_overflow outside jsonUnmarshal cfg d c s :
  maxRecordBytes cfg = MaxInt64 -> is_ok (jsonUnmarshal []) = false -> metaOk (tree s) -> is_Some (recFile (tree s) d) ->
  res_errIs (run_res (readRecord outside jsonUnmarshal cfg d c s)) ErrCorrupt = true.
Proof.
  intros Hcap Hj Ho [data Hd]. destruct (readRecord outside jsonUnmarshal cfg d c s) as [[r c'] s'] eqn:E. cbn.
  eapply (wp_run _ (fun r _ _ => res_errIs r ErrCorrupt = true)); [clear E|exact E].
  unfold readRecord. apply wp_bind, wp_attempt, wp_intro. intros r1 c1 s1 H. apply os_Open_inv in H as (-> & _ & Hr).
  unfold recFile in Hd. destruct (resolve_record outside (tree s) true d Ho) as [(x & m & Hx & HR)|[Hx _]]; [|by rewrite Hx in Hd].
  rewrite HR in Hr. destruct r1 as [f|e].
  2:{ destruct Hr as [[_ Hpl]|[[_ ?]|[_ [?|?]]]]; try done. rewrite Hpl. by apply wp_throw. }
  rewrite Hcap. change (int64 (MaxInt64 + 1)) with (- 2 ^ 63).
  assert (HL : LimitReader (- 2 ^ 63) (rc_reader f) = mkReader [] (Sentinel EOF)) by (unfold LimitReader; by destruct (rd_chunks (rc_reader f))).
  rewrite HL. apply wp_bind, wp_intro. intros r2 c2 s2 [= <- <- <-]. change (MaxInt64 <? blen []) with false. cbv iota.
  apply wp_bind, wp_lift. unfold decodeRecord. by destruct (jsonUnmarshal []).
Qed.

(** A zero or negative cap is ignored, whatever cap was set before it. *)
Theorem maxRecordBytes_ignored n c : n <= 0 -> option_ c (WithMaxRecordBytes n) = c.
Proof. intros Hn. unfold option_. by destruct (Z.ltb_spec 0 n); [lia|]. Qed.

(** ** A concrete store *)
#[export] Instance sidecarRecord_eq_dec : EqDecision SidecarRecord.
Proof. solve_decision. Defined.
#[export] Program Instance sidecarRecord_countable : Countable SidecarRecord :=
  inj_countable (fun r => (Version r, RDigest r, Type_ r, Codec_ r, ChecksumAlgo r, Checksum r, Size r, CreatedAt r))
    (fun t => let '(v, d, ty, co, al, su, sz, at_) := t in Some (mkRecord v d ty co al su sz at_)) _.
Next Obligation. by intros []. Qed.
Definition marshalRecord (r : SidecarRecord) : res bytes := Ok (x31 :: posBits (countable.encode r)).
Definition unmarshalRecord (s : bytes) : res SidecarRecord :=
  match s with
  | [] => Err (New "unexpected end of JSON input")
  | _ :: s => match decode (bitsPos s) with Some r => Ok r | None => Err (New "invalid character") end
  end.

Definition sumAlgo : bytes := str "sum".
Definition sumConfig : config := mkConfig (str "/base") sumAlgo (Some sumHasher) true (2 ^ 40).
Abbreviation sidePut := (Put Mem.Backend (fun _ => None) (fun _ => str "1") marshalRecord unmarshalRecord 12 (fun _ _ _ _ => true) sumConfig).
Abbreviation sideInv := (SidecarFacts.inv Mem.inv).
Abbreviation sideAbs := (SidecarFacts.abs Mem.objects).

Lemma sumConfig_cap : 0 <= maxRecordBytes sumConfig < MaxInt64.
Proof. done. Qed.
Lemma sumConfig_hashes : hashes sumConfig sumHash.
Proof. intros h [= <-]. apply sumHasher_spec. Qed.
Lemma sumConfig_roundtrip : jsonRoundtrip marshalRecord unmarshalRecord sumConfig.
Proof.
  intros r data _ [= <-]. exists r. split; [unfold unmarshalRecord; by rewrite bitsPos_posBits, decode_encode|].
  exists (Type_ r), (Codec_ r). by destruct r.
Qed.
Lemma emptyDisk_metaOk : metaOk (tree emptyDisk).
Proof.
  split; [apply emptyDisk_parents|done|left; by apply lookup_singleton_ne|].
  intros d. assert (H : tree emptyDisk !! recordPath d = None) by by apply lookup_singleton_ne. by rewrite H.
Qed.

(** An empty store, then one object and its record. *)
Definition address (data : bytes) : Digest := x01 :: data.
Definition helloDigest : Digest := address (str "hi").
Definition st0 : Mem.Mem * FS := (Mem.New 0, emptyDisk).
Definition st1 : Mem.Mem * FS := (sidePut helloDigest (Some (bytesReader (str "hi"))) [] st0).2.

Lemma st0_inv : sideInv st0.
Proof. split; [by apply Mem.mem_New_inv|apply emptyDisk_metaOk]. Qed.
Lemma st1_run : sidePut helloDigest (Some (bytesReader (str "hi"))) [] st0 = (Ok tt, [], st1).
Proof. assert (H : (sidePut helloDigest (Some (bytesReader (str "hi"))) [] st0).1 = (Ok tt, [])) by (vm_compute; reflexivity). unfold st1. by destruct (sidePut _ _ _ st0) as [[]]; simplify_eq/=. Qed.
Lemma st1_inv : sideInv st1.
Proof.
  pose proof (sidecarPut_wp Mem.Backend Mem.inv (fun _ => True) Mem.key Mem.objects (HB := Mem.mem_BackendSpec) (fun _ => None) (fun _ => str "1")
    marshalRecord unmarshalRecord 12 (fun _ _ _ _ => true) sumConfig sumConfig_cap sumHash helloDigest (bytesReader (str "hi")) [] st0
    sumConfig_hashes st0_inv) as H.
  apply (wp_run _ _ _ _ _ _ _ H st1_run).
Qed.
Abbreviation sideQuiet := (SidecarFacts.quiet (fun _ : Mem.Mem => True)).
Lemma st1_quiet : sideQuiet st1.
Proof. split; [done|vm_compute; reflexivity]. Qed.
Abbreviation sideJudge := (judge Mem.objects unmarshalRecord sumConfig sumAlgo sumHash).
Lemma st1_judge : sideJudge st1 helloDigest = Agrees.
Proof. vm_compute. reflexivity. Qed.

Example sidecar_refines_witness :
  sideInv st1 /\ sideAbs st1 !! helloDigest = Some (str "hi") /\
  BackendSpec (Backend_ Mem.Backend (fun _ => None) (fun _ => str "1") marshalRecord unmarshalRecord 12 (fun _ _ _ _ => true) sumConfig)
    sideInv sideQuiet Mem.key sideAbs.
Proof.
  split; [exact st1_inv|]. split; [vm_compute; reflexivity|].
  exact (sidecar_refines Mem.Backend Mem.inv (fun _ => True) Mem.key Mem.objects (HB := Mem.mem_BackendSpec) (fun _ => None) (fun _ => str "1")
    marshalRecord unmarshalRecord 12 (fun _ _ _ _ => true) sumConfig sumConfig_cap sumHash sumConfig_hashes).
Defined.

Abbreviation sideVerify d := (Verify Mem.Backend (fun _ => None) unmarshalRecord sumConfig sumAlgo (Some sumHasher) d).
Example sidecar_Verify_spec_witness : exists st', sideVerify helloDigest [] st1 = (Ok tt, [], st').
Proof.
  destruct (proj2 (sidecar_Verify_spec Mem.Backend Mem.inv (fun _ => True) Mem.key Mem.objects (HB := Mem.mem_BackendSpec) (fun _ => None)
    marshalRecord unmarshalRecord (fun _ _ _ _ => true) sumConfig sumConfig_cap sumAlgo sumHasher sumHash helloDigest st1 sumHasher_spec st1_inv))
    as (r & st' & H & Ho).
  - exact st1_quiet.
  - discriminate.
  - discriminate.
  - rewrite st1_judge in Ho. exists st'. rewrite H. f_equal. f_equal. exact Ho.
Defined.

Example sidecar_VerifyAll_spec_witness :
  exists ds st', VerifyAll Mem.Backend (fun _ => None) unmarshalRecord sumConfig sumAlgo (Some sumHasher) [] st1 =
    (Ok (reportOf Mem.objects unmarshalRecord sumConfig sumAlgo sumHash st1 ds, None), [], st') /\ helloDigest ∈ ds.
Proof.
  destruct (proj2 (sidecar_VerifyAll_spec Mem.Backend Mem.inv (fun _ => True) Mem.key Mem.objects (HB := Mem.mem_BackendSpec) (fun _ => None)
    marshalRecord unmarshalRecord (fun _ _ _ _ => true) sumConfig sumConfig_cap sumAlgo sumHasher sumHash sumHasher_spec st1 st1_inv ltac:(discriminate))
    st1_quiet (fun c l c' s' => mem_List_keys c l c' _ s')) as (ds & rep & err & st' & H & _ & _ & _ & Hin & Hok & _).
  destruct Hok as [-> ->].
  - intros d [data Hd]. destruct (decide (d = helloDigest)) as [->|Hne]; [rewrite st1_judge; discriminate|].
    exfalso. revert Hd. assert (Ha : sideAbs st1 = {[helloDigest := str "hi"]}) by (vm_compute; reflexivity).
    rewrite Ha, lookup_singleton_ne; [discriminate|congruence].
  - exists ds, st'. split; [exact H|]. apply Hin. exists (str "hi"). vm_compute. reflexivity.
Defined.

Lemma address_inj a b : address a = address b -> sumHash a = sumHash b /\ blen a = blen b.
Proof. by intros [= ->]. Qed.
Abbreviation sideSound := (sound Mem.objects unmarshalRecord sumConfig address sumHash).
Lemma st0_sound : sideSound st0.
Proof.
  split; [intros d data H; by change ((∅ : gmap Digest bytes) !! d = Some data) in H|]. intros d rec. unfold recordAt, recFile.
  assert (H : tree st0.2 !! recordPath d = None) by by apply lookup_singleton_ne. by rewrite H.
Qed.
Example sidecar_stays_sound_witness : sideSound st1 /\ sideJudge st1 helloDigest = Agrees.
Proof.
  destruct (sidecar_stays_sound Mem.Backend Mem.inv (fun _ => True) Mem.key Mem.objects (HB := Mem.mem_BackendSpec) (fun _ => None) (fun _ => str "1")
    marshalRecord unmarshalRecord 12 (fun _ _ _ _ => true) sumConfig sumConfig_cap address sumHash address_inj sumConfig_hashes sumConfig_roundtrip
    ltac:(discriminate) ltac:(discriminate)) as [H _].
  destruct (H helloDigest (bytesReader (str "hi")) [] st0 (Ok tt) [] st1 st0_inv st0_sound) as [Hs Hj].
  - vm_compute. reflexivity.
  - exact st1_run.
  - split; [exact Hs|]. apply Hj; [reflexivity|discriminate|]. intros data Hd.
    assert (E : sideAbs st1 !! helloDigest = Some (str "hi")) by (vm_compute; reflexivity). rewrite E in Hd. injection Hd as <-. reflexivity.
Defined.

(** The object is lost, its record is not. *)
Definition st2 : Mem.Mem * FS := (Mem.New 0, st1.2).
Lemma st2_inv : sideInv st2.
Proof. split; [by apply Mem.mem_New_inv|apply st1_inv]. Qed.
Example sidecar_Reconcile_spec_witness :
  is_Some (recFile (tree st2.2) helloDigest) /\
  exists rep st', Reconcile Mem.Backend (fun _ => None) [] st2 = (Ok (rep, None), [], st') /\
    helloDigest ∈ Removed rep /\ recFile (tree st'.2) helloDigest = None.
Proof.
  assert (Hrec : is_Some (recFile (tree st2.2) helloDigest)).
  { assert (H : match recFile (tree st2.2) helloDigest with Some _ => true | None => false end = true) by (vm_compute; reflexivity).
    destruct (recFile (tree st2.2) helloDigest) as [file|]; [by exists file|discriminate]. }
  split; [exact Hrec|].
  destruct (sidecar_Reconcile_spec Mem.Backend Mem.inv (fun _ => True) Mem.key Mem.objects (HB := Mem.mem_BackendSpec) (fun _ => None) st2 st2_inv)
    as (Hany & Hrun & _).
  destruct Hrun as (rep & st' & H); [split; [done|exact (proj2 st1_quiet)]|intros d Hd _; exact Hd|].
  exists rep, st'. split; [exact H|]. destruct (Hany _ _ _ _ H) as [_ Hr]. destruct (Hr rep None eq_refl) as [Hrem Hx].
  destruct (Hx eq_refl) as [_ Hex]. destruct (Hex (fun c l c' s' => mem_List_keys c l _ s' _)) as (_ & _ & Hin & _).
  assert (Hd : helloDigest ∈ Removed rep) by (apply Hin; split; [discriminate|split; [exact Hrec|reflexivity]]).
  split; [exact Hd|]. apply (Hrem _ Hd).
Defined.
