(* ===== verification/Crc64.v ===== *)
(** CRC-64 as the repository uses it (Go's hash/crc64 with the ECMA table): a
    checksum is linear over exclusive or, and continues across pieces.  It is
    the standard library's function, transcribed so that the header check built
    on it computes; its tables are the byte steps written out. *)

From S2P Require Import Prelude Binary.

(** [crc64.ECMA], the reversed polynomial. *)
Definition ECMA : Z := 0xC96C5795D7870F42.

(** One entry of the table: eight bit steps. *)
Definition crcBit (crc : Z) : Z := if Z.testbit crc 0 then Z.lxor (Z.shiftr crc 1) ECMA else Z.shiftr crc 1.
Definition crcTable (i : Z) : Z := Nat.iter 8 crcBit i.

(** The byte loop of [crc64.Update] between its two complements. *)
Definition crcByte (crc : Z) (b : byte) : Z := Z.lxor (crcTable (Z.land (Z.lxor crc (b2z b)) 255)) (Z.shiftr crc 8).
Definition crcLoop (crc : Z) (p : bytes) : Z := fold_left crcByte p crc.

Definition not64 (x : Z) : Z := Z.lxor x (2 ^ 64 - 1).
Definition Update (crc : Z) (p : bytes) : Z := not64 (crcLoop (not64 crc) p).
Definition Checksum (data : bytes) : Z := Update 0 data.

(** Exclusive or of bytes and of byte strings. *)
Definition xorByte (a b : byte) : byte := z2b (Z.lxor (b2z a) (b2z b)).
Definition xorBytes : bytes -> bytes -> bytes := zip_with xorByte.

(** The low [n] bytes of a word, least significant first. *)
Definition lowBytes (n : nat) (v : Z) : bytes := take n (rev (be_put 8 v)).

(** ** Continuation *)
Lemma not64_invol x : not64 (not64 x) = x.
Proof. unfold not64. by rewrite Z.lxor_assoc, Z.lxor_nilpotent, Z.lxor_0_r. Qed.
Lemma Update_app crc p q : Update (Update crc p) q = Update crc (p ++ q).
Proof. unfold Update, crcLoop. by rewrite not64_invol, fold_left_app. Qed.

(** ** Linearity *)
Lemma lxor_xchg a b c d : Z.lxor (Z.lxor a b) (Z.lxor c d) = Z.lxor (Z.lxor a c) (Z.lxor b d).
Proof. rewrite !Z.lxor_assoc. f_equal. rewrite <- !Z.lxor_assoc. f_equal. apply Z.lxor_comm. Qed.

Lemma crcBit_lxor a b : crcBit (Z.lxor a b) = Z.lxor (crcBit a) (crcBit b).
Proof.
  unfold crcBit. rewrite Z.lxor_spec, Z.shiftr_lxor.
  destruct (Z.testbit a 0), (Z.testbit b 0); cbn [xorb]; try done.
  - by rewrite lxor_xchg, Z.lxor_nilpotent, Z.lxor_0_r.
  - by rewrite !Z.lxor_assoc, (Z.lxor_comm ECMA).
  - by rewrite Z.lxor_assoc.
Qed.
Lemma crcTable_lxor a b : crcTable (Z.lxor a b) = Z.lxor (crcTable a) (crcTable b).
Proof. unfold crcTable. cbn [Nat.iter nat_rect]. by rewrite !crcBit_lxor. Qed.

Lemma land_lxor_distr a b c : Z.land (Z.lxor a b) c = Z.lxor (Z.land a c) (Z.land b c).
Proof. apply Z.bits_inj'. intros n _. rewrite Z.land_spec, !Z.lxor_spec, !Z.land_spec. by destruct (Z.testbit a n), (Z.testbit b n), (Z.testbit c n). Qed.
Lemma lxor_mod_256 a b : Z.lxor a b `mod` 256 = Z.lxor (a `mod` 256) (b `mod` 256).
Proof. change 256 with (2 ^ 8). rewrite <- !Z.land_ones by lia. apply land_lxor_distr. Qed.
Lemma b2z_xorByte a b : b2z (xorByte a b) = Z.lxor (b2z a) (b2z b).
Proof. unfold xorByte. rewrite b2z_z2b, lxor_mod_256, !Z.mod_small by apply b2z_range. done. Qed.
Lemma z2b_lxor a b : z2b (Z.lxor a b) = xorByte (z2b a) (z2b b).
Proof. apply (inj b2z). by rewrite b2z_xorByte, !b2z_z2b, lxor_mod_256. Qed.

Lemma crcByte_lxor c c' b b' : crcByte (Z.lxor c c') (xorByte b b') = Z.lxor (crcByte c b) (crcByte c' b').
Proof. unfold crcByte. by rewrite b2z_xorByte, lxor_xchg, land_lxor_distr, crcTable_lxor, Z.shiftr_lxor, lxor_xchg. Qed.
Lemma crcLoop_lxor p q : length p = length q -> forall c c',
  crcLoop (Z.lxor c c') (xorBytes p q) = Z.lxor (crcLoop c p) (crcLoop c' q).
Proof.
  unfold crcLoop, xorBytes. revert q. induction p as [|b p IH]; intros [|b' q] [=] c c'; [done|]. cbn [zip_with fold_left].
  by rewrite crcByte_lxor, IH.
Qed.
(** A change of the data changes the checksum by that change's own loop. *)
Lemma Checksum_lxor p q : length p = length q -> Checksum (xorBytes p q) = Z.lxor (Checksum p) (crcLoop 0 q).
Proof.
  intros H. unfold Checksum, Update. rewrite <- (Z.lxor_0_r (not64 0)) at 1. rewrite crcLoop_lxor by done.
  unfold not64. by rewrite !Z.lxor_assoc, (Z.lxor_comm (crcLoop 0 q)).
Qed.

Lemma be_put_lxor n a b : be_put n (Z.lxor a b) = xorBytes (be_put n a) (be_put n b).
Proof. unfold xorBytes. induction n as [|n IH]; [done|]. cbn [be_put zip_with]. by rewrite Z.shiftr_lxor, z2b_lxor, IH. Qed.
Lemma lowBytes_lxor n a b : lowBytes n (Z.lxor a b) = xorBytes (lowBytes n a) (lowBytes n b).
Proof.
  unfold lowBytes, xorBytes. rewrite be_put_lxor, <- zip_with_take. f_equal.
Qed.

(** ** Exclusive or of byte strings *)
Lemma xorByte_assoc a b c : xorByte (xorByte a b) c = xorByte a (xorByte b c).
Proof. apply (inj b2z). by rewrite !b2z_xorByte, Z.lxor_assoc. Qed.
Lemma xorByte_zero a b : xorByte a b = a <-> b = x00.
Proof.
  split; [|intros ->; apply (inj b2z); by rewrite b2z_xorByte, Z.lxor_0_r].
  intros H%(f_equal b2z). rewrite b2z_xorByte in H. apply (inj b2z). change (b2z x00) with 0.
  apply (f_equal (Z.lxor (b2z a))) in H. by rewrite <- Z.lxor_assoc, Z.lxor_nilpotent, Z.lxor_0_l in H.
Qed.
Lemma xorByte_eq a b : xorByte a b = x00 -> a = b.
Proof.
  intros H. assert (E : xorByte a (xorByte a b) = b).
  { rewrite <- xorByte_assoc. apply (inj b2z). rewrite !b2z_xorByte, Z.lxor_nilpotent. apply Z.lxor_0_l. }
  rewrite H in E. by rewrite (proj2 (xorByte_zero a x00) eq_refl) in E.
Qed.
Lemma xorBytes_zero a b : length a = length b -> xorBytes a b = a <-> b = replicate (length b) x00.
Proof.
  unfold xorBytes. revert b. induction a as [|x a IH]; intros [|y b] [=]; [done|]. cbn [zip_with length replicate].
  specialize (IH b H0). split.
  - intros [= Hx Ha]. f_equal; [by apply (xorByte_zero x)|by apply IH].
  - intros [= Hy Hb]. f_equal; [by apply xorByte_zero|by apply IH].
Qed.
Lemma xorBytes_eq a b : length a = length b -> xorBytes a b = replicate (length a) x00 -> a = b.
Proof.
  unfold xorBytes. revert b. induction a as [|x a IH]; intros [|y b] [=]; [done|]. cbn [zip_with length replicate].
  intros [= Hx%xorByte_eq Ha]. f_equal; auto.
Qed.
Lemma xorBytes_app a a' b b' : length a = length b -> xorBytes (a ++ a') (b ++ b') = xorBytes a b ++ xorBytes a' b'.
Proof. apply zip_with_app. Qed.
Lemma xorBytes_assoc a b c : xorBytes (xorBytes a b) c = xorBytes a (xorBytes b c).
Proof.
  unfold xorBytes. revert b c. induction a as [|x a IH]; intros [|y b] [|z c]; try done. cbn. by rewrite xorByte_assoc, IH.
Qed.
Lemma length_xorBytes a b : length a = length b -> length (xorBytes a b) = length a.
Proof. intros H. unfold xorBytes. apply length_zip_with_l_eq. done. Qed.
