(* ===== verification/Persistent.v ===== *)
(** The persistent Bloom filter (src/cas/bloom/persistent): a header that
    carries the index key and a checksum over it, and a bit set in bytes, kept
    in one file of the disk.

    How a view of the file is obtained, released and flushed is the driver's
    business, a record of operations as in the code; a filter keeps the bytes of
    its view.  An index out of range panics: it is [None]. *)

From Stdlib Require Import SpecFloat.
From S2P Require Import Prelude Digest Binary Stream Float64 Crc64 Bloom FileSystem AtomicFile OsFile.

Module Persistent.

(** ** The header (header.go) *)
Definition headerSize : nat := 48.
Definition keySize : nat := 32.
Definition hashKindDefault : byte := x00.
Definition hashKindCustom : byte := x01.
Definition checksumSchemeCRC64 : byte := x01.
Definition checksumSize : nat := 6.
Definition magic : bytes := str "CASKBLM1".

Definition headerChecksum (kind : byte) (key : bytes) : bytes := lowBytes checksumSize (Checksum (kind :: key)).

(** The destination with its first [headerSize] bytes overwritten. *)
Definition encodeHeader (dst : bytes) (kind : byte) (key : bytes) : bytes :=
  magic ++ [kind; checksumSchemeCRC64] ++ headerChecksum kind key ++ key ++ drop headerSize dst.

(** The kind and the key; [None] is not ok. *)
Definition decodeHeader (src : bytes) : option (byte * bytes) :=
  if (length src <? headerSize)%nat || negb (bool_decide (take 8 src = magic)) then None
  else
    let kind := default x00 (src !! 8%nat) in
    if negb (bool_decide (kind = hashKindDefault)) && negb (bool_decide (kind = hashKindCustom)) then None
    else if negb (bool_decide (default x00 (src !! 9%nat) = checksumSchemeCRC64)) then None
    else
      let key := take keySize (drop 16 src) in
      if negb (bool_decide (headerChecksum kind key = take 6 (drop 10 src))) then None
      else Some (kind, key).

Definition keyedIndexHash (key : bytes) : IndexHash :=
  let keySum := Update 0 key in
  fun data i => Update (Update keySum data) (rev (be_put 8 i)).

(** ** The driver (mmap_platform.go) *)
(** A nil function is [None]; a mapping knows the file it is of.  The view is a
    value of its own here; where it is a shared mapping the file may show the stores
    made through it before they are flushed, which PersistentFacts allows for. *)
Record mmapDriver := mkDriver {
  mmapBytes : option (path -> Z -> M FS (bool * bytes));
  closeMapped : option (bytes -> M FS unit);
  flushMapped : option (path -> bytes -> M FS unit);
}.
Definition mapFile (d : mmapDriver) (p : path) (size : Z) : M FS (bool * bytes) :=
  match mmapBytes d with
  | None => throw (Prelude.New "no memory-mapping driver configured")
  | Some f => f p size
  end.
Definition unmap (d : mmapDriver) (data : bytes) : M FS unit :=
  match closeMapped d with None => mret tt | Some f => f data end.
Definition flush (d : mmapDriver) (p : path) (data : bytes) : M FS unit :=
  match flushMapped d with None => mret tt | Some f => f p data end.

(** ** Calls on the open file *)
Definition file_Size : path -> M FS Z := os_SeekEnd.
(** The content cut or filled up with zero bytes. *)
Definition resizeTo (size : Z) (data : bytes) : bytes := take (Z.to_nat size) (data ++ replicate (Z.to_nat size) x00).
Definition file_Truncate (p : path) (size : Z) : M FS unit :=
  syscall;;
  s ← get;
  match tree s !! p with
  | Some (File data _) => setTree (<[p := File (resizeTo size data) (clock s)]>)
  | _ => throw (Prelude.New "invalid argument")
  end.
(** [os.WriteFile]: the file is cut to nothing first; the write's error comes
    before the close's. *)
Definition os_WriteFile (outside : path -> option entry) (p : path) (data : bytes) : M FS unit :=
  os_OpenAppend outside p;;
  s ← get;
  match tree s !! p with
  | Some (File _ _) => setTree (<[p := File [] (clock s)]>)
  | _ => mret tt
  end;;
  werr ← attempt (os_Append p data);
  cerr ← attempt syscall;
  lift werr;;
  lift cerr.

Definition readPadded (outside : path -> option entry) (p : path) (size : Z) : M FS bytes :=
  buf ← mapErr (Errorf "bloom/persistent: read persistent file: %w") (os_ReadFile outside p);
  mret (resizeTo size buf).

(** The driver of a platform without mappings (persistent_windows.go). *)
Definition heapMmapBytes (outside : path -> option entry) (p : path) (size : Z) : M FS (bool * bytes) :=
  if size <=? 0 then mret (false, [])
  else
    buf ← readPadded outside p size;
    mret (false, buf).
Definition heapDriver (outside : path -> option entry) : mmapDriver :=
  mkDriver (Some (heapMmapBytes outside)) (Some (fun _ => mret tt)) (Some (fun _ _ => mret tt)).

(** ** The filter (filter.go) *)
(** [raw] is the header and the bit set, of which [data] is a view. *)
Record Filter := mkFilter {
  file : bool;
  header : bytes;
  data : bytes;
  k : Z;
  m : Z;
  hash : option IndexHash;
  mapped : bool;
  rebuilt : bool;
  closed : bool;
  fpath : path;
}.
Definition raw (f : Filter) : bytes := header f ++ data f.
Definition withData (f : Filter) (d : bytes) : Filter :=
  mkFilter (file f) (header f) d (k f) (m f) (hash f) (mapped f) (rebuilt f) (closed f) (fpath f).

Record Config := mkConfig { ExpectedItems : Z; FalsePositiveRate : float64; Hash : option IndexHash }.

Section Filter.
Variable outside : path -> option entry.
Variable Log : float64 -> float64.
Variable unrepresentable : Z.
(** [crypto/rand] for an index key. *)
Variable randRead : res bytes.
Variable driver : mmapDriver.

Definition syncLocked (f : Filter) : M FS unit :=
  if (length (raw f) =? 0)%nat then mret tt
  else if mapped f then
    flush driver (fpath f) (raw f);;
    if file f then mapErr (Errorf "bloom/persistent: sync persistent file: %w") syscall else mret tt
  else mapErr (Errorf "bloom/persistent: write persistent file: %w") (os_WriteFile outside (fpath f) (raw f)).

Definition closedOf (f : Filter) : Filter :=
  mkFilter false [] [] (k f) (m f) (hash f) (mapped f) (rebuilt f) true (fpath f).

(** The closed filter, and the first error of the flush, the unmapping and the
    close. *)
Definition closeLocked (f : Filter) : M FS (Filter * option error) :=
  if closed f then mret (f, None)
  else
    serr ← attempt (syncLocked f);
    uerr ← attempt (if mapped f && negb (length (raw f) =? 0)%nat then unmap driver (raw f) else mret tt);
    cerr ← attempt (if file f then mapErr (Errorf "bloom/persistent: close persistent file: %w") syscall else mret tt);
    mret (closedOf f, match serr, uerr, cerr with
                      | Err e, _, _ | Ok _, Err e, _ | Ok _, Ok _, Err e => Some e
                      | Ok _, Ok _, Ok _ => None
                      end).

Definition randomKey : res bytes := wrapErr (Errorf "bloom/persistent: read index key: %w") randRead.

Definition initIndexHash (f : Filter) (custom : option IndexHash) : res Filter :=
  let kind := match custom with None => hashKindDefault | Some _ => hashKindCustom end in
  let got := decodeHeader (header f) in
  let usable := match got with Some (gotKind, _) => bool_decide (gotKind = kind) | None => false end in
  '(f, key) ← (if usable then Ok (f, match got with Some (_, key) => key | None => [] end)
               else
                 key ← randomKey;
                 Ok (mkFilter (file f) (encodeHeader (header f) kind key) ((fun _ => x00) <$> data f) (k f) (m f) (hash f)
                       (mapped f) true (closed f) (fpath f), key));
  Ok (mkFilter (file f) (header f) (data f) (k f) (m f)
        (Some (match custom with Some h => h | None => keyedIndexHash key end))
        (mapped f) (rebuilt f) (closed f) (fpath f)).

(** Dropping the handle after a failed step: the close's own error is ignored. *)
Definition closeFile : M FS unit := attempt syscall;; mret tt.

Definition newFilter (cfg : Config) (p : path) : M FS Filter :=
  if ExpectedItems cfg =? 0 then throw (Prelude.New "bloom/persistent: expected items must be > 0")
  else
    lift (ValidateFalsePositiveRate (FalsePositiveRate cfg));;
    '(m, k) ← lift (wrapErr (Errorf "bloom/persistent: %w") (Parameters Log unrepresentable (ExpectedItems cfg) (FalsePositiveRate cfg)));
    mapErr (Errorf "bloom/persistent: open persistent file: %w") (os_OpenAppend outside p);;
    let bytesLen := (m + 7) / 8 in
    let total := Z.of_nat headerSize + bytesLen in
    size ← orElse (file_Size p) closeFile (Errorf "bloom/persistent: stat persistent file: %w");
    (if size <? total then orElse (file_Truncate p total) closeFile (Errorf "bloom/persistent: resize persistent file: %w") else mret tt);;
    '(mapped, raw) ← orElse (mapFile driver p total) closeFile (Errorf "bloom/persistent: map persistent file: %w");
    let f := mkFilter true (take headerSize raw) (drop headerSize raw) k m None mapped false false p in
    match initIndexHash f (Hash cfg) with
    | Err err => attempt (closeLocked f);; throw err
    | Ok f => mret f
    end.

Definition Sync (f : Filter) : M FS unit := if closed f then mret tt else syncLocked f.
Definition Close (f : Filter) : M FS (Filter * option error) := closeLocked f.
End Filter.

Definition Rebuilt (f : Filter) : bool := rebuilt f.
Definition IsMapped (f : Filter) : bool := mapped f && negb (closed f).

(** [hash(data, i) % m]; a filter without a hash, or of no bits, panics. *)
Definition probe (f : Filter) (d : Digest) (i : Z) : option Z :=
  h ← hash f;
  if m f =? 0 then None else Some (h d i `mod` m f).

Definition setBit (idx : Z) (bs : bytes) : option bytes :=
  let j := Z.to_nat (Z.shiftr idx 3) in
  b ← bs !! j;
  Some (<[j := z2b (Z.lor (b2z b) (Z.shiftl 1 (Z.land idx 7)))]> bs).
Definition getBit (idx : Z) (bs : bytes) : option bool :=
  b ← bs !! Z.to_nat (Z.shiftr idx 3);
  Some (negb (Z.land (b2z b) (Z.shiftl 1 (Z.land idx 7)) =? 0)).

Definition Add (f : Filter) (d : Digest) : option Filter :=
  if IsZero d then Some f
  else if closed f then Some f
  else
    bs ← loop (probes (k f)) (fun i bs => idx ← probe f d i; setBit idx bs) (data f);
    Some (withData f bs).

Definition contains_go (f : Filter) (d : Digest) (ps : list Z) : option bool :=
  allOf ps (fun i => idx ← probe f d i; getBit idx (data f)).
Definition Contains (f : Filter) (d : Digest) : option bool :=
  if IsZero d then Some false
  else if closed f then Some false
  else contains_go f d (probes (k f)).

Definition Reset (f : Filter) : Filter := if closed f then f else withData f ((fun _ => x00) <$> data f).

End Persistent.
