(* ===== verification/PersistentHeader.v ===== *)
(** The persistent filter's header: what the decoder accepts, the corruption the
    checksum detects, and the index hash that the key determines. *)

From S2P Require Import Prelude Digest Binary Crc64 Bloom Persistent.
Import Persistent.

(** ** What the decoder accepts *)
Definition knownKind (kind : byte) : Prop := kind = hashKindDefault \/ kind = hashKindCustom.

Lemma length_headerChecksum kind key : length (headerChecksum kind key) = 6%nat.
Proof. unfold headerChecksum, lowBytes, checksumSize. by rewrite length_take, length_rev, length_be_put. Qed.

Lemma length_encodeHeader dst kind key : length key = keySize -> length dst = headerSize -> length (encodeHeader dst kind key) = headerSize.
Proof.
  intros Hk Hd. unfold encodeHeader. rewrite drop_ge by (by rewrite Hd). rewrite !length_app, length_headerChecksum, Hk. done.
Qed.

(** Any 48 bytes, cut into the header's fields. *)
Lemma header_split (src : bytes) : (headerSize <= length src)%nat ->
  exists a b c s key rest, src = a ++ [b; c] ++ s ++ key ++ rest /\ length a = 8%nat /\ length s = 6%nat /\ length key = 32%nat.
Proof.
  unfold headerSize. intros H. exists (take 8 src).
  destruct (drop 8 src) as [|b [|c rest]] eqn:E; [apply (f_equal length) in E; rewrite length_drop in E; cbn in E; lia..|].
  assert (Hr : (38 <= length rest)%nat) by (apply (f_equal length) in E; rewrite length_drop in E; cbn in E; lia).
  exists b, c, (take 6 rest), (take 32 (drop 6 rest)), (drop 32 (drop 6 rest)). split_and!.
  - rewrite (take_drop 32), (take_drop 6). change ([b; c] ++ rest) with (b :: c :: rest). by rewrite <- E, take_drop.
  - rewrite length_take. lia.
  - rewrite length_take. lia.
  - rewrite length_take, length_drop. lia.
Qed.

Lemma decodeHeader_fields a b c s key rest kind key' : length a = 8%nat -> length s = 6%nat -> length key = 32%nat ->
  decodeHeader (a ++ [b; c] ++ s ++ key ++ rest) = Some (kind, key') <->
  a = magic /\ c = checksumSchemeCRC64 /\ s = headerChecksum b key /\ knownKind b /\ kind = b /\ key' = key.
Proof.
  intros Ha Hs Hk. do 8 (destruct a as [|? a]; [done|]). destruct a; [|done]. do 6 (destruct s as [|? s]; [done|]). destruct s; [|done].
  unfold decodeHeader. cbn [app length take drop lookup list_lookup default]. rewrite length_app, Hk.
  rewrite (proj2 (Nat.ltb_ge _ _)) by (unfold headerSize; lia). cbn [orb]. rewrite drop_0, take_0, (take_app_length' key rest keySize) by done. unfold knownKind.
  change (id b) with b. change (id c) with c.
  case_bool_decide as Hm; cbn [negb]; [|split; [done|by intros (? & _)]].
  destruct (negb (bool_decide (b = hashKindDefault)) && negb (bool_decide (b = hashKindCustom))) eqn:Eb.
  { apply andb_true_iff in Eb as [H0%negb_true_iff%bool_decide_eq_false H1%negb_true_iff%bool_decide_eq_false]. split; [done|tauto]. }
  assert (Hb : b = hashKindDefault \/ b = hashKindCustom).
  { apply andb_false_iff in Eb as [H0%negb_false_iff%bool_decide_eq_true|H0%negb_false_iff%bool_decide_eq_true]; auto. }
  clear Eb. case_bool_decide as Hc; cbn [negb]; [|split; [done|tauto]].
  case_bool_decide as Hsum; cbn [negb]; split; try done.
  - intros [= <- <-]. by rewrite Hsum.
  - by intros (_ & _ & _ & _ & -> & ->).
  - intros (_ & _ & Hs' & _). by rewrite Hs' in Hsum.
Qed.

(** ** Flipped bits *)
(** The 48 bytes with the one bit [i] set. *)
Definition flip (i : nat) : bytes := <[(i / 8)%nat := z2b (2 ^ (Z.of_nat i `mod` 8))]> (replicate headerSize x00).

(** What a change of the header does to the decoder's tests: zero when it passes
    all of them. *)
Definition syndrome (e : bytes) : bytes :=
  take 8 e ++ [default x00 (e !! 9%nat)] ++
  xorBytes (lowBytes checksumSize (crcLoop 0 (default x00 (e !! 8%nat) :: take keySize (drop 16 e)))) (take 6 (drop 10 e)).

Lemma syndrome_fields a b c s key : length a = 8%nat -> length s = 6%nat -> length key = 32%nat ->
  syndrome (a ++ [b; c] ++ s ++ key) = a ++ [c] ++ xorBytes (lowBytes checksumSize (crcLoop 0 (b :: key))) s.
Proof.
  intros Ha Hs Hk. do 8 (destruct a as [|? a]; [done|]). destruct a; [|done]. do 6 (destruct s as [|? s]; [done|]). destruct s; [|done].
  unfold syndrome. cbn [app take drop lookup list_lookup default from_option id]. rewrite drop_0, take_0, take_ge by (by rewrite Hk). done.
Qed.

Lemma length_lowBytes n v : (n <= 8)%nat -> length (lowBytes n v) = n.
Proof. intros H. unfold lowBytes. rewrite length_take, length_rev, length_be_put. lia. Qed.

Lemma xorBytes_cancel a b c : length a = length b -> length a = length c -> xorBytes a b = xorBytes a c -> b = c.
Proof.
  unfold xorBytes. revert b c. induction a as [|x a IH]; intros [|y b] [|z c] [=] [=]; [done|]. cbn. intros [= Hx Ha]. f_equal; [|auto].
  apply (f_equal (xorByte x)) in Hx. rewrite <- !xorByte_assoc in Hx.
  assert (E : forall y, xorByte (xorByte x x) y = y).
  { intros y'. apply (inj b2z). by rewrite !b2z_xorByte, Z.lxor_nilpotent, Z.lxor_0_l. }
  by rewrite !E in Hx.
Qed.
Lemma xorBytes_self a : xorBytes a a = replicate (length a) x00.
Proof.
  unfold xorBytes. induction a as [|x a IH]; [done|]. cbn. rewrite IH. f_equal. apply (inj b2z). by rewrite b2z_xorByte, Z.lxor_nilpotent.
Qed.

Lemma header_split_exact (e : bytes) : length e = headerSize ->
  exists a b c s key, e = a ++ [b; c] ++ s ++ key /\ length a = 8%nat /\ length s = 6%nat /\ length key = 32%nat.
Proof.
  intros He. destruct (header_split e) as (a & b & c & s & key & rest & -> & Ha & Hs & Hk); [lia|]. exists a, b, c, s, key. split_and!; [|done..].
  rewrite !length_app in He. cbn in He. unfold headerSize in He. destruct rest; [by rewrite app_nil_r|cbn in He; lia].
Qed.
Lemma length_syndrome e : length e = headerSize -> length (syndrome e) = 15%nat.
Proof.
  intros (a & b & c & s & key & -> & Ha & Hs & Hk)%header_split_exact. rewrite syndrome_fields by done.
  rewrite !length_app, Ha, length_xorBytes by (rewrite length_lowBytes, Hs; [done|unfold checksumSize; lia]).
  rewrite length_lowBytes by (unfold checksumSize; lia). done.
Qed.

(** A change that gets past the decoder has a zero syndrome. *)
Lemma undetected_syndrome dst kind key e rest x : length key = keySize -> length e = headerSize ->
  decodeHeader (xorBytes (encodeHeader (take headerSize dst) kind key) e ++ rest) = Some x -> syndrome e = replicate 15 x00.
Proof.
  unfold keySize. intros Hk He. destruct (header_split_exact e He) as (a & b & c & s & ek & -> & Ha & Hs & Hek).
  destruct x as [kind' key']. unfold encodeHeader.
  rewrite (drop_ge (take headerSize dst)) by (rewrite length_take; lia). rewrite app_nil_r.
  pose proof (length_headerChecksum kind key) as Hsum.
  rewrite !xorBytes_app by (rewrite ?Hsum, ?Hs; done). change (xorBytes [kind; checksumSchemeCRC64] [b; c]) with [xorByte kind b; xorByte checksumSchemeCRC64 c].
  rewrite <- !app_assoc, decodeHeader_fields; [|by rewrite length_xorBytes; rewrite ?Ha|rewrite length_xorBytes; congruence|rewrite length_xorBytes; congruence].
  intros (Hmagic & Hscheme & Hcheck & _). rewrite syndrome_fields by done.
  apply xorBytes_zero in Hmagic; [|by rewrite Ha]. apply xorByte_zero in Hscheme as ->. rewrite Ha in Hmagic. subst a.
  unfold headerChecksum in Hcheck at 2. change (xorByte kind b :: xorBytes key ek) with (xorBytes (kind :: key) (b :: ek)) in Hcheck.
  rewrite Checksum_lxor, lowBytes_lxor in Hcheck by (cbn; congruence). fold (headerChecksum kind key) in Hcheck.
  apply xorBytes_cancel in Hcheck; [|congruence|rewrite Hsum, length_lowBytes; [done|unfold checksumSize; lia]].
  rewrite <- Hcheck, xorBytes_self, Hs. done.
Qed.

Lemma syndrome_lxor e e' : length e = headerSize -> length e' = headerSize -> syndrome (xorBytes e e') = xorBytes (syndrome e) (syndrome e').
Proof.
  intros (a & b & c & s & key & -> & Ha & Hs & Hk)%header_split_exact (a' & b' & c' & s' & key' & -> & Ha' & Hs' & Hk')%header_split_exact.
  rewrite !xorBytes_app by (done || congruence). change (xorBytes [b; c] [b'; c']) with [xorByte b b'; xorByte c c'].
  rewrite !syndrome_fields by (rewrite ?length_xorBytes; congruence).
  rewrite !xorBytes_app by (done || congruence). change (xorBytes [c] [c']) with [xorByte c c']. do 2 f_equal.
  change (xorByte b b' :: xorBytes key key') with (xorBytes (b :: key) (b' :: key')).
  rewrite <- (Z.lxor_0_l 0) at 1. rewrite crcLoop_lxor, lowBytes_lxor by (cbn; congruence).
  unfold xorBytes, checksumSize.
  set (u := lowBytes 6 _). set (v := lowBytes 6 _). assert (Hu : length u = 6%nat) by (apply length_lowBytes; lia). assert (Hv : length v = 6%nat) by (apply length_lowBytes; lia).
  clearbody u v. clear -Hs Hs' Hu Hv. revert u v s s' Hu Hv Hs Hs'. generalize 6%nat. induction n as [|n IH]; intros [|x u] [|y v] [|z s] [|w s']; try done.
  intros [=] [=] [=] [=]. cbn. rewrite IH by done. f_equal. apply (inj b2z). rewrite !b2z_xorByte. apply lxor_xchg.
Qed.

(** The 384 single flips have different, non-zero syndromes. *)
Definition flips : list nat := seq 0 384.
Lemma flips_distinct : bool_decide (NoDup (syndrome (replicate headerSize x00) :: (syndrome ∘ flip <$> flips))) = true.
Proof. vm_compute. reflexivity. Qed.

Lemma length_flip i : length (flip i) = headerSize.
Proof. unfold flip. by rewrite length_insert, length_replicate. Qed.
Lemma syndrome_zero : syndrome (replicate headerSize x00) = replicate 15 x00.
Proof. vm_compute. reflexivity. Qed.
Lemma flips_syndrome i j : (i < 384)%nat -> (j < 384)%nat ->
  syndrome (flip i) <> replicate 15 x00 /\ (i <> j -> syndrome (flip i) <> syndrome (flip j)).
Proof.
  intros Hi Hj. pose proof flips_distinct as H. apply bool_decide_eq_true in H. rewrite syndrome_zero in H.
  apply list.NoDup_cons in H as [H0 H]. split.
  - intros E. apply H0. rewrite <- E. apply (list_elem_of_fmap_2 (syndrome ∘ flip)), elem_of_seq. lia.
  - intros Hne E. apply Hne. pose proof (NoDup_lookup _ i j (syndrome (flip i)) H) as Hinj. apply Hinj; unfold flips;
      rewrite list_lookup_fmap, lookup_seq_lt by done; [reflexivity|rewrite E; reflexivity].
Qed.
Lemma xorBytes_same a b : length a = length b -> xorBytes a b = replicate (length a) x00 <-> a = b.
Proof. intros H. split; [by apply xorBytes_eq|]. intros <-. apply xorBytes_self. Qed.

(** The header is trusted exactly when it is a header.  The decoder accepts
    the bytes that the encoder writes and only those, whatever follows them; and
    a header in which any one bit, or any two different bits, of its 48 bytes
    are flipped is never accepted, so the index key cannot change under a filter
    that way. *)
Theorem header_detects_flips (kind : byte) (key dst rest : bytes) :
  length key = keySize -> knownKind kind ->
  let written := encodeHeader (take headerSize dst) kind key in
  decodeHeader (written ++ rest) = Some (kind, key) /\
  (forall src kind' key', decodeHeader src = Some (kind', key') -> (length src >= headerSize)%nat /\ length key' = keySize /\ knownKind kind' /\
     src = encodeHeader src kind' key') /\
  (forall i, (i < 8 * headerSize)%nat -> decodeHeader (xorBytes written (flip i) ++ rest) = None) /\
  (forall i j, (i < 8 * headerSize)%nat -> (j < 8 * headerSize)%nat -> i <> j ->
     decodeHeader (xorBytes written (xorBytes (flip i) (flip j)) ++ rest) = None).
Proof.
  intros Hk Hkind written. split_and!.
  - unfold written, encodeHeader. rewrite drop_ge by (rewrite length_take; unfold headerSize; lia). rewrite app_nil_r, <- !app_assoc.
    apply decodeHeader_fields; [done|apply length_headerChecksum|done|by split_and!].
  - intros src kind' key' H. assert (Hl : (headerSize <= length src)%nat).
    { unfold decodeHeader in H. destruct (Nat.ltb_spec (length src) headerSize); [done|lia]. }
    destruct (header_split src Hl) as (a & b & c & s & key0 & rest0 & E & Ha & Hs & Hk0). rewrite E in H.
    apply decodeHeader_fields in H as (-> & -> & Es & Hb & -> & ->); [|done..]. split_and!; [done..|].
    unfold encodeHeader. rewrite <- Es. rewrite E at 1. do 4 f_equal. rewrite E. symmetry.
    assert (E' : magic ++ [b; checksumSchemeCRC64] ++ s ++ key0 ++ rest0 = (magic ++ [b; checksumSchemeCRC64] ++ s ++ key0) ++ rest0) by by rewrite <- !app_assoc.
    rewrite E'. apply drop_app_length'. rewrite !length_app, Hs, Hk0. done.
  - intros i Hi. destruct (decodeHeader _) as [x|] eqn:E; [|done]. apply undetected_syndrome in E; [|done|apply length_flip].
    by apply (flips_syndrome i i) in E.
  - intros i j Hi Hj Hne. destruct (decodeHeader _) as [x|] eqn:E; [|done].
    apply undetected_syndrome in E; [|done|rewrite length_xorBytes, length_flip; [done|by rewrite !length_flip]].
    rewrite syndrome_lxor in E by apply length_flip. rewrite <- (length_syndrome (flip i)) in E by apply length_flip.
    apply xorBytes_eq in E; [by apply (flips_syndrome i j) in E|]. by rewrite !length_syndrome by apply length_flip.
Qed.

(** The index is the key's and nothing else's.  Every position the default
    index hash gives is the checksum of the key, the digest and the probe number
    together, so two filters with one key probe the same bits, whichever process
    made them, and continuing from the key's checksum costs no accuracy. *)
Theorem keyedIndexHash_checksum (key data : bytes) (i : Z) :
  keyedIndexHash key data i = Checksum (key ++ data ++ rev (be_put 8 i)).
Proof. unfold keyedIndexHash, Checksum. by rewrite !Update_app. Qed.

Definition sampleKey : bytes := replicate 32 x5a.
Example header_detects_flips_witness :
  decodeHeader (encodeHeader [] hashKindDefault sampleKey ++ [x07]) = Some (hashKindDefault, sampleKey) /\
  decodeHeader (xorBytes (encodeHeader [] hashKindDefault sampleKey) (xorBytes (flip 64) (flip 200)) ++ [x07]) = None.
Proof.
  destruct (header_detects_flips hashKindDefault sampleKey [] [x07] eq_refl (or_introl eq_refl)) as (H & _ & _ & H2).
  split; [exact H|]. apply H2; [vm_compute; lia..|discriminate].
Defined.
