(* ===== verification/PersistentFacts.v ===== *)
(** The persistent filter: an exact set of bits that a successful close and a
    reopening under the same configuration give back, and what a reopening under
    another size, or after a torn write, loses. *)

From Stdlib Require Import SpecFloat.
From S2P Require Import Prelude Digest Binary Stream Float64 Crc64 Bloom BloomStandard FileSystem AtomicFile Wp OsFile Persistent PersistentHeader.
Import Persistent.

(** ** Bits in bytes *)
Definition bitOf (bs : bytes) : Z -> bool := bitAt 8 (b2z <$> bs).

Lemma byte_index idx : Z.shiftr idx 3 = idx / 8.
Proof. by rewrite Z.shiftr_div_pow2. Qed.
Lemma byte_mask idx : Z.shiftl 1 (Z.land idx 7) = 2 ^ (idx `mod` 8).
Proof. change 7 with (Z.ones 3). rewrite Z.land_ones, Z.shiftl_mul_pow2, Z.mul_1_l; [done|apply Z.mod_pos_bound; lia|lia]. Qed.
Lemma lor_byte b n : 0 <= n < 8 -> 0 <= Z.lor (b2z b) (2 ^ n) < 256.
Proof.
  intros Hn. pose proof (b2z_range b). split; [apply Z.lor_nonneg; lia|].
  assert (2 ^ n < 2 ^ 8) by (apply Z.pow_lt_mono_r; lia).
  destruct (decide (Z.lor (b2z b) (2 ^ n) = 0)) as [->|Hz]; [lia|]. change 256 with (2 ^ 8). apply Z.log2_lt_pow2.
  - assert (0 <= Z.lor (b2z b) (2 ^ n)) by (apply Z.lor_nonneg; lia). lia.
  - rewrite Z.log2_lor by lia. rewrite Z.log2_pow2 by lia. apply Z.max_lub_lt; [|lia].
    destruct (decide (b2z b = 0)) as [->|]; [by vm_compute|]. apply Z.log2_lt_pow2; lia.
Qed.

Section WF.
Context (f : Filter).
Record wf : Prop := {
  wf_m : 1 <= m f <= MaxBits;
  wf_k : 1 <= k f;
  wf_data : blen (data f) = (m f + 7) / 8;
  wf_header : length (header f) = headerSize;
  wf_hash : is_Some (hash f);
  wf_open : closed f = false;
}.
Hypothesis Hf : wf.

Definition hashOf (d : Digest) (i : Z) : Z := match hash f with Some h => h d i | None => 0 end.
Definition pos (d : Digest) (i : Z) : Z := hashOf d i `mod` m f.

Lemma pf_probe_ok d i : probe f d i = Some (pos d i).
Proof. unfold probe, pos, hashOf. destruct Hf as [? ? ? ? [h ->] ?]. cbn. destruct (Z.eqb_spec (m f) 0); [lia|done]. Qed.
Lemma pf_pos_range d i : 0 <= pos d i < m f.
Proof. apply Z.mod_pos_bound. destruct Hf. lia. Qed.

Lemma bytes_set idx bs : length bs = length (data f) -> 0 <= idx < m f -> exists bs', setBit idx bs = Some bs' /\ length bs' = length (data f) /\
  forall idx', 0 <= idx' < m f -> bitOf bs' idx' = bitOf bs idx' || (idx' =? idx).
Proof.
  destruct Hf as [Hm _ Hl _ _ _]. intros El Hi. unfold setBit. rewrite byte_index, byte_mask.
  destruct (lookup_lt_is_Some_2 bs (Z.to_nat (idx / 8))) as [b Hb]; [zlia|]. rewrite Hb. cbn. eexists. split; [done|].
  split; [by rewrite length_insert|]. intros idx' Hi'. unfold bitOf. rewrite list_fmap_insert, b2z_z2b_small.
  - apply bitAt_insert; [lia..|]. by rewrite list_lookup_fmap, Hb.
  - apply lor_byte, Z.mod_pos_bound. lia.
Qed.
Lemma bytes_get idx bs : length bs = length (data f) -> 0 <= idx < m f -> getBit idx bs = Some (bitOf bs idx).
Proof.
  destruct Hf as [Hm _ Hl _ _ _]. intros El Hi. unfold getBit, bitOf, bitAt. rewrite byte_index, byte_mask.
  destruct (lookup_lt_is_Some_2 bs (Z.to_nat (idx / 8))) as [b Hb]; [zlia|]. rewrite list_lookup_fmap, Hb. cbn. f_equal.
  apply land_pow2_testbit, Z.mod_pos_bound. lia.
Qed.

(** The positions one digest sets. *)
Definition touches (d : Digest) (idx : Z) : Prop := d <> [] /\ exists i, 0 <= i < k f /\ pos d i = idx.

Lemma pf_Contains_ok d : exists b, Contains f d = Some b /\
  (b = true <-> d <> [] /\ forall i, 0 <= i < k f -> bitOf (data f) (pos d i) = true).
Proof.
  unfold Contains, IsZero. destruct d as [|b0 d0]; cbn [length Nat.eqb]; [exists false; naive_solver|]. rewrite (wf_open Hf). set (d := b0 :: d0).
  destruct (getProbes_ok bitOf (fun bs => length bs = length (data f)) (m f) getBit (probe f d) (pos d) (pf_probe_ok d) (pf_pos_range d)
    bytes_get (probes (k f)) (data f) eq_refl) as (b & E & Hb). exists b. split; [exact E|]. rewrite Hb.
  setoid_rewrite elem_of_probes. naive_solver.
Qed.
End WF.

Lemma wf_withData f bs : wf f -> length bs = length (data f) -> wf (withData f bs).
Proof. intros []. split; cbn; congruence. Qed.

Lemma pf_Add_ok f d : wf f -> exists bs, Add f d = Some (withData f bs) /\ wf (withData f bs) /\
  forall idx, 0 <= idx < m f -> bitOf bs idx = true <-> bitOf (data f) idx = true \/ touches f d idx.
Proof.
  intros Hf. unfold Add, IsZero. destruct d as [|b d0]; cbn [length Nat.eqb].
  { exists (data f). split; [by destruct f|]. split; [by apply wf_withData|]. intros idx Hi. unfold touches. naive_solver. }
  rewrite (wf_open f Hf). set (d := b :: d0).
  destruct (setProbes_ok bitOf (fun bs => length bs = length (data f)) (m f) setBit (probe f d) (pos f d) (pf_probe_ok f Hf d) (pf_pos_range f Hf d)
    (bytes_set f Hf) (probes (k f)) (data f) eq_refl) as (bs & E & Hl & Hb).
  rewrite E. exists bs. split; [done|]. split; [by apply wf_withData|].
  intros idx Hidx. rewrite Hb by done. unfold touches. setoid_rewrite elem_of_probes. naive_solver.
Qed.

Definition addAll (f : Filter) (ds : list Digest) : option Filter := loop ds (fun d f => Add f d) f.
(** The filter is [f0] with the bits of [ds] set. *)
Definition holds (f0 : Filter) (ds : list Digest) (f : Filter) : Prop :=
  exists bs, f = withData f0 bs /\ wf f /\
  forall idx, 0 <= idx < m f0 -> bitOf bs idx = true <-> bitOf (data f0) idx = true \/ exists d, d ∈ ds /\ touches f0 d idx.
Lemma pf_addAll_holds f ds : wf f -> exists f', addAll f ds = Some f' /\ holds f ds f'.
Proof.
  intros Hf. apply (loop_inv (holds f) ds []).
  - intros dn d s _ (bs0 & -> & Hw & Hb). destruct (pf_Add_ok _ d Hw) as (bs & E & Hw' & Hb'). cbn [withData data] in *.
    eexists. split; [exact E|]. exists bs. split_and!; [done|done|]. intros idx Hidx. rewrite Hb', Hb by done.
    change (touches (withData f bs0) d idx) with (touches f d idx).
    setoid_rewrite elem_of_app. setoid_rewrite list_elem_of_singleton. naive_solver.
  - exists (data f). split_and!; [by destruct f|done|]. intros idx _. split; [by left|]. intros [?|(d & ?%elem_of_nil & _)]; done.
Qed.

(** ** The file *)
Lemma length_resizeTo n bs : 0 <= n -> blen (resizeTo n bs) = n.
Proof. intros Hn. unfold resizeTo. rewrite length_take, length_app, length_replicate. lia. Qed.
Lemma resizeTo_prefix n bs : 0 <= n <= blen bs -> resizeTo n bs = take (Z.to_nat n) bs.
Proof. intros Hn. unfold resizeTo. apply take_app_le. lia. Qed.

Section File.
Variable outside : path -> option entry.
Variables (dir : path) (name : bytes).
Abbreviation p := (dir ++ [name]).
Implicit Types s : FS.

(** The filter's directory is there, and its file is missing or regular. *)
Record fileHere (s : FS) : Prop := {
  fh_parents : parents (tree s);
  fh_dir : tree s !! dir = Some Directory;
  fh_file : fileOr (fun _ => True) (tree s !! p);
}.
Definition content (s : FS) : option bytes := match tree s !! p with Some (File bs _) => Some bs | _ => None end.
Definition quiet (s : FS) : Prop := faults s = [].

(** A step that leaves the file, and one that leaves [bs] in it. *)
Definition keeps (s s' : FS) : Prop := fileHere s' /\ content s' = content s /\ (quiet s -> quiet s').
Definition leaves (bs : bytes) (s s' : FS) : Prop := fileHere s' /\ content s' = Some bs /\ (quiet s -> quiet s').

Lemma evolves_keepsFile s s' : fileHere s -> evolves s (tree s) s' -> keeps s s'.
Proof. intros [] (Ht & _ & Hq). split_and!; [split; by rewrite Ht|unfold content; by rewrite Ht|done]. Qed.
Lemma evolves_leaves s s' bs t : fileHere s -> evolves s (<[p := File bs t]> (tree s)) s' -> leaves bs s s'.
Proof.
  intros [Hp Hd Hf] (Ht & _ & Hq). assert (Hne : dir <> p) by (intros E; by apply app_self_nil in E). split_and!; [|unfold content; by rewrite Ht, lookup_insert_eq|done].
  split; rewrite Ht; [|by rewrite lookup_insert_ne|by rewrite lookup_insert_eq].
  apply parents_insert; [done..|]. intros E. by rewrite E in Hf.
Qed.
Lemma keeps_trans s s1 s' : keeps s s1 -> keeps s1 s' -> keeps s s'.
Proof. intros (? & ? & ?) (? & ? & ?). split_and!; [done|congruence|auto]. Qed.
Lemma leaves_after s s1 s' bs : keeps s s1 -> leaves bs s1 s' -> leaves bs s s'.
Proof. intros (? & ? & ?) (? & ? & ?). split_and!; auto. Qed.
Lemma leaves_then s s1 s' bs : leaves bs s s1 -> keeps s1 s' -> leaves bs s s'.
Proof. intros (? & ? & ?) (? & ? & ?). split_and!; [done|congruence|auto]. Qed.
Lemma leaves_leaves s s1 s' bs bs' : leaves bs s s1 -> leaves bs' s1 s' -> leaves bs' s s'.
Proof. intros (? & ? & ?) (? & ? & ?). split_and!; auto. Qed.
Lemma keeps_leaves s s' bs : content s = Some bs -> keeps s s' -> leaves bs s s'.
Proof. intros Hc (? & ? & ?). split_and!; [done|congruence|done]. Qed.
Lemma content_file s bs : content s = Some bs -> exists t, tree s !! p = Some (File bs t).
Proof. unfold content. destruct (tree s !! p) as [[]|]; intros [=]; subst; eauto. Qed.
Lemma content_none s : fileHere s -> content s = None -> tree s !! p = None.
Proof. intros [_ _ Hf]. unfold content. by destruct (tree s !! p) as [[]|]. Qed.

Lemma syscall_keepsFile c s : fileHere s -> wp syscall (fun r _ s' => keeps s s' /\ (quiet s -> r = Ok tt)) c s.
Proof. intros Hh. eapply wp_mono; [apply wp_syscall|]. intros r c' s' (_ & He & Hq & _). split; [by apply evolves_keepsFile|done]. Qed.

Lemma open_wp c s : fileHere s -> wp (os_OpenAppend outside p) (fun r _ s' =>
  match r with Ok _ => leaves (default [] (content s)) s s' | Err _ => keeps s s' /\ ~ quiet s end) c s.
Proof.
  intros Hh. apply wp_intro. intros r c' s' H. apply os_OpenAppend_inv in H as (_ & H). pose proof Hh as [Hp Hd Hf].
  destruct (content s) as [bs|] eqn:Ec; cbn [default from_option id].
  - destruct (content_file s bs Ec) as [t Ht]. pose proof (resolve_present outside (tree s) true p _ Hp Ht ltac:(done)) as HR.
    destruct r as [u|e].
    + destruct H as [[_ HR']|[He _]]; [by rewrite HR in HR'|]. apply keeps_leaves; [done|by apply evolves_keepsFile].
    + destruct H as [He Hr]. split; [by apply evolves_keepsFile|]. destruct Hr as [[Hq _]|Hr]; [done|]. by rewrite HR in Hr.
  - pose proof (content_none s Hh Ec) as Hn. pose proof (resolve_child outside (tree s) true dir name Hp Hd Hn) as HR.
    destruct r as [u|e].
    + destruct H as [[He _]|[_ (x & HR' & _)]]; [by eapply evolves_leaves|by rewrite HR in HR'].
    + destruct H as [He Hr]. split; [by apply evolves_keepsFile|]. destruct Hr as [[Hq _]|Hr]; [done|]. by rewrite HR in Hr.
Qed.
Lemma size_wp c s bs : fileHere s -> content s = Some bs ->
  wp (file_Size p) (fun r _ s' => keeps s s' /\ (forall n, r = Ok n -> n = blen bs) /\ (quiet s -> is_ok r = true)) c s.
Proof.
  intros Hh Hc. unfold file_Size, os_SeekEnd. apply wp_bind. eapply wp_mono; [by apply syscall_keepsFile|]. intros r1 c1 s1 [Hk Hq].
  destruct r1 as [u|e]; [|split_and!; [done..|by intros ?%Hq]]. apply wp_bind, wp_get, wp_ret.
  split_and!; [done| |done]. intros n [= <-]. pose proof Hk as (_ & Hc1 & _). rewrite Hc in Hc1.
  destruct (content_file s1 bs Hc1) as [t ->]. done.
Qed.
Lemma truncate_wp n c s bs : fileHere s -> content s = Some bs ->
  wp (file_Truncate p n) (fun r _ s' => match r with Ok _ => leaves (resizeTo n bs) s s' | Err _ => keeps s s' /\ ~ quiet s end) c s.
Proof.
  intros Hh Hc. unfold file_Truncate. apply wp_bind. eapply wp_mono; [by apply syscall_keepsFile|]. intros r1 c1 s1 [Hk Hq].
  destruct r1 as [u|e]; [|split; [done|by intros ?%Hq]]. apply wp_bind, wp_get. pose proof Hk as (Hh1 & Hc1 & _). rewrite Hc in Hc1.
  destruct (content_file s1 bs Hc1) as [t Ht]. rewrite Ht. apply wp_modify.
  eapply leaves_after; [done|]. eapply (evolves_leaves s1 _ _ (clock s1)); [done|]. by split_and!.
Qed.

(** A write of the whole file leaves all of it, or the disk failed. *)
Lemma WriteFile_wp bs c s : fileHere s ->
  wp (os_WriteFile outside p bs) (fun r _ s' => fileHere s' /\ (quiet s -> quiet s' /\ r = Ok tt) /\
    (r = Ok tt -> content s' = Some bs) /\ (is_Some (content s) -> is_Some (content s'))) c s.
Proof.
  intros Hh. unfold os_WriteFile. apply wp_bind. eapply wp_mono; [by apply open_wp|]. intros r1 c1 s1 H1.
  destruct r1 as [u|e]; [|destruct H1 as [(? & -> & ?) Hq]; by split_and!].
  apply wp_bind, wp_get. destruct H1 as (Hh1 & Hc1 & Hq1). destruct (content_file s1 _ Hc1) as [t Ht]. rewrite Ht.
  apply wp_bind, wp_modify. set (s2 := mkFS _ _ _).
  assert (Hl2 : leaves [] s s2).
  { destruct (evolves_leaves s1 s2 [] (clock s1) Hh1) as (? & ? & ?); [by split_and!|]. split_and!; auto. }
  destruct Hl2 as (Hh2 & Hc2 & Hq2). destruct (content_file s2 _ Hc2) as [t2 Ht2].
  apply wp_bind, wp_attempt, wp_intro. intros r3 c3 s3 E3. apply (os_Append_inv _ _ _ _ _ _ _ _ _ Ht2) in E3 as (_ & n & He3 & Hn & Hok3).
  pose proof (evolves_leaves s2 s3 _ _ Hh2 He3) as (Hh3 & Hc3 & Hq3). cbn [app] in Hc3.
  apply wp_bind, wp_attempt. eapply wp_mono; [by apply syscall_keepsFile|]. intros r4 c4 s4 [(Hh4 & Hc4 & Hq4) Hok4].
  apply wp_bind, wp_lift. destruct r3 as [[]|e3]; [|split_and!; [done| |done|by rewrite Hc4, Hc3]].
  - apply wp_lift. rewrite (Hn eq_refl) in Hc3. split_and!; [done|auto| |by rewrite Hc4, Hc3]. intros _. congruence.
  - intros Hq. discriminate (Hok3 (Hq2 Hq)).
Qed.

Lemma readPadded_wp n c s bs : fileHere s -> content s = Some bs ->
  wp (readPadded outside p n) (fun r _ s' => keeps s s' /\ (forall raw, r = Ok raw -> raw = resizeTo n bs) /\ (quiet s -> is_ok r = true)) c s.
Proof.
  intros Hh Hc. destruct (content_file s bs Hc) as [t Ht]. pose proof (resolve_present outside (tree s) true p _ (fh_parents _ Hh) Ht ltac:(done)) as HR.
  unfold readPadded. apply wp_bind, wp_mapErr, wp_intro. intros r c' s' H. apply os_ReadFile_inv in H as (-> & He & Hr). pose proof (evolves_keepsFile _ _ Hh He) as Hk.
  rewrite HR in Hr. destruct r as [d|e]; cbn [wrapErr].
  - destruct Hr as (t' & [= <- _]). apply wp_ret. split_and!; [done| |done]. by intros raw [= <-].
  - split_and!; [done..|]. intros Hq. destruct Hr as [[Hf _]|[[_ ?]|[[_ [?|?]]|[_ (x & [= <-] & Hx)]]]]; try done. by destruct (Hx bs t).
Qed.

(** ** Drivers

    What a driver promises about this file: a view is its content, cut or filled
    to the size asked for; flushing a mapping puts the view over the file's
    beginning, whatever the file held; the other calls leave the file.  [maps] is
    whether it ever maps.  A mapping is shared (persistent_unix.go), so the stores
    made through it may be in the file at any time before the flush: what is said of
    a close holds for every content the file may have by then. *)
Class Maps (drv : mmapDriver) (maps : bool) : Prop := {
  dr_map : forall size c s bs, 0 < size -> fileHere s -> content s = Some bs ->
    wp (mapFile drv p size) (fun r _ s' => keeps s s' /\ (forall mapped raw, r = Ok (mapped, raw) -> raw = resizeTo size bs /\ (mapped = true -> maps = true)) /\
      (quiet s -> is_ok r = true)) c s;
  dr_flush : maps = true -> forall raw c s bs, fileHere s -> content s = Some bs ->
    wp (flush drv p raw) (fun r _ s' => fileHere s' /\ (quiet s -> quiet s' /\ r = Ok tt) /\
      is_Some (content s') /\ (r = Ok tt -> content s' = Some (raw ++ drop (length raw) bs))) c s;
  dr_unmap : forall raw c s, fileHere s -> wp (unmap drv raw) (fun r _ s' => keeps s s' /\ (quiet s -> r = Ok tt)) c s;
}.

#[export] Instance heapDriver_Maps : Maps (heapDriver outside) false.
Proof.
  split; [|done|].
  - intros size c s bs Hn Hh Hc. unfold mapFile, heapDriver, heapMmapBytes. cbn [mmapBytes]. destruct (Z.leb_spec size 0); [lia|].
    apply wp_bind. eapply wp_mono; [by apply readPadded_wp|]. intros r c' s' (Hk & Hr & Hq). destruct r as [raw|e]; [|split_and!; done].
    apply wp_ret. split_and!; [done| |done]. intros mapped raw' [= <- <-]. split; [by apply Hr|done].
  - intros raw c s Hh. apply wp_ret. split; [|done]. by split_and!.
Qed.

(** A mapping as a copy that a flush puts back in place. *)
Definition copyDriver : mmapDriver := mkDriver
  (Some (fun p size => raw ← readPadded outside p size; mret (true, raw)))
  (Some (fun _ => syscall))
  (Some (fun p raw =>
    syscall;;
    s ← get;
    match tree s !! p with
    | Some (File bs _) => setTree (<[p := File (raw ++ drop (length raw) bs) (clock s)]>)
    | _ => throw (Prelude.New "no such mapping")
    end)).
#[export] Instance copyDriver_Maps : Maps copyDriver true.
Proof.
  split.
  - intros size c s bs Hn Hh Hc. unfold mapFile, copyDriver. cbn [mmapBytes].
    apply wp_bind. eapply wp_mono; [by apply readPadded_wp|]. intros r c' s' (Hk & Hr & Hq). destruct r as [raw|e]; [|split_and!; done].
    apply wp_ret. split_and!; [done| |done]. intros mapped raw' [= <- <-]. split; [by apply Hr|done].
  - intros _ raw c s bs Hh Hc. unfold flush, copyDriver. cbn [flushMapped]. apply wp_bind. eapply wp_mono; [by apply syscall_keepsFile|].
    intros r1 c1 s1 [Hk Hq]. destruct Hk as (Hh1 & Hc1 & Hq1). rewrite Hc in Hc1.
    destruct r1 as [u|e]; [|split_and!; [done|by intros ?%Hq|by rewrite Hc1|done]].
    apply wp_bind, wp_get. destruct (content_file s1 _ Hc1) as [t Ht]. rewrite Ht. apply wp_modify.
    destruct (evolves_leaves s1 (mkFS (<[p := File (raw ++ drop (length raw) bs) (clock s1)]> (tree s1)) (faults s1) (clock s1)) (raw ++ drop (length raw) bs) (clock s1) Hh1)
      as (Hh2 & Hc2 & Hq2); [by split_and!|]. rewrite Hc2. split_and!; [done|auto|done|done].
  - intros raw c s Hh. by apply syscall_keepsFile.
Qed.

(** ** Opening *)
Variable Log : float64 -> float64.
Variable unrepresentable : Z.
Variable randRead : res bytes.
Hypothesis randRead_size : forall key, randRead = Ok key -> length key = keySize.
Context (drv : mmapDriver) (maps : bool) `{HD : !Maps drv maps}.

Abbreviation params cfg := (Parameters Log unrepresentable (ExpectedItems cfg) (FalsePositiveRate cfg)).
Abbreviation NewFilter := (newFilter outside Log unrepresentable randRead drv).

Definition totalOf (m : Z) : Z := Z.of_nat headerSize + (m + 7) / 8.
Definition viewOf (m k : Z) (mapped : bool) (raw : bytes) : Filter :=
  mkFilter true (take headerSize raw) (drop headerSize raw) k m None mapped false false p.

(** A filter opened over a file of content [bs]. *)
Definition opened (cfg : Config) (bs : bytes) (f : Filter) : Prop :=
  exists m k mapped, params cfg = Ok (m, k) /\ (mapped = true -> maps = true) /\
    initIndexHash randRead (viewOf m k mapped (resizeTo (totalOf m) bs)) (Hash cfg) = Ok f.

Lemma orElse_wp {A} (op : M FS A) (Q : res A -> FS -> Prop) f c s :
  (forall s' e, Q (Err e) s' -> fileHere s') -> (forall s' s'' e e', Q (Err e) s' -> keeps s' s'' -> Q (Err e') s'') ->
  wp op (fun r _ s' => Q r s') c s -> wp (orElse op closeFile f) (fun r _ s' => Q r s') c s.
Proof.
  intros Hh Hk H. apply wp_orElse. eapply wp_mono; [exact H|]. intros [a|e] c' s' HQ; [done|].
  unfold closeFile. apply wp_bind, wp_attempt. eapply wp_mono; [apply syscall_keepsFile; by eapply Hh|]. intros r c2 s2 [Hk2 _]. apply wp_ret. by eapply Hk.
Qed.

Lemma initIndexHash_wf m k mapped raw custom f : 1 <= m <= MaxBits -> 1 <= k -> blen raw = totalOf m ->
  initIndexHash randRead (viewOf m k mapped raw) custom = Ok f ->
  wf f /\ fpath f = p /\ file f = true /\ Persistent.mapped f = mapped /\ Persistent.m f = m /\ Persistent.k f = k /\
  (rebuilt f = false -> data f = drop headerSize raw) /\ (rebuilt f = true -> forall idx, bitOf (data f) idx = false) /\
  exists kind key, decodeHeader (header f) = Some (kind, key) /\ kind = (match custom with None => hashKindDefault | Some _ => hashKindCustom end) /\
    hash f = Some (match custom with Some h => h | None => keyedIndexHash key end).
Proof.
  intros Hm Hk Hraw H. assert (Hlen : (headerSize + Z.to_nat ((m + 7) / 8))%nat = length raw) by (unfold totalOf in Hraw; zlia).
  unfold initIndexHash in H. cbn [header viewOf file data Persistent.k Persistent.m hash Persistent.mapped rebuilt closed fpath] in H.
  set (kind := match custom with None => hashKindDefault | Some _ => hashKindCustom end) in *.
  assert (Hdata : forall bs : bytes, length bs = length (drop headerSize raw) -> blen bs = (m + 7) / 8).
  { intros bs ->. rewrite length_drop. zlia. }
  assert (Hkind : knownKind kind) by (unfold knownKind, kind; destruct custom; auto).
  destruct (decodeHeader (take headerSize raw)) as [[gotKind key]|] eqn:Ed; [case_bool_decide as Eg|].
  1: { cbn in H. simplify_eq. cbn [header data Persistent.k Persistent.m hash closed file fpath Persistent.mapped rebuilt]. split_and!; try done.
       - split; cbn [header data Persistent.k Persistent.m hash closed file fpath Persistent.mapped rebuilt]; try done; [by apply Hdata|rewrite length_take; unfold headerSize in *; lia].
       - by exists kind, key. }
  all: unfold randomKey in H; destruct randRead as [key'|]; [|done]; cbn in H; simplify_eq; cbn [header data Persistent.k Persistent.m hash closed file fpath Persistent.mapped rebuilt].
  all: assert (Hk' : length key' = keySize) by by apply randRead_size.
  all: pose proof (header_detects_flips kind key' raw [] Hk' Hkind) as (Hdec & _); rewrite app_nil_r in Hdec.
  all: assert (Hzero : forall idx, bitOf ((fun _ => x00) <$> drop headerSize raw) idx = false)
    by (intros idx; unfold bitOf, bitAt; rewrite !list_lookup_fmap; destruct (_ !! _); apply Z.testbit_0_l).
  all: split_and!; try done; [split; cbn [header data Persistent.k Persistent.m hash closed file fpath Persistent.mapped rebuilt]; try done|by exists kind, key'].
  all: try (apply Hdata; by rewrite length_fmap).
  all: change (length (encodeHeader (take headerSize raw) kind key') = headerSize).
  all: apply length_encodeHeader; [done|rewrite length_take; unfold headerSize in *; lia].
Qed.

(** ** Flushing and closing *)
Lemma syncLocked_wp f c s bs : fpath f = p -> (Persistent.mapped f = true -> maps = true) -> fileHere s -> content s = Some bs ->
  wp (syncLocked outside drv f) (fun r _ s' => fileHere s' /\ is_Some (content s') /\ (quiet s -> quiet s' /\ r = Ok tt) /\
    (r = Ok tt -> raw f <> [] -> exists rest, content s' = Some (raw f ++ rest))) c s.
Proof.
  intros Hp Hm Hh Hc. unfold syncLocked. rewrite Hp. destruct (Nat.eqb_spec (length (raw f)) 0) as [Hl|Hl].
  { apply wp_ret. split_and!; [done|by rewrite Hc|done|]. intros _ Hne. by destruct (raw f). }
  destruct (Persistent.mapped f).
  - apply wp_bind. eapply wp_mono; [eapply dr_flush; [by apply Hm|done|done]|]. intros r1 c1 s1 (Hh1 & Hq1 & Hs1 & Hc1).
    destruct r1 as [[]|e]; [|split_and!; [done|done|intros Hq; by destruct (Hq1 Hq)|done]]. specialize (Hc1 eq_refl).
    assert (Hrest : exists rest, content s1 = Some (raw f ++ rest)) by eauto.
    destruct (file f); [|apply wp_ret; split_and!; [done|done|intros Hq; by destruct (Hq1 Hq)|done]].
    apply wp_mapErr. eapply wp_mono; [by apply syscall_keepsFile|]. intros r2 c2 s2 [(Hh2 & Hc2 & Hq2) Hok]. rewrite Hc2. split_and!; [done|done| |done].
    intros Hq. destruct (Hq1 Hq) as [Hqs _]. rewrite (Hok Hqs). split; [by apply Hq2|done].
  - apply wp_mapErr. eapply wp_mono; [by apply WriteFile_wp|]. intros r c' s' (Hh' & Hq & Hok & Hs). split_and!; [done|apply Hs; by rewrite Hc| |].
    + intros Hqs. destruct (Hq Hqs) as [? ->]. done.
    + destruct r as [[]|e]; [|done]. intros _ _. exists []. rewrite app_nil_r. by apply Hok.
Qed.

Lemma closeLocked_wp f c s bs : fpath f = p -> (Persistent.mapped f = true -> maps = true) -> closed f = false -> raw f <> [] ->
  fileHere s -> content s = Some bs ->
  wp (closeLocked outside drv f) (fun r _ s' => fileHere s' /\ exists e, r = Ok (closedOf f, e) /\ (quiet s -> quiet s' /\ e = None) /\
    (e = None -> exists rest, content s' = Some (raw f ++ rest))) c s.
Proof.
  intros Hp Hm Hcl Hraw Hh Hc. unfold closeLocked. rewrite Hcl. apply wp_bind, wp_attempt. eapply wp_mono; [by eapply syncLocked_wp|].
  intros r1 c1 s1 (Hh1 & Hs1 & Hq1 & Hr1). apply wp_bind, wp_attempt.
  eapply (wp_mono _ (fun r _ s' => keeps s1 s' /\ (quiet s1 -> r = Ok tt))).
  { destruct (Persistent.mapped f && _); [by eapply dr_unmap|apply wp_ret; split; [by split_and!|done]]. }
  intros r2 c2 s2 [(Hh2 & Hc2 & Hq2) Hr2]. apply wp_bind, wp_attempt.
  eapply (wp_mono _ (fun r _ s' => keeps s2 s' /\ (quiet s2 -> r = Ok tt))).
  { destruct (file f); [|apply wp_ret; split; [by split_and!|done]]. apply wp_mapErr.
    eapply wp_mono; [by apply syscall_keepsFile|]. intros r c' s' [Hk Hq]. split; [done|]. by intros ->%Hq. }
  intros r3 c3 s3 [(Hh3 & Hc3 & Hq3) Hr3]. apply wp_ret. split; [done|]. eexists. split; [done|]. split.
  - intros Hq. destruct (Hq1 Hq) as [Hqs1 ->]. rewrite (Hr2 Hqs1), (Hr3 (Hq2 Hqs1)). split; [|done]. by apply Hq3, Hq2.
  - intros He. destruct r1 as [[]|]; [|done]. destruct (Hr1 eq_refl Hraw) as [rest Hrest]. exists rest. congruence.
Qed.

(** The outcome of a step over the open file whose content is [bs]. *)
Definition stepTo {A} (bs : bytes) (s : FS) (r : res A) (s' : FS) : Prop :=
  fileHere s' /\ (quiet s -> quiet s' /\ is_ok r = true) /\ (is_ok r = true -> content s' = Some bs).

Lemma stepTo_cleanup {A} (op : M FS A) (Q : res A -> FS -> Prop) bs f c s :
  wp op (fun r _ s' => stepTo bs s r s' /\ Q r s') c s -> (forall e e' s' s'', Q (Err e) s' -> Q (Err e') s'') ->
  wp (orElse op closeFile f) (fun r _ s' => stepTo bs s r s' /\ Q r s') c s.
Proof.
  intros H HQ. apply orElse_wp; [by intros s' e [[? _] _]| |done].
  intros s' s'' e e' [(Hh & Hq & Hok) HQe] (Hh' & _). split; [split_and!; [done|intros Hqs; by destruct (Hq Hqs)|done]|by eapply HQ].
Qed.

Lemma newFilter_wp cfg c s : fileHere s ->
  wp (NewFilter cfg p) (fun r _ s' => fileHere s' /\
    (forall f, r = Ok f -> opened cfg (default [] (content s)) f /\ exists bs, content s' = Some bs /\ blen bs >= totalOf (Persistent.m f)) /\
    (quiet s -> ExpectedItems cfg <> 0 -> badRate (FalsePositiveRate cfg) = false -> is_ok (params cfg) = true -> is_ok randRead = true -> is_ok r = true /\ quiet s')) c s.
Proof.
  intros Hh. unfold newFilter. destruct (Z.eqb_spec (ExpectedItems cfg) 0) as [E0|E0]; [by split_and!|].
  apply wp_bind, wp_lift. unfold ValidateFalsePositiveRate. destruct (badRate (FalsePositiveRate cfg)) eqn:Eb; [by split_and!|].
  apply wp_bind, wp_lift. destruct (params cfg) as [[m k]|e] eqn:EP; cbn [wrapErr]; [|by split_and!].
  pose proof (Parameters_range _ _ _ _ _ _ EP) as [Hm Hk].
  apply wp_bind, wp_mapErr. eapply wp_mono; [by apply open_wp|]. intros r1 c1 s1 H1.
  destruct r1 as [u|e]; cbn [wrapErr]; [|destruct H1 as [(? & _) Hq]; by split_and!].
  destruct H1 as (Hh1 & Hc1 & Hq1). set (bs := default [] (content s)) in *. change (Z.of_nat headerSize + (m + 7) / 8) with (totalOf m).
  assert (Htot : 0 < totalOf m) by (unfold totalOf, headerSize; zlia).
  apply wp_bind. eapply wp_mono; [apply (stepTo_cleanup _ (fun r _ => forall n, r = Ok n -> n = blen bs) bs)|].
  { eapply wp_mono; [by apply size_wp|]. intros r c' s' ((Hh' & Hc' & Hq') & Hn & Hok). split; [|done]. split_and!; [done|by auto|congruence]. }
  { done. }
  intros r2 c2 s2 ((Hh2 & Hq2 & Hc2) & Hn). destruct r2 as [size|e]; [|split_and!; [done..|intros Hq; by destruct (Hq2 (Hq1 Hq))]].
  rewrite (Hn _ eq_refl). specialize (Hc2 eq_refl). clear Hn.
  set (bs' := if blen bs <? totalOf m then resizeTo (totalOf m) bs else bs).
  apply wp_bind. eapply (wp_mono _ (fun r _ s' => stepTo bs' s2 r s' /\ True)).
  { unfold bs'. destruct (blen bs <? totalOf m); [|apply wp_ret; by split_and!].
    apply (stepTo_cleanup _ (fun _ _ => True)); [|done]. eapply wp_mono; [by apply truncate_wp|]. intros r c' s' Hr.
    split; [|done]. destruct r as [u'|e]; [destruct Hr as (? & ? & ?); split_and!; by auto|]. destruct Hr as [(? & _) Hq]. by split_and!. }
  intros r3 c3 s3 [(Hh3 & Hq3 & Hc3) _]. destruct r3 as [u'|e]; [|split_and!; [done..|intros Hq; by destruct (Hq3 (proj1 (Hq2 (Hq1 Hq))))]].
  specialize (Hc3 eq_refl).
  assert (Hview : resizeTo (totalOf m) bs' = resizeTo (totalOf m) bs /\ blen bs' >= totalOf m).
  { unfold bs'. destruct (Z.ltb_spec (blen bs) (totalOf m)); [|split; [done|lia]]. pose proof (length_resizeTo (totalOf m) bs ltac:(lia)) as Hl.
    split; [|lia]. rewrite resizeTo_prefix by lia. apply take_ge. lia. }
  apply wp_bind. eapply wp_mono; [apply (stepTo_cleanup _ (fun r _ => forall mapped raw, r = Ok (mapped, raw) -> raw = resizeTo (totalOf m) bs' /\ (mapped = true -> maps = true)) bs')|].
  { eapply wp_mono; [by eapply dr_map|]. intros r c' s' ((Hh' & Hc' & Hq') & Hr & Hok). split; [|done]. split_and!; [done|by auto|congruence]. }
  { done. }
  intros r4 c4 s4 ((Hh4 & Hq4 & Hc4) & Hr4). destruct r4 as [[mapped raw]|e]; [|split_and!; [done..|intros Hq; by destruct (Hq4 (proj1 (Hq3 (proj1 (Hq2 (Hq1 Hq))))))]].
  destruct (Hr4 _ _ eq_refl) as [-> Hmaps]. rewrite (proj1 Hview). specialize (Hc4 eq_refl). cbv zeta.
  change (mkFilter true _ _ k m None mapped false false p) with (viewOf m k mapped (resizeTo (totalOf m) bs)).
  destruct (initIndexHash randRead (viewOf m k mapped (resizeTo (totalOf m) bs)) (Hash cfg)) as [f|e] eqn:EI.
  - apply wp_ret. split_and!; [done| |].
    + intros f' [= <-]. split; [by exists m, k, mapped|]. exists bs'. split; [done|].
      apply initIndexHash_wf in EI as (_ & _ & _ & _ & -> & _); [lia|done..|apply length_resizeTo; lia].
    + intros Hq _ _ _ _. split; [done|]. by destruct (Hq4 (proj1 (Hq3 (proj1 (Hq2 (Hq1 Hq)))))).
  - assert (Hrand : is_ok randRead = false).
    { unfold initIndexHash in EI. destruct (Hash cfg), (decodeHeader _) as [[g key]|]; [case_bool_decide| |case_bool_decide|]; try done;
        unfold randomKey in EI; by destruct randRead. }
    apply wp_bind, wp_attempt. eapply wp_mono; [eapply closeLocked_wp; [done|done|done| |done|done]|].
    { intros E%(f_equal length). unfold raw, viewOf in E. cbn [header data] in E. rewrite take_drop in E.
      pose proof (length_resizeTo (totalOf m) bs ltac:(lia)). cbn in E. lia. }
    intros r5 c5 s5 (Hh5 & e5 & -> & _). apply wp_throw. split_and!; [done|done|congruence].
Qed.

(** ** Reopening *)
Lemma Contains_same f g d : closed g = closed f -> Persistent.k g = Persistent.k f -> Persistent.m g = Persistent.m f ->
  hash g = hash f -> data g = data f -> Contains g d = Contains f d.
Proof. intros Hc Hk Hm Hh Hd. unfold Contains, contains_go, probe. by rewrite Hc, Hk, Hm, Hh, Hd. Qed.

Lemma opened_wf cfg bs f : opened cfg bs f -> wf f /\ fpath f = p /\ file f = true /\ (Persistent.mapped f = true -> maps = true) /\
  params cfg = Ok (Persistent.m f, Persistent.k f) /\
  (rebuilt f = true -> forall idx, bitOf (data f) idx = false) /\
  exists kind key, decodeHeader (header f) = Some (kind, key) /\ kind = (match Hash cfg with None => hashKindDefault | Some _ => hashKindCustom end) /\
    hash f = Some (match Hash cfg with Some h => h | None => keyedIndexHash key end).
Proof.
  intros (m & k & mapped & EP & Hmaps & EI). pose proof (Parameters_range _ _ _ _ _ _ EP) as [Hm Hk].
  apply initIndexHash_wf in EI as (Hw & Hp & Hfi & Hma & Hmm & Hkk & _ & Hr & Hhash); [|lia|done|apply length_resizeTo; unfold totalOf; zlia].
  split_and!; [done..|by rewrite Hma|by rewrite Hmm, Hkk|done|done].
Qed.

Lemma length_raw f : wf f -> blen (raw f) = totalOf (Persistent.m f).
Proof. intros [? _ Hd Hh _ _]. unfold raw, totalOf. rewrite length_app. lia. Qed.

(** A file that starts with a filter's bytes opens to that filter. *)
Lemma reopened cfg f f' g rest : wf f' -> (exists bs, f' = withData f bs) ->
  (exists bs, opened cfg bs f) -> opened cfg (raw f' ++ rest) g -> rebuilt g = false /\ forall d, Contains g d = Contains f' d.
Proof.
  intros Hw' (bs' & Ef) [bs Hopen] Hg. pose proof (length_raw f' Hw') as Hl.
  apply opened_wf in Hopen as (Hw & _ & _ & _ & EP & _ & kind & key & Hdec & Hkind & Hhash).
  assert (Ehdr : header f' = header f) by by rewrite Ef.
  assert (Em : Persistent.m f' = Persistent.m f) by by rewrite Ef. assert (Ek : Persistent.k f' = Persistent.k f) by by rewrite Ef.
  destruct Hg as (m & k & mapped & EP' & _ & EI). rewrite EP in EP'. simplify_eq.
  rewrite resizeTo_prefix, take_app_length' in EI; [|rewrite <- Em, <- Hl; lia|rewrite length_app, <- Em, <- Hl; lia].
  unfold initIndexHash, viewOf in EI. cbn [header file data Persistent.k Persistent.m hash Persistent.mapped rebuilt closed fpath] in EI.
  pose proof (wf_header _ Hw') as Hlh. unfold raw in EI. rewrite take_app_length', drop_app_length' in EI by done.
  rewrite Ehdr, Hdec, bool_decide_eq_true_2 in EI by done. cbn in EI. simplify_eq. split; [done|].
  intros d. apply Contains_same; cbn; [|done..]. by destruct Hw'.
Qed.

(** C40. A persistent filter survives a restart.  Whatever a filter was opened
    over, it takes any digests without a panic and is exactly the set of bits it
    was opened with and those its digests touch; one that was rebuilt starts
    from the empty set.  When its close succeeds (which it does on a working
    disk), whatever the file holds by then (a shared mapping's stores reach it at
    any time before the flush), opening the file again under the same configuration never rebuilds,
    and the new filter answers every question as the closed one did, whichever
    process opens it and with a mapping or without: no recorded digest is
    forgotten.  On a working disk opening succeeds, too. *)
Theorem persistent_reopen (cfg : Config) c s : fileHere s ->
  (forall f c1 s1, NewFilter cfg p c s = (Ok f, c1, s1) ->
    (rebuilt f = true -> forall idx, bitOf (data f) idx = false) /\
    forall ds, exists f', addAll f ds = Some f' /\
      (forall d, exists b, Contains f' d = Some b /\ (b = true <-> d <> [] /\ forall i, 0 <= i < Persistent.k f ->
         bitOf (data f) (pos f d i) = true \/ exists d', d' ∈ ds /\ touches f d' (pos f d i))) /\
      (forall d, d ∈ ds -> d <> [] -> Contains f' d = Some true) /\
      (forall cm sm c2 f2 e s2, (sm = s1 \/ (fileHere sm /\ is_Some (content sm))) -> closeLocked outside drv f' cm sm = (Ok (f2, e), c2, s2) ->
         (quiet sm -> e = None) /\ (forall d, Contains f2 d = Some false) /\
         (e = None -> forall c3 g c4 s4, NewFilter cfg p c3 s2 = (Ok g, c4, s4) -> rebuilt g = false /\ forall d, Contains g d = Contains f' d))) /\
  (quiet s -> ExpectedItems cfg <> 0 -> badRate (FalsePositiveRate cfg) = false -> is_ok (params cfg) = true -> is_ok randRead = true ->
   exists f c1 s1, NewFilter cfg p c s = (Ok f, c1, s1) /\ quiet s1).
Proof.
  intros Hh. split.
  - intros f c1 s1 H. apply (wp_run _ _ _ _ _ _ _ (newFilter_wp cfg c s Hh)) in H as (Hh1 & Hf & _).
    destruct (Hf f eq_refl) as (Hopen & bs1 & Hc1 & _). pose proof (opened_wf _ _ _ Hopen) as (Hw & Hp & _ & Hmaps & _ & Hrb & _). split; [done|].
    intros ds. destruct (pf_addAll_holds f ds Hw) as (f' & E & bs' & -> & Hw' & Hb). set (f' := withData f bs') in *. exists f'. split; [done|].
    assert (HC : forall d, exists b, Contains f' d = Some b /\ (b = true <-> d <> [] /\ forall i, 0 <= i < Persistent.k f ->
         bitOf (data f) (pos f d i) = true \/ exists d', d' ∈ ds /\ touches f d' (pos f d i))).
    { intros d. destruct (pf_Contains_ok f' Hw' d) as (b & Eb & Hbt). exists b. split; [done|]. rewrite Hbt.
      apply and_iff_compat_l. change (pos f') with (pos f). change (Persistent.k f') with (Persistent.k f). change (data f') with bs'.
      split; intros H i Hi; specialize (H i Hi); by apply Hb; [apply pf_pos_range|]. }
    split_and!; [done| |].
    + intros d Hd Hne. destruct (HC d) as (b & Eb & Hbt). rewrite Eb. f_equal. apply Hbt. split; [done|].
      intros i Hi. right. exists d. split; [done|]. split; [done|]. by exists i.
    + intros cm sm c2 f2 e s2 Hsm H2.
      assert (Hm : fileHere sm /\ is_Some (content sm)) by (destruct Hsm as [->|?]; [by rewrite Hc1|done]). destruct Hm as [Hhm [bsm Hcm]].
      assert (Hr' : raw f' <> []).
      { intros E0. pose proof (length_raw f' Hw') as Hl. rewrite E0 in Hl. unfold totalOf, headerSize in Hl. destruct Hw' as [? _ _ _ _ _]. cbn [length] in Hl. zlia. }
      eapply (wp_run _ _ _ _ _ _ _ (closeLocked_wp f' cm sm bsm Hp Hmaps ltac:(by destruct Hw') Hr' Hhm Hcm)) in H2
        as (Hh2 & e' & [= -> ->] & Hq2 & Hc2).
      split_and!; [by intros Hq; destruct (Hq2 Hq)|intros d; unfold Contains; by destruct (IsZero d)|].
      intros He c3 g c4 s4 H3. destruct (Hc2 He) as [rest Hrest].
      apply (wp_run _ _ _ _ _ _ _ (newFilter_wp cfg c3 s2 Hh2)) in H3 as (_ & Hg & _). destruct (Hg g eq_refl) as [Hg' _].
      rewrite Hrest in Hg'. eapply reopened; [done|by eexists|by eexists|exact Hg'].
  - intros Hq H0 Hb HP HR. destruct (NewFilter cfg p c s) as [[r c1] s1] eqn:E.
    apply (wp_run _ _ _ _ _ _ _ (newFilter_wp cfg c s Hh)) in E as (_ & _ & Ht). destruct (Ht Hq H0 Hb HP HR) as [Hok Hq1].
    destruct r as [f|]; [|done]. by exists f, c1, s1.
Qed.
End File.
