(* ===== verification/PersistentRuns.v ===== *)
(** The persistent filter behind the filter interface of the guard, its concrete
    runs, and the two ways in which a reopened file loses digests silently. *)

From Stdlib Require Import SpecFloat.
From stdpp Require Import gmultiset.
From S2P Require Import Prelude Digest Binary Stream Backend FileSystem AtomicFile FsContract FsMaintenance Wp OsFile Float64 Crc64 Bloom BloomStandard BloomGuard Persistent PersistentHeader PersistentFacts.
Import Persistent.

(** ** Behind the interface *)
Definition persistentOps : FilterOps Filter := mkFilterOps
  (fun f d => default f (Add f d)) (fun f d => default false (Contains f d)) None.
Definition persistentCovers (f : Filter) (d : Digest) : Prop :=
  d <> [] /\ forall i, 0 <= i < k f -> bitOf (data f) (pos f d i) = true.
Definition persistentHolds (l : gmultiset Digest) (f : Filter) : Prop := wf f /\ forall d, d ∈ l -> d <> [] -> persistentCovers f d.
#[export] Instance persistent_FilterSpec : FilterSpec persistentOps persistentHolds (fun _ _ => True).
Proof.
  split; [|done|].
  - intros l f d [Hf Hc] _. destruct (pf_Add_ok f d Hf) as (bs & E & Hw & Hb). cbn [persistentOps fl_Add]. rewrite E. cbn [default from_option id].
    split; [done|]. unfold persistentCovers. cbn [withData k data]. change (pos (withData f bs)) with (pos f).
    intros d' Hd' Hne. split; [done|]. intros i Hi. apply Hb; [by apply pf_pos_range|].
    destruct (decide (d' = d)) as [->|]; [right; split; [done|]; eauto|left]. apply (Hc d'); [multiset_solver|done..].
  - intros l f d [Hf Hc] Hd Hne. destruct (pf_Contains_ok f Hf d) as (b & E & Hb). cbn [persistentOps fl_Contains]. rewrite E. by apply Hb, Hc.
Qed.

(** ** A concrete filter *)
Definition sampleConfig (items : Z) : Config := mkConfig items f64_half (Some Standard.sampleHash).
Definition sampleRand : res bytes := Ok sampleKey.
Definition open (items : Z) : M FS Filter := newFilter nowhere Standard.sampleLog 0 sampleRand (heapDriver nowhere) (sampleConfig items) ([] ++ [str "filter"]).
Abbreviation close := (closeLocked nowhere (heapDriver nowhere)).

Lemma sampleRand_size key : sampleRand = Ok key -> length key = keySize.
Proof. by intros [= <-]. Qed.
Lemma emptyDisk_file : fileHere [] (str "filter") emptyDisk.
Proof.
  assert (Hn : tree emptyDisk !! ([] ++ [str "filter"]) = None) by by apply lookup_singleton_ne.
  split; [apply emptyDisk_parents|done|by rewrite Hn].
Qed.

Definition run1 := open 20 [] emptyDisk.
Definition filter1 : Filter := mkFilter true (encodeHeader [] hashKindCustom sampleKey) [x00; x00] 1 10 (Some Standard.sampleHash) false true false ([] ++ [str "filter"]).
Definition disk1 : FS := Eval vm_compute in run1.2.
Lemma run1_ok : run1 = (Ok filter1, [], disk1).
Proof. vm_compute. reflexivity. Qed.
Definition filter2 : Filter := withData filter1 [x20; x00].
Definition disk2 : FS := Eval vm_compute in (close filter2 [] disk1).2.
Lemma close2_ok : close filter2 [] disk1 = (Ok (closedOf filter2, None), [], disk2).
Proof. vm_compute. reflexivity. Qed.

Example persistent_reopen_witness :
  addAll filter1 [[x05]] = Some filter2 /\ (forall c3 g c4 s4, open 20 c3 disk2 = (Ok g, c4, s4) -> rebuilt g = false /\ Contains g [x05] = Some true) /\
  exists f c1 s1, open 20 [] emptyDisk = (Ok f, c1, s1) /\ quiet s1.
Proof.
  assert (E : addAll filter1 [[x05]] = Some filter2) by (vm_compute; reflexivity). split; [exact E|].
  destruct (persistent_reopen nowhere [] (str "filter") Standard.sampleLog 0 sampleRand sampleRand_size (heapDriver nowhere) false
    (sampleConfig 20) [] emptyDisk emptyDisk_file) as [H1 H2].
  split.
  - intros c3 g c4 s4 H. destruct (H1 _ _ _ run1_ok) as [_ Hds]. destruct (Hds [[x05]]) as (f' & E' & _ & Hin & Hclose).
    rewrite E in E'. apply (inj Some) in E'.
    destruct E'.
    pose proof (Hclose [] disk1 [] (closedOf filter2) None disk2 (or_introl eq_refl) close2_ok) as (_ & _ & Hre).
    pose proof (Hre (@eq_refl (option error) None) c3 g c4 s4 H) as [Hr Hc].
    split; [exact Hr|].
    rewrite Hc.
    apply Hin; [left|discriminate].
  - apply H2; [reflexivity|discriminate|vm_compute; reflexivity..].
Defined.

(** ** Silent losses

    A recorded digest can be reported absent by a filter that says it was not
    rebuilt.  The number of bits is not in the header: a file opened with another
    expected number of items keeps its bits, which are then probed at other
    positions.  And a flush that fails after it has written the header leaves a
    file whose header is good and whose bits are gone, which the next opening
    fills with zeros. *)
Theorem persistent_silent_loss : exists d,
  addAll filter1 [d] = Some filter2 /\ Contains filter2 d = Some true /\
  (exists g s', open 40 [] disk2 = (Ok g, [], s') /\ rebuilt g = false /\ Contains g d = Some false) /\
  (exists e s' g s'', close filter2 [] (mkFS (tree disk1) [None; Some (mkFault "disk full" headerSize)] (clock disk1)) = (Ok (closedOf filter2, Some e), [], s') /\
     open 20 [] s' = (Ok g, [], s'') /\ rebuilt g = false /\ Contains g d = Some false).
Proof.
  exists [x0f]. split; [vm_compute; reflexivity|]. split; [vm_compute; reflexivity|]. split.
  - do 2 eexists. split; [vm_compute; reflexivity|]. split; vm_compute; reflexivity.
  - do 4 eexists. split; [vm_compute; reflexivity|]. split; [vm_compute; reflexivity|]. split; vm_compute; reflexivity.
Qed.
