(* ===== verification/GoTime.v ===== *)
(** The instants and durations of Go's package time, as the viewer's limiters
    use them.  A [time.Time] is its nanoseconds since the zero time; a
    [time.Duration] is an int64 of nanoseconds, to which [Sub] saturates. *)

From S2P Require Import Prelude.

Definition Nanosecond : Z := 1.
Definition Second : Z := 10^9.
Definition Minute : Z := 60 * Second.
Definition Hour : Z := 60 * Minute.

(** [time.Time{}], the value that [IsZero]. *)
Definition zeroTime : Z := 0.

(** [t.Sub(u)]: the difference, or the nearest duration. *)
Definition Sub (t u : Z) : Z := Z.max (- 2^63) (Z.min MaxInt64 (t - u)).
(** [t.Add(d)], [t.Before(u)] and [t.After(u)]. *)
Definition Add (t d : Z) : Z := t + d.
Definition Before (t u : Z) : bool := t <? u.
Definition After (t u : Z) : bool := u <? t.

Lemma Sub_lt t u d : - 2^63 < d <= MaxInt64 -> Sub t u < d <-> t - u < d.
Proof. unfold Sub, MaxInt64. lia. Qed.
Lemma Sub_le t u d : - 2^63 <= d < MaxInt64 -> Sub t u <= d <-> t - u <= d.
Proof. unfold Sub, MaxInt64. lia. Qed.
Lemma Sub_exact t u : - 2^63 <= t - u <= MaxInt64 -> Sub t u = t - u.
Proof. unfold Sub, MaxInt64. lia. Qed.
Lemma Sub_range t u : - 2^63 <= Sub t u <= MaxInt64.
Proof. unfold Sub, MaxInt64. lia. Qed.
