(* ===== verification/WebThrottle.v ===== *)
(** The login throttle of the web view (internal/web/throttle.go).

    The state is one record per caller address; each operation is one critical
    section of the throttle's mutex and takes the instant its [time.Now()] reads.
    A history is a list of operations in the order in which they held the mutex. *)

From S2P Require Import Prelude GoTime.

Module Throttle.

Definition maxBackoff : Z := 30 * Minute.
Definition sweepThreshold : Z := 1024.

Record ipState := {
  recent : list Z;
  blockedUntil : Z;
  strikes : Z }.

(** [&ipState{}]. *)
Definition freshState : ipState := {| recent := []; blockedUntil := zeroTime; strikes := 0 |}.

Record throttle := {
  max : Z;
  window : Z;
  attempts : gmap bytes ipState }.

Definition newThrottle (max window : Z) : throttle :=
  {| max := max; window := window; attempts := ∅ |}.

Definition setAttempts (t : throttle) (m : gmap bytes ipState) : throttle :=
  {| max := max t; window := window t; attempts := m |}.

(** The loop of [backoff] from its [i]-th turn, [n] turns before its end. *)
Fixpoint backoffLoop (n : nat) (d : Z) : Z + Z :=
  match n with
  | O => inr d
  | S n => if maxBackoff `quot` 2 <=? d then inl maxBackoff else backoffLoop n (int64 (d * 2))
  end.

Definition backoff (t : throttle) (strikes : Z) : Z :=
  match backoffLoop (Z.to_nat (strikes - 1)) (window t) with
  | inl d => d
  | inr d => if maxBackoff <? d then maxBackoff else d
  end.

(** What [sweepLocked] keeps of one record. *)
Definition live (t : throttle) (now : Z) (st : ipState) : bool :=
  Before now (blockedUntil st) ||
  negb (match list.last (recent st) with
        | None => true
        | Some ts => window t <=? Sub now ts
        end).

Definition sweepLocked (t : throttle) (now : Z) : throttle :=
  if Z.of_nat (size (attempts t)) <=? sweepThreshold then t
  else setAttempts t (filter (fun e => live t now e.2 = true) (attempts t)).

(** The part of [allow] that decides on the caller's record. *)
Definition allowState (t : throttle) (now : Z) (st : ipState) : bool * ipState :=
  if Before now (blockedUntil st) then (false, st) else
  let keep := filter (fun ts => Sub now ts < window t) (recent st) in
  if max t <=? blen keep then
    let k := int64 (strikes st + 1) in
    (false, {| recent := []; blockedUntil := Add now (backoff t k); strikes := k |})
  else (true, {| recent := keep ++ [now]; blockedUntil := blockedUntil st; strikes := strikes st |}).

Definition allow (t : throttle) (ip : bytes) (now : Z) : bool * throttle :=
  let t := sweepLocked t now in
  let '(ok, st) := allowState t now (default freshState (attempts t !! ip)) in
  (ok, setAttempts t (<[ip := st]> (attempts t))).

Definition retryAfter (t : throttle) (ip : bytes) (now : Z) : Z :=
  match attempts t !! ip with
  | None => Second
  | Some st =>
    let remaining := Sub (blockedUntil st) now in
    if remaining <? Second then Second
    else int64 (int64 (remaining + Second - 1) `quot` Second * Second)
  end.

Definition reset (t : throttle) (ip : bytes) : throttle :=
  setAttempts t (delete ip (attempts t)).

(** ** Histories *)

Inductive event :=
  | Allow (ip : bytes) (now : Z)
  | Reset (ip : bytes).

Definition step (t : throttle) (e : event) : throttle :=
  match e with
  | Allow ip now => (allow t ip now).2
  | Reset ip => reset t ip
  end.

Definition run (t : throttle) (es : list event) : throttle := foldl step t es.

(** The instants at which [ip] was admitted since its last reset, newest
    first, in the history [es] from [t], given those before it. *)
Fixpoint grants (ip : bytes) (t : throttle) (es : list event) (acc : list Z) : list Z :=
  match es with
  | [] => acc
  | Allow ip' now :: es' =>
    grants ip (step t (Allow ip' now)) es'
      (if decide (ip' = ip) then if (allow t ip' now).1 then now :: acc else acc else acc)
  | Reset ip' :: es' =>
    grants ip (step t (Reset ip')) es' (if decide (ip' = ip) then [] else acc)
  end.

Lemma grants_app ip l es : forall t acc,
  grants ip t (l ++ es) acc = grants ip (run t l) es (grants ip t l acc).
Proof. induction l as [|[|] l IH]; intros t acc; [done|apply IH..]. Qed.

(** The clock read by a history does not go back, as Go's monotonic one. *)
Fixpoint monotone (from : Z) (es : list event) : Prop :=
  match es with
  | [] => True
  | Allow _ now :: es' => from <= now /\ monotone now es'
  | Reset _ :: es' => monotone from es'
  end.

#[global] Instance monotone_dec from es : Decision (monotone from es).
Proof. revert from. induction es as [|[]]; simpl; intros; apply _. Defined.

(** ** Backoff *)

Lemma backoffLoop_spec n d : 0 < d ->
  match backoffLoop n d with
  | inl x => x = maxBackoff /\ maxBackoff <= d * 2 ^ Z.of_nat n
  | inr x => x = d * 2 ^ Z.of_nat n
  end.
Proof.
  revert d. induction n as [|n IH]; intros d Hd; simpl; [lia|].
  assert (Hmax : maxBackoff `quot` 2 = 900 * 10^9 /\ maxBackoff = 1800 * 10^9) by done.
  pose proof (Z.pow_pos_nonneg 2 (Z.of_nat n) ltac:(lia) ltac:(lia)) as Hp.
  rewrite Nat2Z.inj_succ, Z.pow_succ_r by lia.
  destruct (Z.leb_spec (maxBackoff `quot` 2) d) as [Hle|Hlt]; [split; [done|nia]|].
  rewrite int64_id by lia. specialize (IH (d * 2) ltac:(lia)).
  destruct (backoffLoop n (d * 2)); lia.
Qed.

Lemma backoff_spec t k : 0 < window t -> 1 <= k ->
  backoff t k = Z.min maxBackoff (window t * 2 ^ (k - 1)).
Proof.
  intros Hw Hk. unfold backoff.
  pose proof (backoffLoop_spec (Z.to_nat (k - 1)) (window t) Hw) as H.
  rewrite Z2Nat.id in H by lia.
  destruct (backoffLoop _ _) as [x|x]; [lia|].
  destruct (Z.ltb_spec maxBackoff x); lia.
Qed.

Lemma backoff_range t k : 0 < window t <= maxBackoff ->
  window t <= backoff t k <= maxBackoff.
Proof.
  intros Hw. destruct (decide (1 <= k)) as [Hk|Hk].
  - rewrite backoff_spec by lia.
    pose proof (Z.pow_pos_nonneg 2 (k - 1) ltac:(lia) ltac:(lia)). nia.
  - unfold backoff. replace (Z.to_nat (k - 1)) with O by lia. simpl.
    destruct (Z.ltb_spec maxBackoff (window t)); lia.
Qed.

(** ** What a record says of its caller's admissions *)

(** The record [st] accounts for the admissions [g] of its caller up to [now]:
    one that it no longer lists is a window old, or will be when the block ends. *)
Record covers (w m now : Z) (st : ipState) (g : list Z) : Prop := {
  cov_split : exists old, g ≡ₚ recent st ++ old /\
    Forall (fun ts => ts + w <= Z.max (blockedUntil st) now) old;
  cov_past : Forall (fun ts => ts <= now) g;
  cov_blocked : now < blockedUntil st -> recent st = [];
  cov_until : blockedUntil st <= now + maxBackoff;
  cov_last : forall x, list.last (recent st) = Some x -> Forall (fun ts => ts <= x) (recent st);
  cov_count : forall T, blen (filter (fun ts => T - w < ts <= T) g) <= m }.

Lemma covers_later w m now now' st g : now <= now' ->
  covers w m now st g -> covers w m now' st g.
Proof.
  intros Hn [[old [Hg Hold]] Hp Hb Hu Hl Hc]. constructor; try done.
  - exists old. split; [done|]. eapply list.Forall_impl; [exact Hold|]. simpl. lia.
  - eapply list.Forall_impl; [exact Hp|]. simpl. lia.
  - intros. apply Hb. lia.
  - lia.
Qed.

(** A record that the sweep drops covers as much as no record. *)
Lemma covers_dead t m now st g : 0 < window t <= maxBackoff -> 0 <= now ->
  live t now st = false -> covers (window t) m now st g ->
  covers (window t) m now freshState g.
Proof.
  intros Hw Hn Hlive [[old [Hg Hold]] Hp Hb Hu Hl Hc].
  unfold live in Hlive. apply orb_false_iff in Hlive as [Hbl Hrec].
  unfold Before in Hbl. apply Z.ltb_ge in Hbl. apply negb_false_iff in Hrec.
  constructor; simpl; try done.
  - exists g. split; [done|]. rewrite Hg. apply list.Forall_app. split.
    + destruct (list.last (recent st)) as [x|] eqn:E.
      * apply Z.leb_le in Hrec.
        assert (window t <= now - x).
        { destruct (decide (now - x < window t)) as [C|C]; [|lia].
          apply Sub_lt in C; [lia|]. unfold maxBackoff, MaxInt64, Minute, Second in *. lia. }
        eapply list.Forall_impl; [exact (Hl x eq_refl)|]. unfold zeroTime. simpl. lia.
      * apply last_None in E. by rewrite E.
    + eapply list.Forall_impl; [exact Hold|]. simpl. unfold zeroTime. lia.
  - unfold zeroTime, maxBackoff, Minute, Second. lia.
Qed.

Lemma filter_none {A} (P : A -> Prop) `{!forall x, Decision (P x)} l :
  (forall x, x ∈ l -> ~ P x) -> filter P l = [].
Proof.
  intros HP. destruct (filter P l) as [|x k] eqn:E; [done|].
  assert (Hx : x ∈ filter P l) by (rewrite E; left).
  apply list_elem_of_filter in Hx as [Hx Hin]. by destruct (HP x).
Qed.

Lemma filter_le_length {A} (P Q : A -> Prop) `{!forall x, Decision (P x), !forall x, Decision (Q x)} l :
  (forall x, x ∈ l -> P x -> Q x) -> blen (filter P l) <= blen (filter Q l).
Proof.
  induction l as [|x l IH]; intros HPQ; [done|].
  rewrite !list.filter_cons. specialize (IH ltac:(set_solver)).
  destruct (decide (P x)) as [Hp|Hp], (decide (Q x)) as [Hq|Hq]; simpl; try lia.
  destruct Hq. apply HPQ; [left|done].
Qed.

Section admission.
Context (t : throttle) (Hmax : 0 < max t) (Hw : 0 < window t <= maxBackoff).

Lemma Sub_window now ts : Sub now ts < window t <-> now - ts < window t.
Proof. apply Sub_lt. unfold maxBackoff, MaxInt64, Minute, Second in *. lia. Qed.

Lemma admit_covers now st g :
  covers (window t) (max t) now st g ->
  covers (window t) (max t) now (allowState t now st).2
    (if (allowState t now st).1 then now :: g else g).
Proof.
  intros Hc. pose proof Hc as [[old [Hg Hold]] Hp Hb Hu Hl Hn]. unfold allowState, Before.
  destruct (Z.ltb_spec now (blockedUntil st)) as [Hblk|Hblk]; [done|].
  rewrite Z.max_r in Hold by lia.
  set (keep := filter (fun ts => Sub now ts < window t) (recent st)).
  assert (Hdrop : Forall (fun ts => ts + window t <= now)
    (filter (fun ts => ~ Sub now ts < window t) (recent st))).
  { apply list.Forall_forall. intros ts [Hts _]%list_elem_of_filter.
    rewrite Sub_window in Hts. lia. }
  destruct (Z.leb_spec (max t) (blen keep)) as [Hfull|Hroom]; simpl.
  - pose proof (backoff_range t (int64 (strikes st + 1)) Hw) as Hbk.
    constructor; simpl; try done; [|unfold Add; lia].
    exists g. split; [done|]. unfold Add. eapply list.Forall_impl; [exact Hp|]. simpl. lia.
  - constructor; simpl; try (done || lia).
    + exists (filter (fun ts => ~ Sub now ts < window t) (recent st) ++ old). split.
      * rewrite Hg. rewrite <- (filter_app_complement (fun ts => Sub now ts < window t) (recent st)) at 1.
        fold keep. solve_Permutation.
      * rewrite Z.max_r by lia. by apply list.Forall_app.
    + by apply list.Forall_cons.
    + intros x. rewrite last_snoc. intros [= <-].
      rewrite Hg in Hp. apply list.Forall_app in Hp as [Hp _].
      apply list.Forall_app. split; [|by apply list.Forall_singleton].
      apply list.Forall_forall. intros ts [_ Hts]%list_elem_of_filter.
      by apply (proj1 (list.Forall_forall _ _) Hp).
    + intros T. rewrite list.filter_cons. destruct (decide _) as [HT|HT]; [|apply Hn].
      simpl. enough (blen (filter (fun ts => T - window t < ts <= T) g) <= blen keep) by lia.
      rewrite Hg, list.filter_app, length_app, Nat2Z.inj_add.
      rewrite (filter_none _ old); simpl.
      * rewrite Z.add_0_r. apply filter_le_length. intros ts _ Hts. apply Sub_window. lia.
      * intros ts Hin. apply (proj1 (list.Forall_forall _ _) Hold) in Hin. lia.
Qed.

(** The record the throttle has of [ip]. *)
Definition record_of (ip : bytes) (t : throttle) : ipState := default freshState (attempts t !! ip).

Definition inv (ip : bytes) (t : throttle) (now : Z) (g : list Z) : Prop :=
  covers (window t) (max t) now (record_of ip t) g.

End admission.

Lemma sweep_lookup t now ip :
  record_of ip (sweepLocked t now) = record_of ip t \/
  record_of ip (sweepLocked t now) = freshState /\ live t now (record_of ip t) = false.
Proof.
  unfold sweepLocked, record_of. destruct (_ <=? _); [by left|]. simpl.
  destruct (attempts t !! ip) as [st|] eqn:E.
  - destruct (live t now st) eqn:El.
    + left. by rewrite (map_lookup_filter_Some_2 _ _ _ st).
    + right. rewrite map_lookup_filter_None_2; [done|].
      right. intros st'. rewrite E. intros [= <-]. simpl. by rewrite El.
  - left. rewrite map_lookup_filter_None_2; [done|by left].
Qed.

Lemma sweep_max t now : max (sweepLocked t now) = max t.
Proof. unfold sweepLocked. by destruct (_ <=? _). Qed.
Lemma sweep_window t now : window (sweepLocked t now) = window t.
Proof. unfold sweepLocked. by destruct (_ <=? _). Qed.
Lemma admit_config t u now st : max t = max u -> window t = window u -> allowState t now st = allowState u now st.
Proof. intros Hm Hw. unfold allowState, backoff. by rewrite Hm, Hw. Qed.

(** [allow] decides on the caller's record as the sweep left it, and changes
    no other caller's. *)
Lemma allow_spec t ip now :
  let r := allowState t now (record_of ip (sweepLocked t now)) in
  (allow t ip now).1 = r.1 /\ record_of ip (allow t ip now).2 = r.2 /\
  forall ip', ip' <> ip -> record_of ip' (allow t ip now).2 = record_of ip' (sweepLocked t now).
Proof.
  unfold allow. fold (record_of ip (sweepLocked t now)).
  rewrite (admit_config _ t) by (apply sweep_max || apply sweep_window).
  destruct (allowState t now _) as [ok st] eqn:E. simpl. unfold record_of. simpl.
  rewrite lookup_insert_eq. split_and!; [done..|].
  intros ip' Hne. by rewrite lookup_insert_ne.
Qed.

Lemma step_max t e : max (step t e) = max t.
Proof.
  destruct e; simpl; [|done]. unfold allow. destruct (allowState _ _ _). simpl. apply sweep_max.
Qed.
Lemma step_window t e : window (step t e) = window t.
Proof.
  destruct e; simpl; [|done]. unfold allow. destruct (allowState _ _ _). simpl. apply sweep_window.
Qed.

Lemma run_max es : forall t, max (run t es) = max t.
Proof. induction es as [|e es IH]; intros t; simpl; [done|]. rewrite IH. apply step_max. Qed.
Lemma run_window es : forall t, window (run t es) = window t.
Proof. induction es as [|e es IH]; intros t; simpl; [done|]. rewrite IH. apply step_window. Qed.

Lemma covers_new w m now : 0 <= m -> 0 <= now -> covers w m now freshState [].
Proof.
  intros. constructor; simpl; try done.
  - by exists [].
  - unfold zeroTime, maxBackoff, Minute, Second. lia.
Qed.

(** ** Histories *)

Definition goodConfig (t : throttle) : Prop := 0 < max t /\ 0 < window t <= maxBackoff.

Lemma inv_allow ip t now ip' now' g : goodConfig t -> 0 <= now -> now <= now' ->
  inv ip t now g ->
  inv ip (step t (Allow ip' now')) now'
    (if decide (ip' = ip) then if (allow t ip' now').1 then now' :: g else g else g).
Proof.
  intros [Hm Hw] Hn Hle Hi. unfold inv. rewrite step_max, step_window.
  assert (Hs : covers (window t) (max t) now' (record_of ip (sweepLocked t now')) g).
  { apply (covers_later _ _ _ now') in Hi; [|done].
    destruct (sweep_lookup t now' ip) as [->|[-> Hdead]]; [done|].
    by eapply covers_dead; [|lia|..]. }
  destruct (allow_spec t ip' now') as (H1 & H2 & H3). simpl.
  destruct (decide (ip' = ip)) as [->|Hne].
  - rewrite H1, H2. by apply admit_covers.
  - by rewrite H3.
Qed.

Lemma inv_grants ip es es' : forall t now g, goodConfig t -> 0 <= now ->
  inv ip t now g -> monotone now (es ++ es') ->
  exists now', inv ip (run t es) now' (grants ip t es g) /\ 0 <= now' /\ monotone now' es'.
Proof.
  induction es as [|e es IH]; intros t now g Ht Hn Hi Hmono; simpl; [by exists now|].
  assert (Ht' : goodConfig (step t e)) by (unfold goodConfig; by rewrite step_max, step_window).
  destruct e as [ip' now'|ip']; simpl in Hmono.
  - destruct Hmono as [Hle Hmono].
    apply (IH _ now'); [done|lia|by apply inv_allow with now|done].
  - apply (IH _ now); [done|done| |done].
    unfold inv. rewrite step_max, step_window. unfold record_of. simpl.
    destruct (decide (ip' = ip)) as [->|Hne].
    + rewrite lookup_delete_eq. simpl. destruct Ht. apply covers_new; lia.
    + by rewrite lookup_delete_ne.
Qed.

(** Operations that do not name [ip]. *)
Definition others (ip : bytes) (es : list event) : Prop :=
  Forall (fun e => match e with Allow ip' _ | Reset ip' => ip' <> ip end) es.

#[global] Instance others_dec ip es : Decision (others ip es).
Proof. apply list.Forall_dec. intros []; apply _. Defined.

Lemma record_step_other ip t e now :
  match e with Allow ip' n => ip' <> ip /\ n = now | Reset ip' => ip' <> ip end ->
  record_of ip (step t e) = record_of ip t \/
  record_of ip (step t e) = freshState /\ live t now (record_of ip t) = false.
Proof.
  destruct e as [ip' n|ip']; simpl.
  - intros [Hne ->]. destruct (allow_spec t ip' now) as (_ & _ & H). rewrite H by done.
    apply sweep_lookup.
  - intros Hne. left. unfold record_of. simpl. by rewrite lookup_delete_ne.
Qed.

Lemma monotone_last from es ip now : monotone from (es ++ [Allow ip now]) -> from <= now.
Proof.
  revert from. induction es as [|[] es IH]; simpl; intros from H; [lia| |by apply IH].
  destruct H as [? H]. apply IH in H. lia.
Qed.

(** While others act, a block stands; once it is over its record may be swept. *)
Lemma record_run_others ip es : forall t now now3, others ip es ->
  monotone now (es ++ [Allow ip now3]) ->
  record_of ip (run t es) = record_of ip t \/
  record_of ip (run t es) = freshState /\ blockedUntil (record_of ip t) <= now3.
Proof.
  induction es as [|e es IH]; intros t now now3 Ho Hm; [by left|].
  apply list.Forall_cons in Ho as [He Ho].
  assert (exists n, monotone n (es ++ [Allow ip now3]) /\
    match e with Allow ip' n' => ip' <> ip /\ n' = n | Reset ip' => ip' <> ip end) as (n & Hn & Hen).
  { destruct e; simpl in Hm; [exists now0|exists now]; naive_solver. }
  pose proof (monotone_last _ _ _ _ Hn) as Hle.
  pose proof (record_step_other ip t e n Hen) as Hs. simpl.
  destruct (IH (step t e) n now3 Ho Hn) as [->|[-> Hb]], Hs as [Hs|[Hs Hlive]]; rewrite ?Hs in *; auto.
  - right. split; [done|]. apply orb_false_iff in Hlive as [Hl%Z.ltb_ge _]. lia.
  - right. split; [done|]. apply orb_false_iff in Hlive as [Hl%Z.ltb_ge _]. lia.
Qed.

Lemma admit_fresh t now st : 0 < max t -> recent st = [] ->
  (allowState t now st).1 = negb (now <? blockedUntil st).
Proof.
  intros Hm Hr. unfold allowState, Before. destruct (now <? blockedUntil st); [done|].
  rewrite Hr, list.filter_nil. simpl.
  destruct (Z.leb_spec (max t) (Z.of_nat 0)); [lia|done].
Qed.

(** [retryAfter] names the first whole second at which the block is over. *)
Lemma retryAfter_spec t ip now :
  - 2^62 <= blockedUntil (record_of ip t) - now <= 2^62 ->
  let r := retryAfter t ip now in
  let remaining := blockedUntil (record_of ip t) - now in
  (Second | r) /\ remaining <= r /\ (r = Second \/ Second <= remaining /\ r < remaining + Second) \/
  attempts t !! ip = None.
Proof.
  unfold record_of, retryAfter. destruct (attempts t !! ip) as [st|]; simpl; [|auto].
  intros Hr. left. rewrite Sub_exact by (unfold MaxInt64; lia).
  set (d := blockedUntil st - now) in *.
  destruct (Z.ltb_spec d Second) as [Hlt|Hge].
  - split_and!; [by exists 1|lia|auto].
  - unfold Second in *. rewrite (int64_id (d + _ - 1)) by lia.
    pose proof (Z.quot_rem' (d + 10^9 - 1) (10^9)) as Hq.
    pose proof (Z.rem_bound_pos (d + 10^9 - 1) (10^9) ltac:(lia) ltac:(lia)) as Hb.
    rewrite int64_id by lia. split_and!; [by eexists|lia|right; lia].
Qed.

Lemma strikes_run ip es : forall t n, 0 <= n -> n + blen es <= MaxInt64 ->
  0 <= strikes (record_of ip t) <= n ->
  0 <= strikes (record_of ip (run t es)) <= n + blen es.
Proof.
  induction es as [|e es IH]; intros t n Hn Hlen Hs; simpl in *; [lia|].
  rewrite Nat2Z.inj_succ in *.
  enough (0 <= strikes (record_of ip (step t e)) <= n + 1) as H.
  { specialize (IH (step t e) (n + 1) ltac:(lia) ltac:(lia) H). lia. }
  destruct e as [ip' now|ip']; simpl.
  - destruct (allow_spec t ip' now) as (_ & Hr & Ho).
    assert (Hsw : 0 <= strikes (record_of ip (sweepLocked t now)) <= n)
      by (destruct (sweep_lookup t now ip) as [->|[-> _]]; simpl; lia).
    destruct (decide (ip' = ip)) as [->|Hne]; [|rewrite Ho by done; lia].
    rewrite Hr. unfold allowState. unfold MaxInt64 in *.
    destruct (Before _ _); [simpl; lia|]. destruct (_ <=? _); simpl; rewrite ?int64_id; lia.
  - unfold record_of in *. simpl. destruct (decide (ip' = ip)) as [->|Hne].
    + rewrite lookup_delete_eq. simpl. lia.
    + rewrite lookup_delete_ne by done. lia.
Qed.

(** A refusal leaves a block and no attempts. *)
Lemma refused_record t ip now : 0 < window t <= maxBackoff -> 0 <= now ->
  (now < blockedUntil (record_of ip t) -> recent (record_of ip t) = []) ->
  (allow t ip now).1 = false ->
  let st := record_of ip (allow t ip now).2 in
  recent st = [] /\ now < blockedUntil st /\
  (st = record_of ip t \/
   exists k, (k = strikes (record_of ip t) \/ k = 0) /\ strikes st = int64 (k + 1) /\
     blockedUntil st = now + backoff t (int64 (k + 1))).
Proof.
  intros Hw Hn Hb Href. simpl. destruct (allow_spec t ip now) as (H1 & -> & _).
  rewrite H1 in Href. revert Href.
  set (st := record_of ip (sweepLocked t now)).
  assert (Hst : st = record_of ip t \/ st = freshState) by
    (unfold st; destruct (sweep_lookup t now ip) as [|[]]; auto).
  unfold allowState, Before. destruct (Z.ltb_spec now (blockedUntil st)) as [Hlt|Hge]; simpl.
  - destruct Hst as [E|E]; rewrite E in *; [auto|]. unfold freshState, zeroTime in Hlt. simpl in Hlt. lia.
  - destruct (_ <=? _); [|done]. intros _. simpl.
    pose proof (backoff_range t (int64 (strikes st + 1)) Hw). unfold Add.
    split_and!; [done|lia|right]. exists (strikes st). split_and!; [|done..].
    destruct Hst as [-> | ->]; auto.
Qed.

(** ** What the throttle promises *)

Lemma new_inv m w ip : 0 < m -> inv ip (newThrottle m w) 0 [].
Proof. intros. apply covers_new; simpl; lia. Qed.

(** Whatever the history of attempts and resets, with a clock that does
    not go back, no caller address is admitted more than [max] times within any
    span as long as the window, counting from its last reset: not across a sweep of
    the map, nor across a block. *)
Lemma throttle_window_bound m w es ip T :
  0 < m -> 0 < w <= maxBackoff -> monotone zeroTime es ->
  blen (filter (fun ts => T - w < ts <= T) (grants ip (newThrottle m w) es [])) <= m.
Proof.
  intros Hm Hw Hmono. rewrite <- (app_nil_r es) in Hmono.
  destruct (inv_grants ip es [] (newThrottle m w) 0 [] (conj Hm Hw) ltac:(lia)
    (new_inv m w ip Hm) Hmono) as (now & Hi & _).
  pose proof (cov_count _ _ _ _ _ Hi T) as Hc. by rewrite run_max, run_window in Hc.
Qed.

(** A refusal names its own end.  After any history, a refused attempt of
    [ip] leaves a block with an end, which is [k] times doubled, up to the maximum, when the
    budget has just run out for the [k]-th time in a row; an attempt before that
    end is refused and one from it on is admitted, whatever other callers do in
    between; and the wait [retryAfter] announces is whole seconds, reaches the end,
    and is less than a second longer than it must be (and never under a second). *)
Theorem throttle_refusal m w es ip now :
  0 < m -> 0 < w <= maxBackoff -> blen es < MaxInt64 ->
  monotone zeroTime (es ++ [Allow ip now]) ->
  let t1 := run (newThrottle m w) es in
  let t2 := (allow t1 ip now).2 in
  let until := blockedUntil (record_of ip t2) in
  (allow t1 ip now).1 = false ->
  now < until /\
  (until = blockedUntil (record_of ip t1) \/
   exists k, 1 <= k /\ k = strikes (record_of ip t2) /\
     until = now + Z.min maxBackoff (w * 2 ^ (k - 1))) /\
  (forall es2 now3, others ip es2 -> monotone now (es2 ++ [Allow ip now3]) ->
     (allow (run t2 es2) ip now3).1 = bool_decide (until <= now3)) /\
  (forall now2, now <= now2 <= now + 2^60 ->
     let r := retryAfter t2 ip now2 in
     (Second | r) /\ until <= now2 + r /\ (r = Second \/ r < until - now2 + Second)).
Proof.
  intros Hm Hw Hlen Hmono t1 t2 until Href.
  destruct (inv_grants ip es [Allow ip now] (newThrottle m w) 0 [] (conj Hm Hw) ltac:(lia)
    (new_inv m w ip Hm) Hmono) as (now0 & Hi & Hn0 & Hle & _).
  pose proof (strikes_run ip es (newThrottle m w) 0 ltac:(lia) ltac:(lia) ltac:(done)) as Hk.
  pose proof (run_max es (newThrottle m w)) as Hmax. pose proof (run_window es (newThrottle m w)) as Hwin.
  fold t1 in Hi, Hk, Hmax, Hwin. simpl in Hmax, Hwin.
  destruct (refused_record t1 ip now) as (Hrec & Hnow & Hend); [by rewrite Hwin|lia| |done|].
  { apply (covers_later _ _ _ now) in Hi; [apply (cov_blocked _ _ _ _ _ Hi)|done]. }
  fold t2 in Hrec, Hnow, Hend. fold until in Hnow.
  apply (covers_later _ _ _ now) in Hi; [|done]. pose proof (cov_until _ _ _ _ _ Hi) as Hold.
  assert (Hfar : until <= now + maxBackoff).
  { destruct Hend as [E|(k & _ & _ & E)]; unfold until; rewrite E; [done|].
    pose proof (backoff_range t1 (int64 (k + 1)) ltac:(by rewrite Hwin)). lia. }
  split_and!; [done|..].
  - destruct Hend as [E|(k & Hk2 & Hs & E)]; [left; unfold until; by rewrite E|right].
    exists (int64 (k + 1)). unfold MaxInt64 in *. rewrite int64_id in * by lia.
    rewrite backoff_spec, Hwin in E by lia. split_and!; [lia|done|exact E].
  - intros es2 now3 Ho Hm3. destruct (allow_spec (run t2 es2) ip now3) as (-> & _).
    assert (Hmx : max (run t2 es2) = m)
      by (rewrite run_max; etransitivity; [exact (step_max t1 (Allow ip now))|exact Hmax]).
    assert (Hrest : forall st, st = record_of ip t2 \/ st = freshState /\ until <= now3 ->
      (allowState (run t2 es2) now3 st).1 = bool_decide (until <= now3)).
    { assert (0 <= now3) by (apply (monotone_last now es2 ip) in Hm3; lia).
      intros st [-> | [-> Hu]]; rewrite admit_fresh by (done || lia).
      - fold until. destruct (Z.ltb_spec now3 until); case_bool_decide; lia || done.
      - rewrite bool_decide_true by done. simpl. unfold zeroTime. destruct (Z.ltb_spec now3 0); [lia|done]. }
    apply Hrest. destruct (record_run_others ip es2 t2 now now3 Ho Hm3) as [E|[E Hu]],
      (sweep_lookup (run t2 es2) now3 ip) as [->|[-> Hl]]; rewrite ?E in *; auto.
    right. split; [done|]. apply orb_false_iff in Hl as [Hl%Z.ltb_ge _]. done.
  - intros now2 Hn2. simpl.
    destruct (retryAfter_spec t2 ip now2) as [(H1 & H2 & H3)|Hnone].
    + fold until. unfold maxBackoff, Minute, Second in Hfar. lia.
    + fold until in H2, H3. split_and!; [done|lia|]. destruct H3; [by left|right; lia].
    + exfalso. unfold until, record_of in Hnow. rewrite Hnone in Hnow. simpl in Hnow.
      unfold zeroTime in Hnow. lia.
Qed.

(** Five attempts a minute, one a second; the sixth is refused for a minute, which it says. *)
Definition sixLogins : list event := [Allow (str "a") (1 * Second); Allow (str "b") (1 * Second);
  Allow (str "a") (2 * Second); Allow (str "a") (3 * Second); Allow (str "a") (4 * Second);
  Allow (str "a") (5 * Second)].

Example throttle_refusal_witness :
  let t2 := (allow (run (newThrottle 5 Minute) sixLogins) (str "a") (6 * Second)).2 in
  6 * Second < blockedUntil (record_of (str "a") t2) /\ retryAfter t2 (str "a") (6 * Second) = Minute.
Proof.
  split; [|by vm_compute].
  apply (throttle_refusal 5 Minute sixLogins (str "a") (6 * Second));
    [lia|by vm_compute|by vm_compute|apply (bool_decide_unpack _); by vm_compute|by vm_compute].
Defined.

(** Doubling needs the record: once more than [sweepThreshold] addresses are
    known, any caller's attempt drops the record of a block that is over, and with it
    the exhaustions counted so far.  Here [x] runs out of attempts twice, and is
    blocked for a minute each time; without the other addresses the second block is two. *)
Definition exhaust (ip : bytes) (now : Z) : list event := replicate 6 (Allow ip now).
Definition crowd : list event :=
  map (fun n => Allow [z2b (Z.of_nat n / 256); z2b (Z.of_nat n)] (30 * Second)) (seq 0 1025).

Theorem throttle_sweep_forgets :
  let x := str "x" in
  let blocked es := Sub (blockedUntil (record_of x (run (newThrottle 5 Minute) es))) (70 * Second) in
  blocked (exhaust x Second ++ exhaust x (70 * Second)) = 2 * Minute /\
  blocked (exhaust x Second ++ crowd ++ [Allow (str "y") (65 * Second)] ++ exhaust x (70 * Second))
    = Minute.
Proof. by vm_compute. Qed.

End Throttle.
