(* ===== verification/WebLimiter.v ===== *)
(** The limiter of the web view's expensive routes (internal/web/limit.go): one
    operation at a time, and a token bucket per session.

    As in WebThrottle, each operation is one critical section, takes the instant its
    clock reads, and a history is the list of them in the order of the mutex. *)

From S2P Require Import Prelude GoTime.

Module Limiter.

Definition defaultExpensiveCooldown : Z := 5 * Second.
Definition expensiveBurst : Z := 3.
Definition busyRetryAfter : Z := Second.
Definition sweepThreshold : Z := 1024.

Record budget := { tokens : Z; refilled : Z }.

Record expensiveOps := {
  cooldown : Z;
  burst : Z;
  busy : bool;
  budgets : gmap bytes budget }.

Definition newExpensiveOpsWith (cooldown : Z) : expensiveOps :=
  {| cooldown := cooldown; burst := expensiveBurst; busy := false; budgets := ∅ |}.
Definition newExpensiveOps : expensiveOps := newExpensiveOpsWith defaultExpensiveCooldown.

Definition setBudgets (l : expensiveOps) (m : gmap bytes budget) : expensiveOps :=
  {| cooldown := cooldown l; burst := burst l; busy := busy l; budgets := m |}.
Definition setBusy (l : expensiveOps) (b : bool) : expensiveOps :=
  {| cooldown := cooldown l; burst := burst l; busy := b; budgets := budgets l |}.

(** What [sweepLocked] drops. *)
Definition idle (l : expensiveOps) (now : Z) (b : budget) : bool :=
  (burst l <=? tokens b) && (cooldown l <=? Sub now (refilled b)).

Definition sweepLocked (l : expensiveOps) (now : Z) : expensiveOps :=
  if Z.of_nat (size (budgets l)) <=? sweepThreshold then l
  else setBudgets l (filter (fun e => idle l now e.2 = false) (budgets l)).

(** The bucket [b], refilled for the time up to [now]. *)
Definition refill (l : expensiveOps) (now : Z) (b : budget) : budget :=
  let gained := Sub now (refilled b) `quot` cooldown l in
  if 0 <? gained then
    {| tokens := Z.min (burst l) (int64 (tokens b + gained));
       refilled := Add (refilled b) (int64 (gained * cooldown l)) |}
  else b.

(** The session's bucket; the caller stores what it leaves in it. *)
Definition budgetLocked (l : expensiveOps) (id : bytes) (now : Z) : budget :=
  match budgets l !! id with
  | None => {| tokens := burst l; refilled := now |}
  | Some b => refill l now b
  end.

Definition refillIn (l : expensiveOps) (b : budget) (now : Z) : Z :=
  let next := Add (refilled b) (cooldown l) in
  if negb (After next now) then cooldown l else Sub next now.

Definition begin (l : expensiveOps) (id : bytes) (now : Z) : (Z * bool) * expensiveOps :=
  if 0 <? cooldown l then
    let l := sweepLocked l now in
    let b := budgetLocked l id now in
    let store b := setBudgets l (<[id := b]> (budgets l)) in
    if tokens b =? 0 then ((refillIn l b now, false), store b)
    else if busy l then ((busyRetryAfter, false), store b)
    else ((0, true), setBusy (store {| tokens := tokens b - 1; refilled := refilled b |}) true)
  else if busy l then ((busyRetryAfter, false), l)
  else ((0, true), setBusy l true).

Definition end_ (l : expensiveOps) : expensiveOps := setBusy l false.

(** Whole seconds for the header: rounded up, never zero. *)
Definition retryAfterSeconds (d : Z) : Z :=
  let seconds := int64 (int64 (d + Second) - 1) `quot` Second in
  if seconds <? 1 then 1 else seconds.

(** ** Histories *)

Inductive event :=
  | Begin (id : bytes) (now : Z)
  | End.

Definition step (l : expensiveOps) (e : event) : expensiveOps :=
  match e with
  | Begin id now => (begin l id now).2
  | End => end_ l
  end.

Definition run (l : expensiveOps) (es : list event) : expensiveOps := foldl step l es.

(** The instants at which session [id] was admitted, newest first. *)
Fixpoint grants (id : bytes) (l : expensiveOps) (es : list event) (acc : list Z) : list Z :=
  match es with
  | [] => acc
  | e :: es' =>
    grants id (step l e) es'
      match e with
      | Begin id' now => if decide (id' = id) then if (begin l id' now).1.2 then now :: acc else acc else acc
      | End => acc
      end
  end.

(** The clock does not go back, and does not pass [to]. *)
Fixpoint monotone (from to : Z) (es : list event) : Prop :=
  match es with
  | [] => from <= to
  | Begin _ now :: es' => from <= now /\ monotone now to es'
  | End :: es' => monotone from to es'
  end.

#[global] Instance limiter_monotone_dec from to es : Decision (monotone from to es).
Proof. revert from. induction es as [|[]]; simpl; intros; apply _. Defined.

Lemma monotone_to from to es : monotone from to es -> from <= to.
Proof.
  revert from. induction es as [|[] es IH]; simpl; intros from H; [done| |by apply IH].
  destruct H as [? H]. apply IH in H. lia.
Qed.

(** ** One bucket and the admissions it accounts for *)

(** How many of the admissions [g] are in the span from [a] to [b]. *)
Definition within (a b : Z) (g : list Z) : Z := blen (filter (fun ts => a <= ts <= b) g).
Definition since (a : Z) (g : list Z) : Z := blen (filter (fun ts => a <= ts) g).

(** The bound on a span, which an admission keeps when the bucket allowed it. *)
Definition spans (c k : Z) (g : list Z) : Prop :=
  forall a b, within a b g = 0 \/ c * within a b g + a <= (k + 1) * c - 1 + b.

(** What a bucket last touched before [now] still owes to its past admissions. *)
Definition accounts (c k now : Z) (b : budget) (g : list Z) : Prop :=
  0 <= tokens b <= k /\ refilled b <= now /\
  forall a, since a g = 0 \/ c * (since a g + tokens b) + a <= (k + 1) * c - 1 + refilled b.

(** The same of a session without a bucket. *)
Definition forgotten (c now : Z) (g : list Z) : Prop :=
  forall a, since a g = 0 \/ c * since a g + a <= c - 1 + now.

Definition ledger (c k from now : Z) (ob : option budget) (g : list Z) : Prop :=
  Forall (fun ts => ts <= now) g /\ spans c k g /\
  match ob with
  | Some b => from <= refilled b /\ accounts c k now b g
  | None => forgotten c now g
  end.

Lemma since_cons a ts g : since a (ts :: g) = (if decide (a <= ts) then 1 else 0) + since a g.
Proof. unfold since. rewrite list.filter_cons. destruct (decide _); simpl; lia. Qed.
Lemma within_cons a b ts g :
  within a b (ts :: g) = (if decide (a <= ts <= b) then 1 else 0) + within a b g.
Proof. unfold within. rewrite list.filter_cons. destruct (decide _); simpl; lia. Qed.
Lemma since_nonneg a g : 0 <= since a g.
Proof. unfold since. lia. Qed.
Lemma within_nonneg a b g : 0 <= within a b g.
Proof. unfold within. lia. Qed.
Lemma within_since a b g : Forall (fun ts => ts <= b) g -> within a b g = since a g.
Proof.
  induction 1 as [|ts g H _ IH]; [done|]. rewrite within_cons, since_cons, IH.
  do 2 case_decide; lia.
Qed.
Lemma within_le_since a b g : within a b g <= since a g.
Proof.
  induction g as [|ts g IH]; [done|]. rewrite within_cons, since_cons. do 2 case_decide; lia.
Qed.
Lemma since_future a now g : Forall (fun ts => ts <= now) g -> now < a -> since a g = 0.
Proof.
  induction 1 as [|ts g H _ IH]; [done|]. intros Ha. rewrite since_cons, IH by done.
  case_decide; lia.
Qed.

Section bucket.
Context (c k : Z) (Hc : 0 < c) (Hk : 0 < k < 2^62).

(** The refill is the whole cooldowns that passed, up to the burst. *)
Lemma refill_spec l now b : cooldown l = c -> burst l = k -> 0 <= tokens b <= k ->
  refilled b <= now <= refilled b + 2^62 ->
  let g := (now - refilled b) / c in
  refill l now b = {| tokens := Z.min k (tokens b + g); refilled := refilled b + g * c |}.
Proof.
  intros Hcl Hbl Ht Hn g. unfold refill. rewrite Hcl, Hbl.
  rewrite Sub_exact by (unfold MaxInt64; lia). rewrite Z.quot_div_nonneg by lia. fold g.
  pose proof (Z.mul_div_le (now - refilled b) c Hc) as H1.
  pose proof (Z.div_pos (now - refilled b) c ltac:(lia) Hc) as H2. fold g in H1, H2.
  assert (Hg : 0 <= g <= 2^62 /\ g * c <= 2^62) by nia.
  destruct (Z.ltb_spec 0 g) as [Hp|Hz].
  - rewrite !int64_id by nia. done.
  - replace g with 0 by lia. destruct b as [t r]. simpl in *. f_equal; lia.
Qed.

Lemma refill_bounds l now b : cooldown l = c -> burst l = k -> 0 <= tokens b <= k ->
  refilled b <= now <= refilled b + 2^62 ->
  0 <= tokens (refill l now b) <= k /\ refilled (refill l now b) <= now < refilled (refill l now b) + c.
Proof.
  intros Hcl Hbl Ht Hn. rewrite (refill_spec l now b) by done. simpl.
  pose proof (Z.div_mod (now - refilled b) c ltac:(lia)).
  pose proof (Z.mod_pos_bound (now - refilled b) c Hc).
  pose proof (Z.div_pos (now - refilled b) c ltac:(lia) Hc). nia.
Qed.

Lemma refill_accounts l now b g : cooldown l = c -> burst l = k ->
  refilled b <= now <= refilled b + 2^62 ->
  accounts c k now b g -> accounts c k now (refill l now b) g.
Proof.
  intros Hcl Hbl Hn (Ht & Hr & Ha).
  destruct (refill_bounds l now b Hcl Hbl Ht Hn) as [H1 H2].
  split_and!; [lia..|]. intros a. destruct (Ha a) as [Hz|Hle]; [by left|right].
  rewrite (refill_spec l now b) by done. simpl. nia.
Qed.

Lemma fresh_accounts now g : forgotten c now g ->
  accounts c k now {| tokens := k; refilled := now |} g.
Proof.
  intros Hf. split_and!; simpl; [lia..|]. intros a. destruct (Hf a); [by left|right; nia].
Qed.

(** Spending a token on an admission at the instant of the refill. *)
Lemma spend_accounts now b g : Forall (fun ts => ts <= now) g ->
  now < refilled b + c -> tokens b <> 0 -> accounts c k now b g ->
  accounts c k now {| tokens := tokens b - 1; refilled := refilled b |} (now :: g).
Proof.
  intros Hp Hn Ht (Htk & Hr & Ha). split_and!; simpl; [lia..|].
  intros a. rewrite since_cons. pose proof (since_nonneg a g). case_decide as Hd.
  - right. destruct (Ha a) as [-> |Hle]; nia.
  - left. rewrite (since_future a now) by (done || lia). done.
Qed.

Lemma spend_spans now b g : Forall (fun ts => ts <= now) g ->
  now < refilled b + c -> accounts c k now b g -> spans c k g -> tokens b <> 0 ->
  spans c k (now :: g).
Proof.
  intros Hp Hn Ha Hs Ht u v. rewrite within_cons. case_decide as Hd; [|apply Hs].
  right. pose proof Ha as (Htk & Hr & Hsince).
  rewrite within_since by (eapply list.Forall_impl; [exact Hp|]; simpl; lia).
  destruct (Hsince u) as [-> |Hle]; nia.
Qed.

(** A swept bucket was full and owed nothing. *)
Lemma idle_forgotten l now b g : cooldown l = c -> burst l = k -> c < MaxInt64 -> 
  idle l now b = true -> accounts c k now b g -> forgotten c now g.
Proof.
  unfold idle. intros Hcl Hbl Hcm [H1%Z.leb_le H2%Z.leb_le]%andb_true_iff (Ht & Hr & Ha) a.
  rewrite Hcl in H2. rewrite Hbl in H1.
  assert (c <= now - refilled b) by (unfold Sub, MaxInt64 in *; lia).
  destruct (Ha a) as [Hz|Hle]; [by left|right]. nia.
Qed.

Lemma ledger_later from now now' ob g : now <= now' -> ledger c k from now ob g -> ledger c k from now' ob g.
Proof.
  intros Hle (Hp & Hs & Hb). split_and!; [|done|].
  - eapply list.Forall_impl; [exact Hp|]. simpl. lia.
  - destruct ob as [b|].
    + destruct Hb as (? & ? & ? & ?). split; [done|]. split_and!; [lia..|done].
    + intros a. destruct (Hb a); [by left|right; lia].
Qed.

(** The limiter's configuration, and the span of instants it is used in. *)
Definition configured (l : expensiveOps) : Prop := cooldown l = c /\ burst l = k.

Lemma sweep_cases l now id :
  budgets (sweepLocked l now) !! id = budgets l !! id \/
  budgets (sweepLocked l now) !! id = None /\
    exists b, budgets l !! id = Some b /\ idle l now b = true.
Proof.
  unfold sweepLocked. destruct (_ <=? _); [by left|]. simpl.
  destruct (budgets l !! id) as [b|] eqn:E.
  - destruct (idle l now b) eqn:Ei.
    + right. split; [|eauto]. apply map_lookup_filter_None_2. right.
      intros b'. rewrite E. intros [= <-]. simpl. by rewrite Ei.
    + left. by apply map_lookup_filter_Some_2.
  - left. apply map_lookup_filter_None_2. by left.
Qed.

Lemma sweep_config l now : configured l -> configured (sweepLocked l now).
Proof. unfold configured, sweepLocked. by destruct (_ <=? _). Qed.

Lemma sweep_ledger from l now id g : configured l -> c < MaxInt64 ->
  ledger c k from now (budgets l !! id) g ->
  ledger c k from now (budgets (sweepLocked l now) !! id) g.
Proof.
  intros [Hcl Hkl] Hcm Hl. destruct (sweep_cases l now id) as [->|(-> & b & E & Hi)]; [done|].
  rewrite E in Hl. destruct Hl as (Hp & Hs & _ & Ha). split_and!; [done..|].
  by apply (idle_forgotten l now b).
Qed.

(** What the session finds in its bucket. *)
Lemma budgetLocked_ledger from l now id g : configured l -> from <= now <= from + 2^62 ->
  ledger c k from now (budgets l !! id) g ->
  let b := budgetLocked l id now in
  ledger c k from now (Some b) g /\ refilled b <= now < refilled b + c.
Proof.
  intros [Hcl Hkl] Hn (Hp & Hs & Hb). unfold budgetLocked.
  destruct (budgets l !! id) as [b|]; simpl.
  - destruct Hb as [Hf Ha]. pose proof Ha as (Ht & Hr & _).
    destruct (refill_bounds l now b Hcl Hkl Ht ltac:(lia)) as [H1 H2].
    pose proof (refill_accounts l now b g Hcl Hkl ltac:(lia) Ha) as Ha'.
    split; [|lia]. split; [done|]. split; [done|]. split; [|done].
    rewrite (refill_spec l now b) by (done || lia). simpl.
    pose proof (Z.div_pos (now - refilled b) c ltac:(lia) Hc). nia.
  - rewrite Hkl. split; [|simpl; lia]. split; [done|]. split; [done|]. split; [simpl; lia|].
    by apply fresh_accounts.
Qed.

Lemma begin_config l id now : configured l -> configured (begin l id now).2.
Proof.
  intros Hcfg. pose proof (sweep_config l now Hcfg) as Hs. unfold begin.
  destruct (0 <? cooldown l).
  - destruct (tokens _ =? 0); [done|]. by destruct (busy _).
  - by destruct (busy l).
Qed.

Lemma step_config l e : configured l -> configured (step l e).
Proof. destruct e; [apply begin_config|done]. Qed.

(** [begin] for one session: what it answers, what it leaves in the session's
    bucket and in the others'. *)
Lemma begin_spec l id now : configured l ->
  let l1 := sweepLocked l now in
  let b := budgetLocked l1 id now in
  let '(r, l2) := begin l id now in
  r = (if tokens b =? 0 then (refillIn l1 b now, false)
       else if busy l then (busyRetryAfter, false) else (0, true)) /\
  budgets l2 !! id =
    Some (if r.2 then {| tokens := tokens b - 1; refilled := refilled b |} else b) /\
  (forall id', id' <> id -> budgets l2 !! id' = budgets l1 !! id') /\
  busy l2 = busy l || r.2.
Proof.
  intros [Hcl Hkl]. simpl. unfold begin. rewrite Hcl. destruct (Z.ltb_spec 0 c); [|lia].
  assert (Hb : busy (sweepLocked l now) = busy l) by (unfold sweepLocked; by destruct (_ <=? _)).
  rewrite Hb. destruct (tokens _ =? 0) eqn:Et; [|destruct (busy l) eqn:Eb]; simpl;
    rewrite ?Hb, ?lookup_insert_eq; split_and!; try done; try (by intros; rewrite lookup_insert_ne);
    by rewrite ?Eb, ?orb_false_r, ?orb_true_r.
Qed.

Lemma begin_ledger from l now id id' g : configured l -> c < MaxInt64 ->
  from <= now <= from + 2^62 ->
  ledger c k from now (budgets l !! id) g ->
  ledger c k from now (budgets (begin l id' now).2 !! id)
    (if decide (id' = id) then if (begin l id' now).1.2 then now :: g else g else g).
Proof.
  intros Hcfg Hcm Hn Hl. apply (sweep_ledger _ l) in Hl; [|done..].
  pose proof (begin_spec l id' now Hcfg) as Hspec. simpl in Hspec.
  destruct (begin l id' now) as [r l2]. destruct Hspec as (Hr & Hid & Ho & _). simpl.
  destruct (decide (id' = id)) as [->|Hne]; [|by rewrite Ho].
  rewrite Hid. destruct (budgetLocked_ledger from _ now id g (sweep_config l now Hcfg) Hn Hl)
    as [Hb [_ Hrem]]. set (b := budgetLocked _ _ _) in *.
  destruct (Z.eqb_spec (tokens b) 0) as [Hz|Hz]; [by subst r|].
  destruct (busy l); subst r; simpl; [done|].
  destruct Hb as (Hp & Hs & Hf & Ha). split; [|split; [|split; [done|]]].
  - by apply list.Forall_cons.
  - by apply (spend_spans now b g).
  - by apply spend_accounts.
Qed.

Lemma grants_ledger id from to es es' : to <= from + 2^62 -> c < MaxInt64 ->
  forall l now g, configured l -> from <= now ->
  ledger c k from now (budgets l !! id) g -> monotone now to (es ++ es') ->
  exists now', configured (run l es) /\ from <= now' /\ monotone now' to es' /\
    ledger c k from now' (budgets (run l es) !! id) (grants id l es g).
Proof.
  intros Hto Hcm. induction es as [|e es IH]; intros l now g Hcfg Hf Hl Hm; [by exists now|].
  pose proof (step_config l e Hcfg) as Hcfg'. destruct e as [id' now'|]; simpl in *.
  - destruct Hm as [Hle Hm]. pose proof (monotone_to _ _ _ Hm) as Hto'.
    apply (IH _ now'); [done|lia| |done].
    apply begin_ledger; [done|done|lia|]. by apply (ledger_later from now).
  - by apply (IH _ now).
Qed.

(** ** A session while the others act *)

Definition others (id : bytes) (es : list event) : Prop :=
  Forall (fun e => match e with Begin id' _ => id' <> id | End => True end) es.

#[global] Instance limiter_others_dec es id : Decision (others id es).
Proof. apply list.Forall_dec. intros []; apply _. Defined.

(** Only a full bucket is swept. *)
Lemma others_keep id b es : tokens b < k -> others id es -> forall l, configured l ->
  budgets l !! id = Some b -> budgets (run l es) !! id = Some b.
Proof.
  intros Hb. induction 1 as [|e es He _ IH]; intros l Hcfg Hl; [done|]. simpl.
  apply IH; [by apply step_config|]. destruct e as [id' now|]; [|done]. simpl.
  pose proof (begin_spec l id' now Hcfg) as Hs. simpl in Hs.
  destruct (begin l id' now) as [r l2]. destruct Hs as (_ & _ & Ho & _). simpl.
  rewrite Ho by done. destruct (sweep_cases l now id) as [->|(_ & b' & Eb' & Hi)]; [done|].
  rewrite Hl in Eb'. injection Eb' as <-. unfold idle in Hi. destruct Hcfg as [_ Hkl].
  rewrite Hkl in Hi. apply andb_true_iff in Hi as [Hi%Z.leb_le _]. lia.
Qed.

(** An empty bucket gives its next token after exactly the wait that is announced. *)
Lemma refusal_wait l id now b : configured l -> c < 2^62 -> budgets l !! id = Some b ->
  tokens b = 0 -> refilled b <= now <= refilled b + 2^62 ->
  (begin l id now).1.2 = negb (busy l) && (refilled b + c <=? now).
Proof.
  intros Hcfg Hcm Hb Ht Hn. pose proof (begin_spec l id now Hcfg) as Hs. simpl in Hs.
  assert (Hb1 : budgets (sweepLocked l now) !! id = Some b).
  { destruct (sweep_cases l now id) as [->|(_ & b' & Eb' & Hi)]; [done|].
    rewrite Hb in Eb'. injection Eb' as <-. unfold idle in Hi. destruct Hcfg as [_ Hkl].
    rewrite Hkl, Ht in Hi. apply andb_true_iff in Hi as [Hi%Z.leb_le _]. lia. }
  destruct (sweep_config l now Hcfg) as [Hc1 Hk1].
  unfold budgetLocked in Hs. rewrite Hb1 in Hs.
  rewrite (refill_spec _ now b) in Hs by (done || lia).
  rewrite Ht, Z.add_0_l in Hs. simpl in Hs.
  destruct (begin l id now) as [r l2]. destruct Hs as (-> & _). simpl.
  destruct (Z.leb_spec (refilled b + c) now) as [Hge|Hlt].
  - assert (1 <= (now - refilled b) / c) by (apply Z.div_le_lower_bound; lia).
    destruct (Z.eqb_spec (Z.min k ((now - refilled b) / c)) 0); [lia|]. by destruct (busy l).
  - rewrite Z.div_small by lia. replace (Z.min k 0) with 0 by lia. simpl. by rewrite andb_false_r.
Qed.

Lemma free_slot_admits l id now b : configured l -> budgets l !! id = Some b ->
  0 < tokens b <= k -> refilled b <= now < refilled b + c -> c < 2^62 -> busy l = false ->
  (begin l id now).1 = (0, true).
Proof.
  intros Hcfg Hb Ht Hn Hcm Hbusy. pose proof (begin_spec l id now Hcfg) as Hs. simpl in Hs.
  rewrite Hbusy in Hs. destruct (begin l id now) as [r l2]. destruct Hs as (-> & _). simpl.
  destruct (sweep_config l now Hcfg) as [Hc1 Hk1]. unfold budgetLocked.
  destruct (sweep_cases l now id) as [->|[-> _]].
  - rewrite Hb, (refill_spec _ now b) by (done || lia). rewrite Z.div_small by lia. simpl.
    destruct (Z.eqb_spec (Z.min k (tokens b + 0)) 0); [lia|done].
  - simpl. rewrite Hk1. destruct (Z.eqb_spec k 0); [lia|done].
Qed.

Lemma refillIn_spec l b now : cooldown l = c -> c < 2^62 -> refilled b <= now < refilled b + c ->
  refillIn l b now = refilled b + c - now.
Proof.
  intros Hcl Hcm Hn. unfold refillIn, After, Add. rewrite Hcl.
  destruct (Z.ltb_spec now (refilled b + c)); [|lia]. simpl. apply Sub_exact. unfold MaxInt64. lia.
Qed.

End bucket.

(** ** What the limiter promises *)

Lemma new_ledger c from now id : ledger c expensiveBurst from now (budgets (newExpensiveOpsWith c) !! id) [].
Proof.
  split; [done|]. split; [intros ? ?; by left|]. simpl. rewrite lookup_empty. intros ?. by left.
Qed.

(** C17. Whatever the history of requests, of any number of sessions and across
    sweeps of the map, the operations admitted for one session in any span of time are at most
    the burst and one for each cooldown the span has begun. *)
Theorem limiter_rate c from es id a b : 0 < c < 2^62 ->
  monotone from (from + 2^62) es -> a <= b ->
  within a b (grants id (newExpensiveOpsWith c) es []) <= expensiveBurst + (b - a + c - 1) / c.
Proof.
  intros Hc Hm Hab. rewrite <- (app_nil_r es) in Hm.
  destruct (grants_ledger c expensiveBurst ltac:(lia) ltac:(done) id from (from + 2^62) es []
    ltac:(lia) ltac:(unfold MaxInt64; lia) (newExpensiveOpsWith c) from [] ltac:(done) ltac:(lia)
    (new_ledger c from from id) Hm) as (now & _ & _ & _ & _ & Hs & _).
  set (g := grants _ _ _ _) in *. pose proof (within_nonneg a b g).
  assert (0 <= (b - a + c - 1) / c) by (apply Z.div_pos; lia).
  destruct (Hs a b) as [-> |Hle]; [unfold expensiveBurst; lia|].
  enough (within a b g - expensiveBurst <= (b - a + c - 1) / c) by lia.
  apply Z.div_le_lower_bound; lia.
Qed.

(** The slot is held until [end_]. *)
Lemma begin_busy l id now :
  ((begin l id now).1.2 = true -> busy l = false /\ busy (begin l id now).2 = true) /\
  (busy l = true -> (begin l id now).1.2 = false /\ busy (begin l id now).2 = true).
Proof.
  assert (Hb : busy (sweepLocked l now) = busy l) by (unfold sweepLocked; by destruct (_ <=? _)).
  unfold begin. destruct (0 <? cooldown l); [destruct (tokens _ =? 0)|];
    rewrite ?Hb; destruct (busy l) eqn:E; simpl; rewrite ?Hb; done.
Qed.

Lemma run_busy es : Forall (fun e => e <> End) es -> forall l, busy l = true -> busy (run l es) = true.
Proof.
  induction 1 as [|e es He _ IH]; intros l Hl; [done|]. simpl. apply IH.
  destruct e as [id now|]; [|done]. simpl. by apply begin_busy.
Qed.

(** C18. The other half, and the wait.  An admitted operation holds the only slot:
    until [end_], no session is admitted.  A refused session is told why, and how long: it
    waits for the slot, without losing a token, and is admitted as soon as the slot is
    released; or its bucket is empty, and then the wait is at most a cooldown and exact:
    whatever the others do, it is refused before it is over and, unless the slot is
    taken, admitted from then on. *)
Theorem limiter_refusal c from es id now : 0 < c < 2^62 ->
  monotone from (from + 2^62) (es ++ [Begin id now]) ->
  let l := run (newExpensiveOpsWith c) es in
  let d := (begin l id now).1.1 in
  let ok := (begin l id now).1.2 in
  let l' := (begin l id now).2 in
  (ok = true -> forall es2 id2 now2, Forall (fun e => e <> End) es2 ->
     (begin (run l' es2) id2 now2).1.2 = false) /\
  (ok = false ->
     d = busyRetryAfter /\ busy l = true /\ (begin (end_ l') id now).1 = (0, true) \/
     0 < d <= c /\ forall es2 now2, others id es2 -> now <= now2 <= from + 2^62 ->
       (begin (run l' es2) id now2).1.2 = negb (busy (run l' es2)) && (now + d <=? now2)).
Proof.
  intros Hc Hm l.
  assert (Hc0 : 0 < c) by lia. assert (Hk : 0 < expensiveBurst < 2^62) by done.
  assert (Hcm : c < MaxInt64) by (unfold MaxInt64; lia).
  destruct (grants_ledger c expensiveBurst Hc0 Hk id from (from + 2^62) es [Begin id now]
    ltac:(lia) Hcm (newExpensiveOpsWith c) from [] ltac:(done) ltac:(lia)
    (new_ledger c from from id) Hm) as (now0 & Hcfg & Hf & [Hle Hto] & Hl).
  fold l in Hcfg, Hl. set (g := grants _ _ _ _) in *. simpl in Hto.
  apply (ledger_later _ _ _ _ now) in Hl; [|done].
  apply (sweep_ledger _ _ Hc0 Hk _ l) in Hl; [|done..].
  pose proof (sweep_config _ _ l now Hcfg) as Hcfg1.
  destruct (budgetLocked_ledger _ _ Hc0 Hk from _ now id g Hcfg1 ltac:(lia) Hl)
    as [(_ & _ & Hfb & Ht & _) Hrem].
  pose proof (begin_spec _ _ Hc0 l id now Hcfg) as Hs. simpl in Hs.
  pose proof (begin_config _ _ l id now Hcfg) as Hcfg'.
  pose proof (begin_busy l id now) as [Hbusy _].
  set (b := budgetLocked _ _ _) in *.
  rewrite (refillIn_spec c (sweepLocked l now) b now (proj1 Hcfg1)) in Hs by lia.
  destruct (begin l id now) as [[d ok] l']. simpl in *. destruct Hs as (Hr & Hid & _ & Hb2).
  split.
  { intros ->. intros es2 id2 now2 Hes. apply begin_busy. apply run_busy; [done|]. by apply Hbusy. }
  intros ->. destruct (Z.eqb_spec (tokens b) 0) as [Hz|Hz]; [right|left];
    [|destruct (busy l) eqn:Eb]; simplify_eq Hr.
  - intros ->. split; [lia|]. intros es2 now2 Ho Hn2.
    pose proof (others_keep c expensiveBurst Hc0 id b es2 ltac:(lia) Ho l' Hcfg' Hid) as Hb'.
    rewrite (refusal_wait c expensiveBurst Hc0 Hk _ id now2 b); [f_equal; f_equal; lia|..|lia|done|done|lia].
    clear -Hcfg' Hc0. revert l' Hcfg'. induction es2 as [|e es2 IH]; intros l' H; [done|].
    apply IH. by apply step_config.
  - intros ->. split_and!; [done|done|].
    apply (free_slot_admits c expensiveBurst Hc0 Hk (end_ l') id now b); [exact Hcfg'|exact Hid|lia|lia|lia|done].
Qed.

(** The sweep is meant to keep the map from growing by one bucket per session.
    A session that was admitted once, and is never heard of again, keeps its
    bucket whatever the others do and however long it is gone: a bucket is refilled only
    by its own session's requests, and only a full one is dropped. *)
Theorem limiter_never_forgets c from es id now es2 : 0 < c < 2^62 ->
  monotone from (from + 2^62) (es ++ [Begin id now]) ->
  let l := run (newExpensiveOpsWith c) es in
  (begin l id now).1.2 = true -> others id es2 ->
  is_Some (budgets (run (begin l id now).2 es2) !! id).
Proof.
  intros Hc Hm l Hok Ho.
  assert (Hc0 : 0 < c) by lia. assert (Hk : 0 < expensiveBurst < 2^62) by done.
  assert (Hcm : c < MaxInt64) by (unfold MaxInt64; lia).
  destruct (grants_ledger c expensiveBurst Hc0 Hk id from (from + 2^62) es [Begin id now]
    ltac:(lia) Hcm (newExpensiveOpsWith c) from [] ltac:(done) ltac:(lia)
    (new_ledger c from from id) Hm) as (now0 & Hcfg & Hf & [Hle Hto] & Hl).
  fold l in Hcfg, Hl. simpl in Hto.
  apply (ledger_later _ _ _ _ now) in Hl; [|done].
  pose proof (begin_ledger _ _ Hc0 Hk from l now id id _ Hcfg Hcm ltac:(lia) Hl) as Hl2.
  pose proof (begin_spec _ _ Hc0 l id now Hcfg) as Hs. simpl in Hs.
  pose proof (begin_config _ _ l id now Hcfg) as Hcfg'.
  apply (sweep_ledger _ _ Hc0 Hk _ l) in Hl; [|done..].
  destruct (budgetLocked_ledger _ _ Hc0 Hk from _ now id _ (sweep_config _ _ l now Hcfg) ltac:(lia) Hl)
    as [(_ & _ & _ & Ht & _) _].
  destruct (begin l id now) as [r l']. simpl in *. destruct Hs as (_ & Hid & _). rewrite Hok in Hid.
  eexists. eapply (others_keep c expensiveBurst Hc0 id); [|exact Ho|exact Hcfg'|exact Hid]. simpl. lia.
Qed.

Example limiter_rate_witness :
  let es := [Begin (str "s") 0; End; Begin (str "t") 0; End; Begin (str "s") 1; End; Begin (str "s") 2; End;
             Begin (str "s") 3; Begin (str "s") (6 * Second)] in
  grants (str "s") (newExpensiveOpsWith (5 * Second)) es [] = [6 * Second; 2; 1; 0] /\
  within 0 (6 * Second) (grants (str "s") (newExpensiveOpsWith (5 * Second)) es [])
    <= expensiveBurst + (6 * Second - 0 + 5 * Second - 1) / (5 * Second).
Proof.
  split; [by vm_compute|].
  apply (limiter_rate (5 * Second) 0); [by vm_compute|apply (bool_decide_unpack _); by vm_compute|by vm_compute].
Defined.

Example limiter_refusal_witness :
  let l := run (newExpensiveOpsWith (5 * Second))
    [Begin (str "s") 0; End; Begin (str "s") 1; End; Begin (str "s") 2; End] in
  let l' := (begin l (str "s") Second).2 in
  (begin l (str "s") Second).1 = (4 * Second, false) /\
  (4 * Second = busyRetryAfter /\ busy l = true /\ (begin (end_ l') (str "s") Second).1 = (0, true) \/
   0 < 4 * Second <= 5 * Second /\ forall es2 now2, others (str "s") es2 -> Second <= now2 <= 0 + 2^62 ->
     (begin (run l' es2) (str "s") now2).1.2 =
       negb (busy (run l' es2)) && (Second + 4 * Second <=? now2)).
Proof.
  split; [by vm_compute|].
  apply (limiter_refusal (5 * Second) 0
    [Begin (str "s") 0; End; Begin (str "s") 1; End; Begin (str "s") 2; End] (str "s") Second);
    [by vm_compute|apply (bool_decide_unpack _); by vm_compute|by vm_compute].
Defined.

End Limiter.
