(* ===== verification/WebSessions.v ===== *)
(** The session store of the web view (internal/web/sessions.go): lifetimes,
    verification results and the trail of inspected objects.

    As in WebThrottle, an operation is one critical section of the store's mutex and takes the
    instants its [time.Now()] calls read; [create] also takes what its two
    reads of [crypto/rand] gave. *)

From S2P Require Import Prelude GoTime Digest.

Module Sessions.

Definition idleTimeout : Z := 30 * Minute.
Definition maxLifetime : Z := 8 * Hour.
Definition maxTrail : Z := 100.
Definition objectVerificationLimit : Z := 50000.

(** The report of a check (verify.go). *)
Record actionOutcome := {
  OK : bool;
  Headline : bytes;
  Summary : bytes;
  Expected : bytes;
  Actual : bytes;
  Checked_ : bytes;
  Integrity : bytes;
  IntegrityLabel : bytes }.

Definition noOutcome : actionOutcome :=
  {| OK := false; Headline := []; Summary := []; Expected := []; Actual := []; Checked_ := [];
     Integrity := []; IntegrityLabel := [] |}.

Record verification := {
  Result : bytes;
  Checked : Z;
  Report : actionOutcome }.

Record Session := {
  ID : bytes;
  Role : bytes;
  Created : Z;
  LastSeen : Z;
  CSRF : bytes;
  Verifications : gmap bytes verification;
  Trail : list bytes;
  TrailPos : Z }.

Record sessions := {
  byID : gmap bytes Session;
  verificationLimit : Z }.

Definition newSessionsWith (verificationLimit : Z) : sessions :=
  {| byID := ∅; verificationLimit := verificationLimit |}.
Definition newSessions : sessions := newSessionsWith objectVerificationLimit.

(** The store with another map, and a session with one field assigned. *)
Definition setByID (s : sessions) (m : gmap bytes Session) : sessions :=
  {| byID := m; verificationLimit := verificationLimit s |}.
Definition update (s : sessions) (id : bytes) (sess : Session) : sessions :=
  setByID s (<[id := sess]> (byID s)).
Definition withTrail (sess : Session) (trail : list bytes) (pos : Z) : Session :=
  {| ID := ID sess; Role := Role sess; Created := Created sess; LastSeen := LastSeen sess;
     CSRF := CSRF sess; Verifications := Verifications sess; Trail := trail; TrailPos := pos |}.
Definition withVerifications (sess : Session) (m : gmap bytes verification) : Session :=
  {| ID := ID sess; Role := Role sess; Created := Created sess; LastSeen := LastSeen sess;
     CSRF := CSRF sess; Verifications := m; Trail := Trail sess; TrailPos := TrailPos sess |}.
Definition withLastSeen (sess : Session) (now : Z) : Session :=
  {| ID := ID sess; Role := Role sess; Created := Created sess; LastSeen := now;
     CSRF := CSRF sess; Verifications := Verifications sess; Trail := Trail sess;
     TrailPos := TrailPos sess |}.

(** [drawn] is what [rand.Read] filled the buffer with. *)
Definition randomHex (drawn : res bytes) : res bytes :=
  b ← wrapErr (Errorf "web: crypto/rand: %w") drawn; Ok (hexEncode b).

Definition expiredLocked (sess : Session) (now : Z) : bool :=
  (idleTimeout <? Sub now (LastSeen sess)) || (maxLifetime <? Sub now (Created sess)).

Definition sweepLocked (s : sessions) (now : Z) : sessions :=
  setByID s (filter (fun e => expiredLocked e.2 now = false) (byID s)).

(** The three instants are those of the session's creation, of its first sight, and of the sweep. *)
Definition create (s : sessions) (role : bytes) (drawnID drawnCSRF : res bytes)
    (created seen now : Z) : res Session * sessions :=
  match randomHex drawnID with
  | Err e => (Err e, s)
  | Ok id =>
    match randomHex drawnCSRF with
    | Err e => (Err e, s)
    | Ok csrf =>
      let sess := {| ID := id; Role := role; Created := created; LastSeen := seen; CSRF := csrf;
                     Verifications := ∅; Trail := []; TrailPos := -1 |} in
      (Ok sess, update (sweepLocked s now) (ID sess) sess)
    end
  end.

Definition get (s : sessions) (id : bytes) (now : Z) : option Session * sessions :=
  match byID s !! id with
  | None => (None, s)
  | Some sess =>
    if expiredLocked sess now then (None, setByID s (delete id (byID s)))
    else (Some (withLastSeen sess now), update s id (withLastSeen sess now))
  end.

(** ** Verification results *)

Definition verificationReport (s : sessions) (id digest : bytes) : bytes * Z * actionOutcome :=
  match byID s !! id with
  | None => (str "not-verified", zeroTime, noOutcome)
  | Some sess =>
    match Verifications sess !! digest with
    | Some record => (Result record, Checked record, Report record)
    | None => (str "not-verified", zeroTime, noOutcome)
    end
  end.

Definition verificationRecord (s : sessions) (id digest : bytes) : bytes * Z :=
  let '(record, checked, _) := verificationReport s id digest in (record, checked).

Definition verification_ (s : sessions) (id digest : bytes) : bytes :=
  let '(record, _) := verificationRecord s id digest in record.

Definition hasVerifications (s : sessions) (id : bytes) : bool :=
  match byID s !! id with
  | None => false
  | Some sess => negb (bool_decide (size (Verifications sess) = 0%nat))
  end.

Definition setVerification (s : sessions) (id digest result : bytes) (report : actionOutcome)
    (now : Z) : sessions :=
  match byID s !! id with
  | None => s
  | Some sess =>
    let recorded := bool_decide (is_Some (Verifications sess !! digest)) in
    let m :=
      if negb recorded && (0 <? verificationLimit s) &&
         (verificationLimit s <=? Z.of_nat (size (Verifications sess)))
      then ∅ else Verifications sess in
    update s id (withVerifications sess
      (<[digest := {| Result := result; Checked := now; Report := report |}]> m))
  end.

(** ** The trail

    [None] is the panic of a slice expression or an index out of range. *)

Definition index {A} (l : list A) (i : Z) : option A := if i <? 0 then None else l !! Z.to_nat i.
Definition sliceTo {A} (l : list A) (i : Z) : option (list A) :=
  if (i <? 0) || (blen l <? i) then None else Some (take (Z.to_nat i) l).
Definition sliceFrom {A} (l : list A) (i : Z) : option (list A) :=
  if (i <? 0) || (blen l <? i) then None else Some (drop (Z.to_nat i) l).

(** The newest trail of a session that is found. *)
Definition visitTrail (trail : list bytes) (pos : Z) (digest : bytes) : option (list bytes * Z) :=
  let stay :=
    if (0 <=? pos) && (pos <? blen trail) then bool_decide (index trail pos = Some digest) else false in
  if stay then Some (trail, pos) else
  kept ← sliceTo trail (pos + 1);
  let trail := kept ++ [digest] in
  trail ← (if maxTrail <? blen trail then sliceFrom trail (blen trail - maxTrail) else Some trail);
  Some (trail, blen trail - 1).

Definition visit (s : sessions) (id digest : bytes) : option sessions :=
  match byID s !! id with
  | None => Some s
  | Some sess =>
    if bool_decide (digest = []) then Some s else
    '(trail, pos) ← visitTrail (Trail sess) (TrailPos sess) digest;
    Some (update s id (withTrail sess trail pos))
  end.

Definition restart (s : sessions) (id digest : bytes) : sessions :=
  match byID s !! id with
  | None => s
  | Some sess =>
    if bool_decide (digest = []) then s else update s id (withTrail sess [digest] 0)
  end.

(** [slices.Index]: the first position, or -1. *)
Definition slicesIndex (l : list bytes) (x : bytes) : Z :=
  match list_find (eq x) l with Some (i, _) => Z.of_nat i | None => -1 end.

Definition seek (s : sessions) (id digest : bytes) : sessions :=
  match byID s !! id with
  | None => s
  | Some sess =>
    let i := slicesIndex (Trail sess) digest in
    if 0 <=? i then update s id (withTrail sess (Trail sess) i) else s
  end.

Definition neighbors (trail : list bytes) (pos : Z) : option (bytes * bytes) :=
  prev ← (if 0 <? pos then index trail (pos - 1) else Some []);
  next ← (if (0 <=? pos) && (pos + 1 <? blen trail) then index trail (pos + 1) else Some []);
  Some (prev, next).

Definition trailNeighbors (s : sessions) (id : bytes) : option (bytes * bytes) :=
  match byID s !! id with
  | None => Some ([], [])
  | Some sess => neighbors (Trail sess) (TrailPos sess)
  end.

(** ** The trail as a browser history *)

(** What the trail is meant to be: the current object, what is behind it, nearest
    first, and what stepping back left ahead. *)
Record history := { back : list bytes; cur : option bytes; ahead : list bytes }.

Definition noHistory : history := {| back := []; cur := None; ahead := [] |}.

Inductive move :=
  | Visit (digest : bytes)
  | Restart (digest : bytes)
  | Prev
  | Next.

Definition hstep (h : history) (m : move) : history :=
  match m, cur h with
  | Visit d, None => {| back := []; cur := Some d; ahead := [] |}
  | Visit d, Some c =>
    if decide (c = d) then h
    else {| back := take (Z.to_nat maxTrail - 1) (c :: back h); cur := Some d; ahead := [] |}
  | Restart d, _ => {| back := []; cur := Some d; ahead := [] |}
  | Prev, Some c =>
    match back h with
    | b :: bs => {| back := bs; cur := Some b; ahead := c :: ahead h |}
    | [] => h
    end
  | Next, Some c =>
    match ahead h with
    | a :: xs => {| back := c :: back h; cur := Some a; ahead := xs |}
    | [] => h
    end
  | _, None => h
  end.

(** The controls of the inspector: each asks for the neighbour that is shown, and
    the request seeks it. *)
Definition click (s : sessions) (id : bytes) (m : move) : option sessions :=
  match m with
  | Visit d => visit s id d
  | Restart d => Some (restart s id d)
  | Prev => '(p, _) ← trailNeighbors s id; Some (if bool_decide (p = []) then s else seek s id p)
  | Next => '(_, n) ← trailNeighbors s id; Some (if bool_decide (n = []) then s else seek s id n)
  end.

Fixpoint clicks (s : sessions) (id : bytes) (ms : list move) : option sessions :=
  match ms with
  | [] => Some s
  | m :: ms => s ← click s id m; clicks s id ms
  end.

Definition entries (h : history) : list bytes :=
  match cur h with None => [] | Some c => reverse (back h) ++ c :: ahead h end.
Definition position (h : history) : Z :=
  match cur h with None => -1 | Some _ => blen (back h) end.

Definition repr (h : history) (trail : list bytes) (pos : Z) : Prop :=
  trail = entries h /\ pos = position h /\ (cur h = None -> back h = [] /\ ahead h = []) /\
  blen (entries h) <= maxTrail /\ Forall (fun d => d <> []) (entries h).

Definition named (m : move) : Prop :=
  match m with Visit d | Restart d => d <> [] | _ => True end.

Lemma slicesIndex_first l x y : NoDup (l ++ x :: y) -> slicesIndex (l ++ x :: y) x = blen l.
Proof.
  intros Hnd. unfold slicesIndex.
  rewrite (proj2 (list_find_Some (eq x) (l ++ x :: y) (length l) x)); [done|].
  split_and!; [by rewrite list_lookup_middle|done|].
  intros j z Hj Hlt ->. apply list.NoDup_app in Hnd as (_ & Hd & _).
  rewrite lookup_app_l in Hj by done. apply list_elem_of_lookup_2 in Hj. apply (Hd z Hj). left.
Qed.

Lemma reverse_take {A} k (l : list A) : reverse (take k l) = drop (length l - k) (reverse l).
Proof.
  rewrite <- (take_drop k l) at 3. rewrite reverse_app, drop_app_length'; [done|].
  by rewrite length_reverse, length_drop.
Qed.

Lemma entries_length h c : cur h = Some c -> blen (entries h) = blen (back h) + 1 + blen (ahead h).
Proof. unfold entries. intros ->. rewrite length_app, length_reverse. simpl. lia. Qed.

Lemma repr_at h trail pos c : repr h trail pos -> cur h = Some c ->
  trail = reverse (back h) ++ c :: ahead h /\ pos = blen (back h) /\ index trail pos = Some c /\
  0 <= pos < blen trail.
Proof.
  intros (Ht & Hp & _ & Hlen & _) Hc. unfold position, entries in *. rewrite Hc in *.
  split_and!; [done|done| |lia|].
  - unfold index. subst. destruct (Z.ltb_spec (blen (back h)) 0); [lia|].
    rewrite Nat2Z.id. apply list_lookup_middle. by rewrite length_reverse.
  - subst. rewrite length_app, length_reverse. simpl. lia.
Qed.

Lemma repr_single d : d <> [] -> repr {| back := []; cur := Some d; ahead := [] |} [d] 0.
Proof.
  intros Hd. unfold repr, entries, maxTrail. simpl. split_and!; [done..|lia|].
  by apply list.Forall_singleton.
Qed.

Lemma visitTrail_repr h trail pos d : repr h trail pos -> d <> [] ->
  exists trail' pos', visitTrail trail pos d = Some (trail', pos') /\ repr (hstep h (Visit d)) trail' pos'.
Proof.
  intros Hr Hd. unfold hstep. destruct (cur h) as [c|] eqn:Hc.
  - destruct (repr_at h trail pos c Hr Hc) as (Ht & Hp & Hi & Hpos). unfold visitTrail.
    destruct (Z.leb_spec 0 pos); [|lia]. destruct (Z.ltb_spec pos (blen trail)); [|lia]. simpl.
    rewrite Hi. destruct (decide (c = d)) as [->|Hne]; [rewrite bool_decide_true by done; eauto|].
    rewrite bool_decide_false by congruence.
    destruct Hr as (_ & _ & _ & Hlen & Hall). rewrite (entries_length h c Hc) in Hlen.
    unfold entries in Hall. rewrite Hc in Hall.
    apply list.Forall_app in Hall as [Hb [Hcn Ha]%list.Forall_cons].
    unfold sliceTo. destruct (Z.ltb_spec (pos + 1) 0); [lia|].
    destruct (Z.ltb_spec (blen trail) (pos + 1)); [lia|]. simpl.
    assert (Hk : take (Z.to_nat (pos + 1)) trail = reverse (c :: back h)).
    { rewrite Ht, reverse_cons, Hp. rewrite cons_middle, app_assoc.
      apply take_app_length'. rewrite length_app, length_reverse. simpl. lia. }
    rewrite Hk. set (n := (Z.to_nat maxTrail - 1)%nat).
    assert (Hn : (if maxTrail <? blen (reverse (c :: back h) ++ [d])
        then sliceFrom (reverse (c :: back h) ++ [d]) (blen (reverse (c :: back h) ++ [d]) - maxTrail)
        else Some (reverse (c :: back h) ++ [d])) = Some (reverse (take n (c :: back h)) ++ [d])).
    { rewrite reverse_take, length_app, length_reverse. unfold sliceFrom, n, maxTrail in *.
      rewrite length_app, length_reverse.
      destruct (Z.ltb_spec 100 (Z.of_nat (length (c :: back h) + length [d]))) as [Hbig|Hsmall].
      - destruct (Z.ltb_spec (Z.of_nat (length (c :: back h) + length [d]) - 100) 0); [lia|].
        destruct (Z.ltb_spec (Z.of_nat (length (c :: back h) + length [d]))
          (Z.of_nat (length (c :: back h) + length [d]) - 100)); [lia|]. simpl orb. cbv iota.
        rewrite drop_app_le by (rewrite length_reverse; simpl in *; lia).
        do 3 f_equal. simpl in *. lia.
      - do 2 f_equal. replace (_ - _)%nat with O by (simpl in *; lia). done. }
    simpl mbind in *. rewrite Hn. clear Hn. simpl.
    change (c :: take 98 (back h)) with (take n (c :: back h)).
    eexists _, _. split; [done|]. unfold repr, entries, position. cbn [cur back ahead].
    rewrite !length_app, length_reverse, length_take. change (length [d]) with 1%nat.
    assert (Hn : n = 99%nat) by done. clearbody n. unfold maxTrail.
    split_and!; [done|lia|done|lia|].
    apply list.Forall_app. split; [|by apply list.Forall_singleton].
    apply Forall_reverse, Forall_take, list.Forall_cons. split; [done|].
    by rewrite Forall_reverse in Hb.
  - destruct Hr as (-> & -> & _). unfold visitTrail, entries, position. rewrite Hc. simpl.
    eexists _, _. split; [done|]. by apply repr_single.
Qed.

(** Any position of the trail is the position of some history. *)
Lemma repr_moved h trail pos i : repr h trail pos -> 0 <= i < blen trail ->
  exists h', repr h' trail i.
Proof.
  intros Hr Hi. destruct (lookup_lt_is_Some_2 trail (Z.to_nat i) ltac:(lia)) as [x Hx].
  exists {| back := reverse (take (Z.to_nat i) trail); cur := Some x; ahead := drop (S (Z.to_nat i)) trail |}.
  destruct Hr as (-> & _ & _ & Hlen & Hall). set (l := entries h) in *.
  unfold repr, position. cbn [back cur ahead].
  assert (He : entries {| back := reverse (take (Z.to_nat i) l); cur := Some x; ahead := drop (S (Z.to_nat i)) l |} = l).
  { unfold entries. cbn [back cur ahead]. rewrite reverse_involutive. by apply take_drop_middle. }
  rewrite He, length_reverse, length_take. split_and!; try done; lia.
Qed.

Lemma slicesIndex_range l x : 0 <= slicesIndex l x -> slicesIndex l x < blen l.
Proof.
  unfold slicesIndex. destruct (list_find (eq x) l) as [[i y]|] eqn:E; [|lia].
  apply list_find_Some in E as (Hi & _). apply lookup_lt_Some in Hi. lia.
Qed.

(** A control's request lands where the history goes, if the object asked for
    is nowhere else in the trail. *)
Lemma seek_repr h trail pos l x r : repr h trail pos -> entries h = l ++ x :: r -> NoDup (entries h) ->
  slicesIndex trail x = blen l.
Proof. intros (-> & _) E Hnd. rewrite E in *. by apply slicesIndex_first. Qed.

Lemma neighbors_repr h trail pos : repr h trail pos ->
  neighbors trail pos = Some (match cur h with Some _ => default [] (head (back h)) | None => [] end,
                              match cur h with Some _ => default [] (head (ahead h)) | None => [] end).
Proof.
  intros Hr. unfold neighbors. destruct (cur h) as [c|] eqn:Hc.
  - destruct (repr_at h trail pos c Hr Hc) as (-> & -> & _). rewrite length_app, length_reverse. simpl.
    set (n := length (back h)). unfold index.
    assert (Hprev : (if 0 <? Z.of_nat n then
        if Z.of_nat n - 1 <? 0 then None else
          (reverse (back h) ++ c :: ahead h) !! Z.to_nat (Z.of_nat n - 1)
      else Some []) = Some (default [] (head (back h)))).
    { unfold n. destruct (back h) as [|b bs]; [done|]. simpl length.
      destruct (Z.ltb_spec 0 (Z.of_nat (S (length bs)))); [|lia].
      destruct (Z.ltb_spec (Z.of_nat (S (length bs)) - 1) 0); [lia|].
      rewrite reverse_cons, <- app_assoc. apply list_lookup_middle. rewrite length_reverse. lia. }
    assert (Hnext : (if (0 <=? Z.of_nat n) && (Z.of_nat n + 1 <? Z.of_nat (n + S (length (ahead h)))) then
        if Z.of_nat n + 1 <? 0 then None else
          (reverse (back h) ++ c :: ahead h) !! Z.to_nat (Z.of_nat n + 1)
      else Some []) = Some (default [] (head (ahead h)))).
    { destruct (Z.leb_spec 0 (Z.of_nat n)); [|lia]. destruct (ahead h) as [|a xs]; simpl length.
      - destruct (Z.ltb_spec (Z.of_nat n + 1) (Z.of_nat (n + 1))); [lia|done].
      - destruct (Z.ltb_spec (Z.of_nat n + 1) (Z.of_nat (n + S (S (length xs))))); [|lia].
        destruct (Z.ltb_spec (Z.of_nat n + 1) 0); [lia|]. rewrite cons_middle, app_assoc.
        apply list_lookup_middle. rewrite length_app, length_reverse. simpl. unfold n. lia. }
    rewrite Hprev. simpl. rewrite Hnext. done.
  - destruct Hr as (-> & -> & _). unfold entries, position. by rewrite Hc.
Qed.

(** The session [id] of the store is at [h] in its history. *)
Definition tracks (s : sessions) (id : bytes) (h : history) : Prop :=
  exists sess, byID s !! id = Some sess /\ repr h (Trail sess) (TrailPos sess).

Lemma update_tracks s id h sess trail pos : repr h trail pos ->
  tracks (update s id (withTrail sess trail pos)) id h.
Proof. intros Hr. eexists. split; [by apply lookup_insert_eq|done]. Qed.

Lemma seek_tracks s id h d : tracks s id h -> exists h', tracks (seek s id d) id h'.
Proof.
  intros (sess & Hs & Hr). unfold seek. rewrite Hs.
  destruct (Z.leb_spec 0 (slicesIndex (Trail sess) d)) as [Hi|Hi]; [|exists h, sess; done].
  destruct (repr_moved h _ _ _ Hr (conj Hi (slicesIndex_range _ _ Hi))) as [h' Hr'].
  exists h'. by apply update_tracks.
Qed.

Lemma trailNeighbors_tracks s id h : tracks s id h ->
  trailNeighbors s id = Some (match cur h with Some _ => default [] (head (back h)) | None => [] end,
                              match cur h with Some _ => default [] (head (ahead h)) | None => [] end).
Proof. intros (sess & Hs & Hr). unfold trailNeighbors. rewrite Hs. by eapply neighbors_repr. Qed.

(** Seeking the only occurrence of an object turns the history around it. *)
Lemma seek_turn s id h h' x : tracks s id h -> entries h' = entries h -> cur h' = Some x ->
  NoDup (entries h) -> tracks (seek s id x) id h'.
Proof.
  intros (sess & Hs & Hr) He Hx Hnd. unfold seek. rewrite Hs.
  pose proof Hr as (Ht & _ & _ & Hlen & Hall).
  assert (Hi : slicesIndex (Trail sess) x = blen (back h')).
  { rewrite Ht, <- He in *. unfold entries in *. rewrite Hx in *.
    rewrite slicesIndex_first by done. by rewrite length_reverse. }
  rewrite Hi. destruct (Z.leb_spec 0 (blen (back h'))); [|lia]. apply update_tracks.
  unfold repr, position. rewrite Hx, He. by rewrite Ht.
Qed.

Lemma click_any s id h m : tracks s id h -> named m ->
  exists s' h', click s id m = Some s' /\ tracks s' id h'.
Proof.
  intros Ht Hm. pose proof Ht as (sess & Hs & Hr). destruct m as [d|d| |]; simpl in *.
  - unfold visit. rewrite Hs, bool_decide_false by done.
    destruct (visitTrail_repr h _ _ d Hr Hm) as (t & p & -> & Hr'). simpl.
    eexists _, _. split; [done|]. by apply update_tracks.
  - unfold restart. rewrite Hs, bool_decide_false by done.
    eexists _, _. split; [done|]. by apply update_tracks, repr_single.
  - rewrite (trailNeighbors_tracks s id h Ht). simpl. case_bool_decide; [eauto|].
    edestruct (seek_tracks s id h) as [h' Ht']; [exact Ht|eauto].
  - rewrite (trailNeighbors_tracks s id h Ht). simpl. case_bool_decide; [eauto|].
    edestruct (seek_tracks s id h) as [h' Ht']; [exact Ht|eauto].
Qed.

Lemma click_tracks s id h m : tracks s id h -> named m ->
  match m with Prev | Next => NoDup (entries h) | _ => True end ->
  exists s', click s id m = Some s' /\ tracks s' id (hstep h m).
Proof.
  intros Ht Hm Hnd. pose proof Ht as (sess & Hs & Hr). destruct m as [d|d| |]; simpl in *.
  - unfold visit. rewrite Hs, bool_decide_false by done.
    destruct (visitTrail_repr h _ _ d Hr Hm) as (t & p & -> & Hr'). simpl.
    eexists. split; [done|]. by apply update_tracks.
  - unfold restart. rewrite Hs, bool_decide_false by done.
    eexists. split; [done|]. by apply update_tracks, repr_single.
  - rewrite (trailNeighbors_tracks s id h Ht). simpl. pose proof Hr as (_ & _ & _ & _ & Hall).
    unfold entries in Hall, Hnd. destruct (cur h) as [c|] eqn:Hc; [|rewrite bool_decide_true; eauto].
    destruct (back h) as [|b bs] eqn:Hb; simpl; [eauto|].
    assert (He : entries {| back := bs; cur := Some b; ahead := c :: ahead h |} = entries h).
    { unfold entries. rewrite Hc, Hb, reverse_cons, <- app_assoc. done. }
    rewrite bool_decide_false.
    + eexists. split; [done|]. apply (seek_turn s id h _ b Ht He); [done|].
      unfold entries. by rewrite Hc, Hb.
    + rewrite reverse_cons, <- app_assoc in Hall.
      by apply list.Forall_app in Hall as [_ [Hall _]%list.Forall_cons].
  - rewrite (trailNeighbors_tracks s id h Ht). simpl. pose proof Hr as (_ & _ & _ & _ & Hall).
    unfold entries in Hall, Hnd. destruct (cur h) as [c|] eqn:Hc; [|rewrite bool_decide_true; eauto].
    destruct (ahead h) as [|a xs] eqn:Ha; simpl; [eauto|].
    assert (He : entries {| back := c :: back h; cur := Some a; ahead := xs |} = entries h).
    { unfold entries. cbn [back cur ahead]. rewrite Hc, Ha, reverse_cons, <- app_assoc. done. }
    rewrite bool_decide_false.
    + eexists. split; [done|]. apply (seek_turn s id h _ a Ht He); [done|].
      unfold entries. by rewrite Hc, Ha.
    + by apply list.Forall_app in Hall as [_ [_ [Hall _]%list.Forall_cons]%list.Forall_cons].
Qed.

(** No object occurs twice in the trail when a control is used. *)
Fixpoint distinct (h : history) (ms : list move) : Prop :=
  match ms with
  | [] => True
  | m :: ms => match m with Prev | Next => NoDup (entries h) | _ => True end /\ distinct (hstep h m) ms
  end.

#[global] Instance distinct_dec h ms : Decision (distinct h ms).
Proof. revert h. induction ms as [|[] ms IH]; simpl; intros h; apply _. Defined.

(** The trail of a session, from its creation on.  Whatever is visited and
    whichever controls are used, no slice or index of it is out of range, it holds at most a
    hundred objects and its cursor is on one of them; and as long as the controls are used on a
    trail without repetitions, it is the browser history its comment promises: visiting after
    stepping back drops what was ahead, and Prev and Next undo each other. *)
Theorem trail_is_history s id sess ms : byID s !! id = Some sess ->
  Trail sess = [] -> TrailPos sess = -1 -> Forall named ms ->
  (exists s' sess', clicks s id ms = Some s' /\ byID s' !! id = Some sess' /\
     blen (Trail sess') <= maxTrail /\
     (TrailPos sess' = -1 /\ Trail sess' = [] \/ 0 <= TrailPos sess' < blen (Trail sess'))) /\
  (distinct noHistory ms ->
   exists s' sess', clicks s id ms = Some s' /\ byID s' !! id = Some sess' /\
     Trail sess' = entries (foldl hstep noHistory ms) /\
     TrailPos sess' = position (foldl hstep noHistory ms)).
Proof.
  intros Hs Ht Hp Hms.
  assert (H0 : tracks s id noHistory) by (exists sess; rewrite Ht, Hp; done).
  clear sess Hs Ht Hp. revert s H0. split.
  - revert s H0. generalize noHistory. induction Hms as [|m ms Hm _ IH]; intros h s H0; simpl.
    + pose proof H0 as (sess & Hs & Hr). exists s, sess. pose proof Hr as (Ht & Hp & Hn & Hlen & _).
      split_and!; [done|done|by rewrite Ht|]. destruct (cur h) as [c|] eqn:Hc.
      * right. by apply (repr_at h _ _ c).
      * left. rewrite Hp, Ht. unfold position, entries. by rewrite Hc.
    + destruct (click_any s id h m H0 Hm) as (s' & h' & -> & H1). simpl. by apply (IH h').
  - revert s H0. generalize noHistory. induction Hms as [|m ms Hm _ IH]; intros h s H0; simpl.
    + pose proof H0 as (sess & Hs & Ht & Hp & _). intros _. by exists s, sess.
    + intros [Hd Hds]. destruct (click_tracks s id h m H0 Hm Hd) as (s' & -> & H1). simpl. by apply IH.
Qed.

(** ** Lifetimes *)

(** What a login grants, for as long as it lasts. *)
Record grant := { g_role : bytes; g_csrf : bytes; g_created : Z; g_seen : Z }.

(** The grants by session id; nothing is ever removed from it. *)
Abbreviation grants := (gmap bytes grant).

Definition lapsed (g : grant) (now : Z) : bool :=
  (idleTimeout <? Sub now (g_seen g)) || (maxLifetime <? Sub now (g_created g)).

Definition grantOf (sess : Session) : grant :=
  {| g_role := Role sess; g_csrf := CSRF sess; g_created := Created sess; g_seen := LastSeen sess |}.

Definition seenAt (g : grant) (now : Z) : grant :=
  {| g_role := g_role g; g_csrf := g_csrf g; g_created := g_created g; g_seen := now |}.

(** The specification of [get]: present and not lapsed, and then seen. *)
Definition gget (gs : grants) (id : bytes) (now : Z) : option grant * grants :=
  match gs !! id with
  | None => (None, gs)
  | Some g =>
    if lapsed g now then (None, gs) else (Some (seenAt g now), <[id := seenAt g now]> gs)
  end.

Definition gcreate (gs : grants) (r : res Session) : grants :=
  match r with Ok sess => <[ID sess := grantOf sess]> gs | Err _ => gs end.

(** The store stands for the grants: a grant it no longer has is one that lapsed. *)
Definition stands (now : Z) (s : sessions) (gs : grants) : Prop :=
  forall id, match byID s !! id with
    | Some sess => ID sess = id /\ gs !! id = Some (grantOf sess)
    | None => match gs !! id with Some g => lapsed g now = true | None => True end
    end.

Lemma lapsed_later g now now' : now <= now' -> lapsed g now = true -> lapsed g now' = true.
Proof.
  unfold lapsed. intros Hn. rewrite !orb_true_iff, !Z.ltb_lt.
  assert (forall t, Sub now t <= Sub now' t) as H by (unfold Sub; lia).
  pose proof (H (g_seen g)). pose proof (H (g_created g)). lia.
Qed.

Lemma expired_lapsed sess now : expiredLocked sess now = lapsed (grantOf sess) now.
Proof. done. Qed.

Lemma stands_later now now' s gs : now <= now' -> stands now s gs -> stands now' s gs.
Proof.
  intros Hn H id. specialize (H id). destruct (byID s !! id); [done|].
  destruct (gs !! id); [|done]. by apply (lapsed_later g now).
Qed.

Lemma stands_new now limit : stands now (newSessionsWith limit) ∅.
Proof. intros id. simpl. by rewrite !lookup_empty. Qed.

(** A change of a session that keeps what it grants. *)
Lemma stands_update now s gs id sess sess' : stands now s gs -> byID s !! id = Some sess ->
  grantOf sess' = grantOf sess -> ID sess' = ID sess -> stands now (update s id sess') gs.
Proof.
  intros H Hs Hg Hi id'. specialize (H id'). simpl. destruct (decide (id = id')) as [->|Hne].
  - rewrite lookup_insert_eq. rewrite Hs in H. by rewrite Hg, Hi.
  - by rewrite lookup_insert_ne.
Qed.

Lemma stands_sweep now s gs : stands now s gs -> stands now (sweepLocked s now) gs.
Proof.
  intros H id. specialize (H id). simpl. destruct (byID s !! id) as [sess|] eqn:E.
  - destruct (expiredLocked sess now) eqn:Ex.
    + rewrite map_lookup_filter_None_2; [destruct H as [_ ->]; by rewrite <- expired_lapsed|].
      right. intros x. rewrite E. intros [= <-]. simpl. by rewrite Ex.
    + by rewrite (map_lookup_filter_Some_2 _ _ _ sess).
  - rewrite map_lookup_filter_None_2; [done|by left].
Qed.

Lemma stands_create now s gs role d1 d2 created seen : stands now s gs ->
  stands now (create s role d1 d2 created seen now).2
    (gcreate gs (create s role d1 d2 created seen now).1).
Proof.
  intros H. unfold create. destruct (randomHex d1) as [id|e]; [|done].
  destruct (randomHex d2) as [csrf|e]; [|done]. simpl.
  apply stands_sweep in H. intros id'. specialize (H id'). simpl.
  destruct (decide (id = id')) as [->|Hne].
  - rewrite !lookup_insert_eq. simpl. done.
  - rewrite !lookup_insert_ne by done. done.
Qed.

Lemma stands_get now s gs id : stands now s gs ->
  option_map grantOf (get s id now).1 = (gget gs id now).1 /\
  stands now (get s id now).2 (gget gs id now).2 /\
  (forall sess, (get s id now).1 = Some sess -> ID sess = id).
Proof.
  intros H. pose proof (H id) as Hid. unfold get, gget. destruct (byID s !! id) as [sess|] eqn:E.
  - destruct Hid as [Hi ->]. rewrite expired_lapsed. destruct (lapsed (grantOf sess) now) eqn:El; simpl.
    + split_and!; [done| |done]. intros id'. specialize (H id'). simpl.
      destruct (decide (id = id')) as [->|Hne]; [|by rewrite lookup_delete_ne].
      rewrite E in H. destruct H as [_ ->]. by rewrite lookup_delete_eq.
    + split_and!; [done| |by intros ? [= <-]]. intros id'. specialize (H id'). simpl.
      destruct (decide (id = id')) as [->|Hne]; [by rewrite !lookup_insert_eq|].
      by rewrite !lookup_insert_ne.
  - destruct (gs !! id) as [g|] eqn:Eg; [rewrite Hid|]; done.
Qed.

(** ** Histories of the store *)

Inductive op :=
  | OpCreate (role : bytes) (drawnID drawnCSRF : res bytes) (created seen now : Z)
  | OpGet (id : bytes) (now : Z)
  | OpSetVerification (id digest result : bytes) (report : actionOutcome) (now : Z)
  | OpVisit (id digest : bytes)
  | OpRestart (id digest : bytes)
  | OpSeek (id digest : bytes).

(** A panicking visit would leave the store as it was. *)
Definition ostep (s : sessions) (o : op) : sessions :=
  match o with
  | OpCreate role d1 d2 created seen now => (create s role d1 d2 created seen now).2
  | OpGet id now => (get s id now).2
  | OpSetVerification id digest result report now => setVerification s id digest result report now
  | OpVisit id digest => default s (visit s id digest)
  | OpRestart id digest => restart s id digest
  | OpSeek id digest => seek s id digest
  end.

Definition orun (s : sessions) (os : list op) : sessions := foldl ostep s os.

(** The grants of the same history; a failed draw grants nothing. *)
Definition gstep (gs : grants) (o : op) : grants :=
  match o with
  | OpCreate role d1 d2 created seen now =>
    match randomHex d1, randomHex d2 with
    | Ok id, Ok csrf => <[id := {| g_role := role; g_csrf := csrf; g_created := created; g_seen := seen |}]> gs
    | _, _ => gs
    end
  | OpGet id now => (gget gs id now).2
  | _ => gs
  end.

Definition grun (os : list op) : grants := foldl gstep ∅ os.

Fixpoint forward (from : Z) (os : list op) : Prop :=
  match os with
  | [] => True
  | OpCreate _ _ _ created seen now :: os => from <= created <= seen /\ seen <= now /\ forward now os
  | OpGet _ now :: os | OpSetVerification _ _ _ _ now :: os => from <= now /\ forward now os
  | _ :: os => forward from os
  end.

#[global] Instance forward_dec from os : Decision (forward from os).
Proof. revert from. induction os as [|[]]; simpl; intros; apply _. Defined.

Lemma stands_setVerification now s gs id d r rep n : stands now s gs ->
  stands now (setVerification s id d r rep n) gs.
Proof.
  intros H. unfold setVerification. destruct (byID s !! id) eqn:E; [|done]. by eapply stands_update.
Qed.

Lemma stands_visit now s gs id d : stands now s gs -> stands now (default s (visit s id d)) gs.
Proof.
  intros H. unfold visit. destruct (byID s !! id) as [sess|] eqn:E; [|done].
  case_bool_decide; [done|]. destruct (visitTrail _ _ _) as [[t p]|]; [|done].
  simpl. by eapply stands_update.
Qed.

Lemma stands_restart now s gs id d : stands now s gs -> stands now (restart s id d) gs.
Proof.
  intros H. unfold restart. destruct (byID s !! id) as [sess|] eqn:E; [|done].
  case_bool_decide; [done|]. by eapply stands_update.
Qed.

Lemma stands_seek now s gs id d : stands now s gs -> stands now (seek s id d) gs.
Proof.
  intros H. unfold seek. destruct (byID s !! id) as [sess|] eqn:E; [|done].
  destruct (0 <=? _); [|done]. by eapply stands_update.
Qed.

Lemma gcreate_step gs s role d1 d2 created seen now :
  gcreate gs (create s role d1 d2 created seen now).1 = gstep gs (OpCreate role d1 d2 created seen now).
Proof.
  unfold create. simpl. destruct (randomHex d1) as [id|e]; [|done].
  by destruct (randomHex d2).
Qed.

(** Along a history the store keeps standing for the grants. *)
Lemma orun_stands os os' : forall from s gs, stands from s gs -> forward from (os ++ os') ->
  exists now, stands now (orun s os) (foldl gstep gs os) /\ from <= now /\ forward now os'.
Proof.
  induction os as [|o os IH]; intros from s gs H Hf; simpl; [by exists from|].
  assert (exists n, from <= n /\ stands n (ostep s o) (gstep gs o) /\ forward n (os ++ os'))
    as (n & Hn & Hs & Hf').
  { destruct o as [role d1 d2 cr se n|id n|id d r rep n|id d|id d|id d]; simpl in Hf.
    - destruct Hf as (? & ? & Hf). exists n. split_and!; [lia| |done].
      apply (stands_later _ n) in H; [|lia].
      rewrite <- (gcreate_step gs s). by apply stands_create.
    - destruct Hf as [? Hf]. exists n. split_and!; [lia| |done].
      apply stands_get. by apply (stands_later from).
    - destruct Hf as [? Hf]. exists n. split_and!; [lia| |done].
      by apply stands_setVerification, (stands_later from).
    - exists from. split_and!; [lia|by apply stands_visit|done].
    - exists from. split_and!; [lia|by apply stands_restart|done].
    - exists from. split_and!; [lia|by apply stands_seek|done]. }
  destruct (IH n _ _ Hs Hf') as (now & ? & ? & ?). exists now. split_and!; [done|lia|done].
Qed.

(** Where a grant comes from: a login, and its last lookup. *)
Definition comesFrom (os : list op) (id : bytes) (g : grant) : Prop :=
  exists os1 d1 d2 seen now os2,
    os = os1 ++ OpCreate (g_role g) d1 d2 (g_created g) seen now :: os2 /\
    randomHex d1 = Ok id /\ randomHex d2 = Ok (g_csrf g) /\
    (g_seen g = seen \/ OpGet id (g_seen g) ∈ os2).

Lemma comesFrom_snoc os o id g : comesFrom os id g -> comesFrom (os ++ [o]) id g.
Proof.
  intros (os1 & d1 & d2 & seen & now & os2 & -> & H1 & H2 & H3).
  exists os1, d1, d2, seen, now, (os2 ++ [o]). rewrite <- app_assoc. split_and!; [done..|].
  destruct H3 as [H3|H3]; [by left|right]. apply elem_of_app. by left.
Qed.

Lemma grun_comesFrom os id g : grun os !! id = Some g -> comesFrom os id g.
Proof.
  unfold grun. revert id g. induction os as [|o os IH] using rev_ind; intros id g; [done|].
  rewrite foldl_app. simpl. set (gs := foldl gstep ∅ os) in *.
  destruct o as [role d1 d2 cr se n|id' n|id' d r rep n|id' d|id' d|id' d]; simpl;
    try (intros H; by apply comesFrom_snoc, IH).
  - destruct (randomHex d1) as [i|] eqn:E1; [|intros H; by apply comesFrom_snoc, IH].
    destruct (randomHex d2) as [x|] eqn:E2; [|intros H; by apply comesFrom_snoc, IH].
    destruct (decide (i = id)) as [->|Hne].
    + rewrite lookup_insert_eq. intros [= <-]. exists os, d1, d2, se, n, []. simpl. auto.
    + rewrite lookup_insert_ne by done. intros H. by apply comesFrom_snoc, IH.
  - unfold gget. destruct (gs !! id') as [g0|] eqn:E0; [|intros H; by apply comesFrom_snoc, IH].
    destruct (lapsed g0 n); [intros H; by apply comesFrom_snoc, IH|]. simpl.
    destruct (decide (id' = id)) as [->|Hne].
    + rewrite lookup_insert_eq. intros [= <-].
      apply IH in E0 as (os1 & d1 & d2 & seen & now & os2 & -> & H1 & H2 & _).
      exists os1, d1, d2, seen, now, (os2 ++ [OpGet id n]). rewrite <- app_assoc. simpl.
      split_and!; [done..|]. right. apply elem_of_app. right. by left.
    + rewrite lookup_insert_ne by done. intros H. by apply comesFrom_snoc, IH.
Qed.

(** A grant stays while no login issues its id again; it is only seen later. *)
Lemma grant_kept os id : Forall (fun o => match o with
    OpCreate _ d1 _ _ _ _ => randomHex d1 <> Ok id | _ => True end) os ->
  forall gs g from, gs !! id = Some g -> g_seen g <= from -> forward from os ->
  exists g', foldl gstep gs os !! id = Some g' /\ g_role g' = g_role g /\ g_csrf g' = g_csrf g /\
    g_created g' = g_created g /\ g_seen g <= g_seen g'.
Proof.
  induction 1 as [|o os Ho _ IH]; intros gs g from Hg Hseen Hf; simpl.
  { exists g. split_and!; done || lia. }
  destruct o as [role d1 d2 cr se n|id' n|id' d r rep n|id' d|id' d|id' d]; simpl in *;
    try (by apply (IH gs g from)).
  - destruct Hf as (? & ? & Hf). destruct (randomHex d1) as [i|]; [|apply (IH gs g n); done || lia].
    destruct (randomHex d2) as [x|]; [|apply (IH gs g n); done || lia].
    apply (IH _ g n); [|lia|done]. rewrite lookup_insert_ne; [done|congruence].
  - destruct Hf as [Hn Hf]. unfold gget.
    destruct (gs !! id') as [g0|] eqn:E0; [|apply (IH gs g n); done || lia].
    destruct (lapsed g0 n); [apply (IH gs g n); done || lia|]. simpl.
    destruct (decide (id' = id)) as [->|Hne].
    + rewrite Hg in E0. injection E0 as <-.
      destruct (IH (<[id := seenAt g n]> gs) (seenAt g n) n) as (g' & ? & ? & ? & ? & ?);
        [by rewrite lookup_insert_eq|simpl; lia|done|].
      exists g'. simpl in *. split_and!; [done..|lia].
    + apply (IH _ g n); [|lia|done]. by rewrite lookup_insert_ne.
  - destruct Hf as [Hn Hf]. apply (IH gs g n); done || lia.
Qed.

(** C19. The session store implements grants that lapse.  After any history of logins,
    lookups, recorded results and navigation, a lookup finds a session exactly when the
    grant of its latest login is under eight hours old and was last looked up
    under thirty minutes before, and it has that login's role and CSRF token: the sweeps,
    the deletions and the other sessions are invisible. *)
Theorem sessions_refine limit from os id now : forward from (os ++ [OpGet id now]) ->
  let s := orun (newSessionsWith limit) os in
  option_map grantOf (get s id now).1 = (gget (grun os) id now).1 /\
  (forall sess, (get s id now).1 = Some sess ->
     ID sess = id /\ now - LastSeen sess <= idleTimeout /\ now - Created sess <= maxLifetime).
Proof.
  intros Hf s.
  destruct (orun_stands os [OpGet id now] from (newSessionsWith limit) ∅ (stands_new _ _) Hf)
    as (n & H & Hn & Hle & _).
  apply (stands_later n now) in H; [|done]. fold s in H. change (foldl gstep ∅ os) with (grun os) in H.
  destruct (stands_get now s (grun os) id H) as (H1 & _ & H3). split; [done|].
  intros sess Hs. split; [by apply H3|]. unfold get in Hs.
  destruct (byID s !! id) as [sess0|] eqn:E; [|done].
  destruct (expiredLocked sess0 now) eqn:Ex; [done|]. simpl in Hs. injection Hs as <-. simpl.
  unfold expiredLocked in Ex. apply orb_false_iff in Ex as [H4%Z.ltb_ge H5%Z.ltb_ge].
  assert (0 <= idleTimeout) by done. split; [lia|].
  unfold Sub, maxLifetime, Hour, Minute, Second, MaxInt64 in *. lia.
Qed.

(** Recorded results: the one just recorded is the one reported, an object
    checked again evicts nothing, and a map that is full is dropped, so that it
    never holds more than the limit. *)
Theorem setVerification_spec s id digest result report now sess : byID s !! id = Some sess ->
  0 < verificationLimit s -> Z.of_nat (size (Verifications sess)) <= verificationLimit s ->
  let s' := setVerification s id digest result report now in
  verificationReport s' id digest = (result, now, report) /\
  (forall d, d <> digest -> is_Some (Verifications sess !! digest) \/
     Z.of_nat (size (Verifications sess)) < verificationLimit s ->
     verificationReport s' id d = verificationReport s id d) /\
  (forall sess', byID s' !! id = Some sess' ->
     Z.of_nat (size (Verifications sess')) <= verificationLimit s) /\
  (forall id' d, id' <> id -> verificationReport s' id' d = verificationReport s id' d).
Proof.
  intros Hs Hlim Hsize s'. unfold s', setVerification, verificationReport. rewrite Hs. simpl.
  rewrite lookup_insert_eq. simpl. split_and!.
  - by rewrite lookup_insert_eq.
  - intros d Hd Hroom. rewrite lookup_insert_ne by done.
    destruct Hroom as [Hr|Hr].
    + by rewrite (bool_decide_true _ Hr).
    + destruct (Z.leb_spec (verificationLimit s) (Z.of_nat (size (Verifications sess)))); [lia|].
      by rewrite andb_false_r.
  - intros sess' [= <-]. simpl. destruct (decide (is_Some (Verifications sess !! digest))) as [Hr|Hr].
    + rewrite bool_decide_true by done. simpl. by rewrite map_size_insert_Some.
    + rewrite bool_decide_false by done. simpl.
      destruct (Z.ltb_spec 0 (verificationLimit s)); [|lia]. simpl.
      destruct (Z.leb_spec (verificationLimit s) (Z.of_nat (size (Verifications sess)))).
      * rewrite map_size_insert_None, map_size_empty by apply lookup_empty. lia.
      * rewrite map_size_insert_None by (by apply eq_None_not_Some). lia.
  - intros id' d Hne. by rewrite lookup_insert_ne.
Qed.

(** ** Concrete runs *)

Definition hexA : res bytes := Ok [x0a].
Definition hexB : res bytes := Ok [x0b].

(** An operator's session, used within its half hour and then left alone. *)
Definition anHour : list op :=
  [OpCreate (str "operator") hexA hexB 0 0 0; OpGet (str "0a") (20 * Minute);
   OpVisit (str "0a") (str "d"); OpCreate (str "viewer") hexB hexA (30 * Minute) (30 * Minute) (30 * Minute);
   OpGet (str "0a") (45 * Minute)].

Example sessions_refine_witness :
  let s := orun newSessions anHour in
  option_map grantOf (get s (str "0a") (70 * Minute)).1 =
    Some {| g_role := str "operator"; g_csrf := str "0b"; g_created := 0; g_seen := 70 * Minute |} /\
  (get s (str "0b") (70 * Minute)).1 = None /\
  option_map grantOf (get s (str "0b") (70 * Minute)).1 = (gget (grun anHour) (str "0b") (70 * Minute)).1.
Proof.
  split_and!; [by vm_compute|by vm_compute|].
  apply (sessions_refine objectVerificationLimit 0 anHour (str "0b") (70 * Minute)).
  apply (bool_decide_unpack _). by vm_compute.
Defined.

Definition freshSession : Session :=
  {| ID := str "s"; Role := []; Created := 0; LastSeen := 0; CSRF := []; Verifications := ∅;
     Trail := []; TrailPos := -1 |}.
Definition oneSession : sessions := update newSessions (str "s") freshSession.

Definition walk : list move :=
  [Restart (str "a"); Visit (str "b"); Visit (str "c"); Prev; Prev; Next; Visit (str "d"); Prev].

Example trail_is_history_witness :
  exists s' sess', clicks oneSession (str "s") walk = Some s' /\ byID s' !! str "s" = Some sess' /\
    Trail sess' = [str "a"; str "b"; str "d"] /\ TrailPos sess' = 1.
Proof.
  apply (trail_is_history oneSession (str "s") freshSession walk);
    [by vm_compute|done|done|by repeat constructor|apply (bool_decide_unpack _); by vm_compute].
Defined.

(** An object visited twice: the controls ask for the neighbour by its digest,
    and [seek] goes to the first place that has it.  From the trail a, b, a, c, Prev goes from c to
    the first a, and from there no number of steps of Next gets back to c: the
    cursor only alternates between the first a and b. *)
Definition detour : list move :=
  [Restart (str "a"); Visit (str "b"); Visit (str "a"); Visit (str "c"); Prev].

Definition cursor (os : option sessions) : option (list bytes * Z) :=
  s ← os; sess ← byID s !! str "s"; Some (Trail sess, TrailPos sess).

Lemma clicks_app s id ms ms' : clicks s id (ms ++ ms') = s' ← clicks s id ms; clicks s' id ms'.
Proof.
  revert s. induction ms as [|m ms IH]; intros s; simpl; [done|].
  destruct (click s id m) as [s1|]; simpl; [apply IH|done].
Qed.

Theorem trail_loses_its_end n :
  cursor (clicks oneSession (str "s") (detour ++ replicate n Next)) =
    Some ([str "a"; str "b"; str "a"; str "c"], if Nat.even n then 0 else 1).
Proof.
  assert (H0 : clicks oneSession (str "s") detour =
    Some (update newSessions (str "s") (withTrail freshSession [str "a"; str "b"; str "a"; str "c"] 0)))
    by (by vm_compute).
  rewrite clicks_app, H0. simpl. clear H0.
  set (at_ := fun p => update newSessions (str "s")
    (withTrail freshSession [str "a"; str "b"; str "a"; str "c"] p)).
  change (update _ _ _) with (at_ 0).
  assert (H01 : click (at_ 0) (str "s") Next = Some (at_ 1)) by (by vm_compute).
  assert (H10 : click (at_ 1) (str "s") Next = Some (at_ 0)) by (by vm_compute).
  assert (Hc : forall p, cursor (Some (at_ p)) = Some ([str "a"; str "b"; str "a"; str "c"], p)).
  { intros p. unfold cursor, at_. simpl. by rewrite lookup_insert_eq. }
  assert (forall k, clicks (at_ 0) (str "s") (replicate k Next) = Some (at_ (if Nat.even k then 0 else 1)) /\
    clicks (at_ 1) (str "s") (replicate k Next) = Some (at_ (if Nat.even k then 1 else 0))) as H.
  { induction k as [|k [IH0 IH1]]; [done|]. rewrite Nat.even_succ, <- Nat.negb_even.
    cbn [replicate clicks]. rewrite H01, H10. simpl mbind. rewrite IH0, IH1. by destruct (Nat.even k). }
  destruct (H n) as [-> _]. apply Hc.
Qed.

End Sessions.
