(* ===== verification/WebProxy.v ===== *)
(** Whose request it is: the caller address the login throttle keys on
    (internal/web/proxy.go).  The address parser of package net is a parameter. *)

From S2P Require Import Prelude RefText.

Module Proxy.

(** [net.ParseIP], [net.ParseCIDR], [IP.Equal] and [IPNet.Contains]. *)
Class Net := {
  IP : Type;
  IPNet : Type;
  ParseIP : bytes -> option IP;
  ParseCIDR : bytes -> option IPNet;
  IPEqual : IP -> IP -> bool;
  NetContains : IPNet -> IP -> bool }.

(** What a request says of where it comes from: the peer's address, and the lines
    of the two headers in the order they were sent. *)
Record origin := {
  RemoteAddr : bytes;
  XForwardedFor : list bytes;
  Forwarded : list bytes }.
(** [Header.Get]: the first line's value, or nothing. *)
Definition headerGet (lines : list bytes) : bytes := default [] (head lines).

(** ** Strings *)

(** [strings.Index] and [strings.LastIndex] of one byte. *)
Fixpoint indexByte (s : bytes) (b : byte) : option nat :=
  match s with
  | [] => None
  | x :: s => if decide (x = b) then Some O else S <$> indexByte s b
  end.
Definition lastIndexByte (s : bytes) (b : byte) : option nat :=
  i ← indexByte (reverse s) b; Some (length s - 1 - i)%nat.

Definition contains (s : bytes) (b : byte) : bool := bool_decide (b ∈ s).

(** [net.SplitHostPort]: the host, when the address has one port. *)
Definition SplitHostPort (hostport : bytes) : option bytes :=
  i ← lastIndexByte hostport x3a;
  match hostport with
  | x5b :: _ =>
    end_ ← indexByte hostport x5d;
    if bool_decide (S end_ = i) then
      if contains (drop 1 hostport) x5b || contains (drop (S end_) hostport) x5d then None
      else Some (take (end_ - 1) (drop 1 hostport))
    else None
  | _ =>
    let host := take i hostport in
    if contains host x3a || contains hostport x5b || contains hostport x5d then None else Some host
  end.

(** [strings.Cut] at one byte. *)
Definition cut (s : bytes) (b : byte) : option (bytes * bytes) :=
  i ← indexByte s b; Some (take i s, drop (S i) s).

(** [strings.EqualFold] with an ASCII word whose letters fold only to each other. *)
Definition equalFold (s t : bytes) : bool := bool_decide (map lower s = map lower t).

(** ** Trusted proxies *)

Section proxy.
Context {net : Net}.

Record trustedProxy := { nets : list IPNet; ips : list IP }.

(** [None] is the nil receiver. *)
Definition isTrusted (t : option trustedProxy) (addr : bytes) : bool :=
  match t, ParseIP addr with
  | Some t, Some ip =>
    existsb (fun entry => IPEqual entry ip) (ips t) || existsb (fun n => NetContains n ip) (nets t)
  | _, _ => false
  end.

Fixpoint newTrustedProxy_go (proxies : list bytes) (trusted : trustedProxy) : res trustedProxy :=
  match proxies with
  | [] => Ok trusted
  | entry :: proxies =>
    let entry := TrimSpace entry in
    if bool_decide (entry = []) then newTrustedProxy_go proxies trusted else
    match ParseCIDR entry with
    | Some network => newTrustedProxy_go proxies {| nets := nets trusted ++ [network]; ips := ips trusted |}
    | None =>
      let candidate := match SplitHostPort entry with Some host => host | None => entry end in
      match ParseIP candidate with
      | None => Err (New "trusted proxy %q is neither an IP address nor a CIDR block")
      | Some ip => newTrustedProxy_go proxies {| nets := nets trusted; ips := ips trusted ++ [ip] |}
      end
    end
  end.

Definition newTrustedProxy (proxies : list bytes) : res trustedProxy :=
  newTrustedProxy_go proxies {| nets := []; ips := [] |}.

Definition peerIP (r : origin) : bytes :=
  match SplitHostPort (RemoteAddr r) with Some host => host | None => RemoteAddr r end.

(** The hops from the [i]-th down to the first, given nearest first. *)
Fixpoint forwardedHops (trusted : option trustedProxy) (hops : list bytes) : option bytes :=
  match hops with
  | [] => None
  | hop :: farther =>
    let hop := TrimSpace hop in
    if bool_decide (hop = []) then forwardedHops trusted farther
    else if negb (isTrusted trusted hop) then Some hop
    else match farther with [] => Some hop | _ => forwardedHops trusted farther end
  end.

Definition nodeAddress (value : bytes) : bytes :=
  match ParseIP value with
  | Some _ => value
  | None =>
    let split := match SplitHostPort value with Some host => host | None => value end in
    if HasPrefix value [x5b] then
      match indexByte value x5d with
      | Some end_ => if bool_decide (0 < end_)%nat then take (end_ - 1) (drop 1 value) else split
      | None => split
      end
    else split
  end.

(** A quoted string without its quotes. *)
Definition unquote (value : bytes) : bytes :=
  if (2 <=? blen value) && bool_decide (head value = Some x22) && bool_decide (list.last value = Some x22)
  then take (length value - 2) (drop 1 value) else value.

(** The parameters in order: [None] is not found yet, [Some None] no address. *)
Fixpoint forwardedParams (params : list bytes) : option (option bytes) :=
  match params with
  | [] => None
  | param :: params =>
    match cut (TrimSpace param) x3d with
    | None => forwardedParams params
    | Some (name, value) =>
      if negb (equalFold (TrimSpace name) (str "for")) then forwardedParams params else
      let value := unquote (TrimSpace value) in
      if bool_decide (value = []) then Some None else Some (Some (nodeAddress value))
    end
  end.

Definition forwardedFor (header : bytes) : option bytes :=
  match forwardedParams (concat (map (splitOn x3b) (splitOn x2c header))) with
  | Some client => client
  | None => None
  end.

Definition forwardedClient (r : origin) (trusted : option trustedProxy) : option bytes :=
  let xff := headerGet (XForwardedFor r) in
  let forwarded := headerGet (Forwarded r) in
  if negb (bool_decide (xff = [])) then forwardedHops trusted (reverse (splitOn x2c xff))
  else if negb (bool_decide (forwarded = [])) then forwardedFor forwarded
  else None.

Definition callerIP (trusted : option trustedProxy) (r : origin) : bytes :=
  let peer := peerIP r in
  if negb (isTrusted trusted peer) then peer else
  match forwardedClient r trusted with Some client => client | None => peer end.

(** ** Who a caller can pretend to be *)

(** The hops that the trusted proxies nearest the server appended. *)
Definition vouched (trusted : option trustedProxy) (hop : bytes) : Prop :=
  (x2c ∉ hop) /\ (TrimSpace hop = [] \/ isTrusted trusted (TrimSpace hop) = true).

Lemma forwardedHops_vouched trusted near client far : Forall (vouched trusted) near ->
  TrimSpace client <> [] -> isTrusted trusted (TrimSpace client) = false ->
  forwardedHops trusted (near ++ client :: far) = Some (TrimSpace client).
Proof.
  intros Hnear Hne Hc. induction Hnear as [|hop near [_ Hhop] _ IH]; simpl.
  - rewrite bool_decide_false by done. by rewrite Hc.
  - destruct Hhop as [->|Ht]; [done|]. case_bool_decide; [done|]. rewrite Ht. simpl.
    destruct (near ++ client :: far) eqn:E; [by destruct near|done].
Qed.

(** C20. The address a login counts against is not the caller's to choose.  A
    peer that is no trusted proxy counts as itself, whatever its headers say; and behind
    trusted proxies that append to the header's line the caller is the nearest hop
    that they do not own: whatever was in the line before it, commas included, has no
    effect, and neither has any further line of the header or any other header. *)
Theorem callerIP_not_chosen trusted r client near written line more :
  (isTrusted trusted (peerIP r) = false -> callerIP trusted r = peerIP r) /\
  (isTrusted trusted (peerIP r) = true ->
   let appended := joinWith x2c (client :: reverse near) in
   XForwardedFor r = line :: more ->
   line = appended \/ line = written ++ (x2c :: appended) ->
   (x2c ∉ client) -> TrimSpace client <> [] -> isTrusted trusted (TrimSpace client) = false ->
   Forall (vouched trusted) near ->
   callerIP trusted r = TrimSpace client).
Proof.
  unfold callerIP. split; intros ->; [done|]. simpl negb. cbv iota.
  intros El Hx Hcomma Hne Hc Hnear. unfold forwardedClient. rewrite El. cbn [headerGet head default from_option id].
  assert (Hparts : Forall (fun p => x2c ∉ p) (client :: reverse near)).
  { apply list.Forall_cons. split; [done|]. apply Forall_reverse.
    eapply list.Forall_impl; [exact Hnear|]. by intros ? []. }
  assert (Happ : splitOn x2c (joinWith x2c (client :: reverse near)) = client :: reverse near)
    by (by apply splitOn_joinWith).
  assert (Hsplit : exists far, splitOn x2c line = far ++ client :: reverse near).
  { destruct Hx as [->| ->]; [exists []; by rewrite Happ|].
    exists (splitOn x2c written). by rewrite splitOn_newline_free, Happ. }
  destruct Hsplit as [far Hfar].
  assert (Hnil : line <> []).
  { destruct Hx as [->| ->]; [|by destruct written]. simpl.
    destruct client; [by rewrite (eq_refl : TrimSpace [] = []) in Hne|done]. }
  rewrite bool_decide_false by done. simpl negb. cbv iota.
  rewrite Hfar, reverse_app, reverse_cons, reverse_involutive, <- app_assoc. simpl.
  by rewrite (forwardedHops_vouched trusted near client).
Qed.

End proxy.

(** ** A concrete network *)

(** Addresses are their own text; a block is a prefix of it. *)
#[export] Instance textNet : Net := {|
  IP := bytes;
  IPNet := bytes;
  ParseIP addr := if bool_decide (addr = [] \/ existsb (fun b => negb (isDigit b) && bool_decide (b <> dot)) addr = true)
    then None else Some addr;
  ParseCIDR s := if HasSuffix s (str ".*") then Some (take (length s - 1) s) else None;
  IPEqual a b := bool_decide (a = b);
  NetContains n ip := HasPrefix ip n |}.

Definition proxies : trustedProxy :=
  match newTrustedProxy [str "10.*"; str "127.0.0.1:80"] with
  | Ok t => t
  | Err _ => {| nets := []; ips := [] |}
  end.

(** The client claims to be 1.1.1.1; the outer proxy recorded 9.9.9.9. *)
Definition forged : origin :=
  {| RemoteAddr := str "127.0.0.1:5000";
     XForwardedFor := [str "1.1.1.1, 10.0.0.7, 9.9.9.9, 10.0.0.1"; str "2.2.2.2"];
     Forwarded := [str "for=3.3.3.3"] |}.

Example callerIP_not_chosen_witness : callerIP (Some proxies) forged = str "9.9.9.9".
Proof.
  apply (callerIP_not_chosen (Some proxies) forged (str " 9.9.9.9") [str " 10.0.0.1"]
    (str "1.1.1.1, 10.0.0.7") (str "1.1.1.1, 10.0.0.7, 9.9.9.9, 10.0.0.1") [str "2.2.2.2"]).
  - by vm_compute.
  - reflexivity.
  - right. by vm_compute.
  - by apply (bool_decide_unpack _).
  - by vm_compute.
  - by vm_compute.
  - apply list.Forall_singleton. split; [by apply (bool_decide_unpack _)|right; by vm_compute].
Defined.

Example forwarded_runs :
  callerIP (Some proxies) {| RemoteAddr := str "10.1.2.3:1"; XForwardedFor := [];
    Forwarded := [str "proto=https; For=9.9.9.9, for=8.8.8.8"] |} = str "9.9.9.9" /\
  callerIP (Some proxies) {| RemoteAddr := str "10.1.2.3:1"; XForwardedFor := [str "10.0.0.9, 10.0.0.8"];
    Forwarded := [] |} = str "10.0.0.9" /\
  SplitHostPort (str "[::1]:80") = Some (str "::1") /\ SplitHostPort (str "::1") = None.
Proof. by vm_compute. Qed.

(** Only the first line is read: behind a trusted proxy that adds a line of its own
    instead of appending to the caller's, the caller is who it says it is. *)
Lemma second_line_unread (net : Net) trusted addr line more forwarded :
  line <> [] ->
  callerIP trusted {| RemoteAddr := addr; XForwardedFor := line :: more; Forwarded := forwarded |} =
  callerIP trusted {| RemoteAddr := addr; XForwardedFor := [line]; Forwarded := [] |}.
Proof.
  intros Hl. unfold callerIP, forwardedClient. cbn [XForwardedFor Forwarded headerGet head default from_option id].
  rewrite (bool_decide_eq_false_2 (line = [])) by done. done.
Qed.
Example chosen_by_the_caller :
  callerIP (Some proxies) {| RemoteAddr := str "10.0.0.1:1"; XForwardedFor := [str "1.1.1.1"; str "9.9.9.9"]; Forwarded := [] |} = str "1.1.1.1".
Proof. by vm_compute. Qed.

End Proxy.
