(* ===== verification/WebAuth.v ===== *)
(** The gate of the web view (internal/web/auth.go, csrf.go, body.go and the routes of
    web.go): who is logged in, and which requests reach a handler.

    A request is what the server reads of it; the instants and random bytes that the code
    reads while it serves it are its [env].  A handler that is reached is
    [Serve]: what handlers do to the session store is in the history as operations of their own.
    The URL parser is a parameter. *)

From S2P Require Import Prelude GoTime Digest RefText WebThrottle WebSessions WebProxy.

Module Auth.

Definition RoleViewer : bytes := str "viewer".
Definition RoleOperator : bytes := str "operator".
Definition RoleAdmin : bytes := str "admin".

(** ** Requests and responses *)

(** The outcome of [ParseForm]: the fields, or one of its two failures. *)
Inductive form :=
  | Form (fields : list (bytes * bytes))
  | TooLarge
  | Malformed.

Record request := {
  Method : bytes;
  Cookie : option bytes;
  SecFetchSite : bytes;
  Origin : bytes;
  Host : bytes;
  XCSRFToken : bytes;
  QueryToken : bytes;
  ContentLength : Z;
  Body : form;
  From : Proxy.origin }.

Inductive response :=
  | Empty (status : Z)
  | Text (status : Z) (body : string)
  | RetryAfter (seconds : Z)
  | LoggedIn (id : bytes)
  | LoginPage
  | Serve.

Definition StatusBadRequest : Z := 400.
Definition StatusUnauthorized : Z := 401.
Definition StatusForbidden : Z := 403.
Definition StatusRequestEntityTooLarge : Z := 413.
Definition StatusInternalServerError : Z := 500.

Definition isPost (r : request) : bool := bool_decide (Method r = str "POST").

(** [r.PostFormValue] after the parse: the first field of that name. *)
Definition PostFormValue (r : request) (key : bytes) : bytes :=
  match isPost r, Body r with
  | true, Form fields =>
    match list_find (fun f => f.1 = key) fields with Some (_, (_, v)) => v | None => [] end
  | _, _ => []
  end.

Definition sessionID (r : request) : bytes := default [] (Cookie r).

(** [subtle.ConstantTimeCompare]. *)
Definition ConstantTimeCompare (x y : bytes) : Z := if decide (x = y) then 1 else 0.

(** ** The server *)

Section auth.
Context {net : Proxy.Net} (urlHost : bytes -> option bytes).

Record Config := {
  StartupToken : bytes;
  RoleTokens : gmap bytes bytes;
  trusted : option Proxy.trustedProxy }.

Record Server := {
  sessions : Sessions.sessions;
  loginThrottle : Throttle.throttle }.

Definition New : Server :=
  {| sessions := Sessions.newSessions; loginThrottle := Throttle.newThrottle 5 Minute |}.

(** What the code reads while it serves one request, in this order. *)
Record env := {
  at_allow : Z;
  at_retry : Z;
  at_created : Z;
  at_seen : Z;
  at_sweep : Z;
  at_get : Z;
  at_require : Z;
  drawnID : res bytes;
  drawnCSRF : res bytes }.

Definition roleRank (role : bytes) : Z :=
  if bool_decide (role = RoleViewer) then 1
  else if bool_decide (role = RoleOperator) then 2
  else if bool_decide (role = RoleAdmin) then 3
  else 0.

Definition roleAllows (sessionRole required : bytes) : bool :=
  roleRank required <=? roleRank sessionRole.

(** The two failures answer; [None] lets the handler continue. *)
Definition parseFormBody (r : request) : option response :=
  if negb (isPost r) then None else
  match Body r with
  | Form _ => None
  | TooLarge => Some (Text StatusRequestEntityTooLarge "request body too large")
  | Malformed => Some (Text StatusBadRequest "malformed form body")
  end.

Definition maxRequestBodyBytes : Z := 4096.

Definition boundBody (next : request -> Server -> response * Server) (r : request) (s : Server) :
    response * Server :=
  if maxRequestBodyBytes <? ContentLength r
  then (Text StatusRequestEntityTooLarge "request body too large", s) else next r s.

Definition csrfOK (r : request) (sess : option Sessions.Session) : bool :=
  if negb (isPost r) then true else
  match sess with
  | None => true
  | Some sess =>
    let given := PostFormValue r (str "csrf") in
    let given := if bool_decide (given = []) then XCSRFToken r else given in
    ConstantTimeCompare given (Sessions.CSRF sess) =? 1
  end.

Definition withSessions (s : Server) (x : Sessions.sessions) : Server :=
  {| sessions := x; loginThrottle := loginThrottle s |}.
Definition withThrottle (s : Server) (x : Throttle.throttle) : Server :=
  {| sessions := sessions s; loginThrottle := x |}.

(** [require]; [now] is the instant its lookup reads. *)
Definition require (role : bytes) (r : request) (now : Z) (s : Server) : response * Server :=
  let '(found, store) := Sessions.get (sessions s) (sessionID r) now in
  let s := withSessions s store in
  match found with
  | None => (Empty StatusUnauthorized, s)
  | Some sess =>
    if negb (roleAllows (Sessions.Role sess) role) then (Empty StatusForbidden, s) else
    match parseFormBody r with
    | Some refused => (refused, s)
    | None => if negb (csrfOK r (Some sess)) then (Empty StatusForbidden, s) else (Serve, s)
    end
  end.

Definition sameOrigin (r : request) : bool :=
  if negb (bool_decide (SecFetchSite r = [])) then
    bool_decide (SecFetchSite r = str "same-origin") || bool_decide (SecFetchSite r = str "none")
  else if bool_decide (Origin r = []) then false
  else match urlHost (Origin r) with
       | None => false
       | Some host => negb (bool_decide (host = [])) && bool_decide (host = Host r)
       end.

(** The loop over the configured tokens, in the order the map gives them. *)
Fixpoint matchToken (tokens : list (bytes * bytes)) (token : bytes) : option bytes :=
  match tokens with
  | [] => None
  | (tok, role) :: tokens =>
    if ConstantTimeCompare tok token =? 1 then Some role else matchToken tokens token
  end.

Definition resolveToken (cfg : Config) (token : bytes) : option bytes :=
  if bool_decide (token = []) then None
  else if ConstantTimeCompare token (StartupToken cfg) =? 1 then Some RoleAdmin
  else matchToken (map_to_list (RoleTokens cfg)) token.

Definition callerIP (cfg : Config) (r : request) : bytes := Proxy.callerIP (trusted cfg) (From r).

Definition loginToken (cfg : Config) (r : request) (token : bytes) (e : env) (s : Server) :
    response * Server :=
  let ip := callerIP cfg r in
  if negb (sameOrigin r) then (Empty StatusForbidden, s) else
  let '(ok, t) := Throttle.allow (loginThrottle s) ip (at_allow e) in
  let s := withThrottle s t in
  if negb ok then (RetryAfter (Throttle.retryAfter t ip (at_retry e) `quot` Second), s) else
  match resolveToken cfg token with
  | None => (Empty StatusUnauthorized, s)
  | Some role =>
    let s := withThrottle s (Throttle.reset t ip) in
    let '(created, store) := Sessions.create (sessions s) role (drawnID e) (drawnCSRF e)
                               (at_created e) (at_seen e) (at_sweep e) in
    let s := withSessions s store in
    match created with
    | Err _ => (Text StatusInternalServerError "internal error", s)
    | Ok sess => (LoggedIn (Sessions.ID sess), s)
    end
  end.

Definition loginPost (cfg : Config) (r : request) (e : env) (s : Server) : response * Server :=
  match parseFormBody r with
  | Some refused => (refused, s)
  | None => loginToken cfg r (PostFormValue r (str "token")) e s
  end.

(** The routes of [Handler]; the first three are public. *)
Inductive route :=
  | RLoginPage | RStatic | RLoginPost | RLanding
  | RObjects | RPermalink | RDump | RVerifyAll | RVerify | ROther.

Definition landing (cfg : Config) (r : request) (e : env) (s : Server) : response * Server :=
  let token := TrimSpace (QueryToken r) in
  if negb (bool_decide (token = [])) then loginToken cfg r token e s else
  let '(found, store) := Sessions.get (sessions s) (sessionID r) (at_get e) in
  let s := withSessions s store in
  match found with
  | None => (LoginPage, s)
  | Some _ => require RoleViewer r (at_require e) s
  end.

Definition Handler (cfg : Config) (p : route) (e : env) : request -> Server -> response * Server :=
  boundBody (fun r s =>
    match p with
    | RLoginPage | RStatic => (Text 200 "", s)
    | RLoginPost => loginPost cfg r e s
    | RLanding => landing cfg r e s
    | RObjects | RPermalink | RDump | ROther => require RoleViewer r (at_require e) s
    | RVerifyAll | RVerify => require RoleOperator r (at_require e) s
    end).

(** [csrfFor] and [roleFor], which handlers and templates ask. *)
Definition csrfFor (r : request) (now : Z) (s : Server) : bytes * Server :=
  let '(found, store) := Sessions.get (sessions s) (sessionID r) now in
  (match found with Some sess => Sessions.CSRF sess | None => [] end, withSessions s store).
Definition roleFor (r : request) (now : Z) (s : Server) : bytes * Server :=
  let '(found, store) := Sessions.get (sessions s) (sessionID r) now in
  (match found with Some sess => Sessions.Role sess | None => [] end, withSessions s store).

(** ** Histories

    The requests in the order in which they were served, and what handlers and
    templates did to the session store meanwhile, which issues no session. *)

Inductive event :=
  | Req (p : route) (r : request) (e : env)
  | Inner (o : Sessions.op).

Definition step (cfg : Config) (s : Server) (ev : event) : Server :=
  match ev with
  | Req p r e => (Handler cfg p e r s).2
  | Inner o => withSessions s (Sessions.ostep (sessions s) o)
  end.

Definition run (cfg : Config) (s : Server) (es : list event) : Server := foldl (step cfg) s es.

(** The clock does not go back, within a request nor from one to the next. *)
Fixpoint ordered (from : Z) (es : list event) : Prop :=
  match es with
  | [] => True
  | Req _ _ e :: es =>
    (from <= at_allow e <= at_retry e /\ at_retry e <= at_created e <= at_seen e /\
     at_seen e <= at_sweep e <= at_get e /\ at_get e <= at_require e) /\ ordered (at_require e) es
  | Inner (Sessions.OpCreate _ _ _ _ _ _) :: _ => False
  | Inner (Sessions.OpGet _ now | Sessions.OpSetVerification _ _ _ _ now) :: es =>
    from <= now /\ ordered now es
  | Inner _ :: es => ordered from es
  end.

#[global] Instance ordered_dec from es : Decision (ordered from es).
Proof. revert from. induction es as [|[|[]]]; simpl; intros; apply _. Defined.

(** The token a request presents, when it is one that logs in. *)
Definition tokenOf (p : route) (r : request) : option bytes :=
  if maxRequestBodyBytes <? ContentLength r then None else
  match p with
  | RLoginPost =>
    match parseFormBody r with Some _ => None | None => Some (PostFormValue r (str "token")) end
  | RLanding =>
    if bool_decide (TrimSpace (QueryToken r) = []) then None else Some (TrimSpace (QueryToken r))
  | _ => None
  end.

(** What a request does to the session store, and to the throttle. *)
Definition opsOf (cfg : Config) (p : route) (r : request) (e : env) (s : Server) : list Sessions.op :=
  if maxRequestBodyBytes <? ContentLength r then [] else
  match tokenOf p r with
  | Some token =>
    if sameOrigin r && (Throttle.allow (loginThrottle s) (callerIP cfg r) (at_allow e)).1 then
      match resolveToken cfg token with
      | Some role => [Sessions.OpCreate role (drawnID e) (drawnCSRF e) (at_created e) (at_seen e) (at_sweep e)]
      | None => []
      end
    else []
  | None =>
    match p with
    | RLoginPage | RStatic | RLoginPost => []
    | RLanding =>
      Sessions.OpGet (sessionID r) (at_get e) ::
        match (Sessions.get (sessions s) (sessionID r) (at_get e)).1 with
        | Some _ => [Sessions.OpGet (sessionID r) (at_require e)]
        | None => []
        end
    | _ => [Sessions.OpGet (sessionID r) (at_require e)]
    end
  end.

Definition attemptsOf (cfg : Config) (p : route) (r : request) (e : env) (s : Server) :
    list Throttle.event :=
  match tokenOf p r with
  | None => []
  | Some token =>
    if negb (sameOrigin r) then [] else
    Throttle.Allow (callerIP cfg r) (at_allow e) ::
      if (Throttle.allow (loginThrottle s) (callerIP cfg r) (at_allow e)).1
      then match resolveToken cfg token with Some _ => [Throttle.Reset (callerIP cfg r)] | None => [] end
      else []
  end.

Lemma parseFormBody_refuses r : parseFormBody r <> Some Serve.
Proof. unfold parseFormBody. destruct (negb _); [done|]. by destruct (Body r). Qed.

Lemma require_spec role r now s :
  sessions (require role r now s).2 = (Sessions.get (sessions s) (sessionID r) now).2 /\
  loginThrottle (require role r now s).2 = loginThrottle s /\
  ((require role r now s).1 = Serve <->
   exists sess, (Sessions.get (sessions s) (sessionID r) now).1 = Some sess /\
     roleAllows (Sessions.Role sess) role = true /\ parseFormBody r = None /\ csrfOK r (Some sess) = true).
Proof.
  unfold require. destruct (Sessions.get _ _ _) as [[sess|] store]; simpl.
  2: { split_and!; [done..|split; [done|by intros (? & ? & _)]]. }
  destruct (roleAllows (Sessions.Role sess) role) eqn:Er; simpl.
  2: { split_and!; [done..|split; [done|intros (? & [= <-] & ? & _); congruence]]. }
  destruct (parseFormBody r) as [x|] eqn:Ep; simpl.
  { split_and!; [done..|split; [intros ->; by destruct (parseFormBody_refuses r)|by intros (? & _ & _ & ? & _)]]. }
  destruct (csrfOK r (Some sess)) eqn:Ec; simpl; (split_and!; [done..|split]); try done.
  - intros _. by exists sess.
  - intros (? & [= <-] & _ & _ & ?). congruence.
Qed.

Lemma loginToken_effect cfg r token e s :
  let allowed := Throttle.allow (loginThrottle s) (callerIP cfg r) (at_allow e) in
  let o := loginToken cfg r token e s in
  if negb (sameOrigin r) then o = (Empty StatusForbidden, s) else
  if negb allowed.1 then
    sessions o.2 = sessions s /\ loginThrottle o.2 = allowed.2 /\
    o.1 = RetryAfter (Throttle.retryAfter allowed.2 (callerIP cfg r) (at_retry e) `quot` Second)
  else match resolveToken cfg token with
    | None => sessions o.2 = sessions s /\ loginThrottle o.2 = allowed.2 /\ o.1 = Empty StatusUnauthorized
    | Some role =>
      let c := Sessions.create (sessions s) role (drawnID e) (drawnCSRF e) (at_created e) (at_seen e) (at_sweep e) in
      sessions o.2 = c.2 /\ loginThrottle o.2 = Throttle.reset allowed.2 (callerIP cfg r) /\
      o.1 = match c.1 with
            | Err _ => Text StatusInternalServerError "internal error"
            | Ok sess => LoggedIn (Sessions.ID sess)
            end
    end.
Proof.
  unfold loginToken. destruct (sameOrigin r); simpl; [|done].
  destruct (Throttle.allow _ _ _) as [[] t]; simpl; [|done].
  destruct (resolveToken cfg token) as [role|]; simpl; [|done].
  destruct (Sessions.create _ _ _ _ _ _ _) as [[sess|err] store]; done.
Qed.

Lemma Handler_login cfg p r e s token : tokenOf p r = Some token ->
  Handler cfg p e r s = loginToken cfg r token e s.
Proof.
  unfold tokenOf, Handler, boundBody. destruct (_ <? _); [done|].
  destruct p; try done.
  - unfold loginPost. destruct (parseFormBody r); [done|]. by intros [= ->].
  - unfold landing. case_bool_decide; [done|]. by intros [= ->].
Qed.

Lemma step_sessions cfg p r e s :
  sessions (Handler cfg p e r s).2 = Sessions.orun (sessions s) (opsOf cfg p r e s).
Proof.
  destruct (tokenOf p r) as [token|] eqn:Et.
  - rewrite (Handler_login _ _ _ _ _ _ Et). pose proof (loginToken_effect cfg r token e s) as H.
    unfold opsOf. rewrite Et. unfold tokenOf in Et. destruct (_ <? _); [done|]. simpl in H.
    destruct (sameOrigin r); simpl in *; [|by rewrite H].
    destruct (Throttle.allow _ _ _).1; simpl in *; [|apply H].
    destruct (resolveToken cfg token); apply H.
  - unfold opsOf. rewrite Et. unfold tokenOf in Et. unfold Handler, boundBody.
    destruct (_ <? _); [done|]. destruct p; try done; try apply require_spec.
    + unfold loginPost. by destruct (parseFormBody r).
    + unfold landing. case_bool_decide; [|done]. simpl.
      destruct (Sessions.get (sessions s) (sessionID r) (at_get e)) as [[sess|] store]; simpl; [|done].
      apply (require_spec RoleViewer r (at_require e) (withSessions s store)).
Qed.

Lemma step_throttle cfg p r e s :
  loginThrottle (Handler cfg p e r s).2 = Throttle.run (loginThrottle s) (attemptsOf cfg p r e s).
Proof.
  unfold attemptsOf. destruct (tokenOf p r) as [token|] eqn:Et.
  - rewrite (Handler_login _ _ _ _ _ _ Et). pose proof (loginToken_effect cfg r token e s) as H. simpl in H.
    destruct (sameOrigin r); simpl in *; [|by rewrite H].
    destruct (Throttle.allow _ _ _) as [[] t]; simpl in *; [|apply H].
    destruct (resolveToken cfg token); apply H.
  - unfold tokenOf in Et. unfold Handler, boundBody.
    destruct (_ <? _); [done|]. destruct p; try done; try apply require_spec.
    + unfold loginPost. by destruct (parseFormBody r).
    + unfold landing. case_bool_decide; [|done]. simpl.
      destruct (Sessions.get _ _ _) as [[sess|] store]; simpl; [|done].
      apply (require_spec RoleViewer r (at_require e) (withSessions s store)).
Qed.

(** The whole history's operations on the store, and its login attempts. *)
Fixpoint storeOps (cfg : Config) (s : Server) (es : list event) : list Sessions.op :=
  match es with
  | [] => []
  | ev :: es =>
    match ev with Req p r e => opsOf cfg p r e s | Inner o => [o] end ++ storeOps cfg (step cfg s ev) es
  end.

Fixpoint attempts (cfg : Config) (s : Server) (es : list event) : list Throttle.event :=
  match es with
  | [] => []
  | ev :: es =>
    match ev with Req p r e => attemptsOf cfg p r e s | Inner _ => [] end ++ attempts cfg (step cfg s ev) es
  end.

Lemma run_sessions cfg es : forall s,
  sessions (run cfg s es) = Sessions.orun (sessions s) (storeOps cfg s es).
Proof.
  unfold Sessions.orun. induction es as [|ev es IH]; intros s; simpl; [done|].
  rewrite IH, foldl_app. f_equal. destruct ev as [p r e|o]; simpl; [|done].
  apply step_sessions.
Qed.

Lemma run_throttle cfg es : forall s,
  loginThrottle (run cfg s es) = Throttle.run (loginThrottle s) (attempts cfg s es).
Proof.
  unfold Throttle.run. induction es as [|ev es IH]; intros s; simpl; [done|].
  rewrite IH, foldl_app. f_equal. destruct ev as [p r e|o]; simpl; [|done].
  apply step_throttle.
Qed.

Lemma storeOps_app cfg es es' : forall s,
  storeOps cfg s (es ++ es') = storeOps cfg s es ++ storeOps cfg (run cfg s es) es'.
Proof.
  induction es as [|ev es IH]; intros s; simpl; [done|]. by rewrite IH, app_assoc.
Qed.

Lemma forward_weaken from from' os : from <= from' ->
  Sessions.forward from' os -> Sessions.forward from os.
Proof.
  revert from from'. induction os as [|[] os IH]; simpl; intros from from' Hle H; try done;
    try (by apply (IH from from')); destruct_and?; split_and?; lia || done.
Qed.

Lemma opsOf_forward cfg p r e s from os :
  from <= at_created e -> at_created e <= at_seen e -> at_seen e <= at_sweep e -> from <= at_get e ->
  at_sweep e <= at_get e -> at_get e <= at_require e ->
  Sessions.forward (at_require e) os -> Sessions.forward from (opsOf cfg p r e s ++ os).
Proof.
  intros ? ? ? ? ? ? H. unfold opsOf.
  repeat match goal with
  | |- context[if ?b then _ else _] => destruct b
  | |- context[match ?x with Some _ => _ | None => _ end] => destruct x
  | |- context[match ?x with RLoginPage => _ | _ => _ end] => destruct x
  end; simpl; split_and?; try lia; try done; (eapply forward_weaken; [|exact H]; lia).
Qed.

Lemma storeOps_forward cfg es es' : forall s from, ordered from (es ++ es') ->
  exists now, from <= now /\ ordered now es' /\
    (forall os, Sessions.forward now os -> Sessions.forward from (storeOps cfg s es ++ os)).
Proof.
  induction es as [|ev es IH]; intros s from Ho; simpl; [by exists from|].
  destruct ev as [p r e|o].
  - simpl in Ho. destruct Ho as [Hle Ho].
    destruct (IH (step cfg s (Req p r e)) _ Ho) as (now & Hn & Ho' & H).
    exists now. split_and!; [lia|done|]. intros os Hos. rewrite <- app_assoc.
    apply opsOf_forward; [lia..|]. by apply H.
  - assert (exists n, from <= n /\ ordered n (es ++ es') /\
      (forall os, Sessions.forward n os -> Sessions.forward from (o :: os))) as (n & Hn & Ho' & Hf).
    { destruct o as [?|id n|id d x y n|id d|id d|id d]; simpl in Ho; [done| | |exists from..]; try done;
        (destruct Ho; exists n; split_and!; done). }
    destruct (IH (step cfg s (Inner o)) n Ho') as (now & Hn' & Ho2 & H).
    exists now. split_and!; [lia|done|]. intros os Hos. by apply Hf, H.
Qed.

(** The store and the grants of a history. *)
Lemma run_stands cfg from es es' : ordered from (es ++ es') ->
  exists now, from <= now /\ ordered now es' /\
    Sessions.stands now (sessions (run cfg New es)) (Sessions.grun (storeOps cfg New es)).
Proof.
  intros Ho. destruct (storeOps_forward cfg es es' New from Ho) as (now & Hn & Ho' & Hf).
  specialize (Hf [Sessions.OpGet [] now] ltac:(simpl; lia)).
  rewrite run_sessions.
  destruct (Sessions.orun_stands (storeOps cfg New es) [Sessions.OpGet [] now] from Sessions.newSessions ∅
    (Sessions.stands_new _ _) Hf) as (n & Hs & Hfn & Hnn & _).
  exists now. split_and!; [done|done|]. by apply (Sessions.stands_later n).
Qed.

(** The operation of a history is one of its requests' or its handlers'. *)
Lemma storeOps_split cfg es : forall s os1 o os2, storeOps cfg s es = os1 ++ o :: os2 ->
  exists es1 ev es2 a b, es = es1 ++ ev :: es2 /\
    match ev with Req p r e => opsOf cfg p r e (run cfg s es1) | Inner o => [o] end = a ++ o :: b /\
    os2 = b ++ storeOps cfg (run cfg s (es1 ++ [ev])) es2.
Proof.
  induction es as [|ev es IH]; intros s os1 o os2; simpl; [by destruct os1|].
  set (ops := match ev with Req p r e => opsOf cfg p r e s | Inner o => [o] end). intros E.
  apply app_eq_inv in E as [(k & E1 & E2)|(k & E1 & E2)].
  - destruct k as [|o' k].
    + destruct (IH _ [] o os2 (eq_sym E2)) as (es1 & ev' & es2 & a & b & -> & Ha & Hb).
      exists (ev :: es1), ev', es2, a, b. done.
    + simpl in E2. injection E2 as <- ->. exists [], ev, es, os1, k. done.
  - destruct (IH _ k o os2 E2) as (es1 & ev' & es2 & a & b & -> & Ha & Hb).
    exists (ev :: es1), ev', es2, a, b. done.
Qed.

(** A request that creates a session is a login. *)
Lemma opsOf_create cfg p r e s a b role d1 d2 cr se n :
  opsOf cfg p r e s = a ++ Sessions.OpCreate role d1 d2 cr se n :: b ->
  exists token, tokenOf p r = Some token /\ sameOrigin r = true /\ resolveToken cfg token = Some role /\
    d1 = drawnID e /\ d2 = drawnCSRF e /\ cr = at_created e /\ se = at_seen e /\ b = [] /\
    (forall id csrf, Sessions.randomHex d1 = Ok id -> Sessions.randomHex d2 = Ok csrf ->
       (Handler cfg p e r s).1 = LoggedIn id).
Proof.
  unfold opsOf. destruct (_ <? _); [by destruct a|].
  destruct (tokenOf p r) as [token|] eqn:Et.
  - destruct (sameOrigin r) eqn:Eo; [|by destruct a].
    destruct (Throttle.allow _ _ _).1 eqn:Ea; [|by destruct a]. simpl.
    destruct (resolveToken cfg token) as [role'|] eqn:Er; [|by destruct a].
    destruct a as [|? [|]]; simpl; [|done|done]. intros [= -> <- <- <- <- <- <-].
    exists token. split_and!; try done. intros id csrf H1 H2.
    rewrite (Handler_login _ _ _ _ _ _ Et). pose proof (loginToken_effect cfg r token e s) as H. simpl in H.
    rewrite Eo, Ea, Er in H. simpl in H. destruct H as (_ & _ & ->).
    unfold Sessions.create. by rewrite H1, H2.
  - destruct p; simpl; try (by destruct a); try (by destruct a as [|? []]).
    destruct (Sessions.get _ _ _).1; by destruct a as [|? [|? []]].
Qed.

Definition requiredRole (p : route) : option bytes :=
  match p with
  | RLanding | RObjects | RPermalink | RDump | ROther => Some RoleViewer
  | RVerifyAll | RVerify => Some RoleOperator
  | _ => None
  end.

(** When a request that is served first looks its session up. *)
Definition arrives (p : route) (e : env) : Z :=
  match p with RLanding => at_get e | _ => at_require e end.

Lemma get_again s id n m x :
  (Sessions.get (Sessions.get s id n).2 id m).1 = Some x ->
  exists y, (Sessions.get s id n).1 = Some y /\ Sessions.Role x = Sessions.Role y /\ Sessions.CSRF x = Sessions.CSRF y.
Proof.
  unfold Sessions.get at 2 3. destruct (Sessions.byID s !! id) as [sess|] eqn:E.
  - destruct (Sessions.expiredLocked sess n); simpl.
    + unfold Sessions.get. simpl. by rewrite lookup_delete_eq.
    + unfold Sessions.get. simpl. rewrite lookup_insert_eq.
      destruct (Sessions.expiredLocked _ m); [done|]. intros [= <-]. by eexists.
  - unfold Sessions.get. simpl. by rewrite E.
Qed.

Lemma login_not_served cfg r token e s : (loginToken cfg r token e s).1 <> Serve.
Proof.
  unfold loginToken. destruct (sameOrigin r); [|done]. simpl.
  destruct (Throttle.allow _ _ _) as [[] t]; [|done]. simpl.
  destruct (resolveToken cfg token); [|done].
  by destruct (Sessions.create _ _ _ _ _ _ _) as [[] ?].
Qed.

Lemma csrfOK_same r x y : Sessions.CSRF x = Sessions.CSRF y -> csrfOK r (Some x) = csrfOK r (Some y).
Proof. unfold csrfOK. by intros ->. Qed.

Lemma served_lookup cfg p r e s : (Handler cfg p e r s).1 = Serve ->
  exists role sess, requiredRole p = Some role /\
    (Sessions.get (sessions s) (sessionID r) (arrives p e)).1 = Some sess /\
    roleAllows (Sessions.Role sess) role = true /\ csrfOK r (Some sess) = true.
Proof.
  unfold Handler, boundBody. destruct (_ <? _); [done|]. unfold arrives.
  destruct p; simpl; try done;
    try (intros (sess & ? & ? & _ & ?)%(require_spec _ r (at_require e) s); by eexists _, sess).
  - unfold loginPost. destruct (parseFormBody r) as [x|] eqn:Ep; [|intros []%login_not_served].
    simpl. intros ->. by destruct (parseFormBody_refuses r).
  - unfold landing. case_bool_decide; simpl; [|intros []%login_not_served].
    destruct (Sessions.get (sessions s) (sessionID r) (at_get e)) as [[sess|] store] eqn:Eg; [|done].
    intros (x & Hx & Hr & _ & Hc)%require_spec. simpl in Hx.
    assert (store = (Sessions.get (sessions s) (sessionID r) (at_get e)).2) as -> by (by rewrite Eg).
    destruct (get_again _ _ _ _ _ Hx) as (y & Hy & Hyr & Hyc). rewrite Eg in Hy. simpl in Hy.
    injection Hy as <-. exists RoleViewer, sess. rewrite <- Hyr, <- (csrfOK_same r x sess) by done.
    by rewrite Eg.
Qed.

Lemma csrfOK_post r sess : isPost r = true -> csrfOK r (Some sess) = true ->
  PostFormValue r (str "csrf") = Sessions.CSRF sess \/ XCSRFToken r = Sessions.CSRF sess.
Proof.
  unfold csrfOK. intros ->. simpl. unfold ConstantTimeCompare.
  case_bool_decide; destruct (decide _); simpl; auto; done.
Qed.

(** C15. Nothing is served without a login.  In any history, a request that reaches a
    handler of the viewer was preceded by a login, from the viewer's own origin, with a token
    that is the startup token or a configured one and whose role suffices for the route; that login
    issued the session the request names, at most eight hours before, and the session was issued or
    looked up at most half an hour before; a POST carries that login's CSRF token, in its body or its
    header; and its body was within the bound. *)
Theorem web_authorized cfg from es p r e :
  ordered from (es ++ [Req p r e]) ->
  (Handler cfg p e r (run cfg New es)).1 = Serve ->
  ContentLength r <= maxRequestBodyBytes /\
  exists es1 p0 r0 e0 es2 token role0 role csrf seen,
    es = es1 ++ Req p0 r0 e0 :: es2 /\
    tokenOf p0 r0 = Some token /\ sameOrigin r0 = true /\ resolveToken cfg token = Some role0 /\
    (Handler cfg p0 e0 r0 (run cfg New es1)).1 = LoggedIn (sessionID r) /\
    requiredRole p = Some role /\ roleRank role <= roleRank role0 /\
    arrives p e - at_created e0 <= Sessions.maxLifetime /\
    arrives p e - seen <= Sessions.idleTimeout /\
    (seen = at_seen e0 \/
     Sessions.OpGet (sessionID r) seen ∈ storeOps cfg (run cfg New (es1 ++ [Req p0 r0 e0])) es2) /\
    (isPost r = true -> Sessions.randomHex (drawnCSRF e0) = Ok csrf /\
       (PostFormValue r (str "csrf") = csrf \/ XCSRFToken r = csrf)).
Proof.
  intros Ho Hserve. split.
  { unfold Handler, boundBody in Hserve. destruct (Z.ltb_spec maxRequestBodyBytes (ContentLength r)); [done|lia]. }
  destruct (run_stands cfg from es [Req p r e] Ho) as (now & Hn & [Hclk _] & Hst).
  destruct (served_lookup _ _ _ _ _ Hserve) as (role & sess & Hrole & Hget & Hallow & Hcsrf).
  apply (Sessions.stands_later now (arrives p e)) in Hst; [|unfold arrives; destruct p; lia].
  destruct (Sessions.stands_get _ _ _ (sessionID r) Hst) as (Hg & _ & _). rewrite Hget in Hg. simpl in Hg.
  unfold Sessions.gget in Hg. destruct (Sessions.grun _ !! sessionID r) as [g|] eqn:Eg; [|done].
  destruct (Sessions.lapsed g (arrives p e)) eqn:El; [done|]. simpl in Hg. injection Hg as Hgr Hgc _ _.
  apply Sessions.grun_comesFrom in Eg as (os1 & d1 & d2 & se & n & os2 & Hos & Hd1 & Hd2 & Hseen).
  apply storeOps_split in Hos as (es1 & ev & es2 & a & b & -> & Hev & ->).
  rewrite <- app_assoc in Ho. simpl in Ho.
  destruct (storeOps_forward cfg es1 _ New from Ho) as (n1 & _ & Ho1 & _).
  destruct ev as [p0 r0 e0|o].
  2: { destruct a as [|? []]; simplify_eq Hev; intros; subst; done. }
  apply opsOf_create in Hev as (token & Ht & Hso & Hres & -> & -> & Hcr & -> & -> & Hlogin).
  unfold Sessions.lapsed in El. apply orb_false_iff in El as [H1%Z.ltb_ge H2%Z.ltb_ge].
  exists es1, p0, r0, e0, es2, token, (Sessions.g_role g), role, (Sessions.CSRF sess), (Sessions.g_seen g).
  apply Z.leb_le in Hallow. rewrite Hgr in Hallow. rewrite <- Hcr.
  split_and!; try done.
  - by eapply Hlogin.
  - unfold Sub, Sessions.maxLifetime, Hour, Minute, Second, MaxInt64 in *. lia.
  - unfold Sub, Sessions.idleTimeout, Minute, Second, MaxInt64 in *. lia.
  - intros Hpost. rewrite Hgc. split; [done|]. rewrite <- Hgc. by apply csrfOK_post.
Qed.

(** ** Guessing a token *)

(** The instants of the refused tokens of [ip], newest first, since its last
    accepted one. *)
Fixpoint failures (cfg : Config) (ip : bytes) (s : Server) (es : list event) (acc : list Z) : list Z :=
  match es with
  | [] => acc
  | ev :: es =>
    failures cfg ip (step cfg s ev) es
      match ev with
      | Req p r e =>
        match tokenOf p r with
        | None => acc
        | Some _ =>
          if decide (callerIP cfg r = ip) then
            match (Handler cfg p e r s).1 with
            | Empty 401 => at_allow e :: acc
            | LoggedIn _ | Text _ _ => []
            | _ => acc
            end
          else acc
        end
      | Inner _ => acc
      end
  end.

(** They are the attempts the throttle admitted. *)
Lemma failures_grants cfg ip es : forall s acc,
  failures cfg ip s es acc = Throttle.grants ip (loginThrottle s) (attempts cfg s es) acc.
Proof.
  induction es as [|ev es IH]; intros s acc; [done|]. cbn [failures attempts].
  destruct ev as [p r e|o]; [|apply IH].
  rewrite Throttle.grants_app, <- step_throttle, IH. f_equal. clear IH. unfold attemptsOf.
  destruct (tokenOf p r) as [token|] eqn:Et; [|done].
  rewrite (Handler_login _ _ _ _ _ _ Et). pose proof (loginToken_effect cfg r token e s) as H. simpl in H.
  destruct (sameOrigin r); simpl in H |- *; [|rewrite H; simpl; by destruct (decide _)].
  destruct (Throttle.allow (loginThrottle s) (callerIP cfg r) (at_allow e)).1 eqn:Ea; simpl in H |- *.
  - destruct (resolveToken cfg token) as [role|]; simpl; destruct H as (_ & _ & ->); rewrite ?Ea.
    + destruct (decide _) as [|]; [|done]. by destruct (Sessions.create _ _ _ _ _ _ _).1.
    + by destruct (decide _).
  - destruct H as (_ & _ & ->). simpl. by destruct (decide _).
Qed.

Lemma throttle_monotone_weaken a b ts : a <= b -> Throttle.monotone b ts -> Throttle.monotone a ts.
Proof.
  revert a b. induction ts as [|[] ts IH]; simpl; intros a b Hle H; [done|destruct H; split; [lia|done]|].
  by apply (IH a b).
Qed.

Lemma attempts_monotone cfg es : forall s from, ordered from es -> Throttle.monotone from (attempts cfg s es).
Proof.
  induction es as [|ev es IH]; intros s from Ho; [done|]. cbn [attempts].
  destruct ev as [p r e|o].
  - simpl in Ho. destruct Ho as [Hle Ho].
    pose proof (IH (step cfg s (Req p r e)) _ Ho) as Hm.
    apply (throttle_monotone_weaken (at_allow e)) in Hm; [|lia].
    unfold attemptsOf. destruct (tokenOf p r); simpl; [|by apply (throttle_monotone_weaken _ (at_allow e)); [lia|]].
    destruct (sameOrigin r); simpl; [|by apply (throttle_monotone_weaken _ (at_allow e)); [lia|]].
    split; [lia|]. destruct (Throttle.allow _ _ _).1; [|done].
    by destruct (resolveToken _ _).
  - simpl. destruct o as [?|? n|? ? ? ? n|? ?|? ?|? ?]; simpl in Ho; try done; try (by apply IH);
      destruct Ho as [Hle Ho]; apply (throttle_monotone_weaken _ n); try done; by apply IH.
Qed.

(** C16. No one guesses tokens at speed.  In any history, whatever tokens are
    presented from whatever requests, a caller address has at most five of them refused
    within any minute since its last accepted token; the others get no answer
    about their token, and requests that are not from the viewer's own origin count
    for nothing. *)
Theorem web_guesses_bounded cfg ip es T : ordered zeroTime es ->
  blen (filter (fun t => T - Minute < t <= T) (failures cfg ip New es [])) <= 5.
Proof.
  intros Ho. rewrite failures_grants.
  apply (Throttle.throttle_window_bound 5 Minute); [lia|by vm_compute|].
  by apply attempts_monotone.
Qed.

(** A login that is answered with a session has created it. *)
Lemma login_created cfg p r e s id : (Handler cfg p e r s).1 = LoggedIn id ->
  exists token role csrf, tokenOf p r = Some token /\ resolveToken cfg token = Some role /\
    Sessions.randomHex (drawnID e) = Ok id /\ Sessions.randomHex (drawnCSRF e) = Ok csrf /\
    opsOf cfg p r e s =
      [Sessions.OpCreate role (drawnID e) (drawnCSRF e) (at_created e) (at_seen e) (at_sweep e)].
Proof.
  intros Hr. destruct (tokenOf p r) as [token|] eqn:Et.
  - rewrite (Handler_login _ _ _ _ _ _ Et) in Hr. pose proof (loginToken_effect cfg r token e s) as H. simpl in H.
    unfold opsOf. rewrite Et. unfold tokenOf in Et. destruct (_ <? _); [done|].
    destruct (sameOrigin r); simpl in *; [|by rewrite H in Hr].
    destruct (Throttle.allow _ _ _).1; simpl in *; [|destruct H as (_ & _ & H); by rewrite H in Hr].
    destruct (resolveToken cfg token) as [role|] eqn:Er; [|destruct H as (_ & _ & H); by rewrite H in Hr].
    destruct H as (_ & _ & H). rewrite H in Hr. unfold Sessions.create in Hr.
    destruct (Sessions.randomHex (drawnID e)) as [i|]; [|done].
    destruct (Sessions.randomHex (drawnCSRF e)) as [x|]; [|done]. injection Hr as <-.
    by exists token, role, x.
  - exfalso. unfold tokenOf in Et. revert Hr. unfold Handler, boundBody.
    assert (Hreq : forall role now s, (require role r now s).1 <> LoggedIn id).
    { intros role now s0. unfold require. destruct (Sessions.get _ _ _) as [[sess|] ?]; [|done].
      destruct (roleAllows _ _); [|done]. simpl. unfold parseFormBody.
      destruct (isPost r); simpl; [|by destruct (csrfOK _ _)].
      destruct (Body r); [by destruct (csrfOK _ _)|done..]. }
    destruct (_ <? _); [done|]. destruct p; try done; try apply Hreq.
    + unfold loginPost. destruct (parseFormBody r) as [x|] eqn:Ep; [|done]. simpl. intros ->.
      unfold parseFormBody in Ep. destruct (negb _); [done|]. by destruct (Body r).
    + unfold landing. case_bool_decide; [|done]. simpl.
      destruct (Sessions.get _ _ _) as [[sess|] ?]; [apply Hreq|done].
Qed.

(** A later request issues the id again. *)
Definition reissues (id : bytes) (ev : event) : bool :=
  match ev with
  | Req _ _ e => bool_decide (Sessions.randomHex (drawnID e) = Ok id)
  | Inner _ => false
  end.

Lemma storeOps_keep cfg id es : Forall (fun ev => reissues id ev = false) es -> forall s from,
  ordered from es ->
  Forall (fun o => match o with
    Sessions.OpCreate _ d1 _ _ _ _ => Sessions.randomHex d1 <> Ok id | _ => True end) (storeOps cfg s es).
Proof.
  induction 1 as [|ev es Hev _ IH]; intros s from Ho; [constructor|]. cbn [storeOps].
  apply list.Forall_app. split.
  - destruct ev as [p r e|o].
    + simpl in Hev. apply bool_decide_eq_false in Hev. unfold opsOf.
      repeat match goal with
      | |- context[if ?b then _ else _] => destruct b
      | |- context[match ?x with Some _ => _ | None => _ end] => destruct x
      | |- context[match ?x with RLoginPage => _ | _ => _ end] => destruct x
      end; repeat constructor; done.
    + apply list.Forall_singleton. by destruct o.
  - destruct ev as [p r e|o]; [simpl in Ho; destruct Ho as [_ Ho]; by apply (IH _ (at_require e))|].
    destruct o as [?|? n|? ? ? ? n|? ?|? ?|? ?]; simpl in Ho; try done; try (by apply (IH _ from));
      destruct Ho as [_ Ho]; by apply (IH _ n).
Qed.

(** And a login is good for what it promises.  A login that was answered
    with a session lets every later request of that session through, whatever happened in between (short
    of the same random id being issued again): within half an hour of the login, on
    every route its role suffices for, with a body that parses within the bound and, for a POST, the login's
    CSRF token. *)
Theorem web_login_serves cfg from es1 p0 r0 e0 es2 p r e role :
  ordered from (es1 ++ Req p0 r0 e0 :: es2 ++ [Req p r e]) ->
  (Handler cfg p0 e0 r0 (run cfg New es1)).1 = LoggedIn (sessionID r) ->
  Forall (fun ev => reissues (sessionID r) ev = false) es2 ->
  at_require e - at_created e0 <= Sessions.idleTimeout ->
  ContentLength r <= maxRequestBodyBytes -> parseFormBody r = None ->
  requiredRole p = Some role -> p <> RLanding ->
  (exists token role0, tokenOf p0 r0 = Some token /\ resolveToken cfg token = Some role0 /\
     roleRank role <= roleRank role0) ->
  (isPost r = true -> Sessions.randomHex (drawnCSRF e0) = Ok (PostFormValue r (str "csrf")) /\
     PostFormValue r (str "csrf") <> []) ->
  (Handler cfg p e r (run cfg New (es1 ++ Req p0 r0 e0 :: es2))).1 = Serve.
Proof.
  intros Ho Hlogin Hre Htime Hlen Hform Hrole Hp (token & role0 & Htok & Hres & Hrank) Hcsrf.
  destruct (login_created _ _ _ _ _ _ Hlogin) as (token' & role' & csrf & Ht' & Hr' & Hd1 & Hd2 & Hops).
  rewrite Htok in Ht'. injection Ht' as <-. rewrite Hres in Hr'. injection Hr' as <-.
  assert (Hreq : Handler cfg p e r (run cfg New (es1 ++ Req p0 r0 e0 :: es2)) =
    require role r (at_require e) (run cfg New (es1 ++ Req p0 r0 e0 :: es2))).
  { unfold Handler, boundBody. destruct (Z.ltb_spec maxRequestBodyBytes (ContentLength r)); [lia|].
    destruct p; simplify_eq/=; done. }
  rewrite Hreq. apply require_spec. clear Hreq.
  replace (es1 ++ Req p0 r0 e0 :: es2 ++ [Req p r e]) with ((es1 ++ Req p0 r0 e0 :: es2) ++ [Req p r e]) in Ho
    by (by rewrite <- app_assoc).
  destruct (run_stands cfg from _ _ Ho) as (now & Hn & [Hclk _] & Hst).
  apply (Sessions.stands_later now (at_require e)) in Hst; [|lia].
  rewrite <- app_assoc in Ho. simpl in Ho.
  destruct (storeOps_forward cfg es1 _ New from Ho) as (n1 & _ & [Hclk0 Ho2] & _).
  destruct (storeOps_forward cfg es2 _ (run cfg New (es1 ++ [Req p0 r0 e0])) _ Ho2) as (n2 & _ & _ & Hfwd).
  specialize (Hfwd [] I). rewrite app_nil_r in Hfwd.
  assert (Hord2 : exists f, ordered f es2).
  { exists (at_require e0). clear -Ho2. revert Ho2. generalize (at_require e0).
    induction es2 as [|[|[]] es2 IH]; simpl; intros z H; try done; try (by apply IH);
      (destruct H; split; [done|by apply IH]). }
  destruct Hord2 as [f Hord2].
  set (g0 := {| Sessions.g_role := role0; Sessions.g_csrf := csrf;
                Sessions.g_created := at_created e0; Sessions.g_seen := at_seen e0 |}).
  assert (Hg : exists g, Sessions.grun (storeOps cfg New (es1 ++ Req p0 r0 e0 :: es2)) !! sessionID r = Some g /\
    Sessions.g_role g = role0 /\ Sessions.g_csrf g = csrf /\ Sessions.g_created g = at_created e0 /\
    at_seen e0 <= Sessions.g_seen g).
  { rewrite storeOps_app. cbn [storeOps]. rewrite Hops. unfold Sessions.grun. rewrite foldl_app. cbn [app foldl].
    set (gs := foldl Sessions.gstep ∅ (storeOps cfg New es1)).
    assert (Hstep : Sessions.gstep gs (Sessions.OpCreate role0 (drawnID e0) (drawnCSRF e0) (at_created e0)
      (at_seen e0) (at_sweep e0)) = <[sessionID r := g0]> gs) by (simpl; by rewrite Hd1, Hd2).
    rewrite Hstep.
    pose proof (storeOps_keep cfg (sessionID r) es2 Hre (step cfg (run cfg New es1) (Req p0 r0 e0)) f Hord2) as Hk.
    destruct (Sessions.grant_kept _ _ Hk (<[sessionID r := g0]> gs) g0 (at_require e0))
      as (g & ? & ? & ? & ? & ?); [by rewrite lookup_insert_eq|simpl; lia| |by exists g].
    replace (step cfg (run cfg New es1) (Req p0 r0 e0)) with (run cfg New (es1 ++ [Req p0 r0 e0])); [done|].
    unfold run. by rewrite foldl_app. }
  destruct Hg as (g & Hg & Hgr & Hgc & Hgcr & Hgs).
  destruct (Sessions.stands_get _ _ _ (sessionID r) Hst) as (Hget & _ & _).
  unfold Sessions.gget in Hget. rewrite Hg in Hget.
  assert (Hlapse : Sessions.lapsed g (at_require e) = false).
  { unfold Sessions.lapsed. apply orb_false_iff. rewrite !Z.ltb_ge.
    unfold Sub, Sessions.idleTimeout, Sessions.maxLifetime, Hour, Minute, Second, MaxInt64 in *. lia. }
  rewrite Hlapse in Hget. simpl in Hget.
  destruct (Sessions.get _ _ _).1 as [sess|]; [|done]. simpl in Hget. injection Hget as H1 H2 _ _.
  exists sess. split_and!; [done| |done|].
  - unfold roleAllows. rewrite H1, Hgr. by apply Z.leb_le.
  - unfold csrfOK. destruct (isPost r); [|done]. destruct (Hcsrf eq_refl) as [Hx Hne]. simpl.
    rewrite bool_decide_false by done. rewrite H2, Hgc. rewrite Hd2 in Hx. injection Hx as ->.
    unfold ConstantTimeCompare. by rewrite decide_True.
Qed.

(** The configured tokens are keyed by token: where the field's comment says that it maps role names to
    bearer tokens, a map written that way makes the role's name the token. *)
Theorem roleTokens_by_token :
  resolveToken {| StartupToken := str "secret"; RoleTokens := {[ RoleViewer := str "t0ken" ]}; trusted := None |}
    RoleViewer = Some (str "t0ken") /\ roleRank (str "t0ken") = 0.
Proof. by vm_compute. Qed.

(** The order in which the map is ranged over does not matter. *)
Lemma resolveToken_lookup cfg token : token <> [] -> token <> StartupToken cfg ->
  resolveToken cfg token = RoleTokens cfg !! token.
Proof.
  intros Hne Hst. unfold resolveToken. rewrite bool_decide_false by done.
  unfold ConstantTimeCompare at 1. rewrite decide_False by done. simpl.
  assert (H : forall l, NoDup l.*1 -> matchToken l token = list_to_map (M := gmap bytes bytes) l !! token).
  { induction l as [|[tok role] l IH]; simpl; intros Hnd; [by rewrite lookup_empty|].
    apply list.NoDup_cons in Hnd as [_ Hnd]. unfold ConstantTimeCompare.
    destruct (decide (tok = token)) as [->|Hd]; simpl.
    - by rewrite lookup_insert_eq.
    - rewrite lookup_insert_ne by done. by apply IH. }
  rewrite H by apply NoDup_fst_map_to_list. by rewrite list_to_map_to_list.
Qed.

End auth.

(** ** A concrete viewer *)

Definition textHost (origin : bytes) : option bytes := stripPrefix (str "https://") origin.

Definition viewer : Config :=
  {| StartupToken := str "secret"; RoleTokens := {[ str "peek" := RoleViewer ]};
     trusted := Some Proxy.proxies |}.

Definition reads (t : Z) (id csrf : bytes) : env :=
  {| at_allow := t; at_retry := t; at_created := t; at_seen := t; at_sweep := t; at_get := t;
     at_require := t; drawnID := Ok id; drawnCSRF := Ok csrf |}.

Definition post (site : string) (cookie : option bytes) (fields : list (bytes * bytes)) : request :=
  {| Method := str "POST"; Cookie := cookie; SecFetchSite := str site; Origin := []; Host := str "v";
     XCSRFToken := []; QueryToken := []; ContentLength := 20; Body := Form fields;
     From := Proxy.forged |}.

(** A cross-site flood, a wrong token, the login, and the sweep it may start. *)
Definition crossSite : event :=
  Req RLoginPost (post "cross-site" None [(str "token", str "secret")]) (reads Second [x01] [x02]).
Definition wrongToken (t : Z) : event :=
  Req RLoginPost (post "same-origin" None [(str "token", str "guess")]) (reads t [x03] [x04]).
Definition loginRequest : request := post "same-origin" None [(str "token", str "secret")].
Definition loginEnv : env := reads (10 * Second) [x0a] [x0b].
Definition verifyRequest : request := post "same-origin" (Some (str "0a")) [(str "csrf", str "0b")].

Definition before : list event := [crossSite; wrongToken (2 * Second); wrongToken (3 * Second)].
Definition morning : list event := before ++ [Req RLoginPost loginRequest loginEnv].

Example web_authorized_witness :
  let e := reads (25 * Minute) [] [] in
  (Handler textHost viewer RVerifyAll e verifyRequest (run textHost viewer New morning)).1 = Serve /\
  ContentLength verifyRequest <= maxRequestBodyBytes.
Proof.
  split; [by vm_compute|].
  apply (web_authorized textHost viewer zeroTime morning RVerifyAll verifyRequest (reads (25 * Minute) [] []));
    [apply (bool_decide_unpack _)|]; by vm_compute.
Defined.

Example web_guesses_bounded_witness :
  let es := map (fun n => wrongToken (Z.of_nat n * Second)) (seq 1 9) in
  length (failures textHost viewer (str "9.9.9.9") New es []) = 5%nat /\
  blen (filter (fun t => Minute - Minute < t <= Minute) (failures textHost viewer (str "9.9.9.9") New es [])) <= 5.
Proof.
  split; [by vm_compute|]. apply (web_guesses_bounded textHost viewer).
  apply (bool_decide_unpack _). by vm_compute.
Defined.

Example web_login_serves_witness :
  (Handler textHost viewer RVerifyAll (reads (25 * Minute) [] []) verifyRequest
    (run textHost viewer New (before ++ Req RLoginPost loginRequest loginEnv :: [wrongToken Minute]))).1 = Serve.
Proof.
  apply (web_login_serves textHost viewer zeroTime before RLoginPost loginRequest loginEnv [wrongToken Minute]
    RVerifyAll verifyRequest (reads (25 * Minute) [] []) RoleOperator).
  - apply (bool_decide_unpack _). by vm_compute.
  - by vm_compute.
  - by repeat constructor.
  - by vm_compute.
  - by vm_compute.
  - done.
  - done.
  - done.
  - exists (str "secret"), RoleAdmin. split_and!; by vm_compute.
  - intros _. split; [by vm_compute|done].
Defined.

End Auth.
