(* ===== verification/Index.v ===== *)
(** The listing helpers that the command line and the web view share
    (src/internal/index/index.go): pages, the best-effort header of an object and
    the metadata snapshot of a store, over any backend that can stat. *)

From S2P Require Import Prelude Digest Binary Stream Envelope Backend Store MemBackend Repo Wp.

Module Index.

(** [hi] is an int: a sum past it is negative, which the guard catches. *)
Definition Paginate {A} (items : list A) (offset limit : Z) : list A :=
  let offset := if offset <? 0 then 0 else offset in
  if (blen items <=? offset) || (limit <=? 0) then [] else
  let hi := int64 (offset + limit) in
  let hi := if (blen items <? hi) || (hi <? offset) then blen items else hi in
  take (Z.to_nat (hi - offset)) (drop (Z.to_nat offset) items).

Definition EnvelopeType (data : bytes) : bytes :=
  match Envelope.EnvelopeType data with Ok typ => typ | Err _ => [] end.

(** [errors.Unwrap] and the multi-error's, over the whole tree. *)
Fixpoint onlyCorrupt (e : error) : bool :=
  (errIs e ErrCorrupt || errIs e EOF || errIs e ErrUnexpectedEOF) &&
  match e with
  | Sentinel _ | New _ => true
  | Errorf _ c | Phased _ c => onlyCorrupt c
  | Errorf2 _ c1 c2 => onlyCorrupt c1 && onlyCorrupt c2
  | UnknownType _ _ => false
  end.

Definition unreadable (e : error) : bool :=
  if negb (errIs e ErrCorrupt) then true else negb (onlyCorrupt e).

Definition UnspecifiedCodec : bytes := str "unspecified".
Definition CodecLabel (codec : bytes) : bytes :=
  if bool_decide (codec = []) then UnspecifiedCodec else codec.

Record Entry := {
  Digest_ : Digest;
  Type_ : bytes;
  Version : byte;
  Codec : bytes;
  Size : Z;
  Written : Z;
  Unreadable : bool }.

Record Snapshot := {
  Entries : list Entry;
  Types : list bytes;
  Versions : list byte;
  Codecs : list bytes;
  Total : Z;
  Bytes : Z }.

Definition byte_le (a b : byte) : Prop := b2z a <= b2z b.
#[export] Instance byte_le_dec : RelDecision byte_le.
Proof. unfold byte_le. intros a b. apply _. Defined.
#[export] Instance byte_le_trans : Transitive byte_le.
Proof. unfold byte_le. intros a b c. lia. Qed.
#[export] Instance byte_le_total : base.Total byte_le.
Proof. unfold byte_le. intros a b. lia. Qed.
(** [slices.Sort] of bytes. *)
Definition sortVersions (l : list byte) : list byte := merge_sort byte_le l.

Section source.
Context {S : Type} (source : Backend S).
(** [Statter]'s two questions, and [PhysicalStatter]'s one when the source has it. *)
Context (size modTime : Digest -> M S Z) (physical : option (Digest -> M S (Z * Z))).

Definition Header (d : Digest) : M S (byte * bytes * bytes) :=
  h ← attempt (Store.Header source d);
  match h with
  | Ok x => mret x
  | Err e => if unreadable e then throw e else mret (x00, [], [])
  end.

Definition HeaderType (d : Digest) : M S bytes := '(_, _, typeName) ← Header d; mret typeName.

(** The loop's state: the entries so far, the three sets, the byte count. *)
Record census := {
  c_entries : list Entry;
  c_types : gset bytes;
  c_versions : gset byte;
  c_codecs : gset bytes;
  c_bytes : Z }.

Definition noCensus : census :=
  {| c_entries := []; c_types := ∅; c_versions := ∅; c_codecs := ∅; c_bytes := 0 |}.

(** The size, the time, whether either failed, and what the byte count gains. *)
Definition statOne (d : Digest) : M S (Z * Z * bool * Z) :=
  match physical with
  | Some stat =>
    st ← attempt (stat d);
    match st with
    | Err _ => mret (0, 0, true, 0)
    | Ok (sz, written) => mret (sz, written, false, sz)
    end
  | None =>
    sz ← attempt (size d);
    wr ← attempt (modTime d);
    mret (match sz with Ok n => n | Err _ => 0 end, match wr with Ok t => t | Err _ => 0 end,
          negb (is_ok sz && is_ok wr), match sz with Ok n => n | Err _ => 0 end)
  end.

Definition entryOne (acc : census) (d : Digest) : M S census :=
  ctxErr;;
  h ← attempt (Header d);
  st ← statOne d;
  let '(sz, written, failed, gained) := st in
  let '(version, codec, typ) := match h with Ok x => x | Err _ => (x00, [], []) end in
  let e := {| Digest_ := d; Type_ := typ; Version := version; Codec := codec; Size := sz;
              Written := written; Unreadable := negb (is_ok h) || failed |} in
  let counted := negb (bool_decide (typ = [])) in
  mret {| c_entries := c_entries acc ++ [e];
          c_types := if counted then c_types acc ∪ {[typ]} else c_types acc;
          c_versions := if counted then c_versions acc ∪ {[version]} else c_versions acc;
          c_codecs := if counted then c_codecs acc ∪ {[codec]} else c_codecs acc;
          c_bytes := int64 (c_bytes acc + gained) |}.

Definition BuildSnapshot : M S Snapshot :=
  digests ← bk_List source;
  s ← foldM digests noCensus entryOne;
  mret {| Entries := c_entries s;
          Types := sortBytes (elements (c_types s));
          Versions := sortVersions (elements (c_versions s));
          Codecs := sortBytes (elements (c_codecs s));
          Total := blen digests;
          Bytes := c_bytes s |}.

End source.

(** ** Pages *)

Lemma Paginate_window {A} (items : list A) offset limit : blen items <= MaxInt64 ->
  0 <= offset <= MaxInt64 -> 0 <= limit <= MaxInt64 ->
  Paginate items offset limit = take (Z.to_nat limit) (drop (Z.to_nat offset) items).
Proof.
  intros Hlen Ho Hl. unfold Paginate, MaxInt64 in *. destruct (Z.ltb_spec offset 0); [lia|].
  destruct (Z.leb_spec (blen items) offset) as [Hend|Hin]; simpl.
  { rewrite drop_ge by lia. by rewrite take_nil. }
  destruct (Z.leb_spec limit 0); [by replace limit with 0 by lia|].
  destruct (decide (offset + limit < 2^63)) as [Hs|Hs].
  - rewrite int64_id by lia. destruct (Z.ltb_spec (blen items) (offset + limit)); simpl.
    + rewrite !take_ge; [done|rewrite length_drop; lia..].
    + destruct (Z.ltb_spec (offset + limit) offset); [lia|]. f_equal. lia.
  - assert (Hwrap : int64 (offset + limit) < offset) by (unfold int64; zlia).
    rewrite (proj2 (Z.ltb_lt _ _) Hwrap), orb_true_r, !take_ge; [done|rewrite length_drop; lia..].
Qed.

(** Pages tile a listing.  For every page size and every index an int can
    hold, overflow of their sum included, a page is the listing's items from its
    offset on, and the pages in order are the listing: none twice and none lost;
    a negative offset is the first page, and a page past the end is empty. *)
Theorem Paginate_tiles {A} (items : list A) limit pages : blen items <= MaxInt64 ->
  0 < limit <= MaxInt64 -> Z.of_nat pages * limit <= MaxInt64 ->
  concat (map (fun k => Paginate items (Z.of_nat k * limit) limit) (seq 0 pages)) =
    take (Z.to_nat (Z.of_nat pages * limit)) items /\
  (forall offset, blen items <= offset -> Paginate items offset limit = []) /\
  (forall offset, offset < 0 -> Paginate items offset limit = Paginate items 0 limit) /\
  (forall offset, 0 <= offset <= MaxInt64 ->
     Paginate items offset limit = take (Z.to_nat limit) (drop (Z.to_nat offset) items)).
Proof.
  intros Hlen Hl Hp. split; [|split_and!].
  - revert Hp. induction pages as [|n IH]; intros Hp; [done|].
    rewrite seq_S, map_app, concat_app. simpl. rewrite app_nil_r, IH by lia.
    rewrite Paginate_window by lia.
    replace (Z.to_nat (Z.of_nat (Datatypes.S n) * limit)) with
      (Z.to_nat (Z.of_nat n * limit) + Z.to_nat limit)%nat by lia.
    by rewrite take_take_drop.
  - intros offset Ho. unfold Paginate. destruct (Z.ltb_spec offset 0); [lia|].
    by destruct (Z.leb_spec (blen items) offset); [|lia].
  - intros offset Ho. unfold Paginate. by destruct (Z.ltb_spec offset 0); [|lia].
  - intros offset Ho. apply Paginate_window; lia.
Qed.

(** ** Which header reads fail *)

(** A length field that does not fit: nine bytes that continue, and a tenth
    beyond the last bit of a 64-bit word. *)
Definition overlong (data : bytes) : Prop := exists more b rest,
  data = more ++ b :: rest /\ length more = 9%nat /\ Forall (fun x => 128 <= b2z x) more /\ 1 < b2z b.

Definition hasOverlong (data : bytes) : Prop := exists pre rest, data = pre ++ rest /\ overlong rest.

(** A read of a stream that ends well fails with what [P] describes, unless a
    length field in it does not fit. *)
Definition clean {A} (P : error -> Prop) (m : M Reader A) : Prop := forall c r x c' r',
  rd_tail r = Sentinel EOF -> m c r = (x, c', r') ->
  rd_tail r' = Sentinel EOF /\ (is_ok x = true -> exists pre, rd_data r = pre ++ rd_data r') /\
  forall e, x = Err e -> P e \/ hasOverlong (rd_data r).

Definition endOfStream (e : error) : Prop := e = Sentinel EOF \/ e = Sentinel ErrUnexpectedEOF.
Definition verdict (e : error) : Prop := onlyCorrupt e = true /\ errIs e ErrCorrupt = true.

Lemma hasOverlong_app pre data : hasOverlong data -> hasOverlong (pre ++ data).
Proof. intros (p & rest & -> & H). exists (pre ++ p), rest. by rewrite app_assoc. Qed.

Lemma clean_bind {A B} P (m : M Reader A) (f : A -> M Reader B) :
  clean P m -> (forall a, clean P (f a)) -> clean P (m ≫= f).
Proof.
  intros Hm Hf c r x c' r' Ht H. apply bind_inv in H as [(a & c1 & r1 & E & H)|(e & E & ->)].
  - apply Hm in E as (Ht1 & Hp & _); [|done]. destruct (Hp eq_refl) as [pre Hpre].
    apply Hf in H as (Ht2 & Hp2 & He); [|done]. split_and!; [done| |].
    + intros Hok. destruct (Hp2 Hok) as [pre2 Hpre2]. exists (pre ++ pre2). by rewrite <- app_assoc, <- Hpre2.
    + intros e Hx. destruct (He e Hx) as [|Ho]; [by left|right]. rewrite Hpre. by apply hasOverlong_app.
  - apply Hm in E as (Ht1 & _ & He); [|done]. split_and!; [done|done|]. intros e' [= <-]. by apply He.
Qed.

Lemma clean_lift {A} (P : error -> Prop) (x : res A) : (forall e, x = Err e -> P e) -> clean P (lift x).
Proof.
  intros Hx c r y c' r' Ht H. apply lift_inv in H as (-> & -> & ->). split_and!; [done|by exists []|].
  intros e E. left. by apply Hx.
Qed.
Lemma clean_ret {A} P (a : A) : clean P (mret a).
Proof. by apply (clean_lift P (Ok a)). Qed.
Lemma clean_throw {A} (P : error -> Prop) e : P e -> clean P (throw e : M Reader A).
Proof. intros He. apply (clean_lift P (Err e)). by intros ? [= <-]. Qed.

Lemma clean_mapErr {A} (P Q : error -> Prop) f (m : M Reader A) :
  (forall e, P e -> Q (f e)) -> clean P m -> clean Q (mapErr f m).
Proof.
  intros Hf Hm c r x c' r' Ht H. apply mapErr_inv in H as (r0 & E & ->).
  apply Hm in E as (Ht1 & Hp & He); [|done]. destruct r0 as [a|e]; simpl; (split_and!; [done|done|]).
  - done.
  - intros e' [= <-]. destruct (He e eq_refl); [left; by apply Hf|by right].
Qed.

Lemma clean_ReadFull n : clean endOfStream (ReadFull n).
Proof.
  intros c r x c' r' Ht H. destruct (Nat.leb_spec n (length (rd_data r))) as [Hl|Hl].
  - destruct (ReadFull_ok n c r Hl) as (r1 & E & Hd & Ht1). rewrite E in H. simplify_eq.
    split_and!; [by rewrite Ht1| |done]. intros _. exists (take n (rd_data r)). by rewrite Hd, take_drop.
  - rewrite ReadFull_short in H by done. simplify_eq. split_and!; [done|done|].
    intros e [= <-]. left. unfold shortErr, endOfStream. rewrite Ht. case_decide; [by left|].
    rewrite decide_True by done. by right.
Qed.

Lemma readByte_cases c r x c' r' : rd_tail r = Sentinel EOF -> readByte c r = (x, c', r') ->
  rd_tail r' = Sentinel EOF /\
  match x with
  | Ok b => rd_data r = b :: rd_data r'
  | Err e => rd_data r = [] /\ e = Sentinel EOF
  end.
Proof.
  intros Ht H. unfold readByte in H. destruct (rd_data r) as [|b l] eqn:Ed.
  - erewrite bind_err in H by (rewrite ReadFull_short by (rewrite Ed; simpl; lia); reflexivity).
    simplify_eq. rewrite Ht, Ed. done.
  - destruct (ReadFull_ok 1 c r) as (r1 & E & Hd & Ht1); [rewrite Ed; simpl; lia|].
    rewrite Ed in E, Hd. erewrite bind_ok in H by exact E. unfold mret, M_ret in H. simpl in H.
    simpl in Hd. simplify_eq. by rewrite Ht1, Hd, drop_0.
Qed.

Lemma clean_readByte : clean endOfStream readByte.
Proof.
  intros c r x c' r' Ht H. destruct (readByte_cases _ _ _ _ _ Ht H) as [Ht' Hx].
  split_and!; [done|intros Hok|].
  - destruct x as [b|]; [|done]. by exists [b].
  - intros e ->. destruct Hx as [_ ->]. left. by left.
Qed.

(** [i] bytes of the field are behind, all of them continuing. *)
Lemma readUvarint_go_clean fuel : forall i x s c r y c' r' seen, (fuel + i = MaxVarintLen64)%nat ->
  length seen = i -> Forall (fun z => 128 <= b2z z) seen -> rd_tail r = Sentinel EOF ->
  readUvarint_go fuel i x s c r = (y, c', r') ->
  rd_tail r' = Sentinel EOF /\ (is_ok y = true -> exists pre, rd_data r = pre ++ rd_data r') /\
  forall e, y = Err e -> endOfStream e \/ overlong (seen ++ rd_data r).
Proof.
  induction fuel as [|fuel IH]; intros i x s c r y c' r' seen Hf Hs Hall Ht H; cbn [readUvarint_go] in H.
  { unfold throw in H. simplify_eq. split_and!; [done|done|]. intros e0 _. right.
    destruct (decide (seen = [])) as [->|Hne]; [done|].
    destruct (exists_last Hne) as (more & b & ->). rewrite length_app in Hf. simpl in Hf.
    apply list.Forall_app in Hall as [Hmore Hb]. rewrite list.Forall_singleton in Hb.
    exists more, b, (rd_data r'). rewrite <- app_assoc. unfold MaxVarintLen64 in Hf.
    split_and!; [done|lia|done|lia]. }
  apply bind_attempt in H as (r0 & c1 & r1 & E & H). destruct (readByte_cases _ _ _ _ _ Ht E) as [Ht1 Hr0].
  destruct r0 as [b|e].
  - destruct (Z.ltb_spec (b2z b) 128) as [Hb|Hb].
    + destruct (Nat.eqb i (MaxVarintLen64 - 1) && (1 <? b2z b)) eqn:Eo; unfold throw, mret, M_ret in H; simplify_eq.
      * split_and!; [done|done|]. intros e0 _. right.
        apply andb_true_iff in Eo as [Ei%Nat.eqb_eq Eb%Z.ltb_lt]. exists seen, b, (rd_data r').
        unfold MaxVarintLen64 in Ei. split_and!; [by rewrite Hr0|lia|done|done].
      * split_and!; [done|intros _; by exists [b]|done].
    + assert (Hlen : length (seen ++ [b]) = Datatypes.S i) by (rewrite length_app; simpl; lia).
      assert (Hall' : Forall (fun z => 128 <= b2z z) (seen ++ [b]))
        by (apply list.Forall_app; split; [done|by apply list.Forall_singleton]).
      destruct (IH (Datatypes.S i) _ _ _ _ _ _ _ (seen ++ [b]) ltac:(lia) Hlen Hall' Ht1 H) as (Ht2 & Hp & He).
      rewrite Hr0. split_and!; [done| |].
      * intros Hok. destruct (Hp Hok) as [pre ->]. by exists (b :: pre).
      * intros e Hy. destruct (He e Hy) as [|Ho]; [by left|right]. by rewrite <- app_assoc in Ho.
  - destruct Hr0 as [_ ->]. unfold throw in H. simplify_eq. split_and!; [done|done|].
    intros e [= <-]. left. unfold endOfStream. destruct (_ && _); auto.
Qed.

Lemma clean_ReadUvarint : clean endOfStream ReadUvarint.
Proof.
  intros c r x c' r' Ht H.
  destruct (readUvarint_go_clean MaxVarintLen64 0 0 0 c r x c' r' [] eq_refl eq_refl ltac:(constructor) Ht H) as (? & ? & He).
  split_and!; [done|done|]. intros e Hx. destruct (He e Hx); [by left|right]. by exists [], (rd_data r).
Qed.

Lemma verdict_end op f e : endOfStream e -> verdict (peekError op f e).
Proof. unfold peekError. intros [-> | ->]; done. Qed.

Lemma clean_readPeekName op f allow : clean verdict (readPeekName op f allow).
Proof.
  apply clean_bind; [apply (clean_mapErr endOfStream); [apply verdict_end|apply clean_ReadUvarint]|].
  intros n. destruct (_ <? n); [by apply clean_throw|]. destruct (n =? 0).
  - destruct allow; [apply clean_ret|by apply clean_throw].
  - apply (clean_mapErr endOfStream); [apply verdict_end|apply clean_ReadFull].
Qed.

Lemma clean_PeekHeader : clean verdict PeekHeader.
Proof.
  apply clean_bind; [apply (clean_mapErr endOfStream); [apply verdict_end|apply clean_readByte]|].
  intros v. destruct (_ && _); [by apply clean_throw|].
  apply clean_bind; [destruct (bool_decide _); [apply clean_readPeekName|apply clean_ret]|].
  intros codec. apply clean_bind; [apply clean_readPeekName|]. intros typ. apply clean_ret.
Qed.

Lemma unreadable_verdict prefix e : verdict e -> unreadable (Errorf prefix e) = false.
Proof. unfold unreadable. intros [H1 H2]. simpl. by rewrite H2, H1. Qed.

(** A verdict on the bytes wraps nothing else. *)
Lemma onlyCorrupt_is e x : onlyCorrupt e = true -> errIs e x = true ->
  x = ErrCorrupt \/ x = EOF \/ x = ErrUnexpectedEOF.
Proof.
  induction e as [y| |m e IH|m e1 IH1 e2 IH2|n e IH|d n]; simpl; rewrite ?andb_true_iff, ?orb_true_iff;
    rewrite ?bool_decide_eq_true; intros H Hx; try tauto; try (destruct_and?; done).
  - destruct H as [[[-> | ->]| ->] _]; auto.
Qed.

(** ** The header of a stored object *)

Section facts.
Context {S : Type} (B : Backend S).
Context (inv quiet : S -> Prop) (key : Digest -> Prop) (abs : S -> gmap Digest bytes).
Context `{HB : !BackendSpec B inv quiet key abs}.

Lemma Header_wp d c s : inv s ->
  wp (Header B d) (fun r c' s' => inv s' /\ (quiet s -> quiet s') /\ abs s' = abs s /\
    match r with
    | Ok (_, _, typ) => typ <> [] -> exists data, abs s !! d = Some data /\ Envelope.EnvelopeType data = Ok typ
    | Err _ => True
    end) c s.
Proof.
  intros Hi. apply wp_bind, wp_attempt, wp_intro. intros r c' s' H.
  destruct (Repo.Header_inv B inv quiet key abs d c s r c' s' Hi H) as (Hi' & Hq & Ha & Hr).
  destruct r as [[[v codec] typ]|e].
  - apply wp_ret. by split_and!.
  - destruct (unreadable e); [by apply wp_throw|]. by apply wp_ret.
Qed.

Lemma Header_result d c s r c' s' : Store.Header B d c s = (r, c', s') ->
  Header B d c s = (match r with
                    | Ok x => Ok x
                    | Err e => if unreadable e then Err e else Ok (x00, [], [])
                    end, c', s').
Proof.
  intros E. unfold Header, mbind, M_bind, attempt. rewrite E. destruct r; [done|]. by destruct (unreadable e).
Qed.

(** The index tells an object it cannot read from one that is no envelope.
    On a quiet store the header of a stored envelope is its own; bytes that are no
    envelope have no header and are no error; and what is not there, or cannot be read, is an
    error.  The only stored bytes that are reported as unreadable have a length field that
    does not fit in 64 bits. *)
Theorem index_Header_spec d s : inv s -> quiet s ->
  (forall data, abs s !! d = Some data ->
    exists r c' s', Header B d [] s = (r, c', s') /\ abs s' = abs s /\
      (forall codec typ, fitsLimit data codec typ -> exists v, r = Ok (v, codec, typ)) /\
      ((exists e, decodeEnvelopeHeader data = Err e) -> is_ok r = true -> r = Ok (x00, [], [])) /\
      (is_ok r = false -> hasOverlong data)) /\
  (key d -> abs s !! d = None ->
    exists e c' s', Header B d [] s = (Err e, c', s') /\ errIs e ErrNotFound = true).
Proof.
  intros Hi Hq. split.
  - intros data Hd.
    destruct (bs_Get_ok B inv quiet key abs d s data Hi Hq Hd) as (rc & s' & E & Hr & Ht & Hc & Hi' & Hq' & Ha').
    destruct (PeekHeader [] (LimitReader headerPrefixLimit (rc_reader rc))) as [[rp c1] r1] eqn:EP.
    pose proof (LimitReader_tail (fun e => e = Sentinel EOF) headerPrefixLimit (rc_reader rc) eq_refl Ht) as Htl.
    destruct (clean_PeekHeader _ _ _ _ _ Htl EP) as (_ & _ & Hclean).
    rewrite LimitReader_data, Hr in Hclean by done.
    assert (Hover : hasOverlong (take (Z.to_nat headerPrefixLimit) data) -> hasOverlong data).
    { intros (pre & rest & Hp & more & b & rest' & -> & Hl & Hall & Hb).
      exists pre, ((more ++ b :: rest') ++ drop (Z.to_nat headerPrefixLimit) data).
      rewrite app_assoc, <- Hp, take_drop. split; [done|].
      exists more, b, (rest' ++ drop (Z.to_nat headerPrefixLimit) data). by rewrite <- app_assoc. }
    assert (EH : Store.Header B d [] s = (match rp with Ok x => Ok x | Err e => Err (Errorf "cas: read object header: %w" e) end, c1, s')).
    { unfold Store.Header. erewrite bind_ok by exact E. unfold readThenClose, onReader. rewrite EP, Hc. by destruct rp. }
    apply Header_result in EH. eexists _, c1, s'. split; [exact EH|]. split; [done|].
    assert (Hfit : forall codec typ, fitsLimit data codec typ -> exists v, rp = Ok (v, codec, typ)).
    { intros codec typ Hf. rewrite <- Hr in Hf. apply (PeekHeader_limited []) in Hf as (v & r' & EP').
      rewrite EP in EP'. simplify_eq. by exists v. }
    split_and!.
    + intros codec typ Hf. destruct (Hfit codec typ Hf) as [v ->]. by exists v.
    + intros [e0 He0]. destruct rp as [[[v codec] typ]|e].
      * apply peekHeader_inv in EP as (raw & off & HH%decodeEnvelopeHeader_intro & _).
        apply (decodeEnvelopeHeader_prefix_of _ data) in HH; [congruence|].
        rewrite LimitReader_data, Hr by done. exists (drop (Z.to_nat headerPrefixLimit) data). by rewrite take_drop.
      * by destruct (unreadable _).
    + destruct rp as [x|e]; [done|]. intros Hno. destruct (Hclean e eq_refl) as [Hv|Ho]; [|by apply Hover].
      by rewrite unreadable_verdict in Hno.
  - intros Hk Hd. destruct (bs_Get_missing d s Hi Hq Hk Hd) as (e & s' & E & He).
    assert (EH : Store.Header B d [] s = (Err e, [], s')) by (unfold Store.Header; by erewrite bind_err by exact E).
    apply Header_result in EH. exists e, [], s'. split; [|done]. rewrite EH.
    assert (Hu : unreadable e = true); [|by rewrite Hu].
    unfold unreadable. destruct (errIs e ErrCorrupt); [|done]. simpl.
    destruct (onlyCorrupt e) eqn:Eo; [|done]. by destruct (onlyCorrupt_is e _ Eo He) as [|[|]].
Qed.

(** ** The snapshot *)

Context (size modTime : Digest -> M S Z) (physical : option (Digest -> M S (Z * Z))).
(** Asking for physical metadata changes nothing. *)
Definition pureRead {A} (m : M S A) : Prop := forall c s r c' s',
  inv s -> m c s = (r, c', s') -> inv s' /\ (quiet s -> quiet s') /\ abs s' = abs s.
Hypothesis pureSize : forall d, pureRead (size d).
Hypothesis pureModTime : forall d, pureRead (modTime d).
Hypothesis purePhysical : forall stat d, physical = Some stat -> pureRead (stat d).

Definition kept (s0 s : S) : Prop := inv s /\ (quiet s0 -> quiet s) /\ abs s = abs s0.

Lemma wp_pure {A} (m : M S A) (Q : res A -> ctx -> S -> Prop) c s0 s : pureRead m -> kept s0 s ->
  (forall r c' s', kept s0 s' -> Q r c' s') -> wp m Q c s.
Proof.
  intros Hm (Hi & Hq & Ha) HQ. apply wp_intro. intros r c' s' E.
  destruct (Hm _ _ _ _ _ Hi E) as (Hi' & Hq' & Ha'). apply HQ. split_and!; [done|tauto|by rewrite Ha'].
Qed.

Lemma statOne_wp d c s0 s : kept s0 s ->
  wp (statOne size modTime physical d) (fun r _ s' => kept s0 s' /\
    exists sz wr failed, r = Ok (sz, wr, failed, sz)) c s.
Proof.
  intros Hk. unfold statOne. destruct physical as [stat|] eqn:Ep.
  - apply wp_bind, wp_attempt. apply (wp_pure _ _ _ s0); [by apply purePhysical|done|].
    intros [[sz wr]|e] c' s' Hk'; apply wp_ret; eauto.
  - apply wp_bind, wp_attempt. apply (wp_pure _ _ _ s0); [done|done|]. intros sz c1 s1 Hk1.
    apply wp_bind, wp_attempt. apply (wp_pure _ _ _ s0); [done|done|]. intros wr c2 s2 Hk2.
    apply wp_ret. eauto.
Qed.

(** What the census says of the entries so far. *)
Definition counted (es : list Entry) : list Entry := filter (fun e => Type_ e <> []) es.
Definition tallies (m : gmap Digest bytes) (don : list Digest) (acc : census) : Prop :=
  map Digest_ (c_entries acc) = don /\
  (forall t, t ∈ c_types acc <-> exists e, e ∈ counted (c_entries acc) /\ Type_ e = t) /\
  (forall v, v ∈ c_versions acc <-> exists e, e ∈ counted (c_entries acc) /\ Version e = v) /\
  (forall x, x ∈ c_codecs acc <-> exists e, e ∈ counted (c_entries acc) /\ Codec e = x) /\
  c_bytes acc = int64 (foldr Z.add 0 (map Size (c_entries acc))) /\
  (forall e, e ∈ counted (c_entries acc) ->
     exists data, m !! Digest_ e = Some data /\ Envelope.EnvelopeType data = Ok (Type_ e)).

(** One more entry. *)
Lemma elem_of_counted_snoc es e x : x ∈ counted (es ++ [e]) <-> x ∈ counted es \/ (x = e /\ Type_ e <> []).
Proof.
  unfold counted. rewrite list.filter_app, elem_of_app, list_elem_of_filter.
  rewrite list.filter_cons. destruct (decide (Type_ e <> [])); rewrite list.filter_nil, ?elem_of_cons; set_solver.
Qed.

Lemma census_add {A} `{Countable A} (f : Entry -> A) es e (xs : gset A) :
  (forall t, t ∈ xs <-> exists y, y ∈ counted es /\ f y = t) ->
  forall t, t ∈ (if negb (bool_decide (Type_ e = [])) then xs ∪ {[f e]} else xs) <->
    exists y, y ∈ counted (es ++ [e]) /\ f y = t.
Proof.
  intros Hxs t. setoid_rewrite elem_of_counted_snoc.
  case_bool_decide; simpl; [|rewrite elem_of_union, elem_of_singleton]; rewrite Hxs; naive_solver.
Qed.

Lemma foldr_add_snoc l x : foldr Z.add 0 (l ++ [x]) = foldr Z.add 0 l + x.
Proof. induction l as [|y l IH]; simpl; [lia|]. rewrite IH. lia. Qed.

Lemma tallies_snoc m don acc e : tallies m don acc ->
  (Type_ e <> [] -> exists data, m !! Digest_ e = Some data /\ Envelope.EnvelopeType data = Ok (Type_ e)) ->
  tallies m (don ++ [Digest_ e])
    {| c_entries := c_entries acc ++ [e];
       c_types := if negb (bool_decide (Type_ e = [])) then c_types acc ∪ {[Type_ e]} else c_types acc;
       c_versions := if negb (bool_decide (Type_ e = [])) then c_versions acc ∪ {[Version e]} else c_versions acc;
       c_codecs := if negb (bool_decide (Type_ e = [])) then c_codecs acc ∪ {[Codec e]} else c_codecs acc;
       c_bytes := int64 (c_bytes acc + Size e) |}.
Proof.
  intros (Hd & Ht & Hv & Hc & Hb & He) Hdata. unfold tallies. cbn [c_entries c_types c_versions c_codecs c_bytes].
  split_and!.
  - by rewrite map_app, Hd.
  - by apply (census_add Type_).
  - by apply (census_add Version).
  - by apply (census_add Codec).
  - rewrite map_app. cbn [map]. by rewrite foldr_add_snoc, Hb, int64_add_l.
  - intros y [Hy|[-> Hy]]%elem_of_counted_snoc; [by apply He|by apply Hdata].
Qed.

Lemma entryOne_wp s0 don d acc c s : kept s0 s -> tallies (abs s0) don acc ->
  wp (entryOne B size modTime physical acc d) (fun r _ s' =>
    match r with
    | Ok acc' => kept s0 s' /\ tallies (abs s0) (don ++ [d]) acc'
    | Err e => is_ctx_err e
    end) c s.
Proof.
  intros Hk Ht. unfold entryOne. apply wp_bind, wp_ctxErr; [|done]. intros c1 _.
  apply wp_bind, wp_attempt. eapply wp_mono; [apply Header_wp, Hk|]. intros h c2 s2 (Hi2 & Hq2 & Ha2 & Hh).
  destruct Hk as (_ & Hq & Ha).
  assert (Hk2 : kept s0 s2) by (split_and!; [done|tauto|by rewrite Ha2]).
  apply wp_bind. eapply wp_mono; [by apply statOne_wp|]. intros r c3 s3 (Hk3 & sz & wr & failed & ->).
  destruct h as [[[v codec] typ]|e]; apply wp_ret; (split; [done|]).
  - apply (tallies_snoc _ _ _ {| Digest_ := d; Type_ := typ; Version := v; Codec := codec; Size := sz;
      Written := wr; Unreadable := false || failed |}); [done|]. simpl. by rewrite <- Ha.
  - apply (tallies_snoc _ _ _ {| Digest_ := d; Type_ := []; Version := x00; Codec := []; Size := sz;
      Written := wr; Unreadable := true || failed |}); done.
Qed.

Lemma sorted_census {A} `{Countable A} (xs : gset A) (R : A -> A -> Prop) `{!RelDecision R, !Transitive R, !base.Total R} :
  StronglySorted R (merge_sort R (elements xs)) /\ NoDup (merge_sort R (elements xs)) /\
  forall x, x ∈ merge_sort R (elements xs) <-> x ∈ xs.
Proof.
  split_and!; [apply (StronglySorted_merge_sort _)|rewrite merge_sort_Permutation; apply NoDup_elements|].
  intros x. by rewrite merge_sort_Permutation, elem_of_elements.
Qed.

(** C21. The snapshot is the store, once.  A snapshot that is built, under any context,
    leaves the store as it was and has one entry per stored object, in digest order; a type it
    shows is that of the object's bytes; its lists of types, versions and
    codecs are sorted, without repetitions, and exactly what the entries with
    a header have; its size is the sum of theirs.  No object makes a snapshot fail: only the
    listing does, and the context. *)
Theorem BuildSnapshot_spec c s : inv s ->
  wp (BuildSnapshot B size modTime physical) (fun r _ s' => match r with
    | Ok snap => kept s s' /\
        (exists l, map Digest_ (Entries snap) = l /\ StronglySorted bytes_le l /\ NoDup l /\
           Total snap = blen l /\ forall d, key d -> (d ∈ l <-> is_Some (abs s !! d))) /\
        (forall e, e ∈ counted (Entries snap) ->
           exists data, abs s !! Digest_ e = Some data /\ Envelope.EnvelopeType data = Ok (Type_ e)) /\
        (StronglySorted bytes_le (Types snap) /\ NoDup (Types snap) /\
         forall t, t ∈ Types snap <-> exists e, e ∈ counted (Entries snap) /\ Type_ e = t) /\
        (StronglySorted byte_le (Versions snap) /\ NoDup (Versions snap) /\
         forall v, v ∈ Versions snap <-> exists e, e ∈ counted (Entries snap) /\ Version e = v) /\
        (StronglySorted bytes_le (Codecs snap) /\ NoDup (Codecs snap) /\
         forall x, x ∈ Codecs snap <-> exists e, e ∈ counted (Entries snap) /\ Codec e = x) /\
        Bytes snap = int64 (foldr Z.add 0 (map Size (Entries snap)))
    | Err e => is_ctx_err e \/ exists c2 s2, bk_List B c s = (Err e, c2, s2)
    end) c s.
Proof.
  intros Hi. apply wp_bind, wp_intro. intros r c1 s1 E.
  destruct (bs_List _ _ _ _ _ Hi E) as (Hi1 & Hq1 & Ha1 & Hl). destruct r as [l|e]; [|eauto].
  destruct Hl as (Hsort & Hnd & Hall).
  assert (Hk1 : kept s s1) by by split_and!.
  assert (H0 : tallies (abs s) [] noCensus).
  { split_and!; try done; try (intros x; simpl; split; [set_solver|by intros (? & ?%elem_of_nil & _)]).
    by intros e ?%elem_of_nil. }
  apply wp_bind. eapply wp_mono.
  { apply (wp_foldM (fun don acc _ s' => kept s s' /\ tallies (abs s) don acc) (fun e _ _ => is_ctx_err e) l).
    - intros don x rest acc c2 s2 _ [Hk Ht]. eapply wp_mono; [by apply (entryOne_wp s don)|].
      intros [a|e] c3 s3 H; exact H.
    - by split. }
  intros [acc|e] c2 s2; [|by left]. intros [Hk (Hd & Ht & Hv & Hc & Hb & He)]. apply wp_ret.
  cbn [Entries Types Versions Codecs Total Bytes].
  destruct (sorted_census (c_types acc) bytes_le) as (T1 & T2 & T3).
  destruct (sorted_census (c_versions acc) byte_le) as (V1 & V2 & V3).
  destruct (sorted_census (c_codecs acc) bytes_le) as (C1 & C2 & C3).
  split_and!; try done.
  - exists l. split_and!; done.
  - intros t. unfold sortBytes. by rewrite T3.
  - intros v. unfold sortVersions. by rewrite V3.
  - intros x. unfold sortBytes. by rewrite C3.
Qed.

End facts.

(** ** Concrete stores *)

(** Bytes put as they are, that happen to start as an envelope with a codec
    length of ten continuing bytes. *)
Definition rawData : bytes := x02 :: replicate 10 xff ++ str "raw".
Definition rawDigest : Digest := str "abcd".
Definition textDigest : Digest := str "abce".
Definition rawObjects : Mem.Mem := Mem.mkMem {[rawDigest := rawData; textDigest := str "plain text"]} 0 24.

Lemma rawObjects_inv : Mem.inv rawObjects.
Proof. split; vm_compute; try reflexivity; intros; discriminate. Qed.

(** Neither is an envelope.  The one is reported as an object without a header, which
    a raw object is; the other as one whose bytes could not be read, because the reader's overflow
    of a length is wrapped as the cause of a failed read is. *)
Theorem raw_object_unreadable :
  run_res (Header Mem.Backend textDigest [] rawObjects) = Ok (x00, [], []) /\
  is_ok (decodeEnvelopeHeader rawData) = false /\
  exists e, run_res (Header Mem.Backend rawDigest [] rawObjects) = Err e /\ errIs e ErrCorrupt = true.
Proof. split_and!; [by vm_compute|by vm_compute|]. eexists. split; by vm_compute. Qed.

Example index_Header_spec_witness :
  exists r c' s', Header Mem.Backend textDigest [] rawObjects = (r, c', s') /\ r = Ok (x00, [], []) /\
    (is_ok r = false -> hasOverlong (str "plain text")).
Proof.
  destruct (proj1 (index_Header_spec Mem.Backend Mem.inv (fun _ => True) Mem.key Mem.objects
    (HB := Mem.mem_BackendSpec) textDigest rawObjects rawObjects_inv I) (str "plain text") eq_refl)
    as (r & c' & s' & E & _ & _ & _ & Ho).
  exists r, c', s'. split_and!; [exact E| |exact Ho].
  assert (Hr : run_res (Header Mem.Backend textDigest [] rawObjects) = Ok (x00, [], [])) by (by vm_compute).
  unfold run_res in Hr. rewrite E in Hr. exact Hr.
Defined.

Example Paginate_tiles_witness :
  concat (map (fun k => Paginate [1; 2; 3; 4; 5; 6; 7] (Z.of_nat k * 3) 3) (seq 0 3)) = [1; 2; 3; 4; 5; 6; 7].
Proof.
  refine (proj1 (Paginate_tiles [1; 2; 3; 4; 5; 6; 7] 3 3 _ _ _)); by vm_compute.
Defined.

(** A store of the envelope of a note, and of the two objects above. *)
Definition noteObject : bytes := x02 :: x01 :: x63 :: x05 :: str "n@123" ++ [x00].
Definition mixedObjects : Mem.Mem :=
  Mem.mkMem {[rawDigest := rawData; textDigest := str "plain text"; str "abcf" := noteObject]} 0 34.

Lemma mixedObjects_inv : Mem.inv mixedObjects.
Proof. split; vm_compute; try reflexivity; intros; discriminate. Qed.

Definition mixedSnapshot : res Snapshot :=
  run_res (BuildSnapshot Mem.Backend (fun _ => mret 7) (fun _ => mret 8) None [] mixedObjects).

Example BuildSnapshot_spec_witness :
  (exists snap, mixedSnapshot = Ok snap /\ Types snap = [str "n@123"] /\ Codecs snap = [str "c"] /\
     Total snap = 3 /\ Bytes snap = 21 /\ map Unreadable (Entries snap) = [true; false; false]) /\
  wp (BuildSnapshot Mem.Backend (fun _ => mret 7) (fun _ => mret 8) None) (fun r _ s' => match r with
    | Ok snap => kept Mem.inv (fun _ => True) Mem.objects mixedObjects s'
    | Err e => True
    end) [] mixedObjects.
Proof.
  split; [eexists; split_and!; by vm_compute|].
  eapply wp_mono.
  - apply (BuildSnapshot_spec Mem.Backend Mem.inv (fun _ => True) Mem.key Mem.objects
      (HB := Mem.mem_BackendSpec) (fun _ => mret 7) (fun _ => mret 8) None).
    + intros d c s r c' s' Hi. unfold mret, M_ret. intros [= <- <- <-]. done.
    + intros d c s r c' s' Hi. unfold mret, M_ret. intros [= <- <- <-]. done.
    + done.
    + apply mixedObjects_inv.
  - intros [snap|e] c' s'; [by intros [H _]|done].
Defined.

End Index.
