(* ===== verification/CodecStack.v ===== *)
(** The stacking codecs (src/cas/codec/internal/bounded, src/cas/codec/flate,
    gzip, zlib, gob, binary and json): a codec over the bytes of another one,
    with the pools of compressors and decompressors the three compressed ones
    share between calls and the ceiling on what they inflate.  The compressed
    formats, gob and JSON are the Go standard library's: parameters, with what
    their documentation promises as laws. *)

From S2P Require Import Prelude Digest Binary Stream Envelope Backend MemBackend Store.

(** ** The contracts of a pooled writer and reader

    [Compressor]: the bytes a call writes go to the destination the writer was
    last given, so a call of the model gives them back.  [Decompressor]:
    [zr_reader] is what the reads of the armed reader deliver, [zr_spent] the
    reader once they are done and it is closed. *)
Record Compressor (W : Type) := mkCompressor {
  zw_new : res W;
  zw_Reset : W -> W;
  zw_Write : bytes -> W -> res unit * bytes * W;
  zw_Close : W -> res unit * bytes * W;
}.
Record Decompressor (R : Type) := mkDecompressor {
  zr_new : bytes -> res R;
  zr_Reset : bytes -> R -> res unit * R;
  zr_reader : R -> Reader;
  zr_spent : R -> R;
}.
Arguments mkCompressor {W}. Arguments zw_new {W}. Arguments zw_Reset {W}.
Arguments zw_Write {W}. Arguments zw_Close {W}.
Arguments mkDecompressor {R}. Arguments zr_new {R}. Arguments zr_Reset {R}.
Arguments zr_reader {R}. Arguments zr_spent {R}.

Module Bounded.
Definition MaxDecodedBytes : Z := Z.shiftl 1 30.

(** [sync.Pool]: what is parked, and for each Get the item the pool hands out,
    none when it is empty or keeps its items back. *)
Definition choice : Type := option nat.
Definition poolGet {A} (pick : choice) (pool : list A) : option A * list A :=
  match pick with
  | Some i => match pool !! i with Some x => (Some x, delete i pool) | None => (None, pool) end
  | None => (None, pool)
  end.

Section Pools.
Context {W R : Type}.
Variable comp : Compressor W.
Variable decomp : Decompressor R.

Definition WriterPool_get (pick : choice) (pool : list W) : res W * list W :=
  match poolGet pick pool with
  | (Some w, pool) => (Ok (zw_Reset comp w), pool)
  | (None, pool) => (zw_new comp, pool)
  end.
Definition WriterPool_put (w : W) (pool : list W) : list W := zw_Reset comp w :: pool.

Definition ReaderPool_get (pick : choice) (src : bytes) (pool : list R) : res R * list R :=
  match poolGet pick pool with
  | (Some d, pool) =>
    match zr_Reset decomp src d with
    | (Err err, _) => (Err err, pool)
    | (Ok _, d) => (Ok d, pool)
    end
  | (None, pool) => (zr_new decomp src, pool)
  end.
(** The parked reader holds the empty source; its failed header is ignored. *)
Definition ReaderPool_put (d : R) (pool : list R) : list R := (zr_Reset decomp [] d).2 :: pool.
End Pools.

Section Codec.
Context {T W R : Type}.
Variable comp : Compressor W.
Variable decomp : Decompressor R.

(** Write and Close on an armed writer, and the writer when both succeeded. *)
Definition compress (w : W) (payload : bytes) : res (bytes * W) :=
  match zw_Write comp payload w with
  | (Err err, _, _) => Err err
  | (Ok _, out, w) =>
    match zw_Close comp w with
    | (Err err, _, _) => Err err
    | (Ok _, out', w) => Ok (out ++ out', w)
    end
  end.

Definition Encode (next : option (Codec T)) (v : T) (pick : choice) (writers : list W) : res bytes * list W :=
  match next with
  | None => (Err ErrNilCodec, writers)
  | Some next =>
    match cd_Encode next v with
    | Err err => (Err err, writers)
    | Ok payload =>
      match WriterPool_get comp pick writers with
      | (Err err, writers) => (Err err, writers)
      | (Ok w, writers) =>
        match compress w payload with
        | Err err => (Err err, writers)
        | Ok (buf, w) => (Ok buf, WriterPool_put comp w writers)
        end
      end
    end
  end.

(** [io.ReadAll] of the limited decompressor, and the size check. *)
Definition inflate (maxDecoded : Z) (r : R) : res bytes :=
  payload ← run_res (ioReadAll false [] (LimitReader (int64 (maxDecoded + 1)) (zr_reader decomp r)));
  if blen payload >? maxDecoded then Err ErrDecodedTooLarge else Ok payload.

Definition Decode (next : option (Codec T)) (data : bytes) (maxDecoded : Z) (pick : choice) (readers : list R)
    : res T * list R :=
  match next with
  | None => (Err ErrNilCodec, readers)
  | Some next =>
    match ReaderPool_get decomp pick data readers with
    | (Err err, readers) => (Err err, readers)
    | (Ok r, readers) =>
      match inflate maxDecoded r with
      | Err err => (Err err, readers)
      | Ok payload => (cd_Decode next payload, ReaderPool_put decomp (zr_spent decomp r) readers)
      end
    end
  end.
End Codec.

Definition ComposeTag {T} (name : bytes) (next : option (Codec T)) : bytes :=
  match next ≫= cd_Name with
  | None => []
  | Some inner => if bool_decide (inner = []) then [] else name ++ str "+" ++ inner
  end.
End Bounded.

(** ** The wrappers

    Every package has pools of its own; the codec of each is its [next]. *)
Module Gzip.
Record Codec T := New { next : option (Store.Codec T) }.
Arguments New {T}. Arguments next {T}.
Definition MaxDecodedBytes := Bounded.MaxDecodedBytes.
Definition Encode {T W} (comp : Compressor W) (c : Codec T) := Bounded.Encode comp (next c).
Definition Decode {T R} (decomp : Decompressor R) (c : Codec T) (data : bytes) :=
  Bounded.Decode decomp (next c) data MaxDecodedBytes.
Definition CodecName {T} (c : Codec T) : bytes := Bounded.ComposeTag (str "gzip") (next c).
End Gzip.

Module Zlib.
Record Codec T := New { next : option (Store.Codec T) }.
Arguments New {T}. Arguments next {T}.
Definition MaxDecodedBytes := Bounded.MaxDecodedBytes.
Definition Encode {T W} (comp : Compressor W) (c : Codec T) := Bounded.Encode comp (next c).
Definition Decode {T R} (decomp : Decompressor R) (c : Codec T) (data : bytes) :=
  Bounded.Decode decomp (next c) data MaxDecodedBytes.
Definition CodecName {T} (c : Codec T) : bytes := Bounded.ComposeTag (str "zlib") (next c).
End Zlib.

Module Flate.
Record Codec T := New { next : option (Store.Codec T) }.
Arguments New {T}. Arguments next {T}.
Definition MaxDecodedBytes := Bounded.MaxDecodedBytes.
Definition Encode {T W} (comp : Compressor W) (c : Codec T) := Bounded.Encode comp (next c).
Definition Decode {T R} (decomp : Decompressor R) (c : Codec T) (data : bytes) :=
  Bounded.Decode decomp (next c) data MaxDecodedBytes.
Definition CodecName {T} (c : Codec T) : bytes := Bounded.ComposeTag (str "flate") (next c).
End Flate.

Module Gob.
(** [encoding/gob] for bytes, the transport of an inner codec, and for [T]. *)
Section Gob.
Context {T : Type}.
Variable gobBytes : bytes -> res bytes.
Variable ungobBytes : bytes -> res bytes.
Variable gobT : T -> res bytes.
Variable ungobT : bytes -> res T.
Definition Encode (next : option (Codec T)) (v : T) : res bytes :=
  match next with
  | Some next => payload ← cd_Encode next v; gobBytes payload
  | None => gobT v
  end.
Definition Decode (next : option (Codec T)) (data : bytes) : res T :=
  match next with
  | Some next => payload ← ungobBytes data; cd_Decode next payload
  | None => ungobT data
  end.
Definition CodecName (next : option (Codec T)) : bytes :=
  match next with
  | None => str "gob"
  | Some _ => Bounded.ComposeTag (str "gob") next
  end.
End Gob.
End Gob.

Module BinaryCodec.
Section BinaryCodec.
Context {T : Type}.
(** A nil function or a nil inner codec is [None]. *)
Record Codec := mkCodec {
  next : option (Store.Codec T);
  transform : option (bytes -> res bytes);
  restore : option (bytes -> res bytes);
  encode : option (T -> res bytes);
  decode : option (bytes -> res T);
}.
Definition errNilEncode : error := Prelude.New "binarycodec: encode is nil".
Definition errNilDecode : error := Prelude.New "binarycodec: decode is nil".
Definition New next transform restore : Codec := mkCodec next transform restore None None.
Definition NewRaw encode decode : Codec := mkCodec None None None encode decode.

Definition Encode (c : Codec) (v : T) : res bytes :=
  match next c with
  | Some next =>
    match transform c with
    | None => Err errNilEncode
    | Some transform => payload ← cd_Encode next v; transform payload
    end
  | None =>
    match encode c with
    | None => Err errNilEncode
    | Some encode => encode v
    end
  end.
Definition Decode (c : Codec) (data : bytes) : res T :=
  match next c with
  | Some next =>
    match restore c with
    | None => Err errNilDecode
    | Some restore => payload ← restore data; cd_Decode next payload
    end
  | None =>
    match decode c with
    | None => Err errNilDecode
    | Some decode => decode data
    end
  end.
Definition CodecName (c : Codec) : bytes :=
  match next c with
  | None => str "binary"
  | Some _ => Bounded.ComposeTag (str "binary") (next c)
  end.
End BinaryCodec.
Arguments Codec : clear implicits.
End BinaryCodec.

Module Json.
(** [json.Marshal] and [json.Unmarshal] of [T]. *)
Definition Encode {T} (marshal : T -> res bytes) (v : T) : res bytes := marshal v.
Definition Decode {T} (unmarshal : bytes -> res T) (data : bytes) : res T := unmarshal data.
Definition CodecName : bytes := str "json".
End Json.

(** ** The laws of the standard library's formats *)

(** A writer and a reader that were reset behave as new ones, whatever they did
    before, and building a writer at the default level does not fail. *)
Record CompressorLaws {W} (comp : Compressor W) : Prop := {
  zw_builds : is_ok (zw_new comp) = true;
  zw_fresh : forall w0 w payload, zw_new comp = Ok w0 ->
    fst <$> Bounded.compress comp (zw_Reset comp w) payload = fst <$> Bounded.compress comp w0 payload;
}.
Record DecompressorLaws {R} (decomp : Decompressor R) : Prop := {
  zr_fresh : forall d src,
    match zr_Reset decomp src d with
    | (Err err, _) => zr_new decomp src = Err err
    | (Ok _, d') => exists r, zr_new decomp src = Ok r /\ zr_reader decomp r = zr_reader decomp d'
    end;
}.
(** What a new writer compressed, a new reader gives back, to the end. *)
Definition lossless {W R} (comp : Compressor W) (decomp : Decompressor R) : Prop :=
  forall w0 payload out w, zw_new comp = Ok w0 -> Bounded.compress comp w0 payload = Ok (out, w) ->
  exists r, zr_new decomp out = Ok r /\ rd_data (zr_reader decomp r) = payload /\
    rd_tail (zr_reader decomp r) = Sentinel EOF.

(** The same calls on empty pools: a compressor and a decompressor per call. *)
Definition EncodeNew {T W} (comp : Compressor W) (next : option (Codec T)) (v : T) : res bytes :=
  (Bounded.Encode comp next v None []).1.
Definition DecodeNew {T R} (decomp : Decompressor R) (next : option (Codec T)) (data : bytes) : res T :=
  (Bounded.Decode decomp next data Bounded.MaxDecodedBytes None []).1.

(** ** Lemmas *)

(** The limited reader ends in [io.EOF] when the limit is reached, and as the
    reader does before. *)
Lemma LimitReader_ends n r : 0 <= n ->
  rd_tail (LimitReader n r) = if n <=? blen (rd_data r) then Sentinel EOF else rd_tail r.
Proof.
  unfold LimitReader, rd_data. generalize (rd_tail r) as tail. revert n.
  induction (rd_chunks r) as [|x cs IH]; intros n tail Hn; cbn [limitChunks concat].
  - destruct (Z.leb_spec n 0); simpl.
    + by rewrite (proj2 (Z.leb_le _ _)) by lia.
    + by rewrite (proj2 (Z.leb_gt _ _)) by lia.
  - rewrite length_app. destruct (Z.leb_spec n 0); [by rewrite (proj2 (Z.leb_le _ _)) by lia|].
    destruct (Z.leb_spec (blen x) n); [|by rewrite (proj2 (Z.leb_le _ _)) by lia].
    specialize (IH (n - blen x) tail ltac:(lia)). destruct (limitChunks _ _ _) as [l t]. cbn in *. rewrite IH.
    destruct (Z.leb_spec (n - blen x) (blen (concat cs))), (Z.leb_spec n (Z.of_nat (length x + length (concat cs)))); lia || done.
Qed.

Section Facts.
Context {T W R : Type} (comp : Compressor W) (decomp : Decompressor R).

Lemma poolGet_cases {A} pick (pool : list A) :
  (exists pool', Bounded.poolGet pick pool = (None, pool')) \/
  (exists x pool', Bounded.poolGet pick pool = (Some x, pool') /\ x ∈ pool).
Proof.
  unfold Bounded.poolGet. destruct pick as [i|]; [|eauto]. destruct (pool !! i) eqn:E; [|eauto].
  right. eauto using list_elem_of_lookup_2.
Qed.

Lemma Encode_pooled (next : option (Codec T)) v pick writers : CompressorLaws comp ->
  (Bounded.Encode comp next v pick writers).1 = EncodeNew comp next v.
Proof.
  intros [Hb Hf]. unfold EncodeNew, Bounded.Encode. destruct next as [next|]; [|done].
  destruct (cd_Encode next v) as [payload|]; [|done]. unfold Bounded.WriterPool_get. cbn [Bounded.poolGet].
  destruct (zw_new comp) as [w0|] eqn:Ew; [|done].
  destruct (poolGet_cases pick writers) as [[pool' ->]|(w & pool' & -> & _)].
  - by destruct (Bounded.compress comp w0 payload) as [[]|].
  - specialize (Hf w0 w payload eq_refl).
    destruct (Bounded.compress comp (zw_Reset comp w) payload) as [[]|], (Bounded.compress comp w0 payload) as [[]|];
      cbn in *; congruence.
Qed.

Lemma inflate_reader (r r' : R) maxDecoded : zr_reader decomp r = zr_reader decomp r' ->
  Bounded.inflate decomp maxDecoded r = Bounded.inflate decomp maxDecoded r'.
Proof. unfold Bounded.inflate. by intros ->. Qed.

Lemma Decode_pooled (next : option (Codec T)) data maxDecoded pick readers : DecompressorLaws decomp ->
  (Bounded.Decode decomp next data maxDecoded pick readers).1 =
  (Bounded.Decode decomp next data maxDecoded None []).1.
Proof.
  intros [Hf]. unfold Bounded.Decode. destruct next as [next|]; [|done].
  unfold Bounded.ReaderPool_get. cbn [Bounded.poolGet].
  destruct (poolGet_cases pick readers) as [[pool' ->]|(d & pool' & -> & _)].
  - destruct (zr_new decomp data) as [r|]; [|done]. by destruct (Bounded.inflate decomp maxDecoded r).
  - specialize (Hf d data). destruct (zr_Reset decomp data d) as [[[]|err] d'].
    + destruct Hf as (r & -> & Hr). rewrite (inflate_reader _ _ _ Hr). by destruct (Bounded.inflate _ _ _).
    + by rewrite Hf.
Qed.

(** What the bounded read makes of an armed reader. *)
Lemma inflate_spec (r : R) maxDecoded : 0 <= maxDecoded < MaxInt64 ->
  Bounded.inflate decomp maxDecoded r =
    if blen (rd_data (zr_reader decomp r)) >? maxDecoded then Err ErrDecodedTooLarge
    else if decide (rd_tail (zr_reader decomp r) = Sentinel EOF) then Ok (rd_data (zr_reader decomp r))
    else Err (rd_tail (zr_reader decomp r)).
Proof.
  unfold MaxInt64. intros Hm. unfold Bounded.inflate. rewrite int64_id by lia.
  generalize (zr_reader decomp r). clear r. intros r. unfold ioReadAll. rewrite readAll_quiet, app_nil_l.
  fold (rd_data (LimitReader (maxDecoded + 1) r)). rewrite LimitReader_data, LimitReader_ends by lia.
  unfold run_res. cbn [fst]. rewrite Z.gtb_ltb. destruct (Z.ltb_spec maxDecoded (blen (rd_data r))).
  - rewrite (proj2 (Z.leb_le _ _)) by lia. rewrite decide_True by done. cbn.
    rewrite length_take, Z.gtb_ltb, (proj2 (Z.ltb_lt _ _)) by lia. done.
  - rewrite (proj2 (Z.leb_gt _ _)), take_ge by lia. destruct (decide _); [|done]. cbn.
    rewrite Z.gtb_ltb, (proj2 (Z.ltb_ge _ _)) by lia. done.
Qed.
End Facts.

(** ** Stacks of codecs

    A [Format] is what one compressed package is given by the standard library. *)
Record Format := mkFormat { fm_W : Type; fm_R : Type; fm_comp : Compressor fm_W; fm_decomp : Decompressor fm_R }.

Section Stack.
Context {T : Type}.
Variables gzip_ zlib_ flate_ : Format.
Variables gobBytes ungobBytes : bytes -> res bytes.

Inductive layer :=
  | LGzip | LZlib | LFlate | LGob
  | LBinary (transform restore : bytes -> res bytes).

(** The codec value a package's [New] gives over [next]. *)
Definition wrap (l : layer) (next : Codec T) : Codec T :=
  let compressed f name :=
    mkCodec (EncodeNew (fm_comp f) (Some next)) (DecodeNew (fm_decomp f) (Some next)) (Some name) in
  match l with
  | LGzip => compressed gzip_ (Gzip.CodecName (Gzip.New (Some next)))
  | LZlib => compressed zlib_ (Zlib.CodecName (Zlib.New (Some next)))
  | LFlate => compressed flate_ (Flate.CodecName (Flate.New (Some next)))
  | LGob =>
    mkCodec (Gob.Encode gobBytes (fun _ => Err ErrNilCodec) (Some next))
      (Gob.Decode ungobBytes (fun _ => Err ErrNilCodec) (Some next)) (Some (Gob.CodecName (Some next)))
  | LBinary transform restore =>
    let c := BinaryCodec.New (Some next) (Some transform) (Some restore) in
    mkCodec (BinaryCodec.Encode c) (BinaryCodec.Decode c) (Some (BinaryCodec.CodecName c))
  end.
Definition stack (layers : list layer) (base : Codec T) : Codec T := foldr wrap base layers.

Definition format_of (l : layer) : option Format :=
  match l with LGzip => Some gzip_ | LZlib => Some zlib_ | LFlate => Some flate_ | _ => None end.
Definition layerName (l : layer) : bytes :=
  str match l with LGzip => "gzip" | LZlib => "zlib" | LFlate => "flate" | LGob => "gob" | LBinary _ _ => "binary" end.

(** A layer undoes what it did. *)
Definition invertible (l : layer) : Prop :=
  match l with
  | LGzip => lossless (fm_comp gzip_) (fm_decomp gzip_)
  | LZlib => lossless (fm_comp zlib_) (fm_decomp zlib_)
  | LFlate => lossless (fm_comp flate_) (fm_decomp flate_)
  | LGob => forall p q, gobBytes p = Ok q -> ungobBytes q = Ok p
  | LBinary transform restore => forall p q, transform p = Ok q -> restore q = Ok p
  end.
(** No compressed layer was given more than it will inflate. *)
Definition tooLarge (l : layer) (payload : bytes) : bool :=
  bool_decide (is_Some (format_of l)) && (blen payload >? Bounded.MaxDecodedBytes).
Fixpoint fits (layers : list layer) (base : Codec T) (v : T) : bool :=
  match layers with
  | [] => true
  | l :: layers =>
    match cd_Encode (stack layers base) v with
    | Ok payload => negb (tooLarge l payload) && fits layers base v
    | Err _ => true
    end
  end.

Lemma compressed_decode (f : Format) (next : Codec T) v data :
  lossless (fm_comp f) (fm_decomp f) -> EncodeNew (fm_comp f) (Some next) v = Ok data ->
  exists payload, cd_Encode next v = Ok payload /\
    DecodeNew (fm_decomp f) (Some next) data =
      if blen payload >? Bounded.MaxDecodedBytes then Err ErrDecodedTooLarge else cd_Decode next payload.
Proof.
  unfold EncodeNew, DecodeNew, Bounded.Encode, Bounded.Decode, Bounded.WriterPool_get, Bounded.ReaderPool_get.
  cbn [Bounded.poolGet]. intros Hl H. destruct (cd_Encode next v) as [payload|]; [|done].
  exists payload. split; [done|]. destruct (zw_new (fm_comp f)) as [w0|] eqn:Ew; [|done].
  destruct (Bounded.compress (fm_comp f) w0 payload) as [[out w]|] eqn:Ec; [|done]. injection H as <-.
  destruct (Hl _ _ _ _ Ew Ec) as (r & -> & Hd & Ht). rewrite inflate_spec, Hd, Ht by (vm_compute; done).
  destruct (blen payload >? Bounded.MaxDecodedBytes); [done|]. by rewrite decide_True.
Qed.

Lemma wrap_decode l (next : Codec T) v data : invertible l -> cd_Encode (wrap l next) v = Ok data ->
  exists payload, cd_Encode next v = Ok payload /\
    cd_Decode (wrap l next) data = if tooLarge l payload then Err ErrDecodedTooLarge else cd_Decode next payload.
Proof.
  unfold tooLarge. destruct l as [| | | |t u]; cbn [wrap cd_Encode cd_Decode invertible format_of];
    try (rewrite bool_decide_eq_true_2 by eauto; apply compressed_decode).
  - unfold Gob.Encode, Gob.Decode. cbn. intros Hi H. destruct (cd_Encode next v) as [payload|]; [|done].
    exists payload. split; [done|]. cbn in H. apply Hi in H. by rewrite H.
  - unfold BinaryCodec.Encode, BinaryCodec.Decode. cbn. intros Hi H. destruct (cd_Encode next v) as [payload|]; [|done].
    exists payload. split; [done|]. cbn in H. apply Hi in H. by rewrite H.
Qed.

Lemma stack_decode layers (base : Codec T) v data :
  Forall invertible layers ->
  (forall payload, cd_Encode base v = Ok payload -> cd_Decode base payload = Ok v) ->
  cd_Encode (stack layers base) v = Ok data ->
  cd_Decode (stack layers base) data = if fits layers base v then Ok v else Err ErrDecodedTooLarge.
Proof.
  intros Hl Hb. revert data. induction Hl as [|l layers Hi Hl IH]; intros data H; [by apply Hb|].
  change (stack (l :: layers) base) with (wrap l (stack layers base)) in *.
  apply wrap_decode in H as (payload & Hp & Hd); [|done]. cbn [fits]. rewrite Hd, Hp.
  destruct (tooLarge l payload); [done|]. by apply IH.
Qed.

(** The tag a stack writes into the envelopes. *)
Definition composed (base : bytes) (layers : list layer) : bytes :=
  foldr (fun l tag => layerName l ++ str "+" ++ tag) base layers.
Lemma composed_nil base layers : base <> [] -> composed base layers <> [].
Proof. intros. destruct layers as [|[]]; done. Qed.
Lemma stack_tag_named layers (base : Codec T) tag : cd_Name base = Some tag -> tag <> [] ->
  cd_Name (stack layers base) = Some (composed tag layers).
Proof.
  intros Hb Ht. induction layers as [|l layers IH]; [done|].
  change (stack (l :: layers) base) with (wrap l (stack layers base)).
  change (composed tag (l :: layers)) with (layerName l ++ str "+" ++ composed tag layers).
  assert (HC : forall name, Bounded.ComposeTag name (Some (stack layers base)) = name ++ str "+" ++ composed tag layers).
  { intros name. unfold Bounded.ComposeTag. cbn. rewrite IH. by rewrite bool_decide_eq_false_2 by by apply composed_nil. }
  destruct l; cbn [wrap cd_Name]; unfold Gzip.CodecName, Zlib.CodecName, Flate.CodecName, Gob.CodecName, BinaryCodec.CodecName;
    cbn; by rewrite HC.
Qed.
Lemma stack_tag_unnamed layers (base : Codec T) : default [] (cd_Name base) = [] ->
  default [] (cd_Name (stack layers base)) = [].
Proof.
  intros Hb. induction layers as [|l layers IH]; [done|].
  change (stack (l :: layers) base) with (wrap l (stack layers base)).
  assert (HC : forall name, Bounded.ComposeTag name (Some (stack layers base)) = []).
  { intros name. unfold Bounded.ComposeTag. cbn. destruct (cd_Name (stack layers base)); [|done]. cbn in IH. by subst. }
  destruct l; cbn [wrap cd_Name default]; unfold Gzip.CodecName, Zlib.CodecName, Flate.CodecName, Gob.CodecName, BinaryCodec.CodecName;
    cbn; by rewrite HC.
Qed.

(** A tag without a plus sign ends where the next plus sign is. *)
Lemma plus_split (a b : bytes) x y : x2b ∉ a -> x2b ∉ b -> a ++ str "+" ++ x = b ++ str "+" ++ y -> a = b /\ x = y.
Proof.
  revert b. induction a as [|c a IH]; intros [|d b] Ha Hb H; cbn in *; simplify_eq; [done|set_solver|set_solver|].
  destruct (IH b) as [-> ->]; [set_solver|set_solver|done|done].
Qed.
Lemma layerName_plain l : x2b ∉ layerName l.
Proof. apply (bool_decide_unpack _). by destruct l. Qed.
Lemma composed_inj l1 l2 b1 b2 : x2b ∉ b1 -> x2b ∉ b2 -> composed b1 l1 = composed b2 l2 ->
  layerName <$> l1 = layerName <$> l2 /\ b1 = b2.
Proof.
  intros H1 H2. revert l2. induction l1 as [|x l1 IH]; intros [|y l2] H; simpl in H.
  - done.
  - subst. exfalso. apply H1. set_solver.
  - subst. exfalso. apply H2. set_solver.
  - apply plus_split in H as [Hn H]; [|apply layerName_plain..].
    apply IH in H as [? ?]. cbn. by rewrite Hn; split; [f_equal|].
Qed.
End Stack.
Arguments layer : clear implicits.

(** ** Properties *)

(** C25. The pools are scratch: whatever the pools hold when a call of a
    compressed codec takes from them, whatever they hand out, and whatever was
    done before with what they hand out, the call's outcome is the one it has
    with a compressor and a decompressor of its own; and an Encode that fails
    parks nothing. *)
Theorem codec_pools_invisible {T W R} (comp : Compressor W) (decomp : Decompressor R) (next : option (Codec T))
    (v : T) (data : bytes) (maxDecoded : Z) (pick : Bounded.choice) (writers : list W) (readers : list R) :
  CompressorLaws comp -> DecompressorLaws decomp ->
  (Bounded.Encode comp next v pick writers).1 = EncodeNew comp next v /\
  (Bounded.Decode decomp next data maxDecoded pick readers).1 =
    (Bounded.Decode decomp next data maxDecoded None []).1 /\
  (is_ok (Bounded.Encode comp next v pick writers).1 = false ->
    (Bounded.Encode comp next v pick writers).2 `sublist_of` writers).
Proof.
  intros HW HR. split_and!; [by apply Encode_pooled|by apply Decode_pooled|].
  unfold Bounded.Encode, Bounded.WriterPool_get, Bounded.poolGet. clear.
  repeat case_match; simplify_eq; cbn in *; try done; intros _; apply sublist_delete.
Qed.

(** The wrapped codec never sees what is refused: for a stream [r] of
    decompressed bytes, Decode hands the wrapped codec the whole stream when it
    ends cleanly within the ceiling; a stream beyond the ceiling, damaged or
    not, is ErrDecodedTooLarge; one that breaks off before is its own error; and
    a header that does not parse is the error of building a reader. *)
Theorem codec_Decode_bounded {T R} (decomp : Decompressor R) (next : Codec T) (data : bytes) (maxDecoded : Z) :
  0 <= maxDecoded < MaxInt64 ->
  (Bounded.Decode decomp (Some next) data maxDecoded None []).1 =
    match zr_new decomp data with
    | Err err => Err err
    | Ok r =>
      if blen (rd_data (zr_reader decomp r)) >? maxDecoded then Err ErrDecodedTooLarge
      else if decide (rd_tail (zr_reader decomp r) = Sentinel EOF)
           then cd_Decode next (rd_data (zr_reader decomp r))
           else Err (rd_tail (zr_reader decomp r))
    end.
Proof.
  intros Hm. unfold Bounded.Decode, Bounded.ReaderPool_get. cbn [Bounded.poolGet].
  destruct (zr_new decomp data) as [r|]; [|done]. rewrite inflate_spec by done.
  destruct (_ >? _); [done|]. by destruct (decide _).
Qed.

(** C24. A stack of codecs decodes what it encoded: for every list of gzip,
    zlib, flate, gob and binary layers over a codec that gives [v] back, Decode
    of what Encode wrote is [v], except when a compressed layer was given more
    than MaxDecodedBytes, which Encode accepts and Decode answers with
    ErrDecodedTooLarge. *)
Theorem codec_stack_roundtrip {T} (gzip_ zlib_ flate_ : Format) (gobBytes ungobBytes : bytes -> res bytes)
    (layers : list layer) (base : Codec T) (v : T) (data : bytes) :
  Forall (invertible gzip_ zlib_ flate_ gobBytes ungobBytes) layers ->
  (forall payload, cd_Encode base v = Ok payload -> cd_Decode base payload = Ok v) ->
  cd_Encode (stack gzip_ zlib_ flate_ gobBytes ungobBytes layers base) v = Ok data ->
  cd_Decode (stack gzip_ zlib_ flate_ gobBytes ungobBytes layers base) data =
    if fits gzip_ zlib_ flate_ gobBytes ungobBytes layers base v then Ok v else Err ErrDecodedTooLarge.
Proof. apply stack_decode. Qed.

(** The tag identifies the stack: two stacks of codecs whose innermost
    codecs are named without a plus sign have the same tag only if they are the
    same packages in the same order over the same innermost name; and a stack
    over a codec without a name has no tag. *)
Theorem codec_stack_tag {T} (gzip_ zlib_ flate_ : Format) (gobBytes ungobBytes : bytes -> res bytes)
    (l1 l2 : list layer) (base1 base2 : Codec T) (tag1 tag2 : bytes) :
  cd_Name base1 = Some tag1 -> cd_Name base2 = Some tag2 ->
  (tag1 = [] -> codecNameOf (stack gzip_ zlib_ flate_ gobBytes ungobBytes l1 base1) = []) /\
  (tag1 <> [] -> tag2 <> [] -> x2b ∉ tag1 -> x2b ∉ tag2 ->
   codecNameOf (stack gzip_ zlib_ flate_ gobBytes ungobBytes l1 base1) =
   codecNameOf (stack gzip_ zlib_ flate_ gobBytes ungobBytes l2 base2) ->
   layerName <$> l1 = layerName <$> l2 /\ tag1 = tag2).
Proof.
  intros H1 H2. unfold codecNameOf. split.
  - intros ->. apply stack_tag_unnamed. by rewrite H1.
  - intros Hn1 Hn2 Hp1 Hp2. erewrite !stack_tag_named by done. cbn. by apply composed_inj.
Qed.

(** A binary codec built by New without an inner codec cannot encode: the raw
    functions are those NewRaw is given. *)
Lemma binary_New_nil {T} transform restore (v : T) data :
  BinaryCodec.Encode (BinaryCodec.New None transform restore) v = Err BinaryCodec.errNilEncode /\
  BinaryCodec.Decode (BinaryCodec.New (T := T) None transform restore) data = Err BinaryCodec.errNilDecode.
Proof. done. Qed.

(** ** Witnesses

    A format with a one-byte header, whose writer and reader count the calls
    they served, and a codec of byte strings. *)
Definition tagComp : Compressor nat :=
  mkCompressor (Ok 0%nat) (fun n => n) (fun p n => (Ok tt, x1f :: p, Datatypes.S n)) (fun n => (Ok tt, [], n)).
Definition tagDecomp : Decompressor (nat * bytes) :=
  let header src (n : nat) : res (nat * bytes) :=
    match src with x1f :: p => Ok (n, p) | _ => Err (Prelude.New "gzip: invalid header") end in
  mkDecompressor (fun src => header src 0%nat)
    (fun src d => match header src (Datatypes.S d.1) with Ok d' => (Ok tt, d') | Err e => (Err e, d) end)
    (fun d => bytesReader d.2) (fun d => d).
Definition tagFormat : Format := mkFormat nat (nat * bytes) tagComp tagDecomp.
Definition plainCodec : Codec bytes := mkCodec Ok Ok (Some (str "json")).

Lemma tagComp_laws : CompressorLaws tagComp.
Proof. split; [done|]. by intros w0 w payload [= <-]. Qed.
Lemma tagDecomp_laws : DecompressorLaws tagDecomp.
Proof. split. intros [n p] [|[] src]; cbn; eauto. Qed.
Lemma tagFormat_lossless : lossless tagComp tagDecomp.
Proof.
  intros w0 payload out w [= <-] [= <- <-]. exists (0%nat, payload). rewrite app_nil_r.
  split_and!; [done|apply rd_data_bytesReader|done].
Qed.

Example codec_pools_invisible_witness :
  (Bounded.Encode tagComp (Some plainCodec) (str "a") (Some 0%nat) [7%nat]).1 = Ok (x1f :: str "a") /\
  (Bounded.Decode tagDecomp (Some plainCodec) (x1f :: str "a") 1 (Some 0%nat) [(7%nat, str "zz")]).1 = Ok (str "a").
Proof.
  destruct (codec_pools_invisible tagComp tagDecomp (Some plainCodec) (str "a") (x1f :: str "a") 1 (Some 0%nat) [7%nat]
    [(7%nat, str "zz")] tagComp_laws tagDecomp_laws) as (-> & -> & _). split; vm_compute; reflexivity.
Defined.

Example codec_Decode_bounded_witness :
  (Bounded.Decode tagDecomp (Some plainCodec) (x1f :: str "ab") 1 None []).1 = Err ErrDecodedTooLarge.
Proof. rewrite codec_Decode_bounded by done. vm_compute. reflexivity. Defined.

Example codec_stack_roundtrip_witness :
  cd_Decode (stack tagFormat tagFormat tagFormat Ok Ok [LGzip; LGob; LFlate] plainCodec) (x1f :: x1f :: str "ab") = Ok (str "ab").
Proof.
  rewrite (codec_stack_roundtrip tagFormat tagFormat tagFormat Ok Ok [LGzip; LGob; LFlate] plainCodec (str "ab")).
  - vm_compute. reflexivity.
  - repeat constructor; [exact tagFormat_lossless|by intros p q [= ->]|exact tagFormat_lossless].
  - by intros payload [= <-].
  - reflexivity.
Defined.

Example codec_stack_tag_witness :
  codecNameOf (stack tagFormat tagFormat tagFormat Ok Ok [LGzip] plainCodec) = str "gzip+json" /\
  codecNameOf (stack tagFormat tagFormat tagFormat Ok Ok [LGzip] plainCodec) <>
  codecNameOf (stack tagFormat tagFormat tagFormat Ok Ok [LFlate] plainCodec).
Proof.
  split; [reflexivity|]. intros H.
  destruct (codec_stack_tag tagFormat tagFormat tagFormat Ok Ok [LGzip] [LFlate] plainCodec plainCodec (str "json") (str "json"))
    as [_ Ht]; [reflexivity|reflexivity|].
  apply Ht in H; [|discriminate|discriminate|by apply (bool_decide_unpack _)|by apply (bool_decide_unpack _)].
  destruct H as [H _]. discriminate H.
Defined.
