(* ===== verification/Prefetch.v ===== *)
(** The prefetching cache (src/cas/cache/prefetch/prefetch.go): a read that
    starts a background load of what the object refers to.  A goroutine is a
    [Task] and a call at work a [Reader]; their steps are the source's accesses to what
    they share (the map of the cache, the store, the eviction policy, a cached
    object under its lock, the slots), so that a history interleaves them all. *)

From S2P Require Import Prelude Digest Binary Stream Envelope Backend MemBackend Store Float64 CacheMem CacheLru.

Module Prefetch.
Section SmartCache.
Context {S T L : Type}.
Variable backend : Backend S.
Variable codec : Codec T.
Variable obj : Object T.
Variable hasher : Hasher.
Variable onNew : option (bytes -> CachedStore T * L -> CachedStore T * L).
Abbreviation Cache := (St S T L).
Abbreviation storeGet := (CacheMem.Get backend codec obj hasher onNew).

(** ** A read of the cache in progress

    [CachedStore.Get] up to its next access to shared state: the map is looked
    up, the store is asked, an entry is put in the map unless another was put
    there meanwhile, the policy is told of it, and the object is loaded, which its lock
    makes one access. *)
Inductive getAt :=
  | Looking (d : Digest)
  | Asking (d : Digest)
  | Storing (d : Digest)
  | Telling (d : Digest) (ref : nat)
  | Loading (ref : nat).
Definition getStep (p : getAt) : M Cache (getAt + T) :=
  match p with
  | Looking d =>
    st ← get;
    match cache (cs st) !! DString d with
    | Some ref => setCs incrHits;; mret (inl (Loading ref))
    | None => setCs incrMisses;; mret (inl (Asking d))
    end
  | Asking d =>
    exists_ ← onStore (Store.Exists backend hasher d);
    if negb exists_ then throw (Errorf "cache: %w: %s" ErrNotFound)
    else mret (inl (Storing d))
  | Storing d =>
    st ← get;
    let c := cs st in
    let ref := next c in
    let c := mkCachedStore (<[ref := mkCachedObject d None]> (heap c)) (Datatypes.S ref) (cache c) (Hits c) (Misses c) (Loads c) (Evicts c) in
    match cache c !! DString d with
    | Some actual => put (mkSt (store st) c (client st));; mret (inl (Loading actual))
    | None =>
      put (mkSt (store st) (setCache (<[DString d := ref]> (cache c)) c) (client st));;
      mret (inl (Telling d ref))
    end
  | Telling d ref =>
    st ← get;
    let '(c, l) := match onNew with Some fn => fn (DString d) (cs st, client st) | None => (cs st, client st) end in
    put (mkSt (store st) c l);;
    mret (inl (Loading ref))
  | Loading ref => v ← Load backend codec obj hasher ref; mret (inr v)
  end.
(** The accesses without another's between them. *)
Fixpoint getSteps (fuel : nat) (p : getAt) : M Cache T :=
  match fuel with
  | O => throw (Prelude.New "out of steps")
  | Datatypes.S fuel => r ← getStep p; match r with inl p => getSteps fuel p | inr v => mret v end
  end.

Definition prefetchConcurrency : nat := 8.

Definition References (v : T) : list Digest := default [] (ob_References obj v).

(** [prefetchRecursive]: its loop over the references, which returns as soon as
    the context has ended, and the call at [depth] levels still to follow. *)
Definition prefetchRefs (prefetch : T -> M (Cache * gset bytes) unit) : list Digest -> M (Cache * gset bytes) unit :=
  fix loop refs :=
    match refs with
    | [] => mret tt
    | ref :: refs =>
      r ← attempt ctxErr;
      match r with
      | Err _ => mret tt
      | Ok _ =>
        if IsZero ref then loop refs
        else
          st ← get;
          if decide (DString ref ∈ st.2) then loop refs
          else
            onSnd (modify (fun seen => {[DString ref]} ∪ seen));;
            r ← attempt (onFst (storeGet ref));
            match r with
            | Err _ => loop refs
            | Ok loaded => prefetch loaded;; loop refs
            end
      end
    end.
Fixpoint prefetchRecursive (v : T) (depth : nat) : M (Cache * gset bytes) unit :=
  match depth with
  | O => mret tt
  | Datatypes.S depth => prefetchRefs (fun loaded => prefetchRecursive loaded depth) (References v)
  end.

(** ** A goroutine

    A frame is a call of [prefetchRecursive] at work: the references its loop
    has left, and its depth.  [tk_get] is the innermost loop's read, while it is
    in progress. *)
Record Task := mkTask {
  tk_ctx : ctx;
  tk_seen : gset bytes;
  tk_get : option getAt;
  tk_frames : list (list Digest * nat);
}.

(** The call's entry: nothing at depth 0. *)
Definition enter (v : T) (depth : nat) : list (list Digest * nat) :=
  match depth with O => [] | _ => [(References v, depth)] end.
Definition enterLoaded (loaded : T) (frames : list (list Digest * nat)) : list (list Digest * nat) :=
  match frames with [] => [] | (_, depth) :: _ => enter loaded (depth - 1) ++ frames end.

(** An access of the read in progress; or the start of the innermost loop's next
    iteration, or its return. *)
Definition taskStep (tk : Task) (st : Cache) : Task * Cache :=
  let frames := tk_frames tk in
  match tk_get tk with
  | Some p =>
    match getStep p (tk_ctx tk) st with
    | (Err _, c, st) => (mkTask c (tk_seen tk) None frames, st)
    | (Ok (inl p), c, st) => (mkTask c (tk_seen tk) (Some p) frames, st)
    | (Ok (inr loaded), c, st) => (mkTask c (tk_seen tk) None (enterLoaded loaded frames), st)
    end
  | None =>
    match frames with
    | [] => (tk, st)
    | ([], _) :: frames => (mkTask (tk_ctx tk) (tk_seen tk) None frames, st)
    | (ref :: refs, depth) :: frames =>
      match ctxErr (tk_ctx tk) tt with
      | (Err _, c, _) => (mkTask c (tk_seen tk) None frames, st)
      | (Ok _, c, _) =>
        if IsZero ref then (mkTask c (tk_seen tk) None ((refs, depth) :: frames), st)
        else if decide (DString ref ∈ tk_seen tk) then (mkTask c (tk_seen tk) None ((refs, depth) :: frames), st)
        else (mkTask c ({[DString ref]} ∪ tk_seen tk) (Some (Looking ref)) ((refs, depth) :: frames), st)
      end
    end
  end.

(** ** The cache

    [sem] holds one token per goroutine: its tokens are the tasks. *)
Record SmartCache := mkSmartCache { prefetchDepth : Z; tasks : list Task }.
Definition NewSmartCache (depth : Z) : SmartCache := mkSmartCache depth [].

(** The slot and the goroutine of a read that loaded its object.  [pctx] is the
    context the goroutine runs under: it ends by the timeout only. *)
Definition startPrefetch (pctx : ctx) (d : Digest) (loaded : T) (c : SmartCache) : SmartCache :=
  if prefetchDepth c <=? 0 then c
  else if decide (length (tasks c) < prefetchConcurrency)%nat then
    mkSmartCache (prefetchDepth c)
      (tasks c ++ [mkTask pctx {[DString d]} None (enter loaded (Z.to_nat (prefetchDepth c)))])
  else c.
Definition GetWithPrefetch (pctx : ctx) (d : Digest) : M (Cache * SmartCache) T :=
  loaded ← onFst (storeGet d);
  onSnd (modify (startPrefetch pctx d loaded));;
  mret loaded.

(** A goroutine's next step; one that has returned gives its token back. *)
Definition runTask (i : nat) (st : Cache * SmartCache) : Cache * SmartCache :=
  match tasks st.2 !! i with
  | None => st
  | Some tk =>
    match tk_get tk, tk_frames tk with
    | None, [] => (st.1, mkSmartCache (prefetchDepth st.2) (delete i (tasks st.2)))
    | _, _ => let '(tk, st1) := taskStep tk st.1 in (st1, mkSmartCache (prefetchDepth st.2) (<[i := tk]> (tasks st.2)))
    end
  end.

(** A call of [GetWithPrefetch] at work: its read, or the object it has loaded. *)
Record Reader := mkReader { rd_digest : Digest; rd_ctx : ctx; rd_pctx : ctx; rd_at : getAt + T }.

(** ** Histories: the steps of reads and goroutines, evictions, and reads that no
    other's step interrupts, in the order they take effect *)
Record system := mkSystem { sy_cache : Cache; sy_smart : SmartCache; sy_readers : list Reader }.
Inductive event :=
  | EvGet (c pctx : ctx) (d : Digest)
  | EvCall (c pctx : ctx) (d : Digest)
  | EvRead (i : nat)
  | EvRun (i : nat)
  | EvEvict (d : Digest)
  | EvClear.
Definition onCached (f : CachedStore T -> CachedStore T) (st : Cache) : Cache :=
  mkSt (store st) (f (cs st)) (client st).
(** A call's next step, with its answer if it is the last. *)
Definition runReader (i : nat) (x : system) : option (Digest * res T) * system :=
  match sy_readers x !! i with
  | None => (None, x)
  | Some rd =>
    let gone := delete i (sy_readers x) in
    match rd_at rd with
    | inl p =>
      match getStep p (rd_ctx rd) (sy_cache x) with
      | (Err e, _, st) => (Some (rd_digest rd, Err e), mkSystem st (sy_smart x) gone)
      | (Ok a, c, st) => (None, mkSystem st (sy_smart x) (<[i := mkReader (rd_digest rd) c (rd_pctx rd) a]> (sy_readers x)))
      end
    | inr loaded =>
      (Some (rd_digest rd, Ok loaded), mkSystem (sy_cache x) (startPrefetch (rd_pctx rd) (rd_digest rd) loaded (sy_smart x)) gone)
    end
  end.
Definition step (e : event) (x : system) : option (Digest * res T) * system :=
  match e with
  | EvGet c pctx d =>
    match GetWithPrefetch pctx d c (sy_cache x, sy_smart x) with
    | (r, _, (st, sc)) => (Some (d, r), mkSystem st sc (sy_readers x))
    end
  | EvCall c pctx d => (None, mkSystem (sy_cache x) (sy_smart x) (sy_readers x ++ [mkReader d c pctx (inl (Looking d))]))
  | EvRead i => runReader i x
  | EvRun i => let '(st, sc) := runTask i (sy_cache x, sy_smart x) in (None, mkSystem st sc (sy_readers x))
  | EvEvict d => (None, mkSystem (onCached (Evict d) (sy_cache x)) (sy_smart x) (sy_readers x))
  | EvClear => (None, mkSystem (onCached Clear (sy_cache x)) (sy_smart x) (sy_readers x))
  end.
(** The answers of the reads, in order. *)
Fixpoint run (es : list event) (x : system) : list (Digest * res T) * system :=
  match es with
  | [] => ([], x)
  | e :: es =>
    let '(o, x) := step e x in
    let '(os, x) := run es x in
    (option_list o ++ os, x)
  end.
End SmartCache.

(** ** What the cache keeps

    A policy may evict what it likes when an entry is added; it does not touch
    the objects or count reads.  The LRU policy is one. *)
Definition policy {T L} (onNew : option (bytes -> CachedStore T * L -> CachedStore T * L)) : Prop :=
  forall fn key c l c' l', onNew = Some fn -> fn key (c, l) = (c', l') ->
    heap c' = heap c /\ next c' = next c /\ cache c' ⊆ cache c /\ Hits c' = Hits c /\ Misses c' = Misses c.

Lemma evictLoop_policy {T} fuel (c : CachedStore T) l c' l' : evictLoop fuel c l = (c', l') ->
  heap c' = heap c /\ next c' = next c /\ cache c' ⊆ cache c /\ Hits c' = Hits c /\ Misses c' = Misses c.
Proof.
  revert c l. induction fuel as [|fuel IH]; intros c l H; cbn [evictLoop] in H; [by simplify_eq|].
  repeat case_match; simplify_eq; try done; apply IH in H as (-> & -> & Hc & -> & ->); split_and!; try done;
    (etrans; [exact Hc|]); apply delete_subseteq.
Qed.
Lemma note_policy {T} : policy (Some (@note T)).
Proof.
  intros fn key c l c' l' [= <-] H. unfold note in H. by apply evictLoop_policy in H.
Qed.
Lemma no_policy {T L} : policy (T := T) (L := L) None.
Proof. done. Qed.

Section Facts.
Context {S T L : Type} (B : Backend S) (codec : Codec T) (obj : Object T) (hasher : Hasher).
Context (inv quiet : S -> Prop) (key : Digest -> Prop) (abs : S -> gmap Digest bytes).
Context `{HB : !BackendSpec B inv quiet key abs}.
Context (onNew : option (bytes -> CachedStore T * L -> CachedStore T * L)) (Hpol : policy onNew).
Abbreviation Cache := (St S T L).

(** A background context stays one. *)
Context (Hctx_Exists : forall d s r c' s', bk_Exists B d [] s = (r, c', s') -> c' = []).
Context (Hctx_Get : forall d s r c' s', bk_Get B d [] s = (r, c', s') -> c' = []).

(** What a cached outcome is: a value is what the store decodes; [strict] says
    the same of an error, as it is when no read of the history was cut short. *)
Definition answers (strict : bool) (m : gmap Digest bytes) (d : Digest) (r : res T) : Prop :=
  exists data, m !! d = Some data /\
    match r with
    | Ok v => decodeObject codec obj data = Ok v
    | Err e => strict = true -> decodeObject codec obj data = Err e
    end.
Record cinv (strict : bool) (st : Cache) : Prop := {
  ci_store : inv (store st);
  ci_quiet : strict = true -> quiet (store st);
  ci_co : forall ref co, heap (cs st) !! ref = Some co ->
    hs_Validate hasher (co_digest co) = None /\ is_Some (abs (store st) !! co_digest co) /\
    (forall r, co_memo co = Some r -> answers strict (abs (store st)) (co_digest co) r);
  ci_cache : forall k ref, cache (cs st) !! k = Some ref ->
    exists co, heap (cs st) !! ref = Some co /\ DString (co_digest co) = k;
  ci_next : forall ref co, heap (cs st) !! ref = Some co -> (ref < next (cs st))%nat;
}.

(** A cache with the same objects and fewer entries. *)
Lemma cinv_sub strict st s' c' l' : cinv strict st -> inv s' -> (strict = true -> quiet s') -> abs s' = abs (store st) ->
  heap c' = heap (cs st) -> next c' = next (cs st) -> cache c' ⊆ cache (cs st) -> cinv strict (mkSt s' c' l').
Proof.
  intros [Hs Hq Hco Hca Hn] Hs' Hq' Ha Hh Hnx Hsub. split; cbn [store cs]; rewrite ?Ha, ?Hh, ?Hnx; try done.
  intros k ref Hk. apply Hca. by eapply lookup_weaken.
Qed.

Lemma Exists_valid d c s c' s' b : Store.Exists B hasher d c s = (Ok b, c', s') -> hs_Validate hasher d = None.
Proof. unfold Store.Exists. intros H. mstep H as E. apply lift_inv in E as (E & _ & _). symmetry in E. by apply check_inv in E as [_ ?]. Qed.

Lemma Exists_nil (strict : bool) d c s r c' s' : (strict = true -> c = []) -> Store.Exists B hasher d c s = (r, c', s') ->
  strict = true -> c' = [].
Proof.
  intros Hc H Hst. specialize (Hc Hst) as ->. unfold Store.Exists in H.
  mstep H as E; apply lift_inv in E as (_ & -> & _); [by eapply Hctx_Exists|done].
Qed.
Lemma StoreGet_nil (strict : bool) d c s r c' s' : (strict = true -> c = []) -> Store.Get B codec obj hasher d c s = (r, c', s') ->
  strict = true -> c' = [].
Proof.
  intros Hc H Hst. specialize (Hc Hst) as ->. unfold Store.Get, GetRaw, GetReader in H.
  assert (Hr : forall s r c' s', (ctxErr;; lift (check hasher d "store: get");; bk_Get B d) [] s = (r, c', s') -> c' = []).
  { intros s0 r0 c0 s0' H0. erewrite bind_ok in H0 by apply ctxErr_nil.
    mstep H0 as E; apply lift_inv in E as (_ & -> & _); [by eapply Hctx_Get|done]. }
  assert (HR : forall r c' s', (rc ← (ctxErr;; lift (check hasher d "store: get");; bk_Get B d);
    readThenClose rc (onReader (ioReadAll false)) readWins (wrap "cas: read object") (wrap "cas: close object")) [] s = (r, c', s') -> c' = []).
  { intros r0 c0 s0 H0. mstep H0 as E; apply Hr in E as ->; [|done].
    unfold readThenClose, onReader, ioReadAll in H0. rewrite readAll_quiet in H0. repeat case_match; by simplify_eq. }
  mstep H as E; apply HR in E as ->; [by apply lift_inv in H as (_ & -> & _)|done].
Qed.

Definition counted (c : CachedStore T) : Z := wrap64 (Hits c + Misses c).

Lemma counted_incr_hits c : counted (incrHits c) = wrap64 (counted c + 1).
Proof. unfold counted. cbn. unfold wrap64. rewrite !Zplus_mod_idemp_l. f_equal. lia. Qed.
Lemma counted_incr_misses c : counted (incrMisses c) = wrap64 (counted c + 1).
Proof. unfold counted. cbn. unfold wrap64. rewrite Zplus_mod_idemp_l, Zplus_mod_idemp_r. f_equal. lia. Qed.

(** The cache holds an entry for the key, and has its outcome. *)
Definition loaded (st : Cache) (k : bytes) : Prop :=
  exists ref, cache (cs st) !! k = Some ref /\ IsLoaded (cs st) ref = true.

Lemma Proxy_cinv strict d c st r c' st' :
  cinv strict st -> (strict = true -> c = []) -> CacheMem.Proxy B hasher onNew d c st = (r, c', st') ->
  cinv strict st' /\ abs (store st') = abs (store st) /\ (strict = true -> c' = []) /\
  counted (cs st') = wrap64 (counted (cs st) + 1) /\
  (onNew = None -> forall k, loaded st k -> loaded st' k) /\
  match r with
  | Ok ref => exists co, heap (cs st') !! ref = Some co /\ co_digest co = d /\ (onNew = None -> cache (cs st') !! DString d = Some ref)
  | Err e => strict = true -> key d -> hs_Validate hasher d = None ->
      abs (store st) !! d = None /\ errIs e ErrNotFound = true
  end.
Proof.
  intros Hi Hc H. pose proof Hi as [Hs Hq Hco Hca Hn]. unfold CacheMem.Proxy in H.
  erewrite bind_ok in H by reflexivity. destruct (cache (cs st) !! DString d) as [ref|] eqn:Ed.
  - unfold setCs in H. munfold. simplify_eq. destruct (Hca _ _ Ed) as (co & Eco & Ek). apply (inj DString) in Ek.
    split; [by eapply cinv_sub|]. split_and!; try done; [by apply counted_incr_hits|]. by exists co.
  - erewrite bind_ok in H by reflexivity.
    assert (Hcnt : counted (incrMisses (cs st)) = wrap64 (counted (cs st) + 1)) by apply counted_incr_misses.
    mstep H as E with b c1 st1; unfold onStore in E; cbn [store cs client] in E;
      destruct (Store.Exists B hasher d c (store st)) as [[m c2] s1] eqn:EE; simplify_eq;
      pose proof (Exists_store B hasher inv quiet key abs d c (store st) _ _ _ Hs EE) as (Hs1 & Hq1 & Ha1 & Hx & Ht).
    + pose proof (Exists_valid _ _ _ _ _ _ EE) as Hval.
      assert (Hi1 : cinv strict (mkSt s1 (incrMisses (cs st)) (client st))) by (eapply cinv_sub; eauto).
      destruct b; cbn [negb] in H.
      2:{ unfold throw in H. simplify_eq. split_and!; try done; [eauto using Exists_nil|]. intros Hst Hk _.
          split; [|done]. specialize (Hc Hst) as ->. apply eq_None_not_Some. intros Hd.
          destruct (Ht eq_refl (Hq Hst) Hd Hval) as [? _]. done. }
      erewrite bind_ok in H by reflexivity. cbn [store cs client incrMisses heap next cache Hits Misses Loads Evicts] in H.
      rewrite Ed in H. change (setCache _ _) with (added d (incrMisses (cs st))) in H.
      destruct (match onNew with Some fn => fn (DString d) (added d (incrMisses (cs st)), client st)
                | None => (added d (incrMisses (cs st)), client st) end) as [cx lx] eqn:Ecl.
      munfold. simplify_eq. cbn [store cs].
      assert (Hcx : heap cx = heap (added d (incrMisses (cs st))) /\ next cx = Datatypes.S (next (cs st)) /\
        cache cx ⊆ cache (added d (incrMisses (cs st))) /\ counted cx = counted (incrMisses (cs st)) /\
        (onNew = None -> cx = added d (incrMisses (cs st)))).
      { destruct onNew as [fn|] eqn:En; [|by simplify_eq].
        destruct (Hpol fn _ _ _ _ _ eq_refl Ecl) as (-> & -> & ? & Hh & Hm). unfold counted. by rewrite Hh, Hm. }
      destruct Hcx as (Hh & Hnx & Hsub & Hcn & Hno).
      split; [|split_and!; [done|eauto using Exists_nil|by rewrite Hcn| |]].
      * split; cbn [store cs]; rewrite ?Ha1, ?Hh, ?Hnx; [done|auto| | |].
        -- intros ref co E. cbn [added incrMisses heap next] in E. apply lookup_insert_Some in E as [[_ <-]|[_ E]]; [|eauto].
           cbn. split_and!; [done|auto|done].
        -- intros k ref E. eapply lookup_weaken in E; [|exact Hsub]. cbn [added incrMisses cache heap next] in *.
           apply lookup_insert_Some in E as [[<- <-]|[_ E]]; [rewrite lookup_insert_eq; by eexists|].
           destruct (Hca _ _ E) as (co & Eco & Ek). exists co. split; [|done]. rewrite lookup_insert_ne; [done|].
           intros <-. apply Hn in Eco. lia.
        -- intros ref co E. cbn [added incrMisses heap next] in E. apply lookup_insert_Some in E as [[<- _]|[_ E]]; [lia|].
           apply Hn in E. lia.
      * intros Hnone k (ref & Hk & Hl). rewrite (Hno Hnone). exists ref.
        unfold IsLoaded in *. cbn [cs added incrMisses cache heap next] in *. destruct (Hca _ _ Hk) as (co & Eco & Ek). split.
        -- rewrite lookup_insert_ne; [done|]. intros E. rewrite E in Ed. congruence.
        -- rewrite lookup_insert_ne; [done|]. intros E. apply Hn in Eco. lia.
      * eexists. rewrite Hh. cbn [added heap incrMisses next]. split_and!; [apply lookup_insert_eq|done|].
        intros Hnone. rewrite (Hno Hnone). apply lookup_insert_eq.
    + split; [eapply cinv_sub; eauto|]. split_and!; try done; [eauto using Exists_nil|].
      intros Hst Hk Hval. specialize (Hc Hst) as ->. exfalso.
      destruct (bs_Exists_total d (store st) Hs (Hq Hst) Hk) as (b & s2 & E2).
      unfold Store.Exists in EE. erewrite bind_ok in EE by (unfold lift; rewrite check_ok; [reflexivity| |done];
        by apply bs_key_nonzero). congruence.
Qed.

Lemma Load_cinv strict ref co c st r c' st' :
  cinv strict st -> (strict = true -> c = []) -> heap (cs st) !! ref = Some co ->
  Load B codec obj hasher ref c st = (r, c', st') ->
  cinv strict st' /\ abs (store st') = abs (store st) /\ (strict = true -> c' = []) /\
  counted (cs st') = counted (cs st) /\ answers strict (abs (store st)) (co_digest co) r /\
  cache (cs st') = cache (cs st) /\ IsLoaded (cs st') ref = true /\
  (forall ref', IsLoaded (cs st) ref' = true -> IsLoaded (cs st') ref' = true).
Proof.
  intros Hi Hc Hco H. pose proof Hi as [Hs Hq Hcos Hca Hn]. destruct (Hcos _ _ Hco) as (Hval & [data Hdata] & Hmemo).
  unfold Load in H. erewrite bind_ok in H by reflexivity. rewrite Hco in H.
  destruct (co_memo co) as [r0|] eqn:Em.
  { apply lift_inv in H as (-> & -> & ->). split_and!; try done; [by apply Hmemo|].
    unfold IsLoaded. rewrite Hco, Em. by rewrite bool_decide_eq_true_2. }
  apply bind_attempt in H as (r1 & c1 & st1 & E & H). unfold onStore in E.
  destruct (Store.Get B codec obj hasher (co_digest co) c (store st)) as [[r2 c2] s2] eqn:EG. simplify_eq.
  unfold setCs in H. munfold. cbn in H. simplify_eq. cbn [store cs].
  pose proof (Get_kept B codec obj hasher inv quiet key abs _ _ _ _ _ _ Hs EG) as (Hs2 & Hq2 & Ha2).
  assert (Hans : answers strict (abs (store st)) (co_digest co) r).
  { destruct r as [v|e].
    - by pose proof (Get_inv B codec obj hasher inv quiet key abs (co_digest co) c (store st) v c' s2 Hs EG) as (_ & _ & _ & ?).
    - exists data. split; [done|]. intros Hst. specialize (Hc Hst) as ->.
      destruct (Get_found B codec obj hasher inv quiet key abs _ _ _ Hs (Hq Hst) Hval Hdata) as (s3 & E3 & _). congruence. }
  split_and!; try done; [|by eapply StoreGet_nil| |].
  - split; cbn [store cs incrLoads setHeap heap cache next]; rewrite ?Ha2; [done|auto| | |].
    + intros ref' co'. rewrite lookup_insert. case_decide; [|eauto]. intros [= <-]. subst. cbn [co_digest co_memo].
      split_and!; [done|by eexists|by intros ? [= <-]].
    + intros k ref' Hk. destruct (Hca _ _ Hk) as (co' & E & Ek). rewrite lookup_insert.
      case_decide; [subst; eexists; split; [done|]|by eexists]. cbn. congruence.
    + intros ref' co'. rewrite lookup_insert. case_decide; [|eauto]. intros _. subst. by eapply Hn.
  - unfold IsLoaded. cbn [cs incrLoads setHeap heap]. by rewrite lookup_insert_eq.
  - intros ref'. unfold IsLoaded. cbn [cs incrLoads setHeap heap]. rewrite lookup_insert. by case_decide.
Qed.

(** One read through the cache. *)
Lemma storeGet_cinv strict d c st r c' st' :
  cinv strict st -> (strict = true -> c = []) -> CacheMem.Get B codec obj hasher onNew d c st = (r, c', st') ->
  cinv strict st' /\ abs (store st') = abs (store st) /\ (strict = true -> c' = []) /\
  counted (cs st') = wrap64 (counted (cs st) + 1) /\
  (onNew = None -> forall k, loaded st k -> loaded st' k) /\
  (onNew = None -> strict = true -> key d -> hs_Validate hasher d = None -> is_Some (abs (store st) !! d) ->
    loaded st' (DString d)) /\
  (forall v, r = Ok v -> answers strict (abs (store st)) d r) /\
  (strict = true -> key d -> hs_Validate hasher d = None ->
    match abs (store st) !! d with
    | Some data => r = decodeObject codec obj data
    | None => exists e, r = Err e /\ errIs e ErrNotFound = true
    end).
Proof.
  intros Hi Hc H. unfold CacheMem.Get in H. mstep H as E with ref c1 st1.
  - pose proof (Proxy_cinv strict _ _ _ _ _ _ Hi Hc E) as (Hi1 & Ha1 & Hc1 & Hn1 & Hk1 & co & Hco & Hd & Hcache).
    pose proof (Load_cinv strict _ _ _ _ _ _ _ Hi1 Hc1 Hco H) as (Hi2 & Ha2 & Hc2 & Hn2 & Hans & Hsame & Hld & Hmono).
    rewrite Ha1, Hd in *. split_and!; try done; [congruence| | |].
    + intros Hno k Hk. destruct (Hk1 Hno k Hk) as (ref' & Hr & Hl). exists ref'. rewrite Hsame. eauto.
    + intros Hno _ _ _ _. exists ref. rewrite Hsame. eauto.
    + intros Hst Hk Hval. destruct Hans as (data & -> & Hr). destruct r; [done|]. symmetry. by apply Hr.
  - pose proof (Proxy_cinv strict _ _ _ _ _ _ Hi Hc E) as (Hi1 & Ha1 & Hc1 & Hn1 & Hk1 & Herr).
    split_and!; try done.
    + intros Hno Hst Hk Hval Hd. destruct (Herr Hst Hk Hval) as [E' _]. rewrite E' in Hd. by destruct Hd.
    + intros Hst Hk Hval. destruct (Herr Hst Hk Hval) as [-> ?]. eauto.
Qed.

(** ** The steps of a read *)
Abbreviation gstep := (getStep B codec obj hasher onNew).
Abbreviation gsteps := (getSteps B codec obj hasher onNew).

(** Uninterrupted, they are [CachedStore.Get]. *)
Lemma getSteps_S fuel p c st : gsteps (Datatypes.S fuel) p c st =
  match gstep p c st with
  | (Ok (inl p), c, st) => gsteps fuel p c st
  | (Ok (inr v), c, st) => (Ok v, c, st)
  | (Err e, c, st) => (Err e, c, st)
  end.
Proof. cbn [getSteps]. unfold mbind, M_bind. by destruct (gstep p c st) as [[[[p'|v]|e] c'] st']. Qed.
Lemma getSteps_Load fuel ref c st : gsteps (Datatypes.S fuel) (Loading ref) c st = Load B codec obj hasher ref c st.
Proof. rewrite getSteps_S. cbn [getStep]. unfold mbind, M_bind. by destruct (Load B codec obj hasher ref c st) as [[[v|e] c'] st']. Qed.
Lemma getSteps_Get d c st : gsteps 5 (Looking d) c st = CacheMem.Get B codec obj hasher onNew d c st.
Proof.
  rewrite getSteps_S. unfold CacheMem.Get, CacheMem.Proxy. cbn [getStep]. unfold setCs. munfold. cbn [store cs client].
  destruct (cache (cs st) !! DString d) as [ref|] eqn:Ed; [apply getSteps_Load|].
  rewrite getSteps_S. cbn [getStep]. unfold onStore, mbind, M_bind. cbn [store cs client].
  destruct (Store.Exists B hasher d c (store st)) as [[[[]|e] c1] s1]; cbn [negb store cs client]; [|done..].
  unfold mret at 1, M_ret at 1. cbv beta iota.
  rewrite getSteps_S. cbn [getStep]. munfold. cbn [store cs client incrMisses cache]. rewrite Ed. cbn [store cs client].
  rewrite getSteps_S. cbn [getStep]. munfold. cbn [store cs client].
  pose proof (getSteps_Load 0) as HL. destruct onNew as [fn|]; [destruct (fn (DString d) _) as [cx lx]|]; apply HL.
Qed.

(** Five are enough: each step leaves fewer to take. *)
Definition left_of (p : getAt) : nat :=
  match p with Looking _ => 5 | Asking _ => 4 | Storing _ => 3 | Telling _ _ => 2 | Loading _ => 1 end.
Lemma getStep_left p c st p' c' st' : gstep p c st = (Ok (inl p'), c', st') -> (left_of p' < left_of p)%nat.
Proof.
  destruct p; cbn [getStep left_of]; intros H.
  - unfold setCs in H. munfold. case_match; simplify_eq; cbn; lia.
  - mstep H as E with b c1 st1. destruct b; cbn [negb] in H; munfold; simplify_eq; cbn; lia.
  - munfold. case_match; simplify_eq; cbn; lia.
  - munfold. case_match. simplify_eq. cbn. lia.
  - by mstep H as E with v c1 st1.
Qed.

(** So a call whose steps nothing comes between is [GetWithPrefetch]. *)
Lemma reader_alone fuel p c pctx d st sc rs : (left_of p <= fuel)%nat ->
  let '(r, _, st') := gsteps fuel p c st in
  exists k, run B codec obj hasher onNew (replicate k (EvRead (length rs))) (mkSystem st sc (rs ++ [mkReader d c pctx (inl p)])) =
    ([(d, r)], mkSystem st' (match r with Ok v => startPrefetch obj pctx d v sc | Err _ => sc end) rs).
Proof.
  revert p c st. induction fuel as [|fuel IH]; intros p c st Hp; [by destruct p; cbn in Hp; lia|].
  assert (Hgo : forall k rd st, run B codec obj hasher onNew (replicate (Datatypes.S k) (EvRead (length rs))) (mkSystem st sc (rs ++ [rd])) =
    let '(o, x) := runReader B codec obj hasher onNew (length rs) (mkSystem st sc (rs ++ [rd])) in
    let '(os, x) := run B codec obj hasher onNew (replicate k (EvRead (length rs))) x in (option_list o ++ os, x)) by done.
  rewrite getSteps_S. pose proof (getStep_left p c st) as Hl. unfold runReader in Hgo. cbn [sy_readers sy_cache sy_smart] in Hgo.
  assert (Hat : forall rd : Reader, (rs ++ [rd]) !! length rs = Some rd) by (intros; by apply list_lookup_middle).
  assert (Hset : forall rd rd' : Reader, <[length rs := rd']> (rs ++ [rd]) = rs ++ [rd'])
    by (intros; by rewrite insert_app_r_alt, Nat.sub_diag by done).
  assert (Hdel : forall rd : Reader, delete (length rs) (rs ++ [rd]) = rs) by (intros; by rewrite delete_middle, app_nil_r).
  destruct (gstep p c st) as [[[[p'|v]|e] c1] st1] eqn:E.
  - specialize (IH p' c1 st1). destruct (gsteps fuel p' c1 st1) as [[r c'] st'].
    destruct IH as [k Hk]; [specialize (Hl p' c1 st1 eq_refl); lia|]. exists (Datatypes.S k).
    rewrite Hgo, Hat. cbn [rd_at rd_ctx rd_digest rd_pctx]. by rewrite E, Hset, Hk.
  - exists 2%nat. rewrite Hgo, Hat. cbn [rd_at rd_ctx rd_digest rd_pctx]. rewrite E, Hset, Hgo, Hat.
    cbn [rd_at rd_ctx rd_digest rd_pctx]. by rewrite Hdel.
  - exists 1%nat. rewrite Hgo, Hat. cbn [rd_at rd_ctx rd_digest rd_pctx]. by rewrite E, Hdel.
Qed.
Lemma EvGet_is_a_call c pctx d x : exists k,
  let '(o, y) := step B codec obj hasher onNew (EvGet c pctx d) x in
  run B codec obj hasher onNew (EvCall c pctx d :: replicate k (EvRead (length (sy_readers x)))) x = (option_list o, y).
Proof.
  destruct x as [st sc rs]. pose proof (reader_alone 5 (Looking d) c pctx d st sc rs (le_n 5)) as H. rewrite getSteps_Get in H.
  cbn [run step sy_readers sy_cache sy_smart]. unfold GetWithPrefetch, onFst, onSnd. munfold. cbn [fst snd].
  destruct (CacheMem.Get B codec obj hasher onNew d c st) as [[[v|e] c'] st']; destruct H as [k Hk]; exists k; by rewrite Hk.
Qed.

(** An object on the heap is there to stay, for the same digest. *)
Definition kept (c c' : CachedStore T) : Prop :=
  forall ref co, heap c !! ref = Some co -> exists co', heap c' !! ref = Some co' /\ co_digest co' = co_digest co.
#[local] Instance kept_po : PreOrder kept.
Proof.
  split; [by intros c ref co; eauto|]. intros c1 c2 c3 H1 H2 ref co (co2 & E2 & D2)%H1.
  apply H2 in E2 as (co3 & ? & ?). exists co3. by rewrite <-D2.
Qed.
Lemma kept_heap c c' : heap c' = heap c -> kept c c'.
Proof. intros E ref co. rewrite E. eauto. Qed.
Lemma Load_keeps_heap ref c (st : Cache) r c' st' : Load B codec obj hasher ref c st = (r, c', st') -> kept (cs st) (cs st').
Proof.
  unfold Load, onStore, setCs. intros H. munfold. destruct (heap (cs st) !! ref) as [co|] eqn:Eco; [|by simplify_eq].
  destruct (co_memo co); [by simplify_eq|]. destruct (Store.Get _ _ _ _ _ _ _) as [[r2 c2] s2]. simplify_eq.
  intros ref' co' E. cbn. rewrite lookup_insert. case_decide; [|eauto]. subst. simplify_eq. by eexists.
Qed.

(** What a read answers, over the store's objects [m]. *)
Definition read_ok (strict : bool) (m : gmap Digest bytes) (d : Digest) (r : res T) : Prop :=
  (forall v, r = Ok v -> exists data, m !! d = Some data /\ decodeObject codec obj data = Ok v) /\
  (strict = true -> key d -> hs_Validate hasher d = None ->
    match m !! d with
    | Some data => r = decodeObject codec obj data
    | None => exists e, r = Err e /\ errIs e ErrNotFound = true
    end).
Lemma answers_read strict m d r : answers strict m d r -> read_ok strict m d r.
Proof.
  intros (data & Hd & Hr). split; [by intros v ->; eauto|]. intros Hst _ _. rewrite Hd. destruct r; symmetry; auto.
Qed.

(** What a read in progress knows. *)
Definition holds_at (c : CachedStore T) (d : Digest) (ref : nat) : Prop :=
  exists co, heap c !! ref = Some co /\ co_digest co = d.
Definition at_ok (m : gmap Digest bytes) (c : CachedStore T) (d : Digest) (p : getAt) : Prop :=
  match p with
  | Looking d' | Asking d' => d' = d
  | Storing d' => d' = d /\ hs_Validate hasher d = None /\ is_Some (m !! d)
  | Telling d' ref => d' = d /\ holds_at c d ref
  | Loading ref => holds_at c d ref
  end.
Lemma at_ok_kept m c c' d p : kept c c' -> at_ok m c d p -> at_ok m c' d p.
Proof.
  intros Hk. assert (H : forall ref, holds_at c d ref -> holds_at c' d ref).
  { intros ref (co & (co' & ? & E)%Hk & <-). by exists co'. }
  destruct p; cbn; naive_solver.
Qed.

(** The new object of a read that found no entry. *)
Definition allocated (d : Digest) (c : CachedStore T) : CachedStore T :=
  mkCachedStore (<[next c := mkCachedObject d None]> (heap c)) (Datatypes.S (next c)) (cache c) (Hits c) (Misses c) (Loads c) (Evicts c).
Lemma allocated_cinv (strict : bool) (st : Cache) (d : Digest) (m : gmap bytes nat) : cinv strict st -> hs_Validate hasher d = None -> is_Some (abs (store st) !! d) ->
  (forall k ref, m !! k = Some ref -> cache (cs st) !! k = Some ref \/ (k = DString d /\ ref = next (cs st))) ->
  cinv strict (mkSt (store st) (setCache m (allocated d (cs st))) (client st)) /\
  kept (cs st) (allocated d (cs st)) /\ holds_at (allocated d (cs st)) d (next (cs st)).
Proof.
  intros [Hs Hq Hco Hca Hn] Hv Hd Hm. assert (Hne : forall ref co, heap (cs st) !! ref = Some co -> next (cs st) <> ref)
    by (intros ref co ?%Hn; lia).
  assert (Hk : kept (cs st) (allocated d (cs st))).
  { intros ref co E. cbn. rewrite lookup_insert_ne by eauto. eauto. }
  split; [|split; [done|eexists; cbn; split; [apply lookup_insert_eq|done]]].
  split; cbn [store cs setCache allocated heap next cache]; [done..| | |].
  - intros ref co [[_ <-]|[_ E]]%lookup_insert_Some; [|eauto]. cbn. by split_and!.
  - intros k ref [(co & Eco & Ek)%Hca|[-> ->]]%Hm.
    + exists co. split; [|done]. rewrite lookup_insert_ne by eauto. done.
    + rewrite lookup_insert_eq. by eexists.
  - intros ref co [[<- _]|[_ ?%Hn]]%lookup_insert_Some; lia.
Qed.

(** One step keeps the cache's invariant and what the read knows. *)
Lemma getStep_cinv strict p d c st r c' st' :
  cinv strict st -> (strict = true -> c = []) -> at_ok (abs (store st)) (cs st) d p -> gstep p c st = (r, c', st') ->
  cinv strict st' /\ abs (store st') = abs (store st) /\ (strict = true -> c' = []) /\ kept (cs st) (cs st') /\
  match r with
  | Ok (inl p') => at_ok (abs (store st)) (cs st') d p'
  | Ok (inr v) => read_ok strict (abs (store st)) d (Ok v)
  | Err e => read_ok strict (abs (store st)) d (Err e)
  end.
Proof.
  intros Hi Hc Hp H. pose proof Hi as [Hs Hq Hco Hca Hn]. destruct p as [d'|d'|d'|d' ref|ref]; cbn [at_ok getStep] in Hp, H.
  - subst d'. unfold setCs in H. munfold. destruct (cache (cs st) !! DString d) as [ref|] eqn:Ed; simplify_eq; cbn [store cs];
      (split_and!; [by eapply cinv_sub|done|done|by apply kept_heap|]); [|done].
    destruct (Hca _ _ Ed) as (co & Eco & Ek%(inj DString)). by exists co.
  - subst d'. mstep H as E with b c1 st1; unfold onStore in E;
      destruct (Store.Exists B hasher d c (store st)) as [[m c2] s1] eqn:EE; simplify_eq;
      pose proof (Exists_store B hasher inv quiet key abs d c (store st) _ _ _ Hs EE) as (Hs1 & Hq1 & Ha1 & Hx & Ht);
      assert (Hi1 : cinv strict (mkSt s1 (cs st) (client st))) by (eapply cinv_sub; eauto).
    + pose proof (Exists_valid _ _ _ _ _ _ EE) as Hval. destruct b; cbn [negb] in H; munfold; simplify_eq; cbn [store cs];
        (split_and!; [done|done|eauto using Exists_nil|reflexivity|]); [by split_and!; auto|].
      split; [done|]. intros Hst Hk _. specialize (Hc Hst) as ->.
      destruct (abs (store st) !! d) as [data|] eqn:Ed; [|by eexists].
      destruct (Ht eq_refl (Hq Hst) (ex_intro _ data eq_refl) Hval) as [? _]. done.
    + split_and!; [done|done|eauto using Exists_nil|reflexivity|]. split; [done|].
      intros Hst Hk Hval. specialize (Hc Hst) as ->. exfalso.
      destruct (bs_Exists_total d (store st) Hs (Hq Hst) Hk) as (b & s2 & E2).
      unfold Store.Exists in EE. erewrite bind_ok in EE by (unfold lift; rewrite check_ok; [reflexivity| |done];
        by apply bs_key_nonzero). congruence.
  - destruct Hp as (-> & Hv & Hd). munfold. cbn [cache] in H. fold (allocated d (cs st)) in H.
    destruct (cache (cs st) !! DString d) as [actual|] eqn:Ed; simplify_eq; cbn [store cs].
    + destruct (allocated_cinv strict st d (cache (cs st)) Hi Hv Hd) as (Hi' & Hk & _); [by left|].
      split_and!; [exact Hi'|done|done|exact Hk|]. destruct (Hca _ _ Ed) as (co & (co' & ? & Ec)%Hk & Ek%(inj DString)).
      exists co'. by rewrite Ec.
    + destruct (allocated_cinv strict st d (<[DString d := next (cs st)]> (cache (cs st))) Hi Hv Hd) as (Hi' & Hk & Hh).
      { intros k ref [[<- <-]|[_ E]]%lookup_insert_Some; auto. }
      split_and!; [exact Hi'|done|done|exact Hk|by split].
  - destruct Hp as [-> Hh]. munfold.
    destruct (match onNew with Some fn => _ | None => _ end) as [cx lx] eqn:Ec in H. simplify_eq. cbn [store cs].
    assert (heap cx = heap (cs st) /\ next cx = next (cs st) /\ cache cx ⊆ cache (cs st)) as (Eh & En & Es).
    { destruct onNew as [fn|] eqn:Eo; [|by simplify_eq]. by destruct (Hpol fn _ _ _ _ _ eq_refl Ec) as (? & ? & ? & _). }
    split_and!; [by eapply cinv_sub|done|done|by apply kept_heap|]. eapply (at_ok_kept _ _ _ _ (Loading ref)); [by apply kept_heap|exact Hh].
  - destruct Hp as (co & Eco & <-). mstep H as E with v c1 st1; pose proof (Load_keeps_heap _ _ _ _ _ _ E);
      pose proof (Load_cinv strict _ _ _ _ _ _ _ Hi Hc Eco E) as (Hi2 & Ha2 & Hc2 & _ & Hans%answers_read & _);
      [munfold; simplify_eq|]; by split_and!.
Qed.

(** So do the steps together. *)
Lemma getSteps_kept strict fuel p d c st r c' st' :
  cinv strict st -> (strict = true -> c = []) -> at_ok (abs (store st)) (cs st) d p -> gsteps fuel p c st = (r, c', st') ->
  kept (cs st) (cs st').
Proof.
  revert p c st. induction fuel as [|fuel IH]; intros p c st Hi Hc Hp H; [cbn in H; unfold throw in H; by simplify_eq|].
  cbn [getSteps] in H. mstep H as E with a c1 st1;
    pose proof (getStep_cinv strict _ _ _ _ _ _ _ Hi Hc Hp E) as (Hi1 & Ha1 & Hc1 & Hk1 & Hr); [|done].
  destruct a as [p'|v]; [|munfold; by simplify_eq]. etrans; [done|]. eapply (IH p'); [done..| |done]. by rewrite Ha1.
Qed.
Lemma storeGet_kept strict d c st r c' st' : cinv strict st -> (strict = true -> c = []) ->
  CacheMem.Get B codec obj hasher onNew d c st = (r, c', st') -> kept (cs st) (cs st').
Proof. intros Hi Hc H. rewrite <-getSteps_Get in H. by eapply (getSteps_kept strict 5 (Looking d)). Qed.

(** ** A prefetch on its own *)

(** What a prefetch did between two states: the digests it saw are the lookups
    it made, and, when nothing evicts and no context ends, what it saw and the
    store has is loaded. *)
Record effect (strict : bool) (x y : Cache * gset bytes) : Prop := {
  ef_inv : cinv strict y.1;
  ef_abs : abs (store y.1) = abs (store x.1);
  ef_seen : x.2 ⊆ y.2;
  ef_count : counted (cs y.1) = wrap64 (counted (cs x.1) + (Z.of_nat (size y.2) - Z.of_nat (size x.2)));
  ef_keeps : onNew = None -> forall k, loaded x.1 k -> loaded y.1 k;
  ef_warm : onNew = None -> strict = true -> forall d, DString d ∈ y.2 -> DString d ∉ x.2 ->
    key d -> hs_Validate hasher d = None -> is_Some (abs (store x.1) !! d) -> loaded y.1 (DString d);
}.
Lemma effect_refl strict x : cinv strict x.1 -> effect strict x x.
Proof.
  intros Hi. split; try done. rewrite Z.sub_diag, Z.add_0_r. unfold counted, wrap64. by rewrite Zmod_mod.
Qed.
Lemma effect_trans strict x y z : effect strict x y -> effect strict y z -> effect strict x z.
Proof.
  intros [] []. split; [done|congruence|set_solver| |auto|].
  - rewrite ef_count1, ef_count0. unfold wrap64. rewrite Zplus_mod_idemp_l. f_equal. lia.
  - intros Hno Hst d Hz Hx Hk Hv Hd. destruct (decide (DString d ∈ y.2)) as [Hy|Hy]; [auto|].
    apply ef_warm1; try done. by rewrite ef_abs0.
Qed.

Lemma load_effect strict d c st seen r c' st' :
  cinv strict st -> (strict = true -> c = []) -> DString d ∉ seen ->
  CacheMem.Get B codec obj hasher onNew d c st = (r, c', st') ->
  effect strict (st, seen) (st', {[DString d]} ∪ seen) /\ (strict = true -> c' = []).
Proof.
  intros Hi Hc Hd H.
  pose proof (storeGet_cinv strict _ _ _ _ _ _ Hi Hc H) as (Hi' & Ha & Hc' & Hn & Hkeep & Hwarm & _).
  split; [|done]. split; cbn [fst snd]; [done|done|set_solver| |done|].
  - rewrite Hn. rewrite size_union, size_singleton by set_solver. f_equal. lia.
  - intros Hno Hst d' Hin Hout. assert (DString d' = DString d) as ->%(inj DString) by set_solver. by apply Hwarm.
Qed.

Abbreviation tstep := (taskStep B codec obj hasher onNew).
Definition alone (x y : Task * Cache) : Prop := y = tstep x.1 x.2.
Lemma alone_step (x y z : Task * Cache) : tstep x.1 x.2 = y -> rtc alone y z -> rtc alone x z.
Proof. intros <-. by apply rtc_l. Qed.

Lemma get_alone fuel p c st seen fr : (left_of p <= fuel)%nat ->
  let '(r, c', st') := gsteps fuel p c st in
  rtc alone (mkTask c seen (Some p) fr, st)
    (mkTask c' seen None (match r with Ok v => enterLoaded obj v fr | Err _ => fr end), st').
Proof.
  revert p c st. induction fuel as [|fuel IH]; intros p c st Hp; [by destruct p; cbn in Hp; lia|].
  rewrite getSteps_S. pose proof (getStep_left p c st) as Hl.
  destruct (gstep p c st) as [[[[p'|v]|e] c1] st1] eqn:E.
  - specialize (IH p' c1 st1). destruct (gsteps fuel p' c1 st1) as [[r c'] st'].
    eapply rtc_l; [|apply IH; specialize (Hl p' c1 st1 eq_refl); lia].
    unfold alone, taskStep. cbn [fst snd tk_get tk_ctx tk_seen tk_frames]. by rewrite E.
  - apply rtc_once. unfold alone, taskStep. cbn [fst snd tk_get tk_ctx tk_seen tk_frames]. by rewrite E.
  - apply rtc_once. unfold alone, taskStep. cbn [fst snd tk_get tk_ctx tk_seen tk_frames]. by rewrite E.
Qed.

(** The call [m] ends without an error, after the steps that take a goroutine
    through [frames], and in the same state. *)
Definition agrees (strict : bool) (m : M (Cache * gset bytes) unit) (frames : list (list Digest * nat))
    (post : gset bytes -> Prop) : Prop :=
  forall c st seen fr, cinv strict st -> (strict = true -> c = []) ->
  exists c' st' seen', m c (st, seen) = (Ok tt, c', (st', seen')) /\
    effect strict (st, seen) (st', seen') /\ (strict = true -> c' = [] /\ post seen') /\
    rtc alone (mkTask c seen None (frames ++ fr), st) (mkTask c' seen' None fr, st').

(** Every reference was seen. *)
Definition sees (refs : list Digest) (seen : gset bytes) : Prop :=
  forall ref, ref ∈ refs -> ref <> [] -> DString ref ∈ seen.
Lemma sees_cons ref refs seen seen' : (ref <> [] -> DString ref ∈ seen) -> seen ⊆ seen' -> sees refs seen' -> sees (ref :: refs) seen'.
Proof. intros H Hs Hr x [->|Hx]%elem_of_cons Hne; [set_solver|by apply Hr]. Qed.

(** One iteration of the loop. *)
Abbreviation loop := (prefetchRefs B codec obj hasher onNew).
Lemma prefetchRefs_cons rec ref refs c st seen :
  loop rec (ref :: refs) c (st, seen) =
  match ctxErr c tt with
  | (Err _, c, _) => (Ok tt, c, (st, seen))
  | (Ok _, c, _) =>
    if IsZero ref then loop rec refs c (st, seen)
    else if decide (DString ref ∈ seen) then loop rec refs c (st, seen)
    else
      match CacheMem.Get B codec obj hasher onNew ref c st with
      | (Err _, c, st) => loop rec refs c (st, {[DString ref]} ∪ seen)
      | (Ok v, c, st) => (rec v;; loop rec refs) c (st, {[DString ref]} ∪ seen)
      end
  end.
Proof.
  cbn [prefetchRefs]. unfold attempt, mbind, M_bind, onSnd, onFst, get, modify.
  destruct c as [|[e|] c]; cbn [ctxErr fst snd]; [|done|];
    (destruct (IsZero ref); [done|]); cbn [fst snd]; (destruct (decide (DString ref ∈ seen)); [done|]);
    cbn [fst snd]; by destruct (CacheMem.Get B codec obj hasher onNew ref _ st) as [[[v|e] c1] st1].
Qed.

Lemma refs_agree strict rec depth (refs : list Digest) :
  (forall v, agrees strict (rec v) (enter obj v depth) (fun _ => True)) ->
  agrees strict (loop rec refs) [(refs, Datatypes.S depth)] (sees refs).
Proof.
  intros Hrec. induction refs as [|ref refs IH]; intros c st seen fr Hi Hc; cbn [app].
  - exists c, st, seen. split_and!; [done|by apply effect_refl|split; [auto|by intros ? ?%elem_of_nil]|by apply rtc_once].
  - rewrite prefetchRefs_cons.
    pose (start := (mkTask c seen None ((ref :: refs, Datatypes.S depth) :: fr), st)).
    assert (Hstep : forall y, tstep start.1 start.2 = y -> forall z, rtc alone y z -> rtc alone start z)
      by (intros y Hy z; exact (alone_step start y z Hy)).
    subst start. unfold taskStep in Hstep. cbn [fst snd tk_get tk_frames tk_ctx tk_seen] in Hstep.
    assert (Hc1 : strict = true -> (ctxErr c tt) = (Ok tt, [], tt)) by (intros Hst; by specialize (Hc Hst) as ->).
    destruct (ctxErr c tt) as [[[[]|e] c1] []].
    2:{ exists c1, st, seen. split_and!; [done|by apply effect_refl|by intros ?%Hc1|]. by eapply Hstep. }
    assert (Hn1 : strict = true -> c1 = []) by (intros Hst%Hc1; by simplify_eq). clear Hc1.
    assert (Hskip : (ref <> [] -> DString ref ∈ seen) ->
      (forall z, rtc alone (mkTask c1 seen None ((refs, Datatypes.S depth) :: fr), st) z ->
        rtc alone (mkTask c seen None ((ref :: refs, Datatypes.S depth) :: fr), st) z) ->
      exists c' st' seen', loop rec refs c1 (st, seen) = (Ok tt, c', (st', seen')) /\
        effect strict (st, seen) (st', seen') /\ (strict = true -> c' = [] /\ sees (ref :: refs) seen') /\
        rtc alone (mkTask c seen None ((ref :: refs, Datatypes.S depth) :: fr), st) (mkTask c' seen' None fr, st')).
    { intros Hs Ht. destruct (IH c1 st seen fr Hi Hn1) as (c' & st' & seen' & Hm & He & Hp & Hr).
      exists c', st', seen'. split_and!; [done|done| |by apply Ht].
      intros Hst. destruct (Hp Hst). split; [done|]. eapply sees_cons; [exact Hs|apply (ef_seen _ _ _ He)|done]. }
    destruct (IsZero ref) eqn:EZ; [apply IsZero_true in EZ as ->; apply Hskip; [done|by eapply Hstep]|].
    destruct (decide (DString ref ∈ seen)) as [Hin|Hout]; [apply Hskip; [done|by eapply Hstep]|]. clear Hskip.
    destruct (CacheMem.Get B codec obj hasher onNew ref c1 st) as [[r2 c2] st2] eqn:EG.
    pose proof (load_effect strict _ _ _ _ _ _ _ Hi Hn1 Hout EG) as [He Hc2]. pose proof (ef_inv _ _ _ He) as Hi2.
    assert (Hfin : forall c3 st3 seen3, effect strict (st2, {[DString ref]} ∪ seen) (st3, seen3) -> (strict = true -> c3 = []) ->
      (forall z, rtc alone (mkTask c3 seen3 None ((refs, Datatypes.S depth) :: fr), st3) z ->
        rtc alone (mkTask c seen None ((ref :: refs, Datatypes.S depth) :: fr), st) z) ->
      exists c' st' seen', loop rec refs c3 (st3, seen3) = (Ok tt, c', (st', seen')) /\
        effect strict (st, seen) (st', seen') /\ (strict = true -> c' = [] /\ sees (ref :: refs) seen') /\
        rtc alone (mkTask c seen None ((ref :: refs, Datatypes.S depth) :: fr), st) (mkTask c' seen' None fr, st')).
    { intros c3 st3 seen3 He3 Hc3 Ht. destruct (IH c3 st3 seen3 fr (ef_inv _ _ _ He3) Hc3) as (c' & st' & seen' & Hm & He' & Hp & Hr).
      exists c', st', seen'. split_and!; [done|by do 2 (eapply effect_trans; [eassumption|])| |by apply Ht].
      intros Hst. destruct (Hp Hst). split; [done|].
      eapply (sees_cons _ _ ({[DString ref]} ∪ seen)); [set_solver| |done].
      etrans; [apply (ef_seen _ _ _ He3)|apply (ef_seen _ _ _ He')]. }
    pose proof (get_alone 5 (Looking ref) c1 st ({[DString ref]} ∪ seen) ((refs, Datatypes.S depth) :: fr) (le_n 5)) as Hget.
    rewrite getSteps_Get, EG in Hget.
    destruct r2 as [v|e]; [|by eapply Hfin; [apply effect_refl|..|intros z Hz; eapply Hstep; [done|]; etrans]].
    destruct (Hrec v c2 st2 ({[DString ref]} ∪ seen) ((refs, Datatypes.S depth) :: fr) Hi2 Hc2)
      as (c3 & st3 & seen3 & Hm & He3 & Hp3 & Hr3).
    erewrite bind_ok by exact Hm. eapply Hfin; [done|by intros []%Hp3|]. intros z Hz.
    eapply Hstep; [done|]. etrans; [exact Hget|]. cbn [enterLoaded]. rewrite Nat.sub_succ, Nat.sub_0_r. by etrans.
Qed.

Lemma prefetch_agrees strict depth v :
  agrees strict (prefetchRecursive B codec obj hasher onNew v depth) (enter obj v depth)
    (fun seen => (0 < depth)%nat -> sees (References obj v) seen).
Proof.
  revert v. induction depth as [|depth IH]; intros v.
  - intros c st seen fr Hi Hc. exists c, st, seen. split_and!; [done|by apply effect_refl|split; [auto|lia]|done].
  - intros c st seen fr Hi Hc. cbn [prefetchRecursive enter].
    destruct (refs_agree strict (fun loaded => prefetchRecursive B codec obj hasher onNew loaded depth) depth
      (References obj v)) with c st seen fr as (c' & st' & seen' & Hm & He & Hp & Hr); [|done|done|].
    + intros w c0 st0 seen0 fr0 Hi0 Hc0. destruct (IH w c0 st0 seen0 fr0 Hi0 Hc0) as (c1 & st1 & seen1 & ? & ? & Hp & ?).
      exists c1, st1, seen1. split_and!; [done|done|by intros []%Hp|done].
    + exists c', st', seen'. split_and!; [done|done| |done]. intros Hst. destruct (Hp Hst). by split.
Qed.

(** ** Histories *)
Definition task_ok (strict : bool) (m : gmap Digest bytes) (c : CachedStore T) (tk : Task) : Prop :=
  (strict = true -> tk_ctx tk = []) /\ match tk_get tk with Some p => exists d, at_ok m c d p | None => True end.
Definition reader_ok (strict : bool) (m : gmap Digest bytes) (c : CachedStore T) (rd : Reader) : Prop :=
  (strict = true -> rd_ctx rd = [] /\ rd_pctx rd = []) /\
  match rd_at rd with inl p => at_ok m c (rd_digest rd) p | inr v => read_ok strict m (rd_digest rd) (Ok v) end.
Lemma task_ok_kept strict m c c' tk : kept c c' -> task_ok strict m c tk -> task_ok strict m c' tk.
Proof.
  intros Hk [Hc Hp]. split; [done|]. destruct (tk_get tk); [|done]. destruct Hp as [d ?]. exists d. by eapply at_ok_kept.
Qed.
Lemma reader_ok_kept strict m c c' rd : kept c c' -> reader_ok strict m c rd -> reader_ok strict m c' rd.
Proof. intros Hk [Hc Hp]. split; [done|]. destruct (rd_at rd); [|done]. by eapply at_ok_kept. Qed.

Lemma taskStep_cinv strict tk st tk' st' : cinv strict st -> task_ok strict (abs (store st)) (cs st) tk -> tstep tk st = (tk', st') ->
  cinv strict st' /\ abs (store st') = abs (store st) /\ kept (cs st) (cs st') /\ task_ok strict (abs (store st)) (cs st') tk'.
Proof.
  intros Hi [Hc Hp] H. destruct tk as [c seen [p|] frames]; unfold taskStep in H; cbn [tk_get tk_frames tk_ctx tk_seen] in *.
  - destruct Hp as [d Hp]. destruct (gstep p c st) as [[r c1] st1] eqn:E.
    apply (getStep_cinv strict _ d) in E as (Hi1 & Ha1 & Hc1 & Hk1 & Hr); [|done..].
    destruct r as [[p'|v]|e]; simplify_eq; split_and!; try done; split; try done. by exists d.
  - destruct frames as [|[[|ref refs] depth] frames]; [by simplify_eq..|].
    assert (Hc1 : strict = true -> ctxErr c tt = (Ok tt, [], tt)) by (intros Hst; by specialize (Hc Hst) as ->).
    destruct (ctxErr c tt) as [[[[]|e] c1] []]; [|simplify_eq; split_and!; [done..|by split; [intros ?%Hc1|]]].
    assert (Hn1 : strict = true -> c1 = []) by (intros Hst%Hc1; by simplify_eq).
    destruct (IsZero ref); [by simplify_eq|]. destruct (decide _); simplify_eq; [done|].
    split_and!; [done..|]. split; [done|]. by exists ref.
Qed.

Record sysinv (strict : bool) (m : gmap Digest bytes) (x : system) : Prop := {
  si_cache : cinv strict (sy_cache x);
  si_abs : abs (store (sy_cache x)) = m;
  si_slots : (length (tasks (sy_smart x)) <= prefetchConcurrency)%nat;
  si_tasks : Forall (task_ok strict m (cs (sy_cache x))) (tasks (sy_smart x));
  si_readers : Forall (reader_ok strict m (cs (sy_cache x))) (sy_readers x);
}.
(** The contexts of a history in which nothing is cut short. *)
Definition event_ok (strict : bool) (e : event) : Prop :=
  match e with EvGet c pctx _ | EvCall c pctx _ => strict = true -> c = [] /\ pctx = [] | _ => True end.

(** A cache that went on: what the others know still holds. *)
Lemma sysinv_kept strict m x st : sysinv strict m x -> cinv strict st -> abs (store st) = m -> kept (cs (sy_cache x)) (cs st) ->
  sysinv strict m (mkSystem st (sy_smart x) (sy_readers x)).
Proof.
  intros [_ _ Hs Ht Hr] Hi Ha Hk. split; cbn [sy_cache sy_smart sy_readers]; [done..| |].
  - eapply list.Forall_impl; [exact Ht|]. intros. by eapply task_ok_kept.
  - eapply list.Forall_impl; [exact Hr|]. intros. by eapply reader_ok_kept.
Qed.

Lemma startPrefetch_inv strict m x pctx d v : sysinv strict m x -> (strict = true -> pctx = []) ->
  sysinv strict m (mkSystem (sy_cache x) (startPrefetch obj pctx d v (sy_smart x)) (sy_readers x)).
Proof.
  intros [Hi Ha Hs Ht Hr] Hc. unfold startPrefetch. case_match; [by split|]. case_decide; [|by split].
  split; cbn [sy_cache sy_smart sy_readers tasks]; [done|done| | |done].
  - rewrite length_app. cbn. lia.
  - apply list.Forall_app. split; [done|]. constructor; [|done]. by split.
Qed.
Lemma gone_inv strict m x i : sysinv strict m x -> sysinv strict m (mkSystem (sy_cache x) (sy_smart x) (delete i (sy_readers x))).
Proof. intros [? ? ? ? ?]. split; [done..|]. by apply list.Forall_delete. Qed.

Lemma runTask_inv strict m i x st sc : sysinv strict m x -> runTask B codec obj hasher onNew i (sy_cache x, sy_smart x) = (st, sc) ->
  sysinv strict m (mkSystem st sc (sy_readers x)).
Proof.
  intros Hx H. pose proof Hx as [Hi Ha Hs Ht Hr]. unfold runTask in H. cbn [fst snd] in H.
  destruct (tasks (sy_smart x) !! i) as [tk|] eqn:E; [|by simplify_eq; destruct x].
  pose proof (list.Forall_lookup_1 _ _ _ _ Ht E) as Htk. destruct (tstep tk (sy_cache x)) as [tk' st'] eqn:E1.
  assert (Hstep : (st', mkSmartCache (prefetchDepth (sy_smart x)) (<[i := tk']> (tasks (sy_smart x)))) = (st, sc) ->
    sysinv strict m (mkSystem st sc (sy_readers x))).
  { intros [= <- <-]. apply (taskStep_cinv strict) in E1 as (Hi' & Ha' & Hk & Htk'); [|done|by rewrite Ha].
    rewrite Ha in *. destruct (sysinv_kept strict m x st' Hx Hi' Ha' Hk) as [_ _ _ Ht' Hr']. cbn in Ht', Hr'.
    split; cbn [sy_cache sy_smart sy_readers tasks]; [done|done|by rewrite length_insert|by apply list.Forall_insert|done]. }
  destruct (tk_get tk); [by apply Hstep|]. destruct (tk_frames tk); [|by apply Hstep]. simplify_eq.
  split; cbn [sy_cache sy_smart sy_readers tasks]; [done|done| |by apply list.Forall_delete|done].
  rewrite length_delete by done. lia.
Qed.

Lemma runReader_inv strict m i x o y : sysinv strict m x -> runReader B codec obj hasher onNew i x = (o, y) ->
  sysinv strict m y /\ forall d r, o = Some (d, r) -> read_ok strict m d r.
Proof.
  intros Hx H. unfold runReader in H. destruct (sy_readers x !! i) as [rd|] eqn:E; [|by simplify_eq].
  pose proof (list.Forall_lookup_1 _ _ _ _ (si_readers _ _ _ Hx) E) as [Hc Hp]. destruct (rd_at rd) as [p|v].
  - destruct (gstep p (rd_ctx rd) (sy_cache x)) as [[r c1] st1] eqn:E1. pose proof (si_abs _ _ _ Hx) as Ha.
    apply (getStep_cinv strict _ (rd_digest rd)) in E1 as (Hi1 & Ha1 & Hc1 & Hk1 & Hr);
      [|apply Hx|by intros []%Hc|by rewrite Ha]. rewrite Ha in *.
    pose proof (sysinv_kept strict m x st1 Hx Hi1 Ha1 Hk1) as Hx1. destruct r as [a|e]; simplify_eq.
    + split; [|done]. destruct Hx1 as [Hi2 Ha2 Hs2 Ht2 Hr2]. split; [done..|]. apply list.Forall_insert; [done|].
      split; [|done]. cbn. intros Hst. split; [auto|by apply Hc].
    + split; [exact (gone_inv _ _ _ i Hx1)|]. by intros ? ? [= <- <-].
  - simplify_eq. split; [|by intros ? ? [= <- <-]].
    apply (startPrefetch_inv strict m (mkSystem _ _ _)); [by apply gone_inv|by intros []%Hc].
Qed.

Lemma GetWithPrefetch_inv strict m pctx d c x r c' st sc : sysinv strict m x -> (strict = true -> c = [] /\ pctx = []) ->
  GetWithPrefetch B codec obj hasher onNew pctx d c (sy_cache x, sy_smart x) = (r, c', (st, sc)) ->
  sysinv strict m (mkSystem st sc (sy_readers x)) /\ read_ok strict m d r.
Proof.
  intros Hx Hc H. unfold GetWithPrefetch in H.
  assert (HG : forall r1 c1 x1, onFst (CacheMem.Get B codec obj hasher onNew d) c (sy_cache x, sy_smart x) = (r1, c1, x1) ->
    sysinv strict m (mkSystem x1.1 (sy_smart x) (sy_readers x)) /\ x1.2 = sy_smart x /\ read_ok strict m d r1).
  { intros r1 c1 x1 E. apply onFst_inv in E as [E Ex]. cbn [fst snd] in *. pose proof Hx as [Hi Ha _ _ _].
    assert (Hc0 : strict = true -> c = []) by (by intros []%Hc). pose proof (storeGet_kept strict _ _ _ _ _ _ Hi Hc0 E) as Hk.
    apply (storeGet_cinv strict) in E as (Hi1 & Ha1 & _ & _ & _ & _ & Hv & Hr); [|done..].
    rewrite Ha in *. split_and!; [by apply sysinv_kept|done|]. split; [|done]. intros v ->. exact (Hv v eq_refl). }
  mstep H as E with loaded c1 x1; pose proof (HG _ _ _ E) as (Hx1 & Ex & Hr); [|cbn [fst snd] in *; by subst].
  destruct x1 as [st1 sc1]. cbn [fst snd] in *. subst sc1. unfold onSnd in H. munfold. simplify_eq. split; [|done].
  apply (startPrefetch_inv strict m (mkSystem _ _ _)); [done|by intros []%Hc].
Qed.

Lemma step_inv strict m e x o y : sysinv strict m x -> event_ok strict e -> step B codec obj hasher onNew e x = (o, y) ->
  sysinv strict m y /\ forall d r, o = Some (d, r) -> read_ok strict m d r.
Proof.
  assert (Hsub : forall c, sysinv strict m x -> heap c = heap (cs (sy_cache x)) -> next c = next (cs (sy_cache x)) -> cache c ⊆ cache (cs (sy_cache x)) ->
    sysinv strict m (mkSystem (mkSt (store (sy_cache x)) c (client (sy_cache x))) (sy_smart x) (sy_readers x))).
  { intros c0 Hx Hh Hn Hs. pose proof Hx as [Hi Ha _ _ _]. apply sysinv_kept; [done| |done|by apply kept_heap].
    by eapply cinv_sub; [exact Hi|apply Hi..|done|done|done|]. }
  intros Hx He H. destruct e as [c pctx d|c pctx d|i|i|d|]; cbn [step] in H.
  - destruct (GetWithPrefetch B codec obj hasher onNew pctx d c _) as [[r c'] [st sc]] eqn:E. simplify_eq.
    apply (GetWithPrefetch_inv strict m) in E as [? ?]; [|done..]. split; [done|]. by intros ? ? [= <- <-].
  - simplify_eq. split; [|done]. destruct Hx as [Hi Ha Hs Ht Hr]. split; [done..|]. cbn [sy_readers].
    apply list.Forall_app. split; [done|]. constructor; [|done]. by split.
  - by eapply runReader_inv.
  - destruct (runTask B codec obj hasher onNew i _) as [st sc] eqn:E. simplify_eq. split; [by eapply runTask_inv|done].
  - simplify_eq. split; [|done]. unfold onCached, Evict. destruct (cache (cs (sy_cache x)) !! DString d); apply Hsub; try done.
    apply delete_subseteq.
  - simplify_eq. split; [|done]. apply Hsub; try done. apply map_empty_subseteq.
Qed.
Lemma run_inv strict m es x os y : sysinv strict m x -> Forall (event_ok strict) es ->
  run B codec obj hasher onNew es x = (os, y) ->
  sysinv strict m y /\ Forall (fun o => read_ok strict m o.1 o.2) os.
Proof.
  revert x os. induction es as [|e es IH]; intros x os Hx He H; cbn [run] in H; [by simplify_eq|].
  apply list.Forall_cons in He as [He Hes]. destruct (step B codec obj hasher onNew e x) as [o x1] eqn:E1.
  destruct (run B codec obj hasher onNew es x1) as [os1 y1] eqn:E2. simplify_eq.
  apply (step_inv strict m) in E1 as [Hx1 Ho]; [|done..]. destruct (IH _ _ Hx1 Hes E2) as [Hy Hos].
  split; [done|]. apply list.Forall_app. split; [|done]. destruct o as [[d r]|]; [|constructor]. constructor; [by apply Ho|constructor].
Qed.

Lemma fresh_inv strict s l depth : inv s -> (strict = true -> quiet s) ->
  sysinv strict (abs s) (mkSystem (mkSt s CacheMem.New l) (NewSmartCache depth) []).
Proof. intros Hs Hq. split; [|done|cbn; lia|constructor..]. split; cbn; try done; intros *; by rewrite lookup_empty. Qed.

(** ** Properties *)

(** C26. Prefetching never changes an answer: over every history on a fresh
    cache of reads (uninterrupted, or a step at a time among the others' steps),
    goroutine steps, evictions and clears, at most eight prefetches are at work, the store's objects are untouched, and every value a
    read returns is what the store decodes for its digest, whatever contexts end
    and whatever fails; and when no context ends on a store without faults,
    every read answers as the store does, the object or its decoding error when
    it is there and ErrNotFound when it is not. *)
Theorem prefetch_reads (strict : bool) (s : S) (l : L) (depth : Z) (es : list event)
    (os : list (Digest * res T)) (y : system) :
  inv s -> (strict = true -> quiet s) -> Forall (event_ok strict) es ->
  run B codec obj hasher onNew es (mkSystem (mkSt s CacheMem.New l) (NewSmartCache depth) []) = (os, y) ->
  (length (tasks (sy_smart y)) <= prefetchConcurrency)%nat /\ abs (store (sy_cache y)) = abs s /\
  (forall d r, (d, r) ∈ os ->
    (forall v, r = Ok v -> exists data, abs s !! d = Some data /\ decodeObject codec obj data = Ok v) /\
    (strict = true -> key d -> hs_Validate hasher d = None ->
      match abs s !! d with
      | Some data => r = decodeObject codec obj data
      | None => exists e, r = Err e /\ errIs e ErrNotFound = true
      end)).
Proof.
  intros Hs Hq He H. destruct (run_inv strict (abs s) _ _ _ _ (fresh_inv strict s l depth Hs Hq) He H) as [[_ Ha Hn _ _] Hos].
  split_and!; [done|done|]. intros d r Hin. by apply (list.Forall_forall _ _) with (x := (d, r)) in Hos.
Qed.

(** C27. A prefetch ends, having looked every digest it saw up once: from any
    cache the goroutine's steps terminate in the state the recursive call
    leaves; the lookups it added to the cache's counters are the digests it
    added to the ones seen; and, without evictions, ended contexts and faults,
    every object the store has of those, and so every object the root refers
    to, is loaded. *)
Theorem prefetch_ends (strict : bool) (st : Cache) (v : T) (d : Digest) (depth : nat) (pctx : ctx) :
  cinv strict st -> (strict = true -> pctx = []) ->
  exists c' st' seen',
    prefetchRecursive B codec obj hasher onNew v depth pctx (st, {[DString d]}) = (Ok tt, c', (st', seen')) /\
    rtc alone (mkTask pctx {[DString d]} None (enter obj v depth), st) (mkTask c' seen' None [], st') /\
    counted (cs st') = wrap64 (counted (cs st) + (Z.of_nat (size seen') - 1)) /\
    (onNew = None -> strict = true -> forall x, x <> d -> key x -> hs_Validate hasher x = None ->
      is_Some (abs (store st) !! x) -> DString x ∈ seen' \/ ((0 < depth)%nat /\ x ∈ References obj v) ->
      loaded st' (DString x)).
Proof.
  intros Hi Hc. destruct (prefetch_agrees strict depth v pctx st {[DString d]} [] Hi Hc) as (c' & st' & seen' & Hm & He & Hp & Hr).
  rewrite app_nil_r in Hr. exists c', st', seen'. split_and!; [done|done| |].
  - pose proof (ef_count _ _ _ He) as E. cbn [fst snd] in E. by rewrite E, size_singleton.
  - intros Hno Hst x Hx Hk Hv Hd Hin. apply (ef_warm _ _ _ He); try done.
    + destruct Hin as [|[Hdepth Hin]]; [done|]. destruct (Hp Hst) as [_ Hsees]. apply Hsees; [done..|]. by apply bs_key_nonzero.
    + cbn. rewrite elem_of_singleton. by intros ?%(inj DString).
Qed.
End Facts.

(** ** A store of objects that name others by one byte

    a refers to b and c, b to c, and c to d. *)
Definition linkObject : Object bytes :=
  mkObject (fun _ => str "blob@1") (fun v => Some ((fun b => [b]) <$> v)) None (fun _ => false).
Definition linkData (payload : bytes) : bytes := encodeEnvelope (str "raw") (str "blob@1") payload.
Definition linkStore : Mem.Mem :=
  Mem.mkMem {[str "a" := linkData (str "bc"); str "b" := linkData (str "c"); str "c" := linkData (str "d"); str "d" := linkData []]} 0 56.
Definition anyHasher : Hasher := mkHasher (hs_Digest sumHasher) (fun _ => None).
Lemma linkStore_inv : Mem.inv linkStore.
Proof. split; vm_compute; try reflexivity; intros H; discriminate H. Qed.
Lemma mem_background {A} d what (k : M Mem.Mem A) s r c' s' : (forall r c' s', k [] s = (r, c', s') -> c' = []) ->
  (ctxErr;; lift (CheckDigest d what);; k) [] s = (r, c', s') -> c' = [].
Proof. intros Hk. munfold. destruct (CheckDigest d what); [apply Hk|by intros; simplify_eq]. Qed.
Lemma mem_Exists_background d s r c' s' : bk_Exists Mem.Backend d [] s = (r, c', s') -> c' = [].
Proof. apply mem_background. munfold. by intros; simplify_eq. Qed.
Lemma mem_Get_background d s r c' s' : bk_Get Mem.Backend d [] s = (r, c', s') -> c' = [].
Proof. apply mem_background. munfold. intros. by case_match; simplify_eq. Qed.

Abbreviation linkPrefetch := (prefetchRecursive (L := unit) Mem.Backend rawCodec linkObject anyHasher None).
Abbreviation linkRun := (run (L := unit) Mem.Backend rawCodec linkObject anyHasher None).
Definition linkFresh (depth : Z) : system (S := Mem.Mem) (T := bytes) (L := unit) :=
  mkSystem (mkSt linkStore CacheMem.New tt) (NewSmartCache depth) [].
(** An iteration of a prefetch over an object that is not cached. *)
Definition runs (n : nat) : list event := replicate n (EvRun 0).
Abbreviation prefetchOne := (runs 6).
Definition linkRead (o : res unit * ctx * (St Mem.Mem bytes unit * gset bytes)) (k : bytes) : bool :=
  match Lookup (DString k) (cs o.2.1) with Some ref => IsLoaded (cs o.2.1) ref | None => false end.

(** A reference within the depth may stay unloaded: with two levels, c is first
    reached through b, where no level is left for what it refers to, and is
    skipped as seen when the root's own loop comes to it; so d, two levels below
    a, is not loaded, though it is with the references of a in another order. *)
Lemma prefetch_misses_near :
  linkRead (linkPrefetch (str "bc") 2 [] (mkSt linkStore CacheMem.New tt, {[DString (str "a")]})) (str "d") = false /\
  linkRead (linkPrefetch (str "cb") 2 [] (mkSt linkStore CacheMem.New tt, {[DString (str "a")]})) (str "d") = true.
Proof. split; vm_compute; reflexivity. Qed.

(** A prefetch can fail a read: one whose time runs out while it loads b leaves
    that error in b's cached object, and every later read of b, under a
    background context, answers it. *)
Lemma prefetch_poisons_read :
  (linkRun ([EvGet [] [None; None; Some CtxDeadlineExceeded] (str "a")] ++ prefetchOne ++ [EvGet [] [] (str "b")]) (linkFresh 1)).1 =
    [(str "a", Ok (str "bc")); (str "b", Err DeadlineExceeded)] /\
  (linkRun ([EvGet [] [] (str "a")] ++ prefetchOne ++ [EvGet [] [] (str "b")]) (linkFresh 1)).1 =
    [(str "a", Ok (str "bc")); (str "b", Ok (str "c"))].
Proof. split; vm_compute; reflexivity. Qed.

(** A read and a prefetch that both miss b share the object the first of them
    enters, which is loaded once; but if b is evicted between the two, each has an
    object of its own, and the store is read twice.  The answer is the same. *)
Definition meeting (between : list event) : list event :=
  [EvGet [] [] (str "a")] ++ runs 3 ++ [EvCall [] [] (str "b"); EvRead 0; EvRead 0] ++ runs 2 ++ between ++
  [EvRead 0; EvRun 0; EvRead 0; EvRead 0; EvRead 0].
Lemma prefetch_meets_read :
  (linkRun (meeting []) (linkFresh 1)).1 = [(str "a", Ok (str "bc")); (str "b", Ok (str "c"))] /\
  Loads (cs (sy_cache (linkRun (meeting []) (linkFresh 1)).2)) = 2 /\
  (linkRun (meeting [EvEvict (str "b")]) (linkFresh 1)).1 = [(str "a", Ok (str "bc")); (str "b", Ok (str "c"))] /\
  Loads (cs (sy_cache (linkRun (meeting [EvEvict (str "b")]) (linkFresh 1)).2)) = 3.
Proof. split_and!; vm_compute; reflexivity. Qed.

Example prefetch_reads_witness :
  let x := linkRun (meeting [EvEvict (str "b")] ++ [EvGet [] [] (str "e")]) (linkFresh 2) in
  (length (tasks (sy_smart x.2)) <= 8)%nat /\
  (forall r, (str "b", r) ∈ x.1 -> r = Ok (str "c")) /\
  (forall r, (str "e", r) ∈ x.1 -> exists e, r = Err e /\ errIs e ErrNotFound = true).
Proof.
  intros x.
  destruct (prefetch_reads (L := unit) Mem.Backend rawCodec linkObject anyHasher Mem.inv (fun _ => True) Mem.key Mem.objects
    (HB := Mem.mem_BackendSpec) None no_policy mem_Exists_background mem_Get_background true linkStore tt 2
    (meeting [EvEvict (str "b")] ++ [EvGet [] [] (str "e")]) x.1 x.2) as (Hn & _ & Hr).
  - exact linkStore_inv.
  - done.
  - repeat constructor.
  - apply surjective_pairing.
  - split_and!; [exact Hn|..]; intros r Hin; destruct (Hr _ _ Hin) as [_ Hd].
    + rewrite (Hd eq_refl); [vm_compute; reflexivity|discriminate|reflexivity].
    + apply (Hd eq_refl); [discriminate|reflexivity].
Defined.

Example prefetch_ends_witness :
  let x := linkPrefetch (str "bc") 1 [] (mkSt linkStore CacheMem.New tt, {[DString (str "a")]}) in
  run_res x = Ok tt /\ counted (cs x.2.1) = 2 /\ loaded x.2.1 (DString (str "b")) /\ loaded x.2.1 (DString (str "c")).
Proof.
  pose proof (si_cache _ _ _ _ _ _ _ _ _ _ (fresh_inv (L := unit) rawCodec linkObject anyHasher Mem.inv (fun _ => True) Mem.key
    Mem.objects true linkStore tt 1 linkStore_inv (fun _ => I))) as Hi.
  destruct (prefetch_ends (L := unit) Mem.Backend rawCodec linkObject anyHasher Mem.inv (fun _ => True) Mem.key Mem.objects
    (HB := Mem.mem_BackendSpec) None no_policy mem_Exists_background mem_Get_background true (sy_cache (linkFresh 1))
    (str "bc") (str "a") 1 [] Hi (fun _ => eq_refl)) as (c' & st' & seen' & Hm & _ & _ & Hl).
  cbv zeta. cbn [linkFresh sy_cache] in Hm.
  split_and!; [by rewrite Hm|vm_compute; reflexivity|..]; rewrite Hm; cbn [fst snd];
    (apply Hl; [reflexivity|reflexivity|discriminate|discriminate|reflexivity|by eexists|right]);
    (split; [lia|]); by apply (bool_decide_unpack _).
Defined.
End Prefetch.
